(* ===== verification/_CoqProject ===== *)
-Q . S2P
Prelude.v
Externals.v
RustStd.v
Format.v
Index.v
Shard.v
Config.v
Ring.v
Sealer.v
Signal.v
Pipeline.v
KeyRing.v
FileSys.v
Storage.v
Frame.v
Recovery.v
Committer.v
Reader.v
ChunkIter.v
ReadBack.v
Scan.v
ShardMap.v
Append.v
AtomicFile.v
Checkpoint.v
Open.v
Flush.v
Tailer.v
Pusher.v
MultiGet.v
HandleRead.v
Coordinator.v
Leader.v
OffsetLog.v
BrokerService.v
ByteReader.v
ServerRecord.v
StreamStore.v
SeqCheckpoint.v
Catalog.v
Lifecycle.v
Publisher.v
ServiceRun.v
ServerTail.v
ServerOffsets.v
Query.v
Replication.v
Exporter.v
KeyProvider.v
ServerStart.v
Snapshot.v
Backup.v
GroupConsumer.v
ServerApi.v
Client.v
TailSession.v
Gateway.v
BrokerStart.v
ExporterStart.v
