(* ===== verification/Prelude.v ===== *)
(** * lv-logdb: a verification development

    lv-logdb is an embedded, sharded, append-only log written in Rust.  Producers
    claim a sequence number in a shard's ring buffer and publish their record in
    its slot; a sealer thread per shard links the published records by a keyed
    hash chain; one committer thread copies the records of all shards into
    segment files, rolls and syncs them and moves the committed and durable
    cursors; readers look records up through a cached directory listing and a
    sparse index or scan a range over all shards; after a crash each shard is
    recovered from its last segment.  Around the log there are servers: [logdbd]
    keeps named streams with quotas, deletion, queries, subscriptions and
    standbys in it, the broker gives the shards of a stream to the consumers
    of a group and forwards their records, and the exporter hands a stream to a
    sink.  This library models the log (the crate [logdb], under
    [src/logdb/src]), the server ([src/logdbd/src]), the broker
    ([src/logdb-broker/src]), the exporter ([src/logdb-exporter/src]) and the
    client library ([src/logdb-client/src]) in Rocq and proves the theorems that
    make them correct.

    ** Files

    - [Prelude]: machine integers, byte strings, results, little-endian codecs,
      the hint databases and tactics ([len], [slices]) every file uses.
    - [Externals]: the functions of third-party crates (CRC-32C, BLAKE3, SHA-256,
      AES-GCM, zstd) as a class of parameters, the laws the theorems use as a
      second class, and a toy instance that satisfies them.
    - [RustStd]: binary search, stable sorting and minima of the standard library.
    - [Format] ([storage/format.rs], [record.rs]): headers, records and frame
      headers, byte for byte.  [Index] ([storage/index.rs]): the sparse index.
    - [Shard], [ShardMap] ([shard.rs]): record ids, routing, claims per shard.
    - [Config] ([config.rs], [error.rs], [health.rs]): configuration and its
      validation, the health cell.
    - [Ring] ([ring/slot.rs], [ring/mod.rs]): slots and the ring with its
      cursors.  [Sealer] ([pipeline/sealer.rs]): the hash chain.
      [Signal] ([pipeline/signal.rs], [pipeline/trigger.rs]): flush and shutdown.
    - [Pipeline]: the threads of one shard as an interleaving step relation over
      atomic accesses of the ring.
    - [KeyRing] (the key ring of [lib.rs]); [FileSys]: a directory of segment
      files with stable storage, linked entries and injected faults;
      [Storage] ([storage/mod.rs]): the segment manager in a state and error
      monad over it; [Frame]: compressed and encrypted batches.
    - [Recovery] ([recovery.rs]): crash recovery of a shard.
    - [Committer] ([pipeline/committer.rs]): one pass of the committer loop over
      all shards, and its composition with everything that runs beside it.
    - [Reader] ([reader/mod.rs]), [ChunkIter] ([reader/iter.rs]), [ReadBack]
      (what the reader finds in a shard directory), [Scan] ([reader/scan.rs]),
      [MultiGet] (batched reads).
    - The database handle of [lib.rs]: [Append] (append, batches, replication),
      [AtomicFile] (small files replaced by a rename, with what a crash may
      leave), [Checkpoint] (checkpoint and recovery report), [Open], [Flush]
      (flush, drain, shutdown as machines that poll beside the committer),
      [HandleRead] (reads and scans through the handle).
    - [Tailer] ([tailer.rs]) and [Pusher] ([pusher.rs]): consumers with their own
      positions and progress files.
    - The broker: [Coordinator] ([coordinator.rs]: groups, sticky assignment,
      offsets), [Leader] ([leader.rs]: election over a meta stream), [OffsetLog]
      ([persistence.rs] and the start of a broker: commit events, snapshots,
      replay), [BrokerService] ([service.rs], [sessions.rs], [forwarder.rs]: the
      handlers, open streams and what they forward), [BrokerStart] ([config.rs],
      [main.rs]: settings, the embedded server and the start).
    - The server: [ByteReader] (decoders that walk over a byte string),
      [ServerRecord] ([record.rs]), [StreamStore] ([storage.rs]: streams over the
      log), [SeqCheckpoint] (the checkpoint of the stream maps), [Catalog]
      ([catalog.rs]: names and numbers), [Lifecycle] ([auth.rs], [tombstone.rs],
      [quota.rs] and the write and read handlers of [service.rs]), [Publisher]
      ([publisher.rs], [subscribe.rs]), [ServiceRun] (histories of requests),
      [ServerTail] (tail, scan, verification), [ServerOffsets] ([offsets.rs],
      [consumer.rs]), [Query] ([query.rs]), [Replication] ([replication.rs]),
      [KeyProvider] ([crypto/provider.rs]), [ServerStart] ([config.rs], [node.rs]
      and [main.rs] up to the opening of the log), [Snapshot] ([snapshot.rs]),
      [Backup] ([backup.rs]), [ServerApi] (the rest of [service.rs]: a call from
      its token to its answer, records on the wire, every handler by name).
    - [Exporter] ([src/logdb-exporter/src]: the progress file, the sinks and the
      pipeline of the exporter); [ExporterStart] (its settings and start).
    - The clients, run against the handlers of the servers: [GroupConsumer]
      ([logdb-client/src/broker.rs]: join, consume with its retry, commit, leave),
      [Client] ([logdb-client/src/client.rs]), [TailSession] (sessions of a
      consumer over a tail and its commits), [Gateway] (produce through the broker
      and the tails it opens for its consumers).

    ** What the theorems show

    - The concurrent pipeline refines an abstract append-only log: no slot is
      accessed by two threads at once, the file holds the claimed records in
      order with their ids, contents and hashes, none left out, and a drain sees
      every admitted append.  A record is in the file twice only when a batch
      failed after it was written and was tried again.
    - Durability: when a flush returns success the appends before it are durable,
      and the segment files that hold them had reached stable storage, unless a
      failed sync took a segment off the queue.
    - Storage and recovery: batches are written as the longest prefix that fits;
      recovery keeps every record of an intact prefix, cuts torn tails and only
      those, ends on every input, and finds the chain key after key rotation;
      retention and truncation delete only what they may.
    - Reading: what was appended is read back, point reads and range scans
      return exactly the stored records, the chunked iterator and the heap merge
      equal their plain definitions.  The theorems on recovery, reads, scans and
      tailers state the layout of directories they ask for; a roll to a segment
      that was prepared before its last predecessors were written breaks it.
    - The handle: an append ends in one of the documented ways and then changes
      nothing or publishes exactly its record; it is a run of the pipeline; open
      resumes behind the recovered records; a flush or a clean drain that
      returns success has made everything durable; checkpoints survive crashes;
      reads and batched reads see exactly the durable records.
    - Consumers: a tailer delivers every durable record of every shard once and
      in order, catches up, and never skips a record after a crash; the pusher
      hands records over in order and without a gap.
    - The broker: in every history of a group each shard has exactly one owner,
      members have their fair share and a rebalance moves as few shards as
      possible; the forward tasks that sessions hold follow the assignment (the
      per-shard tasks of aborted ones run on, and are modelled); offsets are the
      greatest commit and survive restarts on a server with one shard; a group
      never has two leaders within a lease when passes do not overlap and scans
      bring every claim.
    - The server: reading a stream's number shows exactly the durable records
      that the log's read finds, through appends, failed appends, replication and
      restarts (those after which the rebuild is not skipped); a start
      from the checkpoint of the maps equals a rebuild; the catalog stays well
      formed and never gives a number to a second stream; quota counts and
      tombstones equal those counted afresh from the log, quotas bound the
      live records, and deleted records stay hidden; a tail delivers a stream's
      records in order, on one shard a subscription that joins in time misses none,
      a query answers over exactly the selected records; flushed offsets survive a
      restart.  The histories have admissible requests ([user_req]) and restarts
      whose scans cover the log ([start_covers]): always so with one shard.
    - Replication: through lost, late and repeated pushes and crashes of both
      sides a standby's log is a prefix of the primary's and its reads agree with
      the primary's; a position that a synchronous primary with a connected standby
      moves to is held by as many standbys as its policy asks for.
    - Operations: a backup unpacks to the files of the data directory (a restore
      that verifies then opens the log on them), a
      snapshot carries the selected log files over byte for byte, frames decode
      under every later key configuration that still lists their key, a server
      that other machines can reach answers only requests with a token, at most
      one primary runs on a data directory, and placeholders of the
      configuration are filled in.
    - The exporter never skips a record of a server that sends records in the order
      of their numbers when its sink writes through, through crashes, failed saves
      and restarts.
    - End to end: what a client appended is what a client reads, through every
      later history of the server; a consumer that reads a stream in sessions sees
      each record once and in order up to its commits; a group consumer's shards
      are those the broker forwards to it; and a record produced through the broker
      is sent, with all its fields, to the one member of a group whose session holds
      a task of its shard.
    - Codecs: headers, records, index files, frames, record ids, server records
      and offset files round-trip, and the record decoder accepts encodings only.

    Theorems whose comment carries a number C<n> are these properties.  Theorems
    without a number at the end of a file show where the code departs from what
    it means to do, on a concrete state.

    ** Modelling decisions

    All cargo features are enabled.  Unsigned integers are [Z] with wrap-around
    written where the code wraps; file offsets are exact.  Loops that are not
    structural run on fuel that is proved to be enough: one unit per byte of the
    file in the scans, one turn of the ring in the published-run scans.  The
    pipeline's memory is sequentially consistent, and claims stay below
    [u64::MAX], the value that stands for "no target".  A compare-exchange loop
    takes effect when it succeeds.  The order in which a directory is listed is a
    parameter that permutes the entries; the capacity of the write buffer, the
    lengths of short reads and the hash of a thread id are parameters too.  A
    committer pass reads the shared state once.  The I/O of recovery and of the
    readers succeeds on files that exist.  A [HashMap] is walked in some fixed
    order.  The handlers of the broker and the server run one after the other,
    except where a theorem interleaves them; shard and member counts fit in 32
    bits.  To the server the log is what its handle shows: the content under each
    id, found by a scan once it is committed and by a read once it is durable, unless
    it is among the ids that a search from a given id misses ([ls_hidden]: records of
    deleted segments and records behind a stale base).  A clean stop leaves a log of
    any number of shards ([clean_stop]); whether the scans of the next start cover it
    is a condition of its own ([start_covers]).  The broker's meta stream has the ids
    the server gave its records, and a scan returns those it finds in the order of
    their ids; the scan for claims may break off.  The id an append is given,
    whether a small file could be written, whether a push arrives, and when a
    heartbeat is due are parameters.  Strings are their UTF-8 bytes.

    ** Not modelled

    Logging and metrics, thread spawning and join, back-off and park timing (only
    their outcome is), the io_uring back end, file-name parsing, and error
    message texts; gRPC, JSON and YAML.  Of the server, the health probe and signal
    handling.  The administration tool, the client in TypeScript, and dialling and
    reconnecting in the client library, whose outcome is a parameter. *)
From stdpp Require Import base gmap list numbers sorting strings.
From coqutil Require Import Byte Word.LittleEndianList.
From Stdlib Require Import ZArith Lia.

Open Scope Z_scope.

(** ** Machine integers *)

(** A w-bit unsigned integer is a [Z]; [wrap w] is the reduction that every
    wrapping operation of the source performs. *)
Definition wrap (w z : Z) : Z := z mod 2 ^ w.

Abbreviation u8 := (wrap 8).
Abbreviation u32 := (wrap 32).
Abbreviation u64 := (wrap 64).
Abbreviation u128 := (wrap 128).

Abbreviation U8_MAX := (2 ^ 8 - 1).
Abbreviation U32_MAX := (2 ^ 32 - 1).
Abbreviation U64_MAX := (2 ^ 64 - 1).

(** [in_range w z]: [z] is a value of the w-bit unsigned type. *)
Definition in_range (w z : Z) : Prop := 0 <= z < 2 ^ w.

#[global] Instance in_range_dec w z : Decision (in_range w z).
Proof. unfold in_range; apply _. Defined.

(** [x.saturating_sub(y)], [x.saturating_add(y)] and [x.saturating_mul(y)] at
    64 bits. *)
Definition sat_sub (x y : Z) : Z := Z.max 0 (x - y).
Definition sat_add64 (x y : Z) : Z := Z.min U64_MAX (x + y).
Definition sat_mul64 (x y : Z) : Z := Z.min U64_MAX (x * y).

Lemma wrap_small w z : in_range w z -> wrap w z = z.
Proof. apply Z.mod_small. Qed.

Lemma wrap_range w z : 0 <= w -> in_range w (wrap w z).
Proof. intros; apply Z.mod_pos_bound, Z.pow_pos_nonneg; lia. Qed.

Lemma wrap_wrap w z : wrap w (wrap w z) = wrap w z.
Proof. apply Z.mod_mod_divide, Z.divide_refl. Qed.

Lemma wrap_add_l w x y : 0 <= w -> wrap w (wrap w x + y) = wrap w (x + y).
Proof. intros; unfold wrap; apply Z.add_mod_idemp_l, Z.pow_nonzero; lia. Qed.

Lemma wrap_sub_l w x y : 0 <= w -> wrap w (wrap w x - y) = wrap w (x - y).
Proof. intros; unfold wrap; apply Zminus_mod_idemp_l. Qed.

(** ** Results and fallible computations *)

(** [Result<A, E>]. *)
Inductive result (E A : Type) : Type :=
| Ok (a : A)
| Err (e : E).
Arguments Ok {E A} a.
Arguments Err {E A} e.

#[global] Instance result_ret E : MRet (result E) := fun A a => Ok a.
#[global] Instance result_bind E : MBind (result E) :=
  fun A B f m => match m with Ok a => f a | Err e => Err e end.

Definition is_ok {E A} (r : result E A) : bool :=
  match r with Ok _ => true | Err _ => false end.

(** [Result::ok]. *)
Definition ok_of {E A} (r : result E A) : option A :=
  match r with Ok a => Some a | Err _ => None end.

(** [Result::map_err]. *)
Definition map_err {E F A} (f : E -> F) (r : result E A) : result F A :=
  match r with Ok a => Ok a | Err e => Err (f e) end.

(** ** Byte strings *)

Abbreviation bytes := (list byte).

(** [bs.len()] as an integer. *)
Abbreviation blen bs := (Z.of_nat (length bs)).

#[global] Instance byte_eq_dec : EqDecision byte := Byte.byte_eq_dec.

(** [&bs[a..b]]. *)
Definition slice (bs : bytes) (a b : Z) : bytes :=
  take (Z.to_nat (b - a)) (drop (Z.to_nat a) bs).

(** [dst[off .. off + src.len()].copy_from_slice(src)].  The result always has
    the length of [dst]; every use in the model is inside [dst], where the outer
    [take] does nothing ([copy_at_in_bounds]). *)
Definition copy_at (off : Z) (src dst : bytes) : bytes :=
  take (length dst) (take (Z.to_nat off) dst ++ src ++ drop (Z.to_nat off + length src) dst).

(** [[0u8; n]]. *)
Definition zeros (n : Z) : bytes := replicate (Z.to_nat n) Byte.x00.

(** [x.to_le_bytes()] at [n] bytes, and [uN::from_le_bytes]. *)
Definition to_le (n : nat) (z : Z) : bytes := le_split n z.
Definition from_le (bs : bytes) : Z := le_combine bs.

(** The [n]-byte little-endian integer stored at offset [off]. *)
Definition get_le (bs : bytes) (off n : Z) : Z := from_le (slice bs off (off + n)).

#[global] Arguments slice : simpl never.
#[global] Arguments copy_at : simpl never.
#[global] Arguments zeros : simpl never.
#[global] Arguments to_le : simpl never.
#[global] Arguments from_le : simpl never.
#[global] Arguments get_le : simpl never.
#[global] Arguments wrap : simpl never.

(** Rewriting database for lengths of byte strings. *)
Create Rewrite HintDb len.

Lemma length_zeros n : length (zeros n) = Z.to_nat n.
Proof. apply length_replicate. Qed.

Lemma length_to_le n z : length (to_le n z) = n.
Proof. apply length_le_split. Qed.

Lemma length_slice bs a b :
  length (slice bs a b) = Nat.min (Z.to_nat (b - a)) (length bs - Z.to_nat a).
Proof. unfold slice. by rewrite length_take, length_drop. Qed.

Lemma length_copy_at off src dst : length (copy_at off src dst) = length dst.
Proof. unfold copy_at. rewrite length_take, !length_app, length_take, length_drop. lia. Qed.

#[export] Hint Rewrite @length_app @length_take @length_drop @length_nil @length_cons
  @length_replicate length_zeros length_to_le length_slice length_copy_at : len.

(** Solves equalities and inequalities between lengths. *)
Ltac len := autorewrite with len; cbn [length]; lia.

Lemma blen_slice bs a b :
  0 <= a <= b -> b <= blen bs -> blen (slice bs a b) = b - a.
Proof. len. Qed.

Lemma slice_all bs : slice bs 0 (blen bs) = bs.
Proof. unfold slice. rewrite drop_0. apply take_ge. lia. Qed.

Lemma slice_app_l (xs ys : bytes) a b :
  0 <= a -> b <= blen xs -> slice (xs ++ ys) a b = slice xs a b.
Proof.
  intros. unfold slice. destruct (decide (a <= blen xs)).
  - rewrite drop_app_le by lia. apply take_app_le. rewrite length_drop. lia.
  - replace (Z.to_nat (b - a)) with 0%nat by lia. by rewrite !take_0.
Qed.

Lemma slice_app_r (xs ys : bytes) a b :
  blen xs <= a -> slice (xs ++ ys) a b = slice ys (a - blen xs) (b - blen xs).
Proof.
  intros. unfold slice. rewrite drop_app_ge by lia.
  f_equal; [lia|]. f_equal. lia.
Qed.

Lemma slice_app_exact (xs ys : bytes) a b :
  a = 0 -> b = blen xs -> slice (xs ++ ys) a b = xs.
Proof. intros -> ->. rewrite slice_app_l by lia. apply slice_all. Qed.

Lemma slice_exact (xs : bytes) a b : a = 0 -> b = blen xs -> slice xs a b = xs.
Proof. intros -> ->. apply slice_all. Qed.

Lemma copy_at_in_bounds off src dst :
  0 <= off -> off + blen src <= blen dst ->
  copy_at off src dst = take (Z.to_nat off) dst ++ src ++ drop (Z.to_nat off + length src) dst.
Proof. intros. apply take_ge. len. Qed.

(** Writing right after a prefix extends the prefix. *)
Lemma copy_at_next off src pre rest :
  off = blen pre -> blen src <= blen rest ->
  copy_at off src (pre ++ rest) = (pre ++ src) ++ drop (length src) rest.
Proof.
  intros -> ?. rewrite copy_at_in_bounds by len.
  rewrite Nat2Z.id, take_app_length, drop_app_ge by lia.
  rewrite <- app_assoc. do 3 f_equal. lia.
Qed.

Lemma copy_at_head src hd rest :
  length src = length hd -> copy_at 0 src (hd ++ rest) = src ++ rest.
Proof.
  intros Hl. rewrite copy_at_in_bounds by len. simpl.
  rewrite drop_app_ge by lia. by rewrite Hl, Nat.sub_diag, drop_0.
Qed.

(** A read of a range the last write did not touch sees the old bytes. *)
Lemma slice_copy_ne off src dst a b :
  0 <= off -> 0 <= a -> b <= off \/ off + blen src <= a ->
  slice (copy_at off src dst) a b = slice dst a b.
Proof.
  intros Hoff Ha Hdisj. apply list_eq; intros i. unfold slice.
  destruct (decide (i < Z.to_nat (b - a))%nat) as [Hi|Hi];
    [|by rewrite !lookup_take_ge by lia].
  rewrite !lookup_take_lt, !lookup_drop by lia. unfold copy_at.
  destruct (decide (Z.to_nat a + i < length dst)%nat) as [Hl|Hl].
  2:{ rewrite lookup_take_ge, lookup_ge_None_2 by lia. done. }
  rewrite lookup_take_lt by done. destruct Hdisj.
  - rewrite lookup_app_l by len. by rewrite lookup_take_lt by lia.
  - rewrite !lookup_app_r, lookup_drop by len. f_equal. len.
Qed.

(** A read of exactly the range just written returns what was written. *)
Lemma slice_copy_eq off src dst b :
  0 <= off -> off + blen src <= blen dst -> b = off + blen src ->
  slice (copy_at off src dst) off b = src.
Proof.
  intros ?? ->. rewrite copy_at_in_bounds by done. unfold slice.
  rewrite drop_app_ge by len.
  replace (Z.to_nat off - length (take (Z.to_nat off) dst))%nat with 0%nat by len.
  rewrite drop_0, take_app_le by lia. apply take_ge. lia.
Qed.

(** Evaluates reads of a buffer built by [copy_at]s or by concatenation. *)
Ltac slices :=
  repeat match goal with
  | |- context [slice (copy_at ?o ?s ?d) ?a ?b] =>
      first [ rewrite (slice_copy_ne o s d a b) by len
            | rewrite (slice_copy_eq o s d b) by len ]
  | |- context [slice (?x ++ ?y) ?a ?b] =>
      first [ rewrite (slice_app_exact x y a b) by len
            | rewrite (slice_app_r x y a b) by len
            | rewrite (slice_app_l x y a b) by len ]
  | |- context [slice ?x ?a ?b] => rewrite (slice_exact x a b) by len
  end.

Lemma from_to_le n z : in_range (Z.of_nat n * 8) z -> from_le (to_le n z) = z.
Proof. intros. unfold from_le, to_le. rewrite le_combine_split. by apply Z.mod_small. Qed.

Lemma to_from_le n bs : length bs = n -> to_le n (from_le bs) = bs.
Proof. intros <-. apply split_le_combine. Qed.

Lemma from_le_range bs : in_range (8 * blen bs) (from_le bs).
Proof. apply le_combine_bound. Qed.

Lemma get_le_range bs off n : 0 <= n -> in_range (8 * n) (get_le bs off n).
Proof.
  intros. unfold get_le. pose proof (from_le_range (slice bs off (off + n))) as [? Hub].
  split; [done|]. eapply Z.lt_le_trans; [done|]. apply Z.pow_le_mono_r; len.
Qed.

Lemma to_le_get_le bs off m n :
  n = Z.of_nat m -> 0 <= off -> off + n <= blen bs ->
  to_le m (get_le bs off n) = slice bs off (off + n).
Proof. intros. apply to_from_le. len. Qed.

Lemma slice_slice bs a b p q :
  0 <= a -> 0 <= p -> a + q <= b -> slice (slice bs a b) p q = slice bs (a + p) (a + q).
Proof.
  intros. unfold slice. rewrite skipn_firstn_comm, take_take, drop_drop. f_equal; [lia|]. f_equal. lia.
Qed.

Lemma slice_take bs n a b : 0 <= a -> b <= n -> slice (take (Z.to_nat n) bs) a b = slice bs a b.
Proof.
  intros. unfold slice. rewrite skipn_firstn_comm, take_take. f_equal. lia.
Qed.

Lemma slice_split bs a b c :
  0 <= a <= b -> b <= c -> slice bs a c = slice bs a b ++ slice bs b c.
Proof.
  intros. unfold slice. replace (Z.to_nat (c - a)) with (Z.to_nat (b - a) + Z.to_nat (c - b))%nat by lia.
  rewrite <- take_take_drop, drop_drop. do 3 f_equal. lia.
Qed.

(** Two byte strings that agree on consecutive ranges agree on their union. *)
Fixpoint agree_on (l1 l2 : bytes) (a : Z) (cuts : list Z) : Prop :=
  match cuts with
  | [] => True
  | c :: cuts => 0 <= a <= c /\ slice l1 a c = slice l2 a c /\ agree_on l1 l2 c cuts
  end.

Fixpoint last_cut (a : Z) (cuts : list Z) : Z :=
  match cuts with [] => a | c :: cuts => last_cut c cuts end.

Lemma agree_on_le l1 l2 a cuts : agree_on l1 l2 a cuts -> a <= last_cut a cuts.
Proof.
  revert a. induction cuts as [|c cuts IH]; intros a; simpl; [lia|].
  intros ([??] & _ & Hc). specialize (IH c Hc). lia.
Qed.

Lemma agree_on_slice l1 l2 a cuts :
  agree_on l1 l2 a cuts -> slice l1 a (last_cut a cuts) = slice l2 a (last_cut a cuts).
Proof.
  revert a. induction cuts as [|c cuts IH]; intros a; simpl.
  - intros _. unfold slice. by rewrite Z.sub_diag.
  - intros ([??] & Hs & Hc). pose proof (agree_on_le _ _ _ _ Hc).
    rewrite (slice_split l1 a c), (slice_split l2 a c) by lia. by rewrite Hs, (IH c Hc).
Qed.

(** ** Lists *)

Lemma last_cons_default {A} (x d : A) l : List.last (x :: l) d = List.last l x.
Proof. revert x. induction l as [|y l IH]; intros x; [done|]. simpl in *. by destruct l. Qed.

Lemma last_elem {A} (x : A) l : List.last l x ∈ x :: l.
Proof. revert x. induction l as [|y l IH]; intros x; [by left|]. rewrite last_cons_default. right. apply IH. Qed.

Lemma list_alter_insert {A} (f : A -> A) i x (l : list A) : alter f i (<[i := x]> l) = <[i := f x]> l.
Proof. revert i. induction l as [|y l IH]; intros [|i]; simpl; try done. f_equal. apply IH. Qed.

(** ** Filtered and sorted lists *)

Lemma filter_fmap {A B} (f : A -> B) (P : B -> Prop) `{!forall x, Decision (P x)} (l : list A) :
  filter P (f <$> l) = f <$> filter (fun x => P (f x)) l.
Proof. induction l as [|x l IH]; [done|]. csimpl. rewrite !filter_cons. case_decide; csimpl; by rewrite IH. Qed.

Lemma filter_ext_elem {A} (P Q : A -> Prop) `{!forall x, Decision (P x), !forall x, Decision (Q x)} (l : list A) :
  (forall x, x ∈ l -> P x <-> Q x) -> filter P l = filter Q l.
Proof.
  induction l as [|x l IH]; intros Hpq; [done|]. rewrite !filter_cons.
  rewrite IH by (intros y Hy; apply Hpq; by right). specialize (Hpq x ltac:(left)).
  case_decide; case_decide; tauto.
Qed.

Lemma filter_all {A} (P : A -> Prop) `{!forall x, Decision (P x)} (l : list A) :
  (forall x, x ∈ l -> P x) -> filter P l = l.
Proof.
  induction l as [|x l IH]; intros Hp; [done|]. rewrite filter_cons_True by (apply Hp; left).
  f_equal. apply IH. intros y Hy. apply Hp. by right.
Qed.

Lemma filter_nothing {A} (P : A -> Prop) `{!forall x, Decision (P x)} (l : list A) :
  (forall x, x ∈ l -> ~ P x) -> filter P l = [].
Proof.
  induction l as [|x l IH]; intros Hp; [done|]. rewrite filter_cons_False by (apply Hp; left).
  apply IH. intros y Hy. apply Hp. by right.
Qed.

Lemma sorted_filter {A} (R : A -> A -> Prop) (P : A -> Prop) `{!forall x, Decision (P x)} (l : list A) :
  StronglySorted R l -> StronglySorted R (filter P l).
Proof.
  induction 1 as [|x l _ IH Hall]; [constructor|]. rewrite filter_cons. case_decide; [|done].
  constructor; [done|]. apply Forall_forall. intros y [_ Hy]%list_elem_of_filter.
  exact (proj1 (Forall_forall _ _) Hall y Hy).
Qed.

Lemma sorted_impl_elem {A} (R Q : A -> A -> Prop) l :
  (forall x y, x ∈ l -> y ∈ l -> R x y -> Q x y) -> StronglySorted R l -> StronglySorted Q l.
Proof.
  intros Himp Hs. induction Hs as [|x l Hs IH Hall]; constructor.
  - apply IH. intros y z Hy Hz. apply Himp; by right.
  - apply Forall_forall. intros y Hy. apply Himp; [left|by right|]. exact (proj1 (Forall_forall _ _) Hall y Hy).
Qed.

Lemma sorted_inj {A} (key : A -> Z) l x y :
  StronglySorted (fun a b => key a < key b) l -> x ∈ l -> y ∈ l -> key x = key y -> x = y.
Proof.
  induction 1 as [|z l _ IH Hall]; intros Hx Hy Heq; [by apply not_elem_of_nil in Hx|].
  apply elem_of_cons in Hx as [->|Hx], Hy as [->|Hy]; [done| | |by apply IH].
  - pose proof (proj1 (Forall_forall _ _) Hall y Hy). simpl in *. lia.
  - pose proof (proj1 (Forall_forall _ _) Hall x Hx). simpl in *. lia.
Qed.

Lemma list_elem_of_concat {A} (x : A) ls : x ∈ concat ls <-> exists l, x ∈ l /\ l ∈ ls.
Proof.
  rewrite list_elem_of_In, in_concat. split; intros (l & H1 & H2); exists l; split; by apply list_elem_of_In.
Qed.

Lemma concat_empty {A} (ls : list (list A)) i l : concat ls = [] -> ls !! i = Some l -> l = [].
Proof.
  revert i. induction ls as [|x ls IH]; intros [|i] Hc Hi; simplify_eq/=; apply app_eq_nil in Hc as [? ?]; [done|by eapply IH].
Qed.
