(* ===== verification/Externals.v ===== *)
(** * Third-party primitives

    The functions of the crates [crc32c], [blake3], [sha2], [zstd] and
    [aes-gcm] are parameters of the model: the class [Externals] names them and
    [ExternalLaws] states the documented behaviour that some theorems rely on.
    [toy] is a concrete instance satisfying the laws; witnesses evaluate the
    model at it. *)
From S2P Require Import Prelude.
From stdpp Require Import base list numbers.
From coqutil Require Import Byte Word.LittleEndianList.
From Stdlib Require Import ZArith Lia.
Open Scope Z_scope.

Class Externals := {
  (** [crc32c::crc32c(bytes)], before the reduction to [u32]. *)
  crc32c_fn : bytes -> Z;
  (** [blake3::Hasher::new_keyed(key)], [update]d with the message,
      [finalize]d. *)
  blake3_keyed : bytes -> bytes -> bytes;
  (** [Sha256] of a message. *)
  sha256 : bytes -> bytes;
  (** [zstd::encode_all(raw, 0)] and [zstd::decode_all]. *)
  zstd_encode : bytes -> option bytes;
  zstd_decode : bytes -> option bytes;
  (** [Aes256Gcm::encrypt] and [decrypt]: key, nonce, text. *)
  aes_encrypt : bytes -> bytes -> bytes -> option bytes;
  aes_decrypt : bytes -> bytes -> bytes -> option bytes;
}.

(** The [u32] returned by [crc32c::crc32c]. *)
Definition crc32c `{Externals} (bs : bytes) : Z := u32 (crc32c_fn bs).

(** What the crates document: digests are 32 bytes long, the codecs invert each
    other, and AES-256-GCM is authenticated: a text does not decrypt under
    another key. *)
Class ExternalLaws `{Externals} : Prop := {
  blake3_length key msg : length (blake3_keyed key msg) = 32%nat;
  sha256_length msg : length (sha256 msg) = 32%nat;
  zstd_round raw c : zstd_encode raw = Some c -> zstd_decode c = Some raw;
  aes_round k n pt ct : aes_encrypt k n pt = Some ct -> aes_decrypt k n ct = Some pt;
  aes_auth k k' n pt ct : length k = 32%nat -> length k' = 32%nat -> k <> k' ->
    aes_encrypt k n pt = Some ct -> aes_decrypt k' n ct = None;
}.

Lemma crc32c_range `{Externals} bs : in_range 32 (crc32c bs).
Proof. by apply wrap_range. Qed.

(** ** A concrete instance *)

(** A 32-byte digest: each byte folds the message from a different seed. *)
Definition toy_fold (seed : Z) (bs : bytes) : Z :=
  foldl (fun acc b => (acc * 31 + byte.unsigned b + 7) mod 65521) seed bs.

Definition toy_digest (key msg : bytes) : bytes :=
  map (fun i => byte.of_Z (toy_fold (Z.of_nat i + 1) (key ++ msg))) (seq 0 32).

(** Encryption prefixes the text with the key, which decryption checks. *)
Definition toy : Externals := {|
  crc32c_fn := toy_fold 1;
  blake3_keyed := toy_digest;
  sha256 := toy_digest [];
  zstd_encode raw := Some (Byte.x5a :: raw);
  zstd_decode c := match c with b :: raw => if decide (b = Byte.x5a) then Some raw else None
                           | [] => None end;
  aes_encrypt k n pt := Some (k ++ pt);
  aes_decrypt k n ct := if decide (take (length k) ct = k) then Some (drop (length k) ct) else None;
|}.

Lemma toy_laws : @ExternalLaws toy.
Proof.
  split; [done | done | | |]; simpl.
  - by intros raw c [= <-].
  - intros k n pt ct [= <-]. by rewrite take_app_length, decide_True, drop_app_length.
  - intros k k' n pt ct Hk Hk' Hne [= <-]. rewrite decide_False; [done|].
    rewrite Hk', <- Hk, take_app_length. congruence.
Qed.
