(* ===== verification/RustStd.v ===== *)
(** * Rust standard library functions the source uses

    [slice::binary_search_by], [slice::partition_point] and
    [slice::sort_by_key], with the specifications their callers need. *)
From S2P Require Import Prelude.
From stdpp Require Import base list numbers sorting.
From Stdlib Require Import ZArith Lia.
Open Scope nat_scope.

Section binary_search.
Context {A : Type}.
Implicit Types (l : list A) (f : A -> comparison).

(** The halving loop of [binary_search_by]; [size] never exceeds the fuel. *)
Fixpoint bs_loop (fuel : nat) f l (base size : nat) : nat :=
  match fuel with
  | O => base
  | S fuel =>
      if 1 <? size then
        let half := size / 2 in
        let mid := base + half in
        let base := match l !! mid with
                    | Some x => match f x with Gt => base | _ => mid end
                    | None => base
                    end in
        bs_loop fuel f l base (size - half)
      else base
  end.

(** [Ok pos] is a match, [Err pos] the insertion point. *)
Definition binary_search_by f l : result nat nat :=
  match l !! bs_loop (length l) f l 0 (length l) with
  | None => Err 0
  | Some x =>
      let base := bs_loop (length l) f l 0 (length l) in
      match f x with
      | Eq => Ok base
      | Lt => Err (base + 1)
      | Gt => Err base
      end
  end.

Definition partition_point (p : A -> bool) l : nat :=
  match binary_search_by (fun x => if p x then Lt else Gt) l with
  | Ok i => i
  | Err i => i
  end.

(** [f] classifies a sorted slice: [Lt] before [Eq] before [Gt]. *)
Definition classifies f l : Prop :=
  forall i j x y, i <= j -> l !! i = Some x -> l !! j = Some y ->
  (f y = Lt -> f x = Lt) /\ (f x = Gt -> f y = Gt).

Lemma bs_loop_spec f l fuel base size :
  classifies f l -> size <= fuel -> 1 <= size -> base + size <= length l ->
  (forall i x, base + size <= i -> l !! i = Some x -> f x = Gt) ->
  (base = 0 \/ forall x, l !! base = Some x -> f x <> Gt) ->
  let b := bs_loop fuel f l base size in
  b < length l /\
  (forall i x, b < i -> l !! i = Some x -> f x = Gt) /\
  (b = 0 \/ forall x, l !! b = Some x -> f x <> Gt).
Proof.
  intros Hc. revert base size. induction fuel as [|fuel IH]; intros base size Hf H1 Hb Hgt Hbase.
  { lia. }
  cbn [bs_loop].
  destruct (Nat.ltb_spec 1 size); cycle 1.
  { split; [lia|]. split; [|done]. intros i x ??. apply (Hgt i); [lia|done]. }
  assert (0 < size / 2 < size) as [Hh1 Hh2]
    by (split; [apply Nat.div_str_pos; lia | apply Nat.div_lt; lia]).
  destruct (l !! (base + size / 2)) as [y|] eqn:Hy.
  2:{ apply lookup_ge_None in Hy. lia. }
  destruct (f y) eqn:Hfy; apply IH; try lia.
  - intros i x ??. apply (Hgt i); [lia|done].
  - right. intros x ?. simplify_eq. congruence.
  - intros i x ??. apply (Hgt i); [lia|done].
  - right. intros x ?. simplify_eq. congruence.
  - intros i x Hi Hx. apply (Hc (base + size / 2) i y x); [|done..].
    pose proof (Nat.div_mod_eq size 2). pose proof (Nat.mod_upper_bound size 2). lia.
  - done.
Qed.

(** Documented contract of [binary_search_by] on a sorted slice. *)
Lemma binary_search_by_spec f l :
  classifies f l ->
  match binary_search_by f l with
  | Ok p => exists x, l !! p = Some x /\ f x = Eq
  | Err p => p <= length l /\
      (forall i x, i < p -> l !! i = Some x -> f x = Lt) /\
      (forall i x, p <= i -> l !! i = Some x -> f x = Gt)
  end.
Proof.
  intros Hc. unfold binary_search_by.
  destruct (decide (length l = 0)) as [Hl|Hl].
  { apply nil_length_inv in Hl as ->. simpl. split; [lia|]. split; intros; by rewrite lookup_nil in *. }
  destruct (bs_loop_spec f l (length l) 0 (length l) Hc) as (Hb & Hgt & Hb0);
    [lia..| |by left|].
  { intros i x Hi Hx. apply lookup_lt_Some in Hx. lia. }
  set (b := bs_loop _ f l 0 _) in *.
  destruct (l !! b) as [x|] eqn:Hx; [|apply lookup_ge_None in Hx; lia].
  destruct (f x) eqn:Hfx.
  - eauto.
  - split; [lia|]. split.
    + intros i y Hi Hy. by eapply (Hc i b y x); [lia|..].
    + intros i y Hi Hy. apply (Hgt i); [lia|done].
  - destruct Hb0 as [Hb0|Hb0]; [|by destruct (Hb0 x eq_refl)].
    split; [lia|]. split; [lia|]. intros i y Hi Hy.
    by eapply (Hc b i x y); [lia|..].
Qed.

(** [partition_point] finds the boundary of a predicate that is true on a
    prefix and false after it. *)
Lemma partition_point_spec (p : A -> bool) l :
  (forall i j x y, i <= j -> l !! i = Some x -> l !! j = Some y -> p y = true -> p x = true) ->
  partition_point p l <= length l /\
  (forall i x, i < partition_point p l -> l !! i = Some x -> p x = true) /\
  (forall i x, partition_point p l <= i -> l !! i = Some x -> p x = false).
Proof.
  intros Hp. unfold partition_point.
  assert (classifies (fun x => if p x then Lt else Gt) l) as Hc.
  { intros i j x y Hij Hx Hy. specialize (Hp i j x y Hij Hx Hy).
    destruct (p x), (p y); naive_solver. }
  apply binary_search_by_spec in Hc. destruct (binary_search_by _ l) as [q|q].
  - destruct Hc as (x & _ & Hx). by destruct (p x).
  - destruct Hc as (? & H1 & H2). split; [done|].
    split; intros i x Hi Hx; [specialize (H1 i x Hi Hx)|specialize (H2 i x Hi Hx)];
      by destruct (p x).
Qed.
End binary_search.

(** ** Stable sorting by an integer key *)
Section sort.
Context {A : Type} (key : A -> Z).

Fixpoint sort_insert (x : A) (l : list A) : list A :=
  match l with
  | [] => [x]
  | y :: l => if (key x <=? key y)%Z then x :: y :: l else y :: sort_insert x l
  end.

(** [v.sort_by_key(key)]: elements with equal keys keep their order. *)
Fixpoint sort_by_key (l : list A) : list A :=
  match l with
  | [] => []
  | x :: l => sort_insert x (sort_by_key l)
  end.

Definition key_le (x y : A) : Prop := (key x <= key y)%Z.

#[local] Instance key_le_trans : Transitive key_le.
Proof. intros ???. unfold key_le. lia. Qed.

Lemma sort_insert_perm x l : sort_insert x l ≡ₚ x :: l.
Proof.
  induction l as [|y l IH]; simpl; [done|]. case_match; [done|].
  rewrite IH. by rewrite Permutation_swap.
Qed.

Lemma sort_by_key_perm l : sort_by_key l ≡ₚ l.
Proof. induction l as [|x l IH]; simpl; [done|]. by rewrite sort_insert_perm, IH. Qed.

Lemma sort_insert_sorted x l :
  StronglySorted key_le l -> StronglySorted key_le (sort_insert x l).
Proof.
  induction 1 as [|y l Hs IH Hy]; simpl; [repeat constructor|].
  destruct (Z.leb_spec (key x) (key y)).
  - constructor; [by constructor|]. constructor; [done|].
    eapply Forall_impl; [done|]. intros z Hz. unfold key_le in *. lia.
  - constructor; [done|]. rewrite sort_insert_perm. constructor; [unfold key_le; lia|done].
Qed.

Lemma sort_by_key_sorted l : StronglySorted key_le (sort_by_key l).
Proof. induction l; simpl; [constructor|by apply sort_insert_sorted]. Qed.

(** Sorting an already sorted list changes nothing. *)
Lemma sort_by_key_id l : StronglySorted key_le l -> sort_by_key l = l.
Proof.
  induction 1 as [|x l Hs IH Hx]; simpl; [done|]. rewrite IH.
  destruct l as [|y l]; [done|]. simpl. inversion_clear Hx as [|?? Hxy _].
  unfold key_le in Hxy. by rewrite (proj2 (Z.leb_le _ _)).
Qed.
End sort.

Arguments sort_by_key {A} key l.

(** [v.iter().min()] and [v.iter().max()] of unsigned values. *)
Definition list_min (l : list Z) : option Z :=
  match l with [] => None | x :: l => Some (foldr Z.min x l) end.
Definition list_max (l : list Z) : option Z :=
  match l with [] => None | x :: l => Some (foldr Z.max x l) end.

(** [n.next_power_of_two()]. *)
Definition next_power_of_two (n : Z) : Z := if (n <=? 1)%Z then 1%Z else (2 ^ Z.log2_up n)%Z.

Lemma next_power_of_two_ge n : (n <= next_power_of_two n)%Z.
Proof.
  unfold next_power_of_two. destruct (Z.leb_spec n 1); [done|].
  by destruct (Z.log2_up_spec n).
Qed.

