(* ===== verification/Format.v ===== *)
(** * On-disk wire format ([logdb/src/storage/format.rs], [logdb/src/record.rs])

    The 128-byte segment header, the length-prefixed CRC-protected record and
    the frame header of compressed or encrypted segments.  Serialisers are
    written as the source writes them, as successive writes at fixed offsets of
    a buffer; the theorems relate them to the parsers. *)
From S2P Require Import Prelude Externals.
From stdpp Require Import base list numbers.
From coqutil Require Import Byte Word.LittleEndianList.
From Stdlib Require Import ZArith Lia.
Open Scope Z_scope.

(** ** Records ([record.rs]) *)

Record RecordId := mkRecordId { partition_id : Z; sequence : Z }.

(** A fully owned record. *)
Record Rec := mkRec {
  id : RecordId;
  timestamp_ns : Z;
  content : bytes;
  hash_n : bytes;
}.

(** [record.id.sequence]. *)
Definition rec_seq (r : Rec) : Z := sequence (id r).

(** The zero-copy view of a record in a ring slot. *)
Record ReadView := mkReadView {
  rv_record_id : Z;
  rv_timestamp_ns : Z;
  rv_content : bytes;
  rv_hash_n : bytes;
}.

#[global] Instance RecordId_eq_dec : EqDecision RecordId.
Proof. solve_decision. Defined.
#[global] Instance Rec_eq_dec : EqDecision Rec.
Proof. solve_decision. Defined.

(** ** Constants *)

Definition MAGIC : Z := 0x4C474442.
Definition FORMAT_VERSION : Z := 0x0001.
Definition HASH_ALGO_NONE : Z := 0.
Definition HASH_ALGO_SHA256 : Z := 1.
Definition HASH_ALGO_BLAKE3 : Z := 2.
Definition RECORD_FORMAT_V1 : Z := 1.
Definition SEGMENT_HEADER_SIZE : Z := 128.
Definition HEADER_CRC_END : Z := 72.
Definition FLAG_NOT_FIRST : Z := 0x01.
Definition FLAG_HASH_ENABLED : Z := 0x02.
Definition FLAG_COMPRESSED_ZSTD : Z := 0x04.
Definition FLAG_ENCRYPTED_AES256GCM : Z := 0x08.
Definition ENCRYPTION_NONCE_SIZE : Z := 12.
Definition FRAME_HEADER_SIZE : Z := 8.
Definition MIN_RECORD_SIZE : Z := 60.

(** [flags & f != 0]. *)
Definition has_flag (flags f : Z) : bool := negb (Z.land flags f =? 0).

(** ** Frame header *)

Definition write_frame_header (compressed_len decompressed_len : Z) : bytes :=
  copy_at 4 (to_le 4 decompressed_len) (copy_at 0 (to_le 4 compressed_len) (zeros 8)).

Definition read_frame_header (buf : bytes) : Z * Z := (get_le buf 0 4, get_le buf 4 4).

(** ** Segment header *)

Record SegmentHeader := mkHeader {
  format_version : Z;
  flags : Z;
  hash_algo : Z;
  hash_init : bytes;
  base_sequence : Z;
  hdr_partition_id : Z;
  segment_id : Z;
  min_timestamp_ns : Z;
  max_timestamp_ns : Z;
  prev_last_hash : bytes;
  record_format : Z;
  encryption_key_id : Z;
}.

(** The field widths of the Rust struct. *)
Record header_wf (h : SegmentHeader) : Prop := {
  wf_version : in_range 16 (format_version h);
  wf_flags : in_range 8 (flags h);
  wf_algo : in_range 8 (hash_algo h);
  wf_hash_init : length (hash_init h) = 32%nat;
  wf_base : in_range 64 (base_sequence h);
  wf_partition : in_range 32 (hdr_partition_id h);
  wf_segment : in_range 32 (segment_id h);
  wf_min_ts : in_range 64 (min_timestamp_ns h);
  wf_max_ts : in_range 64 (max_timestamp_ns h);
  wf_prev : length (prev_last_hash h) = 32%nat;
  wf_format : in_range 8 (record_format h);
  wf_key_id : in_range 128 (encryption_key_id h);
}.

Definition set_prev_last_hash (h : SegmentHeader) (p : bytes) : SegmentHeader :=
  mkHeader (format_version h) (flags h) (hash_algo h) (hash_init h) (base_sequence h)
    (hdr_partition_id h) (segment_id h) (min_timestamp_ns h) (max_timestamp_ns h) p
    (record_format h) (encryption_key_id h).

Definition is_first (h : SegmentHeader) : bool := Z.land (flags h) FLAG_NOT_FIRST =? 0.

Definition hash_enabled (h : SegmentHeader) : bool := has_flag (flags h) FLAG_HASH_ENABLED.

(** Errors of [SegmentHeader::deserialize]. *)
Inductive HeaderError :=
| BadMagic (found : Z)
| HeaderCrcMismatch (stored computed : Z).

(** Errors of [deserialize_record]. *)
Inductive RecordError :=
| BufferTooShort (len : Z)
| LenTooSmall (total : Z)
| LenExceedsBuffer (total len : Z)
| SizeMismatch (total expected : Z)
| RecordCrcMismatch (seq stored computed : Z).

Section format.
Context `{Externals}.

(** [SegmentHeader::serialize]. *)
Definition serialize (h : SegmentHeader) (last_hash : bytes) : bytes :=
  let buf := zeros SEGMENT_HEADER_SIZE in
  let buf := copy_at 0 (to_le 4 MAGIC) buf in
  let buf := copy_at 4 (to_le 2 (format_version h)) buf in
  let buf := copy_at 6 (to_le 1 (flags h)) buf in
  let buf := copy_at 7 (to_le 1 (hash_algo h)) buf in
  let buf := copy_at 8 (hash_init h) buf in
  let buf := copy_at 40 (to_le 8 (base_sequence h)) buf in
  let buf := copy_at 48 (to_le 4 (hdr_partition_id h)) buf in
  let buf := copy_at 52 (to_le 4 (segment_id h)) buf in
  let buf := copy_at 56 (to_le 8 (min_timestamp_ns h)) buf in
  let buf := copy_at 64 (to_le 8 (max_timestamp_ns h)) buf in
  let buf := copy_at 76 last_hash buf in
  let buf := copy_at 108 (to_le 1 (record_format h)) buf in
  let buf := copy_at 109 (to_le 16 (encryption_key_id h)) buf in
  let crc := crc32c (slice buf 0 HEADER_CRC_END) in
  copy_at 72 (to_le 4 crc) buf.

(** [SegmentHeader::deserialize], on a 128-byte buffer. *)
Definition deserialize (buf : bytes) : result HeaderError SegmentHeader :=
  let magic := get_le buf 0 4 in
  if negb (magic =? MAGIC) then Err (BadMagic magic)
  else
    let stored_crc := get_le buf 72 4 in
    let computed_crc := crc32c (slice buf 0 HEADER_CRC_END) in
    if negb (stored_crc =? computed_crc) then Err (HeaderCrcMismatch stored_crc computed_crc)
    else Ok {|
      format_version := get_le buf 4 2;
      flags := get_le buf 6 1;
      hash_algo := get_le buf 7 1;
      hash_init := slice buf 8 40;
      base_sequence := get_le buf 40 8;
      hdr_partition_id := get_le buf 48 4;
      segment_id := get_le buf 52 4;
      min_timestamp_ns := get_le buf 56 8;
      max_timestamp_ns := get_le buf 64 8;
      prev_last_hash := slice buf 76 108;
      record_format := get_le buf 108 1;
      encryption_key_id := get_le buf 109 16;
    |}.

(** [SegmentHeader::first_segment]. *)
Definition first_segment (hash_init : bytes) (base_sequence partition_id segment_id : Z)
    (hash_enabled : bool) (hash_algo : Z) : SegmentHeader :=
  let flags := if hash_enabled then Z.lor 0 FLAG_HASH_ENABLED else 0 in
  {| format_version := FORMAT_VERSION; flags := flags; hash_algo := hash_algo;
     hash_init := hash_init; base_sequence := base_sequence;
     hdr_partition_id := partition_id; segment_id := segment_id;
     min_timestamp_ns := U64_MAX; max_timestamp_ns := 0;
     prev_last_hash := zeros 32; record_format := RECORD_FORMAT_V1;
     encryption_key_id := 0 |}.

(** [SegmentHeader::next_segment]. *)
Definition next_segment (h : SegmentHeader) (base_sequence segment_id : Z)
    (prev_last_hash : bytes) : SegmentHeader :=
  {| format_version := FORMAT_VERSION; flags := Z.lor (flags h) FLAG_NOT_FIRST;
     hash_algo := hash_algo h; hash_init := hash_init h;
     base_sequence := base_sequence; hdr_partition_id := hdr_partition_id h;
     segment_id := segment_id; min_timestamp_ns := U64_MAX; max_timestamp_ns := 0;
     prev_last_hash := prev_last_hash; record_format := RECORD_FORMAT_V1;
     encryption_key_id := 0 |}.

(** ** Record serialisation *)

Definition record_size (content_len : Z) : Z := 4 + 8 + 8 + 4 + content_len + 32 + 4.

(** [serialize_record(buf, sequence, view)]: the buffer after the writes and
    the number of bytes written; [None] is the failed length assertion. *)
Definition serialize_record (buf : bytes) (sequence : Z) (view : ReadView)
    : option (bytes * Z) :=
  let clen := blen (rv_content view) in
  let total := record_size clen in
  if blen buf <? total then None
  else
    let buf := copy_at 4 (to_le 8 sequence) buf in
    let buf := copy_at 12 (to_le 8 (rv_timestamp_ns view)) buf in
    let cl := u32 clen in
    let buf := copy_at 20 (to_le 4 cl) buf in
    let content_start := 24 in
    let content_end := content_start + clen in
    let buf := copy_at content_start (rv_content view) buf in
    let hash_start := content_end in
    let hash_end := hash_start + 32 in
    let buf := copy_at hash_start (rv_hash_n view) buf in
    let crc_start := hash_end in
    let buf := copy_at 0 (zeros 4) buf in
    let crc := crc32c (slice buf 0 crc_start) in
    let buf := copy_at crc_start (to_le 4 crc) buf in
    let total_u32 := u32 total in
    let buf := copy_at 0 (to_le 4 total_u32) buf in
    Some (buf, total).

(** [deserialize_record]. *)
Definition deserialize_record (buf : bytes) : result RecordError (Rec * Z) :=
  if blen buf <? MIN_RECORD_SIZE then Err (BufferTooShort (blen buf))
  else
    let total := get_le buf 0 4 in
    if total <? MIN_RECORD_SIZE then Err (LenTooSmall total)
    else if blen buf <? total then Err (LenExceedsBuffer total (blen buf))
    else
      let sequence := get_le buf 4 8 in
      let timestamp_ns := get_le buf 12 8 in
      let content_len := get_le buf 20 4 in
      let expected_total := record_size content_len in
      if negb (total =? expected_total) then Err (SizeMismatch total expected_total)
      else
        let content_start := 24 in
        let content_end := content_start + content_len in
        let content := slice buf content_start content_end in
        let hash_start := content_end in
        let hash_end := hash_start + 32 in
        let hash_n := slice buf hash_start hash_end in
        let crc_start := hash_end in
        let stored_crc := get_le buf crc_start 4 in
        let crc_buf := copy_at 0 (zeros 4) (slice buf 0 crc_start) in
        let computed_crc := crc32c crc_buf in
        if negb (stored_crc =? computed_crc)
        then Err (RecordCrcMismatch sequence stored_crc computed_crc)
        else Ok (mkRec (mkRecordId 0 sequence) timestamp_ns content hash_n, total).

(** ** Header round trip *)

Lemma length_serialize h lh : length (serialize h lh) = 128%nat.
Proof. unfold serialize. by autorewrite with len. Qed.

(** A field written at [off] and read back. *)
Lemma get_le_to_le buf off n z :
  in_range (Z.of_nat n * 8) z ->
  slice buf off (off + Z.of_nat n) = to_le n z -> get_le buf off (Z.of_nat n) = z.
Proof. intros Hz Hs. unfold get_le. rewrite Hs. by apply from_to_le. Qed.

Lemma deserialize_serialize h lh :
  header_wf h -> length lh = 32%nat ->
  deserialize (serialize h lh) = Ok (set_prev_last_hash h lh).
Proof.
  intros [] Hlh. unfold deserialize, serialize, SEGMENT_HEADER_SIZE, HEADER_CRC_END, get_le.
  cbv zeta.
  slices.
  rewrite !from_to_le by (done || apply crc32c_range || by vm_compute).
  rewrite !Z.eqb_refl. simpl. by destruct h.
Qed.

Lemma deserialize_wf buf h :
  length buf = 128%nat -> deserialize buf = Ok h -> header_wf h.
Proof.
  unfold deserialize. intros Hl ?. repeat case_match; simplify_eq.
  split; simpl; first [ by apply (get_le_range buf) | len ].
Qed.

(** The bytes [deserialize] reads determine the bytes [serialize] writes. *)
Lemma serialize_agrees buf h :
  length buf = 128%nat -> deserialize buf = Ok h ->
  agree_on (serialize h (prev_last_hash h)) buf 0 [4; 6; 7; 8; 40; 48; 52; 56; 64; 72].
Proof.
  unfold deserialize. intros Hl Hd.
  destruct (Z.eqb_spec (get_le buf 0 4) MAGIC) as [Hm|]; [|done]. simpl in Hd.
  case_match; [done|]. simplify_eq. unfold serialize, SEGMENT_HEADER_SIZE. cbn -[get_le copy_at slice to_le].
  rewrite <- Hm. clear Hm.
  repeat (split; [lia|split; [slices; apply (to_le_get_le buf) || done; lia|]]). done.
Qed.
(** An accepted header is the serialisation of what it parses to, the three
    reserved bytes apart. *)
Lemma serialize_deserialize buf h :
  length buf = 128%nat -> deserialize buf = Ok h ->
  serialize h (prev_last_hash h) = copy_at 125 (zeros 3) buf.
Proof.
  intros Hl Hd. pose proof (serialize_agrees buf h Hl Hd) as Hag.
  pose proof (agree_on_slice _ _ _ _ Hag) as Hpre. simpl in Hpre.
  assert (agree_on (serialize h (prev_last_hash h)) (copy_at 125 (zeros 3) buf) 0
            [72; 76; 108; 109; 125; 128]) as H2.
  { revert Hd. unfold deserialize.
    destruct (negb (get_le buf 0 4 =? MAGIC)); [done|].
    destruct (Z.eqb_spec (get_le buf 72 4) (crc32c (slice buf 0 HEADER_CRC_END))) as [Hc|];
      [|done].
    intros Hd. injection Hd as <-. revert Hpre.
    unfold serialize, SEGMENT_HEADER_SIZE, HEADER_CRC_END in *.
    cbn -[get_le copy_at slice to_le zeros]. intros Hpre.
    split; [lia|split; [slices; rewrite <- Hpre; by slices|]].
    split; [lia|split; [|]].
    { slices. revert Hpre. slices. intros ->. rewrite <- Hc. by apply (to_le_get_le buf); len. }
    repeat (split; [lia|split; [slices; apply (to_le_get_le buf) || done; lia|]]). done. }
  pose proof (agree_on_slice _ _ _ _ H2) as Heq. simpl in Heq.
  rewrite <- (slice_all (serialize _ _)), <- (slice_all (copy_at _ _ _)).
  rewrite length_serialize, length_copy_at, Hl. done.
Qed.

(** ** Record round trip *)

(** The bytes of a record as one concatenation: the contract of
    [serialize_record]. *)
Definition record_prefix (len4 : bytes) (seq : Z) (v : ReadView) : bytes :=
  len4 ++ to_le 8 seq ++ to_le 8 (rv_timestamp_ns v) ++ to_le 4 (blen (rv_content v)) ++
  rv_content v ++ rv_hash_n v.

Definition record_bytes (seq : Z) (v : ReadView) : bytes :=
  record_prefix (to_le 4 (record_size (blen (rv_content v)))) seq v ++
  to_le 4 (crc32c (record_prefix (zeros 4) seq v)).

(** A view whose fields fit their Rust types and whose record length fits the
    [u32] length field. *)
Record view_wf (v : ReadView) : Prop := {
  vw_id : in_range 64 (rv_record_id v);
  vw_ts : in_range 64 (rv_timestamp_ns v);
  vw_hash : length (rv_hash_n v) = 32%nat;
  vw_size : record_size (blen (rv_content v)) < 2 ^ 32;
}.

Lemma length_record_prefix len4 seq v :
  length len4 = 4%nat -> length (rv_hash_n v) = 32%nat ->
  blen (record_prefix len4 seq v) = 56 + blen (rv_content v).
Proof. intros. unfold record_prefix. len. Qed.

Lemma blen_record_bytes seq v :
  length (rv_hash_n v) = 32%nat ->
  blen (record_bytes seq v) = record_size (blen (rv_content v)).
Proof. intros. unfold record_bytes, record_prefix, record_size. len. Qed.

Lemma to_le_wrap n z : to_le n (wrap (Z.of_nat n * 8) z) = to_le n z.
Proof. unfold to_le, wrap. by rewrite <- le_split_mod. Qed.

(** The buffer at the point where [serialize_record] computes the CRC. *)
Lemma record_area_spec buf seq v :
  length (rv_hash_n v) = 32%nat -> record_size (blen (rv_content v)) <= blen buf ->
  copy_at 0 (zeros 4) (copy_at (24 + blen (rv_content v)) (rv_hash_n v)
    (copy_at 24 (rv_content v) (copy_at 20 (to_le 4 (blen (rv_content v)))
      (copy_at 12 (to_le 8 (rv_timestamp_ns v)) (copy_at 4 (to_le 8 seq) buf)))))
  = record_prefix (zeros 4) seq v ++ drop (56 + length (rv_content v)) buf.
Proof.
  intros Hh Hb. unfold record_size in Hb. rewrite <- (take_drop 4 buf) at 1.
  rewrite (copy_at_next 4) by len. rewrite (copy_at_next 12) by len.
  rewrite (copy_at_next 20) by len. rewrite (copy_at_next 24) by len.
  rewrite (copy_at_next (24 + blen (rv_content v))) by len.
  rewrite !drop_drop, <- !app_assoc, (copy_at_head (zeros 4)) by len.
  unfold record_prefix. rewrite <- !app_assoc. do 7 f_equal. len.
Qed.

(** [serialize_record] overwrites the whole record area, whatever the reused
    buffer held, and touches nothing after it. *)
Lemma serialize_record_spec buf seq v :
  length (rv_hash_n v) = 32%nat -> record_size (blen (rv_content v)) <= blen buf ->
  serialize_record buf seq v =
  Some (record_bytes seq v ++ drop (length (record_bytes seq v)) buf,
        record_size (blen (rv_content v))).
Proof.
  intros Hh Hb. unfold serialize_record.
  destruct (Z.ltb_spec (blen buf) (record_size (blen (rv_content v)))); [lia|].
  cbv zeta. rewrite (to_le_wrap 4), (to_le_wrap 4), record_area_spec by done.
  unfold record_size in Hb. pose proof (length_record_prefix (zeros 4) seq v eq_refl Hh).
  rewrite (slice_app_exact (record_prefix (zeros 4) seq v)) by len.
  rewrite copy_at_next by len. do 2 f_equal.
  unfold record_bytes. set (crc := crc32c _). unfold record_prefix.
  rewrite <- !app_assoc, copy_at_head by len.
  do 7 f_equal. rewrite drop_drop. f_equal. len.
Qed.

Lemma get_le_eq buf off n z :
  0 <= n -> in_range (8 * n) z -> slice buf off (off + n) = to_le (Z.to_nat n) z ->
  get_le buf off n = z.
Proof.
  intros ? Hz Hs. unfold get_le. rewrite Hs. apply from_to_le.
  by replace (Z.of_nat (Z.to_nat n) * 8) with (8 * n) by lia.
Qed.

(** The record a view stands for once written to a segment. *)
Definition rec_of_view (seq : Z) (v : ReadView) : Rec :=
  mkRec (mkRecordId 0 seq) (rv_timestamp_ns v) (rv_content v) (rv_hash_n v).

(** Reads a field of [record_bytes ++ rest]. *)
Ltac rec_field := unfold record_bytes, record_prefix; rewrite <- !app_assoc; by slices.

(** Every field of a serialised record is at the offset the parser reads. *)
Lemma record_fields seq v rest (buf := record_bytes seq v ++ rest) (clen := blen (rv_content v)) :
  in_range 64 seq -> view_wf v ->
  get_le buf 0 4 = record_size clen /\ get_le buf 4 8 = seq /\
  get_le buf 12 8 = rv_timestamp_ns v /\ get_le buf 20 4 = clen /\
  slice buf 24 (24 + clen) = rv_content v /\
  slice buf (24 + clen) (24 + clen + 32) = rv_hash_n v /\
  get_le buf (24 + clen + 32) 4 = crc32c (record_prefix (zeros 4) seq v) /\
  copy_at 0 (zeros 4) (slice buf 0 (24 + clen + 32)) = record_prefix (zeros 4) seq v.
Proof.
  intros Hseq [_ Hts Hh Hsz]. subst buf clen. unfold record_size in *.
  repeat split.
  1-4: apply get_le_eq; [lia|done || (split; lia)|rec_field].
  - rec_field.
  - rec_field.
  - apply get_le_eq; [lia|apply crc32c_range|rec_field].
  - unfold record_bytes. rewrite <- app_assoc, slice_app_exact
      by (rewrite ?length_record_prefix; len).
    apply copy_at_head. len.
Qed.

Lemma deserialize_record_bytes seq v rest :
  in_range 64 seq -> view_wf v ->
  deserialize_record (record_bytes seq v ++ rest) =
  Ok (rec_of_view seq v, record_size (blen (rv_content v))).
Proof.
  intros Hseq Hv. pose proof (blen_record_bytes seq v (vw_hash _ Hv)) as Hlen.
  destruct (record_fields seq v rest Hseq Hv) as (E1 & E2 & E3 & E4 & E5 & E6 & E7 & E8).
  unfold deserialize_record. rewrite E1, E2, E3, E4, E5, E6, E7, E8, !Z.eqb_refl.
  unfold MIN_RECORD_SIZE, record_size in *.
  by rewrite !(proj2 (Z.ltb_ge _ _)) by len.
Qed.

(** The parsed fields, put back together, are the bytes they were read from. *)
Lemma record_prefix_slices buf len4 (clen := get_le buf 20 4) :
  0 <= clen -> 24 + clen + 32 <= blen buf ->
  record_prefix len4 (get_le buf 4 8)
    (mkReadView (get_le buf 4 8) (get_le buf 12 8) (slice buf 24 (24 + clen))
       (slice buf (24 + clen) (24 + clen + 32)))
  = len4 ++ slice buf 4 (24 + clen + 32).
Proof.
  intros. unfold record_prefix. cbn [rv_timestamp_ns rv_content rv_hash_n].
  replace (blen (slice buf 24 (24 + clen))) with clen by len. subst clen.
  rewrite !(to_le_get_le buf) by lia. f_equal.
  set (e := 24 + get_le buf 20 4 + 32) in *.
  rewrite (slice_split buf 4 12 e), (slice_split buf 12 20 e), (slice_split buf 20 24 e),
    (slice_split buf 24 (24 + get_le buf 20 4) e) by lia. done.
Qed.

Lemma deserialize_record_inv buf r total :
  deserialize_record buf = Ok (r, total) ->
  let v := mkReadView (sequence (id r)) (timestamp_ns r) (content r) (hash_n r) in
  view_wf v /\ MIN_RECORD_SIZE <= total <= blen buf /\
  total = record_size (blen (content r)) /\ partition_id (id r) = 0 /\
  slice buf 0 total = record_bytes (sequence (id r)) v.
Proof.
  unfold deserialize_record, MIN_RECORD_SIZE. intros Hd.
  destruct (Z.ltb_spec (blen buf) 60); [done|].
  destruct (Z.ltb_spec (get_le buf 0 4) 60); [done|].
  destruct (Z.ltb_spec (blen buf) (get_le buf 0 4)); [done|].
  destruct (Z.eqb_spec (get_le buf 0 4) (record_size (get_le buf 20 4))) as [Ht|]; [|done].
  simpl in Hd. destruct (Z.eqb_spec (get_le buf (24 + get_le buf 20 4 + 32) 4)
    (crc32c (copy_at 0 (zeros 4) (slice buf 0 (24 + get_le buf 20 4 + 32))))) as [Hc|]; [|done].
  simpl in Hd. injection Hd as <- <-. cbn [id sequence timestamp_ns content hash_n partition_id].
  pose proof (get_le_range buf 20 4) as Hcl. pose proof (get_le_range buf 0 4) as Htr.
  unfold in_range in Hcl, Htr. specialize (Hcl ltac:(lia)). specialize (Htr ltac:(lia)).
  set (clen := get_le buf 20 4) in *. unfold record_size in *.
  assert (blen (slice buf 24 (24 + clen)) = clen) as Hcc by len.
  assert (length (slice buf (24 + clen) (24 + clen + 32)) = 32%nat) as Hhh by len.
  split; [|split; [lia|split; [by rewrite Hcc|split; [done|]]]].
  - split; simpl; [by apply (get_le_range buf 4 8)|by apply (get_le_range buf 12 8)|done|].
    unfold record_size. lia.
  - unfold record_bytes. cbn [rv_content]. rewrite Hcc. unfold record_size. rewrite <- Ht.
    rewrite !record_prefix_slices by (subst clen; lia). fold clen.
    rewrite (to_le_get_le buf 0) by lia.
    rewrite <- (slice_split buf 0 4) by lia.
    replace (crc32c (zeros 4 ++ slice buf 4 (24 + clen + 32)))
      with (get_le buf (24 + clen + 32) 4).
    + rewrite (to_le_get_le buf) by lia.
      rewrite <- slice_split by lia. f_equal. lia.
    + rewrite Hc, (slice_split buf 0 4), copy_at_head by len. done.
Qed.

(** Segment headers survive the disk.  A header whose fields fit their types
    is read back unchanged after it has been written with the hash of the last
    record before it; conversely, whatever 128 bytes the parser accepts, writing
    the parsed header again gives the same bytes with the reserved ones
    cleared. *)
Theorem header_round_trip h lh :
  header_wf h -> length lh = 32%nat ->
  deserialize (serialize h lh) = Ok (set_prev_last_hash h lh) /\
  forall buf h', length buf = 128%nat -> deserialize buf = Ok h' ->
    header_wf h' /\ serialize h' (prev_last_hash h') = copy_at 125 (zeros 3) buf.
Proof.
  intros Hh Hlh. split; [by apply deserialize_serialize|]. intros buf h' Hl Hd.
  split; [by eapply deserialize_wf|by apply serialize_deserialize].
Qed.

(** Records survive the write buffer.  [serialize_record] writes a record
    into any buffer with room for it, whatever the buffer held before, leaves
    the bytes behind the record alone, and [deserialize_record] on the result
    returns the record and its length; into a shorter buffer nothing is
    written. *)
Theorem record_round_trip buf seq v :
  in_range 64 seq -> view_wf v ->
  if blen buf <? record_size (blen (rv_content v)) then serialize_record buf seq v = None
  else exists buf', serialize_record buf seq v = Some (buf', record_size (blen (rv_content v))) /\
    blen buf' = blen buf /\
    drop (Z.to_nat (record_size (blen (rv_content v)))) buf' =
      drop (Z.to_nat (record_size (blen (rv_content v)))) buf /\
    deserialize_record buf' = Ok (rec_of_view seq v, record_size (blen (rv_content v))).
Proof.
  intros Hs Hv. pose proof (blen_record_bytes seq v (vw_hash _ Hv)) as Hl.
  destruct (Z.ltb_spec (blen buf) (record_size (blen (rv_content v)))) as [Hlt|Hge].
  { unfold serialize_record. by rewrite (proj2 (Z.ltb_lt _ _)). }
  rewrite serialize_record_spec by (done || apply Hv). eexists. split; [done|].
  rewrite <- Hl in *. split; [len|]. rewrite Nat2Z.id. split.
  - by rewrite drop_app_length.
  - rewrite Hl. by apply deserialize_record_bytes.
Qed.

(** The record parser accepts only encodings.  When [deserialize_record]
    accepts a buffer, the returned length lies in it, and the bytes up to that
    length are exactly the canonical encoding of the returned record: nothing
    that the CRC and the two length fields do not determine is accepted. *)
Theorem accepted_record_is_encoding buf r total :
  deserialize_record buf = Ok (r, total) ->
  MIN_RECORD_SIZE <= total <= blen buf /\
  total = record_size (blen (content r)) /\
  slice buf 0 total = record_bytes (rec_seq r) (mkReadView (rec_seq r) (timestamp_ns r) (content r) (hash_n r)).
Proof. intros Hd. by destruct (deserialize_record_inv buf r total Hd) as (_ & ? & ? & _ & ?). Qed.
End format.

(** ** Concrete runs *)

Section format_demo.
#[local] Instance format_demo_externals : Externals := toy.

Definition demo_plain_header : SegmentHeader := first_segment (zeros 32) 5 0 1 false HASH_ALGO_BLAKE3.

Definition demo_plain_view : ReadView := mkReadView 9 7 [Byte.x61; Byte.x62] (zeros 32).

Lemma demo_plain_header_wf : header_wf demo_plain_header.
Proof. split; vm_compute; first [reflexivity|split; [discriminate|reflexivity]]. Qed.

Lemma demo_plain_view_wf : view_wf demo_plain_view.
Proof. split; vm_compute; first [reflexivity|split; [discriminate|reflexivity]]. Qed.

Lemma header_round_trip_witness :
  deserialize (serialize demo_plain_header (zeros 32)) = Ok (set_prev_last_hash demo_plain_header (zeros 32)).
Proof.
  apply (header_round_trip demo_plain_header (zeros 32)); [exact demo_plain_header_wf|reflexivity].
Defined.

Lemma record_round_trip_witness :
  serialize_record (zeros 61) 9 demo_plain_view = None /\
  exists buf', serialize_record (zeros 70) 9 demo_plain_view = Some (buf', 62) /\
    is_ok (deserialize_record buf') = true.
Proof.
  assert (in_range 64 9) as H9 by (split; [discriminate|reflexivity]).
  split; [exact (record_round_trip (zeros 61) 9 demo_plain_view H9 demo_plain_view_wf)|].
  destruct (record_round_trip (zeros 70) 9 demo_plain_view H9 demo_plain_view_wf) as (buf' & E & _ & _ & Hd).
  exists buf'. split; [exact E|]. by rewrite Hd.
Defined.

Lemma accepted_record_is_encoding_witness :
  exists r total, deserialize_record (record_bytes 9 demo_plain_view ++ zeros 8) = Ok (r, total) /\
    total = record_size (blen (content r)).
Proof.
  eexists _, _. split; [vm_compute; reflexivity|].
  eapply (accepted_record_is_encoding (record_bytes 9 demo_plain_view ++ zeros 8)). vm_compute. reflexivity.
Defined.
End format_demo.
