(* ===== verification/Index.v ===== *)
(** * Sparse index of a segment ([logdb/src/storage/index.rs])

    Anchors (record id, file offset, timestamp) sorted by record id, their
    [.idx] encoding, and the anchor lookup the readers start from. *)
From S2P Require Import Prelude RustStd.
From stdpp Require Import base list numbers sorting.
From coqutil Require Import Byte Word.LittleEndianList.
From Stdlib Require Import ZArith Lia.
Open Scope Z_scope.

Record IndexEntry := mkEntry {
  ie_sequence : Z;
  file_offset : Z;
  ie_timestamp_ns : Z;
}.

Definition SERIALIZED_SIZE : Z := 24.

(** [IndexEntry::serialize] into a fresh 24-byte buffer. *)
Definition entry_serialize (e : IndexEntry) : bytes :=
  copy_at 16 (to_le 8 (ie_timestamp_ns e))
    (copy_at 8 (to_le 8 (file_offset e))
      (copy_at 0 (to_le 8 (ie_sequence e)) (zeros SERIALIZED_SIZE))).

Definition entry_deserialize (buf : bytes) : IndexEntry :=
  mkEntry (get_le buf 0 8) (get_le buf 8 8) (get_le buf 16 8).

Record SparseIndex := mkIndex { entries : list IndexEntry; stride : Z }.

Definition DEFAULT_STRIDE : Z := 1024.

Definition index_new (stride : Z) : SparseIndex := mkIndex [] stride.

Definition index_add (idx : SparseIndex) (sequence file_offset timestamp_ns : Z) : SparseIndex :=
  mkIndex (entries idx ++ [mkEntry sequence file_offset timestamp_ns]) (stride idx).

Definition should_index (idx : SparseIndex) (record_count : Z) : bool :=
  record_count mod stride idx =? 0.

Definition index_is_empty (idx : SparseIndex) : bool :=
  match entries idx with [] => true | _ => false end.

(** The nearest entry at or before [record_id], with its position. *)
Definition find_anchor (idx : SparseIndex) (record_id : Z) : option (IndexEntry * nat) :=
  if index_is_empty idx then None
  else
    match binary_search_by (fun e => ie_sequence e ?= record_id) (entries idx) with
    | Ok pos => (fun e => (e, pos)) <$> entries idx !! pos
    | Err pos =>
        if (0 <? pos)%nat then (fun e => (e, (pos - 1)%nat)) <$> entries idx !! (pos - 1)%nat
        else None
    end.

Definition find_by_time (idx : SparseIndex) (timestamp_ns : Z) : nat :=
  match binary_search_by (fun e => ie_timestamp_ns e ?= timestamp_ns) (entries idx) with
  | Ok pos => pos
  | Err pos => (pos - 1)%nat
  end.

(** The bytes [save] writes. *)
Definition index_save (idx : SparseIndex) : bytes :=
  to_le 4 (stride idx) ++ flat_map entry_serialize (entries idx).

Inductive IndexError := IndexFileTooShort.

(** [SparseIndex::load] on the bytes of the file; a trailing partial entry is
    ignored. *)
Definition index_load (data : bytes) : result IndexError SparseIndex :=
  if blen data <? 4 then Err IndexFileTooShort
  else
    let stride := get_le data 0 4 in
    let num_entries := (blen data - 4) / SERIALIZED_SIZE in
    let entry i :=
      let start := 4 + Z.of_nat i * SERIALIZED_SIZE in
      entry_deserialize (slice data start (start + SERIALIZED_SIZE)) in
    Ok (mkIndex (entry <$> seq 0 (Z.to_nat num_entries)) stride).

(** ** Encoding *)

Record entry_wf (e : IndexEntry) : Prop := {
  ew_seq : in_range 64 (ie_sequence e);
  ew_off : in_range 64 (file_offset e);
  ew_ts : in_range 64 (ie_timestamp_ns e);
}.

Lemma length_entry_serialize e : length (entry_serialize e) = 24%nat.
Proof. unfold entry_serialize. by autorewrite with len. Qed.

Lemma entry_round_trip e : entry_wf e -> entry_deserialize (entry_serialize e) = e.
Proof.
  intros []. unfold entry_deserialize, entry_serialize, get_le, SERIALIZED_SIZE. slices.
  rewrite !from_to_le by done. by destruct e.
Qed.

Lemma length_entries_bytes es :
  length (flat_map entry_serialize (es)) = (24 * length es)%nat.
Proof.
  induction es as [|e es IH]; [done|]. cbn [flat_map length].
  rewrite length_app, IH, length_entry_serialize. lia.
Qed.

(** The [i]-th 24-byte chunk of the concatenated entries. *)
Lemma slice_entries pre es i e :
  length pre = 4%nat -> es !! i = Some e ->
  slice (pre ++ flat_map entry_serialize (es)) (4 + Z.of_nat i * 24) (4 + Z.of_nat i * 24 + 24)
  = entry_serialize e.
Proof.
  intros Hpre Hi. rewrite slice_app_r, Hpre by lia.
  rewrite <- (take_drop_middle es i e Hi), flat_map_app. cbn [flat_map].
  pose proof (lookup_lt_Some _ _ _ Hi).
  assert (length (flat_map entry_serialize (take i es)) = (24 * i)%nat) as Hl
    by (rewrite length_entries_bytes, length_take; lia).
  rewrite slice_app_r by lia. rewrite slice_app_exact; [done|lia|].
  rewrite length_entry_serialize. lia.
Qed.

Lemma index_load_save idx :
  Forall entry_wf (entries idx) -> in_range 32 (stride idx) ->
  index_load (index_save idx) = Ok idx.
Proof.
  intros Hwf Hs. unfold index_load, index_save, SERIALIZED_SIZE.
  set (body := flat_map entry_serialize (entries idx)).
  pose proof (length_entries_bytes (entries idx)) as Hlen. fold body in Hlen.
  assert (blen (to_le 4 (stride idx) ++ body) = 4 + 24 * Z.of_nat (length (entries idx))) as Hb by len.
  rewrite Hb. destruct (Z.ltb_spec (4 + 24 * Z.of_nat (length (entries idx))) 4); [lia|].
  unfold get_le at 1. rewrite slice_app_exact, from_to_le by (done || len).
  destruct idx as [es st]. cbn [entries stride] in *. do 2 f_equal.
  replace (Z.to_nat ((4 + 24 * Z.of_nat (length es) - 4) / 24)) with (length es).
  2:{ rewrite Z.add_simpl_l, Z.mul_comm, Z.div_mul by lia. lia. }
  apply list_eq; intros i. rewrite list_lookup_fmap.
  destruct (decide (i < length es)%nat) as [Hi|Hi].
  - rewrite lookup_seq_lt by done. destruct (lookup_lt_is_Some_2 es i Hi) as [e He].
    rewrite He. cbn [fmap option_fmap option_map]. f_equal. rewrite Nat.add_0_l. subst body.
    rewrite (slice_entries _ _ _ _ (length_to_le 4 st) He).
    apply entry_round_trip. by eapply Forall_lookup_1.
  - rewrite lookup_seq_ge, lookup_ge_None_2 by lia. done.
Qed.

(** ** Anchor lookup *)

(** Entries are added in ascending record-id order. *)
Definition index_sorted (idx : SparseIndex) : Prop :=
  StronglySorted (fun a b => ie_sequence a < ie_sequence b) (entries idx).

Lemma sorted_lookup {A} (R : A -> A -> Prop) l i j x y :
  StronglySorted R l -> (i < j)%nat -> l !! i = Some x -> l !! j = Some y -> R x y.
Proof.
  intros Hs. revert i j. induction Hs as [|z l Hs IH Hz]; intros i j Hij Hi Hj; [by rewrite lookup_nil in Hi|].
  destruct i as [|i], j as [|j]; try lia; simpl in *; simplify_eq.
  - by eapply Forall_lookup_1 in Hz.
  - by eapply (IH i j); [lia|..].
Qed.

Lemma index_classifies idx id :
  index_sorted idx -> classifies (fun e => ie_sequence e ?= id) (entries idx).
Proof.
  intros Hs i j x y Hij Hx Hy. destruct (decide (i = j)) as [->|Hne]; [naive_solver|].
  pose proof (sorted_lookup _ _ i j x y Hs ltac:(lia) Hx Hy) as Hlt. simpl in Hlt.
  rewrite !Z.compare_lt_iff, !Z.compare_gt_iff. lia.
Qed.

(** The anchor is the last entry not after the target. *)
Lemma find_anchor_spec idx id :
  index_sorted idx ->
  match find_anchor idx id with
  | Some (e, i) =>
      entries idx !! i = Some e /\ ie_sequence e <= id /\
      forall j e', (i < j)%nat -> entries idx !! j = Some e' -> id < ie_sequence e'
  | None => forall j e', entries idx !! j = Some e' -> id < ie_sequence e'
  end.
Proof.
  intros Hs. unfold find_anchor, index_is_empty.
  destruct (entries idx) as [|e0 es] eqn:Hes; [intros; by rewrite lookup_nil in *|].
  rewrite <- Hes. pose proof (binary_search_by_spec _ _ (index_classifies idx id Hs)) as Hb.
  destruct (binary_search_by _ (entries idx)) as [p|p].
  - destruct Hb as (e & He & Heq). rewrite He. simpl. apply Z.compare_eq in Heq.
    split; [done|]. split; [lia|]. intros j e' Hj He'.
    pose proof (sorted_lookup _ _ _ _ _ _ Hs Hj He He') as Hlt. simpl in Hlt. lia.
  - destruct Hb as (Hp & Hlt & Hgt). destruct (Nat.ltb_spec 0 p).
    + destruct (lookup_lt_is_Some_2 (entries idx) (p - 1)) as [e He]; [lia|].
      rewrite He. simpl. split; [done|].
      specialize (Hlt (p - 1)%nat e ltac:(lia) He). rewrite Z.compare_lt_iff in Hlt. split; [lia|].
      intros j e' Hj He'. apply Z.compare_gt_iff. eapply (Hgt j); [lia|done].
    + intros j e' He'. apply Z.compare_gt_iff. eapply (Hgt j); [lia|done].
Qed.

Lemma index_add_sorted idx s o t :
  index_sorted idx -> (forall e, e ∈ entries idx -> ie_sequence e < s) ->
  index_sorted (index_add idx s o t).
Proof.
  unfold index_sorted, index_add. simpl. intros Hs Hlt.
  induction Hs as [|e l Hs IH He]; simpl; [repeat constructor|].
  constructor.
  - apply IH. intros. apply Hlt. by right.
  - apply Forall_app. split; [done|]. constructor; [|done]. apply Hlt. by left.
Qed.

(** ** Claims *)

(** An index file is read back as it was saved, for every index whose
    entries and stride fit their fields; a partial entry at the end of a torn
    file is ignored. *)
Theorem index_round_trip idx k :
  Forall entry_wf (entries idx) -> in_range 32 (stride idx) -> (k < 24)%nat ->
  index_load (index_save idx) = Ok idx /\
  forall e, index_load (index_save idx ++ take k (entry_serialize e)) = Ok idx.
Proof.
  intros Hwf Hs Hk. split; [by apply index_load_save|]. intros e.
  pose proof (index_load_save idx Hwf Hs) as Hl. revert Hl. unfold index_load.
  set (tail := take k (entry_serialize e)).
  assert (blen tail < 24) as Ht by (unfold tail; rewrite length_take; lia).
  assert (exists n, blen (index_save idx) = 4 + 24 * n /\ 0 <= n) as (n & Hn & Hn0).
  { unfold index_save. exists (Z.of_nat (length (entries idx))).
    rewrite length_app, length_to_le, length_entries_bytes. lia. }
  assert (blen (index_save idx ++ tail) = 4 + 24 * n + blen tail) as Hlen by (rewrite length_app; lia).
  rewrite Hlen, Hn. destruct (Z.ltb_spec (4 + 24 * n) 4); [lia|].
  destruct (Z.ltb_spec (4 + 24 * n + blen tail) 4); [lia|].
  unfold SERIALIZED_SIZE.
  replace ((4 + 24 * n + blen tail - 4) / 24) with n.
  2:{ replace (4 + 24 * n + blen tail - 4) with (blen tail + n * 24) by lia.
      rewrite Z.div_add by lia. rewrite Z.div_small; lia. }
  replace ((4 + 24 * n - 4) / 24) with n.
  2:{ replace (4 + 24 * n - 4) with (n * 24) by lia. by rewrite Z.div_mul. }
  intros Hl. etransitivity; [|exact Hl]. do 2 f_equal.
  apply list_fmap_ext. intros i j Hi. apply lookup_seq in Hi as [-> Hi].
  by rewrite slice_app_l by lia.
Qed.

(** The anchor lookup is the last entry not after the id.  In an index whose
    ids ascend, the binary search returns the last entry whose id is at most the
    wanted one, and nothing exactly when every entry lies behind it. *)
Theorem find_anchor_is_last_at_or_before idx id :
  index_sorted idx ->
  match find_anchor idx id with
  | Some (e, i) =>
      entries idx !! i = Some e /\ ie_sequence e <= id /\
      forall j e', (i < j)%nat -> entries idx !! j = Some e' -> id < ie_sequence e'
  | None => forall j e', entries idx !! j = Some e' -> id < ie_sequence e'
  end.
Proof. apply find_anchor_spec. Qed.

Definition demo_index : SparseIndex := mkIndex [mkEntry 0 128 7; mkEntry 4 500 9; mkEntry 8 900 11] 4.

Lemma index_round_trip_witness :
  index_load (index_save demo_index ++ take 5 (entry_serialize (mkEntry 1 2 3))) = Ok demo_index.
Proof.
  apply (index_round_trip demo_index 5).
  - repeat (constructor; [split; (split; [discriminate|reflexivity])|]). constructor.
  - split; [discriminate|reflexivity].
  - lia.
Defined.

Lemma find_anchor_is_last_at_or_before_witness :
  find_anchor demo_index 6 = Some (mkEntry 4 500 9, 1%nat) /\ ie_sequence (mkEntry 4 500 9) <= 6.
Proof.
  assert (index_sorted demo_index) as Hs by (repeat constructor).
  pose proof (find_anchor_is_last_at_or_before demo_index 6 Hs) as Ha.
  split; [reflexivity|]. change (find_anchor demo_index 6) with (Some (mkEntry 4 500 9, 1%nat)) in Ha.
  apply Ha.
Defined.
