(* ===== verification/Shard.v ===== *)
(** * Record-id encoding ([logdb/src/shard.rs])

    A global record id packs the shard id in its low [shard_bits] bits and the
    shard-local sequence above them. *)
From S2P Require Import Prelude.
From stdpp Require Import base list numbers.
From Stdlib Require Import ZArith Lia.
Open Scope Z_scope.

(** [x.leading_zeros()] on a [u64]. *)
Definition leading_zeros64 (x : Z) : Z := if x =? 0 then 64 else 63 - Z.log2 x.

Definition shard_bits (num_shards : Z) : Z :=
  if num_shards <=? 1 then 0
  else
    let max_shard_id := num_shards - 1 in
    64 - leading_zeros64 max_shard_id.

(** [(local_seq << shard_bits) | shard_id]; the shift drops the high bits. *)
Definition encode_record_id (shard_id local_seq shard_bits : Z) : Z :=
  if shard_bits =? 0 then local_seq
  else Z.lor (u64 (Z.shiftl local_seq shard_bits)) shard_id.

Definition decode_record_id (global_id shard_bits : Z) : Z * Z :=
  if shard_bits =? 0 then (0, global_id)
  else
    let mask := Z.shiftl 1 shard_bits - 1 in
    (Z.land global_id mask, Z.shiftr global_id shard_bits).

(** ** The width *)

Lemma shard_bits_bounds n :
  1 < n <= 2 ^ 64 -> 2 ^ (shard_bits n - 1) < n <= 2 ^ shard_bits n.
Proof.
  intros Hn. unfold shard_bits, leading_zeros64.
  rewrite (proj2 (Z.leb_gt _ _)), (proj2 (Z.eqb_neq _ _)) by lia.
  destruct (Z.log2_spec (n - 1)); [lia|].
  replace (64 - (63 - Z.log2 (n - 1))) with (Z.succ (Z.log2 (n - 1))) by lia.
  replace (Z.succ (Z.log2 (n - 1)) - 1) with (Z.log2 (n - 1)) by lia. lia.
Qed.

Lemma shard_bits_small n : 1 <= n <= 256 -> 0 <= shard_bits n <= 8.
Proof.
  intros. unfold shard_bits, leading_zeros64. destruct (Z.leb_spec n 1); [lia|].
  rewrite (proj2 (Z.eqb_neq _ _)) by lia.
  pose proof (Z.log2_nonneg (n - 1)). pose proof (Z.log2_le_mono (n - 1) 255 ltac:(lia)).
  change (Z.log2 255) with 7 in *. lia.
Qed.

(** Every shard id of an [n]-shard map fits the low bits. *)
Lemma shard_bits_fits n s : 1 <= n <= 2 ^ 64 -> 0 <= s < n -> s < 2 ^ shard_bits n.
Proof.
  intros Hn Hs. destruct (decide (n = 1)) as [->|]; [by assert (s = 0) as -> by lia|].
  pose proof (shard_bits_bounds n). lia.
Qed.

(** ** Encoding *)

(** The ids a shard map can produce: the shard fits the low bits and the local
    sequence the remaining ones. *)
Record id_ok (s l b : Z) : Prop := {
  io_bits : 0 <= b < 64;
  io_shard : 0 <= s < 2 ^ b;
  io_local : 0 <= l < 2 ^ (64 - b);
}.

Lemma id_ok_mul s l b : id_ok s l b -> 0 <= l * 2 ^ b + s < 2 ^ 64.
Proof.
  intros [[??] [??] [??]]. assert (2 ^ 64 = 2 ^ (64 - b) * 2 ^ b) as ->
    by (rewrite <- Z.pow_add_r by lia; f_equal; lia). nia.
Qed.

Lemma lor_low_add a s b : 0 <= b -> 0 <= s < 2 ^ b -> Z.lor (Z.shiftl a b) s = a * 2 ^ b + s.
Proof.
  intros Hb Hs. rewrite <- Z.shiftl_mul_pow2, <- Z.add_lor_land by done.
  enough (Z.land (Z.shiftl a b) s = 0) by lia.
  apply Z.bits_inj'; intros n Hn. rewrite Z.land_spec, Z.bits_0.
  destruct (decide (n < b)).
  - by rewrite Z.shiftl_spec_low.
  - rewrite <- (Z.mod_small s (2 ^ b)), Z.mod_pow2_bits_high by lia. apply andb_false_r.
Qed.

(** The encoding as arithmetic. *)
Lemma encode_eq s l b : id_ok s l b -> encode_record_id s l b = l * 2 ^ b + s.
Proof.
  intros Hok. pose proof (id_ok_mul _ _ _ Hok). destruct Hok as [[??] Hs Hl].
  unfold encode_record_id. destruct (Z.eqb_spec b 0) as [->|].
  - change (2 ^ 0) with 1 in *. lia.
  - rewrite wrap_small; [by apply lor_low_add|]. rewrite Z.shiftl_mul_pow2 by lia.
    unfold in_range. lia.
Qed.

Lemma decode_eq g b : 0 <= b -> decode_record_id g b = (if b =? 0 then 0 else g mod 2 ^ b, g / 2 ^ b).
Proof.
  intros. unfold decode_record_id. destruct (Z.eqb_spec b 0) as [->|].
  - by rewrite Z.div_1_r.
  - rewrite Z.shiftr_div_pow2, Z.shiftl_1_l by done.
    replace (2 ^ b - 1) with (Z.ones b) by (rewrite Z.ones_equiv; lia).
    by rewrite Z.land_ones.
Qed.

Lemma decode_encode s l b :
  id_ok s l b -> decode_record_id (encode_record_id s l b) b = (s, l).
Proof.
  intros Hok. rewrite encode_eq by done. destruct Hok as [[??] [??] _].
  rewrite decode_eq by done.
  assert (0 < 2 ^ b) by (apply Z.pow_pos_nonneg; lia).
  rewrite Z.div_add_l, (Z.div_small s), Z.add_0_r by lia. f_equal.
  destruct (Z.eqb_spec b 0) as [->|]; [change (2 ^ 0) with 1 in *; lia|].
  rewrite Z.add_comm, Z.mod_add by lia. by apply Z.mod_small.
Qed.

Lemma encode_decode g b :
  0 <= b < 64 -> in_range 64 g ->
  let '(s, l) := decode_record_id g b in id_ok s l b /\ encode_record_id s l b = g.
Proof.
  intros Hb [??]. rewrite decode_eq by lia.
  assert (0 < 2 ^ b) by (apply Z.pow_pos_nonneg; lia).
  assert (id_ok (if b =? 0 then 0 else g mod 2 ^ b) (g / 2 ^ b) b) as Hok.
  { split; [done| |].
    - destruct (Z.eqb_spec b 0) as [->|]; [done|]. by apply Z.mod_pos_bound.
    - split; [by apply Z.div_pos|]. apply Z.div_lt_upper_bound; [done|].
      rewrite <- Z.pow_add_r by lia. by replace (b + (64 - b)) with 64 by lia. }
  split; [done|]. rewrite encode_eq by done.
  destruct (Z.eqb_spec b 0) as [->|]; [by rewrite Z.div_1_r, Z.mul_1_r, Z.add_0_r|].
  pose proof (Z.div_mod g (2 ^ b)). lia.
Qed.

(** Ids are ordered by local sequence, then by shard. *)
Lemma encode_lt s1 l1 s2 l2 b :
  id_ok s1 l1 b -> id_ok s2 l2 b ->
  encode_record_id s1 l1 b < encode_record_id s2 l2 b <-> l1 < l2 \/ (l1 = l2 /\ s1 < s2).
Proof.
  intros H1 H2. rewrite !encode_eq by done. destruct H1 as [_ [??] _], H2 as [_ [??] _].
  destruct (Z.lt_trichotomy l1 l2) as [|[->|]]; nia.
Qed.

(** Consecutive records of one shard differ by the stride [1 << b]. *)
Lemma encode_succ s l b :
  id_ok s l b -> id_ok s (l + 1) b ->
  encode_record_id s (l + 1) b = encode_record_id s l b + 2 ^ b.
Proof. intros. rewrite !encode_eq by done. lia. Qed.

Lemma encode_range s l b : id_ok s l b -> in_range 64 (encode_record_id s l b).
Proof. intros. rewrite encode_eq by done. by apply id_ok_mul. Qed.

(** ** Claims *)

(** Record ids name a shard and a local sequence.  For every shard count
    [LogDb] accepts, encoding a shard and a local sequence that fit gives a
    64-bit id from which both are decoded again, every 64-bit id is the encoding
    of what it decodes to, ids are ordered by local sequence and then by shard,
    and consecutive records of a shard are [1 << bits] apart. *)
Theorem record_ids_round_trip n s l :
  1 <= n <= 256 -> 0 <= s < n -> 0 <= l < 2 ^ (64 - shard_bits n) ->
  let b := shard_bits n in
  decode_record_id (encode_record_id s l b) b = (s, l) /\
  in_range 64 (encode_record_id s l b) /\
  (forall g, in_range 64 g -> let '(s', l') := decode_record_id g b in encode_record_id s' l' b = g) /\
  (forall s' l', 0 <= s' < n -> 0 <= l' < 2 ^ (64 - b) ->
     encode_record_id s l b < encode_record_id s' l' b <-> l < l' \/ (l = l' /\ s < s')) /\
  (l + 1 < 2 ^ (64 - b) -> encode_record_id s (l + 1) b = encode_record_id s l b + 2 ^ b).
Proof.
  intros Hn Hs Hl b. pose proof (shard_bits_small n Hn) as Hb. fold b in Hb.
  assert (forall s l, 0 <= s < n -> 0 <= l < 2 ^ (64 - b) -> id_ok s l b) as Hok.
  { intros s' l' Hs' Hl'. split; [lia| |done]. split; [lia|]. apply shard_bits_fits; lia. }
  split; [by apply decode_encode, Hok|]. split; [by apply encode_range, Hok|]. split; [|split].
  - intros g Hg. pose proof (encode_decode g b ltac:(lia) Hg) as Hd.
    destruct (decode_record_id g b). by destruct Hd.
  - intros s' l' Hs' Hl'. by apply encode_lt; apply Hok.
  - intros Hl1. apply encode_succ; apply Hok; lia.
Qed.

Lemma record_ids_round_trip_witness :
  decode_record_id (encode_record_id 2 7 (shard_bits 3)) (shard_bits 3) = (2, 7) /\
  encode_record_id 2 7 (shard_bits 3) = 30.
Proof.
  split; [|reflexivity]. apply (record_ids_round_trip 3 2 7); [lia|lia|].
  split; [discriminate|reflexivity].
Defined.
