(* ===== verification/Config.v ===== *)
(** * Configuration, errors and health ([logdb/src/config.rs],
      [logdb/src/error.rs], [logdb/src/health.rs]) *)
From S2P Require Import Prelude.
From stdpp Require Import base list numbers.
From Stdlib Require Import ZArith Lia.
Open Scope Z_scope.

(** ** Policies *)

Inductive QueueFullPolicy := Block | Drop.
Inductive DurabilityMode := Sync | Batch | Async.

(** Durations are nanoseconds. *)
Inductive RetentionPolicy :=
| KeepAll
| MaxBytes (limit : Z)
| MaxAge (max_age : Z).

#[global] Instance QueueFullPolicy_eq_dec : EqDecision QueueFullPolicy.
Proof. solve_decision. Defined.
#[global] Instance DurabilityMode_eq_dec : EqDecision DurabilityMode.
Proof. solve_decision. Defined.

(** ** Errors *)

Inductive IoError := Enospc | OtherIo.

Inductive AppendError :=
| QueueFull
| EmptyBatch
| ContentTooLarge (size max : Z)
| DiskFull
| AppendIo
| ShuttingDown.

Inductive ConfigError :=
| InvalidRingSize (n : Z)
| InvalidShardCount (n : Z)
| SegmentTooSmall (n : Z)
| ConfigContentTooLarge (n : Z)
| ZeroIndexStride.

#[global] Instance AppendError_eq_dec : EqDecision AppendError.
Proof. solve_decision. Defined.

(** ** Validation *)

(** The fields of [Config] that [validate] and the storage path use. *)
Record Config := mkConfig {
  segment_size : Z;
  ring_size : Z;
  shards : Z;
  max_content_size : Z;
  cfg_hash_enabled : bool;
  compression_enabled : bool;
  durability_mode : DurabilityMode;
  queue_full_policy : QueueFullPolicy;
  index_stride : Z;
  retention : RetentionPolicy;
}.

(** [Config::default]. *)
Definition default_config : Config := {|
  segment_size := 256 * 1024 * 1024; ring_size := 8192; shards := 1;
  max_content_size := 1024 * 1024; cfg_hash_enabled := false;
  compression_enabled := false; durability_mode := Batch; queue_full_policy := Block;
  index_stride := 1024; retention := KeepAll |}.

(** [x.is_power_of_two()] on an unsigned integer. *)
Definition is_power_of_two (x : Z) : bool := (0 <? x) && (Z.land x (x - 1) =? 0).

Definition validate (c : Config) : result ConfigError unit :=
  if negb (is_power_of_two (ring_size c)) || (ring_size c <? 16)
  then Err (InvalidRingSize (ring_size c))
  else if (shards c <? 1) || (256 <? shards c) then Err (InvalidShardCount (shards c))
  else if segment_size c <? 1024 * 1024 then Err (SegmentTooSmall (segment_size c))
  else if 64 * 1024 * 1024 <? max_content_size c
  then Err (ConfigContentTooLarge (max_content_size c))
  else if index_stride c =? 0 then Err ZeroIndexStride
  else Ok tt.

(** ** Health state *)

Definition HEALTH_OK : Z := 0.
Definition HEALTH_DISK_FULL : Z := 1.
Definition HEALTH_IO_ERROR : Z := 2.

Record HealthState := mkHealth { code : Z; error_ts : Z }.

Definition health_new : HealthState := mkHealth HEALTH_OK 0.

(** The first error is kept; the timestamp always moves. *)
Definition set_error (h : HealthState) (c now : Z) : HealthState :=
  mkHealth (if code h =? HEALTH_OK then c else code h) now.

Definition clear_if_recovered (h : HealthState) : HealthState := mkHealth HEALTH_OK (error_ts h).

Definition health_check (h : HealthState) : option Z :=
  if code h =? HEALTH_OK then None else Some (code h).

(** ** Powers of two *)

Lemma is_power_of_two_spec x :
  is_power_of_two x = true -> exists k, 0 <= k /\ x = 2 ^ k.
Proof.
  unfold is_power_of_two. rewrite andb_true_iff, Z.ltb_lt, Z.eqb_eq. intros [Hx Hl].
  exists (Z.log2 x). split; [apply Z.log2_nonneg|].
  destruct (Z.log2_spec x Hx) as [H1 H2]. destruct (decide (x = 2 ^ Z.log2 x)) as [|Hne]; [done|].
  exfalso. assert (Z.testbit (Z.land x (x - 1)) (Z.log2 x) = true) as Hb.
  { rewrite Z.land_spec, Z.bit_log2 by done.
    assert (Z.log2 (x - 1) = Z.log2 x) as <-.
    { apply Z.log2_unique; [apply Z.log2_nonneg|]. lia. }
    rewrite Z.bit_log2; [done|]. pose proof (Z.pow_pos_nonneg 2 (Z.log2 x)).
    pose proof (Z.log2_nonneg x). lia. }
  by rewrite Hl, Z.bits_0 in Hb.
Qed.

(** Masking with [2^k - 1] is reduction modulo [2^k]. *)
Lemma land_mask x k : 0 <= k -> Z.land x (2 ^ k - 1) = x mod 2 ^ k.
Proof.
  intros. replace (2 ^ k - 1) with (Z.ones k) by (rewrite Z.ones_equiv; lia).
  by apply Z.land_ones.
Qed.

(** A validated configuration bounds every field the storage layer divides by,
    masks with or shifts by. *)
Lemma validate_ok c :
  validate c = Ok tt ->
  (exists k, 4 <= k /\ ring_size c = 2 ^ k) /\ 1 <= shards c <= 256 /\
  1024 * 1024 <= segment_size c /\ max_content_size c <= 64 * 1024 * 1024 /\
  index_stride c <> 0.
Proof.
  unfold validate. intros Hv.
  destruct (is_power_of_two (ring_size c)) eqn:Hp; [|done].
  destruct (Z.ltb_spec (ring_size c) 16); [done|].
  destruct (Z.ltb_spec (shards c) 1); [done|]. destruct (Z.ltb_spec 256 (shards c)); [done|].
  destruct (Z.ltb_spec (segment_size c) (1024 * 1024)); [done|].
  destruct (Z.ltb_spec (64 * 1024 * 1024) (max_content_size c)); [done|].
  destruct (Z.eqb_spec (index_stride c) 0); [done|].
  apply is_power_of_two_spec in Hp as (k & Hk & Hr).
  split; [|lia]. exists k. split; [|done].
  assert (2 ^ 4 <= 2 ^ k) as Hle by lia. apply Z.pow_le_mono_r_iff in Hle; lia.
Qed.
