(* ===== verification/Ring.v ===== *)
(** * Ring buffer ([logdb/src/ring/slot.rs], [logdb/src/ring/mod.rs])

    A slot stores one record and a publication stamp; the ring is a
    power-of-two array of slots with the cursors of the pipeline.  This file
    has the operations; their interleavings are in [Pipeline]. *)
From S2P Require Import Prelude Externals Format Config.
From stdpp Require Import base list numbers.
From coqutil Require Import Byte.
From Stdlib Require Import ZArith Lia.
Open Scope Z_scope.

(** ** Slots *)

Definition INLINE_CAP : Z := 256.

(** Contents of at most [INLINE_CAP] bytes live in the slot's own buffer. *)
Inductive ContentStorage :=
| Inline (buf : bytes)
| Spill (b : bytes).

Record SlotInner := mkInner {
  si_record_id : Z;
  si_timestamp_ns : Z;
  content_len : Z;
  storage : ContentStorage;
  si_hash_n : bytes;
}.

(** [slot_sequence] is [seq + 1] once [seq] is published in the slot, 0 when
    the slot is fresh. *)
Record Slot := mkSlot { inner : SlotInner; slot_sequence : Z }.

Definition slot_new : Slot :=
  mkSlot (mkInner 0 0 0 (Inline (zeros INLINE_CAP)) (zeros 32)) 0.

(** [Slot::producer_write]. *)
Definition producer_write (s : Slot) (seq ts : Z) (content : bytes) : Slot :=
  let st :=
    if blen content <=? INLINE_CAP then
      match storage (inner s) with
      | Inline buf => Inline (copy_at 0 content buf)
      | Spill _ => Inline (copy_at 0 content (zeros INLINE_CAP))
      end
    else Spill content in
  mkSlot (mkInner seq ts (u32 (blen content)) st (si_hash_n (inner s))) (slot_sequence s).

(** [Slot::publish]. *)
Definition publish (s : Slot) (seq : Z) : Slot := mkSlot (inner s) (u64 (seq + 1)).

(** [Slot::is_published]. *)
Definition is_published (s : Slot) (seq : Z) : bool := slot_sequence s =? u64 (seq + 1).

(** [Slot::read]. *)
Definition slot_read (s : Slot) : ReadView :=
  let i := inner s in
  let content := match storage i with
                 | Inline buf => slice buf 0 (content_len i)
                 | Spill b => slice b 0 (content_len i)
                 end in
  mkReadView (si_record_id i) (si_timestamp_ns i) content (si_hash_n i).

(** [Slot::write_hash]. *)
Definition write_hash (s : Slot) (h : bytes) : Slot :=
  let i := inner s in
  mkSlot (mkInner (si_record_id i) (si_timestamp_ns i) (content_len i) (storage i) h)
    (slot_sequence s).

(** An inline buffer keeps its fixed size. *)
Definition slot_wf (s : Slot) : Prop :=
  match storage (inner s) with
  | Inline buf => blen buf = INLINE_CAP
  | Spill _ => True
  end.

(** ** The ring *)

Record Ring := mkRing {
  slots : list Slot;
  mask : Z;
  rsize : Z;
  producer_cursor : Z;
  sealed_cursor : Z;
  committed_cursor : Z;
  durable_cursor : Z;
  rhash : bool;
}.

(** [Ring::new]; [None] is the failed size assertion. *)
Definition ring_new (ring_size : Z) (hash_enabled : bool) (initial : Z) : option Ring :=
  if is_power_of_two ring_size && (16 <=? ring_size) then
    Some (mkRing (replicate (Z.to_nat ring_size) slot_new) (ring_size - 1) ring_size
            initial initial initial initial hash_enabled)
  else None.

Definition slot_index (r : Ring) (seq : Z) : nat := Z.to_nat (Z.land seq (mask r)).

(** [Ring::slot]. *)
Definition slot (r : Ring) (seq : Z) : Slot := default slot_new (slots r !! slot_index r seq).

Definition set_slot (r : Ring) (seq : Z) (s : Slot) : Ring :=
  mkRing (<[slot_index r seq := s]> (slots r)) (mask r) (rsize r) (producer_cursor r)
    (sealed_cursor r) (committed_cursor r) (durable_cursor r) (rhash r).

Definition set_producer (r : Ring) (v : Z) : Ring :=
  mkRing (slots r) (mask r) (rsize r) v (sealed_cursor r) (committed_cursor r)
    (durable_cursor r) (rhash r).
Definition set_sealed (r : Ring) (v : Z) : Ring :=
  mkRing (slots r) (mask r) (rsize r) (producer_cursor r) v (committed_cursor r)
    (durable_cursor r) (rhash r).
Definition set_committed (r : Ring) (v : Z) : Ring :=
  mkRing (slots r) (mask r) (rsize r) (producer_cursor r) (sealed_cursor r) v
    (durable_cursor r) (rhash r).
Definition set_durable (r : Ring) (v : Z) : Ring :=
  mkRing (slots r) (mask r) (rsize r) (producer_cursor r) (sealed_cursor r)
    (committed_cursor r) v (rhash r).

(** [Ring::consume_watermark]. *)
Definition consume_watermark (r : Ring) : Z :=
  let committed := committed_cursor r in
  if rhash r then Z.min committed (sealed_cursor r) else committed.

(** The backpressure test of [Ring::claim]: the slot of [seq] is not free. *)
Definition claim_full (rsize seq wm : Z) : bool := rsize <=? u64 (seq - wm).

(** [Ring::claim] run without interference: [None] means that the [Block]
    policy keeps waiting for a consumer. *)
Definition claim (r : Ring) (policy : QueueFullPolicy) : option (result AppendError (Z * Ring)) :=
  let seq := producer_cursor r in
  let wm := consume_watermark r in
  if claim_full (rsize r) seq wm then
    match policy with
    | Drop => Some (Err QueueFull)
    | Block => None
    end
  else Some (Ok (seq, set_producer r (u64 (seq + 1)))).

(** The backpressure test of [Ring::claim_batch]. *)
Definition claim_batch_full (rsize seq wm n : Z) : bool := rsize <? u64 (u64 (seq - wm) + n).

(** [Ring::claim_batch] run without interference. *)
Definition claim_batch (r : Ring) (n : Z) (policy : QueueFullPolicy)
    : option (result AppendError (Z * Ring)) :=
  if rsize r <? n then Some (Err QueueFull)
  else
    let seq := producer_cursor r in
    let wm := consume_watermark r in
    if claim_batch_full (rsize r) seq wm n then
      match policy with
      | Drop => Some (Err QueueFull)
      | Block => None
      end
    else Some (Ok (seq, set_producer r (u64 (seq + n)))).

(** The loop of [Ring::highest_published_contiguous]; [None] when the fuel runs
    out. *)
Fixpoint hpc_loop (fuel : nat) (r : Ring) (seq : Z) : option Z :=
  match fuel with
  | O => None
  | S fuel =>
      if negb (is_published (slot r seq) seq) then Some (u64 (seq - 1))
      else hpc_loop fuel r (u64 (seq + 1))
  end.

(** The ring's length plus one iterations always suffice
    ([hpc_loop_terminates]). *)
Definition highest_published_contiguous (r : Ring) (from_seq : Z) : Z :=
  default (u64 (from_seq - 1)) (hpc_loop (S (length (slots r))) r from_seq).

(** The phases of the producer's [backoff]; the counter after the call. *)
Inductive Wait := Spin | Yield | Sleep.

Definition backoff (spins : Z) : Wait * Z :=
  let spins := Z.min U32_MAX (spins + 1) in
  if spins <=? 64 then (Spin, spins)
  else if spins <=? 256 then (Yield, spins)
  else (Sleep, 128).

(** ** Slot lemmas *)

Lemma slot_new_wf : slot_wf slot_new.
Proof. done. Qed.

Lemma producer_write_wf s seq ts c : slot_wf s -> slot_wf (producer_write s seq ts c).
Proof.
  unfold slot_wf, producer_write. cbn [inner storage]. intros Hw.
  destruct (blen c <=? INLINE_CAP); [|done].
  destruct (storage (inner s)); by rewrite length_copy_at.
Qed.

(** What a producer writes is what a consumer reads, inline or spilled, and
    whatever the slot held before. *)
Lemma read_producer_write s seq ts c :
  slot_wf s -> blen c < 2 ^ 32 ->
  slot_read (producer_write s seq ts c) = mkReadView seq ts c (si_hash_n (inner s)).
Proof.
  unfold slot_wf, slot_read, producer_write, INLINE_CAP. cbn -[slice copy_at Z.pow].
  intros Hw Hc. rewrite (wrap_small 32) by (unfold in_range; lia). f_equal.
  destruct (Z.leb_spec (blen c) 256); [|by apply slice_all].
  destruct (storage (inner s)) as [buf|b]; apply slice_copy_eq; len.
Qed.

Lemma read_write_hash s h :
  slot_read (write_hash s h) =
  mkReadView (rv_record_id (slot_read s)) (rv_timestamp_ns (slot_read s))
    (rv_content (slot_read s)) h.
Proof. done. Qed.

Lemma read_publish s seq : slot_read (publish s seq) = slot_read s.
Proof. done. Qed.

(** ** Ring lemmas *)

Record ring_wf (r : Ring) : Prop := {
  rw_size : exists k, 4 <= k < 64 /\ rsize r = 2 ^ k;
  rw_mask : mask r = rsize r - 1;
  rw_slots : length (slots r) = Z.to_nat (rsize r);
  rw_slot : Forall slot_wf (slots r);
}.

Lemma rw_pos r : ring_wf r -> 16 <= rsize r < 2 ^ 64.
Proof.
  intros [(k & Hk & ->) _ _ _]. split.
  - change 16 with (2 ^ 4). apply Z.pow_le_mono_r; lia.
  - apply Z.pow_lt_mono_r; lia.
Qed.

Lemma ring_new_wf n h i r : in_range 64 n -> ring_new n h i = Some r -> ring_wf r.
Proof.
  unfold ring_new. intros [_ Hn] Hr. destruct (is_power_of_two n) eqn:Hp; [|done].
  destruct (Z.leb_spec 16 n); [|done]. simplify_eq/=.
  apply is_power_of_two_spec in Hp as (k & Hk & ->).
  split; simpl; [|done|by rewrite length_replicate|].
  - exists k. split; [|done]. split.
    + assert (2 ^ 4 <= 2 ^ k) as Hle by lia. apply Z.pow_le_mono_r_iff in Hle; lia.
    + by apply Z.pow_lt_mono_r_iff in Hn.
  - apply Forall_replicate, slot_new_wf.
Qed.

Lemma slot_index_mod r seq : ring_wf r -> slot_index r seq = Z.to_nat (seq mod rsize r).
Proof.
  intros [(k & Hk & Hs) Hm _ _]. unfold slot_index. by rewrite Hm, Hs, land_mask by lia.
Qed.

Lemma slot_index_lt r seq : ring_wf r -> (slot_index r seq < length (slots r))%nat.
Proof.
  intros Hw. rewrite slot_index_mod, rw_slots by done. pose proof (rw_pos r Hw).
  pose proof (Z.mod_pos_bound seq (rsize r)). lia.
Qed.

(** Two sequences less than a ring apart never share a slot. *)
Lemma slot_index_inj r s1 s2 :
  ring_wf r -> Z.abs (s1 - s2) < rsize r -> slot_index r s1 = slot_index r s2 -> s1 = s2.
Proof.
  intros Hw Hd. rewrite !slot_index_mod by done. pose proof (rw_pos r Hw) as [Hp _].
  pose proof (Z.mod_pos_bound s1 (rsize r) ltac:(lia)).
  pose proof (Z.mod_pos_bound s2 (rsize r) ltac:(lia)). intros He.
  assert (s1 mod rsize r = s2 mod rsize r) as Hm by lia.
  pose proof (Z.div_mod s1 (rsize r) ltac:(lia)). pose proof (Z.div_mod s2 (rsize r) ltac:(lia)).
  assert (s1 / rsize r = s2 / rsize r) by nia. lia.
Qed.

Lemma slot_index_u64 r s : ring_wf r -> slot_index r (u64 s) = slot_index r s.
Proof.
  intros Hw. rewrite !slot_index_mod by done. f_equal. unfold wrap.
  destruct Hw as [(k & Hk & ->) _ _ _].
  apply Z.mod_mod_divide. exists (2 ^ (64 - k)).
  rewrite <- Z.pow_add_r by lia. f_equal. lia.
Qed.

Lemma slot_set_eq r seq s : ring_wf r -> slot (set_slot r seq s) seq = s.
Proof.
  intros Hw. unfold slot, set_slot, slot_index. simpl.
  rewrite list_lookup_insert_eq; [done|]. by apply slot_index_lt.
Qed.

Lemma slot_set_ne r seq seq' s :
  slot_index r seq <> slot_index r seq' -> slot (set_slot r seq s) seq' = slot r seq'.
Proof.
  intros Hne. unfold slot, set_slot, slot_index in *. simpl.
  by rewrite list_lookup_insert_ne.
Qed.

(** The same slot through two sequences that share it. *)
Lemma slot_same_index r s1 s2 : slot_index r s1 = slot_index r s2 -> slot r s1 = slot r s2.
Proof. unfold slot. by intros ->. Qed.

Lemma slot_slot_wf r seq : ring_wf r -> slot_wf (slot r seq).
Proof.
  intros Hw. unfold slot. destruct (slots r !! _) as [s|] eqn:Hs; [|done]. simpl.
  by eapply Forall_lookup_1; [apply rw_slot|].
Qed.

Lemma set_slot_ring_wf r seq s : ring_wf r -> slot_wf s -> ring_wf (set_slot r seq s).
Proof.
  intros [] Hs. split; simpl; [done|done|by rewrite length_insert|by apply Forall_insert].
Qed.

(** ** [highest_published_contiguous] *)

Definition published_at (r : Ring) (seq : Z) : Prop := is_published (slot r (u64 seq)) (u64 seq) = true.

Lemma hpc_loop_None r fuel seq :
  hpc_loop fuel r (u64 seq) = None ->
  forall i, (i < fuel)%nat -> published_at r (seq + Z.of_nat i).
Proof.
  revert seq. induction fuel as [|fuel IH]; intros seq; cbn [hpc_loop]; [lia|].
  destruct (is_published (slot r (u64 seq)) (u64 seq)) eqn:Hp; [|done]. simpl.
  rewrite wrap_add_l by lia. intros Hn [|i] Hi.
  - unfold published_at. by rewrite Z.add_0_r.
  - replace (seq + Z.of_nat (S i)) with (seq + 1 + Z.of_nat i) by lia. apply IH; [done|lia].
Qed.

(** The scan stops within one turn of the ring, whatever the slots hold: a slot
    cannot be stamped for two sequences a whole ring apart. *)
Lemma hpc_loop_terminates r seq :
  ring_wf r -> is_Some (hpc_loop (S (length (slots r))) r (u64 seq)).
Proof.
  intros Hw. destruct (hpc_loop _ r (u64 seq)) eqn:Hh; [by eexists|]. exfalso.
  pose proof (hpc_loop_None _ _ _ Hh) as Hp. pose proof (rw_pos r Hw) as [Hs1 Hs2].
  pose proof (Hp 0%nat ltac:(lia)) as H0. pose proof (Hp (length (slots r)) ltac:(lia)) as HN.
  rewrite (rw_slots r Hw), Z2Nat.id in HN by lia. rewrite Z.add_0_r in H0.
  unfold published_at, is_published in *.
  rewrite (slot_same_index r (u64 (seq + rsize r)) (u64 seq)) in HN.
  2:{ rewrite !slot_index_u64, !slot_index_mod by done. f_equal.
      rewrite <- (Z.mul_1_l (rsize r)) at 1. apply Z.mod_add. lia. }
  apply Z.eqb_eq in H0, HN. rewrite H0, !wrap_add_l in HN by lia. unfold wrap in HN.
  assert ((seq + rsize r + 1 - (seq + 1)) mod 2 ^ 64 = 0) as Hz.
  { rewrite Zminus_mod, HN, Z.sub_diag. done. }
  replace (seq + rsize r + 1 - (seq + 1)) with (rsize r) in Hz by lia.
  rewrite Z.mod_small in Hz by lia. lia.
Qed.

Lemma hpc_loop_Some r fuel seq h :
  hpc_loop fuel r (u64 seq) = Some h ->
  exists i, (i < fuel)%nat /\ h = u64 (seq + Z.of_nat i - 1) /\
    (forall j, (j < i)%nat -> published_at r (seq + Z.of_nat j)) /\
    ~ published_at r (seq + Z.of_nat i).
Proof.
  revert seq. induction fuel as [|fuel IH]; intros seq; cbn [hpc_loop]; [done|].
  destruct (is_published (slot r (u64 seq)) (u64 seq)) eqn:Hp; simpl.
  - rewrite wrap_add_l by lia. intros (i & Hi & -> & Hpub & Hno)%IH. exists (S i).
    split; [lia|]. split; [f_equal; lia|]. split.
    + intros [|j] Hj; [unfold published_at; by rewrite Z.add_0_r|].
      replace (seq + Z.of_nat (S j)) with (seq + 1 + Z.of_nat j) by lia. apply Hpub. lia.
    + by replace (seq + Z.of_nat (S i)) with (seq + 1 + Z.of_nat i) by lia.
  - intros [= <-]. exists 0%nat. rewrite wrap_sub_l by lia.
    split; [lia|]. split; [f_equal; lia|]. split; [lia|].
    unfold published_at. rewrite Z.add_0_r, Hp. done.
Qed.

(** ** Claims *)

(** The published-run scan ends and is exact.  Started anywhere in a ring of
    any content, also across the wrap of the 64-bit sequence, it stops within
    one turn of the ring, every sequence it passed is published and the one
    after the returned sequence is not. *)
Theorem published_run_is_longest r from :
  ring_wf r ->
  exists n, 0 <= n <= rsize r /\
    highest_published_contiguous r (u64 from) = u64 (from + n - 1) /\
    (forall j, 0 <= j < n -> published_at r (from + j)) /\ ~ published_at r (from + n).
Proof.
  intros Hw. destruct (hpc_loop_terminates r from Hw) as [h Hh].
  unfold highest_published_contiguous. rewrite Hh. simpl.
  apply hpc_loop_Some in Hh as (i & Hi & -> & Hp & Hn). exists (Z.of_nat i).
  rewrite (rw_slots r Hw) in Hi. pose proof (rw_pos r Hw).
  split; [lia|]. split; [done|]. split; [|done]. intros j Hj.
  rewrite <- (Z2Nat.id j) by lia. apply Hp. lia.
Qed.

(** A ring of 16 slots with its first two records published. *)
Definition demo_published : Ring :=
  let r := default (mkRing [] 0 0 0 0 0 0 false) (ring_new 16 true 0) in
  let write r s := set_slot r s (publish (producer_write (slot r s) s 7 [Byte.x61]) s) in
  write (write r 0) 1.

Lemma demo_published_wf : ring_wf demo_published.
Proof.
  unfold demo_published. repeat (apply set_slot_ring_wf; [|apply producer_write_wf, slot_slot_wf]).
  all: repeat apply set_slot_ring_wf.
  all: try (apply (ring_new_wf 16 true 0); [split; [discriminate|reflexivity]|reflexivity]).
  all: apply producer_write_wf, slot_slot_wf, (ring_new_wf 16 true 0);
    [split; [discriminate|reflexivity]|reflexivity].
Qed.

Lemma published_run_is_longest_witness :
  highest_published_contiguous demo_published 0 = 1 /\
  exists n, highest_published_contiguous demo_published (u64 0) = u64 (0 + n - 1).
Proof.
  split; [vm_compute; reflexivity|].
  destruct (published_run_is_longest demo_published 0 demo_published_wf) as (n & _ & Hn & _).
  by exists n.
Defined.
