(* ===== verification/Sealer.v ===== *)
(** * Hash-chain sealer ([logdb/src/pipeline/sealer.rs])

    The chain function, one pass of the sealer over the published slots, and
    the stand-alone chain verifier. *)
From stdpp Require Import base list numbers.
From coqutil Require Import Byte.
From Stdlib Require Import ZArith Lia.
From S2P Require Import Prelude Externals Format Config Ring.
Open Scope Z_scope.

Section sealer.
Context `{Externals}.

Definition blake3_keyed_chain (key prev_hash content : bytes) : bytes :=
  blake3_keyed key (prev_hash ++ content).

Definition sha256_chain (prev_hash content : bytes) : bytes := sha256 (prev_hash ++ content).

(** The loop of [scan_published]; the ring's size bounds it. *)
Fixpoint scan_loop (fuel : nat) (r : Ring) (from_seq seq : Z) : option Z :=
  match fuel with
  | O => None
  | S fuel =>
      if negb (is_published (slot r seq) seq) then Some (u64 (seq - 1))
      else
        let seq := u64 (seq + 1) in
        if rsize r <=? u64 (seq - from_seq) then Some (u64 (seq - 1))
        else scan_loop fuel r from_seq seq
  end.

Definition scan_published (r : Ring) (from_seq : Z) : option Z :=
  if negb (is_published (slot r from_seq) from_seq) then None
  else scan_loop (length (slots r)) r from_seq from_seq.

(** [for seq in next_seq..=hi]: hash each record and store the hash in its
    slot; [n] records are left. *)
Fixpoint seal_range (n : nat) (r : Ring) (hash_init last_hash : bytes) (seq : Z) : Ring * bytes :=
  match n with
  | O => (r, last_hash)
  | S n =>
      let view := slot_read (slot r seq) in
      let h := blake3_keyed_chain hash_init last_hash (rv_content view) in
      seal_range n (set_slot r seq (write_hash (slot r seq) h)) hash_init h (seq + 1)
  end.

(** One iteration of [run_sealer]: the ring, the last hash and the next
    sequence; [None] when there is nothing to seal. *)
Definition sealer_pass (r : Ring) (hash_init last_hash : bytes) (next_seq : Z)
    : option (Ring * bytes * Z) :=
  match scan_published r next_seq with
  | Some hi =>
      let '(r, last_hash) := seal_range (Z.to_nat (hi + 1 - next_seq)) r hash_init last_hash next_seq in
      Some (set_sealed r (u64 (hi + 1)), last_hash, u64 (hi + 1))
  | None => None
  end.

(** [verify_chain]: [(record_id, content, stored_hash)] triples. *)
Fixpoint verify_chain_from (records : list (Z * bytes * bytes)) (init_hash expected : bytes)
    (hash_algo : Z) : bool :=
  match records with
  | [] => true
  | (_, c, stored) :: records =>
      let expected := if hash_algo =? HASH_ALGO_BLAKE3
                      then blake3_keyed init_hash (expected ++ c)
                      else sha256_chain expected c in
      if decide (expected = stored) then verify_chain_from records init_hash expected hash_algo
      else false
  end.

Definition verify_chain (records : list (Z * bytes * bytes)) (init_hash : bytes) (hash_algo : Z)
    : bool := verify_chain_from records init_hash init_hash hash_algo.

(** ** The chain as a specification *)

(** The hashes of [contents] chained after [prev]. *)
Fixpoint chain (key prev : bytes) (contents : list bytes) : list bytes :=
  match contents with
  | [] => []
  | c :: contents =>
      let h := blake3_keyed_chain key prev c in h :: chain key h contents
  end.

Lemma length_chain key prev cs : length (chain key prev cs) = length cs.
Proof. revert prev. induction cs; intros; simpl; auto. Qed.

Lemma chain_app key prev cs cs' :
  chain key prev (cs ++ cs') =
  chain key prev cs ++ chain key (List.last (chain key prev cs) prev) cs'.
Proof.
  revert prev. induction cs as [|c cs IH]; intros prev; simpl; [done|].
  rewrite IH. do 3 f_equal. exact (eq_sym (last_cons_default _ _ _)).
Qed.

(** ** One sealing pass *)

Lemma scan_loop_spec r from fuel seq :
  ring_wf r -> 0 <= from <= seq -> seq < from + rsize r < 2 ^ 64 ->
  from + rsize r - seq <= Z.of_nat fuel ->
  (forall s, from <= s < seq -> is_published (slot r s) s = true) ->
  (from < seq \/ is_published (slot r seq) seq = true) ->
  exists hi, scan_loop fuel r from seq = Some hi /\ from <= hi < from + rsize r /\
    (forall s, from <= s <= hi -> is_published (slot r s) s = true) /\
    (hi < from + rsize r - 1 -> is_published (slot r (hi + 1)) (hi + 1) = false).
Proof.
  intros Hw. revert seq. induction fuel as [|fuel IH]; intros seq Hfs Hlt Hf Hpub Hor; [lia|].
  cbn [scan_loop]. destruct (is_published (slot r seq) seq) eqn:Hp; simpl.
  - rewrite (wrap_small 64 (seq + 1)), (wrap_small 64 (seq + 1 - from)),
      (wrap_small 64 (seq + 1 - 1)) by (unfold in_range; lia).
    assert (forall s, from <= s < seq + 1 -> is_published (slot r s) s = true) as Hpub'.
    { intros s Hs. destruct (decide (s = seq)) as [->|]; [done|]. apply Hpub. lia. }
    destruct (Z.leb_spec (rsize r) (seq + 1 - from)).
    + exists (seq + 1 - 1). split; [done|]. split; [lia|]. split; [|lia].
      intros s Hs. apply Hpub'. lia.
    + apply IH; [lia..|done|]. left. lia.
  - destruct Hor as [Hor|]; [|done]. rewrite wrap_small by (unfold in_range; lia).
    exists (seq - 1). split; [done|]. split; [lia|]. split.
    + intros s Hs. apply Hpub. lia.
    + intros _. by replace (seq - 1 + 1) with seq by lia.
Qed.

(** [scan_published] finds the longest published run, at most one ring long. *)
Lemma scan_published_spec r from :
  ring_wf r -> 0 <= from -> from + rsize r < 2 ^ 64 ->
  match scan_published r from with
  | Some hi => from <= hi < from + rsize r /\
      (forall s, from <= s <= hi -> is_published (slot r s) s = true) /\
      (hi < from + rsize r - 1 -> is_published (slot r (hi + 1)) (hi + 1) = false)
  | None => is_published (slot r from) from = false
  end.
Proof.
  intros Hw H0 Hb. unfold scan_published. pose proof (rw_pos r Hw).
  destruct (is_published (slot r from) from) eqn:Hp; [|done]. simpl.
  destruct (scan_loop_spec r from (length (slots r)) from) as (hi & -> & ?);
    [done|lia|lia|rewrite rw_slots by done; lia|lia|by right|done].
Qed.

(** The contents of the [n] slots from [seq] on. *)
Fixpoint slot_contents (n : nat) (r : Ring) (seq : Z) : list bytes :=
  match n with
  | O => []
  | S n => rv_content (slot_read (slot r seq)) :: slot_contents n r (seq + 1)
  end.

Lemma length_slot_contents n r seq : length (slot_contents n r seq) = n.
Proof. revert seq. induction n; intros; simpl; auto. Qed.

Lemma slot_contents_ext n r r' seq :
  (forall i, (i < n)%nat -> slot r' (seq + Z.of_nat i) = slot r (seq + Z.of_nat i)) ->
  slot_contents n r' seq = slot_contents n r seq.
Proof.
  revert seq. induction n as [|n IH]; intros seq He; simpl; [done|]. f_equal.
  - specialize (He 0%nat). rewrite Z.add_0_r in He. by rewrite He by lia.
  - apply IH. intros i Hi. specialize (He (S i)).
    replace (seq + 1 + Z.of_nat i) with (seq + Z.of_nat (S i)) by lia. apply He. lia.
Qed.

Record same_ring (r r' : Ring) : Prop := {
  sr_mask : mask r' = mask r;
  sr_size : rsize r' = rsize r;
  sr_producer : producer_cursor r' = producer_cursor r;
  sr_sealed : sealed_cursor r' = sealed_cursor r;
  sr_committed : committed_cursor r' = committed_cursor r;
  sr_durable : durable_cursor r' = durable_cursor r;
  sr_hash : rhash r' = rhash r;
}.

(** Sealing writes the chain into the range's slots and nothing else. *)
Lemma seal_range_spec n r key last seq r' last' :
  ring_wf r -> Z.of_nat n <= rsize r -> seal_range n r key last seq = (r', last') ->
  let hs := chain key last (slot_contents n r seq) in
  ring_wf r' /\ same_ring r r' /\ last' = List.last hs last /\
  (forall i h, hs !! i = Some h ->
     slot r' (seq + Z.of_nat i) = write_hash (slot r (seq + Z.of_nat i)) h) /\
  (forall s, (forall i, (i < n)%nat -> slot_index r s <> slot_index r (seq + Z.of_nat i)) ->
     slot r' s = slot r s).
Proof.
  revert r last seq. induction n as [|n IH]; intros r last seq Hw Hn Hs; simpl in *.
  { simplify_eq. repeat split; try done; apply Hw. }
  set (c := rv_content (slot_read (slot r seq))) in *.
  set (h := blake3_keyed_chain key last c) in *.
  set (r1 := set_slot r seq (write_hash (slot r seq) h)) in *.
  assert (ring_wf r1) as Hw1 by (apply set_slot_ring_wf; [done|]; by apply (slot_slot_wf r)).
  assert (forall i, (i < n)%nat -> slot_index r seq <> slot_index r (seq + 1 + Z.of_nat i)) as Hdiff.
  { intros i Hi He. apply slot_index_inj in He; [lia|done|]. lia. }
  assert (slot_contents n r1 (seq + 1) = slot_contents n r (seq + 1)) as Hc.
  { apply slot_contents_ext. intros i Hi. apply slot_set_ne. by apply Hdiff. }
  destruct (IH r1 h (seq + 1) Hw1 ltac:(simpl; lia) Hs) as (Hw' & Hsame & Hlast & Hin & Hout).
  rewrite Hc in *. split; [done|]. split; [by destruct Hsame; split|]. split; [|split].
  - rewrite Hlast. symmetry. apply last_cons_default.
  - intros [|i] g Hg; simpl in Hg.
    + simplify_eq. rewrite Z.add_0_r, Hout; [by apply slot_set_eq|].
      intros i Hi. by apply Hdiff.
    + replace (seq + Z.of_nat (S i)) with (seq + 1 + Z.of_nat i) by lia.
      rewrite (Hin i g Hg). f_equal. apply slot_set_ne, Hdiff.
      apply lookup_lt_Some in Hg. by rewrite length_chain, length_slot_contents in Hg.
  - intros s Hs'. rewrite Hout.
    + apply slot_set_ne. specialize (Hs' 0%nat). rewrite Z.add_0_r in Hs'.
      intros He. by apply Hs'; [lia|].
    + intros i Hi. specialize (Hs' (S i)).
      replace (seq + Z.of_nat (S i)) with (seq + 1 + Z.of_nat i) in Hs' by lia. apply Hs'. lia.
Qed.

(** ** Claims *)

(** A sealer pass extends the chain over the longest published run.  It
    seals nothing exactly when the next record is not published; otherwise it
    stores in every slot of the run (at most one ring) the next hash of the
    keyed chain over the slots' contents, leaves their records as they were,
    touches no other slot, and moves the sealed cursor to the end of the run. *)
Theorem sealer_pass_extends_chain r key last next :
  ring_wf r -> 0 <= next -> next + rsize r < 2 ^ 64 ->
  match sealer_pass r key last next with
  | None => is_published (slot r next) next = false
  | Some (r', last', next') =>
      next < next' <= next + rsize r /\ sealed_cursor r' = next' /\
      (forall s, next <= s < next' -> is_published (slot r s) s = true) /\
      (next' < next + rsize r -> is_published (slot r next') next' = false) /\
      let n := Z.to_nat (next' - next) in
      let hs := chain key last (slot_contents n r next) in
      last' = List.last hs last /\
      (forall i h, hs !! i = Some h ->
         slot r' (next + Z.of_nat i) = write_hash (slot r (next + Z.of_nat i)) h) /\
      (forall s, (forall i, (i < n)%nat -> slot_index r s <> slot_index r (next + Z.of_nat i)) ->
         slot r' s = slot r s)
  end.
Proof.
  intros Hw H0 Hb. unfold sealer_pass. pose proof (scan_published_spec r next Hw H0 Hb) as Hs.
  destruct (scan_published r next) as [hi|]; [|done]. destruct Hs as (Hhi & Hpub & Hstop).
  destruct (seal_range _ r key last next) as [r1 last1] eqn:Hr.
  apply seal_range_spec in Hr as (_ & _ & Hlast & Hin & Hout); [|done|lia].
  cbv zeta. rewrite (wrap_small 64) by (unfold in_range; lia).
  split; [lia|]. split; [done|]. split; [intros s Hs; apply Hpub; lia|].
  split; [intros Hlt; apply Hstop; lia|]. done.
Qed.
End sealer.

Section sealer_demo.
#[local] Instance sealer_demo_externals : Externals := toy.

Lemma sealer_pass_extends_chain_witness :
  match sealer_pass demo_published (zeros 32) (zeros 32) 0 with
  | Some (r', _, next') => sealed_cursor r' = next' /\ next' = 2
  | None => False
  end.
Proof.
  pose proof (sealer_pass_extends_chain demo_published (zeros 32) (zeros 32) 0
    demo_published_wf ltac:(lia) ltac:(reflexivity)) as Hp.
  assert (option_map snd (sealer_pass demo_published (zeros 32) (zeros 32) 0) = Some 2) as He
    by (vm_compute; reflexivity).
  destruct (sealer_pass _ _ _ _) as [[[r' l'] n']|]; [|discriminate].
  injection He as ->. split; [apply Hp|reflexivity].
Defined.
End sealer_demo.
