(* ===== verification/Signal.v ===== *)
(** * Flush and shutdown signals ([logdb/src/pipeline/signal.rs],
      [logdb/src/pipeline/trigger.rs])

    Each method is one atomic access or a compare-exchange loop.  A loop that
    retries until its compare-exchange succeeds takes effect at that success,
    on the value the cell holds then: the model is that effect. *)
From stdpp Require Import base list numbers.
From Stdlib Require Import ZArith Lia.
From S2P Require Import Prelude.
Open Scope Z_scope.

(** ** [FlushSignal] *)

Record FlushSignal := mkFlush { targets : list Z; completed : list Z }.

Definition flush_new (num_shards : nat) : FlushSignal :=
  mkFlush (replicate num_shards U64_MAX) (replicate num_shards 0).

(** The value [request] leaves in a target cell. *)
Definition request_target (cur t : Z) : Z := if cur =? U64_MAX then t else Z.max cur t.

(** [for (s, &t) in per_shard.iter().enumerate()] with the early [break] past
    the last shard. *)
Fixpoint request_targets (ts per_shard : list Z) : list Z :=
  match ts, per_shard with
  | cur :: ts, t :: per_shard => request_target cur t :: request_targets ts per_shard
  | ts, _ => ts
  end.

Definition request (f : FlushSignal) (per_shard : list Z) : FlushSignal :=
  mkFlush (request_targets (targets f) per_shard) (completed f).

(** [complete]; [None] is the out-of-range panic. *)
Definition complete (f : FlushSignal) (shard : nat) (durable : Z) : option FlushSignal :=
  cur ← completed f !! shard;
  Some (mkFlush (targets f) (<[shard := if cur <? durable then durable else cur]> (completed f))).

Fixpoint is_done_from (done per_shard : list Z) : bool :=
  match per_shard with
  | [] => true
  | t :: per_shard =>
      match done with
      | [] => is_done_from [] per_shard
      | c :: done => (t <=? c) && is_done_from done per_shard
      end
  end.

Definition is_done (f : FlushSignal) (per_shard : list Z) : bool :=
  is_done_from (completed f) per_shard.

Definition flush_target (f : FlushSignal) (shard : nat) : option Z := targets f !! shard.

Definition any_pending (f : FlushSignal) : bool :=
  existsb (fun t => negb (t =? U64_MAX)) (targets f).

(** ** [ShutdownState] *)

Record ShutdownState := mkShutdown { phase : Z; drain_target : Z; in_flight : Z }.

Definition shutdown_new : ShutdownState := mkShutdown 0 U64_MAX 0.

(** [enter] is two atomic accesses with the phase check between them and the
    back-out. *)
Definition enter_reserve (s : ShutdownState) : ShutdownState :=
  mkShutdown (phase s) (drain_target s) (u64 (in_flight s + 1)).

Definition draining (s : ShutdownState) : bool := 1 <=? phase s.
Definition aborted (s : ShutdownState) : bool := 2 <=? phase s.

Definition leave (s : ShutdownState) : ShutdownState :=
  mkShutdown (phase s) (drain_target s) (u64 (in_flight s - 1)).

(** [enter] run without interference. *)
Definition enter (s : ShutdownState) : ShutdownState * bool :=
  let s := enter_reserve s in
  if draining s then (leave s, false) else (s, true).

Definition should_stop (s : ShutdownState) (processed_cursor : Z) : bool :=
  if aborted s then true
  else if draining s then
    negb (drain_target s =? U64_MAX) && (drain_target s <=? processed_cursor)
  else false.

Definition start_drain (s : ShutdownState) : ShutdownState :=
  mkShutdown 1 (drain_target s) (in_flight s).

Definition abort (s : ShutdownState) : ShutdownState :=
  mkShutdown 2 (drain_target s) (in_flight s).

Definition set_drain_target (s : ShutdownState) (t : Z) : ShutdownState :=
  mkShutdown (phase s) t (in_flight s).

(** ** [Backoff] *)

Record WaitStrategy := mkWait { spin_count : Z; yield_count : Z }.

Inductive WaitPhase := WSpin | WYield | WPark.

(** [Backoff::step]: the counter afterwards and the phase run; [None] is the
    overflow of [spin_count + yield_count], which the second test alone
    evaluates. *)
Definition backoff_step (w : WaitStrategy) (spins : Z) : option (Z * WaitPhase) :=
  let spins := Z.min U32_MAX (spins + 1) in
  if spins <=? spin_count w then Some (spins, WSpin)
  else if U32_MAX <? spin_count w + yield_count w then None
  else if spins <=? spin_count w + yield_count w then Some (spins, WYield)
  else Some (spins, WPark).

(** ** Lemmas *)

Lemma length_request_targets ts ps : length (request_targets ts ps) = length ts.
Proof. revert ps. induction ts as [|? ? IH]; intros [|??]; simpl; auto. Qed.

Lemma request_targets_lookup ts ps s cur t :
  ts !! s = Some cur -> ps !! s = Some t ->
  request_targets ts ps !! s = Some (request_target cur t).
Proof.
  revert ps s. induction ts as [|c ts IH]; intros [|p ps] [|s]; simpl; intros; simplify_eq; auto.
Qed.

Lemma is_done_from_spec done ps :
  is_done_from done ps = true <->
  forall s t c, ps !! s = Some t -> done !! s = Some c -> t <= c.
Proof.
  revert done. induction ps as [|t ps IH]; intros done; simpl.
  { split; [|done]. intros _ s t c Ht. by rewrite lookup_nil in Ht. }
  destruct done as [|c done].
  - split; [intros _ s t' c' _ Hc; by rewrite lookup_nil in Hc|].
    intros _. apply IH. intros s t' c' _ Hc. by rewrite lookup_nil in Hc.
  - rewrite andb_true_iff, Z.leb_le, IH. split.
    + intros [Hle Ho] [|s] t' c'; simpl; intros; simplify_eq; eauto.
    + intros Ha. split; [by apply (Ha 0%nat)|].
      intros s t' c' Ht Hc. by apply (Ha (S s)).
Qed.

(** A completion never moves a shard backwards and never touches another. *)
Lemma complete_lookup f s d f' i :
  complete f s d = Some f' ->
  completed f' !! i =
  if decide (i = s) then (fun c => Z.max c d) <$> completed f !! i else completed f !! i.
Proof.
  unfold complete. destruct (completed f !! s) as [cur|] eqn:Hc; simpl; [|done].
  intros [= <-]. simpl. destruct (decide (i = s)) as [->|Hne].
  - rewrite list_lookup_insert_eq by (by eapply lookup_lt_Some). rewrite Hc. simpl. f_equal.
    destruct (Z.ltb_spec cur d); lia.
  - by rewrite list_lookup_insert_ne.
Qed.
