(* ===== verification/Pipeline.v ===== *)
(** * The concurrent append pipeline ([logdb/src/ring/mod.rs],
      [logdb/src/pipeline/sealer.rs], [logdb/src/pipeline/committer.rs],
      [append_routed] and [drain] of [logdb/src/lib.rs])

    One shard's ring shared by any number of producer threads, the sealer, the
    committer and a draining thread.  A step is one atomic access of one
    thread, or one access to a slot's data; threads interleave arbitrarily.
    The accesses that order data in the source are Acquire loads and Release
    stores of single cells, so the model is sequentially consistent.

    The ghost list [glog] collects what producers claimed sequence numbers for,
    in sequence order; it is not part of the program. *)
From stdpp Require Import base gmap list numbers.
From coqutil Require Import Byte.
From Stdlib Require Import ZArith Lia.
From S2P Require Import Prelude Externals Format Shard Config Ring Sealer Signal.
Open Scope Z_scope.

(** A record to append: timestamp and content. *)
Definition Item : Type := Z * bytes.

(** [append_routed] claims with [Ring::claim], [append_batch] with
    [Ring::claim_batch]. *)
Inductive Request := Single (x : Item) | Many (xs : list Item).

Definition items (q : Request) : list Item :=
  match q with Single x => [x] | Many xs => xs end.

(** The backpressure test of either claim. *)
Definition full (q : Request) (rsize seq wm : Z) : bool :=
  match q with
  | Single _ => claim_full rsize seq wm
  | Many xs => claim_batch_full rsize seq wm (Z.of_nat (length xs))
  end.

(** Where a producer thread is inside [append_routed] / [append_batch]. *)
Inductive PC :=
| PEntered (q : Request)                 (** [in_flight] reserved, phase not read *)
| PClaim (q : Request)                   (** top of the claim loop *)
| PLoaded (q : Request) (seq : Z)        (** [producer_cursor] loaded *)
| PCommitted (q : Request) (seq c : Z)   (** [committed_cursor] loaded *)
| PWatermark (q : Request) (seq wm : Z)  (** watermark computed *)
| PWrite (seq : Z) (xs : list Item)      (** owns the slots of [xs], from [seq] *)
| PPublish (seq : Z) (x : Item) (xs : list Item) (** [x] written, not published *)
| PLeaving.                              (** about to run [leave] *)

(** Where the sealer is inside [run_sealer]. *)
Inductive SPC :=
| SScan (seq : Z)
| SHash (seq hi : Z)
| SStore (hi : Z).

Record SealerSt := mkSealer { s_next : Z; s_last : bytes; s_pc : SPC }.

(** Where the committer is inside its loop: scanning for published slots,
    copying a batch, storing the cursor. *)
Inductive CPC :=
| CIdle
| CScan (seq : Z)
| CBatch (to cur : Z) (acc : list ReadView)
| CStore (last : Z).

(** [c_file] is what the batches have written so far. *)
Record CommitterSt := mkCommitter { c_next : Z; c_pc : CPC; c_file : list ReadView }.

(** The thread in [LogDb::drain]. *)
Inductive DPC := DRun | DWait | DZero | DDone.

Record St := mkSt {
  st_ring : Ring;
  st_prods : gmap nat PC;
  st_sealer : SealerSt;
  st_committer : CommitterSt;
  st_shutdown : ShutdownState;
  st_drain : DPC;
  st_log : list Item;
}.

(** ** Attempts *)

(** [attempts n ws]: batches wrote the positions [ws] of the log, in this
    order, and positions below [n] are done with.  A batch that failed after
    its write is followed by one that starts at the same position. *)
Inductive attempts : nat -> list nat -> Prop :=
| att_nil : attempts 0 []
| att_ok n m ws : attempts n ws -> (n <= m)%nat -> attempts m (ws ++ seq n (m - n))
| att_again n m ws : attempts n ws -> (n <= m)%nat -> attempts n (ws ++ seq n (m - n)).

(** The list without the repetitions of what came before. *)
Definition see (acc : list nat) (i : nat) : list nat := if decide (i ∈ acc) then acc else acc ++ [i].
Definition first_seen (ws : list nat) : list nat := foldl see [] ws.

Lemma foldl_see_seq n j k :
  (n <= k)%nat -> foldl see (seq 0 k) (seq n j) = seq 0 (k `max` (n + j)).
Proof.
  revert n k. induction j as [|j IH]; intros n k Hk; simpl.
  - f_equal. lia.
  - unfold see at 2. destruct (decide (n ∈ seq 0 k)) as [Hi|Hi]; rewrite elem_of_seq in Hi.
    + rewrite IH by lia. f_equal. lia.
    + assert (n = k) as -> by lia. change [k] with (seq (0 + k) 1). rewrite <- seq_app, IH by lia.
      f_equal. lia.
Qed.

(** Each position is first written after all positions below it. *)
Lemma attempts_first_seen n ws :
  attempts n ws -> exists k, first_seen ws = seq 0 k /\ (n <= k)%nat.
Proof.
  unfold first_seen.
  induction 1 as [|n m ws _ (k & Hk & Hle) Hm|n m ws _ (k & Hk & Hle) Hm]; [by exists 0%nat|..];
    rewrite foldl_app, Hk, foldl_see_seq by done; eexists; (split; [done|lia]).
Qed.

Lemma attempts_covers n ws i : attempts n ws -> (i < n)%nat -> i ∈ ws.
Proof.
  induction 1 as [|n m ws _ IH Hm|n m ws _ IH Hm] in i |- *; intros Hi; [lia|..]; apply elem_of_app.
  - destruct (decide (i < n)%nat); [left; auto|right; apply elem_of_seq; lia].
  - left; auto.
Qed.

Lemma foldl_see_sub acc ws i : i ∈ foldl see acc ws -> i ∉ acc -> i ∈ ws.
Proof.
  revert acc. induction ws as [|j ws IH]; intros acc Hi Hn; simpl in *; [done|].
  destruct (decide (i = j)) as [->|Hne]; [by left|]. right. apply (IH (see acc j)); [done|].
  unfold see. destruct (decide (j ∈ acc)); set_solver.
Qed.

Lemma foldl_see_length acc ws : (length (foldl see acc ws) <= length acc + length ws)%nat.
Proof.
  revert acc. induction ws as [|i ws IH]; intros acc; simpl; [lia|].
  specialize (IH (see acc i)). unfold see in *. destruct (decide _); rewrite ?length_app in *; simpl in *; lia.
Qed.

Lemma foldl_see_all acc ws :
  length (foldl see acc ws) = (length acc + length ws)%nat -> foldl see acc ws = acc ++ ws.
Proof.
  revert acc. induction ws as [|i ws IH]; intros acc Hl; simpl in *; [by rewrite app_nil_r|].
  pose proof (foldl_see_length (see acc i) ws) as Hb. unfold see in *. destruct (decide _); [lia|].
  rewrite IH; [by rewrite <- app_assoc|]. rewrite Hl, length_app. simpl. lia.
Qed.

(** As many writes as positions done with: each position was written once. *)
Lemma attempts_once n ws : attempts n ws -> length ws = n -> ws = seq 0 n.
Proof.
  intros Ha Hl. destruct (attempts_first_seen _ _ Ha) as (k & Hk & Hn). unfold first_seen in Hk.
  pose proof (foldl_see_length [] ws) as Hb. rewrite Hk, length_seq in Hb. simpl in Hb.
  assert (k = n) as -> by lia. rewrite <- Hk. symmetry. apply (foldl_see_all []).
  by rewrite Hk, length_seq.
Qed.

Section pipeline.
Context `{Externals}.
Variables (shard_id bits : Z) (init : Z) (key h0 : bytes) (policy : QueueFullPolicy).

Definition record_id (seq : Z) : Z := encode_record_id shard_id seq bits.

(** ** Producers *)

Inductive producer_step : St -> St -> Prop :=
(** [shutdown.enter]: reserve, then read the phase. *)
| P_enter p q r ps se co sd d g :
    ps !! p = None ->
    Z.of_nat (size ps) + 1 < 2 ^ 64 ->
    1 <= Z.of_nat (length (items q)) <= rsize r ->
    Forall (fun x : Item => blen x.2 < 2 ^ 32) (items q) ->
    producer_step (mkSt r ps se co sd d g)
                  (mkSt r (<[p := PEntered q]> ps) se co (enter_reserve sd) d g)
| P_rejected p q r ps se co sd d g :
    ps !! p = Some (PEntered q) -> draining sd = true ->
    producer_step (mkSt r ps se co sd d g) (mkSt r (<[p := PLeaving]> ps) se co sd d g)
| P_admitted p q r ps se co sd d g :
    ps !! p = Some (PEntered q) -> draining sd = false ->
    producer_step (mkSt r ps se co sd d g) (mkSt r (<[p := PClaim q]> ps) se co sd d g)
(** The claim loop. *)
| P_load p q r ps se co sd d g :
    ps !! p = Some (PClaim q) ->
    producer_step (mkSt r ps se co sd d g)
                  (mkSt r (<[p := PLoaded q (producer_cursor r)]> ps) se co sd d g)
| P_committed p q seq r ps se co sd d g :
    ps !! p = Some (PLoaded q seq) ->
    producer_step (mkSt r ps se co sd d g)
                  (mkSt r (<[p := PCommitted q seq (committed_cursor r)]> ps) se co sd d g)
| P_sealed p q seq c r ps se co sd d g :
    ps !! p = Some (PCommitted q seq c) ->
    producer_step (mkSt r ps se co sd d g)
      (mkSt r (<[p := PWatermark q seq (if rhash r then Z.min c (sealed_cursor r) else c)]> ps)
         se co sd d g)
| P_full p q seq wm r ps se co sd d g :
    ps !! p = Some (PWatermark q seq wm) -> full q (rsize r) seq wm = true ->
    producer_step (mkSt r ps se co sd d g)
      (mkSt r (<[p := match policy with Block => PClaim q | Drop => PLeaving end]> ps)
         se co sd d g)
(** The compare-exchange is weak: it may fail for no reason. *)
| P_cas_fail p q seq wm r ps se co sd d g :
    ps !! p = Some (PWatermark q seq wm) -> full q (rsize r) seq wm = false ->
    producer_step (mkSt r ps se co sd d g) (mkSt r (<[p := PClaim q]> ps) se co sd d g)
(** No claim reaches [u64::MAX], which stands for "no target" in the drain and
    flush signals. *)
| P_cas_ok p q seq wm r ps se co sd d g :
    ps !! p = Some (PWatermark q seq wm) -> full q (rsize r) seq wm = false ->
    producer_cursor r = seq -> seq + Z.of_nat (length (items q)) < U64_MAX ->
    producer_step (mkSt r ps se co sd d g)
      (mkSt (set_producer r (seq + Z.of_nat (length (items q))))
         (<[p := PWrite seq (items q)]> ps) se co sd d (g ++ items q))
(** [producer_write], then [publish], for each record of the request. *)
| P_write p seq x xs r ps se co sd d g :
    ps !! p = Some (PWrite seq (x :: xs)) ->
    producer_step (mkSt r ps se co sd d g)
      (mkSt (set_slot r seq (producer_write (slot r seq) (record_id seq) x.1 x.2))
         (<[p := PPublish seq x xs]> ps) se co sd d g)
| P_publish p seq x xs r ps se co sd d g :
    ps !! p = Some (PPublish seq x xs) ->
    producer_step (mkSt r ps se co sd d g)
      (mkSt (set_slot r seq (publish (slot r seq) seq))
         (<[p := PWrite (seq + 1) xs]> ps) se co sd d g)
| P_published p seq r ps se co sd d g :
    ps !! p = Some (PWrite seq []) ->
    producer_step (mkSt r ps se co sd d g) (mkSt r (<[p := PLeaving]> ps) se co sd d g)
| P_leave p r ps se co sd d g :
    ps !! p = Some PLeaving ->
    producer_step (mkSt r ps se co sd d g) (mkSt r (delete p ps) se co (leave sd) d g).

(** ** Sealer *)

Inductive sealer_step : St -> St -> Prop :=
| S_published seq nx la r ps co sd d g :
    rhash r = true -> is_published (slot r seq) seq = true -> seq + 1 - nx < rsize r ->
    sealer_step (mkSt r ps (mkSealer nx la (SScan seq)) co sd d g)
                (mkSt r ps (mkSealer nx la (SScan (seq + 1))) co sd d g)
| S_ring_end seq nx la r ps co sd d g :
    rhash r = true -> is_published (slot r seq) seq = true -> rsize r <= seq + 1 - nx ->
    sealer_step (mkSt r ps (mkSealer nx la (SScan seq)) co sd d g)
                (mkSt r ps (mkSealer nx la (SHash nx seq)) co sd d g)
| S_unpublished seq nx la r ps co sd d g :
    rhash r = true -> is_published (slot r seq) seq = false -> nx < seq ->
    sealer_step (mkSt r ps (mkSealer nx la (SScan seq)) co sd d g)
                (mkSt r ps (mkSealer nx la (SHash nx (seq - 1))) co sd d g)
| S_hash seq hi nx la r ps co sd d g :
    let h := blake3_keyed_chain key la (rv_content (slot_read (slot r seq))) in
    rhash r = true -> seq <= hi ->
    sealer_step (mkSt r ps (mkSealer nx la (SHash seq hi)) co sd d g)
      (mkSt (set_slot r seq (write_hash (slot r seq) h)) ps
         (mkSealer nx h (SHash (seq + 1) hi)) co sd d g)
| S_hashed seq hi nx la r ps co sd d g :
    rhash r = true -> hi < seq ->
    sealer_step (mkSt r ps (mkSealer nx la (SHash seq hi)) co sd d g)
                (mkSt r ps (mkSealer nx la (SStore hi)) co sd d g)
| S_store hi nx la r ps co sd d g :
    rhash r = true ->
    sealer_step (mkSt r ps (mkSealer nx la (SStore hi)) co sd d g)
      (mkSt (set_sealed r (hi + 1)) ps (mkSealer (hi + 1) la (SScan (hi + 1))) co sd d g).

(** ** Committer *)

(** [choose_batch_end] and a full segment may both cut a batch short: a batch
    ends anywhere below what is available.  A batch may fail before its write
    moved the segment's offset ([C_fail]) or after it, when preparing the next
    segment fails ([C_late_fail], the last [?] of [append_batch]); either way
    the committer tries again from the same sequence, so that a batch that
    failed late is in the file twice. *)
Inductive committer_step : St -> St -> Prop :=
| C_sealed to nx fl r ps se sd d g :
    rhash r = true -> nx <= to <= sealed_cursor r - 1 ->
    committer_step (mkSt r ps se (mkCommitter nx CIdle fl) sd d g)
                   (mkSt r ps se (mkCommitter nx (CBatch to nx []) fl) sd d g)
| C_scan nx fl r ps se sd d g :
    rhash r = false ->
    committer_step (mkSt r ps se (mkCommitter nx CIdle fl) sd d g)
                   (mkSt r ps se (mkCommitter nx (CScan nx) fl) sd d g)
| C_published seq nx fl r ps se sd d g :
    is_published (slot r seq) seq = true ->
    committer_step (mkSt r ps se (mkCommitter nx (CScan seq) fl) sd d g)
                   (mkSt r ps se (mkCommitter nx (CScan (seq + 1)) fl) sd d g)
| C_nothing nx fl r ps se sd d g :
    is_published (slot r nx) nx = false ->
    committer_step (mkSt r ps se (mkCommitter nx (CScan nx) fl) sd d g)
                   (mkSt r ps se (mkCommitter nx CIdle fl) sd d g)
| C_unpublished seq to nx fl r ps se sd d g :
    is_published (slot r seq) seq = false -> nx <= to <= seq - 1 ->
    committer_step (mkSt r ps se (mkCommitter nx (CScan seq) fl) sd d g)
                   (mkSt r ps se (mkCommitter nx (CBatch to nx []) fl) sd d g)
| C_copy to cur acc nx fl r ps se sd d g :
    cur <= to ->
    committer_step (mkSt r ps se (mkCommitter nx (CBatch to cur acc) fl) sd d g)
      (mkSt r ps se
         (mkCommitter nx (CBatch to (cur + 1) (acc ++ [slot_read (slot r cur)])) fl) sd d g)
| C_fail to cur acc nx fl r ps se sd d g :
    committer_step (mkSt r ps se (mkCommitter nx (CBatch to cur acc) fl) sd d g)
                   (mkSt r ps se (mkCommitter nx CIdle fl) sd d g)
| C_late_fail to cur acc nx fl r ps se sd d g :
    nx < cur ->
    committer_step (mkSt r ps se (mkCommitter nx (CBatch to cur acc) fl) sd d g)
                   (mkSt r ps se (mkCommitter nx CIdle (fl ++ acc)) sd d g)
| C_write to cur acc nx fl r ps se sd d g :
    nx < cur ->
    committer_step (mkSt r ps se (mkCommitter nx (CBatch to cur acc) fl) sd d g)
      (mkSt r ps se (mkCommitter nx (CStore (cur - 1)) (fl ++ acc)) sd d g)
| C_store last nx fl r ps se sd d g :
    committer_step (mkSt r ps se (mkCommitter nx (CStore last) fl) sd d g)
      (mkSt (set_committed r (last + 1)) ps se (mkCommitter (last + 1) CIdle fl) sd d g)
| C_sync nx fl r ps se sd d g :
    committer_step (mkSt r ps se (mkCommitter nx CIdle fl) sd d g)
                   (mkSt (set_durable r nx) ps se (mkCommitter nx CIdle fl) sd d g).

(** ** Drain *)

Inductive drain_step : St -> St -> Prop :=
| D_start r ps se co sd g :
    drain_step (mkSt r ps se co sd DRun g) (mkSt r ps se co (start_drain sd) DWait g)
| D_zero r ps se co sd g :
    in_flight sd = 0 ->
    drain_step (mkSt r ps se co sd DWait g) (mkSt r ps se co sd DZero g)
| D_target r ps se co sd g :
    drain_step (mkSt r ps se co sd DZero g)
      (mkSt r ps se co (set_drain_target sd (producer_cursor r)) DDone g).

Definition step (st st' : St) : Prop :=
  producer_step st st' \/ sealer_step st st' \/ committer_step st st' \/ drain_step st st'.

(** A freshly opened shard: [Ring::new] at [init], no thread active. *)
Definition initial (st : St) : Prop :=
  exists r, ring_new (rsize r) (rhash r) init = Some r /\ in_range 64 (rsize r) /\
    0 <= init < U64_MAX /\
    st = mkSt r ∅ (mkSealer init h0 (SScan init)) (mkCommitter init CIdle []) shutdown_new DRun [].

Inductive reachable : St -> Prop :=
| reach_init st : initial st -> reachable st
| reach_step st st' : reachable st -> step st st' -> reachable st'.

(** ** The log the pipeline must produce *)

(** The records for [g], numbered from [seq], chained after [prev] when
    hashing is on. *)
Fixpoint views (hash : bool) (prev : bytes) (seq : Z) (g : list Item) : list ReadView :=
  match g with
  | [] => []
  | x :: g =>
      let h := if hash then blake3_keyed_chain key prev x.2 else zeros 32 in
      mkReadView (record_id seq) x.1 x.2 h :: views hash h (seq + 1) g
  end.

Lemma length_views hash prev seq g : length (views hash prev seq g) = length g.
Proof. revert prev seq. induction g; intros; simpl; auto. Qed.

(** Appending to the log leaves the earlier records alone. *)
Lemma views_app hash prev seq g g' :
  exists l, views hash prev seq (g ++ g') = views hash prev seq g ++ l.
Proof.
  revert prev seq. induction g as [|x g IH]; intros prev seq; simpl; [by eexists|].
  destruct (IH (if hash then blake3_keyed_chain key prev x.2 else zeros 32) (seq + 1)) as [l ->].
  by exists l.
Qed.

(** The hash the record at position [k] is chained to. *)
Definition hash_before (hash : bool) (prev : bytes) (seq : Z) (g : list Item) (k : nat) : bytes :=
  List.last (rv_hash_n <$> take k (views hash prev seq g)) prev.

Lemma views_lookup hash prev seq g k x :
  g !! k = Some x ->
  views hash prev seq g !! k =
  Some (mkReadView (record_id (seq + Z.of_nat k)) x.1 x.2
          (if hash then blake3_keyed_chain key (hash_before hash prev seq g k) x.2 else zeros 32)).
Proof.
  revert prev seq k. induction g as [|y g IH]; intros prev seq [|k] Hk; simpl in *; simplify_eq.
  - by rewrite Z.add_0_r.
  - rewrite IH by done. replace (seq + 1 + Z.of_nat k) with (seq + Z.of_nat (S k)) by lia.
    do 2 f_equal. destruct hash; [|done]. f_equal. unfold hash_before. cbn [take views fmap list_fmap].
    symmetry. apply last_cons_default.
Qed.

Lemma hash_before_next hash prev seq g k v :
  views hash prev seq g !! k = Some v ->
  hash_before hash prev seq g (S k) = rv_hash_n v.
Proof.
  intros Hv. unfold hash_before. erewrite take_S_r by done.
  rewrite fmap_app. simpl. apply List.last_last.
Qed.

Lemma hash_before_app hash prev seq g g' k :
  (k <= length g)%nat ->
  hash_before hash prev seq (g ++ g') k = hash_before hash prev seq g k.
Proof.
  intros Hk. unfold hash_before. destruct (views_app hash prev seq g g') as [l ->].
  by rewrite take_app_le by (rewrite length_views; lia).
Qed.

(** The file holds the records of the log at the positions [ws], in order. *)
Definition holds (l : list ReadView) (ws : list nat) (fl : list ReadView) : Prop :=
  Forall2 (fun i v => l !! i = Some v) ws fl.

Lemma holds_mono l k ws fl : holds l ws fl -> holds (l ++ k) ws fl.
Proof. intros Hh. unfold holds in *. eapply Forall2_impl; [|exact Hh]. intros i v Hv. simpl. by apply lookup_app_l_Some. Qed.

Lemma holds_app l ws fl ws' fl' : holds l ws fl -> holds l ws' fl' -> holds l (ws ++ ws') (fl ++ fl').
Proof. apply Forall2_app. Qed.

(** A batch that continues a prefix holds the positions it continues with. *)
Lemma holds_batch l n m acc :
  (n <= m <= length l)%nat -> take n l ++ acc = take m l -> holds l (seq n (m - n)) acc.
Proof.
  intros Hn Ha. assert (acc = drop n (take m l)) as ->.
  { rewrite <- Ha. rewrite drop_app_length'; [done|rewrite length_take; lia]. }
  apply Forall2_same_length_lookup. split.
  { rewrite length_seq, length_drop, length_take. lia. }
  intros i x y Hx Hy. apply lookup_seq in Hx as [-> Hi].
  rewrite lookup_drop in Hy. by apply lookup_take_Some in Hy as [? _].
Qed.

Lemma holds_prefix l n fl : holds l (seq 0 n) fl -> fl = take n l.
Proof.
  intros Hh. pose proof (Forall2_length Hh) as Hl. rewrite length_seq in Hl.
  apply (list_eq_same_length _ _ n); [|done|].
  { destruct n as [|n]; [done|]. rewrite length_take.
    destruct (lookup_lt_is_Some_2 fl n ltac:(lia)) as [v Hv].
    pose proof (Forall2_lookup_lr _ _ _ n n v Hh) as Hn. rewrite lookup_seq_lt in Hn by lia.
    specialize (Hn eq_refl Hv). apply lookup_lt_Some in Hn. lia. }
  intros i x y Hi Hx Hy. rewrite lookup_take_lt in Hy by done.
  pose proof (Forall2_lookup_lr _ _ _ i i x Hh) as Hn. rewrite lookup_seq_lt in Hn by done.
  specialize (Hn eq_refl Hx). congruence.
Qed.

(** ** Invariant *)

(** The sequences whose slots a producer may still write. *)
Definition owns (a : PC) (s : Z) : Prop :=
  match a with
  | PWrite seq xs => seq <= s < seq + Z.of_nat (length xs)
  | PPublish seq _ xs => seq <= s < seq + 1 + Z.of_nat (length xs)
  | _ => False
  end.

Definition request_ok (r : Ring) (q : Request) : Prop :=
  1 <= Z.of_nat (length (items q)) <= rsize r /\
  Forall (fun x : Item => blen x.2 < 2 ^ 32) (items q).

(** The items from sequence [seq] on are those of the log. *)
Definition items_at (g : list Item) (seq : Z) (xs : list Item) : Prop :=
  init <= seq /\ (forall i x, xs !! i = Some x -> g !! (Z.to_nat (seq - init) + i)%nat = Some x) /\
  Forall (fun x : Item => blen x.2 < 2 ^ 32) xs.

Definition pc_ok (r : Ring) (g : list Item) (a : PC) : Prop :=
  match a with
  | PEntered q | PClaim q => request_ok r q
  | PLoaded q seq => request_ok r q /\ init <= seq <= producer_cursor r
  | PCommitted q seq c =>
      request_ok r q /\ init <= seq <= producer_cursor r /\ init <= c <= committed_cursor r
  | PWatermark q seq wm =>
      request_ok r q /\ init <= seq <= producer_cursor r /\ init <= wm <= committed_cursor r
  | PWrite seq xs => items_at g seq xs
  | PPublish seq x xs => items_at g seq (x :: xs)
  | PLeaving => True
  end.

Definition vw (r : Ring) (g : list Item) : list ReadView := views (rhash r) h0 init g.

Definition pubd (r : Ring) (s : Z) : Prop := is_published (slot r s) s = true.

(** The view carries the record, whatever its hash field. *)
Definition same_record (v w : ReadView) : Prop :=
  rv_record_id v = rv_record_id w /\ rv_timestamp_ns v = rv_timestamp_ns w /\
  rv_content v = rv_content w.

Lemma same_record_trans u v w : same_record u v -> same_record v w -> same_record u w.
Proof. unfold same_record. intros (-> & -> & ->) (-> & -> & ->). done. Qed.

Record ring_inv (r : Ring) (ps : gmap nat PC) (g : list Item) : Prop := {
  ri_wf : ring_wf r;
  ri_init : 0 <= init <= durable_cursor r;
  ri_dc : durable_cursor r <= committed_cursor r;
  ri_cp : committed_cursor r <= producer_cursor r <= committed_cursor r + rsize r;
  ri_top : producer_cursor r < U64_MAX;
  ri_seal : rhash r = true -> committed_cursor r <= sealed_cursor r;
  ri_len : Z.of_nat (length g) = producer_cursor r - init;
  ri_pc p a : ps !! p = Some a -> pc_ok r g a;
  ri_own p a s : ps !! p = Some a -> owns a s ->
    committed_cursor r <= s < producer_cursor r /\ ~ pubd r s;
  ri_disj p q a b s : ps !! p = Some a -> ps !! q = Some b -> owns a s -> owns b s -> p = q;
  ri_cover s : committed_cursor r <= s < producer_cursor r ->
    pubd r s \/ exists p a, ps !! p = Some a /\ owns a s;
  ri_stamp s : 0 <= slot_sequence (slot r s) <= producer_cursor r;
  ri_data s v : committed_cursor r <= s < producer_cursor r -> pubd r s ->
    vw r g !! Z.to_nat (s - init) = Some v -> same_record (slot_read (slot r s)) v;
  ri_wrote p seq x xs : ps !! p = Some (PPublish seq x xs) ->
    same_record (slot_read (slot r seq)) (mkReadView (record_id seq) x.1 x.2 []);
  ri_nohash s : rhash r = false -> si_hash_n (inner (slot r s)) = zeros 32;
}.

(** How far the sealer has hashed, and how far it knows slots published. *)
Definition s_done (se : SealerSt) : Z :=
  match s_pc se with SScan _ => s_next se | SHash seq _ => seq | SStore hi => hi + 1 end.
Definition s_upto (se : SealerSt) : Z :=
  match s_pc se with SScan seq => seq | SHash _ hi | SStore hi => hi + 1 end.

Record sealer_inv (r : Ring) (se : SealerSt) (g : list Item) : Prop := {
  si_cursor : sealed_cursor r = s_next se;
  si_le : s_next se <= s_done se <= s_upto se;
  si_top : s_upto se <= producer_cursor r;
  si_pub s : committed_cursor r <= s < s_upto se -> pubd r s;
  si_hash s v : committed_cursor r <= s < s_done se ->
    vw r g !! Z.to_nat (s - init) = Some v -> si_hash_n (inner (slot r s)) = rv_hash_n v;
  si_last : s_last se = hash_before (rhash r) h0 init g (Z.to_nat (s_done se - init));
}.

(** How far the committer knows slots ready, and how far the file reaches. *)
Definition c_limit (co : CommitterSt) : Z :=
  match c_pc co with
  | CIdle => c_next co | CScan seq => seq | CBatch to _ _ => to + 1 | CStore last => last + 1
  end.
Definition c_written (co : CommitterSt) : Z :=
  match c_pc co with CStore last => last + 1 | _ => c_next co end.

Record committer_inv (r : Ring) (co : CommitterSt) (g : list Item) : Prop := {
  ci_cursor : committed_cursor r = c_next co;
  ci_le : c_next co <= c_limit co <= producer_cursor r;
  ci_pub s : c_next co <= s < c_limit co -> pubd r s;
  ci_sealed : rhash r = true -> c_limit co <= sealed_cursor r;
  ci_scan seq : c_pc co = CScan seq -> rhash r = false;
  ci_file : exists ws, attempts (Z.to_nat (c_written co - init)) ws /\ holds (vw r g) ws (c_file co);
  ci_acc to cur acc : c_pc co = CBatch to cur acc ->
    c_next co <= cur <= to + 1 /\
    take (Z.to_nat (c_next co - init)) (vw r g) ++ acc =
    take (Z.to_nat (cur - init)) (vw r g);
}.

(** No thread is past the phase check. *)
Definition quiet (ps : gmap nat PC) : Prop :=
  forall p a, ps !! p = Some a -> match a with PEntered _ | PLeaving => True | _ => False end.

Record drain_inv (r : Ring) (ps : gmap nat PC) (sd : ShutdownState) (d : DPC) : Prop := {
  di_flight : in_flight sd = Z.of_nat (size ps);
  di_size : Z.of_nat (size ps) < 2 ^ 64;
  di_phase : phase sd = match d with DRun => 0 | _ => 1 end;
  di_quiet : d = DZero \/ d = DDone -> quiet ps;
  di_target : d = DDone -> drain_target sd = producer_cursor r;
}.

Record inv (st : St) : Prop := {
  inv_ring : ring_inv (st_ring st) (st_prods st) (st_log st);
  inv_sealer : rhash (st_ring st) = true -> sealer_inv (st_ring st) (st_sealer st) (st_log st);
  inv_committer : committer_inv (st_ring st) (st_committer st) (st_log st);
  inv_drain : drain_inv (st_ring st) (st_prods st) (st_shutdown st) (st_drain st);
}.

(** ** Slots under updates *)

Lemma slot_set_cases r seq x s :
  ring_wf r ->
  slot (set_slot r seq x) s = if decide (slot_index r s = slot_index r seq) then x else slot r s.
Proof.
  intros Hw. destruct (decide (slot_index r s = slot_index r seq)) as [He|Hne].
  - transitivity (slot (set_slot r seq x) seq); [by apply slot_same_index|by apply slot_set_eq].
  - by apply slot_set_ne.
Qed.

Lemma pubd_iff r s : 0 <= s < 2 ^ 64 - 1 -> pubd r s <-> slot_sequence (slot r s) = s + 1.
Proof.
  intros Hs. unfold pubd, is_published. rewrite wrap_small by (unfold in_range; lia).
  apply Z.eqb_eq.
Qed.

Lemma slot_set_window r ps g s t x :
  ring_inv r ps g -> committed_cursor r <= s < producer_cursor r ->
  committed_cursor r <= t < producer_cursor r -> s <> t ->
  slot (set_slot r t x) s = slot r s.
Proof.
  intros HI Hs Ht Hne. apply slot_set_ne. intros He. apply Hne. symmetry.
  apply (slot_index_inj r); [apply HI|pose proof (ri_cp _ _ _ HI); lia|done].
Qed.

(** ** What other threads may rely on *)

(** How a step of one thread may change the ring and the log under another. *)
Record extends (r : Ring) (g : list Item) (r' : Ring) (g' : list Item) : Prop := {
  ex_hash : rhash r' = rhash r;
  ex_committed : committed_cursor r' = committed_cursor r;
  ex_sealed : sealed_cursor r <= sealed_cursor r';
  ex_producer : producer_cursor r <= producer_cursor r';
  ex_log : exists k, g' = g ++ k;
  ex_pub s : committed_cursor r <= s < producer_cursor r -> pubd r s -> pubd r' s;
}.

Lemma vw_take r g r' g' n :
  extends r g r' g' -> (n <= length g)%nat -> take n (vw r' g') = take n (vw r g).
Proof.
  intros Hx Hn. destruct (ex_log _ _ _ _ Hx) as [k ->]. unfold vw. rewrite (ex_hash _ _ _ _ Hx).
  destruct (views_app (rhash r) h0 init g k) as [l ->].
  by rewrite take_app_le by (rewrite length_views; lia).
Qed.

Lemma vw_lookup r g r' g' n :
  extends r g r' g' -> (n < length g)%nat -> vw r' g' !! n = vw r g !! n.
Proof.
  intros Hx Hn. destruct (ex_log _ _ _ _ Hx) as [k ->]. unfold vw. rewrite (ex_hash _ _ _ _ Hx).
  destruct (views_app (rhash r) h0 init g k) as [l ->].
  by rewrite lookup_app_l by (rewrite length_views; lia).
Qed.

Lemma committer_inv_ext r ps co g r' g' :
  ring_inv r ps g -> extends r g r' g' -> committer_inv r co g -> committer_inv r' co g'.
Proof.
  intros HI Hx [Hc Hle Hp Hs Hsc Hf Ha]. pose proof (ri_len _ _ _ HI). pose proof (ri_init _ _ _ HI).
  pose proof (ri_dc _ _ _ HI). destruct Hx as [Hh Hc' Hs' Hp' Hl Hpub] eqn:Ex.
  split; [congruence|lia| | |by rewrite Hh| |].
  - intros s Hr. apply Hpub; [lia|]. by apply Hp.
  - intros Ht. rewrite Hh in Ht. specialize (Hs Ht). lia.
  - destruct Hf as (ws & Hat & Hho). exists ws. split; [done|]. destruct Hl as [k ->].
    unfold vw. rewrite Hh. destruct (views_app (rhash r) h0 init g k) as [l ->]. by apply holds_mono.
  - intros to cur acc He. destruct (Ha to cur acc He) as [Hcur Hacc]. split; [done|].
    unfold c_limit in Hle. rewrite He in Hle.
    by rewrite !(vw_take r g r' g') by (done || lia).
Qed.

Lemma sealer_inv_ext r ps se g r' g' :
  ring_inv r ps g -> rhash r = true -> extends r g r' g' -> sealed_cursor r' = sealed_cursor r ->
  (forall s, committed_cursor r <= s < producer_cursor r -> pubd r s ->
     si_hash_n (inner (slot r' s)) = si_hash_n (inner (slot r s))) ->
  sealer_inv r se g -> sealer_inv r' se g'.
Proof.
  intros HI Hhash Hx Hsc Hkeep [Hc Hle Htop Hp Hh Hl]. pose proof (ri_len _ _ _ HI).
  pose proof (ri_init _ _ _ HI). pose proof (ri_dc _ _ _ HI).
  pose proof (ri_seal _ _ _ HI Hhash).
  destruct Hx as [Hh' Hc' Hs' Hp' [k ->] Hpub] eqn:Ex.
  split; [congruence|done|lia| | |].
  - intros s Hs. apply Hpub; [lia|]. apply Hp. lia.
  - intros s v Hs Hv. rewrite Hkeep; [|lia|apply Hp; lia]. apply Hh; [lia|].
    rewrite <- Hv. symmetry. apply (vw_lookup _ _ _ _ _ Hx). lia.
  - rewrite Hh', hash_before_app by lia. done.
Qed.

(** ** Producer steps keep the ring invariant *)

Definition idle_pc (a : PC) : Prop :=
  match a with PWrite _ (_ :: _) | PPublish _ _ _ => False | _ => True end.

Lemma idle_owns a s : idle_pc a -> ~ owns a s.
Proof. destruct a as [| | | | |seq xs|seq x xs|]; simpl; try tauto. destruct xs; [simpl; lia|done]. Qed.

(** A thread that owns no slot changes its place to one that owns none. *)
Lemma ring_inv_pc r ps g p a' :
  ring_inv r ps g -> (forall a, ps !! p = Some a -> idle_pc a) -> idle_pc a' -> pc_ok r g a' ->
  ring_inv r (<[p := a']> ps) g.
Proof.
  intros [] Hold Hnew Hok. split; try done.
  - intros q a. rewrite lookup_insert_Some. intros [[_ <-]|[_ ?]]; eauto.
  - intros q a s. rewrite lookup_insert_Some. intros [[_ <-]|[_ ?]]; [|eauto].
    intros Ho. by apply idle_owns in Ho.
  - intros q q' a b s. rewrite !lookup_insert_Some.
    intros [[_ <-]|[_ ?]] [[_ <-]|[_ ?]]; [| | |eauto]; intros Ha Hb;
      first [by apply idle_owns in Ha|by apply idle_owns in Hb].
  - intros s Hs. destruct (ri_cover0 s Hs) as [?|(q & a & Hq & Ho)]; [by left|right].
    exists q, a. split; [|done]. rewrite lookup_insert_ne; [done|]. intros ->.
    by eapply idle_owns; [apply Hold|].
  - intros q seq x xs. rewrite lookup_insert_Some. intros [[_ ->]|[_ ?]]; [done|eauto].
Qed.

Lemma ring_inv_delete r ps g p a :
  ring_inv r ps g -> ps !! p = Some a -> idle_pc a -> ring_inv r (delete p ps) g.
Proof.
  intros [] Hp Ha. split; try done; try (setoid_rewrite lookup_delete_Some).
  - intros q b [_ ?]. eauto.
  - intros q b s [_ ?]. eauto.
  - intros q q' b c s [_ ?] [_ ?]. eauto.
  - intros s Hs. destruct (ri_cover0 s Hs) as [?|(q & b & Hq & Ho)]; [by left|right].
    exists q, b. split; [|done]. split; [|done]. intros ->. simplify_eq. by eapply idle_owns.
  - intros q seq x xs [_ ?]. eauto.
Qed.

(** The watermark test bounds a successful claim, also when the watermark was
    read before other threads moved on. *)
Lemma not_full_room r q seq wm :
  0 <= wm <= seq -> seq + Z.of_nat (length (items q)) < 2 ^ 64 ->
  full q (rsize r) seq wm = false ->
  seq + Z.of_nat (length (items q)) <= wm + rsize r.
Proof.
  intros Hwm Hs. destruct q as [x|xs]; simpl in *.
  - unfold claim_full. rewrite wrap_small by (unfold in_range; lia).
    intros Hf. apply Z.leb_gt in Hf. lia.
  - unfold claim_batch_full. rewrite (wrap_small 64 (seq - wm)) by (unfold in_range; lia).
    rewrite wrap_small by (unfold in_range; lia).
    intros Hf. apply Z.ltb_ge in Hf. lia.
Qed.

Lemma pc_ok_ext r g r' k a :
  rsize r' = rsize r -> producer_cursor r <= producer_cursor r' ->
  committed_cursor r <= committed_cursor r' -> pc_ok r g a -> pc_ok r' (g ++ k) a.
Proof.
  intros Hs Hp Hc. unfold pc_ok, request_ok, items_at. rewrite Hs.
  destruct a; try done; try (intros; destruct_and!; split_and!; (done || lia));
    (intros (H1 & H2 & H3); split_and!; [done| |done]; intros i y Hy;
     apply lookup_app_l_Some; eauto).
Qed.

Lemma ring_inv_claim r ps g p q seq wm :
  ring_inv r ps g -> ps !! p = Some (PWatermark q seq wm) -> full q (rsize r) seq wm = false ->
  producer_cursor r = seq -> seq + Z.of_nat (length (items q)) < U64_MAX ->
  ring_inv (set_producer r (seq + Z.of_nat (length (items q))))
    (<[p := PWrite seq (items q)]> ps) (g ++ items q).
Proof.
  intros HI Hp Hf <- Hb. pose proof (ri_pc _ _ _ HI _ _ Hp) as (Hq & Hseq & Hwm).
  assert (producer_cursor r + Z.of_nat (length (items q)) <= committed_cursor r + rsize r) as Hroom.
  { destruct HI. pose proof (not_full_room r q (producer_cursor r) wm ltac:(lia) ltac:(lia) Hf). lia. }
  set (n := Z.of_nat (length (items q))) in *. pose proof (ri_cp _ _ _ HI).
  assert (forall s, producer_cursor r <= s < producer_cursor r + n -> ~ pubd r s) as Hnew.
  { intros s Hs Hpub. apply pubd_iff in Hpub; [|destruct HI; lia].
    pose proof (ri_stamp _ _ _ HI s). lia. }
  destruct HI. split; simpl; try done; try lia.
  - by destruct ri_wf0; split.
  - rewrite length_app. lia.
  - intros p' a. rewrite lookup_insert_Some. intros [[_ <-]|[_ Ha]].
    + split; [lia|]. split; [|by destruct Hq]. intros i x Hx.
      rewrite lookup_app_r by lia. rewrite <- Hx. f_equal. lia.
    + eapply pc_ok_ext; [| | |by eapply ri_pc0]; simpl; [done|lia|lia].
  - intros p' a s. rewrite lookup_insert_Some. intros [[_ <-]|[_ Ha]].
    + simpl. intros Hs. split; [lia|]. by apply Hnew.
    + intros Ho. destruct (ri_own0 _ _ _ Ha Ho). split; [lia|done].
  - intros p1 p2 a b s. rewrite !lookup_insert_Some.
    intros [[<- <-]|[_ Ha]] [[<- <-]|[_ Hb']]; simpl; intros Hs Ht; [done| | |eauto].
    + destruct (ri_own0 _ _ _ Hb' Ht). lia.
    + destruct (ri_own0 _ _ _ Ha Hs). lia.
  - intros s Hs. destruct (decide (s < producer_cursor r)).
    + destruct (ri_cover0 s ltac:(lia)) as [?|(p' & a & Ha & Ho)]; [by left|right].
      exists p', a. split; [|done]. rewrite lookup_insert_ne; [done|]. intros ->.
      by rewrite Hp in Ha; simplify_eq.
    + right. exists p, (PWrite (producer_cursor r) (items q)).
      split; [by rewrite lookup_insert_eq|]. simpl. lia.
  - intros s. pose proof (ri_stamp0 s). simpl in *. change (slot (set_producer r _) s) with (slot r s). lia.
  - intros s v Hs Hpub Hv.
    assert (s < producer_cursor r).
    { destruct (decide (s < producer_cursor r)); [done|]. exfalso. by apply (Hnew s); [lia|]. }
    apply ri_data0; [lia|done|]. unfold vw in *. simpl in Hv.
    destruct (views_app (rhash r) h0 init g (items q)) as [l El]. rewrite El in Hv.
    rewrite lookup_app_l in Hv by (rewrite length_views; lia). done.
  - intros p' seq x xs. rewrite lookup_insert_Some. intros [[_ ?]|[_ ?]]; [done|eauto].
Qed.

(** A slot update that keeps the stamp and, where someone relies on it, the
    record. *)
Lemma ring_inv_slot r ps g seq x :
  ring_inv r ps g -> committed_cursor r <= seq < producer_cursor r -> slot_wf x ->
  slot_sequence x = slot_sequence (slot r seq) ->
  (rhash r = false -> si_hash_n (inner x) = si_hash_n (inner (slot r seq))) ->
  (pubd r seq \/ (exists p y ys, ps !! p = Some (PPublish seq y ys)) ->
     same_record (slot_read x) (slot_read (slot r seq))) ->
  ring_inv (set_slot r seq x) ps g.
Proof.
  intros HI Hseq Hx Hst Hh Hrec. pose proof (ri_wf _ _ _ HI) as Hw.
  assert (forall s, slot_sequence (slot (set_slot r seq x) s) = slot_sequence (slot r s)) as Hss.
  { intros s. rewrite slot_set_cases by done. destruct (decide _) as [He|]; [|done].
    by rewrite Hst, (slot_same_index r s seq). }
  assert (forall s, pubd (set_slot r seq x) s <-> pubd r s) as Hpub.
  { intros s. unfold pubd, is_published. by rewrite Hss. }
  assert (forall s, committed_cursor r <= s < producer_cursor r ->
    (s = seq -> pubd r seq \/ exists p y ys, ps !! p = Some (PPublish seq y ys)) ->
    same_record (slot_read (slot (set_slot r seq x) s)) (slot_read (slot r s))) as Hsame.
  { intros s Hs Hw'. destruct (decide (s = seq)) as [->|].
    - rewrite slot_set_eq by done. auto.
    - by erewrite slot_set_window. }
  assert (HI' := HI). destruct HI. split; simpl; try done.
  - by apply set_slot_ring_wf.
  - intros p a s Hp Ho. rewrite Hpub. eauto.
  - intros s Hs. rewrite Hpub. eauto.
  - intros s. by rewrite Hss.
  - intros s v Hs Hpu Hv. rewrite Hpub in Hpu. specialize (ri_data0 s v Hs Hpu Hv).
    eapply same_record_trans; [apply Hsame; [done|]|done]. intros ->. by left.
  - intros p t y ys Hp. specialize (ri_wrote0 p t y ys Hp).
    destruct (ri_own0 p _ t Hp) as [Ht _]; [simpl; lia|].
    eapply same_record_trans; [apply Hsame; [done|]|done]. intros ->. right. eauto.
  - intros s Hr. rewrite slot_set_cases by done. destruct (decide _); [|eauto].
    rewrite Hh by done. eauto.
Qed.

Lemma ring_inv_write r ps g p seq x xs :
  ring_inv r ps g -> ps !! p = Some (PWrite seq (x :: xs)) ->
  ring_inv (set_slot r seq (producer_write (slot r seq) (record_id seq) x.1 x.2))
    (<[p := PPublish seq x xs]> ps) g.
Proof.
  intros HI Hp. pose proof (ri_own _ _ _ HI _ _ seq Hp ltac:(simpl; lia)) as [Hseq Hnp].
  pose proof (ri_wf _ _ _ HI) as Hw.
  pose proof (slot_slot_wf r seq Hw) as Hsw. pose proof (ri_pc _ _ _ HI _ _ Hp) as (Hi & Hx & Hl).
  assert (ring_inv (set_slot r seq (producer_write (slot r seq) (record_id seq) x.1 x.2)) ps g) as HI1.
  { apply ring_inv_slot; try done; [by apply producer_write_wf|].
    intros [Hpub|(q & y & ys & Hq)]; [done|].
    assert (q = p) as -> by (eapply (ri_disj _ _ _ HI q p _ _ seq); [done|done|simpl; lia..]).
    by rewrite Hp in Hq. }
  assert (same_record (slot_read (producer_write (slot r seq) (record_id seq) x.1 x.2))
            (mkReadView (record_id seq) x.1 x.2 [])) as Hrec.
  { rewrite read_producer_write; [done|done|]. by inversion Hl. }
  destruct HI1. split; try done.
  - intros q a. rewrite lookup_insert_Some. intros [[_ <-]|[_ ?]]; [|eauto]. split; [done|eauto].
  - intros q a s. rewrite lookup_insert_Some. intros [[_ <-]|[_ ?]]; [|eauto].
    intros Ho. apply (ri_own0 p _ s Hp). simpl in *. lia.
  - assert (forall s, owns (PPublish seq x xs) s -> owns (PWrite seq (x :: xs)) s) as Ho
      by (simpl; lia).
    intros q q' a b s. rewrite !lookup_insert_Some.
    intros [[<- <-]|[_ Ha]] [[<- <-]|[_ Hb]] ??; eauto.
  - intros s Hs. destruct (ri_cover0 s Hs) as [?|(q & a & Hq & Ho)]; [by left|right].
    destruct (decide (q = p)) as [->|].
    + exists p, (PPublish seq x xs). rewrite lookup_insert_eq. split; [done|].
      simplify_eq. simpl in *. lia.
    + exists q, a. by rewrite lookup_insert_ne.
  - intros q t y ys. rewrite lookup_insert_Some. intros [[_ [= <- <- <-]]|[_ ?]]; [|eauto].
    by rewrite slot_set_eq.
Qed.

Lemma ring_inv_publish r ps g p seq x xs :
  ring_inv r ps g -> ps !! p = Some (PPublish seq x xs) ->
  ring_inv (set_slot r seq (publish (slot r seq) seq)) (<[p := PWrite (seq + 1) xs]> ps) g.
Proof.
  intros HI Hp. pose proof (ri_own _ _ _ HI _ _ seq Hp ltac:(simpl; lia)) as [Hseq Hnp].
  pose proof (ri_wf _ _ _ HI) as Hw.
  pose proof (ri_wrote _ _ _ HI _ _ _ _ Hp) as Hrec.
  pose proof (ri_pc _ _ _ HI _ _ Hp) as (Hi & Hx & Hl).
  assert (forall s, owns (PWrite (seq + 1) xs) s -> owns (PPublish seq x xs) s /\ s <> seq) as Ho
    by (simpl; lia).
  assert (forall s, committed_cursor r <= s < producer_cursor r -> s <> seq ->
    slot (set_slot r seq (publish (slot r seq) seq)) s = slot r s) as Hne.
  { intros. by eapply slot_set_window. }
  pose proof (slot_set_eq r seq (publish (slot r seq) seq) Hw) as Heq.
  assert (HI' := HI). destruct HI. split; simpl; try done.
  - apply set_slot_ring_wf; [done|]. by apply (slot_slot_wf r).
  - intros q a. rewrite lookup_insert_Some. intros [[_ <-]|[_ ?]]; [|by eapply ri_pc0].
    split; [lia|]. split; [|by inversion Hl]. intros i y Hy.
    rewrite <- (Hx (S i) y Hy). f_equal. lia.
  - intros q a s. rewrite lookup_insert_Some. intros [[_ <-]|[Hqp Ha]] Hos.
    + apply Ho in Hos as [Hos Hs]. destruct (ri_own0 p _ s Hp Hos) as [Hs' Hn]. split; [done|].
      unfold pubd. by rewrite Hne.
    + destruct (ri_own0 q a s Ha Hos) as [Hs' Hn]. split; [done|]. unfold pubd.
      rewrite Hne; [done|done|]. intros ->. apply Hqp. symmetry.
      eapply (ri_disj0 q p _ _ seq); [done|done|done|simpl; lia].
  - intros q q' a b s. rewrite !lookup_insert_Some.
    intros [[<- <-]|[_ Ha]] [[<- <-]|[_ Hb]] Hsa Hsb; [done|..|by eauto].
    + apply Ho in Hsa as [Hsa _]. eauto.
    + apply Ho in Hsb as [Hsb _]. eauto.
  - intros s Hs. destruct (decide (s = seq)) as [->|Hs'].
    + left. unfold pubd. rewrite Heq. unfold is_published, publish. simpl. apply Z.eqb_refl.
    + destruct (ri_cover0 s Hs) as [Hpu|(q & a & Hq & Hos)].
      * left. unfold pubd. by rewrite Hne.
      * right. destruct (decide (q = p)) as [->|].
        -- exists p, (PWrite (seq + 1) xs). rewrite lookup_insert_eq. split; [done|].
           simplify_eq. simpl in *. lia.
        -- exists q, a. by rewrite lookup_insert_ne.
  - intros s. rewrite slot_set_cases by done. destruct (decide _); [|done]. simpl.
    rewrite wrap_small by (unfold in_range; lia). lia.
  - intros s v Hs Hpu Hv. destruct (decide (s = seq)) as [->|Hs'].
    + rewrite Heq. pose proof (Hx 0%nat x eq_refl) as Hg. rewrite Nat.add_0_r in Hg.
      unfold vw in Hv. simpl in Hv. rewrite (views_lookup _ _ _ _ _ _ Hg) in Hv. simplify_eq.
      replace (init + Z.of_nat (Z.to_nat (seq - init))) with seq by lia. exact Hrec.
    + unfold pubd in Hpu. rewrite Hne in Hpu |- * by done. by apply ri_data0.
  - intros q t y ys. rewrite lookup_insert_Some. intros [[_ ?]|[Hqp Hq]]; [done|].
    destruct (ri_own0 q _ t Hq) as [Ht _]; [simpl; lia|].
    rewrite Hne; [by eapply ri_wrote0|done|]. intros ->. apply Hqp. symmetry.
    eapply (ri_disj0 q p _ _ seq); [done|done|simpl; lia..].
  - intros s Hr. rewrite slot_set_cases by done. destruct (decide _); [|by eauto]. simpl. eauto.
Qed.

(** ** Consumer steps *)

Lemma pubd_lt r ps g s :
  ring_inv r ps g -> 0 <= s <= producer_cursor r -> pubd r s -> s < producer_cursor r.
Proof.
  intros HI Hs Hp. pose proof (ri_top _ _ _ HI). apply pubd_iff in Hp; [|lia].
  pose proof (ri_stamp _ _ _ HI s). lia.
Qed.

Lemma log_lookup r ps g s :
  ring_inv r ps g -> committed_cursor r <= s < producer_cursor r ->
  is_Some (g !! Z.to_nat (s - init)).
Proof. intros [] Hs. apply lookup_lt_is_Some. lia. Qed.

(** Reading a published slot that is sealed when hashing is on yields the
    record of the log, hash included. *)
Lemma read_published r ps g se s v :
  ring_inv r ps g -> (rhash r = true -> sealer_inv r se g) ->
  committed_cursor r <= s < producer_cursor r -> pubd r s ->
  (rhash r = true -> s < sealed_cursor r) ->
  vw r g !! Z.to_nat (s - init) = Some v -> slot_read (slot r s) = v.
Proof.
  intros HI Hse Hs Hp Hlt Hv. destruct (ri_data _ _ _ HI s v Hs Hp Hv) as (H1 & H2 & H3).
  assert (rv_hash_n (slot_read (slot r s)) = rv_hash_n v) as H4.
  { change (rv_hash_n (slot_read (slot r s))) with (si_hash_n (inner (slot r s))).
    destruct (rhash r) eqn:Hr.
    - specialize (Hse eq_refl). specialize (Hlt eq_refl).
      apply (si_hash _ _ _ Hse); [|done].
      pose proof (si_cursor _ _ _ Hse). pose proof (si_le _ _ _ Hse). lia.
    - rewrite (ri_nohash _ _ _ HI s Hr). unfold vw in Hv. rewrite Hr in Hv.
      destruct (log_lookup _ _ _ _ HI Hs) as [x Hx].
      by rewrite (views_lookup _ _ _ _ _ _ Hx) in Hv; simplify_eq. }
  destruct (slot_read (slot r s)), v. simpl in *. congruence.
Qed.

Lemma sealer_inv_hash r ps g nx la seq hi :
  ring_inv r ps g -> rhash r = true -> sealer_inv r (mkSealer nx la (SHash seq hi)) g -> seq <= hi ->
  let h := blake3_keyed_chain key la (rv_content (slot_read (slot r seq))) in
  let r' := set_slot r seq (write_hash (slot r seq) h) in
  ring_inv r' ps g /\ sealer_inv r' (mkSealer nx h (SHash (seq + 1) hi)) g /\ extends r g r' g.
Proof.
  intros HI Hr Hse Hle h r'. pose proof (ri_wf _ _ _ HI) as Hw.
  destruct Hse as [Hc Hle' Htop Hp Hh Hl]. unfold s_done, s_upto in *. simpl in *.
  pose proof (ri_seal _ _ _ HI Hr). pose proof (ri_init _ _ _ HI). pose proof (ri_dc _ _ _ HI).
  pose proof (ri_len _ _ _ HI).
  assert (ring_inv r' ps g) as HI' by
    (apply ring_inv_slot; [done|lia|by apply (slot_slot_wf r)|done|congruence|done]).
  assert (forall s, pubd r' s <-> pubd r s) as Hpub.
  { intros s. unfold pubd, is_published, r'. rewrite slot_set_cases by done.
    destruct (decide _) as [He|]; [|done]. simpl. by rewrite (slot_same_index r s seq). }
  split; [done|]. split.
  2:{ split; try done; [by exists []; rewrite app_nil_r|]. intros. by apply Hpub. }
  destruct (log_lookup _ _ _ seq HI ltac:(lia)) as [x Hx].
  pose proof (views_lookup (rhash r) h0 init g _ x Hx) as Hv.
  assert (rv_content (slot_read (slot r seq)) = x.2) as Hcx.
  { destruct (ri_data _ _ _ HI seq _ ltac:(lia) (Hp seq ltac:(lia)) Hv) as (_ & _ & ->). done. }
  assert (h = rv_hash_n (mkReadView 0 0 [] h)) as Hhv by done.
  rewrite Hr in Hv. rewrite <- Hr, <- Hl, <- Hcx in Hv. fold h in Hv.
  split; unfold s_done, s_upto; simpl; [done|lia|lia| | |].
  - intros s Hs. apply Hpub, Hp. lia.
  - intros s v Hs Hv'. destruct (decide (s = seq)) as [->|].
    + unfold r'. rewrite slot_set_eq by done. unfold vw in Hv'. simpl in Hv'.
      rewrite Hr in Hv'. rewrite Hr in Hv. rewrite Hv in Hv'. by simplify_eq.
    + unfold r'. rewrite (slot_set_window r ps g) by (done || lia). apply Hh; [lia|done].
  - replace (Z.to_nat (seq + 1 - init)) with (S (Z.to_nat (seq - init))) by lia.
    erewrite hash_before_next by (rewrite Hr in Hv |- *; exact Hv). done.
Qed.

Lemma ring_wf_cursors r r' :
  ring_wf r -> slots r' = slots r -> mask r' = mask r -> rsize r' = rsize r -> ring_wf r'.
Proof. intros [] H1 H2 H3. split; by rewrite ?H1, ?H2, ?H3. Qed.

Lemma ring_inv_sealed r ps g hi :
  ring_inv r ps g -> committed_cursor r <= hi -> ring_inv (set_sealed r hi) ps g.
Proof. intros [] Hhi. split; try done. by eapply ring_wf_cursors. Qed.

Lemma ring_inv_durable r ps g :
  ring_inv r ps g -> ring_inv (set_durable r (committed_cursor r)) ps g.
Proof. intros []. split; simpl; try done; try lia. by eapply ring_wf_cursors. Qed.

(** Advancing the committed cursor over published records frees their slots. *)
Lemma ring_inv_committed r ps g v :
  ring_inv r ps g -> committed_cursor r <= v <= producer_cursor r ->
  (forall s, committed_cursor r <= s < v -> pubd r s) ->
  (rhash r = true -> v <= sealed_cursor r) -> ring_inv (set_committed r v) ps g.
Proof.
  intros [] Hv Hp Hs. split; simpl; try done; try lia.
  - by eapply ring_wf_cursors.
  - intros p a Ha. specialize (ri_pc0 p a Ha). destruct a; simpl in *; try done;
      destruct_and!; split_and!; done || lia.
  - intros p a s Ha Ho. destruct (ri_own0 p a s Ha Ho) as [Hr Hn]. split; [|done].
    destruct (decide (s < v)); [|lia]. exfalso. apply Hn, Hp. lia.
  - intros s Hr. apply ri_cover0. lia.
  - intros s w Hr. apply ri_data0. lia.
Qed.

Lemma sealer_inv_committed r se g v :
  committed_cursor r <= v -> sealer_inv r se g -> sealer_inv (set_committed r v) se g.
Proof.
  intros Hv []. split; simpl; try done.
  - intros s Hs. apply si_pub0. lia.
  - intros s w Hs. apply si_hash0. lia.
Qed.

(** Copying one more slot extends the batch by the next record of the log. *)
Lemma copy_next r ps g se to cur acc nx fl :
  ring_inv r ps g -> (rhash r = true -> sealer_inv r se g) ->
  committer_inv r (mkCommitter nx (CBatch to cur acc) fl) g -> cur <= to ->
  committer_inv r
    (mkCommitter nx (CBatch to (cur + 1) (acc ++ [slot_read (slot r cur)])) fl) g.
Proof.
  intros HI Hse [Hc Hle Hp Hs Hsc Hf Ha] Hcur. destruct (Ha _ _ _ eq_refl) as [Hb Hacc].
  unfold c_limit, c_written in *. simpl in *. split; try done. simpl.
  intros ??? [= <- <- <-]. split; [lia|].
  destruct (log_lookup _ _ _ cur HI ltac:(lia)) as [x Hx].
  pose proof (views_lookup (rhash r) h0 init g _ x Hx) as Hv.
  pose proof (ri_init _ _ _ HI). pose proof (ri_dc _ _ _ HI).
  replace (Z.to_nat (cur + 1 - init)) with (S (Z.to_nat (cur - init))) by lia.
  rewrite app_assoc, Hacc. erewrite take_S_r by exact Hv. do 2 f_equal.
  eapply read_published; [done|done|lia|apply Hp; lia| |exact Hv].
  intros Hr. specialize (Hs Hr). lia.
Qed.

(** The records of a batch are those of the positions it covers. *)
Lemma batch_holds r ps g to cur acc nx fl :
  ring_inv r ps g -> committer_inv r (mkCommitter nx (CBatch to cur acc) fl) g ->
  holds (vw r g) (seq (Z.to_nat (nx - init)) (Z.to_nat (cur - init) - Z.to_nat (nx - init))) acc.
Proof.
  intros HI [Hc Hle Hp Hs Hsc Hf Ha]. destruct (Ha _ _ _ eq_refl) as [Hb Hacc].
  unfold c_limit in *. simpl in *. apply holds_batch; [|done].
  unfold vw. rewrite length_views. pose proof (ri_len _ _ _ HI). pose proof (ri_init _ _ _ HI).
  pose proof (ri_dc _ _ _ HI). lia.
Qed.

Lemma extends_refl r g : extends r g r g.
Proof. split; try done. exists []. by rewrite app_nil_r. Qed.

Lemma sealer_step_inv st st' : sealer_step st st' -> inv st -> inv st'.
Proof.
  intros Hst [HI Hse Hco Hd]. destruct Hst as
    [seq nx la r ps co sd d g Hr Hp Hlt|seq nx la r ps co sd d g Hr Hp Hlt
    |seq nx la r ps co sd d g Hr Hp Hlt|seq hi nx la r ps co sd d g h Hr Hle
    |seq hi nx la r ps co sd d g Hr Hlt|hi nx la r ps co sd d g Hr];
    simpl in *; specialize (Hse Hr); pose proof (ri_init _ _ _ HI); pose proof (ri_dc _ _ _ HI);
    pose proof (ri_seal _ _ _ HI Hr).
  - split; try done. intros _. destruct Hse as [J1 J2 J3 J4 J5 J6].
    unfold s_done, s_upto in *. simpl in *.
    pose proof (pubd_lt r ps g seq HI ltac:(lia) Hp).
    split; unfold s_done, s_upto; simpl; try done; try lia.
    intros s Hs. destruct (decide (s = seq)) as [->|]; [done|]. apply J4. lia.
  - split; try done. intros _. destruct Hse as [J1 J2 J3 J4 J5 J6].
    unfold s_done, s_upto in *. simpl in *.
    pose proof (pubd_lt r ps g seq HI ltac:(lia) Hp).
    split; unfold s_done, s_upto; simpl; try done; try lia.
    intros s Hs. destruct (decide (s = seq)) as [->|]; [done|]. apply J4. lia.
  - split; try done. intros _. destruct Hse as [J1 J2 J3 J4 J5 J6].
    unfold s_done, s_upto in *. simpl in *.
    split; unfold s_done, s_upto; simpl; try done; try lia.
    intros s Hs. apply J4. lia.
  - destruct (sealer_inv_hash r ps g nx la seq hi HI Hr Hse Hle) as (HI' & Hse' & Hx).
    split; simpl; [done|done|by apply (committer_inv_ext r ps co g)|by destruct Hd; split].
  - split; try done. intros _. destruct Hse as [J1 J2 J3 J4 J5 J6].
    unfold s_done, s_upto in *. simpl in *. assert (seq = hi + 1) as -> by lia.
    split; unfold s_done, s_upto; simpl; done || lia.
  - assert (Hse' := Hse). destruct Hse as [J1 J2 J3 J4 J5 J6]. unfold s_done, s_upto in *. simpl in *.
    split; simpl.
    + apply ring_inv_sealed; [done|lia].
    + intros _. split; unfold s_done, s_upto; simpl; try done; try lia.
    + apply (committer_inv_ext r ps co g); [done| |done]. split; try done; simpl; [lia|].
      exists []. by rewrite app_nil_r.
    + by destruct Hd; split.
Qed.

Lemma committer_step_inv st st' : committer_step st st' -> inv st -> inv st'.
Proof.
  intros Hst [HI Hse Hco Hd]. destruct Hst as
    [to nx fl r ps se sd d g Hr Hto|nx fl r ps se sd d g Hr|seq nx fl r ps se sd d g Hp
    |nx fl r ps se sd d g Hp|seq to nx fl r ps se sd d g Hp Hto|to cur acc nx fl r ps se sd d g Hle
    |to cur acc nx fl r ps se sd d g|to cur acc nx fl r ps se sd d g Hlt
    |to cur acc nx fl r ps se sd d g Hlt|last nx fl r ps se sd d g|nx fl r ps se sd d g];
    simpl in *; pose proof (ri_init _ _ _ HI); pose proof (ri_dc _ _ _ HI);
    assert (Hco' := Hco); destruct Hco as [J1 J2 J3 J4 J5 J6 J7];
    unfold c_limit, c_written in *; simpl in *;
    try (split; [done|done| |done]; simpl; split; unfold c_limit, c_written; simpl; try done; try lia).
  - specialize (Hse Hr). pose proof (si_cursor _ _ _ Hse). pose proof (si_le _ _ _ Hse).
    pose proof (si_top _ _ _ Hse). lia.
  - specialize (Hse Hr). pose proof (si_cursor _ _ _ Hse). pose proof (si_le _ _ _ Hse).
    intros s Hs. apply (si_pub _ _ _ Hse). lia.
  - intros ??? [= <- <- <-]. split; [lia|]. apply app_nil_r.
  - pose proof (pubd_lt r ps g seq HI ltac:(lia) Hp). lia.
  - intros s Hs. destruct (decide (s = seq)) as [->|]; [done|]. apply J3. lia.
  - rewrite (J5 seq eq_refl). done.
  - intros. by eapply J5.
  - intros s Hs. apply J3. lia.
  - intros Hr. specialize (J4 Hr). lia.
  - intros ??? [= <- <- <-]. split; [lia|]. apply app_nil_r.
  - exact (ci_acc _ _ _ (copy_next _ _ _ _ _ _ _ _ _ HI Hse Hco' Hle)).
  - intros Hr. specialize (J4 Hr). lia.
  - intros Hr. specialize (J4 Hr). lia.
  - destruct J6 as (ws & Hat & Hho). eexists. split; [|exact (holds_app _ _ _ _ _ Hho (batch_holds _ _ _ _ _ _ _ _ HI Hco'))].
    apply att_again; [done|lia].
  - destruct (J7 _ _ _ eq_refl). lia.
  - destruct (J7 _ _ _ eq_refl). intros s Hs. apply J3. lia.
  - destruct (J7 _ _ _ eq_refl). intros Hr. specialize (J4 Hr). lia.
  - destruct J6 as (ws & Hat & Hho). eexists. split; [|exact (holds_app _ _ _ _ _ Hho (batch_holds _ _ _ _ _ _ _ _ HI Hco'))].
    replace (cur - 1 + 1 - init) with (cur - init) by lia. apply att_ok; [done|lia].
  - split; simpl.
    + apply ring_inv_committed; [done|lia| |done]. intros s Hs. apply J3. lia.
    + intros Hr. apply sealer_inv_committed; [lia|auto].
    + split; unfold c_limit, c_written; simpl; done || lia.
    + by destruct Hd; split.
  - split; simpl; [rewrite <- J1; by apply ring_inv_durable| | |by destruct Hd; split].
    + intros Hr. by destruct (Hse Hr); split.
    + by destruct Hco'; split.
Qed.

(** ** Producers and drain *)

Definition quiet_pc (a : PC) : Prop :=
  match a with PEntered _ | PLeaving => True | _ => False end.

Lemma drain_inv_pc r ps sd d p a a' :
  drain_inv r ps sd d -> ps !! p = Some a -> (quiet_pc a -> d = DRun \/ quiet_pc a') ->
  drain_inv r (<[p := a']> ps) sd d.
Proof.
  intros [] Hp Hq.
  assert (size (<[p := a']> ps) = size ps) as Hsz by (apply map_size_insert_Some; by exists a).
  split; try done; [by rewrite Hsz|by rewrite Hsz|]. intros Hd q b. rewrite lookup_insert_Some.
  intros [[_ <-]|[_ ?]]; [|by eapply di_quiet0].
  pose proof (di_quiet0 Hd p a Hp) as Ha. destruct (Hq Ha) as [->|Hb]; [|done].
  by destruct Hd.
Qed.

(** A producer step that leaves the ring alone. *)
Lemma inv_pc r ps se co sd d g p a a' :
  inv (mkSt r ps se co sd d g) -> ps !! p = Some a -> idle_pc a -> idle_pc a' -> pc_ok r g a' ->
  (quiet_pc a -> d = DRun \/ quiet_pc a') ->
  inv (mkSt r (<[p := a']> ps) se co sd d g).
Proof.
  intros [HI Hse Hco Hd] Hp Ha Ha' Hok Hq. split; simpl in *; try done.
  - apply ring_inv_pc; try done. intros b Hb. by simplify_eq.
  - by eapply drain_inv_pc.
Qed.

(** A producer step that writes one slot. *)
Lemma inv_slot r ps se co sd d g p seq x a a' :
  inv (mkSt r ps se co sd d g) -> ps !! p = Some a -> ~ quiet_pc a ->
  ring_inv (set_slot r seq x) (<[p := a']> ps) g ->
  si_hash_n (inner x) = si_hash_n (inner (slot r seq)) ->
  (forall s, committed_cursor r <= s < producer_cursor r -> pubd r s -> pubd (set_slot r seq x) s) ->
  inv (mkSt (set_slot r seq x) (<[p := a']> ps) se co sd d g).
Proof.
  intros [HI Hse Hco Hd] Hp Hq HI' Hh Hpub. simpl in *.
  assert (extends r g (set_slot r seq x) g) as Hx.
  { split; try done. exists []. by rewrite app_nil_r. }
  split; simpl; [done| |by apply (committer_inv_ext r ps co g)|].
  - intros Hr. apply (sealer_inv_ext r ps se g); try done; [|auto]. intros s _ _.
    rewrite slot_set_cases by apply HI. destruct (decide _) as [He|]; [|done].
    by rewrite Hh, (slot_same_index r s seq).
  - destruct (drain_inv_pc r ps sd d p a a' Hd Hp); [tauto|]. by split.
Qed.

Lemma producer_step_inv st st' : producer_step st st' -> inv st -> inv st'.
Proof.
  intros Hst HI. destruct Hst as
    [p q r ps se co sd d g Hp Hsz Hn Hc|p q r ps se co sd d g Hp Hdr|p q r ps se co sd d g Hp Hdr
    |p q r ps se co sd d g Hp|p q seq r ps se co sd d g Hp|p q seq c r ps se co sd d g Hp
    |p q seq wm r ps se co sd d g Hp Hf|p q seq wm r ps se co sd d g Hp Hf
    |p q seq wm r ps se co sd d g Hp Hf He Hb|p seq x xs r ps se co sd d g Hp
    |p seq x xs r ps se co sd d g Hp|p seq r ps se co sd d g Hp|p r ps se co sd d g Hp];
    try (pose proof (ri_pc _ _ _ (inv_ring _ HI) p _ Hp) as Hok; simpl in Hok);
    pose proof (inv_ring _ HI) as HR; simpl in HR;
    pose proof (ri_init _ _ _ HR); pose proof (ri_dc _ _ _ HR); pose proof (ri_cp _ _ _ HR).
  - destruct HI as [_ Hse Hco []]. split; simpl in *; try done.
    + apply ring_inv_pc; try done. congruence.
    + pose proof (map_size_insert_None p (PEntered q) ps Hp).
      split; simpl; try done; try lia.
      * rewrite wrap_small by (unfold in_range; lia). lia.
      * intros Hd p' a. rewrite lookup_insert_Some. intros [[_ <-]|[_ ?]]; [done|by eapply di_quiet0].
  - eapply inv_pc; try done. by right.
  - eapply inv_pc; try done. intros _. left. destruct HI as [_ _ _ []]. simpl in *.
    unfold draining in Hdr. apply Z.leb_gt in Hdr. destruct d; [done|lia..].
  - eapply inv_pc; try done. simpl. split; [done|lia].
  - eapply inv_pc; try done. simpl. destruct Hok. split_and!; done || lia.
  - eapply inv_pc; try done. simpl. destruct Hok as (? & ? & ?).
    assert (rhash r = true -> init <= sealed_cursor r) as Hs
      by (intros Hr; pose proof (ri_seal _ _ _ HR Hr); lia).
    destruct (rhash r); [specialize (Hs eq_refl)|]; split_and!; done || lia.
  - destruct Hok. eapply inv_pc; try done; by destruct policy.
  - destruct Hok. by eapply inv_pc.
  - assert (ring_inv (set_producer r (seq + Z.of_nat (length (items q))))
      (<[p:=PWrite seq (items q)]> ps) (g ++ items q)) as HR' by by eapply ring_inv_claim.
    assert (extends r g (set_producer r (seq + Z.of_nat (length (items q)))) (g ++ items q)) as Hx.
    { split; try done; simpl; [lia|by eexists]. }
    destruct HI as [_ Hse Hco Hd]. simpl in *. split; simpl; [done| |by apply (committer_inv_ext r ps co g)|].
    + intros Hr. apply (sealer_inv_ext r ps se g); try done. auto.
    + destruct Hd. pose proof (map_size_insert_Some p (PWrite seq (items q)) ps ltac:(by eexists)) as Hsz.
      assert (~ (d = DZero \/ d = DDone)) as Hnd.
      { intros Hdd. by apply (di_quiet0 Hdd p _ Hp). }
      split; simpl; try done; rewrite ?Hsz; try done; tauto.
  - eapply inv_slot; [done|done|by intros []|by apply ring_inv_write|done|].
    intros s Hs Hpub. unfold pubd. rewrite slot_set_cases by apply HR.
    destruct (decide _) as [Hi|]; [|done]. unfold is_published, producer_write. cbn [slot_sequence].
    by rewrite <- (slot_same_index r s seq).
  - eapply inv_slot; [done|done|by intros []|by eapply ring_inv_publish|done|].
    intros s Hs Hpub. destruct (ri_own _ _ _ HR p _ seq Hp) as [Hw _]; [simpl; lia|].
    unfold pubd. destruct (decide (s = seq)) as [->|].
    + rewrite slot_set_eq by apply HR. apply Z.eqb_refl.
    + by rewrite (slot_set_window r ps g).
  - by eapply inv_pc.
  - destruct HI as [_ Hse Hco []]. pose proof (map_size_delete_Some p ps (mk_is_Some _ _ Hp)) as Hsz.
    assert (size ps <> 0%nat) by (intros Hz%map_size_empty_inv; subst; by rewrite lookup_empty in Hp).
    split; simpl in *; try done; [by eapply ring_inv_delete|].
    split; simpl; try done; try lia.
    + rewrite wrap_small by (unfold in_range; lia). lia.
    + intros Hd p' a [_ ?]%lookup_delete_Some. by eapply di_quiet0.
Qed.

Lemma drain_step_inv st st' : drain_step st st' -> inv st -> inv st'.
Proof.
  intros Hst [HI Hse Hco Hd]. destruct Hst; simpl in *; split; simpl; try done; destruct Hd;
    split; simpl in *; try done; try (by intros [?|?]).
  - intros _ p a Hp. assert (size ps = 0%nat) as Hz by lia. apply map_size_empty_inv in Hz. subst.
    by rewrite lookup_empty in Hp.
  - intros _. by apply di_quiet0; left.
Qed.

Lemma initial_inv st : initial st -> inv st.
Proof.
  intros (r & Hr & Hs & Hi & ->). assert (Hw := Hr). apply ring_new_wf in Hw; [|done].
  pose proof (rw_pos r Hw). unfold ring_new in Hr.
  destruct (is_power_of_two _ && _) eqn:Hc; [|done]. injection Hr as Hr.
  assert (forall s, slot r s = slot_new) as Hslot.
  { intros s. unfold slot. rewrite <- (f_equal slots Hr). simpl.
    destruct (replicate _ _ !! _) as [x|] eqn:Hx; [|done].
    by apply lookup_replicate in Hx as [-> _]. }
  assert (producer_cursor r = init /\ sealed_cursor r = init /\ committed_cursor r = init /\
    durable_cursor r = init) as (Hp & Hse & Hcm & Hdu).
  { split_and!; [by rewrite <- (f_equal producer_cursor Hr)|by rewrite <- (f_equal sealed_cursor Hr)
      |by rewrite <- (f_equal committed_cursor Hr)|by rewrite <- (f_equal durable_cursor Hr)]. }
  split; simpl.
  - split; try done; try lia; rewrite ?Hp, ?Hcm, ?Hdu; simpl; try lia; try done.
    + intros s. rewrite Hslot. simpl. lia.
    + intros s _. by rewrite Hslot.
  - intros _. split; unfold s_done, s_upto; simpl; try done; try lia.
    by rewrite Z.sub_diag.
  - split; unfold c_limit, c_written; simpl; try done; try lia.
    rewrite Z.sub_diag. exists []. split; constructor.
  - by split.
Qed.

Lemma reachable_inv st : reachable st -> inv st.
Proof.
  induction 1 as [st Hi|st st' _ IH Hs]; [by apply initial_inv|].
  destruct Hs as [?|[?|[?|?]]];
    eauto using producer_step_inv, sealer_step_inv, committer_step_inv, drain_step_inv.
Qed.

(** ** The abstract log *)

(** What the pipeline implements: an append-only log, a file that is written
    by positions of the log, and two watermarks.  A batch starts at the first
    position that is not committed; positions are committed when they are all
    in the file, and are durable after that. *)
Record AbsLog := mkAbs {
  a_log : list Item; a_file : list nat; a_committed : nat; a_durable : nat
}.

Definition abs_init : AbsLog := mkAbs [] [] 0 0.

Inductive abs_step : AbsLog -> AbsLog -> Prop :=
| A_append xs l f c d : abs_step (mkAbs l f c d) (mkAbs (l ++ xs) f c d)
| A_write n l f c d :
    (c + n <= length l)%nat -> abs_step (mkAbs l f c d) (mkAbs l (f ++ seq c n) c d)
| A_commit n l f c d :
    (c <= n)%nat -> (forall i, (i < n)%nat -> i ∈ f) -> abs_step (mkAbs l f c d) (mkAbs l f n d)
| A_sync l f c d : abs_step (mkAbs l f c d) (mkAbs l f c c)
| A_stutter a : abs_step a a.

(** The state of the pipeline shows the abstract log: its log, its file record
    by record, and its two watermarks. *)
Record sim (st : St) (a : AbsLog) : Prop := {
  sim_log : a_log a = st_log st;
  sim_file : holds (views (rhash (st_ring st)) h0 init (st_log st)) (a_file a) (c_file (st_committer st));
  sim_committed : init + Z.of_nat (a_committed a) = committed_cursor (st_ring st);
  sim_durable : init + Z.of_nat (a_durable a) = durable_cursor (st_ring st);
  sim_written i : init + Z.of_nat i < c_written (st_committer st) -> i ∈ a_file a;
}.

Lemma sim_init st : initial st -> sim st abs_init.
Proof.
  intros (r & Hr & Hs & Hi & ->). unfold ring_new in Hr.
  destruct (is_power_of_two _ && _) eqn:Hc; [|done]. injection Hr as Hr.
  split; simpl; try done.
  - constructor.
  - rewrite <- (f_equal committed_cursor Hr). simpl. lia.
  - rewrite <- (f_equal durable_cursor Hr). simpl. lia.
  - intros i. unfold c_written. simpl. lia.
Qed.

(** A step that leaves the log, the file and the two cursors alone. *)
Lemma sim_stutter st st' a :
  sim st a -> rhash (st_ring st') = rhash (st_ring st) -> st_log st' = st_log st ->
  c_file (st_committer st') = c_file (st_committer st) ->
  c_written (st_committer st') = c_written (st_committer st) ->
  committed_cursor (st_ring st') = committed_cursor (st_ring st) ->
  durable_cursor (st_ring st') = durable_cursor (st_ring st) ->
  exists a', abs_step a a' /\ sim st' a'.
Proof.
  intros [] Hh Hl Hf Hw Hc Hd. exists a. split; [apply A_stutter|].
  split; rewrite ?Hh, ?Hl, ?Hf, ?Hw, ?Hc, ?Hd; done.
Qed.

Lemma sim_producer st st' a :
  sim st a -> producer_step st st' -> exists a', abs_step a a' /\ sim st' a'.
Proof.
  intros Hs Hst. destruct Hst; try by eapply sim_stutter.
  destruct a as [l f c d'], Hs as [Hlog Hf Hc Hd Hw]. simpl in *. subst l.
  eexists. split; [apply A_append|]. split; simpl; try done.
  destruct (views_app (rhash r) h0 init g (items q)) as [k ->]. by apply holds_mono.
Qed.

Lemma sim_committer st st' a :
  inv st -> sim st a -> committer_step st st' -> exists a', abs_step a a' /\ sim st' a'.
Proof.
  intros [HI Hse Hco _] Hs Hst. pose proof (ri_init _ _ _ HI) as Hi0. pose proof (ri_dc _ _ _ HI) as Hdc.
  pose proof (ri_len _ _ _ HI) as Hlen. pose proof (ci_le _ _ _ Hco) as Hle.
  pose proof (ci_cursor _ _ _ Hco) as Hcn. pose proof (ci_acc _ _ _ Hco) as Hacc.
  destruct a as [l f c d']. destruct Hst; try by eapply sim_stutter.
  - simpl in *. destruct (Hacc _ _ _ eq_refl) as [Hcur _]. pose proof (batch_holds _ _ _ _ _ _ _ _ HI Hco) as Hb.
    destruct Hs as [Hlog Hf Hc Hd Hw]. unfold c_limit, c_written in *. simpl in *. subst l.
    replace (Z.to_nat (nx - init)) with c in Hb by lia.
    eexists. split; [apply (A_write (Z.to_nat (cur - init) - c)); lia|]. split; simpl; try done.
    + by apply holds_app.
    + intros i Hi. apply elem_of_app. left. by apply Hw.
  - simpl in *. destruct (Hacc _ _ _ eq_refl) as [Hcur _]. pose proof (batch_holds _ _ _ _ _ _ _ _ HI Hco) as Hb.
    destruct Hs as [Hlog Hf Hc Hd Hw]. unfold c_limit, c_written in *. simpl in *. subst l.
    replace (Z.to_nat (nx - init)) with c in Hb by lia.
    eexists. split; [apply (A_write (Z.to_nat (cur - init) - c)); lia|]. split; simpl; try done.
    + by apply holds_app.
    + unfold c_written. simpl. intros i Hi. apply elem_of_app.
      destruct (decide (i < c)%nat); [left; apply Hw; lia|right; apply elem_of_seq; lia].
  - destruct Hs as [Hlog Hf Hc Hd Hw]. unfold c_limit, c_written in *. simpl in *. subst l.
    exists (mkAbs g f (Z.to_nat (last + 1 - init)) d'). split.
    + apply A_commit; [lia|]. intros i Hi. apply Hw. lia.
    + split; simpl; try done. lia.
  - destruct Hs as [Hlog Hf Hc Hd Hw]. simpl in *. subst l.
    eexists. split; [apply A_sync|]. split; simpl; try done. lia.
Qed.

(** ** Runs without a late failure *)

(** No step of the run put a batch into the file and failed after that. *)
Inductive reachable_clean : St -> Prop :=
| clean_init st : initial st -> reachable_clean st
| clean_step st st' :
    reachable_clean st -> step st st' ->
    (c_pc (st_committer st') = CIdle -> c_file (st_committer st') = c_file (st_committer st)) ->
    reachable_clean st'.

Lemma clean_reachable st : reachable_clean st -> reachable st.
Proof. induction 1; [by apply reach_init|by eapply reach_step]. Qed.

Lemma clean_file_length st :
  reachable_clean st ->
  length (c_file (st_committer st)) = Z.to_nat (c_written (st_committer st) - init).
Proof.
  induction 1 as [st (r & _ & _ & _ & ->)|st st' Hr IH Hst Hcl].
  { unfold c_written. simpl. by rewrite Z.sub_diag. }
  assert (inv st) as [HI _ Hco _] by (by apply reachable_inv, clean_reachable).
  destruct Hst as [Hst|[Hst|[Hst|Hst]]]; destruct Hst; try done; simpl in *.
  - by rewrite Hcl.
  - pose proof (Forall2_length (batch_holds _ _ _ _ _ _ _ _ HI Hco)) as Hl.
    destruct (ci_acc _ _ _ Hco _ _ _ eq_refl) as [Hcur _]. simpl in *. rewrite length_seq in Hl.
    unfold c_written in *. simpl in *. rewrite length_app, IH, <- Hl.
    pose proof (ri_init _ _ _ HI). pose proof (ri_dc _ _ _ HI). pose proof (ci_cursor _ _ _ Hco). simpl in *. lia.
Qed.

Lemma clean_file st :
  reachable_clean st ->
  c_file (st_committer st) =
  take (length (c_file (st_committer st))) (views (rhash (st_ring st)) h0 init (st_log st)).
Proof.
  intros Hr. pose proof (clean_file_length _ Hr) as Hl. apply holds_prefix.
  apply clean_reachable, reachable_inv in Hr as [HI _ Hco _].
  destruct (ci_file _ _ _ Hco) as (ws & Hat & Hho). rewrite <- Hl in Hat.
  rewrite <- (attempts_once _ _ Hat); [done|]. by apply Forall2_length in Hho.
Qed.

(** The positions in the file are positions of the log. *)
Lemma first_seen_bound hash prev sq g ws fl k :
  holds (views hash prev sq g) ws fl -> first_seen ws = seq 0 k -> (k <= length g)%nat.
Proof.
  intros Hh Hk. destruct k as [|k]; [lia|].
  assert (k ∈ ws) as Hi.
  { apply (foldl_see_sub [] ws k); [|set_solver]. fold (first_seen ws). rewrite Hk. apply elem_of_seq. lia. }
  apply list_elem_of_lookup in Hi as [j Hj]. destruct (Forall2_lookup_l _ _ _ _ _ Hh Hj) as (v & _ & Hv).
  apply lookup_lt_Some in Hv. rewrite length_views in Hv. lia.
Qed.

(** ** Accesses to slot data *)

Inductive Thread := TProducer (p : nat) | TSealer | TCommitter.

(** [access st t s]: the next step of [t] may read or write the data of the
    slot of sequence [s] (the sealer runs only when hashing is on). *)
Inductive access (st : St) : Thread -> Z -> Prop :=
| acc_write p seq x xs :
    st_prods st !! p = Some (PWrite seq (x :: xs)) -> access st (TProducer p) seq
| acc_publish p seq x xs :
    st_prods st !! p = Some (PPublish seq x xs) -> access st (TProducer p) seq
| acc_hash seq hi :
    rhash (st_ring st) = true -> s_pc (st_sealer st) = SHash seq hi -> seq <= hi ->
    access st TSealer seq
| acc_copy to cur acc :
    c_pc (st_committer st) = CBatch to cur acc -> cur <= to -> access st TCommitter cur.

Lemma access_window st t s :
  inv st -> access st t s ->
  committed_cursor (st_ring st) <= s < producer_cursor (st_ring st) /\
  match t with
  | TProducer p => exists a, st_prods st !! p = Some a /\ owns a s
  | TSealer => pubd (st_ring st) s /\ rhash (st_ring st) = true /\ sealed_cursor (st_ring st) <= s
  | TCommitter => pubd (st_ring st) s /\ (rhash (st_ring st) = true -> s < sealed_cursor (st_ring st))
  end.
Proof.
  intros [HR Hse Hco _] [p seq x xs Hp|p seq x xs Hp|seq hi Hr Hs Hle|to cur acc Hc Hle].
  - assert (owns (PWrite seq (x :: xs)) seq) as Ho by (simpl; lia).
    split; [by eapply ri_own|eauto].
  - assert (owns (PPublish seq x xs) seq) as Ho by (simpl; lia).
    split; [by eapply ri_own|eauto].
  - destruct (Hse Hr) as [H1 H2 H3 H4 _ _]. pose proof (ri_seal _ _ _ HR Hr).
    unfold s_done, s_upto in *. rewrite Hs in *. split_and!; [lia..|apply H4; lia|done|lia].
  - destruct Hco as [H1 H2 H3 H4 _ _ H6]. destruct (H6 _ _ _ Hc) as [H7 _].
    unfold c_limit in *. rewrite Hc in *. split_and!; [lia..|apply H3; lia|].
    intros Hr. specialize (H4 Hr). lia.
Qed.

(** C35: mutual exclusion on slots.  Whatever the interleaving of producers,
    sealer and committer, two threads that are about to access the data of the
    same slot of the ring are the same thread: a claimed slot is neither read
    nor hashed before it is published, never claimed again before it is
    consumed, and never hashed while it is being copied. *)
Theorem slot_mutual_exclusion st t s t' s' :
  reachable st -> access st t s -> access st t' s' ->
  slot_index (st_ring st) s = slot_index (st_ring st) s' -> t = t' /\ s = s'.
Proof.
  intros HI%reachable_inv Ha Hb Hi. pose proof (inv_ring _ HI) as HR.
  destruct (access_window _ _ _ HI Ha) as [Hs Hta], (access_window _ _ _ HI Hb) as [Hs' Htb].
  assert (s = s') as <-.
  { apply (slot_index_inj (st_ring st)); [apply HR|pose proof (ri_cp _ _ _ HR); lia|done]. }
  split; [|done]. destruct t as [p| |], t' as [q| |]; try done.
  - destruct Hta as (a & Hp & Hoa), Htb as (b & Hq & Hob). f_equal. by eapply ri_disj.
  - destruct Hta as (a & Hp & Hoa), Htb as [Hpub _]. by destruct (ri_own _ _ _ HR _ a s Hp Hoa).
  - destruct Hta as (a & Hp & Hoa), Htb as [Hpub _]. by destruct (ri_own _ _ _ HR _ a s Hp Hoa).
  - destruct Htb as (a & Hp & Hoa), Hta as [Hpub _]. by destruct (ri_own _ _ _ HR _ a s Hp Hoa).
  - destruct Hta as (_ & Hr & Hle), Htb as [_ Hlt]. specialize (Hlt Hr). lia.
  - destruct Htb as (a & Hp & Hoa), Hta as [Hpub _]. by destruct (ri_own _ _ _ HR _ a s Hp Hoa).
  - destruct Htb as (_ & Hr & Hle), Hta as [_ Hlt]. specialize (Hlt Hr). lia.
Qed.

(** C2: the file holds the claimed log.  In every reachable state the file's
    records are those of a list of positions of the claimed log, each with its
    record id, timestamp, content and (when hashing is on) its link of the hash
    chain; with the repetitions left out, the positions are 0, 1, 2, ... up to
    some position [k] that the committed cursor does not pass, so no record is
    missing, out of order or invented; and durable <= committed <= written <=
    claimed.  A record is repeated only when a batch failed after it was
    written (preparing the next segment failed) and was tried again: in runs
    without such a failure the file is exactly a prefix of the log, each
    record once. *)
Theorem committed_file_is_log_prefix st :
  reachable st ->
  let r := st_ring st in let l := views (rhash r) h0 init (st_log st) in
  (exists ws k, holds l ws (c_file (st_committer st)) /\ first_seen ws = seq 0 k /\
     committed_cursor r <= init + Z.of_nat k <= producer_cursor r) /\
  init <= durable_cursor r <= committed_cursor r /\
  producer_cursor r = init + Z.of_nat (length (st_log st)) /\
  (reachable_clean st ->
     c_file (st_committer st) = take (length (c_file (st_committer st))) l).
Proof.
  intros HI%reachable_inv r l. destruct HI as [HR _ Hco _]. fold r in HR, Hco.
  split; [|split; [|split; [|apply clean_file]]].
  - destruct (ci_file _ _ _ Hco) as (ws & Hat & Hho).
    destruct (attempts_first_seen _ _ Hat) as (k & Hk & Hle). exists ws, k. split; [done|]. split; [done|].
    assert (k <= length (st_log st))%nat as Hkl by (by eapply first_seen_bound).
    pose proof (ri_len _ _ _ HR). pose proof (ci_cursor _ _ _ Hco).
    pose proof (ci_le _ _ _ Hco). unfold c_written, c_limit in *.
    destruct (c_pc (st_committer st)); lia.
  - destruct HR. lia.
  - destruct HR. lia.
Qed.

(** C1: the pipeline refines the abstract log.  A fresh shard shows the empty
    abstract log, and every step of every thread from a reachable state that
    shows an abstract log [a] leads to a state that shows an [a'] one abstract
    step after [a]: an append at the moment the claim's compare-exchange
    succeeds, a write of a batch that starts at the first position not
    committed (again, after a batch that failed once it was written), a commit
    of positions that are all in the file, a sync, or no change.  What a state
    shows fixes the abstract log, the records in the file and both
    watermarks, so a step is matched by "no change" only when it changes none
    of them. *)
Theorem pipeline_refines_log :
  (forall st, initial st -> sim st abs_init) /\
  (forall st st' a, reachable st -> sim st a -> step st st' ->
     exists a', abs_step a a' /\ sim st' a').
Proof.
  split; [apply sim_init|]. intros st st' a HI%reachable_inv Hs [Hp|[Hse|[Hc|Hd]]].
  - by eapply sim_producer.
  - destruct Hse; by eapply sim_stutter.
  - by eapply sim_committer.
  - destruct Hd; by eapply sim_stutter.
Qed.

(** Drain sees every append.  Once the draining thread has seen
    [in_flight = 0] and stored its target, every claimed record is published,
    the target is the producer cursor, and no step of any thread appends
    again. *)
Theorem drain_target_final st st' :
  reachable st -> st_drain st = DDone -> step st st' ->
  drain_target (st_shutdown st) = producer_cursor (st_ring st) /\
  (forall s, committed_cursor (st_ring st) <= s < producer_cursor (st_ring st) ->
     pubd (st_ring st) s) /\
  st_log st' = st_log st /\ producer_cursor (st_ring st') = producer_cursor (st_ring st) /\
  st_drain st' = DDone.
Proof.
  intros HI%reachable_inv Hd Hst. pose proof (di_target _ _ _ _ (inv_drain _ HI) Hd) as Ht.
  pose proof (di_quiet _ _ _ _ (inv_drain _ HI) (or_intror Hd)) as Hq.
  split; [done|]. split.
  - intros s Hs. destruct (ri_cover _ _ _ (inv_ring _ HI) s Hs) as [?|(p & a & Hp & Ho)]; [done|].
    specialize (Hq p a Hp). destruct a; done.
  - destruct Hst as [Hp|[Hs|[Hc|Hdr]]].
    + destruct Hp; simpl in *; try done.
      match goal with Hw : _ !! _ = Some (PWatermark _ _ _) |- _ => by specialize (Hq _ _ Hw) end.
    + by destruct Hs.
    + by destruct Hc.
    + by destruct Hdr.
Qed.
End pipeline.

(** ** Concrete runs *)

Section demo.
#[local] Instance demo_externals : Externals := toy.

Definition demo_item : Item := (7, [Byte.x61]).

Definition demo_ring (h : bool) : Ring :=
  mkRing (replicate 16 slot_new) 15 16 0 0 0 0 h.

Definition demo_start (h : bool) : St :=
  mkSt (demo_ring h) ∅ (mkSealer 0 (zeros 32) (SScan 0)) (mkCommitter 0 CIdle [])
    shutdown_new DRun [].

Ltac run R c :=
  eapply (reach_step 0 0 0 (zeros 32) (zeros 32) Drop) in R;
  [|c; match goal with
       | |- _ = _ => reflexivity
       | |- _ < _ => reflexivity
       | |- _ /\ _ => vm_compute; split; discriminate
       | |- Forall _ _ => repeat constructor
       | |- _ => idtac
       end].
Ltac producer R c := run R ltac:(left; eapply c).
Ltac committer R c := run R ltac:(right; right; left; eapply c).
Ltac drain R c := run R ltac:(right; right; right; eapply c).

Lemma demo_init h : reachable 0 0 0 (zeros 32) (zeros 32) Drop (demo_start h).
Proof. apply reach_init. exists (demo_ring h). split_and!; try done; by destruct h. Qed.

(** Producer 1 enters and claims sequence 0 while producer 0 has loaded the
    same cursor value. *)
Lemma demo_claimed :
  exists st, reachable 0 0 0 (zeros 32) (zeros 32) Drop st /\
    st_prods st !! 1%nat = Some (PWrite 0 [demo_item]).
Proof.
  pose proof (demo_init false) as R. unfold demo_start in R.
  producer R (P_enter 0 0 Drop 0%nat (Single demo_item)).
  producer R (P_admitted 0 0 Drop 0%nat).
  producer R (P_load 0 0 Drop 0%nat).
  producer R (P_enter 0 0 Drop 1%nat (Single demo_item)).
  producer R (P_admitted 0 0 Drop 1%nat).
  producer R (P_load 0 0 Drop 1%nat).
  producer R (P_committed 0 0 Drop 1%nat).
  producer R (P_sealed 0 0 Drop 1%nat).
  producer R (P_cas_ok 0 0 Drop 1%nat).
  eexists. split; [exact R|done].
Qed.

(** Producer 1 appends one record and leaves; the committer writes it; a drain
    completes. *)
Lemma demo_drained :
  exists st st', reachable 0 0 0 (zeros 32) (zeros 32) Drop st /\ st_drain st = DDone /\
    step 0 0 (zeros 32) Drop st st' /\ producer_cursor (st_ring st) = 1 /\
    length (c_file (st_committer st)) = 1%nat /\
    exists a, sim 0 0 0 (zeros 32) (zeros 32) st a /\ a_committed a = 0%nat /\
      committed_cursor (st_ring st') = 1.
Proof.
  pose proof (demo_init false) as R. unfold demo_start in R.
  producer R (P_enter 0 0 Drop 1%nat (Single demo_item)).
  producer R (P_admitted 0 0 Drop 1%nat).
  producer R (P_load 0 0 Drop 1%nat).
  producer R (P_committed 0 0 Drop 1%nat).
  producer R (P_sealed 0 0 Drop 1%nat).
  producer R (P_cas_ok 0 0 Drop 1%nat).
  producer R (P_write 0 0 Drop 1%nat).
  producer R (P_publish 0 0 Drop 1%nat).
  producer R (P_published 0 0 Drop 1%nat).
  producer R (P_leave 0 0 Drop 1%nat).
  committer R C_scan.
  committer R C_published.
  committer R (C_unpublished 1 0).
  committer R C_copy; [|lia].
  committer R C_write.
  drain R D_start. drain R D_zero. drain R D_target.
  eexists _, _. split; [exact R|]. split; [done|]. split; [|split; [done|split; [done|]]].
  - right; right; left. apply C_store.
  - exists (mkAbs [demo_item] [0%nat] 0 0). split; [|done]. split; try done.
    + repeat constructor.
    + intros i. unfold c_written. simpl. intros Hi. assert (i = 0%nat) as -> by lia. by left.
Qed.

(** The claim of producer 1 in [demo_claimed] is the only access to its slot. *)
Lemma slot_mutual_exclusion_witness :
  exists st, access st (TProducer 1) 0 /\
    forall t s, access st t s -> slot_index (st_ring st) s = slot_index (st_ring st) 0 ->
      t = TProducer 1 /\ s = 0.
Proof.
  destruct demo_claimed as (st & R & Hp). exists st.
  assert (access st (TProducer 1) 0) as Ha by (by eapply acc_write). split; [done|].
  intros t s Hts Hi.
  exact (slot_mutual_exclusion 0 0 0 (zeros 32) (zeros 32) Drop st t s (TProducer 1) 0 R Hts Ha Hi).
Defined.

(** In the run of [demo_drained] the file is the log's only record. *)
Lemma committed_file_is_log_prefix_witness :
  exists st, length (c_file (st_committer st)) = 1%nat /\
    exists ws k, holds (views 0 0 (zeros 32) (rhash (st_ring st)) (zeros 32) 0 (st_log st)) ws
      (c_file (st_committer st)) /\ first_seen ws = seq 0 k /\
      committed_cursor (st_ring st) <= 0 + Z.of_nat k <= 1.
Proof.
  destruct demo_drained as (st & st' & R & _ & _ & Hp & Hl & _). exists st. split; [done|].
  destruct (committed_file_is_log_prefix 0 0 0 (zeros 32) (zeros 32) Drop st R) as [Hf _].
  by rewrite Hp in Hf.
Defined.

(** In the next step the abstract log commits its only position. *)
Lemma pipeline_refines_log_witness :
  exists a a', a_committed a = 0%nat /\ a_committed a' = 1%nat /\ abs_step a a'.
Proof.
  destruct demo_drained as (st & st' & R & _ & Hst & _ & _ & a & Ha & H0 & H1).
  exists a.
  destruct (proj2 (pipeline_refines_log 0 0 0 (zeros 32) (zeros 32) Drop) st st' a R Ha Hst)
    as (a' & Hs & Ha').
  exists a'. split; [done|]. split; [|done]. pose proof (sim_committed _ _ _ _ _ _ _ Ha'). lia.
Defined.

Lemma drain_target_final_witness :
  exists st, drain_target (st_shutdown st) = 1 /\ producer_cursor (st_ring st) = 1.
Proof.
  destruct demo_drained as (st & st' & R & Hd & Hs & Hp & _). exists st. rewrite <- Hp.
  destruct (drain_target_final 0 0 0 (zeros 32) (zeros 32) Drop st st' R Hd Hs) as [Ht _].
  by rewrite Ht.
Defined.

(** A stale cursor makes the claim report a full ring.  The comment in
    [Ring::claim] says that the watermark never exceeds the loaded sequence;
    when other threads claim, publish and commit between the two loads it does,
    the wrapped difference passes for a full ring, and an append under the
    [Drop] policy is refused with [QueueFull] although the ring is empty. *)
Theorem stale_claim_reports_queue_full :
  exists st q seq wm,
    reachable 0 0 0 (zeros 32) (zeros 32) Drop st /\
    st_prods st !! 0%nat = Some (PWatermark q seq wm) /\ seq < wm /\
    committed_cursor (st_ring st) = producer_cursor (st_ring st) /\
    full q (rsize (st_ring st)) seq wm = true.
Proof.
  pose proof (demo_init false) as R. unfold demo_start in R.
  producer R (P_enter 0 0 Drop 0%nat (Single demo_item)).
  producer R (P_admitted 0 0 Drop 0%nat).
  producer R (P_load 0 0 Drop 0%nat).
  producer R (P_enter 0 0 Drop 1%nat (Single demo_item)).
  producer R (P_admitted 0 0 Drop 1%nat).
  producer R (P_load 0 0 Drop 1%nat).
  producer R (P_committed 0 0 Drop 1%nat).
  producer R (P_sealed 0 0 Drop 1%nat).
  producer R (P_cas_ok 0 0 Drop 1%nat).
  producer R (P_write 0 0 Drop 1%nat).
  producer R (P_publish 0 0 Drop 1%nat).
  committer R C_scan.
  committer R C_published.
  committer R (C_unpublished 1 0).
  committer R C_copy; [|lia].
  committer R C_write.
  committer R C_store.
  producer R (P_committed 0 0 Drop 0%nat).
  producer R (P_sealed 0 0 Drop 0%nat).
  eexists _, _, _, _. split; [exact R|]. split; [reflexivity|].
  split; [reflexivity|]. split; reflexivity.
Qed.
End demo.
