(* ===== verification/KeyRing.v ===== *)
(** * Encryption keys and the hash-chain key ([KeyRing], [key_id_from_bytes],
      [derive_hash_init] and [xor32] of [logdb/src/lib.rs]; [resolve_chain_key]
      and [mask_chain_key] of [logdb/src/recovery.rs] build on them) *)
From stdpp Require Import base list numbers.
From coqutil Require Import Byte.
From Stdlib Require Import ZArith Lia.
From S2P Require Import Prelude Externals.
Open Scope Z_scope.

(** [decrypt_keys] starts with the active key. *)
Record KeyRing := mkKeyRing {
  kr_active : bytes;
  kr_active_id : Z;
  decrypt_keys : list (Z * bytes);
}.

(** One round of 128-bit FNV-1a. *)
Definition FNV_OFFSET : Z := 0x6c62272e07bb014262b821756295c58d.
Definition FNV_PRIME : Z := 0x0000000001000000000000000000013b.

Definition fnv_step (h : Z) (b : byte) : Z := u128 (Z.lxor h (byte.unsigned b) * FNV_PRIME).

Definition key_id_from_bytes (b : bytes) : Z :=
  let h := foldl fnv_step FNV_OFFSET b in
  if h =? 0 then 1 else h.

Definition kr_single (key : bytes) : KeyRing :=
  let id := key_id_from_bytes key in mkKeyRing key id [(id, key)].

Definition kr_new (active : bytes) (prior : list bytes) : KeyRing :=
  let active_id := key_id_from_bytes active in
  mkKeyRing active active_id
    ((active_id, active) :: map (fun k => (key_id_from_bytes k, k)) prior).

Definition kr_with_ids (active_id : Z) (active : bytes) (prior : list (Z * bytes)) : KeyRing :=
  mkKeyRing active active_id ((active_id, active) :: prior).

(** [decrypt_keys.iter().find(|(kid, _)| *kid == id)]. *)
Definition key_for_id (kr : KeyRing) (id : Z) : option bytes :=
  snd <$> List.find (fun k => k.1 =? id) (decrypt_keys kr).

(** [b"logdb-hash-chain-init-v1"]. *)
Definition HASH_CHAIN_INIT : bytes :=
  map byte.of_Z [108; 111; 103; 100; 98; 45; 104; 97; 115; 104; 45; 99; 104; 97; 105; 110;
                 45; 105; 110; 105; 116; 45; 118; 49].

Definition derive_hash_init `{Externals} (key : bytes) : bytes := blake3_keyed key HASH_CHAIN_INIT.

Definition byte_xor (a b : byte) : byte := byte.of_Z (Z.lxor (byte.unsigned a) (byte.unsigned b)).

(** The loop over 32 indices. *)
Definition xor32 (a b : bytes) : bytes := zip_with byte_xor a b.

(** ** Lemmas *)

Lemma byte_xor_cancel a b : byte_xor (byte_xor a b) b = a.
Proof.
  unfold byte_xor. pose proof (byte.unsigned_range a). pose proof (byte.unsigned_range b).
  rewrite byte.unsigned_of_Z. unfold byte.wrap.
  assert (Z.lxor (byte.unsigned a) (byte.unsigned b) mod 2 ^ 8 =
    Z.lxor (byte.unsigned a) (byte.unsigned b)) as ->.
  { apply Z.mod_small. split; [by apply Z.lxor_nonneg; lia|].
    destruct (decide (Z.lxor (byte.unsigned a) (byte.unsigned b) = 0)) as [->|Hne]; [lia|].
    apply Z.log2_lt_pow2; [pose proof (proj2 (Z.lxor_nonneg (byte.unsigned a) (byte.unsigned b))); lia|].
    eapply Z.le_lt_trans; [apply Z.log2_lxor; lia|].
    apply Z.max_lub_lt; (destruct (decide (0 < byte.unsigned a)), (decide (0 < byte.unsigned b))); 
      first [apply Z.log2_lt_pow2; lia
            |replace (byte.unsigned a) with 0 by lia; done|replace (byte.unsigned b) with 0 by lia; done]. }
  rewrite Z.lxor_assoc, Z.lxor_nilpotent, Z.lxor_0_r. apply byte.of_Z_unsigned.
Qed.

(** Masking twice with the same bytes is the identity. *)
Lemma xor32_cancel a b : length a = length b -> xor32 (xor32 a b) b = a.
Proof.
  revert b. induction a as [|x a IH]; intros [|y b] Hl; simpl in *; try done.
  f_equal; [apply byte_xor_cancel|]. apply IH. lia.
Qed.

Lemma length_xor32 a b : length a = length b -> length (xor32 a b) = length a.
Proof. intros. unfold xor32. rewrite length_zip_with. lia. Qed.

(** A derived id is never the "absent" value 0 of the segment header, and fits
    its 128-bit field. *)
Lemma key_id_range b : 0 < key_id_from_bytes b < 2 ^ 128.
Proof.
  unfold key_id_from_bytes. assert (in_range 128 (foldl fnv_step FNV_OFFSET b)) as [Hl Hu].
  { destruct b as [|x b] using rev_ind; [by vm_compute|].
    rewrite foldl_app. simpl. unfold fnv_step at 1. apply wrap_range. lia. }
  destruct (Z.eqb_spec (foldl fnv_step FNV_OFFSET b) 0); [lia|]. lia.
Qed.

Lemma key_for_active kr k :
  decrypt_keys kr = (kr_active_id kr, kr_active kr) :: k ->
  key_for_id kr (kr_active_id kr) = Some (kr_active kr).
Proof. intros He. unfold key_for_id. rewrite He. simpl. by rewrite Z.eqb_refl. Qed.
