(* ===== verification/FileSys.v ===== *)
(** * The data directory of one shard

    What the storage layer uses of [std::fs] and of [logdb/src/platform.rs]:
    segment files [segment-<id>.log] and index files [segment-<id>.idx] keyed
    by their id, what of them is on stable storage, and a script of I/O faults.
    Every call consumes one entry of the script; a fault makes the call fail,
    and a failing write may leave the first bytes of its data behind. *)
From stdpp Require Import base gmap list numbers.
From coqutil Require Import Byte.
From Stdlib Require Import ZArith Lia.
From S2P Require Import Prelude Config.
Open Scope Z_scope.

(** ** Fallible stateful computations *)

(** The state survives an error: what a Rust method did to [&mut self] and to
    the disk before it returned [Err] stays done. *)
Definition M (S E A : Type) : Type := S -> result E A * S.

#[global] Instance M_ret S E : MRet (M S E) := fun A a s => (Ok a, s).
#[global] Instance M_bind S E : MBind (M S E) :=
  fun A B f m s => match m s with (Ok a, s) => f a s | (Err e, s) => (Err e, s) end.

Definition throw {S E A} (e : E) : M S E A := fun s => (Err e, s).
Definition get {S E} : M S E S := fun s => (Ok s, s).
Definition modify {S E} (f : S -> S) : M S E unit := fun s => (Ok tt, f s).

(** [let _ = m;]: the result is dropped. *)
Definition ignore {S E A} (m : M S E A) : M S E unit := fun s => (Ok tt, (m s).2).

(** ** The directory *)

Record World := mkWorld {
  files : gmap Z bytes;    (** contents as the page cache has them *)
  synced : gmap Z bytes;   (** contents at the last [fdatasync] *)
  linked : gset Z;         (** ids whose directory entry is synced *)
  idxs : gmap Z bytes;     (** index files *)
  ages : gmap Z Z;         (** time since the last modification *)
  faults : list (option (IoError * Z));
  nonces : list bytes;     (** what [getrandom] will return *)
}.

Definition set_files (f : gmap Z bytes) (w : World) : World :=
  mkWorld f (synced w) (linked w) (idxs w) (ages w) (faults w) (nonces w).
Definition set_synced (s : gmap Z bytes) (w : World) : World :=
  mkWorld (files w) s (linked w) (idxs w) (ages w) (faults w) (nonces w).
Definition set_linked (l : gset Z) (w : World) : World :=
  mkWorld (files w) (synced w) l (idxs w) (ages w) (faults w) (nonces w).
Definition set_idxs (i : gmap Z bytes) (w : World) : World :=
  mkWorld (files w) (synced w) (linked w) i (ages w) (faults w) (nonces w).
Definition set_faults (f : list (option (IoError * Z))) (w : World) : World :=
  mkWorld (files w) (synced w) (linked w) (idxs w) (ages w) f (nonces w).
Definition set_nonces (n : list bytes) (w : World) : World :=
  mkWorld (files w) (synced w) (linked w) (idxs w) (ages w) (faults w) n.

(** One system call: [partial n] is its effect when it fails after [n] bytes. *)
Definition syscall {A} (partial : Z -> World -> World) (ok : M World IoError A) : M World IoError A :=
  fun w =>
    let f := default None (head (faults w)) in
    let w := set_faults (tail (faults w)) w in
    match f with
    | Some (e, n) => (Err e, partial n w)
    | None => ok w
    end.

(** A positional write, extending the file with zeros if it starts past the
    end. *)
Definition file_write (off : Z) (data f : bytes) : bytes :=
  take (Z.to_nat off) (f ++ zeros (off - blen f)) ++ data ++ drop (Z.to_nat off + length data) f.

Definition write_file (id off : Z) (data : bytes) (w : World) : World :=
  match files w !! id with
  | Some f => set_files (<[id := file_write off data f]> (files w)) w
  | None => w
  end.

(** [OpenOptions::new().create_new(true)]. *)
Definition fs_create_new (id : Z) : M World IoError unit :=
  syscall (fun _ w => w) (fun w =>
    match files w !! id with
    | Some _ => (Err OtherIo, w)
    | None => (Ok tt, set_files (<[id := []]> (files w)) w)
    end).

(** [seek] and [write_all], or a [pwrite] loop. *)
Definition fs_write (id off : Z) (data : bytes) : M World IoError unit :=
  syscall (fun n => write_file id off (take (Z.to_nat n) data))
    (fun w => (Ok tt, write_file id off data w)).

(** [seek] and [read_exact]. *)
Definition fs_read (id off n : Z) : M World IoError bytes :=
  syscall (fun _ w => w) (fun w =>
    let f := default [] (files w !! id) in
    if off + n <=? blen f then (Ok (slice f off (off + n)), w) else (Err OtherIo, w)).

(** [platform::fdatasync] on an open file. *)
Definition fs_fdatasync (id : Z) : M World IoError unit :=
  syscall (fun _ w => w) (fun w =>
    (Ok tt, match files w !! id with
            | Some f => set_synced (<[id := f]> (synced w)) w
            | None => w
            end)).

(** [OpenOptions::new().write(true).open(path)] and [fdatasync]. *)
Definition fsync_path (id : Z) : M World IoError unit :=
  fun w => match files w !! id with
           | Some _ => fs_fdatasync id w
           | None => (Err OtherIo, w)
           end.

(** [platform::sync_dir]. *)
Definition fs_sync_dir : M World IoError unit :=
  syscall (fun _ w => w) (fun w => (Ok tt, set_linked (dom (files w)) w)).

(** [fs::remove_file]. *)
Definition fs_remove (id : Z) : M World IoError unit :=
  syscall (fun _ w => w) (fun w =>
    match files w !! id with
    | Some _ => (Ok tt, set_files (delete id (files w)) w)
    | None => (Err OtherIo, w)
    end).

(** [fs::metadata(path).map(|m| m.len())]. *)
Definition fs_len (w : World) (id : Z) : option Z := (fun f => blen f) <$> files w !! id.

(** [fs::write] of an index file: truncates, then writes. *)
Definition fs_write_idx (id : Z) (data : bytes) : M World IoError unit :=
  syscall (fun n w => set_idxs (<[id := take (Z.to_nat n) data]> (idxs w)) w)
    (fun w => (Ok tt, set_idxs (<[id := data]> (idxs w)) w)).

(** [getrandom::getrandom] into a 12-byte buffer. *)
Definition fs_nonce : M World IoError bytes :=
  syscall (fun _ w => w) (fun w =>
    (Ok (default (zeros 12) (head (nonces w))), set_nonces (tail (nonces w)) w)).

(** ** Lemmas *)

(** A write at the end of the file appends. *)
Lemma file_write_end data f : file_write (blen f) data f = f ++ data.
Proof.
  unfold file_write. rewrite Z.sub_diag. change (zeros 0) with (@nil byte).
  rewrite app_nil_r, Nat2Z.id, take_ge, drop_ge by lia. by rewrite app_nil_r.
Qed.

(** A write at [off] keeps what is before it and replaces what follows. *)
Lemma file_write_over off data pre old :
  off = blen pre -> file_write off data (pre ++ old) = pre ++ data ++ drop (length data) old.
Proof.
  intros ->. unfold file_write. rewrite Nat2Z.id.
  rewrite <- (app_assoc pre), take_app_length, drop_app_ge by lia. do 3 f_equal. lia.
Qed.

(** Without pending faults a call behaves as its success case. *)
Lemma syscall_ok {A} p (ok : M World IoError A) w : faults w = [] -> syscall p ok w = ok w.
Proof.
  intros Hf. unfold syscall. rewrite Hf. simpl. f_equal. destruct w. simpl in *. by subst.
Qed.

Lemma fs_write_ok id off data f w :
  faults w = [] -> files w !! id = Some f ->
  fs_write id off data w = (Ok tt, set_files (<[id := file_write off data f]> (files w)) w).
Proof. intros Hf Hi. unfold fs_write. rewrite syscall_ok by done. unfold write_file. by rewrite Hi. Qed.

Lemma fs_create_new_ok id w :
  faults w = [] -> files w !! id = None ->
  fs_create_new id w = (Ok tt, set_files (<[id := []]> (files w)) w).
Proof. intros Hf Hi. unfold fs_create_new. rewrite syscall_ok by done. by rewrite Hi. Qed.

Lemma fs_fdatasync_ok id f w :
  faults w = [] -> files w !! id = Some f ->
  fs_fdatasync id w = (Ok tt, set_synced (<[id := f]> (synced w)) w).
Proof. intros Hf Hi. unfold fs_fdatasync. rewrite syscall_ok by done. by rewrite Hi. Qed.

(** [syscall] gets at most as far as its script allows: on success the script
    entry was empty and the effect is that of [ok]. *)
Lemma syscall_inv {A} p (ok : M World IoError A) w r w' :
  syscall p ok w = (r, w') ->
  (exists e n, r = Err e /\ w' = p n (set_faults (tail (faults w)) w)) \/
  ok (set_faults (tail (faults w)) w) = (r, w').
Proof.
  unfold syscall. destruct (default None (head (faults w))) as [[e n]|]; intros Hs; [|by right].
  simplify_eq. left. eauto.
Qed.

(** ** Effects of a computation, whatever faults occur *)

(** Every run of [c], successful or not, relates its initial and final state. *)
Definition follows {S E A} (R : S -> S -> Prop) (c : M S E A) : Prop := forall s, R s (c s).2.

Section follows.
Context {S E : Type} (R : S -> S -> Prop) `{!PreOrder R}.

Lemma follows_ret {A} (a : A) : follows R (mret a : M S E A).
Proof. intros s. simpl. reflexivity. Qed.

Lemma follows_throw {A} (e : E) : follows R (throw e : M S E A).
Proof. intros s. simpl. reflexivity. Qed.

Lemma follows_bind {A B} (f : A -> M S E B) (c : M S E A) :
  follows R c -> (forall a, follows R (f a)) -> follows R (mbind f c).
Proof.
  intros Hc Hf s. unfold mbind, M_bind. specialize (Hc s). destruct (c s) as [[a|e] s']; simpl in *;
    [|done]. transitivity s'; [done|apply Hf].
Qed.

Lemma follows_ignore {A} (c : M S E A) : follows R c -> follows R (ignore c).
Proof. intros Hc s. apply Hc. Qed.

Lemma follows_foldr {A} (f : A -> M S E unit) l (c : M S E unit) :
  (forall a, follows R (f a)) -> follows R c -> follows R (foldr (fun a k => f a ;; k) c l).
Proof. intros Hf Hc. induction l; simpl; [done|]. by apply follows_bind. Qed.
End follows.

(** The directory changes only at the given ids, and nothing gets synced. *)
Record writes_only (P : Z -> Prop) (w w' : World) : Prop := {
  wo_files id : ~ P id -> files w' !! id = files w !! id;
  wo_synced : synced w' = synced w;
  wo_linked : linked w' = linked w;
  wo_dom id : is_Some (files w !! id) -> is_Some (files w' !! id);
}.

#[global] Instance writes_only_preorder P : PreOrder (writes_only P).
Proof.
  split; [by split|]. intros w1 w2 w3 [F1 S1 L1 D1] [F2 S2 L2 D2].
  split; [|congruence..|auto]. intros id Hid. by rewrite F2, F1.
Qed.

Lemma follows_syscall {A} R p (ok : M World IoError A) :
  (forall w f, R w (ok (set_faults f w)).2) -> (forall n w f, R w (p n (set_faults f w))) ->
  follows R (syscall p ok).
Proof.
  intros Hok Hp w. unfold syscall. destruct (default None _) as [[e n]|]; simpl; auto.
Qed.

Lemma writes_only_write (P : Z -> Prop) id off data f w :
  P id -> writes_only P w (write_file id off data (set_faults f w)).
Proof.
  intros Hid. unfold write_file. simpl. destruct (files w !! id) as [x|] eqn:Hx; [|by split].
  split; simpl; try done.
  - intros id' Hn. rewrite lookup_insert_ne; [done|]. by intros ->.
  - intros id' [y Hy]. destruct (decide (id = id')) as [->|].
    + rewrite lookup_insert_eq. by eexists.
    + rewrite lookup_insert_ne by done. by eexists.
Qed.

Lemma follows_write (P : Z -> Prop) id off data :
  P id -> follows (writes_only P) (fs_write id off data).
Proof. intros Hid. apply follows_syscall; intros; by apply writes_only_write. Qed.

Lemma follows_create_new (P : Z -> Prop) id : P id -> follows (writes_only P) (fs_create_new id).
Proof.
  intros Hid. apply follows_syscall; [|by split]. intros w f. simpl.
  destruct (files w !! id) as [x|] eqn:Hx; simpl; [by split|]. split; simpl; try done.
  - intros id' Hn. rewrite lookup_insert_ne; [done|]. by intros ->.
  - intros id' [y Hy]. destruct (decide (id = id')) as [->|]; [congruence|].
    rewrite lookup_insert_ne by done. by eexists.
Qed.

Lemma follows_read (P : Z -> Prop) id off n : follows (writes_only P) (fs_read id off n).
Proof. apply follows_syscall; [|by split]. intros w f. simpl. case_match; by split. Qed.

Lemma follows_write_idx (P : Z -> Prop) id data : follows (writes_only P) (fs_write_idx id data).
Proof. apply follows_syscall; by split. Qed.

Lemma follows_nonce (P : Z -> Prop) : follows (writes_only P) fs_nonce.
Proof. apply follows_syscall; by split. Qed.

(** ** Invariants of a computation *)

(** [c] keeps the invariant, successful or not, and its results satisfy [Q]. *)
Definition triple {S E A} (I : S -> Prop) (c : M S E A) (Q : A -> Prop) : Prop :=
  forall s, I s -> I (c s).2 /\ forall a, (c s).1 = Ok a -> Q a.

Section triple.
Context {S E : Type} (I : S -> Prop).

Lemma triple_ret {A} (a : A) (Q : A -> Prop) : Q a -> triple I (mret a : M S E A) Q.
Proof. intros HQ s Hs. split; [done|]. simpl. by intros b [= <-]. Qed.

Lemma triple_throw {A} (e : E) (Q : A -> Prop) : triple I (throw e : M S E A) Q.
Proof. intros s Hs. split; done. Qed.

Lemma triple_bind {A B} (Q : A -> Prop) (Q' : B -> Prop) (f : A -> M S E B) (c : M S E A) :
  triple I c Q -> (forall a, Q a -> triple I (f a) Q') -> triple I (mbind f c) Q'.
Proof.
  intros Hc Hf s Hs. unfold mbind, M_bind. destruct (Hc s Hs) as [Hs' HQ].
  destruct (c s) as [[a|e] s']; simpl in *; [|done]. apply Hf; auto.
Qed.

Lemma triple_ignore {A} (c : M S E A) Q : triple I c Q -> triple I (ignore c) (fun _ => True).
Proof. intros Hc s Hs. destruct (Hc s Hs). done. Qed.

(** The pointwise form, for a continuation that depends on the state. *)
Lemma triple_bind_at {A B} (f : A -> M S E B) (c : M S E A) s :
  I (c s).2 -> (forall a, (c s).1 = Ok a -> I (f a (c s).2).2) -> I (mbind f c s).2.
Proof. unfold mbind, M_bind. destruct (c s) as [[a|e] s']; simpl; auto. Qed.

Lemma triple_state {A} (c : M S E A) Q : triple I c Q -> forall s, I s -> I (c s).2.
Proof. intros Hc s Hs. by destruct (Hc s Hs). Qed.

Lemma triple_mono {A} (c : M S E A) (Q Q' : A -> Prop) :
  triple I c Q -> (forall a, Q a -> Q' a) -> triple I c Q'.
Proof. intros Hc HQ s Hs. destruct (Hc s Hs). split; auto. Qed.
End triple.

(** A write inside a prefix of the file. *)
Lemma file_write_prefix off data hd rest :
  0 <= off -> off + blen data <= blen hd ->
  file_write off data (hd ++ rest) = copy_at off data hd ++ rest.
Proof.
  intros H0 Hl. unfold file_write. rewrite copy_at_in_bounds by done.
  rewrite <- !app_assoc. rewrite take_app_le by lia. rewrite drop_app_le by lia. done.
Qed.

Lemma fs_read_ok id off n f w :
  faults w = [] -> files w !! id = Some f -> off + n <= blen f ->
  fs_read id off n w = (Ok (slice f off (off + n)), w).
Proof.
  intros Hf Hi Hn. unfold fs_read. rewrite syscall_ok by done. rewrite Hi. simpl.
  by rewrite (proj2 (Z.leb_le _ _)).
Qed.
