(* ===== verification/Storage.v ===== *)
(** * Segment files ([logdb/src/storage/mod.rs])

    The [SegmentManager] of one shard: appending a batch of ring slots to the
    active segment, pre-allocating and rolling to the next one, syncing,
    retention and truncation.  A path is the id of its segment. *)
From stdpp Require Import base gmap list numbers sorting.
From coqutil Require Import Byte.
From Stdlib Require Import ZArith Lia.
From S2P Require Import Prelude Externals RustStd Format Index Shard Config Ring KeyRing FileSys.
Open Scope Z_scope.

(** [Panicked] stands for a panic of the source; [append_loop_ok] shows that
    appending never gets there. *)
Inductive SegmentError :=
| Full
| SegIo (e : IoError)
| Panicked.

Record ActiveSegment := mkActive {
  as_path : Z;
  as_offset : Z;
  as_base_sequence : Z;
  min_ts : Z;
  max_ts : Z;
  as_compressed : bool;
  decompressed_offset : Z;
  frame_number : Z;
}.

Record SegmentManager := mkManager {
  active : ActiveSegment;
  active_id : Z;
  sm_segment_size : Z;
  sm_last_hash : bytes;
  sm_hash_init : bytes;
  sm_hash_enabled : bool;
  sm_compressed : bool;
  encryption_keys : option KeyRing;
  sm_retention : RetentionPolicy;
  write_buf : bytes;
  active_index : option SparseIndex;
  active_index_count : Z;
  prepared_segment : option (Z * ActiveSegment);
  sm_shard_id : Z;
  sm_shard_bits : Z;
  pending_fsync : list Z;
}.

Definition set_active (a : ActiveSegment) (m : SegmentManager) : SegmentManager :=
  mkManager a (active_id m) (sm_segment_size m) (sm_last_hash m) (sm_hash_init m)
    (sm_hash_enabled m) (sm_compressed m) (encryption_keys m) (sm_retention m) (write_buf m)
    (active_index m) (active_index_count m) (prepared_segment m) (sm_shard_id m)
    (sm_shard_bits m) (pending_fsync m).
Definition set_active_id (i : Z) (m : SegmentManager) : SegmentManager :=
  mkManager (active m) i (sm_segment_size m) (sm_last_hash m) (sm_hash_init m)
    (sm_hash_enabled m) (sm_compressed m) (encryption_keys m) (sm_retention m) (write_buf m)
    (active_index m) (active_index_count m) (prepared_segment m) (sm_shard_id m)
    (sm_shard_bits m) (pending_fsync m).
Definition set_write_buf (b : bytes) (m : SegmentManager) : SegmentManager :=
  mkManager (active m) (active_id m) (sm_segment_size m) (sm_last_hash m) (sm_hash_init m)
    (sm_hash_enabled m) (sm_compressed m) (encryption_keys m) (sm_retention m) b
    (active_index m) (active_index_count m) (prepared_segment m) (sm_shard_id m)
    (sm_shard_bits m) (pending_fsync m).
Definition set_index (i : option SparseIndex) (n : Z) (m : SegmentManager) : SegmentManager :=
  mkManager (active m) (active_id m) (sm_segment_size m) (sm_last_hash m) (sm_hash_init m)
    (sm_hash_enabled m) (sm_compressed m) (encryption_keys m) (sm_retention m) (write_buf m)
    i n (prepared_segment m) (sm_shard_id m) (sm_shard_bits m) (pending_fsync m).
Definition set_prepared (p : option (Z * ActiveSegment)) (m : SegmentManager) : SegmentManager :=
  mkManager (active m) (active_id m) (sm_segment_size m) (sm_last_hash m) (sm_hash_init m)
    (sm_hash_enabled m) (sm_compressed m) (encryption_keys m) (sm_retention m) (write_buf m)
    (active_index m) (active_index_count m) p (sm_shard_id m) (sm_shard_bits m)
    (pending_fsync m).
Definition set_pending (l : list Z) (m : SegmentManager) : SegmentManager :=
  mkManager (active m) (active_id m) (sm_segment_size m) (sm_last_hash m) (sm_hash_init m)
    (sm_hash_enabled m) (sm_compressed m) (encryption_keys m) (sm_retention m) (write_buf m)
    (active_index m) (active_index_count m) (prepared_segment m) (sm_shard_id m)
    (sm_shard_bits m) l.

(** [set_shard]. *)
Definition set_shard (s b : Z) (m : SegmentManager) : SegmentManager :=
  mkManager (active m) (active_id m) (sm_segment_size m) (sm_last_hash m) (sm_hash_init m)
    (sm_hash_enabled m) (sm_compressed m) (encryption_keys m) (sm_retention m) (write_buf m)
    (active_index m) (active_index_count m) (prepared_segment m) s b (pending_fsync m).

(** [set_last_hash]. *)
Definition set_last_hash (h : bytes) (m : SegmentManager) : SegmentManager :=
  mkManager (active m) (active_id m) (sm_segment_size m) h (sm_hash_init m)
    (sm_hash_enabled m) (sm_compressed m) (encryption_keys m) (sm_retention m) (write_buf m)
    (active_index m) (active_index_count m) (prepared_segment m) (sm_shard_id m)
    (sm_shard_bits m) (pending_fsync m).

(** [set_index_stride]. *)
Definition set_index_stride (stride : Z) (m : SegmentManager) : SegmentManager :=
  match active_index m with
  | Some _ => set_index (Some (index_new stride)) (active_index_count m) m
  | None => m
  end.

(** ** Active segment *)

(** [ActiveSegment::has_room]. *)
Definition has_room (a : ActiveSegment) (additional max_size : Z) : bool :=
  as_offset a + additional <=? max_size.

(** [ActiveSegment::update_ts_range]. *)
Definition update_ts_range (ts : Z) (a : ActiveSegment) : ActiveSegment :=
  mkActive (as_path a) (as_offset a) (as_base_sequence a)
    (if ts <? min_ts a then ts else min_ts a) (if max_ts a <? ts then ts else max_ts a)
    (as_compressed a) (decompressed_offset a) (frame_number a).

Definition set_offset (o : Z) (a : ActiveSegment) : ActiveSegment :=
  mkActive (as_path a) o (as_base_sequence a) (min_ts a) (max_ts a) (as_compressed a)
    (decompressed_offset a) (frame_number a).

Definition set_frame (o d n : Z) (a : ActiveSegment) : ActiveSegment :=
  mkActive (as_path a) o (as_base_sequence a) (min_ts a) (max_ts a) (as_compressed a) d n.

(** A manager together with its directory. *)
Abbreviation SM := (M (SegmentManager * World) SegmentError).

Definition lift {A} (c : M World IoError A) : SM A :=
  fun s => let '(r, w) := c s.2 in (map_err SegIo r, (s.1, w)).

Definition get_mgr : SM SegmentManager := fun s => (Ok s.1, s).
Definition get_world : SM World := fun s => (Ok s.2, s).
Definition update (f : SegmentManager -> SegmentManager) : SM unit :=
  fun s => (Ok tt, (f s.1, s.2)).

Definition active_key (m : SegmentManager) : option bytes := kr_active <$> encryption_keys m.

(** Whether batches are framed. *)
Definition framed (m : SegmentManager) : bool :=
  as_compressed (active m) || bool_decide (is_Some (encryption_keys m)).

Definition fresh_index (compressed : bool) (key : option bytes) : option SparseIndex :=
  if compressed || bool_decide (is_Some key) then None else Some (index_new DEFAULT_STRIDE).

Section storage.
Context `{Externals}.

(** [fs::read_dir] lists the segment files in an order the system chooses. *)
Variable readdir : gmap Z bytes -> list Z.

(** [ActiveSegment::create]. *)
Definition active_create (id : Z) (header : SegmentHeader) (last_hash : bytes) (compressed : bool)
    : M World IoError ActiveSegment :=
  fs_create_new id ;;
  fs_write id 0 (serialize header last_hash) ;;
  mret (mkActive id SEGMENT_HEADER_SIZE (base_sequence header) U64_MAX 0 compressed 0 0).

(** [ActiveSegment::open_existing]. *)
Definition active_open_existing (id offset : Z) (header : SegmentHeader) : ActiveSegment :=
  mkActive id offset (base_sequence header) (min_timestamp_ns header) (max_timestamp_ns header)
    (has_flag (flags header) FLAG_COMPRESSED_ZSTD) 0 0.

(** [ActiveSegment::backfill_header_ts]. *)
Definition backfill_header_ts (a : ActiveSegment) : M World IoError unit :=
  fs_write (as_path a) 56 (to_le 8 (min_ts a)) ;;
  fs_write (as_path a) 64 (to_le 8 (max_ts a)) ;;
  crc_buf ← fs_read (as_path a) 0 HEADER_CRC_END;
  fs_write (as_path a) HEADER_CRC_END (to_le 4 (crc32c crc_buf)).

(** ** Appending *)

(** [encrypt_if_enabled]. *)
Definition encrypt_if_enabled (key : option bytes) (plaintext : bytes) : SM bytes :=
  match key with
  | None => mret plaintext
  | Some k =>
      nonce ← lift fs_nonce;
      match aes_encrypt k nonce plaintext with
      | Some ct => mret (nonce ++ ct)
      | None => throw (SegIo OtherIo)
      end
  end.

(** The sparse-index step of [append_batch] for a record at file offset
    [off]. *)
Definition index_record (view : ReadView) (off : Z) (m : SegmentManager) : SegmentManager :=
  match active_index m with
  | Some idx =>
      let idx := if should_index idx (active_index_count m)
                 then index_add idx (rv_record_id view) off (rv_timestamp_ns view) else idx in
      set_index (Some idx) (active_index_count m + 1) m
  | None => m
  end.

(** The record loop of [append_batch]: [n] slots from [seq] on, [pos] bytes
    buffered so far. *)
Fixpoint append_loop (n : nat) (ring : Ring) (start seq pos last_written : Z) (m : SegmentManager)
    : result SegmentError (Z * Z) * SegmentManager :=
  match n with
  | O => (Ok (pos, last_written), m)
  | S n =>
      let view := slot_read (slot ring seq) in
      let need := record_size (blen (rv_content view)) in
      if negb (has_room (active m) (pos + need) (sm_segment_size m)) then
        if pos =? 0 then (Err Full, m) else (Ok (pos, last_written), m)
      else
        let buf := if blen (write_buf m) <? pos + need
                   then write_buf m ++ zeros (pos + need - blen (write_buf m)) else write_buf m in
        let m := index_record view (start + pos) (set_write_buf buf m) in
        match serialize_record (drop (Z.to_nat pos) buf) (rv_record_id view) view with
        | None => (Err Panicked, m)
        | Some (tl, len) =>
            let m := set_write_buf (take (Z.to_nat pos) buf ++ tl) m in
            let m := set_active (update_ts_range (rv_timestamp_ns view) (active m)) m in
            append_loop n ring start (seq + 1) (pos + len) seq m
        end
  end.

(** Writing the buffered bytes, framed or raw. *)
Definition write_batch (start pos : Z) : SM unit :=
  m ← get_mgr;
  let raw := slice (write_buf m) 0 pos in
  let id := as_path (active m) in
  if framed m then
    payload ← (if as_compressed (active m)
               then match zstd_encode raw with
                    | Some c => encrypt_if_enabled (active_key m) c
                    | None => throw (SegIo OtherIo)
                    end
               else encrypt_if_enabled (active_key m) raw);
    lift (fs_write id start (write_frame_header (u32 (blen payload)) (u32 pos))) ;;
    lift (fs_write id (start + FRAME_HEADER_SIZE) payload) ;;
    update (fun m => set_active (set_frame (start + FRAME_HEADER_SIZE + blen payload)
                                   (decompressed_offset (active m) + pos)
                                   (u32 (frame_number (active m) + 1)) (active m)) m)
  else
    lift (fs_write id start raw) ;;
    update (fun m => set_active (set_offset (start + blen raw) (active m)) m).

(** The header of the segment after the active one. *)
Definition next_header (m : SegmentManager) (new_id base_sequence : Z) : SegmentHeader :=
  let flags := Z.lor (if sm_hash_enabled m then FLAG_HASH_ENABLED else 0) FLAG_NOT_FIRST in
  let flags := if sm_compressed m then Z.lor flags FLAG_COMPRESSED_ZSTD else flags in
  let flags := if encryption_keys m is Some _ then Z.lor flags FLAG_ENCRYPTED_AES256GCM else flags in
  {| format_version := FORMAT_VERSION; flags := flags; hash_algo := HASH_ALGO_BLAKE3;
     hash_init := sm_hash_init m; base_sequence := base_sequence; hdr_partition_id := 0;
     segment_id := new_id; min_timestamp_ns := U64_MAX; max_timestamp_ns := 0;
     prev_last_hash := sm_last_hash m; record_format := RECORD_FORMAT_V1;
     encryption_key_id := match encryption_keys m with Some kr => kr_active_id kr | None => 0 end |}.

(** [maybe_prepare_next]. *)
Definition maybe_prepare_next (next_local_seq : Z) : SM unit :=
  m ← get_mgr;
  match prepared_segment m with
  | Some _ => mret tt
  | None =>
      let utilization_pct := as_offset (active m) * 100 / sm_segment_size m in
      if utilization_pct <? 80 then mret tt
      else
        let new_id := active_id m + 1 in
        let base_sequence := encode_record_id (sm_shard_id m) next_local_seq (sm_shard_bits m) in
        let header := next_header m new_id base_sequence in
        seg ← lift (active_create new_id header (sm_last_hash m) (sm_compressed m));
        update (set_prepared (Some (new_id, seg)))
  end.

(** [append_batch]. *)
Definition append_batch (ring : Ring) (from to : Z) : SM Z :=
  m ← get_mgr;
  let start := as_offset (active m) in
  '(pos, last_written) ← (fun s =>
     let '(r, m) := append_loop (Z.to_nat (to + 1 - from)) ring start from 0 (u64 (from - 1)) s.1 in
     (r, (m, s.2)));
  (if 0 <? pos then write_batch start pos else mret tt) ;;
  maybe_prepare_next (u64 (last_written + 1)) ;;
  mret last_written.

(** ** Sync *)

(** [save_active_index]. *)
Definition save_active_index : SM unit :=
  m ← get_mgr;
  match active_index m with
  | Some idx =>
      if index_is_empty idx then mret tt
      else lift (fs_write_idx (as_path (active m)) (index_save idx))
  | None => mret tt
  end.

(** [drain_pending_fsyncs]: errors are dropped. *)
Definition drain_pending_fsyncs : SM unit :=
  m ← get_mgr;
  update (set_pending []) ;;
  foldr (fun id k => ignore (lift (fsync_path id)) ;; k) (mret tt) (pending_fsync m).

(** The loop of [sync_all]: the first failure ends it. *)
Definition sync_pending (ids : list Z) : SM unit :=
  foldr (fun id k => lift (fsync_path id) ;; k) (mret tt) ids.

(** [sync_all]. *)
Definition sync_all : SM unit :=
  m ← get_mgr;
  update (set_pending []) ;;
  sync_pending (pending_fsync m) ;;
  lift (fs_fdatasync (as_path (active m))).

(** [fdatasync]: the active segment only. *)
Definition fdatasync : SM unit :=
  m ← get_mgr; lift (fs_fdatasync (as_path (active m))).

(** ** Retention *)

(** [list_segment_files]. *)
Definition list_segment_files : SM (list Z) := w ← get_world; mret (readdir (files w)).

(** [read_segment_header_by_id]. *)
Definition read_segment_header (id : Z) : M World IoError SegmentHeader :=
  buf ← fs_read id 0 SEGMENT_HEADER_SIZE;
  match deserialize buf with
  | Ok h => mret h
  | Err _ => throw OtherIo
  end.

(** A failed call whose error becomes [None]. *)
Definition ok_lift {A} (c : M World IoError A) : SM (option A) :=
  fun s => let '(r, w) := c s.2 in (Ok (ok_of r), (s.1, w)).

(** [truncate_before_checkpoint]. *)
Fixpoint truncate_loop (active_id checkpoint : Z) (seg_files : list Z) : SM unit :=
  match seg_files with
  | [] => mret tt
  | id :: seg_files =>
      if active_id <=? id then truncate_loop active_id checkpoint seg_files
      else
        next ← ok_lift (read_segment_header (id + 1));
        match next with
        | Some next_header =>
            if base_sequence next_header <=? checkpoint then
              ok_lift (fs_remove id) ;; truncate_loop active_id checkpoint seg_files
            else truncate_loop active_id checkpoint seg_files
        | None => truncate_loop active_id checkpoint seg_files
        end
  end.

Definition truncate_before_checkpoint (checkpoint : Z) : SM unit :=
  m ← get_mgr;
  seg_files ← list_segment_files;
  truncate_loop (active_id m) checkpoint seg_files.

(** [evict_until_under]. *)
Definition total_size (w : World) (ids : list Z) : Z :=
  foldr (fun id acc => default 0 (fs_len w id) + acc) 0 ids.

Fixpoint evict_size_loop (active_id max_bytes total : Z) (ids : list Z) : SM unit :=
  match ids with
  | [] => mret tt
  | id :: ids =>
      if active_id <=? id then mret tt
      else if total <=? max_bytes then mret tt
      else
        w ← get_world;
        let file_size := default 0 (fs_len w id) in
        lift (fs_remove id) ;;
        evict_size_loop active_id max_bytes (sat_sub total file_size) ids
  end.

Definition evict_until_under (max_bytes : Z) : SM unit :=
  m ← get_mgr;
  ids ← list_segment_files;
  w ← get_world;
  let ids := sort_by_key (fun id => id) ids in
  evict_size_loop (active_id m) max_bytes (total_size w ids) ids.

(** [evict_older_than]. *)
Fixpoint evict_age_loop (active_id max_age : Z) (ids : list Z) : SM unit :=
  match ids with
  | [] => mret tt
  | id :: ids =>
      if active_id <=? id then mret tt
      else
        w ← get_world;
        match files w !! id, ages w !! id with
        | Some _, Some elapsed =>
            if max_age <=? elapsed then
              lift (fs_remove id) ;; evict_age_loop active_id max_age ids
            else evict_age_loop active_id max_age ids
        | _, _ => evict_age_loop active_id max_age ids
        end
  end.

Definition evict_older_than (max_age : Z) : SM unit :=
  m ← get_mgr; ids ← list_segment_files; evict_age_loop (active_id m) max_age ids.

(** [apply_retention]. *)
Definition apply_retention : SM unit :=
  m ← get_mgr;
  match sm_retention m with
  | KeepAll => mret tt
  | MaxBytes limit => evict_until_under limit
  | MaxAge dur => evict_older_than dur
  end.

(** ** Rolling *)

(** The swap of [roll]: pre-allocated segment or a new one. *)
Definition swap_active (next_base_sequence : Z) : SM unit :=
  m ← get_mgr;
  match prepared_segment m with
  | Some (new_id, new_seg) =>
      update (set_prepared None) ;;
      update (set_active new_seg) ;;
      update (set_active_id new_id) ;;
      update (fun m' => set_pending (pending_fsync m' ++ [as_path (active m)]) m')
  | None =>
      let new_id := active_id m + 1 in
      let header := next_header m new_id next_base_sequence in
      new_active ← lift (active_create new_id header (sm_last_hash m) (sm_compressed m));
      lift (fs_fdatasync new_id) ;;
      lift fs_sync_dir ;;
      update (set_active new_active) ;;
      update (set_active_id new_id) ;;
      update (fun m' => set_pending (pending_fsync m' ++ [as_path (active m)]) m')
  end.

(** [roll]. *)
Definition roll (next_base_sequence checkpoint : Z) : SM unit :=
  m ← get_mgr;
  lift (backfill_header_ts (active m)) ;;
  ignore save_active_index ;;
  swap_active next_base_sequence ;;
  update (fun m => set_index (fresh_index (sm_compressed m) (active_key m)) 0 m) ;;
  apply_retention ;;
  if 0 <? checkpoint then truncate_before_checkpoint checkpoint else mret tt.

(** ** Construction *)

(** [SegmentManager::create]. *)
Definition create (segment_size : Z) (hash_enabled compressed : bool) (keys : option KeyRing)
    (hash_init : bytes) (retention : RetentionPolicy) (base_sequence : Z)
    : M World IoError SegmentManager :=
  let segment_id := 1 in
  let flags := if hash_enabled then FLAG_HASH_ENABLED else 0 in
  let flags := if compressed then Z.lor flags FLAG_COMPRESSED_ZSTD else flags in
  let flags := if keys is Some _ then Z.lor flags FLAG_ENCRYPTED_AES256GCM else flags in
  let header := first_segment hash_init base_sequence 0 segment_id hash_enabled HASH_ALGO_BLAKE3 in
  let header := mkHeader (format_version header) flags (hash_algo header) (Format.hash_init header)
    (Format.base_sequence header) (hdr_partition_id header) (Format.segment_id header)
    (min_timestamp_ns header) (max_timestamp_ns header) (prev_last_hash header)
    (record_format header) (match keys with Some kr => kr_active_id kr | None => 0 end) in
  active ← active_create segment_id header (zeros 32) compressed;
  fs_sync_dir ;;
  mret (mkManager active segment_id segment_size (zeros 32) hash_init hash_enabled compressed keys
          retention [] (fresh_index compressed (kr_active <$> keys)) 0 None 0 0 []).

(** [SegmentManager::open_existing]. *)
Definition open_existing (active_id active_offset : Z) (header : SegmentHeader) (segment_size : Z)
    (last_hash hash_init : bytes) (hash_enabled : bool) (keys : option KeyRing)
    (retention : RetentionPolicy) : SegmentManager :=
  let active := active_open_existing active_id active_offset header in
  let compressed := as_compressed active in
  mkManager active active_id segment_size last_hash hash_init hash_enabled compressed keys
    retention [] (fresh_index compressed (kr_active <$> keys)) 0 None 0 0 [].

(** ** Appending: what a batch is *)

(** The records in the [n] slots from [seq] on. *)
Fixpoint slot_views (n : nat) (ring : Ring) (seq : Z) : list ReadView :=
  match n with
  | O => []
  | S n => slot_read (slot ring seq) :: slot_views n ring (seq + 1)
  end.

Definition view_size (v : ReadView) : Z := record_size (blen (rv_content v)).

(** The longest prefix of the records that fits in [room] bytes. *)
Fixpoint fit (room : Z) (vs : list ReadView) : list ReadView :=
  match vs with
  | [] => []
  | v :: vs => if view_size v <=? room then v :: fit (room - view_size v) vs else []
  end.

Definition encoded (vs : list ReadView) : bytes :=
  flat_map (fun v => record_bytes (rv_record_id v) v) vs.

Definition ts_range (vs : list ReadView) (a : ActiveSegment) : ActiveSegment :=
  foldl (fun a v => update_ts_range (rv_timestamp_ns v) a) a vs.

Fixpoint index_views (off : Z) (vs : list ReadView) (m : SegmentManager) : SegmentManager :=
  match vs with
  | [] => m
  | v :: vs => index_views (off + view_size v) vs (index_record v off m)
  end.

Definition hashes_ok (vs : list ReadView) : Prop :=
  Forall (fun v => length (rv_hash_n v) = 32%nat) vs.

Lemma fit_prefix room vs : fit room vs `prefix_of` vs.
Proof.
  revert room. induction vs as [|v vs IH]; intros room; simpl; [done|].
  case_match; [by apply prefix_cons|apply prefix_nil].
Qed.

Lemma blen_encoded vs :
  hashes_ok vs -> blen (encoded vs) = foldr (fun v acc => view_size v + acc) 0 vs.
Proof.
  induction 1 as [|v vs Hv _ IH]; [done|]. unfold encoded in *. cbn [flat_map foldr].
  rewrite length_app, Nat2Z.inj_add, IH, blen_record_bytes by done. done.
Qed.

Lemma hashes_ok_fit room vs : hashes_ok vs -> hashes_ok (fit room vs).
Proof.
  destruct (fit_prefix room vs) as [k Hk]. unfold hashes_ok. rewrite Hk at 1.
  by intros [? _]%Forall_app.
Qed.

Lemma fit_room room vs : 0 <= room -> hashes_ok vs -> blen (encoded (fit room vs)) <= room.
Proof.
  intros H0 Hh. rewrite blen_encoded.
  2:{ by apply hashes_ok_fit. }
  revert room H0. induction Hh as [|v vs Hv _ IH]; intros room H0; simpl; [done|].
  destruct (Z.leb_spec (view_size v) room); simpl; [|lia].
  specialize (IH (room - view_size v)). lia.
Qed.

Lemma ts_range_offset vs a : as_offset (ts_range vs a) = as_offset a.
Proof. revert a. induction vs as [|v vs IH]; intros a; [done|]. unfold ts_range in *. simpl. by rewrite IH. Qed.

Lemma index_record_comm v off m a b :
  index_record v off (set_active a (set_write_buf b m)) =
  set_active a (set_write_buf b (index_record v off m)).
Proof.
  destruct m as [????????? ? idx ?????]. unfold index_record. simpl. by destruct idx.
Qed.

Lemma index_record_size v off m : sm_segment_size (index_record v off m) = sm_segment_size m.
Proof. unfold index_record. by destruct (active_index m). Qed.

Lemma index_views_comm vs off m a b :
  index_views off vs (set_active a (set_write_buf b m)) =
  set_active a (set_write_buf b (index_views off vs m)).
Proof.
  revert off m. induction vs as [|v vs IH]; intros off m; simpl; [done|].
  by rewrite index_record_comm, IH.
Qed.

(** The record loop buffers exactly the longest prefix of the batch that fits
    in the segment, after whatever the reused buffer held; it refuses with
    [Full] only when not even the first record fits, and never panics. *)
Lemma append_loop_ok n ring start seq pos last m :
  let vs := slot_views n ring seq in
  let fs := fit (sm_segment_size m - as_offset (active m) - pos) vs in
  hashes_ok vs -> 0 <= pos <= blen (write_buf m) ->
  if bool_decide (pos = 0 /\ fs = [] /\ vs <> []) then
    append_loop n ring start seq pos last m = (Err Full, m)
  else
    exists b, append_loop n ring start seq pos last m =
      (Ok (pos + blen (encoded fs), if decide (fs = []) then last else seq + Z.of_nat (length fs) - 1),
       set_active (ts_range fs (active m)) (set_write_buf b (index_views (start + pos) fs m))) /\
      pos + blen (encoded fs) <= blen b /\
      slice b 0 (pos + blen (encoded fs)) = slice (write_buf m) 0 pos ++ encoded fs.
Proof.
  revert seq pos last m. induction n as [|n IH]; intros seq pos last m vs fs Hh Hp; subst vs; cbn [slot_views append_loop] in *.
  - subst fs. rewrite bool_decide_false by (by intros (_ & _ & [])). simpl.
    exists (write_buf m). rewrite Z.add_0_r. split; [by destruct m|]. split; [lia|].
    by rewrite app_nil_r.
  - inversion Hh as [|?? Hv Hvs]; simplify_eq.
    set (v := slot_read (slot ring seq)) in *. subst fs. cbn [fit].
    unfold has_room. fold (view_size v).
    destruct (Z.leb_spec (as_offset (active m) + (pos + view_size v)) (sm_segment_size m)) as [Hroom|Hroom].
    2:{ simpl. rewrite (proj2 (Z.leb_gt _ _)) by lia. destruct (Z.eqb_spec pos 0) as [->|Hne].
        - by rewrite bool_decide_true.
        - rewrite bool_decide_false by tauto. simpl. exists (write_buf m). rewrite Z.add_0_r.
          split; [by destruct m|]. split; [lia|]. by rewrite app_nil_r. }
    cbn [negb]. rewrite (proj2 (Z.leb_le (view_size v) _)) by lia.
    rewrite bool_decide_false by (by intros (_ & ? & _)).
    set (buf := if blen (write_buf m) <? pos + view_size v then _ else _).
    assert (pos + view_size v <= blen buf /\ take (Z.to_nat pos) buf = take (Z.to_nat pos) (write_buf m)) as [Hb Ht].
    { subst buf. destruct (Z.ltb_spec (blen (write_buf m)) (pos + view_size v)); [|split; [lia|done]].
      split; [len|]. by rewrite take_app_le by lia. }
    assert (0 <= view_size v) by (unfold view_size, record_size; lia).
    rewrite serialize_record_spec; [|done|fold (view_size v); len].
    set (rb := record_bytes (rv_record_id v) v). fold (view_size v).
    assert (blen rb = view_size v) as Hrb by (by apply blen_record_bytes).
    set (b1 := take (Z.to_nat pos) buf ++ rb ++ drop (length rb) (drop (Z.to_nat pos) buf)).
    set (m1 := set_active _ (set_write_buf _ _)).
    assert (m1 = set_active (update_ts_range (rv_timestamp_ns v) (active m))
                   (set_write_buf b1 (index_record v (start + pos) m))) as Hm1.
    { subst m1 b1. destruct m as [????????? ? idx ?????]. unfold index_record. simpl.
      by destruct idx. }
    clearbody m1. subst m1.
    set (m1 := set_active _ (set_write_buf b1 _)).
    set (fs := fit (sm_segment_size m - as_offset (active m) - pos - view_size v) (slot_views n ring (seq + 1))).
    assert (view_size v = 60 + blen (rv_content v)) by (unfold view_size, record_size; lia).
    specialize (IH (seq + 1) (pos + view_size v) seq m1 Hvs). cbv zeta in IH.
    replace (sm_segment_size m1 - as_offset (active m1) - (pos + view_size v))
      with (sm_segment_size m - as_offset (active m) - pos - view_size v) in IH.
    2:{ subst m1. simpl. rewrite index_record_size. lia. }
    fold fs in IH. rewrite bool_decide_false in IH by (intros (? & _); lia).
    assert (blen b1 = blen buf) as Hb1 by (subst b1; len).
    assert (slice b1 0 (pos + view_size v) = slice (write_buf m) 0 pos ++ rb) as Hs1.
    { subst b1. rewrite app_assoc, slice_app_exact; [|done|len]. unfold slice. simpl.
      rewrite Z.sub_0_r, drop_0. by rewrite Ht. }
    destruct IH as (b & -> & Hlen & Hsl); [change (write_buf m1) with b1; lia|].
    change (write_buf m1) with b1 in Hsl. rewrite Hs1 in Hsl.
    assert (encoded (v :: fs) = rb ++ encoded fs) as He by done.
    assert (blen (encoded (v :: fs)) = view_size v + blen (encoded fs)) as Hl by (rewrite He; len).
    exists b. rewrite Hl. split; [|split].
    + f_equal.
      * f_equal. f_equal; [lia|]. destruct (decide (v :: fs = [])); [done|].
        destruct (decide (fs = [])) as [->|]; cbn [length]; lia.
      * subst m1. cbn [index_views ts_range foldl active].
        rewrite index_views_comm, (Z.add_assoc start). by destruct (index_views _ fs _).
    + lia.
    + rewrite Z.add_assoc, Hsl, He. by rewrite <- app_assoc.
Qed.

Lemma index_views_eq vs off m : exists i c, index_views off vs m = set_index i c m.
Proof.
  revert off m. induction vs as [|v vs IH]; intros off m; simpl.
  { exists (active_index m), (active_index_count m). by destruct m. }
  destruct (IH (off + view_size v) (index_record v off m)) as (i & c & ->).
  unfold index_record. exists i, c. by destruct (active_index m).
Qed.

Lemma ts_range_eq vs a :
  exists lo hi, ts_range vs a =
    mkActive (as_path a) (as_offset a) (as_base_sequence a) lo hi (as_compressed a)
      (decompressed_offset a) (frame_number a).
Proof.
  revert a. induction vs as [|v vs IH]; intros a.
  { exists (min_ts a), (max_ts a). by destruct a. }
  destruct (IH (update_ts_range (rv_timestamp_ns v) a)) as (lo & hi & He).
  exists lo, hi. exact He.
Qed.

Lemma encoded_pos vs : vs <> [] -> hashes_ok vs -> 0 < blen (encoded vs).
Proof.
  intros Hne Hh. destruct vs as [|v vs]; [done|]. inversion Hh as [|?? Hv]; simplify_eq.
  unfold encoded. cbn [flat_map]. rewrite length_app, Nat2Z.inj_add, blen_record_bytes by done.
  unfold record_size. lia.
Qed.

(** ** Appending: the file *)

(** The manager writes to an existing file whose first [as_offset] bytes are
    what it has written. *)
Record mgr_at (m : SegmentManager) (w : World) (pre junk : bytes) : Prop := {
  ma_path : as_path (active m) = active_id m;
  ma_file : files w !! active_id m = Some (pre ++ junk);
  ma_offset : as_offset (active m) = blen pre;
}.

Lemma length_header h lh : blen (serialize h lh) = SEGMENT_HEADER_SIZE.
Proof. by rewrite length_serialize. Qed.

Lemma active_create_ok id h lh c w :
  faults w = [] -> files w !! id = None ->
  active_create id h lh c w =
  (Ok (mkActive id SEGMENT_HEADER_SIZE (base_sequence h) U64_MAX 0 c 0 0),
   set_files (<[id := serialize h lh]> (files w)) w).
Proof.
  intros Hf Hn. unfold active_create, mbind, M_bind. rewrite fs_create_new_ok by done.
  erewrite fs_write_ok; [|done|apply lookup_insert_eq]. simpl.
  rewrite (file_write_end _ []), insert_insert_eq. done.
Qed.

(** Pre-allocation touches no existing file. *)
Lemma maybe_prepare_ok next m w :
  faults w = [] -> (prepared_segment m = None -> files w !! (active_id m + 1) = None) ->
  exists p fs', maybe_prepare_next next (m, w) = (Ok tt, (set_prepared p m, set_files fs' w)) /\
    (forall id, id <> active_id m + 1 -> fs' !! id = files w !! id).
Proof.
  intros Hf Hn. unfold maybe_prepare_next, mbind, M_bind, get_mgr. simpl.
  destruct (prepared_segment m) as [p|] eqn:Hp.
  { exists (Some p), (files w). split; [|done]. rewrite <- Hp. by destruct m, w. }
  destruct (_ <? 80).
  { exists None, (files w). split; [|done]. rewrite <- Hp. by destruct m, w. }
  unfold lift. simpl. rewrite active_create_ok by auto.
  eexists (Some _), _. split; [reflexivity|]. intros id Hid. by rewrite lookup_insert_ne.
Qed.

Lemma write_batch_raw start pos m w f :
  faults w = [] -> framed m = false -> files w !! as_path (active m) = Some f ->
  write_batch start pos (m, w) =
  (Ok tt, (set_active (set_offset (start + blen (slice (write_buf m) 0 pos)) (active m)) m,
           set_files (<[as_path (active m) := file_write start (slice (write_buf m) 0 pos) f]> (files w)) w)).
Proof.
  intros Hf Hfr Hi. unfold write_batch, mbind, M_bind, get_mgr, lift. cbn [fst snd]. rewrite Hfr.
  cbn [fst snd]. by rewrite (fs_write_ok _ _ _ f).
Qed.

(** The loop of [append_batch] from its initial state. *)
Lemma append_loop_batch ring from to m :
  let vs := slot_views (Z.to_nat (to + 1 - from)) ring from in
  let fs := fit (sm_segment_size m - as_offset (active m)) vs in
  hashes_ok vs -> fs <> [] ->
  exists b, append_loop (Z.to_nat (to + 1 - from)) ring (as_offset (active m)) from 0 (u64 (from - 1)) m =
    (Ok (blen (encoded fs), from + Z.of_nat (length fs) - 1),
     set_active (ts_range fs (active m)) (set_write_buf b (index_views (as_offset (active m)) fs m))) /\
    slice b 0 (blen (encoded fs)) = encoded fs.
Proof.
  intros vs fs Hh Hne.
  pose proof (append_loop_ok (Z.to_nat (to + 1 - from)) ring (as_offset (active m)) from 0
    (u64 (from - 1)) m Hh ltac:(lia)) as Hloop. cbv zeta in Hloop. fold vs in Hloop.
  rewrite Z.sub_0_r in Hloop. fold fs in Hloop.
  rewrite bool_decide_false in Hloop by (by intros (_ & ? & _)).
  destruct Hloop as (b & Hloop & Hb & Hs). rewrite Z.add_0_l, Z.add_0_r, decide_False in * by done.
  exists b. split; [exact Hloop|]. exact Hs.
Qed.

(** A raw batch without I/O faults: the file grows by exactly the encoding of
    the longest prefix of the batch that fits, and the returned sequence is the
    last one written. *)
Lemma append_batch_raw ring from to m w pre junk :
  let vs := slot_views (Z.to_nat (to + 1 - from)) ring from in
  let fs := fit (sm_segment_size m - as_offset (active m)) vs in
  faults w = [] -> framed m = false -> mgr_at m w pre junk ->
  (prepared_segment m = None -> files w !! (active_id m + 1) = None) ->
  hashes_ok vs -> fs <> [] ->
  exists m' w', append_batch ring from to (m, w) = (Ok (from + Z.of_nat (length fs) - 1), (m', w')) /\
    mgr_at m' w' (pre ++ encoded fs) (drop (length (encoded fs)) junk) /\
    active_id m' = active_id m /\ synced w' = synced w /\ faults w' = [] /\
    (forall id, id <> active_id m -> id <> active_id m + 1 -> files w' !! id = files w !! id) /\
    entries <$> active_index m' =
    entries <$> active_index (index_views (as_offset (active m)) fs m).
Proof.
  intros vs fs Hf Hfr [Hpath Hfile Hoff] Hprep Hh Hne.
  destruct (append_loop_batch ring from to m Hh Hne) as (b & Hloop & Hs).
  fold vs in Hloop, Hs. fold fs in Hloop, Hs.
  unfold append_batch, mbind, M_bind, get_mgr. cbn [fst snd]. rewrite Hloop. clear Hloop.
  assert (hashes_ok fs) as Hhf by (by apply hashes_ok_fit).
  rewrite (proj2 (Z.ltb_lt _ _)) by (by apply encoded_pos).
  destruct (index_views_eq fs (as_offset (active m)) m) as (i & c & Hi). rewrite Hi.
  destruct (ts_range_eq fs (active m)) as (lo & hi & ->).
  rewrite (write_batch_raw _ _ _ w (pre ++ junk)); [|done|done|by rewrite <- Hfile, <- Hpath].
  cbn [write_buf set_active set_write_buf active as_path]. rewrite Hs.
  rewrite file_write_over by (by rewrite Hoff).
  set (m1 := set_active _ _). set (w1 := set_files _ w).
  destruct (maybe_prepare_ok (u64 (from + Z.of_nat (length fs) - 1 + 1)) m1 w1) as (p & fs' & -> & Hfs').
  { done. }
  { subst m1 w1. simpl. rewrite lookup_insert_ne by lia. done. }
  eexists _, _. split; [reflexivity|]. subst m1 w1. simpl in *.
  split; [|split; [done|split; [done|split; [done|split; [|done]]]]].
  - split; simpl; [done| |rewrite Hoff; len].
    rewrite Hfs' by lia. rewrite Hpath, lookup_insert_eq. by rewrite <- app_assoc.
  - intros id H1 H2. rewrite Hfs' by done. by rewrite lookup_insert_ne by lia.
Qed.

(** ** What an operation may touch, whatever faults occur *)

Definition prep_ok (k : Z) (m : SegmentManager) : Prop :=
  match prepared_segment m with
  | None => True
  | Some (id, seg) => id = k + 1 /\ as_path seg = k + 1
  end.

(** The manager's view of its files while segment [k] is active. *)
Record mgr_on (k : Z) (pend : list Z) (m : SegmentManager) : Prop := {
  mo_id : active_id m = k;
  mo_path : as_path (active m) = k;
  mo_pending : pending_fsync m = pend;
  mo_prep : prep_ok k m;
}.

Section frame.
Variables (k : Z) (pend : list Z) (w0 : World).

(** Files are only written at the active id and at the next one, and nothing is
    synced. *)
Definition framed_by (s : SegmentManager * World) : Prop :=
  mgr_on k pend s.1 /\ writes_only (fun id => k <= id) w0 s.2.

Abbreviation keeps c := (triple framed_by c (fun _ => True)).

Lemma keeps_lift {A} (c : M World IoError A) :
  follows (writes_only (fun id => k <= id)) c -> keeps (lift c).
Proof.
  intros Hc [m w] [Hm Hw]. unfold lift. simpl in *. specialize (Hc w).
  destruct (c w) as [r w']. simpl in *. split; [|done]. split; [done|]. by transitivity w.
Qed.

Lemma triple_get_mgr : triple framed_by get_mgr (mgr_on k pend).
Proof. intros s [Hm Hw]. split; [done|]. simpl. by intros m [= <-]. Qed.

Lemma keeps_update f : (forall m, mgr_on k pend m -> mgr_on k pend (f m)) -> keeps (update f).
Proof. intros Hf s [Hm Hw]. split; [|done]. split; simpl; [by apply Hf|done]. Qed.

Lemma follows_active_create id h lh c :
  k <= id -> follows (writes_only (fun id => k <= id)) (active_create id h lh c).
Proof.
  intros Hid. unfold active_create. apply follows_bind; [apply _|by apply follows_create_new|].
  intros []. apply follows_bind; [apply _|by apply follows_write|]. intros [].
  apply follows_ret, _.
Qed.

Lemma keeps_encrypt key pt : keeps (encrypt_if_enabled key pt).
Proof.
  unfold encrypt_if_enabled. destruct key as [b|]; [|by apply triple_ret].
  eapply triple_bind; [apply keeps_lift, follows_nonce|]. intros nonce _.
  destruct (aes_encrypt b nonce pt); [by apply triple_ret|apply triple_throw].
Qed.

Lemma keeps_write_batch start pos : keeps (write_batch start pos).
Proof.
  unfold write_batch. eapply triple_bind; [apply triple_get_mgr|]. intros m Hm. cbv zeta.
  rewrite (mo_path _ _ _ Hm). destruct (framed m).
  - eapply triple_bind.
    { destruct (as_compressed _); [destruct (zstd_encode _)|]; try apply keeps_encrypt.
      apply triple_throw. }
    intros payload _. eapply triple_bind; [apply keeps_lift, follows_write; lia|]. intros [] _.
    eapply triple_bind; [apply keeps_lift, follows_write; lia|]. intros [] _.
    apply keeps_update. intros m' []. by split.
  - eapply triple_bind; [apply keeps_lift, follows_write; lia|]. intros [] _.
    apply keeps_update. intros m' []. by split.
Qed.

Lemma keeps_prepare next : keeps (maybe_prepare_next next).
Proof.
  unfold maybe_prepare_next. eapply triple_bind; [apply triple_get_mgr|]. intros m Hm.
  destruct (prepared_segment m) as [p|]; [by apply triple_ret|].
  destruct (_ <? 80); [by apply triple_ret|]. rewrite (mo_id _ _ _ Hm).
  eapply (triple_bind _ (fun seg => as_path seg = k + 1)).
  - intros [m' w] [Hm' Hw]. unfold lift. cbn [snd fst] in *.
    pose proof (follows_active_create (k + 1) (next_header m (k + 1)
      (encode_record_id (sm_shard_id m) next (sm_shard_bits m))) (sm_last_hash m) (sm_compressed m)
      ltac:(lia) w) as Hc.
    set (c := active_create _ _ _ _) in *. assert (forall seg, (c w).1 = Ok seg -> as_path seg = k + 1) as Hp.
    { intros seg. subst c. unfold active_create, mbind, M_bind.
      destruct (fs_create_new _ w) as [[[]|] w1]; [|done].
      destruct (fs_write _ _ _ w1) as [[[]|] w2]; [|done]. by intros [= <-]. }
    destruct (c w) as [[seg|e] w']; simpl in *; (split; [split; [done|by transitivity w]|]); [|done].
    intros a [= <-]. auto.
  - intros seg Hseg. apply keeps_update. intros m' []. by split.
Qed.

Lemma append_loop_mgr n ring start seq pos last m :
  mgr_on k pend m -> mgr_on k pend (append_loop n ring start seq pos last m).2.
Proof.
  revert seq pos last m. induction n as [|n IH]; intros seq pos last m Hm; cbn [append_loop]; [done|].
  case_match; [by destruct (pos =? 0)|].
  set (b := if _ <? _ then _ else _). set (v := slot_read (slot ring seq)).
  assert (mgr_on k pend (index_record v (start + pos) (set_write_buf b m))) as Hm1.
  { unfold index_record. destruct (active_index _); by destruct Hm; split. }
  destruct (serialize_record _ _ _) as [[tl len]|]; [|done]. apply IH. by destruct Hm1; split.
Qed.

(** Appending touches the active segment and the pre-allocated one, and syncs
    nothing. *)
Lemma keeps_append_batch ring from to : keeps (append_batch ring from to).
Proof.
  unfold append_batch. eapply triple_bind; [apply triple_get_mgr|]. intros m Hm.
  eapply (triple_bind _ (fun _ => True)).
  - intros [m1 w1] [Hm1 Hw1]. simpl in *.
    pose proof (append_loop_mgr (Z.to_nat (to + 1 - from)) ring (as_offset (active m)) from 0
      (u64 (from - 1)) m1 Hm1) as Hl.
    destruct (append_loop _ _ _ _ _ _ _) as [r m2]. split; [|done]. by split.
  - intros [pos last] _. eapply (triple_bind _ (fun _ => True)).
    { destruct (0 <? pos); [apply keeps_write_batch|by apply triple_ret]. }
    intros [] _. eapply triple_bind; [apply keeps_prepare|]. intros [] _. by apply triple_ret.
Qed.

Lemma keeps_save_index : keeps save_active_index.
Proof.
  unfold save_active_index. eapply triple_bind; [apply triple_get_mgr|]. intros m Hm.
  destruct (active_index m) as [idx|]; [|by apply triple_ret].
  destruct (index_is_empty idx); [by apply triple_ret|]. apply keeps_lift, follows_write_idx.
Qed.

Lemma keeps_backfill a : as_path a = k -> keeps (lift (backfill_header_ts a)).
Proof.
  intros Hp. apply keeps_lift. unfold backfill_header_ts. rewrite Hp.
  apply follows_bind; [apply _|apply follows_write; lia|]. intros [].
  apply follows_bind; [apply _|apply follows_write; lia|]. intros [].
  apply follows_bind; [apply _|apply follows_read|]. intros b. apply follows_write. lia.
Qed.
End frame.

(** ** Durability bookkeeping *)

(** Every sealed segment that is not fully on stable storage is queued for the
    next sync. *)
Definition covered (s : SegmentManager * World) : Prop :=
  exists k pend, mgr_on k pend s.1 /\
    forall id f, id < k -> files s.2 !! id = Some f -> synced s.2 !! id = Some f \/ id ∈ pend.

(** Nothing below [k] changes. *)
Definition below (k : Z) (w w' : World) : Prop :=
  forall id, id < k -> files w' !! id = files w !! id /\ synced w' !! id = synced w !! id.

Lemma writes_only_below k w w' : writes_only (fun id => k <= id) w w' -> below k w w'.
Proof. intros [Hf Hs _ _] id Hid. rewrite Hf, Hs by lia. done. Qed.

Lemma covered_below k pend m w m' w' :
  mgr_on k pend m -> covered (m, w) -> below k w w' -> mgr_on k pend m' -> covered (m', w').
Proof.
  intros Hm (k' & pend' & Hm2 & Hc) Hb Hm'. simpl in *.
  assert (k' = k) as -> by (destruct Hm, Hm2; congruence).
  assert (pend' = pend) as -> by (destruct Hm, Hm2; congruence).
  exists k, pend. split; [done|]. simpl. intros id f Hid. destruct (Hb id Hid) as [-> ->]. auto.
Qed.

(** A computation that only touches the active segment and later ones. *)
Lemma covered_framed {A} k pend w0 (c : SM A) m :
  triple (framed_by k pend w0) c (fun _ => True) -> mgr_on k pend m -> covered (m, w0) ->
  covered (c (m, w0)).2 /\ framed_by k pend w0 (c (m, w0)).2.
Proof.
  intros Hc Hm Hcov. destruct (Hc (m, w0)) as [Hf _]; [by split|]. split; [|done].
  destruct (c (m, w0)) as [r [m' w']], Hf as [Hm' Hw']. simpl in *.
  eapply covered_below; [exact Hm|done|by apply writes_only_below|done].
Qed.

(** Deleting files keeps the bookkeeping. *)
Lemma covered_remove id : triple covered (lift (fs_remove id)) (fun _ => True).
Proof.
  intros [m w] (k & pend & Hm & Hc). unfold lift. simpl in *.
  destruct (fs_remove id w) as [r w'] eqn:Hr. simpl. split; [|done].
  exists k, pend. split; [done|]. simpl. intros id' f Hid Hf.
  apply syscall_inv in Hr as [(e & n & _ & ->)|Hr]; [by apply Hc|].
  simpl in Hr. destruct (files w !! id); simplify_eq; simpl in *; [|by apply Hc].
  apply lookup_delete_Some in Hf as [_ Hf]. by apply Hc.
Qed.

Lemma ok_lift_triple {A} I (c : M World IoError A) :
  triple I (lift c) (fun _ => True) -> triple I (ok_lift c) (fun _ => True).
Proof.
  intros Hc s Hs. destruct (Hc s Hs) as [H1 _]. unfold lift, ok_lift in *.
  destruct (c s.2). done.
Qed.

(** Retention and truncation keep whatever survives deleting a file and reading
    one. *)
Section pruning.
Variable I : SegmentManager * World -> Prop.
Hypothesis I_remove : forall id, triple I (lift (fs_remove id)) (fun _ => True).
Hypothesis I_read : forall id, triple I (lift (read_segment_header id)) (fun _ => True).

Lemma keeps_get {A} (c : SM A) : (forall s, (c s).2 = s) -> triple I c (fun _ => True).
Proof. intros Hc s Hs. by rewrite Hc. Qed.

Lemma keeps_truncate k cp ids : triple I (truncate_loop k cp ids) (fun _ => True).
Proof.
  induction ids as [|id ids IH]; simpl; [by apply triple_ret|]. destruct (k <=? id); [done|].
  eapply triple_bind; [apply ok_lift_triple, I_read|]. intros [h|] _; [|done].
  destruct (_ <=? cp); [|done].
  eapply triple_bind; [apply ok_lift_triple, I_remove|]. by intros _ _.
Qed.

Lemma keeps_evict_size k mx total ids : triple I (evict_size_loop k mx total ids) (fun _ => True).
Proof.
  revert total. induction ids as [|id ids IH]; intros total; simpl; [by apply triple_ret|].
  destruct (k <=? id); [by apply triple_ret|]. destruct (total <=? mx); [by apply triple_ret|].
  eapply triple_bind; [by apply keeps_get|]. intros w _.
  eapply triple_bind; [apply I_remove|]. intros [] _. apply IH.
Qed.

Lemma keeps_evict_age k mx ids : triple I (evict_age_loop k mx ids) (fun _ => True).
Proof.
  induction ids as [|id ids IH]; simpl; [by apply triple_ret|].
  destruct (k <=? id); [by apply triple_ret|].
  eapply triple_bind; [by apply keeps_get|]. intros w _.
  destruct (files w !! id), (ages w !! id) as [el|]; try done. destruct (mx <=? el); [|done].
  eapply triple_bind; [apply I_remove|]. intros [] _. apply IH.
Qed.

Lemma keeps_retention : triple I apply_retention (fun _ => True).
Proof.
  unfold apply_retention, evict_until_under, evict_older_than, list_segment_files.
  eapply triple_bind; [by apply keeps_get|]. intros m _. destruct (sm_retention m).
  - by apply triple_ret.
  - do 3 (eapply triple_bind; [by apply keeps_get|]; intros ? _). apply keeps_evict_size.
  - do 2 (eapply triple_bind; [by apply keeps_get|]; intros ? _). apply keeps_evict_age.
Qed.

Lemma keeps_truncate_before cp : triple I (truncate_before_checkpoint cp) (fun _ => True).
Proof.
  unfold truncate_before_checkpoint, list_segment_files.
  do 2 (eapply triple_bind; [by apply keeps_get|]; intros ? _). apply keeps_truncate.
Qed.
End pruning.

Lemma covered_read id : triple covered (lift (read_segment_header id)) (fun _ => True).
Proof.
  intros [m w] (k & pend & Hm & Hc). unfold lift, read_segment_header, mbind, M_bind. simpl in *.
  destruct (fs_read id 0 SEGMENT_HEADER_SIZE w) as [r w'] eqn:Hr.
  assert (files w' = files w /\ synced w' = synced w) as [Hf Hs].
  { apply syscall_inv in Hr as [(e & n & _ & ->)|Hr]; [done|]. simpl in Hr.
    case_match; by simplify_eq. }
  assert (covered (m, w')) as Hcov by (exists k, pend; simpl; by rewrite Hf, Hs).
  destruct r as [buf|e]; [|by split]. by destruct (deserialize buf).
Qed.

Lemma below_refl k w : below k w w.
Proof. done. Qed.

Lemma below_trans k w1 w2 w3 : below k w1 w2 -> below k w2 w3 -> below k w1 w3.
Proof. intros H1 H2 id Hid. destruct (H1 id Hid) as [<- <-]. by apply H2. Qed.

Lemma below_fdatasync k id w : k <= id -> below k w (fs_fdatasync id w).2.
Proof.
  intros Hk. apply (follows_syscall (below k)); [|done]. intros w' f. simpl.
  destruct (files w' !! id); simpl; [|done]. intros id' Hid. simpl.
  by rewrite lookup_insert_ne by lia.
Qed.

Lemma below_sync_dir k w : below k w (fs_sync_dir w).2.
Proof. by apply (follows_syscall (below k)). Qed.

(** Advancing to the next segment queues the old one. *)
Lemma covered_advance k pend m w seg m' w' :
  mgr_on k pend m -> covered (m, w) -> below k w w' -> as_path seg = k + 1 ->
  active m' = seg -> active_id m' = k + 1 -> pending_fsync m' = pend ++ [k] ->
  prepared_segment m' = None -> covered (m', w').
Proof.
  intros Hm (k' & pend' & Hm2 & Hc) Hb Hs Ha Hi Hp Hpr. simpl in *.
  assert (k' = k) as -> by (destruct Hm, Hm2; congruence).
  assert (pend' = pend) as -> by (destruct Hm, Hm2; congruence).
  exists (k + 1), (pend ++ [k]). split.
  { split; simpl; [done|by rewrite Ha|done|]. unfold prep_ok. by rewrite Hpr. }
  simpl. intros id f Hid Hf. rewrite elem_of_app, list_elem_of_singleton.
  destruct (decide (id = k)) as [->|]; [by right; right|].
  destruct (Hb id ltac:(lia)) as [Ef Es]. rewrite Ef in Hf. rewrite Es.
  destruct (Hc id f ltac:(lia) Hf); [by left|by right; left].
Qed.

Lemma covered_swap nb : triple covered (swap_active nb) (fun _ => True).
Proof.
  intros [m w] Hcov. split; [|done]. assert (Hcov' := Hcov). destruct Hcov' as (k & pend & Hm & _).
  simpl in Hm. unfold swap_active, mbind, M_bind, get_mgr, update, lift. cbn [fst snd].
  rewrite (mo_id _ _ _ Hm).
  destruct (prepared_segment m) as [[id seg]|] eqn:Hp.
  - pose proof (mo_prep _ _ _ Hm) as Hpo. unfold prep_ok in Hpo. rewrite Hp in Hpo.
    destruct Hpo as [-> Hseg]. cbn [fst snd].
    eapply (covered_advance k pend); [done|exact Hcov|apply below_refl|exact Hseg|done..| |done].
    simpl. by rewrite (mo_path _ _ _ Hm), (mo_pending _ _ _ Hm).
  - pose proof (follows_active_create k (k + 1) (next_header m (k + 1) nb) (sm_last_hash m)
      (sm_compressed m) ltac:(lia) w) as Hc. cbv zeta. cbn [fst snd].
    destruct (active_create _ _ _ _ w) as [[seg|e] w1] eqn:Ec; cbn [map_err fst snd] in *.
    2:{ exact (covered_below k pend m w m w1 Hm Hcov (writes_only_below _ _ _ Hc) Hm). }
    assert (as_path seg = k + 1) as Hseg.
    { revert Ec. unfold active_create, mbind, M_bind.
      destruct (fs_create_new _ w) as [[[]|] ?]; [|done].
      destruct (fs_write _ _ _ _) as [[[]|] ?]; [|done]. by intros [= <- _]. }
    apply writes_only_below in Hc.
    pose proof (below_fdatasync k (k + 1) w1 ltac:(lia)) as Hd.
    destruct (fs_fdatasync (k + 1) w1) as [[[]|e] w2]; cbn [map_err fst snd] in *.
    2:{ eapply covered_below; [done|exact Hcov|by eapply below_trans|done]. }
    pose proof (below_sync_dir k w2) as Hsd.
    destruct (fs_sync_dir w2) as [[[]|e] w3]; cbn [map_err fst snd] in *;
      (assert (below k w w3) as Hb by (eapply below_trans; [done|]; by eapply below_trans)).
    2:{ by eapply covered_below. }
    eapply (covered_advance k pend); [done|exact Hcov|exact Hb|exact Hseg|done..| |done].
    simpl. by rewrite (mo_path _ _ _ Hm), (mo_pending _ _ _ Hm).
Qed.

Lemma covered_keeps {A} (c : SM A) :
  (forall k pend w0, triple (framed_by k pend w0) c (fun _ => True)) ->
  triple covered c (fun _ => True).
Proof.
  intros Hc [m w] Hcov. split; [|done]. assert (Hcov' := Hcov).
  destruct Hcov' as (k & pend & Hm & _). eapply (covered_framed k pend w c m); done.
Qed.

Lemma covered_roll nb cp : triple covered (roll nb cp) (fun _ => True).
Proof.
  intros [m w] Hs. split; [|done]. assert (Hs' := Hs). destruct Hs' as (k & pend & Hm & _).
  unfold roll. apply (triple_bind_at covered _ _ (m, w)); [done|]. intros m' [= <-].
  cbn [get_mgr snd]. apply triple_bind_at.
  { eapply (covered_framed k pend w); [apply keeps_backfill, Hm|done|done]. }
  intros [] _. set (s1 := (lift (backfill_header_ts (active m)) (m, w)).2).
  assert (covered s1) as Hs1 by (eapply (covered_framed k pend w); [apply keeps_backfill, Hm|done|done]).
  clearbody s1. revert s1 Hs1. eapply triple_state.
  eapply triple_bind; [eapply triple_ignore, covered_keeps, keeps_save_index|]. intros [] _.
  eapply triple_bind; [apply covered_swap|]. intros [] _.
  eapply (triple_bind _ (fun _ => True)).
  { intros s1 (k1 & p1 & Hm1 & Hc1). split; [|done]. exists k1, p1. split; [|exact Hc1].
    by destruct Hm1; split. }
  intros [] _. eapply triple_bind; [apply (keeps_retention _ covered_remove)|]. intros [] _.
  destruct (0 <? cp); [apply (keeps_truncate_before _ covered_remove covered_read)|by apply triple_ret].
Qed.

(** ** Sync *)

Lemma fsync_path_ok id w w' :
  fsync_path id w = (Ok tt, w') ->
  files w' = files w /\
  forall i f, files w !! i = Some f -> synced w !! i = Some f \/ i = id -> synced w' !! i = Some f.
Proof.
  unfold fsync_path. destruct (files w !! id) as [x|] eqn:Hx; [|done]. intros Hs.
  apply syscall_inv in Hs as [(e & n & ? & _)|Hs]; [done|]. simpl in Hs. rewrite Hx in Hs.
  simplify_eq. simpl. split; [done|]. intros i f Hf Hor.
  destruct (decide (i = id)) as [->|]; [rewrite lookup_insert_eq; congruence|].
  rewrite lookup_insert_ne by done. destruct Hor; [done|congruence].
Qed.

Lemma sync_pending_ok ids m w m' w' :
  sync_pending ids (m, w) = (Ok tt, (m', w')) ->
  m' = m /\ files w' = files w /\
  forall i f, files w !! i = Some f -> synced w !! i = Some f \/ i ∈ ids -> synced w' !! i = Some f.
Proof.
  revert w. induction ids as [|id ids IH]; intros w; simpl.
  { intros [= <- <-]. split; [done|]. split; [done|]. intros i f Hf [?|Hi]; [done|set_solver]. }
  fold (sync_pending ids). unfold mbind, M_bind, lift. cbn [fst snd]. destruct (fsync_path id w) as [[[]|e] w1] eqn:E1; simpl; [|done].
  intros (-> & Hf1 & Hi)%IH. apply fsync_path_ok in E1 as [Hf Hs]. split; [done|].
  split; [congruence|]. intros i f Hif Hor. apply Hi; [by rewrite Hf|].
  rewrite elem_of_cons in Hor. destruct Hor as [?|[->|?]]; auto.
Qed.

(** A successful [sync_all] leaves every segment up to the active one on stable
    storage, and nothing queued. *)
Lemma sync_all_ok m w m' w' :
  covered (m, w) -> sync_all (m, w) = (Ok tt, (m', w')) ->
  files w' = files w /\ active_id m' = active_id m /\ pending_fsync m' = [] /\
  (forall id f, id <= active_id m -> files w' !! id = Some f -> synced w' !! id = Some f) /\
  covered (m', w').
Proof.
  intros (k & pend & Hm & Hc). simpl in Hm, Hc.
  unfold sync_all, mbind, M_bind, get_mgr, update. cbn [fst snd].
  rewrite (mo_pending _ _ _ Hm).
  destruct (sync_pending pend (set_pending [] m, w)) as [[[]|e] [m1 w1]] eqn:E1; [|done].
  apply sync_pending_ok in E1 as (-> & Hf1 & Hs1). unfold lift. cbn [fst snd].
  destruct (fs_fdatasync (as_path (active m)) w1) as [[[]|e] w2] eqn:E2; simpl; [|done].
  intros [= <- <-]. apply syscall_inv in E2 as [(e & n & ? & _)|E2]; [done|]. simpl in E2.
  assert (files w2 = files w1 /\ forall i f, files w1 !! i = Some f ->
    synced w1 !! i = Some f \/ i = k -> synced w2 !! i = Some f) as [Hf2 Hs2].
  { rewrite (mo_path _ _ _ Hm) in E2. destruct (files w1 !! k) as [x|] eqn:Hx; simplify_eq; simpl.
    - split; [done|]. intros i f Hif Hor. destruct (decide (i = k)) as [->|].
      + rewrite lookup_insert_eq. congruence.
      + rewrite lookup_insert_ne by done. by destruct Hor.
    - split; [done|]. intros i f Hif [Hi|Hi]; [done|congruence]. }
  assert (forall id f, id <= k -> files w2 !! id = Some f -> synced w2 !! id = Some f) as Hall.
  { intros id f Hid Hf. rewrite Hf2 in Hf. apply Hs2; [done|].
    destruct (decide (id = k)); [by right|]. left. rewrite Hf1 in Hf.
    apply Hs1; [done|]. apply Hc; [lia|done]. }
  simpl. rewrite (mo_id _ _ _ Hm). split; [congruence|]. do 3 (split; [done|]).
  exists k, []. split; [by destruct Hm; split|]. simpl. intros id f Hid Hf. left.
  apply Hall; [lia|done].
Qed.

(** ** Histories of a manager *)

(** The calls the committer makes, each with any outcome, except that syncs
    succeed. *)
Inductive mgr_op : SegmentManager * World -> SegmentManager * World -> Prop :=
| op_append ring from to r s s' : append_batch ring from to s = (r, s') -> mgr_op s s'
| op_roll nb cp r s s' : roll nb cp s = (r, s') -> mgr_op s s'
| op_save r s s' : save_active_index s = (r, s') -> mgr_op s s'
| op_sync s s' : sync_all s = (Ok tt, s') -> mgr_op s s'
| op_shard sid bits m w : mgr_op (m, w) (set_shard sid bits m, w)
| op_stride st m w : mgr_op (m, w) (set_index_stride st m, w).

Lemma covered_op s s' : mgr_op s s' -> covered s -> covered s'.
Proof.
  destruct 1 as [ring from to r s s' Hs|nb cp r s s' Hs|r s s' Hs|[m w] [m' w'] Hs|sid bits m w|st m w];
    intros Hc.
  - change s' with ((r, s').2). rewrite <- Hs. revert s Hc Hs. intros s Hc _. revert s Hc.
    eapply triple_state, covered_keeps. intros. apply keeps_append_batch.
  - change s' with ((r, s').2). rewrite <- Hs. by apply (triple_state _ _ _ (covered_roll nb cp)).
  - change s' with ((r, s').2). rewrite <- Hs.
    apply (triple_state _ _ _ (covered_keeps _ keeps_save_index)). done.
  - by destruct (sync_all_ok m w m' w' Hc Hs) as (_ & _ & _ & _ & ?).
  - destruct Hc as (k & pend & [] & Hc). exists k, pend. split; [by split|done].
  - destruct Hc as (k & pend & [] & Hc). exists k, pend. split; [|done].
    unfold set_index_stride. by destruct (active_index m); split.
Qed.

Lemma covered_ops s s' : rtc mgr_op s s' -> covered s -> covered s'.
Proof. induction 1; eauto using covered_op. Qed.

Lemma create_covered size h c keys hi ret base w m w' :
  files w = ∅ -> create size h c keys hi ret base w = (Ok m, w') -> covered (m, w').
Proof.
  intros Hf. unfold create, mbind, M_bind. cbv zeta.
  set (hd := mkHeader _ _ _ _ _ _ _ _ _ _ _ _).
  destruct (active_create 1 hd (zeros 32) c w) as [[a|e] w1] eqn:E1; [|done].
  destruct (fs_sync_dir w1) as [[[]|e] w2] eqn:E2; [|done]. intros [= <- <-].
  pose proof (follows_active_create 1 1 hd (zeros 32) c ltac:(lia) w) as Hb.
  rewrite E1 in Hb. simpl in Hb. apply writes_only_below in Hb.
  pose proof (below_sync_dir 1 w1) as Hb2. rewrite E2 in Hb2. simpl in Hb2.
  assert (as_path a = 1) as Ha.
  { revert E1. unfold active_create, mbind, M_bind.
    destruct (fs_create_new _ w) as [[[]|] ?]; [|done].
    destruct (fs_write _ _ _ _) as [[[]|] ?]; [|done]. by intros [= <- _]. }
  exists 1, []. split; [by split|]. simpl. intros id f Hid Hfi.
  destruct (below_trans _ _ _ _ Hb Hb2 id Hid) as [E _]. rewrite E, Hf in Hfi. done.
Qed.

(** A successful sync makes everything durable.  Whatever appends, rolls,
    retention runs, truncations and earlier successful syncs a manager went
    through, and whatever I/O faults they met, after [sync_all] returns [Ok]
    every segment file up to the active one has its full current contents on
    stable storage: the durable cursor may advance to the committed one. *)
Theorem sync_all_covers_history size h c keys hi ret base w0 m0 w1 m w m' w' :
  files w0 = ∅ -> create size h c keys hi ret base w0 = (Ok m0, w1) ->
  rtc mgr_op (m0, w1) (m, w) -> sync_all (m, w) = (Ok tt, (m', w')) ->
  forall id f, id <= active_id m -> files w' !! id = Some f -> synced w' !! id = Some f.
Proof.
  intros Hf Hcr Hops Hs. apply create_covered in Hcr; [|done].
  by destruct (sync_all_ok m w m' w' (covered_ops _ _ Hops Hcr) Hs) as (_ & _ & _ & ? & _).
Qed.

(** ** Header backfill *)

Definition set_ts (lo hi : Z) (h : SegmentHeader) : SegmentHeader :=
  mkHeader (format_version h) (flags h) (hash_algo h) (hash_init h) (base_sequence h)
    (hdr_partition_id h) (segment_id h) lo hi (prev_last_hash h) (record_format h)
    (encryption_key_id h).

(** Overwriting the two timestamps and the CRC of a serialised header gives the
    serialisation of the updated header. *)
Lemma backfill_bytes h lh lo hi :
  header_wf h -> length lh = 32%nat ->
  let b := copy_at 64 (to_le 8 hi) (copy_at 56 (to_le 8 lo) (serialize h lh)) in
  copy_at 72 (to_le 4 (crc32c (slice b 0 72))) b = serialize (set_ts lo hi h) lh.
Proof.
  intros [] Hlh b.
  set (b' := copy_at 109 (to_le 16 (encryption_key_id h)) (copy_at 108 (to_le 1 (record_format h))
    (copy_at 76 lh (copy_at 64 (to_le 8 hi) (copy_at 56 (to_le 8 lo)
    (copy_at 52 (to_le 4 (segment_id h)) (copy_at 48 (to_le 4 (hdr_partition_id h))
    (copy_at 40 (to_le 8 (base_sequence h)) (copy_at 8 (hash_init h) (copy_at 7 (to_le 1 (hash_algo h))
    (copy_at 6 (to_le 1 (flags h)) (copy_at 4 (to_le 2 (format_version h)) (copy_at 0 (to_le 4 MAGIC)
    (zeros 128)))))))))))))).
  change (serialize (set_ts lo hi h) lh) with (copy_at 72 (to_le 4 (crc32c (slice b' 0 72))) b').
  assert (agree_on b b' 0 [4; 6; 7; 8; 40; 48; 52; 56; 64; 72]) as Hlow.
  { subst b b'. unfold serialize, SEGMENT_HEADER_SIZE. cbv zeta.
    repeat (split; [lia|split; [by slices|]]). done. }
  apply agree_on_slice in Hlow. simpl in Hlow. rewrite Hlow. set (crc := to_le 4 _).
  assert (length crc = 4%nat) as Hcrc by apply length_to_le. clearbody crc.
  assert (length b = 128%nat /\ length b' = 128%nat) as [Hb Hb'].
  { subst b b'. rewrite !length_copy_at, length_serialize. split; [done|]. by autorewrite with len. }
  assert (agree_on (copy_at 72 crc b) (copy_at 72 crc b') 0 [72; 76; 108; 109; 125; 128]) as Hag.
  { split; [lia|]. split; [rewrite !slice_copy_ne by lia; done|].
    split; [lia|]. split; [rewrite !slice_copy_eq by lia; done|].
    clear Hlow. subst b b'. unfold serialize, SEGMENT_HEADER_SIZE. cbv zeta. 
    repeat (split; [lia|split; [by slices|]]). done. }
  apply agree_on_slice in Hag. simpl in Hag.
  rewrite <- (slice_all (copy_at 72 crc b)), <- (slice_all (copy_at 72 crc b')).
  by rewrite !length_copy_at, Hb, Hb'.
Qed.

(** Sealing a segment keeps its header valid.  [backfill_header_ts] rewrites
    the timestamp range inside the CRC-protected part of the header; without
    faults the file then starts with a header that parses to the old fields with
    the new range, and the records are untouched. *)
Theorem backfill_keeps_header_valid a h lh rest w :
  faults w = [] -> header_wf h -> length lh = 32%nat ->
  in_range 64 (min_ts a) -> in_range 64 (max_ts a) ->
  files w !! as_path a = Some (serialize h lh ++ rest) ->
  exists w', backfill_header_ts a w = (Ok tt, w') /\
    files w' !! as_path a = Some (serialize (set_ts (min_ts a) (max_ts a) h) lh ++ rest) /\
    deserialize (serialize (set_ts (min_ts a) (max_ts a) h) lh) =
    Ok (set_prev_last_hash (set_ts (min_ts a) (max_ts a) h) lh).
Proof.
  intros Hf Hh Hlh Hlo Hhi Hfile. pose proof (length_serialize h lh) as Hl.
  unfold backfill_header_ts, mbind, M_bind.
  erewrite fs_write_ok by done. rewrite file_write_prefix by (rewrite ?length_to_le; lia).
  erewrite fs_write_ok; [|done|apply lookup_insert_eq].
  rewrite file_write_prefix by (rewrite ?length_copy_at, ?length_to_le; lia).
  erewrite fs_read_ok; [|done|apply lookup_insert_eq|].
  2:{ rewrite length_app, !length_copy_at. unfold HEADER_CRC_END. lia. }
  rewrite slice_app_l by (rewrite ?length_copy_at; unfold HEADER_CRC_END; lia).
  erewrite fs_write_ok; [|done|apply lookup_insert_eq].
  rewrite file_write_prefix by (rewrite ?length_copy_at, ?length_to_le; unfold HEADER_CRC_END; lia).
  eexists. split; [reflexivity|]. split.
  - cbn [files set_files]. rewrite lookup_insert_eq. f_equal. f_equal.
    by apply backfill_bytes.
  - apply deserialize_serialize; [|done]. by destruct Hh; split.
Qed.

(** ** Retention *)

Lemma fs_remove_ok id f w :
  faults w = [] -> files w !! id = Some f ->
  fs_remove id w = (Ok tt, set_files (delete id (files w)) w).
Proof. intros Hf Hi. unfold fs_remove. rewrite syscall_ok by done. by rewrite Hi. Qed.

Lemma total_size_ext w w' ids :
  (forall id, id ∈ ids -> files w' !! id = files w !! id) -> total_size w' ids = total_size w ids.
Proof.
  intros He. induction ids as [|id ids IH]; simpl; [done|]. unfold fs_len in *.
  rewrite He by set_solver. f_equal. apply IH. intros. apply He. set_solver.
Qed.

#[local] Instance total_size_perm w : Proper ((≡ₚ) ==> (=)) (total_size w).
Proof. intros l1 l2 Hp. induction Hp; simpl; lia || congruence. Qed.

Lemma total_size_nonneg w ids : 0 <= total_size w ids.
Proof.
  induction ids as [|id ids IH]; simpl; [lia|]. unfold fs_len.
  destruct (files w !! id); simpl; lia.
Qed.

(** The eviction loop removes a prefix of the sorted list, entirely below the
    active segment, until what is left fits or only the active segment and later
    ones are left. *)
Lemma evict_size_loop_spec k mx m ids w :
  faults w = [] -> NoDup ids -> (forall id, id ∈ ids -> is_Some (files w !! id)) ->
  StronglySorted Z.le ids ->
  exists n w', evict_size_loop k mx (total_size w ids) ids (m, w) = (Ok tt, (m, w')) /\
    (forall id, id ∈ take n ids -> id < k /\ files w' !! id = None) /\
    (forall id, id ∉ take n ids -> files w' !! id = files w !! id) /\
    (total_size w' (drop n ids) <= mx \/ forall id, id ∈ drop n ids -> k <= id).
Proof.
  revert w. induction ids as [|id ids IH]; intros w Hf Hnd Hin Hs; cbn [evict_size_loop].
  { exists 0%nat, w. simpl. split_and!; [done|set_solver|done|right; set_solver]. }
  inversion Hs as [|?? Hs' Hle]; simplify_eq. inversion Hnd as [|?? Hni Hnd']; simplify_eq.
  destruct (Z.leb_spec k id).
  { exists 0%nat, w. simpl. split_and!; [done|set_solver|done|]. right. intros i.
    rewrite elem_of_cons. intros [->|Hi]; [done|]. rewrite Forall_forall in Hle.
    specialize (Hle i Hi). lia. }
  destruct (Z.leb_spec (total_size w (id :: ids)) mx).
  { exists 0%nat, w. simpl. split_and!; [done|set_solver|done|by left]. }
  destruct (Hin id) as [f Hid]; [set_solver|].
  unfold mbind, M_bind, get_world, lift. cbn [fst snd]. erewrite fs_remove_ok by done.
  cbn [map_err fst snd]. set (w1 := set_files (delete id (files w)) w).
  assert (forall i, i ∈ ids -> files w1 !! i = files w !! i) as Hw1.
  { intros i Hi. simpl. rewrite lookup_delete_ne; [done|]. by intros ->. }
  assert (sat_sub (total_size w (id :: ids)) (default 0 (fs_len w id)) = total_size w1 ids) as ->.
  { rewrite (total_size_ext w w1 ids Hw1). cbn [total_size foldr]. unfold sat_sub.
    pose proof (total_size_nonneg w ids) as Hn. unfold total_size in *. lia. }
  destruct (IH w1) as (n & w' & E & Hrem & Hkeep & Hend); [done|done| |done|].
  { intros i Hi. rewrite Hw1 by done. apply Hin. set_solver. }
  exists (S n), w'. split; [exact E|]. cbn [take drop]. split_and!; [| |done].
  - intros i. rewrite elem_of_cons. intros [->|Hi]; [|by apply Hrem]. split; [done|].
    rewrite Hkeep; [simpl; by rewrite lookup_delete_eq|].
    intros Hc. apply Hni. by eapply elem_of_take in Hc as (? & ? & _); eapply list_elem_of_lookup_2.
  - intros i Hi. rewrite not_elem_of_cons in Hi. destruct Hi as [Hne Hi]. rewrite Hkeep by done.
    simpl. by rewrite lookup_delete_ne.
Qed.

(** Size-based retention.  Without faults, [evict_until_under] deletes
    segments oldest first, never the active one or a later one, leaves the
    survivors untouched, and stops only when the directory fits in the limit or
    nothing older than the active segment is left. *)
Theorem evict_until_under_spec mx m w :
  faults w = [] -> readdir (files w) ≡ₚ elements (dom (files w)) ->
  exists w', evict_until_under mx (m, w) = (Ok tt, (m, w')) /\
    (forall id, files w' !! id = files w !! id \/ id < active_id m /\ files w' !! id = None) /\
    (forall old new, old < new -> is_Some (files w' !! old) -> new < active_id m ->
       files w' !! new = files w !! new) /\
    (total_size w' (elements (dom (files w'))) <= mx \/
     forall id, is_Some (files w' !! id) -> active_id m <= id).
Proof.
  intros Hf Hrd. unfold evict_until_under, list_segment_files, mbind, M_bind, get_mgr, get_world.
  cbn [fst snd]. set (ids := sort_by_key (fun id => id) (readdir (files w))).
  assert (ids ≡ₚ elements (dom (files w))) as Hp by (unfold ids; by rewrite sort_by_key_perm).
  assert (forall id, id ∈ ids <-> is_Some (files w !! id)) as Hids.
  { intros id. rewrite Hp, elem_of_elements, elem_of_dom. done. }
  assert (NoDup ids) as Hnd by (rewrite Hp; apply NoDup_elements).
  assert (StronglySorted Z.le ids) as Hs by apply (sort_by_key_sorted (fun id => id)).
  destruct (evict_size_loop_spec (active_id m) mx m ids w Hf Hnd (fun id => proj1 (Hids id)) Hs)
    as (n & w' & E & Hrem & Hkeep & Hend).
  exists w'. split; [exact E|].
  assert (forall id, id ∈ take n ids \/ id ∉ take n ids) as Hdec.
  { intros id. destruct (decide (id ∈ take n ids)); auto. }
  assert (forall id, is_Some (files w' !! id) <-> id ∈ drop n ids) as Hleft.
  { intros id. rewrite <- (take_drop n ids) in Hids, Hnd. apply NoDup_app in Hnd as (_ & Hd & _).
    destruct (Hdec id) as [Hi|Hi].
    - destruct (Hrem id Hi) as [_ ->]. split; [by intros []|]. intros Hi'. by destruct (Hd id Hi).
    - rewrite Hkeep by done. rewrite <- Hids, elem_of_app. tauto. }
  split_and!.
  - intros id. destruct (Hdec id) as [Hi|Hi]; [right; by apply Hrem|left; by apply Hkeep].
  - intros old new Hlt Hold Hnew. apply Hkeep. intros Hn. apply Hleft in Hold.
    rewrite <- (take_drop n ids) in Hs. apply StronglySorted_app_1_elem_of with (x1 := new) (x2 := old) in Hs; [lia|done|done].
  - destruct Hend as [Hend|Hend]; [left|right; intros id Hid; by apply Hend, Hleft].
    assert (elements (dom (files w')) ≡ₚ drop n ids) as Hpe.
    { apply NoDup_Permutation; [apply NoDup_elements| |].
      - rewrite <- (take_drop n ids) in Hnd. by apply NoDup_app in Hnd as (_ & _ & ?).
      - intros id. by rewrite elem_of_elements, elem_of_dom, Hleft. }
    by rewrite Hpe.
Qed.

(** ** Checkpoint truncation *)

Section truncate.
Variables (m : SegmentManager) (w0 : World) (cp : Z).

(** Segment [id] is below the active one and its successor starts at or below
    the checkpoint. *)
Definition superseded (id : Z) : Prop :=
  id < active_id m /\ exists g h, files w0 !! (id + 1) = Some g /\
    deserialize (slice g 0 SEGMENT_HEADER_SIZE) = Ok h /\ base_sequence h <= cp.

Definition truncating (s : SegmentManager * World) : Prop :=
  s.1 = m /\
  forall id, files s.2 !! id = files w0 !! id \/ files s.2 !! id = None /\ superseded id.

Lemma truncating_read id :
  triple truncating (ok_lift (read_segment_header id))
    (fun o => forall h, o = Some h -> exists g, files w0 !! id = Some g /\
       deserialize (slice g 0 SEGMENT_HEADER_SIZE) = Ok h).
Proof.
  intros [m1 w] [Hm Hw]. simpl in *. unfold ok_lift, read_segment_header, mbind, M_bind. cbn [fst snd].
  destruct (fs_read id 0 SEGMENT_HEADER_SIZE w) as [r w'] eqn:Hr.
  assert (files w' = files w /\ forall buf, r = Ok buf -> exists g,
    files w !! id = Some g /\ buf = slice g 0 SEGMENT_HEADER_SIZE) as [Hf Hb].
  { apply syscall_inv in Hr as [(e & n & -> & ->)|Hr]; [done|]. simpl in Hr.
    destruct (files w !! id) as [g|]; [|vm_compute in Hr; by simplify_eq]. simpl in Hr.
    destruct (_ <=? _); simplify_eq; [|done]. split; [done|]. intros buf [= <-]. eauto. }
  assert (truncating (m1, w')) as HI by (split; simpl; [done|by rewrite Hf]).
  destruct r as [buf|e]; [|split; [done|]; by intros ? [= <-]].
  destruct (Hb buf eq_refl) as (g & Hg & ->).
  destruct (deserialize _) as [h|e] eqn:Hd; simpl; (split; [done|]); [|by intros ? [= <-]].
  intros o [= <-] h' [= <-]. destruct (Hw id) as [E|[E _]]; [|congruence].
  exists g. by rewrite <- E.
Qed.

Lemma truncating_remove id :
  superseded id -> triple truncating (ok_lift (fs_remove id)) (fun _ => True).
Proof.
  intros Hsup [m1 w] [Hm Hw]. unfold ok_lift. simpl in *.
  destruct (fs_remove id w) as [r w'] eqn:Hr. split; [|done]. split; [done|]. simpl. intros i.
  apply syscall_inv in Hr as [(e & n & _ & ->)|Hr]; [apply Hw|]. simpl in Hr.
  destruct (files w !! id); simplify_eq; simpl; [|apply Hw].
  destruct (decide (i = id)) as [->|]; [right; by rewrite lookup_delete_eq|].
  rewrite lookup_delete_ne by done. apply Hw.
Qed.

Lemma truncating_loop ids : triple truncating (truncate_loop (active_id m) cp ids) (fun _ => True).
Proof.
  induction ids as [|id ids IH]; simpl; [by apply triple_ret|].
  destruct (Z.leb_spec (active_id m) id) as [|Hlt]; [done|].
  eapply triple_bind; [apply truncating_read|]. intros [h|] Hh; [|done].
  destruct (Z.leb_spec (base_sequence h) cp); [|done].
  destruct (Hh h eq_refl) as (g & Hg & Hd).
  eapply triple_bind; [apply truncating_remove; split; eauto|]. by intros _ _.
Qed.
End truncate.

(** Checkpoint truncation only deletes superseded segments.  Whatever the
    listing order and whatever faults occur, a segment that
    [truncate_before_checkpoint] deletes is older than the active one and the
    header of its successor carries a base sequence at or below the checkpoint;
    every other segment file is untouched. *)
Theorem truncate_deletes_only_superseded cp m w :
  let s := (truncate_before_checkpoint cp (m, w)).2 in
  s.1 = m /\
  forall id, files s.2 !! id = files w !! id \/ files s.2 !! id = None /\ superseded m w cp id.
Proof.
  intros s. assert (triple (truncating m w cp)
    (truncate_loop (active_id m) cp (readdir (files w))) (fun _ => True)) as Ht
    by apply truncating_loop.
  apply (triple_state _ _ _ Ht (m, w)). split; [done|]. by left.
Qed.

(** ** What rolling does with a pre-allocated segment *)

Lemma lift_mgr {A} (c : M World IoError A) s : (lift c s).2.1 = s.1.
Proof. unfold lift. by destruct (c s.2). Qed.

(** Only the swap and the index reset change the manager. *)
Lemma roll_mgr nb cp m w m' w' :
  roll nb cp (m, w) = (Ok tt, (m', w')) ->
  exists w1 m2 w2, swap_active nb (m, w1) = (Ok tt, (m2, w2)) /\
    m' = set_index (fresh_index (sm_compressed m2) (active_key m2)) 0 m2.
Proof.
  unfold roll. unfold mbind at 1, M_bind at 1. cbn [get_mgr fst snd]. intros Hr.
  unfold mbind at 1, M_bind at 1 in Hr.
  pose proof (lift_mgr (backfill_header_ts (active m)) (m, w)) as H1.
  destruct (lift _ (m, w)) as [[[]|e] [m1 w1]]; [|done]. simpl in H1. subst m1.
  unfold mbind at 1, M_bind at 1 in Hr. cbn [ignore fst snd] in Hr.
  assert ((save_active_index (m, w1)).2.1 = m) as H2.
  { unfold save_active_index, mbind, M_bind, get_mgr. cbn [fst snd].
    destruct (active_index m); [|done]. destruct (index_is_empty _); [done|]. apply lift_mgr. }
  destruct (save_active_index (m, w1)) as [r [m1 w1']]. simpl in H2. subst m1. cbn [snd] in Hr.
  unfold mbind at 1, M_bind at 1 in Hr.
  destruct (swap_active nb (m, w1')) as [[[]|e] [m2 w2]] eqn:Hs; [|done].
  exists w1', m2, w2. split; [done|]. set (m3 := set_index _ 0 m2).
  unfold mbind at 1, M_bind at 1 in Hr. cbn [update fst snd] in Hr. fold m3 in Hr.
  assert (forall id, triple (fun s : SegmentManager * World => s.1 = m3)
    (lift (fs_remove id)) (fun _ => True)) as Hrm by (intros id s Hs3; by rewrite lift_mgr).
  assert (forall id, triple (fun s : SegmentManager * World => s.1 = m3)
    (lift (read_segment_header id)) (fun _ => True)) as Hrd by (intros id s Hs3; by rewrite lift_mgr).
  assert (triple (fun s : SegmentManager * World => s.1 = m3)
    (apply_retention ;; if 0 <? cp then truncate_before_checkpoint cp else mret tt)
    (fun _ => True)) as Ht.
  { eapply triple_bind; [by apply keeps_retention|]. intros [] _.
    destruct (0 <? cp); [by apply keeps_truncate_before|by apply triple_ret]. }
  destruct (Ht (m3, w2) eq_refl) as [Hm _]. rewrite Hr in Hm. exact Hm.
Qed.

(** A roll ignores the base sequence it is given when a segment was
    pre-allocated: the new active segment keeps the base sequence fixed at
    pre-allocation time, however many records have been written since. *)
Theorem roll_keeps_prepared_base nb cp m w id seg m' w' :
  prepared_segment m = Some (id, seg) -> roll nb cp (m, w) = (Ok tt, (m', w')) ->
  active_id m' = id /\ active m' = seg /\ pending_fsync m' = pending_fsync m ++ [as_path (active m)].
Proof.
  intros Hp (w1 & m2 & w2 & Hs & ->)%roll_mgr. revert Hs.
  unfold swap_active, mbind, M_bind, get_mgr, update. cbn [fst snd]. rewrite Hp.
  intros [= <- <-]. done.
Qed.

(** A raw batch appends the longest prefix that fits.  Without I/O faults
    and with an uncompressed, unencrypted segment that has room for the first
    record of the batch, [append_batch] extends the file by exactly the encoded
    records [from .. last], where [last] is the sequence it returns; the next
    record of the batch, if any, did not fit; the write offset stays within the
    segment size; no other existing file changes. *)
Theorem append_batch_writes_prefix ring from to m w pre junk :
  let vs := slot_views (Z.to_nat (to + 1 - from)) ring from in
  let fs := fit (sm_segment_size m - as_offset (active m)) vs in
  faults w = [] -> framed m = false -> mgr_at m w pre junk ->
  (prepared_segment m = None -> files w !! (active_id m + 1) = None) ->
  hashes_ok vs -> fs <> [] ->
  exists m' w', append_batch ring from to (m, w) = (Ok (from + Z.of_nat (length fs) - 1), (m', w')) /\
    mgr_at m' w' (pre ++ encoded fs) (drop (length (encoded fs)) junk) /\
    fs `prefix_of` vs /\ as_offset (active m') <= sm_segment_size m /\
    (forall id, id <> active_id m -> id <> active_id m + 1 -> files w' !! id = files w !! id).
Proof.
  intros vs fs Hf Hfr Hat Hprep Hh Hne.
  destruct (append_batch_raw ring from to m w pre junk Hf Hfr Hat Hprep Hh Hne)
    as (m' & w' & E & Hat' & _ & _ & _ & Hother & _).
  exists m', w'. split; [exact E|]. split; [done|]. split; [apply fit_prefix|]. split; [|done].
  rewrite (ma_offset _ _ _ _ Hat'), length_app, Nat2Z.inj_add, <- (ma_offset _ _ _ _ Hat).
  assert (0 <= sm_segment_size m - as_offset (active m)) as Hroom.
  { destruct vs as [|v vs'] eqn:Hv; [done|]. unfold fs in Hne. simpl in Hne.
    destruct (Z.leb_spec (view_size v) (sm_segment_size m - as_offset (active m))); [|done].
    unfold view_size, record_size in *. lia. }
  pose proof (fit_room _ vs Hroom Hh). unfold encoded, fs, vs in *. lia.
Qed.
End storage.

(** ** Concrete runs *)

Section demo.
#[local] Instance storage_demo_externals : Externals := toy.

Definition demo_dir (fl : list (option (IoError * Z))) : World := mkWorld ∅ ∅ ∅ ∅ ∅ fl [].
Definition demo_readdir (f : gmap Z bytes) : list Z := elements (dom f).

(** A ring with [n] published one-byte records. *)
Definition demo_slots (n : nat) : Ring :=
  foldl (fun r i => set_producer
           (set_slot r i (publish (producer_write (slot r i) i 7 [Byte.x61]) i)) (i + 1))
    (mkRing (replicate 16 slot_new) 15 16 0 0 0 0 false) (Z.of_nat <$> seq 0 n).

(** A new manager with [size]-byte raw segments. *)
Definition demo_create (size : Z) (ret : RetentionPolicy) : option (SegmentManager * World) :=
  match create size false false None (zeros 32) ret 0 (demo_dir []) with
  | (Ok m, w) => Some (m, w)
  | _ => None
  end.

Definition demo_state (size : Z) (ret : RetentionPolicy) : SegmentManager * World :=
  default (mkManager (mkActive 0 0 0 0 0 false 0 0) 0 0 [] [] false false None KeepAll [] None 0 None 0 0 [],
           demo_dir []) (demo_create size ret).

Definition with_faults (fl : list (option (IoError * Z))) (s : SegmentManager * World)
    : SegmentManager * World := (s.1, set_faults fl s.2).

Definition exec {A} (c : SM A) (s : SegmentManager * World) : SegmentManager * World := (c s).2.

Lemma append_batch_writes_prefix_witness :
  exists m' w', append_batch (demo_slots 3) 0 2 (demo_state 260 KeepAll) = (Ok 1, (m', w')) /\
    as_offset (active m') = 128 + 2 * 61.
Proof.
  destruct (append_batch_writes_prefix (demo_slots 3) 0 2 (demo_state 260 KeepAll).1
    (demo_state 260 KeepAll).2 (default [] (files (demo_state 260 KeepAll).2 !! 1)) [])
    as (m' & w' & E & Hat & _).
  - by vm_compute.
  - by vm_compute.
  - split; by vm_compute.
  - by vm_compute.
  - by repeat constructor.
  - by vm_compute.
  - exists m', w'. split; [exact E|]. rewrite (ma_offset _ _ _ _ Hat). by vm_compute.
Defined.

(** Segment 1 is full; its last bytes are not synced when the next segment
    becomes active. *)
Definition demo_rolled : SegmentManager * World :=
  exec (roll demo_readdir 1 0) (exec (append_batch (demo_slots 1) 0 0) (demo_state 200 KeepAll)).

Lemma demo_history : rtc (mgr_op demo_readdir) (demo_state 200 KeepAll) demo_rolled.
Proof.
  eapply rtc_l; [eapply (op_append _ (demo_slots 1) 0 0), surjective_pairing|].
  eapply rtc_l; [eapply (op_roll _ 1 0), surjective_pairing|]. apply rtc_refl.
Qed.

Lemma sync_all_covers_history_witness :
  active_id demo_rolled.1 = 2 /\ synced demo_rolled.2 !! 1 = None /\
  (forall id f, id <= 2 -> files (exec sync_all demo_rolled).2 !! id = Some f ->
     synced (exec sync_all demo_rolled).2 !! id = Some f).
Proof.
  split; [by vm_compute|]. split; [by vm_compute|].
  assert (forall A B (p : A * B), p = (p.1, p.2)) as Hp by (by intros ?? []).
  apply (sync_all_covers_history demo_readdir 200 false false None (zeros 32) KeepAll 0
    (demo_dir []) (demo_state 200 KeepAll).1 (demo_state 200 KeepAll).2 demo_rolled.1 demo_rolled.2
    (exec sync_all demo_rolled).1).
  - done.
  - vm_compute. reflexivity.
  - rewrite <- !Hp. exact demo_history.
  - vm_compute. reflexivity.
Defined.

Lemma backfill_keeps_header_valid_witness :
  exists w', backfill_header_ts (mkActive 1 128 0 5 9 false 0 0) (demo_state 200 KeepAll).2 = (Ok tt, w').
Proof.
  set (h := first_segment (zeros 32) 0 0 1 false HASH_ALGO_BLAKE3).
  destruct (backfill_keeps_header_valid (mkActive 1 128 0 5 9 false 0 0) h (zeros 32) []
    (demo_state 200 KeepAll).2) as (w' & E & _).
  - by vm_compute.
  - split; by vm_compute.
  - done.
  - by vm_compute.
  - by vm_compute.
  - vm_compute. reflexivity.
  - by exists w'.
Defined.

(** Two sealed segments and an active one; the limit keeps the last two. *)
Definition demo_three : SegmentManager * World :=
  exec (roll demo_readdir 2 0) (exec (append_batch (demo_slots 2) 1 1) demo_rolled).

Lemma evict_until_under_spec_witness :
  exists w', evict_until_under demo_readdir 320 demo_three = (Ok tt, (demo_three.1, w')) /\
    files w' !! 1 = None /\ files w' !! 2 = files demo_three.2 !! 2.
Proof.
  destruct (evict_until_under_spec demo_readdir 320 demo_three.1 demo_three.2) as (w' & E & _).
  - by vm_compute.
  - done.
  - exists w'. assert (demo_three = (demo_three.1, demo_three.2)) as Hp by (by destruct demo_three).
    rewrite Hp at 1. split; [exact E|].
    assert (w' = (exec (evict_until_under demo_readdir 320) demo_three).2) as ->.
    { unfold exec. rewrite Hp at 1. by rewrite E. }
    split; vm_compute; reflexivity.
Defined.

(** 640-byte segments: the next segment is pre-allocated after the seventh
    record, the eighth record still goes to the old one. *)
Definition demo_eight : SegmentManager * World :=
  exec (append_batch (demo_slots 9) 7 7) (exec (append_batch (demo_slots 9) 0 6) (demo_state 640 KeepAll)).

Lemma roll_keeps_prepared_base_witness :
  let m' := (exec (roll demo_readdir 8 0) demo_eight).1 in
  append_batch (demo_slots 9) 8 8 demo_eight = (Err Full, demo_eight) /\
  as_base_sequence (active m') = 7 /\ active_id m' = 2.
Proof.
  intros m'. split; [vm_compute; reflexivity|].
  assert (demo_eight = (demo_eight.1, demo_eight.2)) as Hp by (by destruct demo_eight).
  set (p := mkActive 2 128 7 U64_MAX 0 false 0 0).
  destruct (roll_keeps_prepared_base demo_readdir 8 0 demo_eight.1 demo_eight.2 2 p m'
    (exec (roll demo_readdir 8 0) demo_eight).2) as (-> & -> & _).
  - vm_compute. reflexivity.
  - vm_compute. reflexivity.
  - split; reflexivity.
Defined.

(** A failed sync forgets what it did not sync.  After [sync_all] fails on a
    rolled segment, the queue of pending segments is empty; the next [sync_all]
    succeeds without the rolled segment ever reaching stable storage. *)
Theorem sync_error_forgets_segment :
  exists fl s1 s2, sync_all (with_faults fl demo_rolled) = (Err (SegIo OtherIo), s1) /\
    sync_all s1 = (Ok tt, s2) /\ 1 < active_id s2.1 /\
    is_Some (files s2.2 !! 1) /\ synced s2.2 !! 1 = None.
Proof.
  set (s := with_faults [Some (OtherIo, 0)] demo_rolled).
  exists [Some (OtherIo, 0)], (exec sync_all s), (exec sync_all (exec sync_all s)).
  split; [vm_compute; reflexivity|]. split; [vm_compute; reflexivity|].
  split; [vm_compute; reflexivity|]. split; [vm_compute; eexists; reflexivity|].
  vm_compute; reflexivity.
Qed.

(** A pre-allocated segment's directory entry is never synced.  After the
    roll to it and a successful [sync_all] its contents are synced, but the
    directory entry is not: nothing in the pre-allocation path syncs the
    directory. *)
Theorem prepared_segment_not_linked :
  exists s, sync_all demo_rolled = (Ok tt, s) /\ active_id s.1 = 2 /\
    synced s.2 !! 2 = files s.2 !! 2 /\ 2 ∉ linked s.2.
Proof.
  exists (exec sync_all demo_rolled). split; [vm_compute; reflexivity|].
  split; [vm_compute; reflexivity|]. split; [vm_compute; reflexivity|].
  assert (linked (exec sync_all demo_rolled).2 = {[1]}) as -> by (vm_compute; reflexivity).
  set_solver.
Qed.

(** A batch can be written twice.  When the pre-allocation at the end of
    [append_batch] fails, the call reports an error although the batch is in the
    file and the write offset has moved; the caller's retry writes the same
    records again. *)
Theorem failed_prepare_duplicates_batch :
  exists s fl s1 s2, append_batch (demo_slots 8) 7 7 (with_faults fl s) = (Err (SegIo Enospc), s1) /\
    append_batch (demo_slots 8) 7 7 s1 = (Ok 7, s2) /\
    let rec := encoded (slot_views 1 (demo_slots 8) 7) in
    files s2.2 !! 1 = (fun f => f ++ rec ++ rec) <$> files s.2 !! 1.
Proof.
  set (s := exec (append_batch (demo_slots 8) 0 6) (demo_state 694 KeepAll)).
  set (s1 := exec (append_batch (demo_slots 8) 7 7) (with_faults [None; Some (Enospc, 0)] s)).
  exists s, [None; Some (Enospc, 0)], s1, (exec (append_batch (demo_slots 8) 7 7) s1).
  split; [vm_compute; reflexivity|]. split; vm_compute; reflexivity.
Qed.

(** Retention can delete a segment that still waits for its sync: the next
    [sync_all] fails on the missing file. *)
Theorem retention_breaks_pending_sync :
  exists s, roll demo_readdir 1 0 (exec (append_batch (demo_slots 1) 0 0) (demo_state 200 (MaxBytes 100)))
      = (Ok tt, s) /\
    pending_fsync s.1 = [1] /\ files s.2 !! 1 = None /\ (sync_all s).1 = Err (SegIo OtherIo).
Proof.
  eexists. split; [vm_compute; reflexivity|]. split; [reflexivity|]. split; vm_compute; reflexivity.
Qed.

(** The configured index stride is lost at the first roll. *)
Theorem roll_resets_index_stride :
  let s := (set_index_stride 4 (demo_state 200 KeepAll).1, (demo_state 200 KeepAll).2) in
  stride <$> active_index s.1 = Some 4 /\
  stride <$> active_index (exec (roll demo_readdir 1 0) s).1 = Some DEFAULT_STRIDE.
Proof. split; vm_compute; reflexivity. Qed.
End demo.
