(* ===== verification/Frame.v ===== *)
(** * Frames of compressed and encrypted segments ([decompress_frame],
      [decrypt_frame_data] and [decode_frame_payload] of
      [logdb/src/reader/mod.rs])

    The reading side of the frame layout, and that it inverts the writing side
    in [Storage]. *)
From stdpp Require Import base gmap list numbers.
From coqutil Require Import Byte.
From Stdlib Require Import ZArith Lia.
From S2P Require Import Prelude Externals Format Index Config Ring KeyRing FileSys Storage.
Open Scope Z_scope.

Inductive FrameError := ZstdError | TooShort | DecryptionFailed | NoKey.

Section frame.
Context `{Externals}.

Definition decompress_frame (compressed : bytes) : result FrameError bytes :=
  match zstd_decode compressed with Some raw => Ok raw | None => Err ZstdError end.

(** Each key in turn, until one authenticates. *)
Fixpoint try_keys (keys : list (Z * bytes)) (nonce ct : bytes) : result FrameError bytes :=
  match keys with
  | [] => Err DecryptionFailed
  | (_, k) :: keys =>
      match aes_decrypt k nonce ct with
      | Some plain => Ok plain
      | None => try_keys keys nonce ct
      end
  end.

Definition decrypt_frame_data (keys : KeyRing) (encrypted : bytes) : result FrameError bytes :=
  if blen encrypted <? ENCRYPTION_NONCE_SIZE then Err TooShort
  else
    let nonce := slice encrypted 0 ENCRYPTION_NONCE_SIZE in
    let ct := drop (Z.to_nat ENCRYPTION_NONCE_SIZE) encrypted in
    try_keys (decrypt_keys keys) nonce ct.

Definition decode_frame_payload (payload : bytes) (compressed encrypted : bool)
    (key_ring : option KeyRing) : result FrameError bytes :=
  plain ← (if encrypted then
             match key_ring with
             | None => Err NoKey
             | Some kr => decrypt_frame_data kr payload
             end
           else Ok payload);
  if compressed then decompress_frame plain else Ok plain.

(** ** Round trip *)

(** The payload [append_batch] builds from the raw records, for a nonce. *)
Definition frame_payload (compressed : bool) (key : option bytes) (nonce raw : bytes)
    : option bytes :=
  c ← (if compressed then zstd_encode raw else Some raw);
  match key with
  | None => Some c
  | Some k => (fun ct => nonce ++ ct) <$> aes_encrypt k nonce c
  end.

Lemma try_keys_found `{!ExternalLaws} keys k id nonce pt ct :
  Forall (fun e : Z * bytes => length e.2 = 32%nat) keys -> (id, k) ∈ keys ->
  aes_encrypt k nonce pt = Some ct -> try_keys keys nonce ct = Ok pt.
Proof.
  intros Hl Hin He. induction keys as [|[i k'] keys IH]; [set_solver|]. simpl.
  inversion Hl as [|?? Hk' Hl']; simplify_eq. simpl in Hk'.
  destruct (decide (k' = k)) as [->|Hne]; [by rewrite (aes_round _ _ _ _ He)|].
  rewrite (aes_auth k k' nonce pt ct); [|..|done|done].
  - apply IH; [done|]. apply elem_of_cons in Hin as [|]; [congruence|done].
  - apply list_elem_of_lookup_1 in Hin as [j Hj]. exact (Forall_lookup_1 _ _ _ _ Hl Hj).
  - done.
Qed.

(** A frame written under any key of the ring decodes to the records it was
    built from. *)
Lemma decode_payload `{!ExternalLaws} compressed key keys nonce raw payload :
  length nonce = 12%nat ->
  match key with
  | None => True
  | Some k => exists kr id, keys = Some kr /\ (id, k) ∈ decrypt_keys kr /\
      Forall (fun e : Z * bytes => length e.2 = 32%nat) (decrypt_keys kr)
  end ->
  frame_payload compressed key nonce raw = Some payload ->
  decode_frame_payload payload compressed (bool_decide (is_Some key)) keys = Ok raw.
Proof.
  intros Hn Hk. unfold frame_payload, decode_frame_payload.
  destruct (if compressed then zstd_encode raw else Some raw) as [c|] eqn:Hc; simpl; [|done].
  assert ((if compressed then decompress_frame c else Ok c) = Ok raw) as Hz.
  { destruct compressed; [|by simplify_eq]. unfold decompress_frame. by rewrite (zstd_round _ _ Hc). }
  destruct key as [k|]; simpl.
  - destruct Hk as (kr & id & -> & Hin & Hl).
    destruct (aes_encrypt k nonce c) as [ct|] eqn:He; simpl; [|done]. intros [= <-].
    unfold decrypt_frame_data, ENCRYPTION_NONCE_SIZE.
    rewrite (proj2 (Z.ltb_ge _ _)) by len.
    rewrite slice_app_exact by lia. change (Z.to_nat 12) with 12%nat.
    rewrite drop_app_length' by done. by erewrite try_keys_found.
  - intros [= <-]. done.
Qed.

(** ** What a framed batch puts in the file *)

Definition next_nonce (w : World) : bytes := default (zeros 12) (head (nonces w)).

Definition use_nonce (key : option bytes) (w : World) : World :=
  match key with None => w | Some _ => set_nonces (tail (nonces w)) w end.

Lemma encrypt_ok key pt payload m w :
  faults w = [] ->
  match key with
  | None => Some pt
  | Some k => (fun ct => next_nonce w ++ ct) <$> aes_encrypt k (next_nonce w) pt
  end = Some payload ->
  encrypt_if_enabled key pt (m, w) = (Ok payload, (m, use_nonce key w)).
Proof.
  intros Hf Hp. unfold encrypt_if_enabled. destruct key as [k|]; [|by simplify_eq].
  unfold mbind, M_bind, lift, fs_nonce. cbn [fst snd]. rewrite syscall_ok by done.
  cbn [map_err fst snd]. fold (next_nonce w).
  destruct (aes_encrypt k (next_nonce w) pt); simpl in Hp; by simplify_eq.
Qed.

Lemma write_batch_framed start pos m w f payload :
  faults w = [] -> framed m = true -> files w !! as_path (active m) = Some f ->
  frame_payload (as_compressed (active m)) (active_key m) (next_nonce w)
    (slice (write_buf m) 0 pos) = Some payload ->
  let hdr := write_frame_header (u32 (blen payload)) (u32 pos) in
  write_batch start pos (m, w) =
  (Ok tt,
   (set_active (set_frame (start + 8 + blen payload) (decompressed_offset (active m) + pos)
                  (u32 (frame_number (active m) + 1)) (active m)) m,
    set_files (<[as_path (active m) :=
      file_write (start + 8) payload (file_write start hdr f)]> (files w)) (use_nonce (active_key m) w))).
Proof.
  intros Hf Hfr Hi Hp hdr. unfold write_batch. unfold mbind at 1, M_bind at 1. cbn [get_mgr fst snd].
  rewrite Hfr. unfold frame_payload in Hp.
  assert (forall c, match active_key m with None => Some c
      | Some k => (fun ct => next_nonce w ++ ct) <$> aes_encrypt k (next_nonce w) c end = Some payload ->
    encrypt_if_enabled (active_key m) c (m, w) = (Ok payload, (m, use_nonce (active_key m) w))) as Henc.
  { intros c Hc. by apply encrypt_ok. }
  assert ((if as_compressed (active m)
           then match zstd_encode (slice (write_buf m) 0 pos) with
                | Some c => encrypt_if_enabled (active_key m) c
                | None => throw (SegIo OtherIo)
                end
           else encrypt_if_enabled (active_key m) (slice (write_buf m) 0 pos)) (m, w) =
    (Ok payload, (m, use_nonce (active_key m) w))) as E.
  { destruct (as_compressed (active m)); [|by apply Henc].
    destruct (zstd_encode _); [by apply Henc|done]. }
  unfold mbind at 1, M_bind at 1. rewrite E. clear E Henc Hp.
  set (w1 := use_nonce (active_key m) w).
  assert (faults w1 = [] /\ files w1 = files w) as [Hf1 Hfi1] by (unfold w1; by destruct (active_key m)).
  unfold mbind, M_bind, lift. cbn [fst snd]. erewrite fs_write_ok; [|done|by rewrite Hfi1].
  cbn [map_err fst snd]. erewrite fs_write_ok; [|done|apply lookup_insert_eq].
  cbn [map_err fst snd files set_files update]. unfold FRAME_HEADER_SIZE. rewrite insert_insert_eq.
  do 3 f_equal. unfold set_files. simpl. by rewrite Hfi1.
Qed.

(** Framed batches can be read back.  Without I/O faults, appending a batch
    to a compressed or encrypted segment extends the file by one frame: an
    8-byte header with the payload's length and the length of the records, and
    a payload from which [decode_frame_payload] recovers exactly the encoded
    records, also with a later key ring in which the writing key is only one of
    several. *)
Theorem framed_batch_decodes `{!ExternalLaws} ring from to m w pre junk payload keys :
  let vs := slot_views (Z.to_nat (to + 1 - from)) ring from in
  let fs := fit (sm_segment_size m - as_offset (active m)) vs in
  faults w = [] -> framed m = true -> mgr_at m w pre junk ->
  (prepared_segment m = None -> files w !! (active_id m + 1) = None) ->
  hashes_ok vs -> fs <> [] -> length (next_nonce w) = 12%nat ->
  frame_payload (as_compressed (active m)) (active_key m) (next_nonce w) (encoded fs) = Some payload ->
  match active_key m with
  | None => True
  | Some k => exists kr id, keys = Some kr /\ (id, k) ∈ decrypt_keys kr /\
      Forall (fun e : Z * bytes => length e.2 = 32%nat) (decrypt_keys kr)
  end ->
  exists m' w' junk', append_batch ring from to (m, w) = (Ok (from + Z.of_nat (length fs) - 1), (m', w')) /\
    mgr_at m' w' (pre ++ write_frame_header (u32 (blen payload)) (u32 (blen (encoded fs))) ++ payload)
      junk' /\
    decode_frame_payload payload (as_compressed (active m)) (bool_decide (is_Some (active_key m))) keys
      = Ok (encoded fs).
Proof.
  intros vs fs Hf Hfr Hat Hprep Hh Hne Hnonce Hpay Hkeys.
  assert (vs <> []) as Hvs.
  { intros Hvs. apply Hne. subst fs. by rewrite Hvs. }
  destruct (append_loop_batch ring from to m Hh Hne) as (b & Hloop & Hs).
  fold vs in Hloop, Hs. fold fs in Hloop, Hs.
  unfold append_batch. unfold mbind at 1, M_bind at 1. cbn [get_mgr fst snd].
  unfold mbind at 1, M_bind at 1. cbn [fst snd]. rewrite Hloop. clear Hloop.
  assert (hashes_ok fs) as Hhf by (by apply hashes_ok_fit).
  rewrite (proj2 (Z.ltb_lt _ _)) by (by apply encoded_pos).
  destruct (index_views_eq fs (as_offset (active m)) m) as (i & c & ->).
  destruct (ts_range_eq fs (active m)) as (lo & hi & ->).
  destruct Hat as [Hpath Hfile Hoff].
  unfold mbind at 1, M_bind at 1.
  rewrite (write_batch_framed _ _ _ w (pre ++ junk) payload); [|done|done|by rewrite <- Hfile, <- Hpath|].
  2:{ cbn [write_buf set_active set_write_buf active as_path as_compressed]. by rewrite Hs. }
  cbn [set_active set_write_buf active as_path as_compressed].
  set (hdr := write_frame_header _ _). rewrite file_write_over by (by rewrite Hoff).
  assert (length hdr = 8%nat) as Hhdr by (unfold hdr, write_frame_header; by autorewrite with len).
  rewrite app_assoc, file_write_over by (rewrite Hoff; len).
  set (m1 := set_active _ _). set (w1 := set_files _ _).
  unfold mbind at 1, M_bind at 1.
  destruct (maybe_prepare_ok (u64 (from + Z.of_nat (length fs) - 1 + 1)) m1 w1) as (p & fs' & -> & Hfs').
  { unfold w1, use_nonce. simpl. by destruct (active_key _). }
  { subst m1 w1. simpl. by rewrite lookup_insert_ne by lia. }
  eexists _, _, (drop (length payload) (drop (length hdr) junk)). split; [reflexivity|]. subst m1 w1. simpl in *. split.
  - split; simpl; [done| |rewrite Hoff; len].
    rewrite Hfs' by lia. rewrite Hpath, lookup_insert_eq. by rewrite <- !app_assoc.
  - by eapply decode_payload.
Qed.
End frame.

(** ** A concrete run *)

Section demo.
#[local] Instance frame_demo_externals : Externals := toy.

Definition demo_key1 : bytes := replicate 32 Byte.x01.
Definition demo_key2 : bytes := replicate 32 Byte.x02.

(** A compressed and encrypted manager, and a ring after rotating the key. *)
Definition demo_enc : SegmentManager * World :=
  match create 4096 false true (Some (kr_single demo_key1)) (zeros 32) KeepAll 0 (demo_dir []) with
  | (Ok m, w) => (m, w)
  | _ => demo_state 4096 KeepAll
  end.

Definition demo_rotated : KeyRing := kr_new demo_key2 [demo_key1].

Lemma framed_batch_decodes_witness :
  exists payload, decode_frame_payload payload true true (Some demo_rotated) =
    Ok (encoded (slot_views 2 (demo_slots 2) 0)).
Proof.
  set (raw := encoded (slot_views 2 (demo_slots 2) 0)).
  set (payload := zeros 12 ++ demo_key1 ++ Byte.x5a :: raw).
  destruct (@framed_batch_decodes _ toy_laws (demo_slots 2) 0 1 demo_enc.1 demo_enc.2
    (default [] (files demo_enc.2 !! 1)) [] payload (Some demo_rotated)) as (m' & w' & j & _ & _ & Hd).
  - vm_compute. reflexivity.
  - vm_compute. reflexivity.
  - split; vm_compute; reflexivity.
  - vm_compute. reflexivity.
  - by repeat constructor.
  - vm_compute. discriminate.
  - vm_compute. reflexivity.
  - vm_compute. reflexivity.
  - exists demo_rotated, (key_id_from_bytes demo_key1). split; [reflexivity|].
    split; [right; left|]. by repeat constructor.
  - exists payload. exact Hd.
Defined.
End demo.
