(* ===== verification/Recovery.v ===== *)
(** * Crash recovery ([logdb/src/recovery.rs])

    Validating the segment headers, resolving the hash-chain key, scanning the
    last segment up to its last trustworthy record and truncating the rest.
    Recovery's own I/O is taken to succeed: an error there ends [LogDb::open]
    before anything is changed, except for the truncation itself. *)
From stdpp Require Import base gmap list numbers sorting.
From coqutil Require Import Byte.
From Stdlib Require Import ZArith Lia.
From S2P Require Import Prelude Externals RustStd Format Index Config Ring Sealer KeyRing FileSys.
From S2P Require Import Storage Frame.
Open Scope Z_scope.

Inductive HeaderProblem :=
| FileTooSmall (n : Z)
| IdMismatch (header_id file_id : Z)
| BadHeader (e : HeaderError)
| CrcMismatchAt (record_id offset : Z).

Inductive RecoveryWarning :=
| TornWrite (segment_id at_record_id at_offset : Z)
| CorruptedHeader (segment_id : Z) (reason : HeaderProblem)
| MissingSegment (expected_id : Z)
| HashChainBreak (segment_id : Z) (expected_hash found_hash : bytes).

Inductive RecoveryError := NoSegmentFiles | NoValidSegments | ReadFailed.

(** [file.set_len(n)]: truncates or extends with zeros. *)
Definition set_len (n : Z) (f : bytes) : bytes := take (Z.to_nat n) f ++ zeros (n - blen f).

(** [seek] and [read_exact]. *)
Definition read_exact (f : bytes) (off n : Z) : option bytes :=
  if off + n <=? blen f then Some (slice f off (off + n)) else None.

(** The mutable state of [scan_last_segment], the file included. *)
Record Scan := mkScan {
  sc_file : bytes;
  sc_offset : Z;
  last_valid_offset : Z;
  sc_last_sequence : Z;
  sc_last_hash : bytes;
  sc_warnings : list RecoveryWarning;
  expected_record_id : Z;
  sc_count : Z;
  chain_prev : bytes;
}.

(** How an iteration of a scan loop ends. *)
Inductive Iter := Continue (s : Scan) | Break (s : Scan) | Fail.

Section recovery.
Context `{Externals}.
Variable readdir : gmap Z bytes -> list Z.

Section scan.
(** The parameters of [scan_last_segment] and the file size it reads first. *)
Variables (segment_id : Z) (hash_enabled : bool) (chain_key : bytes) (keys : option KeyRing)
  (shard_bits file_size : Z).

Definition id_stride : Z := Z.shiftl 1 shard_bits.

Definition warn (w : RecoveryWarning) (s : Scan) : Scan :=
  mkScan (sc_file s) (sc_offset s) (last_valid_offset s) (sc_last_sequence s) (sc_last_hash s)
    (sc_warnings s ++ [w]) (expected_record_id s) (sc_count s) (chain_prev s).

(** The macro [torn!], without its [break]. *)
Definition torn (at_offset : Z) (s : Scan) : Scan :=
  warn (TornWrite segment_id (expected_record_id s) at_offset)
    (mkScan (set_len (last_valid_offset s) (sc_file s)) (sc_offset s) (last_valid_offset s)
       (sc_last_sequence s) (sc_last_hash s) (sc_warnings s) (expected_record_id s) (sc_count s)
       (chain_prev s)).

(** The id test: the first record of a sharded segment may have any id. *)
Definition unexpected_id (r : Rec) (s : Scan) : bool :=
  negb (rec_seq r =? expected_record_id s) && negb ((sc_count s =? 0) && (0 <? shard_bits)).

(** [last_sequence], [last_hash] and [count] move before the hash is checked. *)
Definition count_record (r : Rec) (s : Scan) : Scan :=
  mkScan (sc_file s) (sc_offset s) (last_valid_offset s) (rec_seq r) (hash_n r)
    (sc_warnings s) (expected_record_id s) (sc_count s + 1) (chain_prev s).

Definition hash_breaks (r : Rec) (s : Scan) : option bytes :=
  if hash_enabled then
    let expected := blake3_keyed_chain chain_key (chain_prev s) (content r) in
    if decide (expected = hash_n r) then None else Some expected
  else None.

(** The record is accepted: the chain, the expected id and the offsets move. *)
Definition accept (r : Rec) (valid offset : Z) (s : Scan) : Scan :=
  mkScan (sc_file s) offset valid (sc_last_sequence s) (sc_last_hash s) (sc_warnings s)
    (u64 (rec_seq r + id_stride)) (sc_count s)
    (if hash_enabled then hash_n r else chain_prev s).

(** ** Raw mode *)

(** One iteration of the raw loop. *)
Definition raw_step (s : Scan) : Iter :=
  let off := sc_offset s in
  if file_size <? off + 4 then Break (torn off s)
  else
    match read_exact (sc_file s) off 4 with
    | None => Fail
    | Some len_buf =>
        let total := from_le len_buf in
        if total <? MIN_RECORD_SIZE then Break (torn off s)
        else if file_size <? off + total then Break (torn off s)
        else
          match read_exact (sc_file s) off total with
          | None => Fail
          | Some record_buf =>
              match deserialize_record record_buf with
              | Ok (record, _) =>
                  if unexpected_id record s then Break (torn off s)
                  else
                    let s := count_record record s in
                    match hash_breaks record s with
                    | Some expected =>
                        Break (torn off (warn (HashChainBreak segment_id expected (hash_n record)) s))
                    | None => Continue (accept record (off + total) (off + total) s)
                    end
              | Err _ =>
                  let after_record := off + total in
                  if file_size <=? after_record then Break (torn off s)
                  else
                    let s := warn (CorruptedHeader segment_id
                                     (CrcMismatchAt (expected_record_id s) off)) s in
                    Continue (mkScan (sc_file s) after_record (last_valid_offset s)
                                (sc_last_sequence s) (sc_last_hash s) (sc_warnings s)
                                (expected_record_id s) (sc_count s) (chain_prev s))
              end
          end
    end.

(** ** Frame mode *)

(** The loop over the records of a decoded frame; [false] is [frame_ok = false].
    The [break] of a hash mismatch leaves only this loop. *)
Fixpoint frame_records (fuel : nat) (decoded : bytes) (valid_len doff : Z) (s : Scan)
    : option (Scan * bool) :=
  match fuel with
  | O => None
  | S fuel =>
      if valid_len <? doff + MIN_RECORD_SIZE then Some (s, true)
      else
        let total := get_le decoded doff 4 in
        if (total <? MIN_RECORD_SIZE) || (valid_len <? doff + total) then Some (s, true)
        else
          match deserialize_record (slice decoded doff (doff + total)) with
          | Ok (record, _) =>
              if unexpected_id record s then Some (s, false)
              else
                let s := count_record record s in
                match hash_breaks record s with
                | Some expected =>
                    Some (torn (sc_offset s)
                            (warn (HashChainBreak segment_id expected (hash_n record)) s), true)
                | None =>
                    frame_records fuel decoded valid_len (doff + total)
                      (accept record (last_valid_offset s) (sc_offset s) s)
                end
          | Err _ => Some (s, false)
          end
  end.

(** One iteration of the frame loop. *)
Definition frame_step (is_compressed is_encrypted : bool) (s : Scan) : Iter :=
  let off := sc_offset s in
  if file_size <? off + FRAME_HEADER_SIZE then Break (torn off s)
  else
    match read_exact (sc_file s) off FRAME_HEADER_SIZE with
    | None => Break (torn off s)
    | Some fh =>
        let '(cl, dl) := read_frame_header fh in
        if (cl =? 0) || (dl =? 0) || (file_size <? off + FRAME_HEADER_SIZE + cl)
        then Break (torn off s)
        else
          match read_exact (sc_file s) (off + FRAME_HEADER_SIZE) cl with
          | None => Break (torn off s)
          | Some payload =>
              match decode_frame_payload payload is_compressed is_encrypted keys with
              | Err _ => Break (torn off s)
              | Ok decoded =>
                  let valid_len := Z.min dl (blen decoded) in
                  match frame_records (S (length decoded)) decoded valid_len 0 s with
                  | None => Fail
                  | Some (s, false) => Break (torn off s)
                  | Some (s, true) =>
                      let v := off + FRAME_HEADER_SIZE + cl in
                      Continue (mkScan (sc_file s) v v (sc_last_sequence s) (sc_last_hash s)
                                  (sc_warnings s) (expected_record_id s) (sc_count s) (chain_prev s))
                  end
              end
          end
    end.

(** [while offset < file_size]. *)
Fixpoint scan_while (step : Scan -> Iter) (fuel : nat) (s : Scan) : option Scan :=
  match fuel with
  | O => None
  | S fuel =>
      if sc_offset s <? file_size then
        match step s with
        | Continue s => scan_while step fuel s
        | Break s => Some s
        | Fail => None
        end
      else Some s
  end.
End scan.

(** The state before the first iteration. *)
Definition scan_start (header : SegmentHeader) (f : bytes) : Scan :=
  mkScan f SEGMENT_HEADER_SIZE SEGMENT_HEADER_SIZE (u64 (base_sequence header - 1)) (zeros 32) []
    (base_sequence header) 0 (prev_last_hash header).

(** [scan_last_segment]; one iteration per byte is more than enough. *)
Definition scan_last_segment (f : bytes) (segment_id : Z) (header : SegmentHeader)
    (hash_enabled : bool) (chain_key : bytes) (keys : option KeyRing) (shard_bits : Z)
    : option Scan :=
  let is_compressed := has_flag (flags header) FLAG_COMPRESSED_ZSTD in
  let is_encrypted := has_flag (flags header) FLAG_ENCRYPTED_AES256GCM in
  let step :=
    if is_compressed || is_encrypted
    then frame_step segment_id hash_enabled chain_key keys shard_bits (blen f) is_compressed is_encrypted
    else raw_step segment_id hash_enabled chain_key shard_bits (blen f) in
  scan_while (blen f) step (S (length f)) (scan_start header f).

(** ** The hash-chain key *)

(** [decode_first_record]. *)
Definition decode_first_record (f : bytes) (compressed encrypted : bool) (ring : KeyRing)
    : option (bytes * bytes) :=
  fh ← read_exact f SEGMENT_HEADER_SIZE FRAME_HEADER_SIZE;
  let '(cl, _) := read_frame_header fh in
  if cl =? 0 then None
  else
    payload ← read_exact f (SEGMENT_HEADER_SIZE + FRAME_HEADER_SIZE) cl;
    plain ← ok_of (decode_frame_payload payload compressed encrypted (Some ring));
    if blen plain <? MIN_RECORD_SIZE then None
    else
      let len := get_le plain 0 4 in
      if blen plain <? len then None
      else
        '(record, _) ← ok_of (deserialize_record (slice plain 0 len));
        Some (content record, hash_n record).

(** The first candidate key that authenticates the first record. *)
Definition authenticates (header : SegmentHeader) (cont hash : bytes) (cand : bytes) : bool :=
  bool_decide (blake3_keyed_chain cand (prev_last_hash header) cont = hash).

(** [resolve_chain_key]. *)
Definition resolve_chain_key (f : bytes) (header : SegmentHeader) (encryption_key : option KeyRing)
    : bytes :=
  match encryption_key with
  | None => hash_init header
  | Some ring =>
      match decode_first_record f (has_flag (flags header) FLAG_COMPRESSED_ZSTD)
              (has_flag (flags header) FLAG_ENCRYPTED_AES256GCM) ring with
      | None => derive_hash_init (kr_active ring)
      | Some (cont, hash) =>
          let hint := if encryption_key_id header =? 0 then []
                      else option_list (key_for_id ring (encryption_key_id header)) in
          let cands := map (fun k => xor32 (hash_init header) (derive_hash_init k))
                         (hint ++ map snd (decrypt_keys ring)) in
          match List.find (authenticates header cont hash) cands with
          | Some cand => cand
          | None => derive_hash_init (kr_active ring)
          end
      end
  end.

(** [mask_chain_key]. *)
Definition mask_chain_key (chain_key : bytes) (encryption_key : option KeyRing) : bytes :=
  match encryption_key with
  | Some kr => xor32 chain_key (derive_hash_init (kr_active kr))
  | None => chain_key
  end.

(** ** Recovering a shard *)

Record RecoveryState := mkRecovery {
  segment_manager : SegmentManager;
  last_sequence : Z;
  last_hash : bytes;
  rs_active_segment_id : Z;
  rs_active_offset : Z;
  rs_hash_enabled : bool;
  rs_hash_init : bytes;
  warnings : list RecoveryWarning;
  recovered_count : Z;
}.

(** The header loop: the valid segments up to the first bad one. *)
Fixpoint validate_headers (files : gmap Z bytes) (ids : list Z)
    : list (Z * bytes * SegmentHeader) * list RecoveryWarning :=
  match ids with
  | [] => ([], [])
  | id :: ids =>
      let f := default [] (files !! id) in
      if blen f <? SEGMENT_HEADER_SIZE then ([], [CorruptedHeader id (FileTooSmall (blen f))])
      else
        match deserialize (slice f 0 SEGMENT_HEADER_SIZE) with
        | Ok header =>
            if negb (Format.segment_id header =? id)
            then ([], [CorruptedHeader id (IdMismatch (Format.segment_id header) id)])
            else let '(vs, ws) := validate_headers files ids in ((id, f, header) :: vs, ws)
        | Err e => ([], [CorruptedHeader id (BadHeader e)])
        end
  end.

(** [recover_shard]; also the files after the truncation.  The continuity check
    across segments compares with an expected hash that is always zero, so it
    never adds a warning. *)
Definition recover_shard (files : gmap Z bytes) (shard_bits segment_size : Z)
    (retention : RetentionPolicy) (encryption_key : option KeyRing)
    : result RecoveryError (RecoveryState * gmap Z bytes) :=
  let seg_files := sort_by_key (fun id => id) (readdir files) in
  match seg_files with
  | [] => Err NoSegmentFiles
  | _ =>
      let '(valid, ws) := validate_headers files seg_files in
      match valid with
      | [] => Err NoValidSegments
      | (_, first_file, first_header) :: _ =>
          let enabled := Format.hash_enabled first_header in
          let key := resolve_chain_key first_file first_header encryption_key in
          let '(last_id, last_file, last_header) := List.last valid (0, [], first_header) in
          match scan_last_segment last_file last_id last_header enabled key encryption_key shard_bits with
          | None => Err ReadFailed
          | Some s =>
              let masked := mask_chain_key key encryption_key in
              let mgr := open_existing last_id (last_valid_offset s) last_header segment_size
                           (sc_last_hash s) masked enabled encryption_key retention in
              Ok (mkRecovery mgr (sc_last_sequence s) (sc_last_hash s) last_id (last_valid_offset s)
                    enabled key (ws ++ sc_warnings s) (sc_count s),
                  <[last_id := sc_file s]> files)
          end
      end
  end.

(** ** The scan always ends with a result *)

Section total.
Variables (segment_id : Z) (hash_enabled : bool) (chain_key : bytes) (keys : option KeyRing)
  (shard_bits file_size : Z).

Abbreviation raw := (raw_step segment_id hash_enabled chain_key shard_bits file_size).
Abbreviation frame := (frame_step segment_id hash_enabled chain_key keys shard_bits file_size).
Abbreviation records := (frame_records segment_id hash_enabled chain_key shard_bits).

Lemma read_exact_Some f off n : off + n <= blen f -> read_exact f off n = Some (slice f off (off + n)).
Proof. intros. unfold read_exact. by rewrite (proj2 (Z.leb_le _ _)). Qed.

Lemma read_exact_inv f off n b :
  read_exact f off n = Some b -> off + n <= blen f /\ b = slice f off (off + n).
Proof. unfold read_exact. destruct (Z.leb_spec (off + n) (blen f)); [|done]. by intros [= <-]. Qed.

(** A raw iteration either breaks or moves forward over at least one record,
    leaving the file alone. *)
Lemma raw_step_cases s :
  file_size = blen (sc_file s) -> 0 <= sc_offset s ->
  (exists s', raw s = Break s') \/
  exists s', raw s = Continue s' /\ sc_file s' = sc_file s /\ sc_offset s + 60 <= sc_offset s'.
Proof.
  intros Hsz H0. unfold raw_step.
  destruct (Z.ltb_spec file_size (sc_offset s + 4)); [left; by eexists|].
  rewrite read_exact_Some by lia. set (total := from_le _).
  destruct (Z.ltb_spec total MIN_RECORD_SIZE); [left; by eexists|].
  destruct (Z.ltb_spec file_size (sc_offset s + total)); [left; by eexists|].
  rewrite read_exact_Some by lia. unfold MIN_RECORD_SIZE in *.
  destruct (deserialize_record _) as [[r n]|e].
  - destruct (unexpected_id _ r s); [left; by eexists|].
    destruct (hash_breaks _ _ r _); [left; by eexists|].
    right. eexists. split; [done|]. simpl. split; [done|lia].
  - destruct (file_size <=? _); [left; by eexists|].
    right. eexists. split; [done|]. simpl. split; [done|lia].
Qed.

Lemma raw_total fuel s :
  file_size = blen (sc_file s) -> 0 <= sc_offset s -> Z.max 0 (file_size - sc_offset s) < Z.of_nat fuel ->
  is_Some (scan_while file_size raw fuel s).
Proof.
  revert s. induction fuel as [|fuel IH]; intros s Hsz H0 Hf.
  { lia. }
  cbn [scan_while]. destruct (Z.ltb_spec (sc_offset s) file_size); [|by eexists].
  destruct (raw_step_cases s Hsz H0) as [[s' ->]|(s' & -> & Hfi & Hoff)]; [by eexists|].
  apply IH; [by rewrite Hfi|lia|lia].
Qed.

Lemma records_total fuel decoded valid_len doff s :
  0 <= doff -> Z.max 0 (valid_len - doff) < Z.of_nat fuel ->
  exists s' b, records fuel decoded valid_len doff s = Some (s', b).
Proof.
  revert doff s. induction fuel as [|fuel IH]; intros doff s H0 Hf; [lia|]. cbn [frame_records].
  destruct (Z.ltb_spec valid_len (doff + MIN_RECORD_SIZE)); [by eexists _, _|].
  unfold MIN_RECORD_SIZE in *. set (total := get_le decoded doff 4).
  destruct (Z.ltb_spec total 60), (Z.ltb_spec valid_len (doff + total)); try by eexists _, _.
  simpl. destruct (deserialize_record _) as [[r n]|e]; [|by eexists _, _].
  destruct (unexpected_id _ r s); [by eexists _, _|].
  destruct (hash_breaks _ _ r _); [by eexists _, _|]. apply IH; lia.
Qed.

Lemma frame_step_cases c e s :
  0 <= sc_offset s ->
  (exists s', frame c e s = Break s') \/
  exists s', frame c e s = Continue s' /\ sc_offset s + 8 <= sc_offset s'.
Proof.
  intros H0. unfold frame_step, FRAME_HEADER_SIZE.
  destruct (Z.ltb_spec file_size (sc_offset s + 8)); [left; by eexists|].
  destruct (read_exact _ _ 8) as [fh|]; [|left; by eexists].
  unfold read_frame_header. destruct (_ || _ || _) eqn:Hb; [left; by eexists|].
  destruct (read_exact _ _ _) as [payload|]; [|left; by eexists].
  destruct (decode_frame_payload _ _ _ _) as [decoded|]; [|left; by eexists].
  destruct (records_total (S (length decoded)) decoded (Z.min (get_le fh 4 4) (blen decoded)) 0 s)
    as (s' & b & ->); [lia|lia|].
  destruct b; [|left; by eexists]. right. eexists. split; [done|]. simpl.
  pose proof (get_le_range fh 0 4 ltac:(lia)) as [? _]. lia.
Qed.

Lemma frame_total c e fuel s :
  0 <= sc_offset s -> Z.max 0 (file_size - sc_offset s) < Z.of_nat fuel ->
  is_Some (scan_while file_size (frame c e) fuel s).
Proof.
  revert s. induction fuel as [|fuel IH]; intros s H0 Hf; [lia|].
  cbn [scan_while]. destruct (Z.ltb_spec (sc_offset s) file_size); [|by eexists].
  destruct (frame_step_cases c e s H0) as [[s' ->]|(s' & -> & Hoff)]; [by eexists|].
  apply IH; lia.
Qed.
End total.

(** ** A scan over intact records *)

Section intact.
Variables (segment_id : Z) (hash_enabled : bool) (chain_key : bytes) (shard_bits file_size : Z).

Abbreviation raw := (raw_step segment_id hash_enabled chain_key shard_bits file_size).

Definition view_rec (v : ReadView) : Rec := rec_of_view (rv_record_id v) v.

(** The scan state after the record of [v], which ends at [off]. *)
Definition after_record (off : Z) (v : ReadView) (s : Scan) : Scan :=
  accept hash_enabled shard_bits (view_rec v) off off (count_record (view_rec v) s).

Fixpoint after_records (vs : list ReadView) (s : Scan) : Scan :=
  match vs with
  | [] => s
  | v :: vs => after_records vs (after_record (sc_offset s + view_size v) v s)
  end.

(** Each record of [vs] passes the id and the hash test in its turn. *)
Fixpoint trusted (vs : list ReadView) (s : Scan) : Prop :=
  match vs with
  | [] => True
  | v :: vs =>
      unexpected_id shard_bits (view_rec v) s = false /\
      hash_breaks hash_enabled chain_key (view_rec v) (count_record (view_rec v) s) = None /\
      trusted vs (after_record (sc_offset s + view_size v) v s)
  end.

Lemma raw_step_record s pre v rest :
  view_wf v -> sc_file s = pre ++ record_bytes (rv_record_id v) v ++ rest ->
  sc_offset s = blen pre -> file_size = blen (sc_file s) ->
  unexpected_id shard_bits (view_rec v) s = false ->
  hash_breaks hash_enabled chain_key (view_rec v) (count_record (view_rec v) s) = None ->
  raw s = Continue (after_record (sc_offset s + view_size v) v s).
Proof.
  intros Hv Hfile Hoff Hsz Hid Hh. set (rb := record_bytes (rv_record_id v) v) in *.
  pose proof (blen_record_bytes (rv_record_id v) v (vw_hash _ Hv)) as Hrb. fold rb in Hrb.
  assert (view_size v = blen rb) as Hvs by done.
  assert (60 <= view_size v < 2 ^ 32) as Hr.
  { destruct Hv. unfold view_size. unfold record_size in *. lia. }
  assert (blen (sc_file s) = blen pre + blen rb + blen rest) as Hlen by (rewrite Hfile; len).
  destruct (record_fields (rv_record_id v) v rest (vw_id _ Hv) Hv) as (E1 & _). fold rb in E1.
  unfold raw_step. rewrite (proj2 (Z.ltb_ge file_size (sc_offset s + 4))) by lia.
  rewrite read_exact_Some by lia.
  assert (from_le (slice (sc_file s) (sc_offset s) (sc_offset s + 4)) = view_size v) as Htot.
  { rewrite Hfile, slice_app_r by lia. rewrite Hoff.
    replace (blen pre - blen pre) with 0 by lia. replace (blen pre + 4 - blen pre) with (0 + 4) by lia.
    exact E1. }
  rewrite Htot. unfold MIN_RECORD_SIZE.
  rewrite (proj2 (Z.ltb_ge (view_size v) 60)) by lia.
  rewrite (proj2 (Z.ltb_ge file_size _)) by lia. rewrite read_exact_Some by lia.
  assert (slice (sc_file s) (sc_offset s) (sc_offset s + view_size v) = rb) as Hbuf.
  { rewrite Hfile, slice_app_r by lia. rewrite slice_app_exact; [done|lia|lia]. }
  rewrite Hbuf. pose proof (deserialize_record_bytes (rv_record_id v) v [] (vw_id _ Hv) Hv) as Hd.
  rewrite app_nil_r in Hd. fold rb in Hd. rewrite Hd. fold (view_rec v). by rewrite Hid, Hh.
Qed.

(** The scan walks over trusted records one by one. *)
Lemma scan_records vs s pre rest fuel :
  Forall view_wf vs -> sc_file s = pre ++ encoded vs ++ rest -> sc_offset s = blen pre ->
  file_size = blen (sc_file s) -> trusted vs s ->
  scan_while file_size raw (length vs + fuel) s = scan_while file_size raw fuel (after_records vs s).
Proof.
  revert s pre. induction vs as [|v vs IH]; intros s pre Hwf Hfile Hoff Hsz Ht; [done|].
  pose proof (List.Forall_inv Hwf) as Hv. pose proof (List.Forall_inv_tail Hwf) as Hwf'.
  destruct Ht as (Hid & Hh & Ht).
  assert (encoded (v :: vs) = record_bytes (rv_record_id v) v ++ encoded vs) as He by done.
  rewrite He, <- app_assoc in Hfile.
  pose proof (blen_record_bytes (rv_record_id v) v (vw_hash _ Hv)) as Hrb.
  cbn [length Nat.add scan_while].
  rewrite (proj2 (Z.ltb_lt (sc_offset s) file_size)).
  2:{ rewrite Hsz, Hfile, Hoff. unfold record_size in Hrb. len. }
  rewrite (raw_step_record s pre v (encoded vs ++ rest)) by done.
  apply (IH _ (pre ++ record_bytes (rv_record_id v) v)); simpl; [done| | |done|done].
  - by rewrite <- app_assoc.
  - rewrite Hoff. unfold view_size. len.
Qed.

(** The fields of the state after a run of records. *)
Lemma after_records_fields vs s :
  hashes_ok vs ->
  let s' := after_records vs s in
  sc_file s' = sc_file s /\ sc_offset s' = sc_offset s + blen (encoded vs) /\
  sc_warnings s' = sc_warnings s /\ sc_count s' = sc_count s + Z.of_nat (length vs) /\
  sc_last_sequence s' = List.last (rv_record_id <$> vs) (sc_last_sequence s) /\
  sc_last_hash s' = List.last (rv_hash_n <$> vs) (sc_last_hash s) /\
  (last_valid_offset s = sc_offset s -> last_valid_offset s' = sc_offset s') /\
  expected_record_id s' = (if decide (vs = []) then expected_record_id s
                           else u64 (sc_last_sequence s' + id_stride shard_bits)).
Proof.
  intros Hh. revert s. induction Hh as [|v vs Hv Hh IH]; intros s; cbn zeta.
  { change (encoded []) with (@nil byte). simpl. rewrite !Z.add_0_r. done. }
  specialize (IH (after_record (sc_offset s + view_size v) v s)). cbn zeta in IH.
  change (after_records (v :: vs) s)
    with (after_records vs (after_record (sc_offset s + view_size v) v s)).
  destruct IH as (E1 & E2 & E3 & E4 & E5 & E6 & E7 & E8).
  assert (blen (encoded (v :: vs)) = view_size v + blen (encoded vs)) as El.
  { unfold encoded. cbn [flat_map]. rewrite length_app, Nat2Z.inj_add, blen_record_bytes by done. done. }
  rewrite E1, E2, E3, E4. simpl sc_file. simpl sc_warnings. simpl sc_offset. simpl sc_count.
  rewrite El. split_and!; [done|lia|done|cbn [length]; lia| | | |].
  - rewrite E5. symmetry. apply last_cons_default.
  - rewrite E6. symmetry. apply last_cons_default.
  - intros _. rewrite E7, E2 by done. simpl. lia.
  - rewrite E8, (decide_False (P := v :: vs = [])) by done.
    destruct (decide (vs = [])) as [->|]; reflexivity.
Qed.

(** Record ids of consecutive appends to a shard. *)
Definition consecutive (first : Z) (vs : list ReadView) : Prop :=
  forall i v, vs !! i = Some v -> rv_record_id v = first + Z.of_nat i * id_stride shard_bits.

Lemma consecutive_tail first v vs :
  consecutive first (v :: vs) -> consecutive (first + id_stride shard_bits) vs.
Proof. intros Hc i w Hw. rewrite (Hc (S i) w Hw). lia. Qed.

(** Consecutive ids and an unbroken chain are what the scan trusts. *)
Lemma trusted_intro vs s first :
  Forall view_wf vs -> consecutive first vs ->
  (first = expected_record_id s \/ sc_count s = 0 /\ 0 < shard_bits) ->
  (hash_enabled = true -> rv_hash_n <$> vs = chain chain_key (chain_prev s) (rv_content <$> vs)) ->
  trusted vs s.
Proof.
  revert s first. induction vs as [|v vs IH]; intros s first Hwf Hc Hfirst Hh; [done|].
  pose proof (List.Forall_inv Hwf) as Hv. pose proof (List.Forall_inv_tail Hwf) as Hwf'.
  assert (rv_record_id v = first) as Hid by (rewrite (Hc 0%nat v eq_refl); lia).
  split; [|split].
  - unfold unexpected_id. change (rec_seq (view_rec v)) with (rv_record_id v). rewrite Hid.
    destruct Hfirst as [->|[-> Hb]]; [by rewrite Z.eqb_refl|].
    rewrite Z.eqb_refl, (proj2 (Z.ltb_lt _ _)) by done. apply andb_false_r.
  - unfold hash_breaks. destruct hash_enabled; [|done]. specialize (Hh eq_refl). simpl in Hh.
    injection Hh as Hh _. simpl. by rewrite decide_True by (by rewrite Hh).
  - destruct vs as [|v' vs]; [done|].
    apply (IH _ (first + id_stride shard_bits)); [done|by eapply consecutive_tail| |].
    + left. simpl. change (rec_seq (view_rec v)) with (rv_record_id v). rewrite Hid.
      pose proof (Hc 1%nat v' eq_refl) as H1. rewrite Z.mul_1_l in H1.
      rewrite <- H1, wrap_small; [done|]. by apply List.Forall_inv in Hwf' as [].
    + intros He. specialize (Hh He). simpl in Hh |- *. rewrite He.
      injection Hh as H1 H2 H3. rewrite H1. f_equal; [exact H2|exact H3].
Qed.
End intact.

(** ** Crash safety of raw segments *)

Definition raw_header (h : SegmentHeader) : Prop :=
  has_flag (flags h) FLAG_COMPRESSED_ZSTD = false /\
  has_flag (flags h) FLAG_ENCRYPTED_AES256GCM = false.

(** [vs] are the records of a segment with this header: consecutive ids from
    the base sequence (from anywhere when sharded) and, when hashing is on, a
    chain that starts at the header's previous hash. *)
Record segment_records (h : SegmentHeader) (enabled : bool) (key : bytes) (bits : Z)
    (vs : list ReadView) : Prop := {
  sr_wf : Forall view_wf vs;
  sr_ids : exists first, consecutive bits first vs /\ (first = base_sequence h \/ 0 < bits);
  sr_chain : enabled = true -> rv_hash_n <$> vs = chain key (prev_last_hash h) (rv_content <$> vs);
}.

Lemma view_hashes_ok vs : Forall view_wf vs -> hashes_ok vs.
Proof. intros Hw. eapply Forall_impl; [exact Hw|]. by intros v []. Qed.

Lemma view_size_min v : 60 <= view_size v.
Proof. unfold view_size, record_size. lia. Qed.

Lemma records_fit vs : Forall view_wf vs -> Z.of_nat (length vs) <= blen (encoded vs).
Proof.
  intros Hw. rewrite blen_encoded by (by apply view_hashes_ok).
  induction Hw as [|v vs Hv _ IH]; simpl; [lia|]. pose proof (view_size_min v). lia.
Qed.

(** The scan up to the end of the trusted records. *)
Lemma scan_prefix hd vs tail id h enabled key keys bits :
  length hd = 128%nat -> raw_header h -> segment_records h enabled key bits vs ->
  let f := hd ++ encoded vs ++ tail in
  exists fuel, blen tail < Z.of_nat fuel /\
  scan_last_segment f id h enabled key keys bits =
  scan_while (blen f) (raw_step id enabled key bits (blen f)) fuel
    (after_records enabled bits vs (scan_start h f)).
Proof.
  intros Hhd [Hc He] [Hw (first & Hids & Hfirst) Hch] f.
  exists (S (length f) - length vs)%nat.
  pose proof (records_fit vs Hw) as Hfit.
  assert (length f = 128 + length (encoded vs) + length tail)%nat as Hlen by (subst f; len).
  split; [lia|]. unfold scan_last_segment. rewrite Hc, He. cbn [orb].
  replace (S (length f)) with (length vs + (S (length f) - length vs))%nat at 1 by lia.
  apply (scan_records _ _ _ _ _ vs _ hd tail); try done; [by rewrite Hhd|].
  eapply trusted_intro; [done|done| |done]. simpl. tauto.
Qed.

Lemma scan_intact hd vs id h enabled key keys bits :
  length hd = 128%nat -> raw_header h -> segment_records h enabled key bits vs ->
  let f := hd ++ encoded vs in
  exists s, scan_last_segment f id h enabled key keys bits = Some s /\
    sc_file s = f /\ last_valid_offset s = blen f /\ sc_warnings s = [] /\
    sc_count s = Z.of_nat (length vs) /\
    sc_last_sequence s = List.last (rv_record_id <$> vs) (u64 (base_sequence h - 1)) /\
    sc_last_hash s = List.last (rv_hash_n <$> vs) (zeros 32).
Proof.
  intros Hhd Hraw Hvs f. destruct (scan_prefix hd vs [] id h enabled key keys bits Hhd Hraw Hvs)
    as (fuel & Hfuel & Hscan). rewrite app_nil_r in Hscan. fold f in Hscan. rewrite Hscan.
  destruct (after_records_fields enabled bits vs (scan_start h f)) as (E1 & E2 & E3 & E4 & E5 & E6 & E7 & _).
  { apply view_hashes_ok, Hvs. }
  destruct fuel as [|fuel]; [simpl in Hfuel; lia|]. cbn [scan_while].
  assert (sc_offset (after_records enabled bits vs (scan_start h f)) = blen f) as Hoff.
  { rewrite E2. simpl. subst f. unfold SEGMENT_HEADER_SIZE. len. }
  rewrite Hoff, Z.ltb_irrefl. eexists. split; [reflexivity|].
  rewrite E1, E3, E4, E5, E6, E7, Hoff by done. done.
Qed.

(** Recovery keeps every intact record and only those.  A raw segment whose
    file is a header, the records of a shard in order and then nothing is
    recovered without a warning and unchanged; the write offset is the end of
    the file, and the last id, the last hash and the count are those of the
    records. *)
Theorem recover_intact_segment hd vs id h enabled key keys bits :
  length hd = 128%nat -> raw_header h -> segment_records h enabled key bits vs ->
  let f := hd ++ encoded vs in
  exists s, scan_last_segment f id h enabled key keys bits = Some s /\
    sc_file s = f /\ last_valid_offset s = blen f /\ sc_warnings s = [] /\
    sc_count s = Z.of_nat (length vs) /\
    sc_last_sequence s = List.last (rv_record_id <$> vs) (u64 (base_sequence h - 1)) /\
    sc_last_hash s = List.last (rv_hash_n <$> vs) (zeros 32).
Proof. apply scan_intact. Qed.

Lemma set_len_prefix n (a b : bytes) : n = blen a -> set_len n (a ++ b) = a.
Proof.
  intros ->. unfold set_len. rewrite Nat2Z.id, take_app_length.
  replace (zeros _) with (@nil byte); [by rewrite app_nil_r|].
  unfold zeros. by replace (Z.to_nat _) with 0%nat by len.
Qed.

(** A torn write is cut off.  When the file ends in the middle of one more
    record, recovery truncates it to the records before, reports one torn write
    at their end, and loses nothing else. *)
Theorem recover_torn_segment hd vs v n id h enabled key keys bits :
  length hd = 128%nat -> raw_header h -> segment_records h enabled key bits vs -> view_wf v ->
  (0 < n < length (record_bytes (rv_record_id v) v))%nat ->
  let good := hd ++ encoded vs in
  let f := good ++ take n (record_bytes (rv_record_id v) v) in
  exists s, scan_last_segment f id h enabled key keys bits = Some s /\
    sc_file s = good /\ last_valid_offset s = blen good /\
    sc_warnings s = [TornWrite id (expected_record_id s) (blen good)] /\
    sc_count s = Z.of_nat (length vs) /\
    sc_last_sequence s = List.last (rv_record_id <$> vs) (u64 (base_sequence h - 1)) /\
    sc_last_hash s = List.last (rv_hash_n <$> vs) (zeros 32).
Proof.
  intros Hhd Hraw Hvs Hv Hn good f. set (rb := record_bytes (rv_record_id v) v) in *.
  destruct (scan_prefix hd vs (take n rb) id h enabled key keys bits Hhd Hraw Hvs)
    as (fuel & Hfuel & Hscan). rewrite app_assoc in Hscan. fold good in Hscan. fold f in Hscan.
  rewrite Hscan.
  destruct (after_records_fields enabled bits vs (scan_start h f)) as (E1 & E2 & E3 & E4 & E5 & E6 & E7 & _).
  { apply view_hashes_ok, Hvs. }
  set (s := after_records enabled bits vs (scan_start h f)) in *.
  assert (sc_offset s = blen good) as Hoff.
  { rewrite E2. simpl. subst good. unfold SEGMENT_HEADER_SIZE. len. }
  specialize (E7 eq_refl).
  assert (length (take n rb) = n) as Hln by (rewrite length_take; lia).
  assert (length f = length good + n)%nat as Hlf by (subst f; rewrite length_app; lia).
  assert (raw_step id enabled key bits (blen f) s = Break (torn id (sc_offset s) s)) as Hstep.
  { unfold raw_step. destruct (Z.ltb_spec (blen f) (sc_offset s + 4)); [done|].
    rewrite E1. simpl sc_file. rewrite read_exact_Some by lia.
    assert (from_le (slice f (sc_offset s) (sc_offset s + 4)) = view_size v) as ->.
    { destruct (record_fields (rv_record_id v) v [] (vw_id _ Hv) Hv) as (Et & _).
      rewrite app_nil_r in Et. fold rb in Et. unfold get_le in Et.
      subst f. rewrite slice_app_r by lia. rewrite Hoff.
      replace (blen good - blen good) with 0 by lia.
      replace (blen good + 4 - blen good) with (0 + 4) by lia.
      rewrite <- (take_drop n rb) in Et. rewrite slice_app_l in Et by lia. exact Et. }
    pose proof (blen_record_bytes (rv_record_id v) v (vw_hash _ Hv)) as Hrb. fold rb in Hrb.
    pose proof (view_size_min v).
    unfold MIN_RECORD_SIZE. rewrite (proj2 (Z.ltb_ge (view_size v) 60)) by lia.
    by rewrite (proj2 (Z.ltb_lt (blen f) _)) by (unfold view_size; lia). }
  destruct fuel as [|fuel]; [lia|]. cbn [scan_while].
  rewrite (proj2 (Z.ltb_lt (sc_offset s) (blen f))) by lia. rewrite Hstep.
  eexists. split; [reflexivity|]. simpl. rewrite E1, E3, E4, E5, E6, E7, Hoff. simpl.
  split_and!; try done. unfold f. by apply set_len_prefix.
Qed.

(** What a raw scan keeps, whatever bytes it meets: the file up to the last
    valid offset, which only grows. *)
Definition keeps_prefix (f : bytes) (l n : Z) (s : Scan) : Prop :=
  l <= last_valid_offset s <= blen (sc_file s) /\ n <= sc_count s /\
  take (Z.to_nat l) (sc_file s) = take (Z.to_nat l) f.

Lemma raw_step_keeps id enabled key bits f l n s :
  sc_file s = f -> 0 <= l <= last_valid_offset s -> last_valid_offset s <= sc_offset s < blen f ->
  n <= sc_count s ->
  match raw_step id enabled key bits (blen f) s with
  | Break s' => keeps_prefix f l n s'
  | Continue s' => sc_file s' = f /\ last_valid_offset s <= last_valid_offset s' <= sc_offset s' /\
      sc_offset s' <= blen f /\ n <= sc_count s'
  | Fail => False
  end.
Proof.
  intros Hf Hl Ho Hn.
  assert (forall s', sc_file s' = f -> last_valid_offset s' = last_valid_offset s -> n <= sc_count s' ->
    keeps_prefix f l n (torn id (sc_offset s) s')) as Htorn.
  { intros s' E1 E2 E3. unfold keeps_prefix. simpl. rewrite E1, E2. unfold set_len.
    split_and!; [lia|len|done|]. rewrite take_app_le by len. rewrite take_take. f_equal. lia. }
  unfold raw_step. destruct (Z.ltb_spec (blen f) (sc_offset s + 4)); [by apply Htorn|].
  rewrite Hf, read_exact_Some by lia. set (total := from_le _).
  destruct (Z.ltb_spec total MIN_RECORD_SIZE); [by apply Htorn|].
  destruct (Z.ltb_spec (blen f) (sc_offset s + total)); [by apply Htorn|].
  rewrite read_exact_Some by lia. unfold MIN_RECORD_SIZE in *.
  destruct (deserialize_record _) as [[r k]|e].
  - destruct (unexpected_id _ r s); [by apply Htorn|].
    destruct (hash_breaks _ _ r _); [apply Htorn; simpl; done || lia|].
    simpl. split_and!; done || lia.
  - destruct (Z.leb_spec (blen f) (sc_offset s + total)); [by apply Htorn|].
    simpl. split_and!; done || lia.
Qed.

Lemma scan_keeps id enabled key bits f l n fuel s s' :
  sc_file s = f -> 0 <= l <= last_valid_offset s ->
  last_valid_offset s <= sc_offset s <= blen f -> n <= sc_count s ->
  scan_while (blen f) (raw_step id enabled key bits (blen f)) fuel s = Some s' ->
  keeps_prefix f l n s'.
Proof.
  revert s. induction fuel as [|fuel IH]; intros s Hf Hl Ho Hn; cbn [scan_while]; [done|].
  destruct (Z.ltb_spec (sc_offset s) (blen f)).
  - pose proof (raw_step_keeps id enabled key bits f l n s Hf Hl ltac:(lia) Hn) as Hstep.
    destruct (raw_step _ _ _ _ _ s) as [s1|s1|]; [|by intros [= <-]|done].
    destruct Hstep as (E1 & E2 & E3 & E4). apply IH; [done|lia|lia|done].
  - intros [= <-]. unfold keeps_prefix. rewrite Hf. split_and!; [lia|lia|done|done].
Qed.

Lemma scan_keeps_prefix hd vs tail id h enabled key keys bits :
  length hd = 128%nat -> raw_header h -> segment_records h enabled key bits vs ->
  exists s, scan_last_segment (hd ++ encoded vs ++ tail) id h enabled key keys bits = Some s /\
    Z.of_nat (length vs) <= sc_count s /\ blen (hd ++ encoded vs) <= last_valid_offset s /\
    exists rest, sc_file s = (hd ++ encoded vs) ++ rest /\
      last_valid_offset s <= blen (sc_file s).
Proof.
  intros Hhd Hraw Hvs. set (f := hd ++ encoded vs ++ tail).
  destruct (scan_prefix hd vs tail id h enabled key keys bits Hhd Hraw Hvs) as (fuel & Hfuel & Hscan).
  fold f in Hscan. rewrite Hscan.
  destruct (after_records_fields enabled bits vs (scan_start h f)) as (E1 & E2 & _ & E4 & _ & _ & E7 & _).
  { apply view_hashes_ok, Hvs. }
  set (s := after_records enabled bits vs (scan_start h f)) in *. specialize (E7 eq_refl).
  set (good := hd ++ encoded vs). assert (f = good ++ tail) as Hf by (unfold f, good; by rewrite app_assoc).
  assert (sc_offset s = blen good) as Hoff.
  { rewrite E2. simpl. subst good. unfold SEGMENT_HEADER_SIZE. len. }
  assert (blen f = blen good + blen tail) as Hlf by (rewrite Hf; len).
  destruct (raw_total id enabled key bits (blen f) fuel s) as [s' Hs'].
  { by rewrite E1. }
  { lia. }
  { lia. }
  rewrite Hs'. exists s'. split; [done|].
  destruct (scan_keeps id enabled key bits f (blen good) (sc_count s) fuel s s' E1
    ltac:(lia) ltac:(lia) ltac:(lia) Hs') as (H1 & H2 & H3).
  rewrite E4 in H2. simpl in H2. split; [lia|]. split; [lia|].
  exists (drop (length good) (sc_file s')). split; [|lia].
  rewrite Nat2Z.id, Hf, take_app_length in H3. rewrite <- H3 at 1. symmetry. apply take_drop.
Qed.

(** Recovery never loses a record that is intact on disk, whatever follows.
    When a raw segment starts with the records of a shard in order and goes on
    with arbitrary bytes (a torn or garbled tail of unsynced writes), the scan
    still returns, keeps those records in the file, counts at least them, and
    places the write offset behind them. *)
Theorem recover_keeps_intact_prefix hd vs tail id h enabled key keys bits :
  length hd = 128%nat -> raw_header h -> segment_records h enabled key bits vs ->
  exists s, scan_last_segment (hd ++ encoded vs ++ tail) id h enabled key keys bits = Some s /\
    Z.of_nat (length vs) <= sc_count s /\ blen (hd ++ encoded vs) <= last_valid_offset s /\
    exists rest, sc_file s = (hd ++ encoded vs) ++ rest /\
      last_valid_offset s <= blen (sc_file s).
Proof. apply scan_keeps_prefix. Qed.

(** C40: recovery's scan of a segment ends with a result on every file, framed or
    raw, within one iteration per byte. *)
Theorem scan_last_segment_total f id h enabled key keys bits :
  is_Some (scan_last_segment f id h enabled key keys bits).
Proof.
  unfold scan_last_segment. destruct (_ || _).
  - apply frame_total; simpl; unfold SEGMENT_HEADER_SIZE; lia.
  - apply raw_total; simpl; unfold SEGMENT_HEADER_SIZE; done || lia.
Qed.

(** ** The hash-chain key *)

(** The chain key survives key rotation.  The header of an encrypted shard
    stores the chain key masked by a digest of the key that was active then.
    Whenever that key is still in the ring, recovery returns a key that
    authenticates the first record of the shard; and it returns the shard's
    chain key itself, unless another key of the ring happens to authenticate
    that record too. *)
Theorem resolve_chain_key_sound `{!ExternalLaws} f h kr k ck cont hash :
  length ck = 32%nat -> k ∈ map snd (decrypt_keys kr) ->
  hash_init h = xor32 ck (derive_hash_init k) ->
  decode_first_record f (has_flag (flags h) FLAG_COMPRESSED_ZSTD)
    (has_flag (flags h) FLAG_ENCRYPTED_AES256GCM) kr = Some (cont, hash) ->
  hash = blake3_keyed_chain ck (prev_last_hash h) cont ->
  let key := resolve_chain_key f h (Some kr) in
  blake3_keyed_chain key (prev_last_hash h) cont = hash /\
  ((forall k', k' ∈ map snd (decrypt_keys kr) ->
     blake3_keyed_chain (xor32 (hash_init h) (derive_hash_init k')) (prev_last_hash h) cont = hash ->
     derive_hash_init k' = derive_hash_init k) -> key = ck).
Proof.
  intros Hck Hin Hmask Hdec Hhash key. unfold key, resolve_chain_key. rewrite Hdec.
  set (hint := if _ =? 0 then _ else _). set (cands := map _ _).
  assert (forall k', k' ∈ hint -> k' ∈ map snd (decrypt_keys kr)) as Hhint.
  { intros k'. unfold hint. destruct (_ =? 0); [set_solver|]. unfold key_for_id.
    destruct (List.find _ _) as [[i b]|] eqn:Hf; simpl; [|set_solver].
    rewrite list_elem_of_singleton. intros ->. apply List.find_some in Hf as [Hf _].
    rewrite list_elem_of_In. by apply (List.in_map snd _ (i, b)). }
  assert (xor32 (hash_init h) (derive_hash_init k) = ck) as Hunmask.
  { rewrite Hmask. apply xor32_cancel. unfold derive_hash_init. by rewrite blake3_length. }
  destruct (List.find (authenticates h cont hash) cands) as [cand|] eqn:Hf.
  - apply List.find_some in Hf as [Hc Ha]. unfold authenticates in Ha.
    apply bool_decide_eq_true in Ha. split; [done|]. intros Huniq.
    apply List.in_map_iff in Hc as (k' & <- & Hk'). rewrite <- Hunmask. f_equal.
    apply Huniq; [|done]. rewrite <- list_elem_of_In, elem_of_app in Hk'. destruct Hk'; auto.
  - exfalso. assert (In ck cands) as Hc.
    { unfold cands. apply List.in_map_iff. exists k. split; [done|].
      apply List.in_or_app. right. by rewrite <- list_elem_of_In. }
    pose proof (List.find_none _ _ Hf ck Hc) as Hn. unfold authenticates in Hn.
    rewrite bool_decide_eq_false in Hn. by apply Hn.
Qed.

(** ** Recovering a directory *)

(** Every segment file has a valid header with the id of its name. *)
Definition headers_valid (files : gmap Z bytes) : Prop :=
  forall id f, files !! id = Some f -> 128 <= blen f /\ exists h,
    deserialize (slice f 0 SEGMENT_HEADER_SIZE) = Ok h /\ Format.segment_id h = id.

Lemma validate_headers_all files ids :
  headers_valid files -> (forall id, id ∈ ids -> is_Some (files !! id)) ->
  exists vs, validate_headers files ids = (vs, []) /\
    Forall2 (fun id v => v.1.1 = id /\ files !! id = Some v.1.2 /\
      deserialize (slice v.1.2 0 SEGMENT_HEADER_SIZE) = Ok v.2) ids vs.
Proof.
  intros Hv. induction ids as [|id ids IH]; intros Hin; simpl; [by exists []|].
  destruct (Hin id) as [f Hf]; [set_solver|]. rewrite Hf. simpl.
  destruct (Hv id f Hf) as (Hlen & h & Hd & Hid).
  unfold SEGMENT_HEADER_SIZE in *. rewrite (proj2 (Z.ltb_ge _ _)) by done.
  rewrite Hd, Hid, Z.eqb_refl. simpl. destruct IH as (vs & -> & HF); [set_solver|].
  exists ((id, f, h) :: vs). split; [done|]. by constructor.
Qed.

Lemma Forall2_last {A B} (R : A -> B -> Prop) la lb a b :
  Forall2 R la lb -> la <> [] -> R (List.last la a) (List.last lb b).
Proof.
  induction 1 as [|x y la lb Hxy HF IH]; [done|]. intros _.
  destruct la as [|x' la], lb as [|y' lb]; try by inversion HF.
  change (R (List.last (x' :: la) a) (List.last (y' :: lb) b)). by apply IH.
Qed.

(** Sorting the listing of a directory puts the oldest segment first and the
    newest last. *)
Lemma sorted_listing files k1 k :
  readdir files ≡ₚ elements (dom files) ->
  (forall id, is_Some (files !! id) -> k1 <= id <= k) ->
  is_Some (files !! k1) -> is_Some (files !! k) ->
  exists ids, sort_by_key (fun id => id) (readdir files) = k1 :: ids /\
    List.last (k1 :: ids) 0 = k /\ (forall id, id ∈ k1 :: ids -> is_Some (files !! id)).
Proof.
  intros Hrd Hb Hk1 Hk. set (ids := sort_by_key (fun id => id) (readdir files)).
  assert (ids ≡ₚ elements (dom files)) as Hp by (unfold ids; by rewrite sort_by_key_perm).
  assert (forall id, id ∈ ids <-> is_Some (files !! id)) as Hids.
  { intros id. rewrite Hp, elem_of_elements, elem_of_dom. done. }
  assert (StronglySorted Z.le ids) as Hs by apply (sort_by_key_sorted (fun id => id)).
  clearbody ids. destruct ids as [|i ids]; [by apply Hids, elem_of_nil in Hk|].
  assert (i = k1) as ->.
  { assert (k1 <= i) by (apply Hb, Hids; left). apply Hids, elem_of_cons in Hk1 as [|Hk1]; [done|].
    inversion Hs as [|?? _ Hle]; simplify_eq. rewrite Forall_forall in Hle.
    specialize (Hle k1 Hk1). lia. }
  exists ids. split; [done|]. split; [|by intros id; apply Hids].
  destruct (@exists_last _ (k1 :: ids) ltac:(done)) as (l & x & Hl). rewrite Hl in Hids, Hs |- *.
  rewrite List.last_last.
  assert (x ∈ [x]) as Hx by left.
  assert (x <= k) by (apply Hb, Hids, elem_of_app; by right).
  apply Hids, elem_of_app in Hk as [Hk|Hk]; [|by apply list_elem_of_singleton in Hk].
  apply (StronglySorted_app_1_elem_of _ _ _ k x) in Hs; [lia|done|done].
Qed.

(** In a directory of valid headers, recovery is the scan of the newest
    segment. *)
Lemma recover_shard_scan files bits size ret keys k1 f1 h1 k f h s :
  readdir files ≡ₚ elements (dom files) -> headers_valid files ->
  (forall id, is_Some (files !! id) -> k1 <= id <= k) ->
  files !! k1 = Some f1 -> deserialize (slice f1 0 SEGMENT_HEADER_SIZE) = Ok h1 ->
  files !! k = Some f -> deserialize (slice f 0 SEGMENT_HEADER_SIZE) = Ok h ->
  let key := resolve_chain_key f1 h1 keys in
  scan_last_segment f k h (Format.hash_enabled h1) key keys bits = Some s ->
  recover_shard files bits size ret keys =
    Ok (mkRecovery (open_existing k (last_valid_offset s) h size (sc_last_hash s) (mask_chain_key key keys)
                      (Format.hash_enabled h1) keys ret)
          (sc_last_sequence s) (sc_last_hash s) k (last_valid_offset s) (Format.hash_enabled h1) key
          (sc_warnings s) (sc_count s),
        <[k := sc_file s]> files).
Proof.
  intros Hrd Hv Hmax Hk1 Hd1 Hk Hd key Hscan.
  destruct (sorted_listing files k1 k Hrd Hmax) as (ids & Hsort & Hlast & Hin); [by eexists..|].
  destruct (validate_headers_all files (k1 :: ids) Hv Hin) as (vl & Hvl & HF).
  unfold recover_shard. rewrite Hsort, Hvl.
  destruct vl as [|[[i1 g1] h1'] vl']; [by inversion HF|].
  assert (g1 = f1 /\ h1' = h1) as [-> ->].
  { inversion HF as [|???? (_ & E1 & E2) _]; simplify_eq. simpl in *. split; congruence. }
  pose proof (Forall2_last _ _ _ 0 (0, [], h1) HF ltac:(done)) as Hl. rewrite Hlast in Hl.
  destruct (List.last ((i1, f1, h1) :: vl') (0, [], h1)) as [[lid lf] lh] eqn:Elast.
  simpl in Hl. destruct Hl as (-> & Hlf & Hld).
  assert (lf = f) as -> by congruence. assert (lh = h) as -> by congruence.
  fold key. by rewrite Hscan.
Qed.

(** C3: recovering a shard.  Take a directory whose segment headers are all
    valid and whose newest segment is raw and starts, after its header, with
    well-formed records with consecutive ids, the first of them the header's
    base sequence (any id when there are several shards) and, when hashing is
    on, chained from the previous hash the header names; anything may follow
    them.  Recovery succeeds, leaves every other segment as it is, keeps those
    records in the newest one, appends behind them, and counts at least them.
    (Rolls can make newest segments that do not meet this, and recovery then
    truncates their records: a pre-allocated segment keeps a base that fell
    behind, and a rolled segment of a hashed shard names a zero previous hash,
    see [rolled_hashed_segment_is_truncated].) *)
Theorem recover_shard_keeps_records files bits size ret keys k1 f1 h1 k hd h vs tail :
  readdir files ≡ₚ elements (dom files) -> headers_valid files ->
  (forall id, is_Some (files !! id) -> k1 <= id <= k) ->
  files !! k1 = Some f1 -> deserialize (slice f1 0 SEGMENT_HEADER_SIZE) = Ok h1 ->
  files !! k = Some (hd ++ encoded vs ++ tail) -> length hd = 128%nat -> deserialize hd = Ok h ->
  raw_header h ->
  segment_records h (Format.hash_enabled h1) (resolve_chain_key f1 h1 keys) bits vs ->
  exists st files', recover_shard files bits size ret keys = Ok (st, files') /\
    (forall id, id <> k -> files' !! id = files !! id) /\
    active_id (segment_manager st) = k /\ Z.of_nat (length vs) <= recovered_count st /\
    exists rest, files' !! k = Some ((hd ++ encoded vs) ++ rest) /\
      blen (hd ++ encoded vs) <= as_offset (active (segment_manager st)) <=
      blen ((hd ++ encoded vs) ++ rest).
Proof.
  intros Hrd Hv Hmax Hk1 Hd1 Hk Hhd Hd Hraw Hseg.
  destruct (scan_keeps_prefix hd vs tail k h (Format.hash_enabled h1)
    (resolve_chain_key f1 h1 keys) keys bits Hhd Hraw Hseg) as (s & Hs & Hc & Ho & rest & Hf & Hle).
  rewrite (recover_shard_scan files bits size ret keys k1 f1 h1 k _ h s Hrd Hv Hmax Hk1 Hd1 Hk);
    [|by rewrite slice_app_exact by (rewrite ?Hhd; done)|done].
  eexists _, _. split; [reflexivity|]. simpl. split.
  { intros id Hid. by rewrite lookup_insert_ne. }
  split; [done|]. split; [done|]. exists rest. rewrite lookup_insert_eq, Hf in *. done.
Qed.
End recovery.

(** ** Concrete runs *)

Section demo.
#[local] Instance recovery_demo_externals : Externals := toy.

Definition demo_chain_key : bytes := replicate 32 Byte.x07.

(** The records of [demo_slots], chained by the sealer. *)
Definition demo_sealed (n : nat) : Ring :=
  (seal_range n (demo_slots n) demo_chain_key (zeros 32) 0).1.

Definition demo_views (n : nat) : list ReadView := slot_views n (demo_sealed n) 0.

Definition demo_header (base seg : Z) : SegmentHeader :=
  first_segment demo_chain_key base 0 seg true HASH_ALGO_BLAKE3.

Definition demo_hd (base seg : Z) : bytes := serialize (demo_header base seg) (zeros 32).

Lemma demo_records : segment_records (demo_header 0 1) true demo_chain_key 0 (demo_views 2).
Proof.
  split.
  - repeat (constructor; [split; vm_compute; first [reflexivity|split; [discriminate|reflexivity]]|]).
    constructor.
  - exists 0. split; [|left; reflexivity]. intros i v Hv.
    destruct i as [|[|i]]; vm_compute in Hv; [by simplify_eq..|discriminate].
  - intros _. vm_compute. reflexivity.
Qed.

Lemma demo_raw : raw_header (demo_header 0 1).
Proof. split; vm_compute; reflexivity. Qed.

Lemma recover_intact_segment_witness :
  exists s, scan_last_segment (demo_hd 0 1 ++ encoded (demo_views 2)) 1 (demo_header 0 1) true
      demo_chain_key None 0 = Some s /\ sc_count s = 2 /\ sc_warnings s = [].
Proof.
  destruct (recover_intact_segment (demo_hd 0 1) (demo_views 2) 1 (demo_header 0 1) true
    demo_chain_key None 0 eq_refl demo_raw demo_records) as (s & E & _ & _ & Hw & Hc & _).
  exists s. split; [exact E|]. split; [exact Hc|exact Hw].
Defined.

Definition demo_next : ReadView := mkReadView 2 7 [Byte.x62] (zeros 32).

Lemma demo_next_wf : view_wf demo_next.
Proof. split; vm_compute; first [reflexivity|split; [discriminate|reflexivity]]. Qed.

Lemma recover_torn_segment_witness :
  exists s, scan_last_segment ((demo_hd 0 1 ++ encoded (demo_views 2)) ++ take 30 (record_bytes 2 demo_next))
      1 (demo_header 0 1) true demo_chain_key None 0 = Some s /\
    sc_file s = demo_hd 0 1 ++ encoded (demo_views 2) /\ sc_count s = 2.
Proof.
  destruct (recover_torn_segment (demo_hd 0 1) (demo_views 2) demo_next 30 1 (demo_header 0 1) true
    demo_chain_key None 0 eq_refl demo_raw demo_records demo_next_wf) as (s & E & Hf & _ & _ & Hc & _).
  - vm_compute. lia.
  - exists s. split; [exact E|]. split; [exact Hf|exact Hc].
Defined.

Lemma recover_keeps_intact_prefix_witness :
  exists s, scan_last_segment (demo_hd 0 1 ++ encoded (demo_views 2) ++ replicate 70 Byte.xff)
      1 (demo_header 0 1) true demo_chain_key None 0 = Some s /\ 2 <= sc_count s.
Proof.
  destruct (recover_keeps_intact_prefix (demo_hd 0 1) (demo_views 2) (replicate 70 Byte.xff) 1
    (demo_header 0 1) true demo_chain_key None 0 eq_refl demo_raw demo_records) as (s & E & Hc & _).
  exists s. split; [exact E|exact Hc].
Defined.

(** One segment with two records and a torn third. *)
Definition demo_files : gmap Z bytes :=
  {[1 := demo_hd 0 1 ++ encoded (demo_views 2) ++ take 30 (record_bytes 2 demo_next)]}.

Lemma recover_shard_keeps_records_witness :
  exists st files', recover_shard demo_readdir demo_files 0 4096 KeepAll None = Ok (st, files') /\
    2 <= recovered_count st.
Proof.
  assert (deserialize (demo_hd 0 1) = Ok (demo_header 0 1)) as Hd by (vm_compute; reflexivity).
  destruct (recover_shard_keeps_records demo_readdir demo_files 0 4096 KeepAll None 1
    (demo_hd 0 1 ++ encoded (demo_views 2) ++ take 30 (record_bytes 2 demo_next)) (demo_header 0 1)
    1 (demo_hd 0 1) (demo_header 0 1) (demo_views 2) (take 30 (record_bytes 2 demo_next)))
    as (st & files' & E & _ & _ & Hc & _).
  - done.
  - intros id f. unfold demo_files. rewrite lookup_singleton_Some. intros [<- <-].
    split; [vm_compute; discriminate|]. exists (demo_header 0 1). split; vm_compute; reflexivity.
  - intros id [f Hf]. unfold demo_files in Hf. rewrite lookup_singleton_Some in Hf. lia.
  - apply lookup_singleton_eq.
  - vm_compute. reflexivity.
  - apply lookup_singleton_eq.
  - reflexivity.
  - exact Hd.
  - exact demo_raw.
  - exact demo_records.
  - exists st, files'. split; [exact E|exact Hc].
Defined.

(** The first segment of an encrypted shard, written under [demo_key1]. *)
Definition demo_enc_header : SegmentHeader :=
  mkHeader FORMAT_VERSION (Z.lor FLAG_HASH_ENABLED FLAG_ENCRYPTED_AES256GCM) HASH_ALGO_BLAKE3
    (xor32 demo_chain_key (derive_hash_init demo_key1)) 0 0 1 U64_MAX 0 (zeros 32) RECORD_FORMAT_V1
    (key_id_from_bytes demo_key1).

Definition demo_payload : bytes := zeros 12 ++ demo_key1 ++ encoded (demo_views 2).

Definition demo_enc_file : bytes :=
  serialize demo_enc_header (zeros 32) ++
  write_frame_header (blen demo_payload) (blen (encoded (demo_views 2))) ++ demo_payload.

Lemma resolve_chain_key_sound_witness :
  exists cont hash, decode_first_record demo_enc_file false true demo_rotated = Some (cont, hash) /\
    blake3_keyed_chain (resolve_chain_key demo_enc_file demo_enc_header (Some demo_rotated))
      (zeros 32) cont = hash.
Proof.
  exists [Byte.x61], (blake3_keyed_chain demo_chain_key (zeros 32) [Byte.x61]).
  destruct (@resolve_chain_key_sound _ toy_laws demo_enc_file demo_enc_header demo_rotated demo_key1
    demo_chain_key [Byte.x61] (blake3_keyed_chain demo_chain_key (zeros 32) [Byte.x61])) as [Ha _].
  - reflexivity.
  - right. left.
  - reflexivity.
  - vm_compute. reflexivity.
  - reflexivity.
  - split; [vm_compute; reflexivity|exact Ha].
Defined.

(** ** What the scan does with damaged segments *)

Definition flip (b : byte) : byte := byte_xor b Byte.x01.

(** A damaged record in the middle costs every record behind it.  The scan
    skips a record whose CRC fails when more data follows, but it still expects
    the skipped record's id: the next record, although intact, is taken for a
    torn write, and the file is truncated before the damage. *)
Theorem midfile_damage_truncates_tail :
  exists f s, demo_hd 0 1 ++ encoded (demo_views 3) = f /\
    scan_last_segment (alter flip 220%nat f) 1 (demo_header 0 1) true demo_chain_key None 0 = Some s /\
    sc_count s = 1 /\ sc_file s = demo_hd 0 1 ++ encoded (demo_views 1) /\
    is_ok (deserialize_record (slice (alter flip 220%nat f) 250 311)) = true.
Proof.
  eexists _, _. split; [reflexivity|]. split; [vm_compute; reflexivity|].
  split; [reflexivity|]. split; vm_compute; reflexivity.
Qed.

Definition demo_forged : ReadView := mkReadView 1 7 [Byte.x62] (zeros 32).

(** A hash-chain break is counted before it is cut.  The record that breaks
    the chain is removed from the file, yet the recovered last sequence and
    count include it, so that the next append leaves a gap in the ids. *)
Theorem hash_break_is_counted :
  exists s, scan_last_segment (demo_hd 0 1 ++ encoded (demo_views 1) ++ encoded [demo_forged]) 1
      (demo_header 0 1) true demo_chain_key None 0 = Some s /\
    sc_file s = demo_hd 0 1 ++ encoded (demo_views 1) /\
    sc_last_sequence s = 1 /\ sc_count s = 2.
Proof.
  eexists. split; [vm_compute; reflexivity|]. split; [vm_compute; reflexivity|]. done.
Qed.

Definition demo_zframe (vs : list ReadView) : bytes :=
  write_frame_header (1 + blen (encoded vs)) (blen (encoded vs)) ++ Byte.x5a :: encoded vs.

Definition demo_zheader : SegmentHeader :=
  mkHeader FORMAT_VERSION (Z.lor FLAG_HASH_ENABLED FLAG_COMPRESSED_ZSTD) HASH_ALGO_BLAKE3 demo_chain_key
    0 0 1 U64_MAX 0 (zeros 32) RECORD_FORMAT_V1 0.

(** A hash-chain break in a framed segment leaves a hole.  The [break] of
    the truncation leaves only the loop over the frame's records; the scan goes
    on behind the frame it has just cut off and returns a write offset beyond
    the end of the truncated file. *)
Theorem frame_hash_break_leaves_hole :
  exists s, scan_last_segment (serialize demo_zheader (zeros 32) ++ demo_zframe (demo_views 1) ++
      demo_zframe [demo_forged]) 1 demo_zheader true demo_chain_key None 0 = Some s /\
    blen (sc_file s) < last_valid_offset s.
Proof.
  eexists. split; [vm_compute; reflexivity|]. vm_compute. reflexivity.
Qed.

(** A hashed shard: one record, a roll, one more record. *)
Definition demo_hashed : SegmentManager * World :=
  match create 1000 true false None demo_chain_key KeepAll 0 (demo_dir []) with
  | (Ok m, w) =>
      exec (append_batch (demo_sealed 2) 1 1)
        (exec (roll demo_readdir 1 0) (exec (append_batch (demo_sealed 2) 0 0) (m, w)))
  | _ => demo_state 1000 KeepAll
  end.

(** After a roll, recovery rejects the records of a hashed shard.  Nothing
    tells the segment manager the sealer's last hash, so the new segment's
    header starts the chain at zero again; the scan finds a hash-chain break at
    the first record of the segment and truncates it. *)
Theorem rolled_hashed_segment_is_truncated :
  let files := files demo_hashed.2 in
  (fun f => blen f) <$> files !! 2 = Some (128 + 61) /\
  exists st files' ws, recover_shard demo_readdir files 0 1000 KeepAll None = Ok (st, files') /\
    (fun f => blen f) <$> files' !! 2 = Some 128 /\ rs_active_offset st = 128 /\
    warnings st = ws ++ [TornWrite 2 1 128] /\ ws <> [].
Proof.
  split; [vm_compute; reflexivity|]. eexists _, _, [_]. split; [vm_compute; reflexivity|].
  split; [vm_compute; reflexivity|]. split; [reflexivity|]. split; [reflexivity|discriminate].
Qed.

(** Segment 1 with seven records, and the file of a pre-allocated segment 2
    whose header never reached the disk. *)
Definition demo_leftover : gmap Z bytes :=
  <[2 := []]> (files (exec (append_batch (demo_slots 8) 0 6) (demo_state 694 KeepAll)).2).

(** A leftover of an interrupted pre-allocation blocks the shard.  Recovery
    warns about the empty file and resumes on segment 1, but leaves the file in
    place; from then on pre-allocating segment 2 fails, every append reports an
    error after writing its batch, and the retry writes the batch again. *)
Theorem leftover_segment_duplicates_appends :
  exists st files' s1 s2, recover_shard demo_readdir demo_leftover 0 694 KeepAll None = Ok (st, files') /\
    recovered_count st = 7 /\ files' !! 2 = Some [] /\
    let w := mkWorld files' ∅ ∅ ∅ ∅ [] [] in
    append_batch (demo_slots 8) 7 7 (segment_manager st, w) = (Err (SegIo OtherIo), s1) /\
    append_batch (demo_slots 8) 7 7 s1 = (Err (SegIo OtherIo), s2) /\
    let rec := encoded (slot_views 1 (demo_slots 8) 7) in
    files s2.2 !! 1 = (fun f => f ++ rec ++ rec) <$> files' !! 1.
Proof.
  eexists _, _, _, _. split; [vm_compute; reflexivity|]. split; [reflexivity|].
  split; [vm_compute; reflexivity|]. cbv zeta. split; [vm_compute; reflexivity|].
  split; vm_compute; reflexivity.
Qed.
End demo.
