(* ===== verification/Committer.v ===== *)
(** * The committer loop ([logdb/src/pipeline/committer.rs])

    One pass of [run_committer] over all shards: the idle check, the round-robin
    choice of a shard, the commit decision with the roll on a full segment, the
    fsync decision, the health reports and the exits.  A pass reads the rings,
    the flush targets and the shutdown phase once; the interleaving of producers
    with the committer's individual accesses is the subject of [Pipeline].
    Each shard has its own segment manager and directory. *)
From stdpp Require Import base gmap list numbers.
From coqutil Require Import Byte.
From Stdlib Require Import ZArith Lia.
From S2P Require Import Prelude Externals RustStd Format Index Shard Config Ring Signal KeyRing FileSys Storage.
Open Scope Z_scope.

(** [CommitTrigger]. *)
Record CommitTrigger := mkTrigger {
  tr_bytes : Z;
  tr_records : Z;
  tr_interval : Z;
  tr_durability : DurabilityMode;
}.

(** The thread's local variables and the state it shares. *)
Record Committer := mkCommitter {
  c_rings : list Ring;
  c_mgrs : list (SegmentManager * World);
  c_flush : FlushSignal;
  c_shutdown : ShutdownState;
  c_health : HealthState;
  c_checkpoint : Z;
  c_wake : bool;
  c_committed : list Z;
  c_durable : list Z;
  c_pending_since : option Z;
  c_current_shard : nat;
}.

Definition with_rings (v : list Ring) (c : Committer) : Committer :=
  mkCommitter v (c_mgrs c) (c_flush c) (c_shutdown c) (c_health c) (c_checkpoint c) (c_wake c)
    (c_committed c) (c_durable c) (c_pending_since c) (c_current_shard c).
Definition with_mgrs (v : list (SegmentManager * World)) (c : Committer) : Committer :=
  mkCommitter (c_rings c) v (c_flush c) (c_shutdown c) (c_health c) (c_checkpoint c) (c_wake c)
    (c_committed c) (c_durable c) (c_pending_since c) (c_current_shard c).
Definition with_flush (v : FlushSignal) (c : Committer) : Committer :=
  mkCommitter (c_rings c) (c_mgrs c) v (c_shutdown c) (c_health c) (c_checkpoint c) (c_wake c)
    (c_committed c) (c_durable c) (c_pending_since c) (c_current_shard c).
Definition with_shutdown (v : ShutdownState) (c : Committer) : Committer :=
  mkCommitter (c_rings c) (c_mgrs c) (c_flush c) v (c_health c) (c_checkpoint c) (c_wake c)
    (c_committed c) (c_durable c) (c_pending_since c) (c_current_shard c).
Definition with_health (v : HealthState) (c : Committer) : Committer :=
  mkCommitter (c_rings c) (c_mgrs c) (c_flush c) (c_shutdown c) v (c_checkpoint c) (c_wake c)
    (c_committed c) (c_durable c) (c_pending_since c) (c_current_shard c).
Definition with_wake (v : bool) (c : Committer) : Committer :=
  mkCommitter (c_rings c) (c_mgrs c) (c_flush c) (c_shutdown c) (c_health c) (c_checkpoint c) v
    (c_committed c) (c_durable c) (c_pending_since c) (c_current_shard c).
Definition with_committed (v : list Z) (c : Committer) : Committer :=
  mkCommitter (c_rings c) (c_mgrs c) (c_flush c) (c_shutdown c) (c_health c) (c_checkpoint c)
    (c_wake c) v (c_durable c) (c_pending_since c) (c_current_shard c).
Definition with_durable (v : list Z) (c : Committer) : Committer :=
  mkCommitter (c_rings c) (c_mgrs c) (c_flush c) (c_shutdown c) (c_health c) (c_checkpoint c)
    (c_wake c) (c_committed c) v (c_pending_since c) (c_current_shard c).
Definition with_pending (v : option Z) (c : Committer) : Committer :=
  mkCommitter (c_rings c) (c_mgrs c) (c_flush c) (c_shutdown c) (c_health c) (c_checkpoint c)
    (c_wake c) (c_committed c) (c_durable c) v (c_current_shard c).
Definition with_current (v : nat) (c : Committer) : Committer :=
  mkCommitter (c_rings c) (c_mgrs c) (c_flush c) (c_shutdown c) (c_health c) (c_checkpoint c)
    (c_wake c) (c_committed c) (c_durable c) (c_pending_since c) v.

(** The locals at the start of [run_committer]. *)
Definition committer_start (rings : list Ring) (mgrs : list (SegmentManager * World))
    (flush : FlushSignal) (shutdown : ShutdownState) (health : HealthState) (checkpoint : Z)
    : Committer :=
  mkCommitter rings mgrs flush shutdown health checkpoint false
    (committed_cursor <$> rings) (durable_cursor <$> rings) None 0.

(** How a pass ends: the thread returns, waits for a wake-up, backs off, goes
    round again, or panics. *)
Inductive Outcome := Exited | Parked | BackedOff | Again | Crashed.

(** [available_hi]. *)
Definition available_hi (r : Ring) (committed : Z) : Z :=
  if rhash r then sealed_cursor r else u64 (highest_published_contiguous r committed + 1).

(** [choose_batch_end]. *)
Definition choose_batch_end (committed avail buf_capacity : Z) : Z :=
  let max_records := Z.max (buf_capacity / 300) 64 in
  let limit := sat_add64 committed max_records in
  Z.min limit (sat_sub avail 1).

(** The closure [min_durable]. *)
Definition min_cursor (l : list Z) : Z := default 0 (list_min l).

(** Indexing a vector that has one entry per shard. *)
Definition cursor_at (l : list Z) (s : nat) : Z := default 0 (l !! s).

Definition uncommitted (c : Committer) (s : nat) : bool :=
  match c_rings c !! s, c_committed c !! s with
  | Some r, Some n => n <? available_hi r n
  | _, _ => false
  end.

Definition shard_ids (c : Committer) : list nat := seq 0 (length (c_rings c)).

(** The scan for the next shard with uncommitted records, [n] shards from
    [cur]: the shard found and the new round-robin position. *)
Fixpoint choose_shard (n : nat) (num_shards : nat) (c : Committer) (cur : nat) : option nat * nat :=
  match n with
  | O => (None, cur)
  | S n =>
      let next := (cur + 1) `mod` num_shards in
      if uncommitted c cur then (Some cur, next) else choose_shard n num_shards c next
  end%nat.

Definition error_code (e : SegmentError) : Z :=
  match e with SegIo Enospc => HEALTH_DISK_FULL | _ => HEALTH_IO_ERROR end.

(** What the report of an error does; a panic unwinds the thread instead. *)
Definition report (e : SegmentError) (now : Z) (c : Committer) : Outcome * Committer :=
  match e with
  | Panicked => (Crashed, c)
  | _ => (BackedOff, with_health (set_error (c_health c) (error_code e) now) c)
  end.

Section committer.
Context `{Externals}.
Variable readdir : gmap Z bytes -> list Z.

(** [Vec::capacity] of the write buffer: the allocator's choice. *)
Variable buf_cap : SegmentManager -> Z.

Variable shard_bits : Z.
Variable trigger : CommitTrigger.

Definition drain_all (c : Committer) : Committer :=
  with_mgrs ((fun s => (drain_pending_fsyncs s).2) <$> c_mgrs c) c.

(** The commit of shard [si]: [Some outcome] when the pass ends here. *)
Definition commit_shard (now avail : Z) (si : nat) (c : Committer) : option Outcome * Committer :=
  match c_rings c !! si, c_mgrs c !! si, c_committed c !! si with
  | Some r, Some s, Some from =>
      let to := choose_batch_end from avail (buf_cap s.1) in
      match append_batch r from to s with
      | (Ok last_written, s) =>
          let n := u64 (last_written + 1) in
          let c := with_mgrs (<[si := s]> (c_mgrs c)) c in
          let c := with_committed (<[si := n]> (c_committed c)) c in
          let c := with_rings (<[si := set_committed r n]> (c_rings c)) c in
          let c := with_pending (if avail <=? n then None else Some now) c in
          (None, with_health (clear_if_recovered (c_health c)) c)
      | (Err Full, s) =>
          let next_base := encode_record_id (Z.of_nat si) from shard_bits in
          let '(res, s) := roll readdir next_base (c_checkpoint c) s in
          let c := with_mgrs (<[si := s]> (c_mgrs c)) c in
          match res with
          | Ok _ => (Some Again, c)
          | Err e => let '(o, c) := report e now c in (Some o, c)
          end
      | (Err e, s) =>
          let '(o, c) := report e now (with_mgrs (<[si := s]> (c_mgrs c)) c) in (Some o, c)
      end
  | _, _, _ => (Some Crashed, c)
  end.

(** The loop over the managers that ends at the first failed [sync_all]. *)
Fixpoint sync_mgrs (l : list (SegmentManager * World))
    : option SegmentError * list (SegmentManager * World) :=
  match l with
  | [] => (None, [])
  | s :: l =>
      match sync_all s with
      | (Ok _, s) => let '(e, l) := sync_mgrs l in (e, s :: l)
      | (Err e, s) => (Some e, s :: l)
      end
  end.

(** Publication of the durable cursors after a successful sync. *)
Fixpoint complete_shards (ids : list nat) (c : Committer) : Committer :=
  match ids with
  | [] => c
  | s :: ids =>
      let d := cursor_at (c_committed c) s in
      let c := with_durable (<[s := d]> (c_durable c)) c in
      let c := with_rings (alter (fun r => set_durable r d) s (c_rings c)) c in
      let c := with_flush (default (c_flush c) (complete (c_flush c) s d)) c in
      complete_shards ids (with_mgrs (alter (fun m => (save_active_index m).2) s (c_mgrs c)) c)
  end.

(** The fsync of all shards; [Some outcome] when the pass ends here. *)
Definition sync_shards (now : Z) (c : Committer) : option Outcome * Committer :=
  if min_cursor (c_durable c) <? default 0 (list_max (c_committed c)) then
    let '(err, ms) := sync_mgrs (c_mgrs c) in
    let c := with_mgrs ms c in
    match err with
    | None => (None, complete_shards (shard_ids c) c)
    | Some e => let '(o, c) := report e now c in (Some o, c)
    end
  else (None, c).

Definition sync_due (si : nat) (time_due need_sync : bool) (estimate : Z) (c : Committer) : bool :=
  let unsynced := cursor_at (c_durable c) si <? cursor_at (c_committed c) si in
  match tr_durability trigger with
  | Sync => unsynced
  | Batch => unsynced && (time_due || (tr_bytes trigger <=? estimate) || need_sync
                          || draining (c_shutdown c))
  | Async => need_sync || draining (c_shutdown c)
  end.

(** The test with which the thread returns while draining. *)
Definition drained (c : Committer) : bool :=
  draining (c_shutdown c) && (min_cursor (c_committed c) <=? min_cursor (c_durable c)).

Definition commit_phase (should_commit : bool) (now avail : Z) (si : nat) (c : Committer) :=
  if should_commit then commit_shard now avail si c else (None, c).

Definition sync_phase (due : bool) (now : Z) (c : Committer) :=
  if due then sync_shards now c else (None, c).

(** The pass from the choice of a shard on. *)
Definition work (now : Z) (has_any_uncommitted has_any_unsynced need_commit need_sync : bool)
    (c : Committer) : Outcome * Committer :=
  let n := length (c_rings c) in
  let start_shard := c_current_shard c in
  let '(chosen, cur) := choose_shard n n c start_shard in
  let c := with_current cur c in
  if bool_decide (chosen = None) && negb has_any_unsynced then
    if drained c then (Exited, c) else (BackedOff, drain_all c)
  else
    let si := default start_shard chosen in
    let from := cursor_at (c_committed c) si in
    let avail := match c_rings c !! si with Some r => available_hi r from | None => 0 end in
    let batch_count := sat_sub avail from in
    let estimate := sat_mul64 batch_count 256 in
    let time_due :=
      match c_pending_since c with Some t => tr_interval trigger <=? now - t | None => false end in
    let should_commit :=
      has_any_uncommitted && (from <? avail) &&
      ((tr_bytes trigger <=? estimate) || (tr_records trigger <=? batch_count) || time_due
       || need_commit || draining (c_shutdown c)) in
    match commit_phase should_commit now avail si c with
    | (Some o, c) => (o, c)
    | (None, c) =>
        let due := sync_due si time_due need_sync estimate c in
        match sync_phase due now c with
        | (Some o, c) => (o, c)
        | (None, c) =>
            if draining (c_shutdown c) && negb has_any_uncommitted && negb has_any_unsynced
            then (Exited, c)
            else if negb should_commit && negb due then (BackedOff, drain_all c)
            else (Again, c)
        end
    end.

(** The four tests at the top of the loop. *)
Definition has_any_uncommitted (c : Committer) : bool := existsb (uncommitted c) (shard_ids c).

Definition has_any_unsynced (c : Committer) : bool :=
  existsb (fun s => cursor_at (c_durable c) s <? cursor_at (c_committed c) s) (shard_ids c).

Definition below_target (c : Committer) (l : list Z) : bool :=
  any_pending (c_flush c) &&
  existsb (fun s => cursor_at l s <? default U64_MAX (flush_target (c_flush c) s)) (shard_ids c).

Definition fully_idle (c : Committer) : bool :=
  negb (has_any_uncommitted c) && negb (has_any_unsynced c) &&
  negb (below_target c (c_committed c)) && negb (below_target c (c_durable c)).

(** One iteration of the loop of [run_committer]. *)
Definition pass (now : Z) (c : Committer) : Outcome * Committer :=
  if fully_idle c then
    if drained c then (Exited, c)
    else (Parked, with_wake false (drain_all (with_pending None c)))
  else
    let c1 := if has_any_uncommitted c && bool_decide (c_pending_since c = None)
              then with_pending (Some now) c else c in
    work now (has_any_uncommitted c) (has_any_unsynced c) (below_target c (c_committed c))
      (below_target c (c_durable c)) c1.

(** The loop: one time stamp per pass. *)
Fixpoint run_committer (nows : list Z) (c : Committer) : Committer :=
  match nows with
  | [] => c
  | now :: nows =>
      match pass now c with
      | (Exited, c) | (Crashed, c) => c
      | (_, c) => run_committer nows c
      end
  end.

(** ** Batches *)

Lemma choose_batch_end_bounds committed avail cap :
  0 <= committed < avail -> avail <= U64_MAX ->
  committed <= choose_batch_end committed avail cap < avail.
Proof. unfold choose_batch_end, sat_add64, sat_sub. lia. Qed.

Lemma append_loop_range n ring start seq pos last m p l m' :
  0 <= pos -> append_loop n ring start seq pos last m = (Ok (p, l), m') ->
  (l = last /\ (n = 0%nat \/ pos <> 0)) \/ seq <= l < seq + Z.of_nat n.
Proof.
  revert seq pos last m. induction n as [|n IH]; intros seq pos last m Hpos; cbn [append_loop].
  { intros [= <- <- <-]. auto. }
  case_match; [destruct (Z.eqb_spec pos 0); [done|]; intros [= <- <- <-]; auto|].
  destruct (serialize_record _ _ _) as [[tl len]|] eqn:Hser; [|done].
  assert (0 < len) as Hlen.
  { revert Hser. unfold serialize_record. case_match; [done|]. intros [= _ <-].
    unfold record_size. lia. }
  intros [[-> _]|?]%IH; [right|right|]; lia.
Qed.

(** A successful append of a non-empty range writes at least its first record
    and nothing beyond its last. *)
Lemma append_batch_range ring from to s l s' :
  from <= to -> append_batch ring from to s = (Ok l, s') -> from <= l <= to.
Proof.
  intros Hle. unfold append_batch, mbind, M_bind, get_mgr. cbn [fst snd].
  destruct (append_loop _ _ _ _ _ _ _) as [[[p l']|e] m1] eqn:Hloop; [|done].
  apply append_loop_range in Hloop; [|lia].
  match goal with |- context [(if 0 <? p then ?a else ?b) ?s] =>
    destruct ((if 0 <? p then a else b) s) as [[[]|] s1] end; [|done].
  destruct (maybe_prepare_next _ s1) as [[[]|] s2]; [|done]. intros [= <- <-].
  destruct Hloop as [[_ [?|?]]|?]; lia.
Qed.

(** ** Cursors *)

Record cinv (c : Committer) : Prop := {
  ci_mgrs : length (c_mgrs c) = length (c_rings c);
  ci_committed : c_committed c = committed_cursor <$> c_rings c;
  ci_durable : c_durable c = durable_cursor <$> c_rings c;
  ci_order : Forall (fun r => 0 <= durable_cursor r <= committed_cursor r) (c_rings c);
  ci_sealed : Forall (fun r => sealed_cursor r <= U64_MAX) (c_rings c);
  ci_flush : Forall2 (fun d r => d <= durable_cursor r) (completed (c_flush c)) (c_rings c);
}.

(** What a pass may do to a ring: publish a higher committed cursor, up to the
    records available, and move the durable cursor to the committed one. *)
Definition ring_step (r r' : Ring) : Prop :=
  exists a d, r' = set_durable (set_committed r a) d /\
    committed_cursor r <= a <= Z.max (committed_cursor r) (available_hi r (committed_cursor r)) /\
    (d = durable_cursor r \/ d = a).

Lemma ring_step_refl r : ring_step r r.
Proof. exists (committed_cursor r), (durable_cursor r). destruct r. simpl. split; [done|lia]. Qed.

Lemma rings_refl l : Forall2 ring_step l l.
Proof. induction l; constructor; auto using ring_step_refl. Qed.

Lemma available_hi_max r n : sealed_cursor r <= U64_MAX -> available_hi r n <= U64_MAX.
Proof.
  unfold available_hi. destruct (rhash r); [done|]. intros _.
  pose proof (wrap_range 64 (highest_published_contiguous r n + 1) ltac:(lia)) as Hw.
  unfold in_range in Hw. lia.
Qed.

Lemma list_cursor_at {A} (f : A -> Z) (l : list A) s x :
  l !! s = Some x -> cursor_at (f <$> l) s = f x.
Proof. intros Hx. unfold cursor_at. by rewrite list_lookup_fmap, Hx. Qed.

(** A pass that only touches the managers, the health state, the round-robin
    position, the pending time or the wake flag. *)
Record same_cursors (c c' : Committer) : Prop := {
  sc_rings : c_rings c' = c_rings c;
  sc_mgrs : length (c_mgrs c') = length (c_mgrs c);
  sc_committed : c_committed c' = c_committed c;
  sc_durable : c_durable c' = c_durable c;
  sc_flush : c_flush c' = c_flush c;
}.

Lemma cinv_same c c' : same_cursors c c' -> cinv c -> cinv c'.
Proof. intros [Hr Hm Hc Hd Hf] []. split; rewrite ?Hr, ?Hm, ?Hc, ?Hd, ?Hf; auto. Qed.

(** The commit of one shard. *)
Lemma commit_shard_cursors now si c r o c' :
  cinv c -> c_rings c !! si = Some r ->
  let avail := available_hi r (committed_cursor r) in
  committed_cursor r < avail ->
  commit_shard now avail si c = (o, c') ->
  cinv c' /\
  ((is_Some o /\ same_cursors c c') \/
   (o = None /\ exists n, committed_cursor r < n <= avail /\
      c_rings c' = <[si := set_committed r n]> (c_rings c) /\ c_flush c' = c_flush c)).
Proof.
  intros Hinv Hr avail Hlt. unfold commit_shard. rewrite Hr.
  destruct (c_mgrs c !! si) as [s|] eqn:Hs.
  2:{ intros [= <- <-]. split; [done|]. left. by split. }
  assert (c_committed c !! si = Some (committed_cursor r)) as Hc.
  { by rewrite (ci_committed _ Hinv), list_lookup_fmap, Hr. }
  rewrite Hc.
  pose proof (Forall_lookup_1 _ _ _ _ (ci_order _ Hinv) Hr) as Hord; cbv beta in Hord.
  pose proof (available_hi_max r (committed_cursor r) (Forall_lookup_1 _ _ _ _ (ci_sealed _ Hinv) Hr)) as Hmax.
  destruct (choose_batch_end_bounds (committed_cursor r) avail (buf_cap s.1)) as [Hb1 Hb2]; [lia|done|].
  assert (forall s', same_cursors c (with_mgrs (<[si := s']> (c_mgrs c)) c)) as Hsame.
  { intros s'. split; simpl; rewrite ?length_insert; done. }
  assert (forall s' e o c', report e now (with_mgrs (<[si := s']> (c_mgrs c)) c) = (o, c') ->
    same_cursors c c') as Hrep.
  { intros s' e o1 c1. destruct (Hsame s') as []. unfold report.
    destruct e; intros [= <- <-]; split; done. }
  destruct (append_batch _ _ _ s) as [[last|e] s1] eqn:Happ.
  - apply append_batch_range in Happ; [|done]. intros [= <- <-].
    assert (u64 (last + 1) = last + 1) as -> by (apply wrap_small; unfold in_range; lia).
    split; [|right; split; [done|]; exists (last + 1); split; [lia|done]].
    split; simpl; rewrite ?length_insert.
    + apply (ci_mgrs _ Hinv).
    + by rewrite list_fmap_insert, (ci_committed _ Hinv).
    + rewrite list_fmap_insert, (ci_durable _ Hinv). simpl. symmetry. apply list_insert_id.
      by rewrite list_lookup_fmap, Hr.
    + apply Forall_insert; [apply (ci_order _ Hinv)|]. simpl. lia.
    + apply Forall_insert; [apply (ci_sealed _ Hinv)|]. simpl.
      by apply (Forall_lookup_1 _ _ _ _ (ci_sealed _ Hinv) Hr).
    + pose proof (ci_flush _ Hinv) as Hf. rewrite <- (list_insert_id (completed (c_flush c)) si
        (cursor_at (completed (c_flush c)) si)).
      * apply Forall2_insert; [done|]. simpl.
        apply Forall2_lookup_r with (i := si) (y := r) in Hf as (d & Hd & Hle); [|done].
        unfold cursor_at. by rewrite Hd.
      * apply Forall2_lookup_r with (i := si) (y := r) in Hf as (d & Hd & Hle); [|done].
        unfold cursor_at. by rewrite Hd.
  - intros Hm. assert (is_Some o /\ same_cursors c c') as [Ho Hsc].
    { destruct e; [destruct (roll _ _ _ s1) as [[[]|e2] s2]|..].
      - injection Hm as <- <-. split; [done|apply Hsame].
      - destruct (report e2 _ _) as [o2 c2] eqn:Hrp. injection Hm as <- <-. split; [done|]. eauto.
      - destruct (report _ _ _) as [o2 c2] eqn:Hrp. injection Hm as <- <-. split; [done|]. eauto.
      - destruct (report _ _ _) as [o2 c2] eqn:Hrp. injection Hm as <- <-. split; [done|]. eauto. }
    split; [by eapply cinv_same|]. by left.
Qed.

(** The publication of a durable cursor. *)
Definition dur_step (r r' : Ring) : Prop := r' = r \/ r' = set_durable r (committed_cursor r).

(** A manager whose files and sync state are unchanged. *)
Definition same_data (s s' : SegmentManager * World) : Prop :=
  files s'.2 = files s.2 /\ synced s'.2 = synced s.2 /\ active_id s'.1 = active_id s.1.

#[global] Instance same_data_preorder : PreOrder same_data.
Proof. split; [done|]. intros ??? (?&?&?) (?&?&?). repeat split; congruence. Qed.

Lemma save_index_data s : same_data s (save_active_index s).2.
Proof.
  destruct s as [m w]. unfold save_active_index, mbind, M_bind, get_mgr. simpl.
  destruct (active_index m) as [idx|]; [|done]. destruct (index_is_empty idx); [done|].
  unfold lift. destruct (fs_write_idx _ _ _) as [r w'] eqn:Hs. simpl.
  apply syscall_inv in Hs as [(e & n & _ & ->)|Hs]; simpl in *; [by destruct w|].
  destruct w; by injection Hs as <- <-.
Qed.

Lemma Forall2_alter_r {A} (P : A -> A -> Prop) f s (l : list A) :
  (forall x, P x x) -> (forall x, l !! s = Some x -> P x (f x)) -> Forall2 P l (alter f s l).
Proof.
  intros Hrefl Hf. apply Forall2_same_length_lookup_2; [by rewrite length_alter|].
  intros i x y Hx Hy. destruct (decide (i = s)) as [->|Hne].
  - rewrite list_lookup_alter_eq, Hx in Hy. injection Hy as <-. auto.
  - rewrite list_lookup_alter_ne in Hy by done. by simplify_eq.
Qed.

Lemma alter_fmap_ne {A B} (g : A -> B) f s (l : list A) :
  (forall x, g (f x) = g x) -> g <$> alter f s l = g <$> l.
Proof.
  intros Hg. apply list_eq. intros i. rewrite !list_lookup_fmap.
  destruct (decide (i = s)) as [->|]; [|by rewrite list_lookup_alter_ne].
  rewrite list_lookup_alter_eq. destruct (l !! s); simpl; by rewrite ?Hg.
Qed.

Lemma alter_ge {A} (f : A -> A) s (l : list A) : (length l <= s)%nat -> alter f s l = l.
Proof.
  intros Hs. apply list_eq. intros i. destruct (decide (i = s)) as [->|]; [|by rewrite list_lookup_alter_ne].
  rewrite list_lookup_alter_eq. by rewrite (proj2 (lookup_ge_None l s) Hs).
Qed.

Definition complete_shard (s : nat) (c : Committer) : Committer :=
  complete_shards [s] c.

Lemma complete_shards_cons s ids c :
  complete_shards (s :: ids) c = complete_shards ids (complete_shard s c).
Proof. done. Qed.

Lemma complete_shard_spec s c :
  cinv c ->
  let c' := complete_shard s c in
  cinv c' /\ Forall2 dur_step (c_rings c) (c_rings c') /\
  Forall2 same_data (c_mgrs c) (c_mgrs c') /\
  (forall r', c_rings c' !! s = Some r' -> durable_cursor r' = committed_cursor r').
Proof.
  intros Hinv c'. subst c'. unfold complete_shard. simpl.
  set (d := cursor_at (c_committed c) s).
  assert (forall r, c_rings c !! s = Some r -> d = committed_cursor r) as Hd.
  { intros r Hr. subst d. rewrite (ci_committed _ Hinv). by apply list_cursor_at. }
  split; [|split; [|split]].
  - split; simpl.
    + rewrite !length_alter. apply (ci_mgrs _ Hinv).
    + rewrite alter_fmap_ne by done. apply (ci_committed _ Hinv).
    + rewrite (ci_durable _ Hinv). apply list_eq. intros i.
      rewrite list_lookup_fmap. destruct (decide (i = s)) as [->|Hne].
      * rewrite list_lookup_alter_eq. destruct (c_rings c !! s) as [r|] eqn:Hr; simpl.
        -- apply list_lookup_insert_eq. rewrite length_fmap. by eapply lookup_lt_Some.
        -- apply lookup_ge_None. rewrite length_insert, length_fmap. by apply lookup_ge_None.
      * rewrite list_lookup_insert_ne, list_lookup_alter_ne, list_lookup_fmap by done. done.
    + apply Forall_alter; [apply (ci_order _ Hinv)|]. intros r Hr Ho. simpl in *.
      rewrite (Hd r Hr). lia.
    + apply Forall_alter; [apply (ci_sealed _ Hinv)|]. done.
    + pose proof (ci_flush _ Hinv) as Hf.
      destruct (complete (c_flush c) s d) as [f'|] eqn:Hcomp; simpl.
      * apply Forall2_same_length_lookup_2.
        { rewrite length_alter, <- (Forall2_length Hf). revert Hcomp. unfold complete.
          destruct (completed (c_flush c) !! s); simpl; [|done]. intros [= <-]. simpl.
          by rewrite length_insert. }
        intros i x r Hx Hr. rewrite (complete_lookup _ _ _ _ i Hcomp) in Hx.
        destruct (decide (i = s)) as [->|Hne].
        -- rewrite list_lookup_alter_eq in Hr. destruct (c_rings c !! s) as [r0|] eqn:Hr0; [|done].
           injection Hr as <-. simpl. destruct (completed (c_flush c) !! s) as [x0|] eqn:Hx0; [|done].
           injection Hx as <-. pose proof (Forall2_lookup_lr _ _ _ _ _ _ Hf Hx0 Hr0) as Hle. simpl in Hle.
           pose proof (Forall_lookup_1 _ _ _ _ (ci_order _ Hinv) Hr0) as Hord. simpl in Hord.
           pose proof (Hd r0 eq_refl). lia.
        -- rewrite list_lookup_alter_ne in Hr by done. apply (Forall2_lookup_lr _ _ _ _ _ _ Hf Hx Hr).
      * rewrite alter_ge; [done|]. revert Hcomp. unfold complete.
        destruct (completed (c_flush c) !! s) eqn:Hx0; simpl; [done|]. intros _.
        rewrite <- (Forall2_length Hf). by apply lookup_ge_None.
  - apply Forall2_alter_r; [by left|]. intros r Hr. right. by rewrite (Hd r Hr).
  - apply Forall2_alter_r; [done|]. intros m _. apply save_index_data.
  - intros r'. simpl. rewrite list_lookup_alter_eq. destruct (c_rings c !! s) as [r|] eqn:Hr; [|done].
    intros [= <-]. simpl. by apply Hd.
Qed.

Lemma dur_steps_trans l1 l2 l3 : Forall2 dur_step l1 l2 -> Forall2 dur_step l2 l3 -> Forall2 dur_step l1 l3.
Proof.
  intros H1 H2. revert l3 H2. induction H1 as [|r1 r2 l1 l2 Hs _ IH]; intros l3 H2; inversion H2; subst; constructor; auto.
  destruct Hs as [->| ->], H3 as [->| ->]; unfold dur_step; auto.
Qed.

Lemma complete_shards_spec ids c :
  cinv c ->
  let c' := complete_shards ids c in
  cinv c' /\ Forall2 dur_step (c_rings c) (c_rings c') /\
  Forall2 same_data (c_mgrs c) (c_mgrs c') /\
  (forall s r', s ∈ ids -> c_rings c' !! s = Some r' -> durable_cursor r' = committed_cursor r').
Proof.
  revert c. induction ids as [|s ids IH]; intros c Hinv c'.
  - split; [done|]. split; [apply Forall_Forall2_diag, Forall_true; by left|].
    split; [apply Forall_Forall2_diag, Forall_true; done|]. intros s r' Hs. by apply not_elem_of_nil in Hs.
  - subst c'. rewrite complete_shards_cons. destruct (complete_shard_spec s c Hinv) as (Hi1 & Hr1 & Hm1 & Hd1).
    destruct (IH _ Hi1) as (Hi2 & Hr2 & Hm2 & Hd2). split; [done|].
    split; [by eapply dur_steps_trans|]. split.
    { exact (transitivity (R := Forall2 same_data) Hm1 Hm2). }
    intros i r' [->|Hi]%elem_of_cons Hr'; [|by eapply Hd2].
    apply Forall2_lookup_r with (i := s) (y := r') in Hr2 as (r1 & Hr1' & [->| ->]); [|done..].
    all: by auto.
Qed.

(** ** Syncing *)

Definition all_synced (s : SegmentManager * World) : Prop :=
  forall id f, id <= active_id s.1 -> files s.2 !! id = Some f -> synced s.2 !! id = Some f.

Lemma sync_mgrs_length l : length (sync_mgrs l).2 = length l.
Proof.
  induction l as [|s l IH]; simpl; [done|]. destruct (sync_all s) as [[[]|e] s']; [|done].
  destruct (sync_mgrs l). simpl in *. by rewrite IH.
Qed.

Lemma sync_mgrs_ok l l' : sync_mgrs l = (None, l') -> Forall covered l -> Forall all_synced l'.
Proof.
  revert l'. induction l as [|s l IH]; intros l'; simpl; [by intros [= <-]|].
  destruct (sync_all s) as [[[]|e] s'] eqn:Hs; [|done]. destruct (sync_mgrs l) as [e l1].
  intros [= -> <-] Hc. inversion Hc as [|? ? Hcs Hcl]; subst. constructor; [|by apply IH].
  destruct s as [m w], s' as [m' w']. destruct (sync_all_ok m w m' w' Hcs Hs) as (_ & Ha & _ & Hall & _).
  intros id f. simpl. rewrite Ha. apply Hall.
Qed.

Lemma same_data_synced l l' : Forall2 same_data l l' -> Forall all_synced l -> Forall all_synced l'.
Proof.
  induction 1 as [|s s' l l' (Hf & Hs & Ha) _ IH]; intros Hall; [done|].
  inversion Hall as [|? ? H1 H2]; subst. constructor; [|by apply IH].
  intros id f. rewrite Hf, Hs, Ha. apply H1.
Qed.

(** The sync either leaves the cursors alone or has everything on stable
    storage before it publishes them. *)
Lemma sync_shards_spec now c o c' :
  cinv c -> sync_shards now c = (o, c') ->
  cinv c' /\ Forall2 dur_step (c_rings c) (c_rings c') /\
  (c_rings c' = c_rings c \/ (o = None /\ (Forall covered (c_mgrs c) -> Forall all_synced (c_mgrs c')))).
Proof.
  intros Hinv. unfold sync_shards. destruct (_ <? _).
  2:{ intros [= <- <-]. split; [done|]. split; [apply Forall_Forall2_diag, Forall_true; by left|by left]. }
  pose proof (sync_mgrs_length (c_mgrs c)) as Hlen.
  destruct (sync_mgrs (c_mgrs c)) as [err ms] eqn:Hsync. simpl in Hlen.
  assert (same_cursors c (with_mgrs ms c)) as Hsame by (by split).
  destruct err as [e|].
  - assert (same_cursors c (report e now (with_mgrs ms c)).2) as Hs2.
    { destruct Hsame. unfold report. destruct e; by split. }
    destruct (report e now (with_mgrs ms c)) as [o1 c1]. intros [= <- <-]. simpl in Hs2.
    split; [by eapply cinv_same|]. rewrite (sc_rings _ _ Hs2).
    split; [apply Forall_Forall2_diag, Forall_true; by left|by left].
  - intros [= <- <-].
    destruct (complete_shards_spec (shard_ids (with_mgrs ms c)) (with_mgrs ms c)) as (Hi & Hr & Hm & _).
    { by eapply cinv_same. }
    split; [done|]. split; [done|]. right. split; [done|]. intros Hcov.
    eapply same_data_synced; [exact Hm|]. simpl. by eapply sync_mgrs_ok.
Qed.

Lemma commit_shard_covered now avail si c o c' :
  commit_shard now avail si c = (o, c') -> Forall covered (c_mgrs c) -> Forall covered (c_mgrs c').
Proof.
  intros Hc Hcov. unfold commit_shard in Hc.
  destruct (c_rings c !! si) as [r|]; [|by injection Hc as <- <-].
  destruct (c_mgrs c !! si) as [s|] eqn:Hs; [|by injection Hc as <- <-].
  destruct (c_committed c !! si) as [from|]; [|by injection Hc as <- <-].
  pose proof (Forall_lookup_1 _ _ _ _ Hcov Hs) as Hcs.
  assert (forall e n c1 o1 c2, report e n c1 = (o1, c2) -> c_mgrs c2 = c_mgrs c1) as Hrep.
  { intros e n c1 o1 c2. unfold report. by destruct e; intros [= <- <-]. }
  destruct (append_batch _ _ _ s) as [res s1] eqn:Happ.
  assert (covered s1) as H1 by (eapply (covered_op readdir); [eapply op_append, Happ|done]).
  assert (Forall covered (<[si := s1]> (c_mgrs c))) as Hcov1 by (by apply Forall_insert).
  destruct res as [last|[|e|]].
  - by injection Hc as <- <-.
  - destruct (roll _ _ _ s1) as [res s2] eqn:Hroll.
    assert (covered s2) as H2 by (eapply covered_op; [eapply op_roll, Hroll|done]).
    destruct res as [[]|e]; [injection Hc as <- <-; by apply Forall_insert|].
    destruct (report _ _ _) as [o1 c1] eqn:Hr. injection Hc as <- <-. rewrite (Hrep _ _ _ _ _ Hr).
    by apply Forall_insert.
  - destruct (report _ _ _) as [o1 c1] eqn:Hr. injection Hc as <- <-. by rewrite (Hrep _ _ _ _ _ Hr).
  - by injection Hc as <- <-.
Qed.

(** ** A whole pass *)

Record pass_ok (c c' : Committer) : Prop := {
  po_inv : cinv c';
  po_rings : Forall2 ring_step (c_rings c) (c_rings c');
  po_sync : Forall covered (c_mgrs c) ->
    forall s r r', c_rings c !! s = Some r -> c_rings c' !! s = Some r' ->
    durable_cursor r' <> durable_cursor r -> Forall all_synced (c_mgrs c');
}.

Lemma pass_ok_same c c' : cinv c -> same_cursors c c' -> pass_ok c c'.
Proof.
  intros Hinv Hs. split; [by eapply cinv_same|rewrite (sc_rings _ _ Hs); apply rings_refl|].
  rewrite (sc_rings _ _ Hs). intros _ s r r' Hr Hr'. by simplify_eq.
Qed.

Lemma same_cursors_trans c1 c2 c3 : same_cursors c1 c2 -> same_cursors c2 c3 -> same_cursors c1 c3.
Proof. intros [] []. split; congruence. Qed.

Lemma drain_all_same c : same_cursors c (drain_all c).
Proof. split; simpl; rewrite ?length_fmap; done. Qed.

(** Committing a prefix of the available records, then publishing durability. *)
Lemma ring_step_dur c si r n (rs' : list Ring) :
  c_rings c !! si = Some r ->
  committed_cursor r < n <= available_hi r (committed_cursor r) ->
  Forall2 dur_step (<[si := set_committed r n]> (c_rings c)) rs' -> 
  Forall2 ring_step (c_rings c) rs'.
Proof.
  intros Hr Hn Hd. apply Forall2_same_length_lookup_2.
  { by rewrite <- (Forall2_length Hd), length_insert. }
  intros i x y Hx Hy. destruct (Forall2_lookup_r _ _ _ _ _ Hd Hy) as (z & Hz & Hzy).
  apply list_lookup_insert_Some in Hz as [(Hi & Hz & _)|(Hne & Hz)].
  - subst z. rewrite <- Hi, Hr in Hx. injection Hx as <-. exists n. destruct Hzy as [->| ->]; eexists; (split; [destruct r; reflexivity|]); simpl; split; auto; lia.
  - rewrite Hx in Hz. injection Hz as <-. destruct Hzy as [->| ->]; [apply ring_step_refl|].
    exists (committed_cursor x), (committed_cursor x). destruct x; simpl. split; [done|]. lia.
Qed.

Lemma dur_ring_steps rs rs' : Forall2 dur_step rs rs' -> Forall2 ring_step rs rs'.
Proof.
  apply Forall2_impl. intros r r' [->| ->]; [apply ring_step_refl|].
  exists (committed_cursor r), (committed_cursor r). destruct r; simpl. split; [done|]. lia.
Qed.

(** The available records of shard [si], as the pass computes them. *)
Definition shard_avail (c : Committer) (si : nat) : Z :=
  match c_rings c !! si with
  | Some r => available_hi r (cursor_at (c_committed c) si)
  | None => 0
  end.

Lemma commit_phase_ok b now si c o c' :
  cinv c -> (b = true -> cursor_at (c_committed c) si < shard_avail c si) ->
  commit_phase b now (shard_avail c si) si c = (o, c') ->
  cinv c' /\ (Forall covered (c_mgrs c) -> Forall covered (c_mgrs c')) /\
  (same_cursors c c' \/
   (b = true /\ o = None /\ exists r n, c_rings c !! si = Some r /\
      committed_cursor r < n <= available_hi r (committed_cursor r) /\
      c_rings c' = <[si := set_committed r n]> (c_rings c))).
Proof.
  intros Hinv Hlt. destruct b; simpl; [|intros [= <- <-]; split; [done|]; split; [done|]; by left].
  specialize (Hlt eq_refl). unfold shard_avail in *. destruct (c_rings c !! si) as [r|] eqn:Hr.
  2:{ unfold cursor_at in Hlt. rewrite (ci_committed _ Hinv), list_lookup_fmap, Hr in Hlt.
      simpl in Hlt. lia. }
  assert (cursor_at (c_committed c) si = committed_cursor r) as Hfrom.
  { rewrite (ci_committed _ Hinv). by apply list_cursor_at. }
  rewrite Hfrom in *. intros Hcs. pose proof (commit_shard_covered _ _ _ _ _ _ Hcs) as Hcov.
  apply (commit_shard_cursors now si c r) in Hcs as (Hi & Hor); [|done..].
  split; [done|]. split; [done|]. destruct Hor as [[_ ?]|(-> & n & Hn & Hrs & _)]; [by left|].
  right. split; [done|]. split; [done|]. by exists r, n.
Qed.

Lemma sync_phase_ok b now c o c' :
  cinv c -> sync_phase b now c = (o, c') ->
  cinv c' /\ Forall2 dur_step (c_rings c) (c_rings c') /\
  ((c_rings c' = c_rings c /\ (b = false -> c' = c)) \/
   (b = true /\ (Forall covered (c_mgrs c) -> Forall all_synced (c_mgrs c')))).
Proof.
  intros Hinv. destruct b; simpl.
  - intros Hs. apply sync_shards_spec in Hs as (? & ? & Hor); [|done]. split; [done|]. split; [done|].
    destruct Hor as [?|[? ?]]; [left|right]; by split.
  - intros [= <- <-]. split; [done|]. split; [apply Forall_Forall2_diag, Forall_true; by left|by left].
Qed.

(** A commit phase followed by a sync phase. *)
Lemma phases_ok cb due now si c o1 c1 o2 c2 :
  cinv c -> (cb = true -> cursor_at (c_committed c) si < shard_avail c si) ->
  commit_phase cb now (shard_avail c si) si c = (o1, c1) -> sync_phase due now c1 = (o2, c2) ->
  pass_ok c c2.
Proof.
  intros Hinv Hlt H1 H2. apply commit_phase_ok in H1 as (Hi1 & Hcov & Hcase); [|done..].
  apply sync_phase_ok in H2 as (Hi2 & Hd & Hsync); [|done].
  assert (forall s r r1, c_rings c !! s = Some r -> c_rings c1 !! s = Some r1 ->
    durable_cursor r1 = durable_cursor r) as Hdur.
  { intros s r r1 Hr Hr1. destruct Hcase as [[Hrs _ _ _ _]|(_ & _ & r0 & n & Hr0 & _ & Hrs)];
      rewrite Hrs in Hr1; [by simplify_eq|].
    apply list_lookup_insert_Some in Hr1 as [(Hs & <- & _)|(_ & ?)]; simpl; congruence. }
  split; [done| |].
  - destruct Hcase as [[Hrs _ _ _ _]|(_ & _ & r0 & n & Hr0 & Hn & Hrs)].
    + rewrite <- Hrs. by apply dur_ring_steps.
    + rewrite Hrs in Hd. by eapply ring_step_dur.
  - intros Hc s r r' Hr Hr' Hne. destruct Hsync as [[Hrs _]|[_ Hall]]; [|by auto].
    rewrite Hrs in Hr'. destruct Hne. by eapply Hdur.
Qed.

Lemma work_ok now u v nc ns c o c' : cinv c -> work now u v nc ns c = (o, c') -> pass_ok c c'.
Proof.
  intros Hinv. unfold work. destruct (choose_shard _ _ c _) as [chosen cur].
  set (c1 := with_current cur c). assert (same_cursors c c1) as Hs1 by (by split).
  assert (cinv c1) as Hinv1 by (by eapply cinv_same).
  destruct (_ && negb v).
  { destruct (drained c1); intros [= <- <-]; apply pass_ok_same; auto.
    eapply same_cursors_trans; [done|apply drain_all_same]. }
  set (si := default (c_current_shard c) chosen). fold (shard_avail c1 si). cbv zeta.
  set (cb := u && _ && _).
  assert (cb = true -> cursor_at (c_committed c1) si < shard_avail c1 si) as Hlt.
  { intros [[_ ?%Z.ltb_lt]%andb_true_iff _]%andb_true_iff. done. }
  clearbody cb. assert (pass_ok c1 c' -> pass_ok c c') as Hback by (intros []; by split).
  destruct (commit_phase cb now _ si c1) as [o1 c2] eqn:H1. destruct o1 as [o1|].
  { intros [= <- <-]. apply Hback. apply commit_phase_ok in H1 as (_ & _ & [Hs|(_ & ? & _)]); [|done..].
    by apply pass_ok_same. }
  set (due := sync_due _ _ _ _ c2). clearbody due.
  destruct (sync_phase due now c2) as [o2 c3] eqn:H2.
  pose proof (phases_ok _ _ _ _ _ _ _ _ _ Hinv1 Hlt H1 H2) as Hok.
  destruct o2; [intros [= <- <-]; by apply Hback|]. destruct (_ && _ && _); [intros [= <- <-]; by apply Hback|].
  destruct (negb cb && negb due) eqn:Hidle; intros [= <- <-]; [|by apply Hback].
  apply andb_true_iff in Hidle as [->%negb_true_iff ->%negb_true_iff].
  injection H1 as <-. injection H2 as <-. apply Hback, pass_ok_same; [done|apply drain_all_same].
Qed.

Lemma pass_pass_ok now c o c' : cinv c -> pass now c = (o, c') -> pass_ok c c'.
Proof.
  intros Hinv. unfold pass. cbv zeta. destruct (fully_idle c).
  { destruct (drained c); intros [= <- <-]; apply pass_ok_same; auto; [by split|].
    destruct (drain_all_same (with_pending None c)). by split. }
  set (c1 := if _ && _ then _ else c). assert (same_cursors c c1) as Hs by (subst c1; by case_match; split).
  intros Hw. apply work_ok in Hw as [Hi Hr Hsy]; [|by eapply cinv_same].
  destruct Hs as [Hrs Hm Hc Hd Hf]. assert (c_mgrs c1 = c_mgrs c) as Hms by (subst c1; by case_match).
  rewrite Hrs in Hr. split; [done|done|]. rewrite <- Hms, <- Hrs. done.
Qed.

(** ** The committer among the other threads *)

(** What other threads may do between two passes: move everything in a ring but
    the committer's cursors, request flushes, change the shutdown phase, the
    checkpoint and the wake flag. *)
Definition ring_env (r r' : Ring) : Prop :=
  committed_cursor r' = committed_cursor r /\ durable_cursor r' = durable_cursor r /\
  sealed_cursor r' <= U64_MAX.

Inductive cstep : Committer -> Committer -> Prop :=
| cstep_pass now o c c' : pass now c = (o, c') -> cstep c c'
| cstep_rings rs c : Forall2 ring_env (c_rings c) rs -> cstep c (with_rings rs c)
| cstep_request ts c : cstep c (with_flush (request (c_flush c) ts) c)
| cstep_shutdown sd c : cstep c (with_shutdown sd c)
| cstep_wake c : cstep c (with_wake true c).

Lemma cstep_inv c c' : cstep c c' -> cinv c -> cinv c'.
Proof.
  destruct 1 as [now o c c' Hp|rs c Hrs|ts c|sd c|c]; intros Hinv.
  - by eapply pass_pass_ok.
  - assert (committed_cursor <$> rs = committed_cursor <$> c_rings c) as Hc
      by (clear -Hrs; induction Hrs as [|??? ? (?&?&?)]; csimpl; congruence).
    assert (durable_cursor <$> rs = durable_cursor <$> c_rings c) as Hd
      by (clear -Hrs; induction Hrs as [|??? ? (?&?&?)]; csimpl; congruence).
    destruct Hinv as [Hm Hco Hdu Ho Hs Hf]. split; simpl.
    + by rewrite <- (Forall2_length Hrs).
    + by rewrite Hc.
    + by rewrite Hd.
    + clear -Hrs Ho. induction Hrs as [|r r' l l' (E1&E2&_) _ IH]; inversion Ho; subst; constructor; auto.
      by rewrite E1, E2.
    + clear -Hrs. induction Hrs as [|??? ? (?&?&?)]; by constructor.
    + clear -Hrs Hf. revert Hf. generalize (completed (c_flush c)).
      induction Hrs as [|r r' l l' (E1&E2&_) _ IH]; intros ds Hf; inversion Hf; subst; constructor; auto.
      by rewrite E2.
  - by destruct Hinv; split.
  - by destruct Hinv; split.
  - by destruct Hinv; split.
Qed.

Lemma cinv_start rings mgrs sd h cp :
  length mgrs = length rings ->
  Forall (fun r => 0 <= durable_cursor r <= committed_cursor r /\ sealed_cursor r <= U64_MAX) rings ->
  cinv (committer_start rings mgrs (flush_new (length rings)) sd h cp).
Proof.
  intros Hl Hr. split; simpl; [done..| | |].
  - eapply Forall_impl; [|exact Hr]. by intros ? [??].
  - eapply Forall_impl; [|exact Hr]. by intros ? [??].
  - apply Forall2_same_length_lookup_2; [by rewrite length_replicate|].
    intros i x r [-> _]%lookup_replicate_1 Hi. apply (Forall_lookup_1 _ _ _ _ Hr) in Hi. simpl in Hi. lia.
Qed.

Lemma csteps_inv c c' : rtc cstep c c' -> cinv c -> cinv c'.
Proof. induction 1; eauto using cstep_inv. Qed.

(** A flush that reports success is durable.  Whatever the producers, the
    sealers, other flush callers and the shutdown do between the committer's
    passes, once [is_done] holds for a list of targets every shard's durable
    cursor has reached its target; the durable cursor never passes the
    committed one. *)
Theorem flush_done_is_durable rings mgrs sd h cp c ts :
  length mgrs = length rings ->
  Forall (fun r => 0 <= durable_cursor r <= committed_cursor r /\ sealed_cursor r <= U64_MAX) rings ->
  rtc cstep (committer_start rings mgrs (flush_new (length rings)) sd h cp) c ->
  is_done (c_flush c) ts = true ->
  forall s t r, ts !! s = Some t -> c_rings c !! s = Some r ->
  t <= durable_cursor r <= committed_cursor r.
Proof.
  intros Hl Hr Hsteps Hdone s t r Ht Hs.
  apply csteps_inv in Hsteps as Hinv; [|by apply cinv_start].
  pose proof (Forall_lookup_1 _ _ _ _ (ci_order _ Hinv) Hs) as Ho. simpl in Ho.
  destruct (Forall2_lookup_r _ _ _ _ _ (ci_flush _ Hinv) Hs) as (d & Hd & Hle). simpl in Hle.
  pose proof (proj1 (is_done_from_spec _ _) Hdone s t d Ht Hd). lia.
Qed.

(** The durable cursor moves only over synced data.  When a pass advances a
    shard's durable cursor, it has moved it exactly to the committed cursor, the
    committed cursor lies within the published records, and every segment file
    of every shard, up to the active one, has its full contents on stable
    storage, whatever I/O faults occurred on the way. *)
Theorem durable_advance_is_synced now c o c' s r r' :
  cinv c -> Forall covered (c_mgrs c) -> pass now c = (o, c') ->
  c_rings c !! s = Some r -> c_rings c' !! s = Some r' -> durable_cursor r' <> durable_cursor r ->
  durable_cursor r' = committed_cursor r' /\
  committed_cursor r' <= Z.max (committed_cursor r) (available_hi r (committed_cursor r)) /\
  forall i m w, c_mgrs c' !! i = Some (m, w) ->
    forall id f, id <= active_id m -> files w !! id = Some f -> synced w !! id = Some f.
Proof.
  intros Hinv Hcov Hp Hr Hr' Hne. apply pass_pass_ok in Hp as [_ Hrs Hsy]; [|done].
  destruct (Forall2_lookup_lr _ _ _ _ _ _ Hrs Hr Hr') as (a & d & -> & Ha & Hd). simpl in *.
  split; [by destruct Hd as [->| ->]|]. split; [lia|].
  intros i m w Hi. exact (Forall_lookup_1 _ _ _ _ (Hsy Hcov s r _ Hr Hr' Hne) Hi).
Qed.

(** ** The queue of segments to sync *)

(** A segment leaves the queue only when it is on stable storage: the sync
    that took it off the queue did not fail. *)
Definition kept (s s' : SegmentManager * World) : Prop :=
  forall id f, id ∈ pending_fsync s.1 -> id ∉ pending_fsync s'.1 ->
    files s'.2 !! id = Some f -> synced s'.2 !! id = Some f.

Definition queue_kept (c c' : Committer) : Prop :=
  forall i s s', c_mgrs c !! i = Some s -> c_mgrs c' !! i = Some s' -> kept s s'.

(** What any run of syncs does, failed ones included. *)
Definition syncs (w w' : World) : Prop :=
  files w' = files w /\
  forall id f, files w !! id = Some f -> synced w !! id = Some f -> synced w' !! id = Some f.

#[local] Instance syncs_preorder : PreOrder syncs.
Proof.
  split; [by intros w; split|]. intros w1 w2 w3 [H1 H2] [H3 H4]. split; [congruence|].
  intros id f Hf Hs. apply H4; [congruence|auto].
Qed.

Lemma syncs_fdatasync id w : syncs w (fs_fdatasync id w).2.
Proof.
  destruct (fs_fdatasync id w) as [r w'] eqn:Hs. simpl.
  apply syscall_inv in Hs as [(e & n & _ & ->)|Hs]; [done|]. simpl in Hs.
  destruct (files w !! id) as [x|] eqn:Hx; simplify_eq; [|done]. split; [done|]. simpl.
  intros i f Hf Hi. destruct (decide (i = id)) as [->|]; [rewrite lookup_insert_eq; congruence|].
  by rewrite lookup_insert_ne.
Qed.

Lemma syncs_path id w : syncs w (fsync_path id w).2.
Proof. unfold fsync_path. destruct (files w !! id); [apply syncs_fdatasync|done]. Qed.

Lemma sync_pending_syncs ids m w :
  (sync_pending ids (m, w)).2.1 = m /\ syncs w (sync_pending ids (m, w)).2.2.
Proof.
  revert w. induction ids as [|id ids IH]; intros w; [done|]. simpl. fold (sync_pending ids).
  unfold mbind, M_bind, lift. cbn [fst snd]. pose proof (syncs_path id w) as Hp.
  destruct (fsync_path id w) as [[[]|e] w1]; simpl in *; [|done].
  destruct (IH w1) as [? ?]. split; [done|]. by transitivity w1.
Qed.

Lemma sync_all_syncs m w :
  (sync_all (m, w)).2.1 = set_pending [] m /\ syncs w (sync_all (m, w)).2.2.
Proof.
  unfold sync_all, mbind, M_bind, get_mgr, update. cbn [fst snd].
  destruct (sync_pending_syncs (pending_fsync m) (set_pending [] m) w) as [Hm Hs].
  destruct (sync_pending _ _) as [[[]|e] [m1 w1]]; simpl in *; [|done]. subst m1.
  unfold lift. cbn [fst snd]. pose proof (syncs_fdatasync (as_path (active m)) w1) as Hf.
  destruct (fs_fdatasync _ w1) as [[[]|e] w2]; simpl in *; (split; [done|by transitivity w1]).
Qed.

Lemma drain_pending_syncs m w :
  (drain_pending_fsyncs (m, w)).2.1 = set_pending [] m /\
  syncs w (drain_pending_fsyncs (m, w)).2.2.
Proof.
  unfold drain_pending_fsyncs, mbind, M_bind, get_mgr, update. cbn [fst snd].
  generalize (set_pending [] m) as m1. intros m1. revert w.
  induction (pending_fsync m) as [|id ids IH]; intros w; [done|]. simpl.
  unfold mbind, M_bind, ignore, lift. cbn [fst snd]. pose proof (syncs_path id w) as Hp.
  destruct (fsync_path id w) as [[[]|e] w1]; simpl in *; destruct (IH w1) as [? ?];
    (split; [done|by transitivity w1]).
Qed.

(** Emptying the queue keeps the bookkeeping when nothing on it was lost. *)
Lemma covered_syncs s s' :
  covered s -> s'.1 = set_pending [] s.1 -> syncs s.2 s'.2 -> kept s s' -> covered s'.
Proof.
  intros (k & pend & Hm & Hc) Hs [Hf Hy] Hk. exists k, []. split.
  { rewrite Hs. by destruct Hm; split. }
  intros id f Hid Hif. left. assert (files s.2 !! id = Some f) as Hif0 by congruence.
  destruct (Hc id f Hid Hif0) as [?|Hp]; [by apply Hy|].
  apply Hk; [by rewrite (mo_pending _ _ _ Hm)|rewrite Hs; simpl; set_solver|done].
Qed.

Lemma drain_all_covered c :
  Forall covered (c_mgrs c) -> queue_kept c (drain_all c) -> Forall covered (c_mgrs (drain_all c)).
Proof.
  intros Hc Hk. apply Forall_lookup. intros i s' Hi. simpl in Hi.
  rewrite list_lookup_fmap in Hi. destruct (c_mgrs c !! i) as [[m w]|] eqn:Hm; [|done].
  injection Hi as <-. destruct (drain_pending_syncs m w) as [H1 H2].
  apply (covered_syncs (m, w)); [by apply (Forall_lookup_1 _ _ _ _ Hc Hm)|done|done|].
  apply (Hk i); [done|]. simpl. by rewrite list_lookup_fmap, Hm.
Qed.

Lemma sync_mgrs_covered l e l' :
  sync_mgrs l = (e, l') -> Forall covered l -> Forall2 (fun s s' => kept s s' -> covered s') l l'.
Proof.
  revert e l'. induction l as [|s l IH]; intros e l'; simpl; [by intros [= <- <-]; constructor|].
  destruct (sync_all s) as [res s1] eqn:Hs. intros Heq Hc. inversion Hc as [|? ? H1 H2]; subst.
  assert (kept s s1 -> covered s1) as Hk.
  { intros Hk. destruct s as [m w]. destruct (sync_all_syncs m w) as [Hm Hy]. rewrite Hs in Hm, Hy.
    by apply (covered_syncs (m, w)). }
  destruct res as [[]|x].
  - destruct (sync_mgrs l) as [e1 l1]. injection Heq as <- <-. constructor; [done|by eapply IH].
  - injection Heq as <- <-. constructor; [done|]. apply Forall_Forall2_diag.
    eapply Forall_impl; [|exact H2]. done.
Qed.

Lemma complete_shards_covered ids c :
  Forall covered (c_mgrs c) -> Forall covered (c_mgrs (complete_shards ids c)).
Proof.
  revert c. induction ids as [|s ids IH]; intros c Hc; [done|]. simpl. apply IH. simpl.
  apply Forall_alter; [done|]. intros x _ Hx. eapply (covered_op readdir); [|exact Hx].
  eapply op_save. apply surjective_pairing.
Qed.

(** A successful sync keeps the bookkeeping whatever the queue held. *)
Lemma sync_mgrs_done l l' : sync_mgrs l = (None, l') -> Forall covered l -> Forall covered l'.
Proof.
  revert l'. induction l as [|s l IH]; intros l'; simpl; [by intros [= <-]|].
  destruct (sync_all s) as [[[]|x] s1] eqn:Hs; [|done]. destruct (sync_mgrs l) as [e1 l1].
  intros [= -> <-] Hc. inversion Hc as [|? ? H1 H2]; subst. constructor; [|by apply IH].
  eapply (covered_op readdir); [by apply op_sync|done].
Qed.

Lemma sync_phase_covered b now c o c' :
  sync_phase b now c = (o, c') -> Forall covered (c_mgrs c) -> queue_kept c c' ->
  Forall covered (c_mgrs c').
Proof.
  destruct b; simpl; [|by intros [= <- <-]]. unfold sync_shards.
  destruct (_ <? _); [|by intros [= <- <-]].
  destruct (sync_mgrs (c_mgrs c)) as [[e|] ms] eqn:Hs.
  - intros Hr Hc Hk. assert (c_mgrs c' = ms) as Hms.
    { unfold report in Hr. destruct e; injection Hr as <- <-; done. }
    pose proof (sync_mgrs_covered _ _ _ Hs Hc) as H2. rewrite Hms. apply Forall_lookup. intros i s' Hi.
    destruct (Forall2_lookup_r _ _ _ _ _ H2 Hi) as (s & Hsi & Hcov). apply Hcov.
    apply (Hk i); [done|by rewrite Hms].
  - intros [= <- <-] Hc _. apply complete_shards_covered. simpl. by eapply sync_mgrs_done.
Qed.

(** A batch that was appended leaves the queue alone. *)
Lemma append_batch_pending ring from to s :
  covered s -> pending_fsync (append_batch ring from to s).2.1 = pending_fsync s.1.
Proof.
  destruct s as [m w]. intros (k & pend & Hm & _). simpl in Hm.
  destruct (keeps_append_batch k pend w ring from to (m, w)) as [[Hm' _] _]; [by split|].
  simpl. by rewrite (mo_pending _ _ _ Hm), (mo_pending _ _ _ Hm').
Qed.

Lemma commit_phase_pending b now avail si c c' :
  commit_phase b now avail si c = (None, c') -> Forall covered (c_mgrs c) ->
  (fun s => pending_fsync s.1) <$> c_mgrs c' = (fun s => pending_fsync s.1) <$> c_mgrs c.
Proof.
  destruct b; simpl; [|by intros [= <-]]. unfold commit_shard.
  destruct (c_rings c !! si) as [r|]; [|done]. destruct (c_mgrs c !! si) as [s|] eqn:Hs; [|done].
  destruct (c_committed c !! si) as [from|]; [|done]. intros Hc Hcov.
  pose proof (append_batch_pending r from (choose_batch_end from avail (buf_cap s.1)) s
    (Forall_lookup_1 _ _ _ _ Hcov Hs)) as Hp.
  destruct (append_batch _ _ _ s) as [[last|[|e|]] s1]; simpl in *.
  - injection Hc as <-. simpl. rewrite list_fmap_insert, list_insert_id; [done|].
    by rewrite list_lookup_fmap, Hs, Hp.
  - destruct (roll _ _ _ s1) as [[[]|e] s2]; [done|]. by destruct (report _ _ _).
  - done.
  - done.
Qed.

Lemma queue_kept_mid c c1 c' :
  (fun s => pending_fsync s.1) <$> c_mgrs c1 = (fun s => pending_fsync s.1) <$> c_mgrs c ->
  queue_kept c c' -> queue_kept c1 c'.
Proof.
  intros Hp Hk i s s' Hs Hs'. apply (f_equal (fun l => l !! i)) in Hp.
  rewrite !list_lookup_fmap, Hs in Hp. destruct (c_mgrs c !! i) as [s0|] eqn:Hs0; [|done].
  injection Hp as Hp. specialize (Hk i s0 s' Hs0 Hs'). unfold kept in *. by rewrite Hp.
Qed.

Lemma commit_phase_covered b now avail si c o c' :
  commit_phase b now avail si c = (o, c') -> Forall covered (c_mgrs c) -> Forall covered (c_mgrs c').
Proof. destruct b; [apply commit_shard_covered|by intros [= <- <-]]. Qed.

Lemma work_covered now u v nc ns c o c' :
  work now u v nc ns c = (o, c') -> Forall covered (c_mgrs c) -> queue_kept c c' ->
  Forall covered (c_mgrs c').
Proof.
  unfold work. destruct (choose_shard _ _ c _) as [chosen cur]. set (c1 := with_current cur c).
  intros Hw Hc Hk. change (c_mgrs c) with (c_mgrs c1) in Hc. change (queue_kept c1 c') in Hk.
  clearbody c1. destruct (_ && negb v).
  { destruct (drained c1); injection Hw as <- <-; [done|by apply drain_all_covered]. }
  cbv zeta in Hw. match type of Hw with context [commit_phase ?x _ _ _ _] => set (cb := x) in Hw end.
  clearbody cb. destruct (commit_phase cb now _ _ c1) as [[o1|] c2] eqn:H1.
  { injection Hw as <- <-. by eapply commit_phase_covered. }
  pose proof (commit_phase_covered _ _ _ _ _ _ _ H1 Hc) as Hc2.
  pose proof (commit_phase_pending _ _ _ _ _ _ H1 Hc) as Hp.
  match type of Hw with context [sync_phase ?x _ _] => set (due := x) in Hw end. clearbody due.
  destruct (sync_phase due now c2) as [o2 c3] eqn:H2.
  assert (queue_kept c2 c3 -> Forall covered (c_mgrs c3)) as Hc3 by (by eapply sync_phase_covered).
  assert (c3 = c' -> Forall covered (c_mgrs c')) as Hend.
  { intros <-. apply Hc3. by eapply queue_kept_mid. }
  destruct o2; [injection Hw as <- <-; by apply Hend|].
  destruct (_ && _ && _); [injection Hw as <- <-; by apply Hend|].
  destruct (negb cb && negb due) eqn:Hidle; injection Hw as <- <-; [|by apply Hend].
  apply andb_true_iff in Hidle as [->%negb_true_iff ->%negb_true_iff].
  injection H1 as <-. injection H2 as <-. by apply drain_all_covered.
Qed.

(** A pass that loses nothing from the queue keeps the bookkeeping. *)
Lemma pass_covered now c o c' :
  pass now c = (o, c') -> Forall covered (c_mgrs c) -> queue_kept c c' -> Forall covered (c_mgrs c').
Proof.
  unfold pass. cbv zeta. intros Hp Hc Hk. destruct (fully_idle c).
  { destruct (drained c); injection Hp as <- <-; [done|]. by apply (drain_all_covered c). }
  set (c1 := if _ && _ then _ else c) in Hp. assert (c_mgrs c1 = c_mgrs c) as Hm by (subst c1; by case_match).
  eapply work_covered; [exact Hp|by rewrite Hm|]. unfold queue_kept. by rewrite Hm.
Qed.

Lemma cstep_covered c c' :
  cstep c c' -> Forall covered (c_mgrs c) -> queue_kept c c' -> Forall covered (c_mgrs c').
Proof. destruct 1; try done. by eapply pass_covered. Qed.

(** ** Round robin *)

Lemma choose_shard_spec n num c cur :
  (cur < num)%nat ->
  match choose_shard n num c cur with
  | (Some si, next) => exists k, (k < n)%nat /\ si = ((cur + k) `mod` num)%nat /\
      next = ((si + 1) `mod` num)%nat /\ uncommitted c si = true /\
      forall j, (j < k)%nat -> uncommitted c ((cur + j) `mod` num)%nat = false
  | (None, _) => forall j, (j < n)%nat -> uncommitted c ((cur + j) `mod` num)%nat = false
  end.
Proof.
  revert cur. induction n as [|n IH]; intros cur Hcur; cbn [choose_shard]; [lia|].
  assert ((cur + 0) `mod` num = cur)%nat as H0 by (rewrite Nat.add_0_r; by apply Nat.mod_small).
  destruct (uncommitted c cur) eqn:Hu.
  { exists 0%nat. rewrite H0. split; [lia|]. split; [done|]. split; [done|]. split; [done|]. lia. }
  assert (forall j, (((cur + 1) `mod` num + j) `mod` num = (cur + S j) `mod` num)%nat) as Hj.
  { intros j. rewrite Nat.Div0.add_mod_idemp_l. f_equal. lia. }
  specialize (IH ((cur + 1) `mod` num)%nat ltac:(apply Nat.mod_upper_bound; lia)).
  destruct (choose_shard n num c _) as [[si|] next].
  - destruct IH as (k & Hk & -> & -> & Hun & Hbefore). exists (S k). split; [lia|].
    rewrite <- (Hj k). split; [done|]. split; [done|]. split; [done|].
    intros [|j] Hlt; [by rewrite H0|]. rewrite <- (Hj j). apply Hbefore. lia.
  - intros [|j] Hlt; [by rewrite H0|]. rewrite <- (Hj j). apply IH. lia.
Qed.

(** The committer serves the shards round robin.  The chosen shard is the
    first one with uncommitted records in cyclic order from the current
    position, the position moves behind it, and no shard is chosen only when
    none has uncommitted records: a shard with records is passed over at most
    once per other shard. *)
Theorem round_robin_first c cur :
  (cur < length (c_rings c))%nat ->
  let n := length (c_rings c) in
  match choose_shard n n c cur with
  | (Some si, next) => exists k, (k < n)%nat /\ si = ((cur + k) `mod` n)%nat /\
      next = ((si + 1) `mod` n)%nat /\ uncommitted c si = true /\
      forall j, (j < k)%nat -> uncommitted c ((cur + j) `mod` n)%nat = false
  | (None, _) => forall s, (s < n)%nat -> uncommitted c s = false
  end.
Proof.
  intros Hcur n. pose proof (choose_shard_spec n n c cur Hcur) as Hspec.
  destruct (choose_shard n n c cur) as [[si|] next]; [done|]. intros s Hs.
  destruct (decide (cur <= s)%nat) as [Hle|Hgt].
  - replace s with ((cur + (s - cur)) `mod` n)%nat; [apply Hspec; lia|].
    replace (cur + (s - cur))%nat with s by lia. apply Nat.mod_small. lia.
  - replace s with ((cur + (n + s - cur)) `mod` n)%nat; [apply Hspec; lia|].
    replace (cur + (n + s - cur))%nat with (s + 1 * n)%nat by lia.
    rewrite Nat.Div0.mod_add. apply Nat.mod_small. lia.
Qed.

(** ** Idling *)

Lemma idle_run nows c :
  fully_idle c = true ->
  let c' := run_committer nows c in
  c_flush c' = c_flush c /\ c_rings c' = c_rings c /\ c_health c' = c_health c.
Proof.
  revert c. induction nows as [|now nows IH]; intros c Hidle; cbn [run_committer]; [done|].
  unfold pass. rewrite Hidle. destruct (drained c); [done|].
  destruct (IH (with_wake false (drain_all (with_pending None c)))) as (-> & -> & ->); [exact Hidle|done].
Qed.

(** An idle committer reports no completion.  While no shard has
    uncommitted or unsynced records and all flush targets are reached, passes
    leave the flush signal, the cursors and the health state as they are,
    however often the loop runs. *)
Theorem idle_committer_reports_nothing nows c :
  fully_idle c = true ->
  let c' := run_committer nows c in
  c_flush c' = c_flush c /\ c_rings c' = c_rings c /\ c_health c' = c_health c.
Proof. apply idle_run. Qed.
End committer.

Section committer_demo.
#[local] Instance committer_demo_externals : Externals := toy.

Definition demo_trigger : CommitTrigger := mkTrigger (256 * 1024) 1024 10 Sync.

Abbreviation demo_pass := (pass demo_readdir (fun m => blen (write_buf m)) 0 demo_trigger).
Abbreviation demo_run := (run_committer demo_readdir (fun m => blen (write_buf m)) 0 demo_trigger).

(** One shard with [n] published records in a new directory. *)
Definition demo_committer (n : nat) (size : Z) (fl : list (option (IoError * Z))) : Committer :=
  committer_start [demo_slots n] [with_faults fl (demo_state size KeepAll)] (flush_new 1)
    shutdown_new health_new 0.

(** The same, after [flush] has requested its targets. *)
Definition demo_flushing (n : nat) : Committer :=
  let c := demo_committer n 1000 [] in with_flush (request (c_flush c) [Z.of_nat n]) c.

Lemma flush_done_is_durable_witness :
  exists c, is_done (c_flush c) [3] = true /\
    forall r, c_rings c !! 0%nat = Some r -> 3 <= durable_cursor r <= committed_cursor r.
Proof.
  exists (demo_run [0] (demo_flushing 3)). split; [vm_compute; reflexivity|]. intros r Hr.
  apply (flush_done_is_durable demo_readdir (fun m => blen (write_buf m)) 0 demo_trigger
    [demo_slots 3] [with_faults [] (demo_state 1000 KeepAll)] shutdown_new health_new 0
    (demo_run [0] (demo_flushing 3)) [3]) with (s := 0%nat); [done| | | |done|exact Hr].
  - constructor; [|constructor]. split; [split|]; vm_compute; discriminate.
  - eapply rtc_l; [apply (cstep_request _ _ _ _ [3])|]. eapply rtc_once, cstep_pass with (now := 0) (o := Again).
    vm_compute. reflexivity.
  - vm_compute. reflexivity.
Defined.

Lemma demo_cinv : cinv (demo_flushing 3).
Proof.
  apply (cstep_inv demo_readdir (fun m => blen (write_buf m)) 0 demo_trigger (demo_committer 3 1000 []));
    [apply (cstep_request _ _ _ _ [3])|].
  apply (cinv_start [demo_slots 3] [_]); [done|]. constructor; [|constructor].
  split; [split|]; vm_compute; discriminate.
Qed.

Definition demo_after : Outcome * Committer := demo_pass 0 (demo_flushing 3).

Lemma durable_advance_is_synced_witness :
  exists r', c_rings demo_after.2 !! 0%nat = Some r' /\ durable_cursor r' = committed_cursor r'.
Proof.
  set (r' := default (demo_slots 0) (c_rings demo_after.2 !! 0%nat)).
  assert (c_rings demo_after.2 !! 0%nat = Some r') as Hr' by (vm_compute; reflexivity).
  exists r'. split; [exact Hr'|].
  apply (durable_advance_is_synced demo_readdir (fun m => blen (write_buf m)) 0 demo_trigger 0
    (demo_flushing 3) demo_after.1 demo_after.2 0 (demo_slots 3) r').
  - exact demo_cinv.
  - constructor; [|constructor]. apply (create_covered 1000 false false None (zeros 32) KeepAll 0 (demo_dir [])); [done|].
    vm_compute. reflexivity.
  - unfold demo_after. by destruct (pass _ _ _ _ _ _).
  - reflexivity.
  - exact Hr'.
  - intros Heq. vm_compute in Heq. discriminate Heq.
Defined.

Lemma round_robin_first_witness :
  let c := committer_start [demo_slots 0; demo_slots 2; demo_slots 0] [] (flush_new 3) shutdown_new health_new 0 in
  (2 < length (c_rings c))%nat /\ choose_shard 3 3 c 2 = (Some 1%nat, 2%nat) /\
  exists k, (k < 3)%nat /\ (1 = (2 + k) `mod` 3)%nat.
Proof.
  split; [simpl; lia|]. split; [vm_compute; reflexivity|].
  destruct (round_robin_first (committer_start [demo_slots 0; demo_slots 2; demo_slots 0] [] (flush_new 3)
    shutdown_new health_new 0) 2) as (k & Hk & Hs & _); [simpl; lia|]. by exists k.
Defined.

(** A log reopened behind record 5: the ring starts at local sequence 5. *)
Definition demo_reopened : Committer :=
  let c := committer_start [mkRing (replicate 16 slot_new) 15 16 5 5 5 5 false] [demo_state 1000 KeepAll]
             (flush_new 1) shutdown_new health_new 0 in
  with_flush (request (c_flush c) [5]) c.

Lemma idle_committer_reports_nothing_witness :
  fully_idle demo_reopened = true /\ c_flush (demo_run [0; 200; 400] demo_reopened) = c_flush demo_reopened.
Proof.
  split; [vm_compute; reflexivity|].
  apply (idle_committer_reports_nothing demo_readdir (fun m => blen (write_buf m)) 0 demo_trigger
    [0; 200; 400] demo_reopened). vm_compute. reflexivity.
Defined.

(** Flushing a reopened log never completes.  The completion cells start at
    zero and only a pass that syncs raises them; a log reopened behind record 5
    without new appends keeps the committer idle, so [flush] waits for target 5
    until its time-out, although everything is durable. *)
Theorem reopened_flush_never_completes nows :
  (forall r, c_rings demo_reopened !! 0%nat = Some r -> durable_cursor r = 5) /\
  is_done (c_flush (demo_run nows demo_reopened)) [5] = false.
Proof.
  split; [by intros r [= <-]|].
  destruct (idle_run demo_readdir (fun m => blen (write_buf m)) 0 demo_trigger nows demo_reopened)
    as (-> & _ & _); vm_compute; reflexivity.
Qed.

(** The failure of an fsync: the batch is written, its sync fails. *)
Definition demo_sync_fault : Committer :=
  demo_run [0; 1] (with_mgrs [with_faults [None; Some (OtherIo, 0)] (demo_state 1000 KeepAll)] (demo_flushing 1)).

(** A failed fsync locks the log although the retry succeeds.  The pass
    whose sync fails sets the health code; only a later successful append of a
    batch clears it, but appends are refused while it is set.  After the retry
    has synced everything the committer is idle with the code still set. *)
Theorem sync_failure_wedges_health nows :
  (durable_cursor <$> c_rings demo_sync_fault) = [1] /\
  (committed_cursor <$> c_rings demo_sync_fault) = [1] /\
  health_check (c_health (demo_run nows demo_sync_fault)) = Some HEALTH_IO_ERROR.
Proof.
  split; [vm_compute; reflexivity|]. split; [vm_compute; reflexivity|].
  destruct (idle_run demo_readdir (fun m => blen (write_buf m)) 0 demo_trigger nows demo_sync_fault)
    as (_ & _ & ->); vm_compute; reflexivity.
Qed.

(** A drain that starts while one append has claimed its slot and not yet
    published it. *)
Definition demo_in_flight : Committer :=
  let c := with_rings [set_producer (demo_slots 0) 1] (demo_committer 0 1000 []) in
  with_shutdown (start_drain (enter_reserve (c_shutdown c))) c.

(** The committer may leave before an append in flight publishes.  The exit
    test looks at published records only, not at [in_flight] or at the drain
    target: while draining, a claimed slot does not keep the thread alive, and
    the record published after the exit is never written. *)
Theorem committer_leaves_claimed_record :
  (demo_pass 0 demo_in_flight).1 = Exited /\ in_flight (c_shutdown demo_in_flight) = 1 /\
  (producer_cursor <$> c_rings demo_in_flight) = [1] /\
  (committed_cursor <$> c_rings (demo_pass 0 demo_in_flight).2) = [0].
Proof. repeat split; vm_compute; reflexivity. Qed.

(** A record larger than a segment makes the committer roll for ever.  A
    valid configuration may accept records that do not fit in an empty segment;
    each pass then finds the segment full, rolls, and commits nothing. *)
Theorem oversized_record_rolls_forever :
  let cfg := {| segment_size := 1024 * 1024; ring_size := 8192; shards := 1;
                max_content_size := 1024 * 1024; cfg_hash_enabled := false;
                compression_enabled := false; durability_mode := Batch; queue_full_policy := Block;
                index_stride := 1024; retention := KeepAll |} in
  validate cfg = Ok tt /\
  segment_size cfg < SEGMENT_HEADER_SIZE + record_size (max_content_size cfg) /\
  let c := with_mgrs [demo_state 150 KeepAll] (demo_flushing 1) in
  let c' := demo_run [0; 1; 2; 3] c in
  (committed_cursor <$> c_rings c') = [0] /\
  ((fun s => size (files s.2)) <$> c_mgrs c') = [5%nat].
Proof. split; [reflexivity|]. split; [reflexivity|]. split; vm_compute; reflexivity. Qed.
End committer_demo.
