(* ===== verification/Reader.v ===== *)
(** * Reading ([logdb/src/reader/mod.rs], [logdb/src/reader/iter.rs])

    The segment manifest, point reads, batched reads and the chunked record
    iterator of one shard directory.  A reader sees the directory as it is while
    it runs: [files] and [idxs] are its segment and index files, [mtime] the
    directory's modification time.  Reads of existing files succeed; a file that
    has been deleted is an error. *)
From stdpp Require Import base gmap list numbers sorting.
From coqutil Require Import Byte.
From Stdlib Require Import ZArith Lia.
From S2P Require Import Prelude Externals RustStd Format Index Config KeyRing FileSys Storage Frame Recovery.
Open Scope Z_scope.

Inductive ReadError := ReadIo | NotFound (id : Z).

(** ** The manifest *)

Record ManifestEntry := mkManifestEntry {
  me_segment_id : Z;
  me_base_sequence : Z;
  me_flags : Z;
}.

Record SegmentManifest := mkManifest {
  sm_entries : list ManifestEntry;
  dir_mtime : option Z;
}.

Definition manifest_new : SegmentManifest := mkManifest [] None.

Definition framed_entry (e : ManifestEntry) : bool :=
  has_flag (me_flags e) FLAG_COMPRESSED_ZSTD || has_flag (me_flags e) FLAG_ENCRYPTED_AES256GCM.

(** [find_in_cache]. *)
Definition find_in_cache (m : SegmentManifest) (seq : Z) : option ManifestEntry :=
  let idx := partition_point (fun e => me_base_sequence e <=? seq) (sm_entries m) in
  match idx with
  | O => None
  | S i => sm_entries m !! i
  end.

Section reader.
Context `{Externals}.
Variable readdir : gmap Z bytes -> list Z.
Variables (files idxs : gmap Z bytes) (mtime : option Z).

(** [read_header_for_manifest]. *)
Definition read_header_for_manifest (id : Z) : option (Z * Z) :=
  f ← files !! id;
  buf ← read_exact f 0 SEGMENT_HEADER_SIZE;
  header ← ok_of (deserialize buf);
  Some (base_sequence header, flags header).

Definition manifest_entry (id : Z) : option ManifestEntry :=
  '(base, fl) ← read_header_for_manifest id; Some (mkManifestEntry id base fl).

(** [refresh_if_needed]. *)
Definition refresh_if_needed (m : SegmentManifest) : SegmentManifest * bool :=
  if bool_decide (mtime = dir_mtime m) && negb (bool_decide (sm_entries m = [])) then (m, false)
  else (mkManifest (sort_by_key me_segment_id (omap manifest_entry (readdir files))) mtime, true).

(** [force_refresh]. *)
Definition force_refresh (m : SegmentManifest) : SegmentManifest :=
  (refresh_if_needed (mkManifest (sm_entries m) None)).1.

(** [find]. *)
Definition find (m : SegmentManifest) (seq : Z) : option ManifestEntry * SegmentManifest :=
  let '(m, refreshed) := refresh_if_needed m in
  let entry := find_in_cache m seq in
  if refreshed then (entry, m)
  else
    match entry with
    | Some e =>
        if bool_decide (is_Some (files !! me_segment_id e)) then (entry, m)
        else let m := force_refresh m in (find_in_cache m seq, m)
    | None => (entry, m)
    end.

(** [segments_from]. *)
Definition segments_from (m : SegmentManifest) (seq : Z) : list ManifestEntry * SegmentManifest :=
  let '(m, _) := refresh_if_needed m in
  let start := Nat.pred (partition_point (fun e => me_base_sequence e <=? seq) (sm_entries m)) in
  (drop start (sm_entries m), m).

(** The index of a raw segment, if it has a readable one. *)
Definition load_index (id : Z) : option SparseIndex :=
  data ← idxs !! id; ok_of (index_load data).

(** The offset a scan for [id] starts at. *)
Definition anchor_offset (idx : option SparseIndex) (id : Z) : Z :=
  match idx ≫= (fun idx => find_anchor idx id) with
  | Some (e, _) => file_offset e
  | None => SEGMENT_HEADER_SIZE
  end.

Definition start_offset (e : ManifestEntry) (id : Z) : Z :=
  if framed_entry e then SEGMENT_HEADER_SIZE
  else anchor_offset (load_index (me_segment_id e)) id.

(** ** Point reads *)

(** The record loop of [read_from_open_file] on a raw segment. *)
Fixpoint read_raw (fuel : nat) (f : bytes) (offset record_id : Z) : option Rec :=
  match fuel with
  | O => None
  | S fuel =>
      let file_size := blen f in
      if file_size <=? offset then None
      else if file_size <? offset + 4 then None
      else
        let total := get_le f offset 4 in
        if total <? MIN_RECORD_SIZE then read_raw fuel f (offset + 1) record_id
        else if file_size <? offset + total then None
        else
          match deserialize_record (slice f offset (offset + total)) with
          | Ok (record, _) =>
              if rec_seq record =? record_id then Some record
              else if record_id <? rec_seq record then None
              else read_raw fuel f (offset + total) record_id
          | Err _ => read_raw fuel f (offset + total) record_id
          end
  end.

(** How the loop over the records of a decoded frame ends; [FramePanic] is an
    index out of bounds. *)
Inductive FrameScan := FrameFound (r : Rec) | FrameDone | FramePanic.

Fixpoint scan_frame (fuel : nat) (decoded : bytes) (dl doff record_id : Z) : FrameScan :=
  match fuel with
  | O => FrameDone
  | S fuel =>
      if (dl <? doff + MIN_RECORD_SIZE) || (blen decoded <? doff) then FrameDone
      else if blen decoded <? doff + 4 then FramePanic
      else
        let total := get_le decoded doff 4 in
        if (total <? MIN_RECORD_SIZE) || (dl <? doff + total) || (blen decoded <? doff + total)
        then FrameDone
        else
          match deserialize_record (slice decoded doff (doff + total)) with
          | Ok (record, _) =>
              if rec_seq record =? record_id then FrameFound record
              else if record_id <? rec_seq record then FrameDone
              else scan_frame fuel decoded dl (doff + total) record_id
          | Err _ => scan_frame fuel decoded dl (doff + total) record_id
          end
  end.

(** The frame loop of [read_from_open_file]. *)
Fixpoint read_frames (fuel : nat) (f : bytes) (compressed encrypted : bool) (keys : option KeyRing)
    (offset record_id : Z) : FrameScan :=
  match fuel with
  | O => FrameDone
  | S fuel =>
      let file_size := blen f in
      if file_size <=? offset then FrameDone
      else if file_size <? offset + FRAME_HEADER_SIZE then FrameDone
      else
        let '(cl, dl) := read_frame_header (slice f offset (offset + FRAME_HEADER_SIZE)) in
        if (cl =? 0) || (dl =? 0) || (file_size <? offset + FRAME_HEADER_SIZE + cl) then FrameDone
        else
          let start := offset + FRAME_HEADER_SIZE in
          match decode_frame_payload (slice f start (start + cl)) compressed encrypted keys with
          | Err _ => FrameDone
          | Ok decoded =>
              match scan_frame (S (length decoded)) decoded dl 0 record_id with
              | FrameDone => read_frames fuel f compressed encrypted keys (start + cl) record_id
              | r => r
              end
          end
  end.

(** [read_from_open_file]; [None] is a panic. *)
Definition read_from_open_file (f : bytes) (compressed encrypted : bool) (keys : option KeyRing)
    (offset record_id : Z) : option (option Rec) :=
  let fuel := S (length f) in
  if compressed || encrypted then
    match read_frames fuel f compressed encrypted keys offset record_id with
    | FrameFound r => Some (Some r)
    | FrameDone => Some None
    | FramePanic => None
    end
  else Some (read_raw fuel f offset record_id).

(** [Reader::read]; [None] is a panic. *)
Definition read (keys : option KeyRing) (m : SegmentManifest) (record_id : Z)
    : option (result ReadError (option Rec)) * SegmentManifest :=
  let '(entry, m) := find m record_id in
  match entry with
  | None => (Some (Ok None), m)
  | Some e =>
      match files !! me_segment_id e with
      | None => (Some (Err ReadIo), m)
      | Some f =>
          (Ok <$> read_from_open_file f (has_flag (me_flags e) FLAG_COMPRESSED_ZSTD)
             (has_flag (me_flags e) FLAG_ENCRYPTED_AES256GCM) keys (start_offset e record_id) record_id, m)
      end
  end.

(** ** Batched reads *)

(** [while t < targets.len() && targets[t].1 < id]. *)
Fixpoint skip_below (id : Z) (targets : list (nat * Z)) : list (nat * Z) :=
  match targets with
  | t :: ts => if t.2 <? id then skip_below id ts else targets
  | [] => []
  end.

(** [read_many_raw]. *)
Fixpoint read_many_raw (fuel : nat) (f : bytes) (offset : Z) (targets : list (nat * Z))
    : list (nat * Rec) :=
  match fuel, targets with
  | O, _ | _, [] => []
  | S fuel, _ =>
      let file_size := blen f in
      if file_size <=? offset then []
      else if file_size <? offset + 4 then []
      else
        let total := get_le f offset 4 in
        if total <? MIN_RECORD_SIZE then read_many_raw fuel f (offset + 1) targets
        else if file_size <? offset + total then []
        else
          match deserialize_record (slice f offset (offset + total)) with
          | Err _ => read_many_raw fuel f (offset + total) targets
          | Ok (record, _) =>
              match skip_below (rec_seq record) targets with
              | (slot, id) :: ts =>
                  if id =? rec_seq record then (slot, record) :: read_many_raw fuel f (offset + total) ts
                  else read_many_raw fuel f (offset + total) ((slot, id) :: ts)
              | [] => read_many_raw fuel f (offset + total) []
              end
          end
  end.

(** The ids with their segment entries, through the manifest. *)
Fixpoint resolve_ids (m : SegmentManifest) (i : nat) (ids : list Z)
    : list (nat * Z * ManifestEntry) * SegmentManifest :=
  match ids with
  | [] => ([], m)
  | id :: ids =>
      let '(entry, m) := find m id in
      let '(rest, m) := resolve_ids m (S i) ids in
      match entry with
      | Some e => ((i, id, e) :: rest, m)
      | None => (rest, m)
      end
  end.

(** The run of entries of one segment at the head of the sorted list. *)
Fixpoint same_segment (id : Z) (l : list (nat * Z * ManifestEntry))
    : list (nat * Z * ManifestEntry) * list (nat * Z * ManifestEntry) :=
  match l with
  | x :: l' => if me_segment_id x.2 =? id
               then let '(g, rest) := same_segment id l' in (x :: g, rest) else ([], l)
  | [] => ([], [])
  end.

Definition fill (results : list (option Rec)) (found : list (nat * Rec)) : list (option Rec) :=
  foldl (fun acc x => <[x.1 := Some x.2]> acc) results found.

(** The frame branch: one lookup per id. *)
Fixpoint read_group_frames (f : bytes) (compressed encrypted : bool) (keys : option KeyRing)
    (group : list (nat * Z)) (results : list (option Rec)) : option (list (option Rec)) :=
  match group with
  | [] => Some results
  | (slot, id) :: group =>
      r ← read_from_open_file f compressed encrypted keys SEGMENT_HEADER_SIZE id;
      read_group_frames f compressed encrypted keys group (<[slot := r]> results)
  end.

(** The targets of one segment. *)
Definition read_group (keys : option KeyRing) (e : ManifestEntry) (targets : list (nat * Z))
    (results : list (option Rec)) : option (list (option Rec)) :=
  match files !! me_segment_id e with
  | None => Some results
  | Some f =>
      let group := sort_by_key snd targets in
      if framed_entry e then
        read_group_frames f (has_flag (me_flags e) FLAG_COMPRESSED_ZSTD)
          (has_flag (me_flags e) FLAG_ENCRYPTED_AES256GCM) keys group results
      else
        let start := match group with
                     | (_, id) :: _ => anchor_offset (load_index (me_segment_id e)) id
                     | [] => SEGMENT_HEADER_SIZE
                     end in
        Some (fill results (read_many_raw (S (length f)) f start group))
  end.

(** [while start < resolved.len()]. *)
Fixpoint read_groups (fuel : nat) (keys : option KeyRing) (l : list (nat * Z * ManifestEntry))
    (results : list (option Rec)) : option (list (option Rec)) :=
  match fuel, l with
  | _, [] => Some results
  | O, _ => None
  | S fuel, (i, id, e) :: l' =>
      let '(g, rest) := same_segment (me_segment_id e) l' in
      results ← read_group keys e ((i, id) :: (fst <$> g)) results;
      read_groups fuel keys rest results
  end.

(** [Reader::read_batch]; [None] is a panic.  Paths are ordered by segment
    id. *)
Definition read_batch (keys : option KeyRing) (m : SegmentManifest) (ids : list Z)
    : option (list (option Rec)) * SegmentManifest :=
  let '(resolved, m) := resolve_ids m 0 ids in
  let resolved := sort_by_key (fun x => me_segment_id x.2) resolved in
  (read_groups (length resolved) keys resolved (replicate (length ids) None), m).
End reader.

(** ** The records of a raw file *)

Section raw.
Context `{Externals}.

(** Every record a forward scan from [offset] meets: a corrupt length is skipped
    byte by byte, a corrupt record as a whole, and a torn tail ends the scan. *)
Fixpoint raw_records (fuel : nat) (f : bytes) (offset : Z) : list Rec :=
  match fuel with
  | O => []
  | S fuel =>
      if (blen f <=? offset) || (blen f <? offset + 4) then []
      else
        let total := get_le f offset 4 in
        if total <? MIN_RECORD_SIZE then raw_records fuel f (offset + 1)
        else if blen f <? offset + total then []
        else
          match deserialize_record (slice f offset (offset + total)) with
          | Ok (record, _) => record :: raw_records fuel f (offset + total)
          | Err _ => raw_records fuel f (offset + total)
          end
  end.

Definition raw_list (f : bytes) (offset : Z) : list Rec := raw_records (S (length f)) f offset.

(** One step of any forward scan at [offset]. *)
Inductive RawStep := RawEnd | RawSkip (n : Z) | RawRec (r : Rec) (n : Z).

Definition raw_at (f : bytes) (offset : Z) : RawStep :=
  if (blen f <=? offset) || (blen f <? offset + 4) then RawEnd
  else
    let total := get_le f offset 4 in
    if total <? MIN_RECORD_SIZE then RawSkip 1
    else if blen f <? offset + total then RawEnd
    else
      match deserialize_record (slice f offset (offset + total)) with
      | Ok (record, _) => RawRec record total
      | Err _ => RawSkip total
      end.

Lemma raw_at_pos f off :
  match raw_at f off with
  | RawEnd => True
  | RawSkip n | RawRec _ n => 0 < n /\ off < blen f
  end.
Proof.
  unfold raw_at, MIN_RECORD_SIZE. destruct (Z.leb_spec (blen f) off); [done|]. simpl.
  destruct (_ <? _); [done|]. destruct (Z.ltb_spec (get_le f off 4) 60); [lia|].
  destruct (_ <? _); [done|]. destruct (deserialize_record _) as [[]|]; lia.
Qed.

Lemma raw_records_at fuel f off :
  raw_records (S fuel) f off =
  match raw_at f off with
  | RawEnd => []
  | RawSkip n => raw_records fuel f (off + n)
  | RawRec r n => r :: raw_records fuel f (off + n)
  end.
Proof.
  cbn [raw_records]. unfold raw_at. destruct (_ || _); [done|].
  destruct (_ <? MIN_RECORD_SIZE); [done|]. destruct (_ <? _); [done|].
  destruct (deserialize_record _) as [[]|]; done.
Qed.

Lemma raw_records_fuel fuel1 fuel2 f off :
  blen f - off < Z.of_nat fuel1 -> blen f - off < Z.of_nat fuel2 ->
  0 < Z.of_nat fuel1 -> 0 < Z.of_nat fuel2 ->
  raw_records fuel1 f off = raw_records fuel2 f off.
Proof.
  revert fuel2 off. induction fuel1 as [|fuel1 IH]; intros [|fuel2] off H1 H2 ? ?; try lia.
  rewrite !raw_records_at. pose proof (raw_at_pos f off) as Hp.
  destruct (raw_at f off) as [|n|r n]; [done|..].
  - apply IH; lia.
  - f_equal. apply IH; lia.
Qed.

Lemma raw_list_at f off :
  0 <= off ->
  raw_list f off =
  match raw_at f off with
  | RawEnd => []
  | RawSkip n => raw_list f (off + n)
  | RawRec r n => r :: raw_list f (off + n)
  end.
Proof.
  intros H0. unfold raw_list at 1. rewrite raw_records_at. pose proof (raw_at_pos f off) as Hp.
  destruct (raw_at f off) as [|n|r n]; [done|..].
  - apply raw_records_fuel; lia.
  - f_equal. apply raw_records_fuel; lia.
Qed.

(** The first record with the id, before any record with a larger one. *)
Fixpoint find_rec (id : Z) (rs : list Rec) : option Rec :=
  match rs with
  | [] => None
  | r :: rs => if rec_seq r =? id then Some r else if id <? rec_seq r then None else find_rec id rs
  end.

Lemma read_raw_at fuel f off id :
  read_raw (S fuel) f off id =
  match raw_at f off with
  | RawEnd => None
  | RawSkip n => read_raw fuel f (off + n) id
  | RawRec r n => if rec_seq r =? id then Some r else if id <? rec_seq r then None
                  else read_raw fuel f (off + n) id
  end.
Proof.
  cbn [read_raw]. unfold raw_at. destruct (blen f <=? off); [done|]. simpl. destruct (_ <? _); [done|].
  destruct (_ <? MIN_RECORD_SIZE); [done|]. destruct (_ <? _); [done|].
  destruct (deserialize_record _) as [[]|]; done.
Qed.

Lemma read_raw_records fuel f off id : read_raw fuel f off id = find_rec id (raw_records fuel f off).
Proof.
  revert off. induction fuel as [|fuel IH]; intros off; [done|].
  rewrite read_raw_at, raw_records_at. destruct (raw_at f off) as [|n|r n]; [done|apply IH|].
  cbn [find_rec]. by rewrite IH.
Qed.

(** What a merge of ascending targets with the records keeps. *)
Fixpoint merge_targets (rs : list Rec) (targets : list (nat * Z)) : list (nat * Rec) :=
  match rs, targets with
  | [], _ | _, [] => []
  | r :: rs, _ =>
      match skip_below (rec_seq r) targets with
      | (slot, id) :: ts =>
          if id =? rec_seq r then (slot, r) :: merge_targets rs ts else merge_targets rs ((slot, id) :: ts)
      | [] => []
      end
  end.

Lemma merge_targets_nil rs : merge_targets rs [] = [].
Proof. by destruct rs. Qed.

Lemma read_many_raw_nil fuel f off : read_many_raw fuel f off [] = [].
Proof. by destruct fuel. Qed.

Lemma read_many_raw_records fuel f off ts :
  read_many_raw fuel f off ts = merge_targets (raw_records fuel f off) ts.
Proof.
  revert off ts. induction fuel as [|fuel IH]; intros off ts; [done|].
  destruct ts as [|t ts]; [by rewrite merge_targets_nil|].
  rewrite raw_records_at. cbn [read_many_raw]. unfold raw_at.
  destruct (blen f <=? off); [done|]. cbn [orb]. destruct (_ <? _); [done|].
  destruct (_ <? MIN_RECORD_SIZE); [apply IH|]. destruct (_ <? _); [done|].
  destruct (deserialize_record _) as [[r n]|]; [|apply IH].
  cbn [merge_targets]. destruct (skip_below (rec_seq r) (t :: ts)) as [|[slot id] ts'].
  - apply read_many_raw_nil.
  - by rewrite !IH.
Qed.

(** The records in [[from, to)] of an ascending scan that stops at [to]. *)
Fixpoint range (from to : Z) (rs : list Rec) : list Rec :=
  match rs with
  | [] => []
  | r :: rs =>
      if rec_seq r <? from then range from to rs
      else if to <=? rec_seq r then []
      else r :: range from to rs
  end.
End raw.
