(* ===== verification/ChunkIter.v ===== *)
(** * The record iterator ([logdb/src/reader/iter.rs])

    [RecordIter] scans one segment file: raw segments through a sliding buffer
    that is compacted, grown and refilled by reads of any length, framed
    segments one decoded frame at a time. *)
From stdpp Require Import base gmap list numbers.
From coqutil Require Import Byte.
From Stdlib Require Import ZArith Lia.
From S2P Require Import Prelude Externals RustStd Format KeyRing FileSys Storage Frame Recovery Reader.
Open Scope Z_scope.

(** ** The record iterator *)

Definition READ_CHUNK : Z := 64 * 1024.

Record RecordIter := mkIter {
  it_file : bytes;
  it_open : bool;
  it_offset : Z;
  it_file_size : Z;
  it_from_id : Z;
  it_end_id : Z;
  it_compressed : bool;
  it_encrypted : bool;
  it_key : option KeyRing;
  frame_data : bytes;
  frame_pos : Z;
  frame_len : Z;
  it_buf : bytes;
  buf_len : Z;
  buf_pos : Z;
  base_offset : Z;
}.

Definition iter_new (f : bytes) (start_offset from_id end_id : Z) (compressed encrypted : bool)
    (key : option KeyRing) (file_size : Z) : RecordIter :=
  mkIter f true start_offset file_size from_id end_id compressed encrypted key [] 0 0
    (zeros READ_CHUNK) 0 0 start_offset.

Definition with_buf (b : bytes) (len pos base : Z) (it : RecordIter) : RecordIter :=
  mkIter (it_file it) (it_open it) (it_offset it) (it_file_size it) (it_from_id it) (it_end_id it)
    (it_compressed it) (it_encrypted it) (it_key it) (frame_data it) (frame_pos it) (frame_len it)
    b len pos base.

Definition close (it : RecordIter) : RecordIter :=
  mkIter (it_file it) false (it_offset it) (it_file_size it) (it_from_id it) (it_end_id it)
    (it_compressed it) (it_encrypted it) (it_key it) (frame_data it) (frame_pos it) (frame_len it)
    (it_buf it) (buf_len it) (buf_pos it) (base_offset it).

Definition with_frame (d : bytes) (pos len off : Z) (it : RecordIter) : RecordIter :=
  mkIter (it_file it) (it_open it) off (it_file_size it) (it_from_id it) (it_end_id it)
    (it_compressed it) (it_encrypted it) (it_key it) d pos len
    (it_buf it) (buf_len it) (buf_pos it) (base_offset it).

Section iter.
Context `{Externals}.

(** How many bytes a [read] at a position returns when it may return up to the
    given number: a short read is always allowed. *)
Variable short : Z -> Z -> Z.

(** [File::read] at position [pos] for up to [want] bytes. *)
Definition file_read (f : bytes) (pos want : Z) : bytes :=
  slice f pos (pos + Z.max 1 (Z.min want (short pos want))).

(** [while self.buf_len < n] of [ensure_raw]. *)
Fixpoint refill (fuel : nat) (n : Z) (it : RecordIter) : bool * RecordIter :=
  if n <=? buf_len it then (true, it)
  else
    match fuel with
    | O => (false, it)
    | S fuel =>
        let remaining := sat_sub (it_file_size it) (base_offset it + buf_len it) in
        if remaining =? 0 then (false, it)
        else
          let space := blen (it_buf it) - buf_len it in
          let want := Z.min space remaining in
          if want =? 0 then (false, it)
          else
            let got := file_read (it_file it) (base_offset it + buf_len it) want in
            if blen got =? 0 then (false, it)
            else refill fuel n (with_buf (copy_at (buf_len it) got (it_buf it)) (buf_len it + blen got)
                                  (buf_pos it) (base_offset it) it)
    end.

(** [ensure_raw]. *)
Definition ensure_raw (n : Z) (it : RecordIter) : bool * RecordIter :=
  if buf_pos it + n <=? buf_len it then (true, it)
  else
    let it := if 0 <? buf_pos it
              then with_buf (copy_at 0 (slice (it_buf it) (buf_pos it) (buf_len it)) (it_buf it))
                     (buf_len it - buf_pos it) 0 (base_offset it + buf_pos it) it
              else it in
    let it := if blen (it_buf it) <? n
              then let cap := Z.max (next_power_of_two n) READ_CHUNK in
                   with_buf (it_buf it ++ zeros (cap - blen (it_buf it))) (buf_len it) (buf_pos it)
                     (base_offset it) it
              else it in
    if it_open it then refill (Z.to_nat n) n it else (false, it).

Definition advance (n : Z) (it : RecordIter) : RecordIter :=
  with_buf (it_buf it) (buf_len it) (buf_pos it + n) (base_offset it) it.

(** The raw loop of [next]; [None] when the fuel runs out. *)
Fixpoint next_raw (fuel : nat) (it : RecordIter) : option (option Rec * RecordIter) :=
  match fuel with
  | O => None
  | S fuel =>
      let '(ok, it) := ensure_raw 4 it in
      if negb ok then Some (None, close it)
      else
        let total := get_le (it_buf it) (buf_pos it) 4 in
        if total <? MIN_RECORD_SIZE then next_raw fuel (advance 1 it)
        else
          let '(ok, it) := ensure_raw total it in
          if negb ok then Some (None, close it)
          else
            let p := buf_pos it in
            let rec_bytes := slice (it_buf it) p (p + total) in
            let it := advance total it in
            match deserialize_record rec_bytes with
            | Ok (record, _) =>
                if rec_seq record <? it_from_id it then next_raw fuel it
                else if it_end_id it <=? rec_seq record then Some (None, close it)
                else Some (Some record, it)
            | Err _ => next_raw fuel it
            end
  end.

(** [load_next_frame]. *)
Definition load_next_frame (it : RecordIter) : bool * RecordIter :=
  if negb (it_open it) then (false, it)
  else
    let off := it_offset it in
    if it_file_size it <? off + FRAME_HEADER_SIZE then (false, it)
    else
      match read_exact (it_file it) off FRAME_HEADER_SIZE with
      | None => (false, it)
      | Some fh =>
          let '(cl, dl) := read_frame_header fh in
          if (cl =? 0) || (dl =? 0) || (it_file_size it <? off + FRAME_HEADER_SIZE + cl) then (false, it)
          else
            match read_exact (it_file it) (off + FRAME_HEADER_SIZE) cl with
            | None => (false, it)
            | Some payload =>
                match decode_frame_payload payload (it_compressed it) (it_encrypted it) (it_key it) with
                | Err _ => (false, it)
                | Ok decoded =>
                    (true, with_frame decoded 0 (Z.min dl (blen decoded)) (off + FRAME_HEADER_SIZE + cl) it)
                end
            end
      end.

(** The loop over the records of the current frame: [Some] when [next] returns
    from it. *)
Fixpoint next_in_frame (fuel : nat) (it : RecordIter) : option (option Rec) * RecordIter :=
  match fuel with
  | O => (None, it)
  | S fuel =>
      let p := frame_pos it in
      if (frame_len it <? p + MIN_RECORD_SIZE) || (blen (frame_data it) <? p + MIN_RECORD_SIZE)
      then (None, it)
      else
        let total := get_le (frame_data it) p 4 in
        if (total <? MIN_RECORD_SIZE) || (frame_len it <? p + total) || (blen (frame_data it) <? p + total)
        then (None, it)
        else
          let it := with_frame (frame_data it) (p + total) (frame_len it) (it_offset it) it in
          match deserialize_record (slice (frame_data it) p (p + total)) with
          | Ok (record, _) =>
              if rec_seq record <? it_from_id it then next_in_frame fuel it
              else if it_end_id it <=? rec_seq record then (Some None, close it)
              else (Some (Some record), it)
          | Err _ => next_in_frame fuel it
          end
  end.

(** The frame loop of [next]; [None] when the fuel runs out. *)
Fixpoint next_frames (fuel : nat) (it : RecordIter) : option (option Rec * RecordIter) :=
  match fuel with
  | O => None
  | S fuel =>
      match next_in_frame (S (length (frame_data it))) it with
      | (Some r, it) => Some (r, it)
      | (None, it) =>
          let '(ok, it) := load_next_frame it in
          if ok then next_frames fuel it else Some (None, close it)
      end
  end.

(** [next]: every iteration of either loop moves forward in the file. *)
Definition next (it : RecordIter) : option (option Rec * RecordIter) :=
  if negb (it_open it) then Some (None, it)
  else if it_compressed it || it_encrypted it then next_frames (S (length (it_file it))) it
  else next_raw (S (length (it_file it))) it.

(** Everything the iterator yields, at most [n] records. *)
Fixpoint collect (n : nat) (it : RecordIter) : list Rec :=
  match n with
  | O => []
  | S n =>
      match next it with
      | Some (Some r, it) => r :: collect n it
      | _ => []
      end
  end.

(** ** The buffer *)

(** The buffer holds the bytes of the file from [base_offset] on. *)
Record buf_ok (it : RecordIter) : Prop := {
  bo_open : it_open it = true;
  bo_size : 0 <= it_file_size it <= blen (it_file it);
  bo_base : 0 <= base_offset it;
  bo_pos : 0 <= buf_pos it <= buf_len it;
  bo_len : buf_len it <= blen (it_buf it);
  bo_end : base_offset it + buf_len it <= it_file_size it;
  bo_data : slice (it_buf it) 0 (buf_len it) =
            slice (it_file it) (base_offset it) (base_offset it + buf_len it);
}.

(** The position of the scan in the file. *)
Definition position (it : RecordIter) : Z := base_offset it + buf_pos it.

(** The fields the buffer operations leave alone. *)
Record same_scan (it it' : RecordIter) : Prop := {
  ss_file : it_file it' = it_file it;
  ss_size : it_file_size it' = it_file_size it;
  ss_from : it_from_id it' = it_from_id it;
  ss_end : it_end_id it' = it_end_id it;
  ss_mode : it_compressed it' = it_compressed it /\ it_encrypted it' = it_encrypted it;
}.

#[local] Instance same_scan_preorder : PreOrder same_scan.
Proof.
  split; [by split|]. intros ??? [?????] [?????]. split; try congruence. intuition congruence.
Qed.

Lemma with_buf_same b l p o it : same_scan it (with_buf b l p o it).
Proof. by split. Qed.

Lemma buf_slice it p q :
  buf_ok it -> 0 <= p -> q <= buf_len it ->
  slice (it_buf it) p q = slice (it_file it) (base_offset it + p) (base_offset it + q).
Proof.
  intros Hok Hp Hq. rewrite <- (slice_slice _ _ (base_offset it + buf_len it)); [|apply Hok|done|lia].
  rewrite <- (bo_data _ Hok), slice_slice by lia. done.
Qed.

(** Appending the bytes that follow in the file. *)
Lemma extend_buf it got :
  buf_ok it -> got = slice (it_file it) (base_offset it + buf_len it) (base_offset it + buf_len it + blen got) ->
  buf_len it + blen got <= blen (it_buf it) -> base_offset it + buf_len it + blen got <= it_file_size it ->
  buf_ok (with_buf (copy_at (buf_len it) got (it_buf it)) (buf_len it + blen got) (buf_pos it)
            (base_offset it) it).
Proof.
  intros [] Hgot Hcap Hend. split; simpl; try done; try lia; [by rewrite length_copy_at|].
  rewrite copy_at_in_bounds by lia. rewrite app_assoc, slice_app_exact by len.
  rewrite Z.add_assoc, (slice_split _ _ (base_offset it + buf_len it)) by lia.
  rewrite <- bo_data0, <- Hgot. f_equal. unfold slice. rewrite drop_0. f_equal. lia.
Qed.

Lemma file_read_spec f pos want :
  0 <= pos -> 0 < want -> pos + want <= blen f ->
  let got := file_read f pos want in
  0 < blen got <= want /\ got = slice f pos (pos + blen got).
Proof.
  intros H0 H1 H2 got. subst got. unfold file_read. set (k := Z.max 1 (Z.min want (short pos want))).
  assert (blen (slice f pos (pos + k)) = k) as -> by (rewrite blen_slice by lia; lia).
  split; [lia|done].
Qed.

Lemma refill_spec fuel n it b it' :
  buf_ok it -> n <= blen (it_buf it) -> n - buf_len it <= Z.of_nat fuel -> refill fuel n it = (b, it') ->
  buf_ok it' /\ same_scan it it' /\ base_offset it' = base_offset it /\ buf_pos it' = buf_pos it /\
  b = (base_offset it + n <=? it_file_size it) /\ (b = true -> n <= buf_len it').
Proof.
  revert it. induction fuel as [|fuel IH]; intros it Hok Hcap Hf; cbn [refill];
    destruct (Z.leb_spec n (buf_len it)) as [Hn|Hn].
  1,3: intros [= <- <-]; pose proof (bo_end _ Hok); rewrite (proj2 (Z.leb_le _ _)) by lia; done.
  { lia. }
  unfold sat_sub. destruct (Z.eqb_spec (Z.max 0 (it_file_size it - (base_offset it + buf_len it))) 0) as [Hr|Hr].
  { intros [= <- <-]. rewrite (proj2 (Z.leb_gt _ _)) by lia. done. }
  set (want := Z.min _ _). assert (0 < want) as Hw by lia.
  destruct (Z.eqb_spec want 0); [lia|].
  destruct (file_read_spec (it_file it) (base_offset it + buf_len it) want) as [Hg1 Hg2].
  { destruct Hok; lia. }
  { done. }
  { destruct Hok; lia. }
  set (got := file_read _ _ _) in *. destruct (Z.eqb_spec (blen got) 0); [lia|]. intros Hrec.
  apply IH in Hrec; [|apply extend_buf; [done|done|lia|lia]|simpl; by rewrite length_copy_at|simpl; lia].
  destruct Hrec as (H1 & H2 & H3 & H4 & H5 & H6). split; [done|]. split; [|done].
  etransitivity; [apply with_buf_same|exact H2].
Qed.

(** Compaction: the unconsumed bytes move to the front. *)
Lemma compact_ok it :
  buf_ok it ->
  buf_ok (with_buf (copy_at 0 (slice (it_buf it) (buf_pos it) (buf_len it)) (it_buf it))
            (buf_len it - buf_pos it) 0 (base_offset it + buf_pos it) it).
Proof.
  intros Hok. pose proof (buf_slice it (buf_pos it) (buf_len it) Hok) as Hs. destruct Hok.
  split; simpl; try done; try lia; [by rewrite length_copy_at; lia|].
  rewrite copy_at_in_bounds by len. rewrite take_0, app_nil_l, slice_app_exact by len.
  rewrite Hs by lia. f_equal. lia.
Qed.

Lemma grow_ok it z :
  buf_ok it -> buf_ok (with_buf (it_buf it ++ z) (buf_len it) (buf_pos it) (base_offset it) it).
Proof.
  intros []. split; simpl; try done; [rewrite length_app; lia|]. by rewrite slice_app_l.
Qed.

(** [ensure_raw] keeps the position and succeeds exactly when the file has that
    many bytes left. *)
Lemma ensure_raw_spec n it b it' :
  buf_ok it -> 0 < n -> ensure_raw n it = (b, it') ->
  buf_ok it' /\ same_scan it it' /\ position it' = position it /\
  b = (position it + n <=? it_file_size it) /\ (b = true -> buf_pos it' + n <= buf_len it').
Proof.
  intros Hok Hn. unfold ensure_raw. destruct (Z.leb_spec (buf_pos it + n) (buf_len it)) as [Hle|Hgt].
  { intros [= <- <-]. pose proof (bo_end _ Hok). unfold position.
    rewrite (proj2 (Z.leb_le _ _)) by lia. done. }
  set (it1 := if 0 <? buf_pos it then _ else it).
  assert (buf_ok it1 /\ same_scan it it1 /\ position it1 = position it /\ buf_pos it1 = 0) as (Hok1 & Hs1 & Hp1 & Hz1).
  { subst it1. destruct (Z.ltb_spec 0 (buf_pos it)).
    - split; [by apply compact_ok|]. split; [apply with_buf_same|]. unfold position. simpl. lia.
    - split; [done|]. split; [done|]. split; [done|]. destruct Hok; lia. }
  clearbody it1. set (it2 := if blen (it_buf it1) <? n then _ else it1).
  assert (buf_ok it2 /\ same_scan it1 it2 /\ base_offset it2 = base_offset it1 /\ buf_pos it2 = 0 /\
          n <= blen (it_buf it2)) as (Hok2 & Hs2 & Hb2 & Hz2 & Hc2).
  { subst it2. destruct (Z.ltb_spec (blen (it_buf it1)) n); simpl.
    - split; [by apply grow_ok|]. split; [apply with_buf_same|]. split; [done|]. split; [done|].
      pose proof (next_power_of_two_ge n). len.
    - split; [done|]. split; [done|]. done. }
  clearbody it2. rewrite (bo_open _ Hok2). intros Hr.
  apply refill_spec in Hr as (H1 & H2 & H3 & H4 & H5 & H6); [|done|done|destruct Hok2; lia].
  unfold position in *. split; [done|]. split; [by etransitivity; [|etransitivity]|].
  rewrite H3, H4, Hb2, Hz2. split; [lia|]. split; [|intros ->; specialize (H6 eq_refl); lia].
  rewrite H5, Hb2, (ss_size _ _ Hs2), (ss_size _ _ Hs1). f_equal. lia.
Qed.

(** ** The raw scan *)

(** The part of the file the iterator may look at. *)
Definition visible (it : RecordIter) : bytes := take (Z.to_nat (it_file_size it)) (it_file it).

Lemma blen_visible it : buf_ok it -> blen (visible it) = it_file_size it.
Proof. intros []. unfold visible. len. Qed.

Lemma visible_same it it' : same_scan it it' -> visible it' = visible it.
Proof. intros []. unfold visible. congruence. Qed.

Lemma buf_visible it n :
  buf_ok it -> 0 <= n -> buf_pos it + n <= buf_len it ->
  slice (it_buf it) (buf_pos it) (buf_pos it + n) = slice (visible it) (position it) (position it + n).
Proof.
  intros Hok Hn Hle. rewrite buf_slice by (done || destruct Hok; lia). unfold visible, position.
  rewrite slice_take by (destruct Hok; lia). f_equal. lia.
Qed.

Lemma advance_ok n it :
  buf_ok it -> 0 <= n -> buf_pos it + n <= buf_len it ->
  buf_ok (advance n it) /\ position (advance n it) = position it + n /\ same_scan it (advance n it).
Proof.
  intros [] Hn Hle. split; [split; simpl; try done; lia|]. split; [unfold position; simpl; lia|].
  apply with_buf_same.
Qed.

(** What the buffered scan does at its position is what an unbuffered scan of
    the file would do there. *)
Definition raw_result (it : RecordIter) (o : option (option Rec * RecordIter)) : Prop :=
  exists r it', o = Some (r, it') /\ same_scan it it' /\
  let rest p := range (it_from_id it) (it_end_id it) (raw_list (visible it) p) in
  match r with
  | None => rest (position it) = [] /\ it_open it' = false
  | Some rec => buf_ok it' /\ position it < position it' /\
      rest (position it) = rec :: rest (position it')
  end.

Lemma raw_result_skip it it' o :
  same_scan it it' -> position it < position it' ->
  range (it_from_id it) (it_end_id it) (raw_list (visible it) (position it)) =
  range (it_from_id it) (it_end_id it) (raw_list (visible it) (position it')) ->
  raw_result it' o -> raw_result it o.
Proof.
  intros Hs Hp Heq (r & it2 & -> & Hs2 & Hr). exists r, it2. split; [done|].
  split; [by etransitivity|]. rewrite (ss_from _ _ Hs), (ss_end _ _ Hs), (visible_same _ _ Hs) in Hr.
  cbv beta zeta in *. rewrite Heq. destruct r; [|done]. destruct Hr as (? & ? & ?). split; [done|]. split; [lia|done].
Qed.

Lemma raw_result_end it it1 :
  same_scan it it1 -> raw_at (visible it) (position it) = RawEnd -> 0 <= position it ->
  raw_result it (Some (None, close it1)).
Proof.
  intros [] He H0. exists None, (close it1). split; [done|]. split; [by split|].
  cbv beta zeta. rewrite raw_list_at, He by done. done.
Qed.

Lemma position_range it : buf_ok it -> 0 <= position it <= it_file_size it.
Proof. intros []. unfold position. lia. Qed.

(** The unbuffered step at a position with four bytes left. *)
Lemma raw_at_visible it :
  buf_ok it -> position it + 4 <= it_file_size it ->
  let total := get_le (visible it) (position it) 4 in
  raw_at (visible it) (position it) =
  if total <? MIN_RECORD_SIZE then RawSkip 1
  else if it_file_size it <? position it + total then RawEnd
  else match deserialize_record (slice (visible it) (position it) (position it + total)) with
       | Ok (record, _) => RawRec record total
       | Err _ => RawSkip total
       end.
Proof.
  intros Hok Hle total. unfold raw_at. rewrite blen_visible by done.
  rewrite (proj2 (Z.leb_gt _ _)), (proj2 (Z.ltb_ge _ _)) by lia. done.
Qed.

(** Consuming a whole record from the buffer. *)
Lemma consume_spec total it b it' :
  buf_ok it -> 0 < total -> ensure_raw total it = (b, it') ->
  same_scan it it' /\ b = (position it + total <=? it_file_size it) /\
  (b = true ->
   slice (it_buf it') (buf_pos it') (buf_pos it' + total) =
   slice (visible it) (position it) (position it + total) /\
   buf_ok (advance total it') /\ position (advance total it') = position it + total /\
   same_scan it (advance total it')).
Proof.
  intros Hok Ht He. apply ensure_raw_spec in He as (Hok' & Hs & Hp & Hb & Hl); [|done|done].
  split; [done|]. split; [done|]. intros Hbt. specialize (Hl Hbt).
  destruct (advance_ok total it') as (Ha & Hap & Has); [done|lia|lia|].
  rewrite buf_visible, Hp, (visible_same _ _ Hs) by (done || lia).
  split; [done|]. split; [done|]. split; [lia|]. by etransitivity.
Qed.

(** The id filter on a record that was read. *)
Lemma raw_result_rec it it' rec o :
  same_scan it it' -> buf_ok it' -> position it < position it' ->
  raw_list (visible it) (position it) = rec :: raw_list (visible it) (position it') ->
  raw_result it' o ->
  raw_result it (if rec_seq rec <? it_from_id it' then o
                 else if it_end_id it' <=? rec_seq rec then Some (None, close it')
                 else Some (Some rec, it')).
Proof.
  intros Hs Hok Hp Hl Ho. rewrite (ss_from _ _ Hs), (ss_end _ _ Hs).
  destruct (rec_seq rec <? it_from_id it) eqn:Hlow.
  { eapply raw_result_skip; [exact Hs|done| |done]. rewrite Hl. cbn [range]. by rewrite Hlow. }
  destruct (it_end_id it <=? rec_seq rec) eqn:Hhigh.
  - exists None, (close it'). split; [done|]. split; [by destruct Hs|]. cbv beta zeta.
    rewrite Hl. cbn [range]. by rewrite Hlow, Hhigh.
  - exists (Some rec), it'. split; [done|]. split; [done|]. cbv beta zeta.
    rewrite Hl. cbn [range]. by rewrite Hlow, Hhigh.
Qed.

Lemma next_raw_spec fuel it :
  buf_ok it -> it_file_size it - position it < Z.of_nat fuel -> raw_result it (next_raw fuel it).
Proof.
  revert it. induction fuel as [|fuel IH]; intros it Hok Hf.
  { pose proof (position_range it Hok). lia. }
  pose proof (position_range it Hok) as Hpos. pose proof (blen_visible it Hok) as Hvis.
  cbn [next_raw]. destruct (ensure_raw 4 it) as [b1 it1] eqn:H1.
  apply ensure_raw_spec in H1 as (Hok1 & Hs1 & Hp1 & Hb1 & Hl1); [|done|lia].
  destruct (Z.leb_spec (position it + 4) (it_file_size it)) as [Hle|Hgt]; subst b1; simpl.
  2:{ apply raw_result_end; [done| |lia]. unfold raw_at. rewrite Hvis.
      destruct (Z.leb_spec (it_file_size it) (position it)); [done|].
      by rewrite (proj2 (Z.ltb_lt _ _)). }
  specialize (Hl1 eq_refl).
  assert (get_le (it_buf it1) (buf_pos it1) 4 = get_le (visible it) (position it) 4) as ->.
  { unfold get_le. by rewrite buf_visible, Hp1, (visible_same _ _ Hs1) by (done || lia). }
  pose proof (raw_list_at (visible it) (position it) ltac:(lia)) as Hlist.
  pose proof (raw_at_visible it Hok Hle) as Hat. cbv zeta in Hat. rewrite Hat in Hlist.
  set (total := get_le (visible it) (position it) 4) in *.
  unfold MIN_RECORD_SIZE in *. destruct (Z.ltb_spec total 60) as [Hsmall|Hbig].
  { destruct (advance_ok 1 it1) as (Ha & Hap & Has); [done|lia|lia|].
    eapply raw_result_skip; [etransitivity; [exact Hs1|exact Has]|lia|by rewrite Hlist, Hap, Hp1|].
    apply IH; [done|]. rewrite Hap, (ss_size _ _ Has), (ss_size _ _ Hs1). lia. }
  destruct (ensure_raw total it1) as [b2 it2] eqn:H2.
  apply consume_spec in H2 as (Hs2 & Hb2 & Hrec); [|done|lia].
  rewrite Hp1, (ss_size _ _ Hs1) in Hb2.
  destruct (Z.leb_spec (position it + total) (it_file_size it)) as [Hle2|Hgt2]; subst b2; simpl.
  2:{ apply raw_result_end; [by etransitivity| |lia]. rewrite Hat. by rewrite (proj2 (Z.ltb_lt _ _)). }
  rewrite (proj2 (Z.ltb_ge _ _)) in Hlist by lia.
  destruct (Hrec eq_refl) as (-> & Ha & Hap & Has). rewrite Hp1 in Hap.
  rewrite Hp1, (visible_same _ _ Hs1).
  assert (same_scan it (advance total it2)) as Hsa by (etransitivity; [exact Hs1|exact Has]).
  assert (raw_result (advance total it2) (next_raw fuel (advance total it2))) as Hnext.
  { apply IH; [done|]. rewrite (ss_size _ _ Hsa). lia. }
  destruct (deserialize_record _) as [[rec n]|e].
  - apply (raw_result_rec it (advance total it2) rec); [done|done|lia|by rewrite Hlist, Hap|done].
  - eapply raw_result_skip; [exact Hsa|lia|by rewrite Hlist, Hap|done].
Qed.

Lemma collect_raw n it :
  buf_ok it -> it_compressed it = false -> it_encrypted it = false ->
  it_file_size it - position it < Z.of_nat n ->
  collect n it = range (it_from_id it) (it_end_id it) (raw_list (visible it) (position it)).
Proof.
  revert it. induction n as [|n IH]; intros it Hok Hc He Hn.
  { pose proof (position_range it Hok). lia. }
  cbn [collect]. unfold next. rewrite (bo_open _ Hok), Hc, He. cbn [negb orb].
  destruct (next_raw_spec (S (length (it_file it))) it Hok) as (r & it' & -> & Hs & Hr).
  { pose proof (position_range it Hok). destruct Hok. lia. }
  destruct r as [rec|]; cbv beta zeta in Hr; [|by destruct Hr as [-> _]].
  destruct Hr as (Hok' & Hp & ->). destruct (ss_mode _ _ Hs). f_equal.
  rewrite IH; [|done|congruence|congruence|rewrite (ss_size _ _ Hs); lia].
  by rewrite (ss_from _ _ Hs), (ss_end _ _ Hs), (visible_same _ _ Hs).
Qed.

Lemma buf_ok_empty it :
  it_open it = true -> buf_len it = 0 -> buf_pos it = 0 ->
  0 <= base_offset it <= it_file_size it -> it_file_size it <= blen (it_file it) -> buf_ok it.
Proof.
  intros Ho Hl Hp Hb Hs. split; rewrite ?Hl, ?Hp; try lia; [done|].
  unfold slice. by rewrite Z.add_0_r, !Z.sub_diag.
Qed.

(** The chunked iterator is an unbuffered scan.  For any segment file, any
    start offset in it, any id range and any pattern of short reads, the records
    the buffered iterator yields (with its compaction, growth and refills) are
    exactly those of a record-by-record scan of the file up to the size it had
    when the iterator was made: the records from [from_id] on, up to the first
    one at or beyond [end_id]. *)
Theorem chunked_scan_is_raw_scan f start from to key size :
  0 <= start <= size -> size <= blen f ->
  collect (S (length f)) (iter_new f start from to false false key size) =
  range from to (raw_list (take (Z.to_nat size) f) start).
Proof.
  intros Hstart Hsize. set (it := iter_new _ _ _ _ _ _ _ _).
  assert (position it = start) as Hp by (unfold position; apply Z.add_0_r).
  rewrite collect_raw; [|apply buf_ok_empty; [reflexivity|reflexivity|reflexivity|exact Hstart|exact Hsize]
                        |reflexivity|reflexivity|rewrite Hp; change (it_file_size it) with size; lia].
  by rewrite Hp.
Qed.
End iter.

(** ** Concrete runs *)

Section iter_demo.
#[local] Instance iter_demo_externals : Externals := toy.

(** Every read returns one byte. *)
Lemma chunked_scan_is_raw_scan_witness :
  let f := demo_hd 0 1 ++ encoded (demo_views 3) in
  0 <= 128 <= blen f /\
  collect (fun _ _ => 1) (S (length f)) (iter_new f 128 1 2 false false None (blen f)) =
  range 1 2 (raw_list f 128) /\ (rec_seq <$> range 1 2 (raw_list f 128)) = [1].
Proof.
  set (f := demo_hd 0 1 ++ encoded (demo_views 3)). split; [split; vm_compute; discriminate|].
  split; [|vm_compute; reflexivity].
  rewrite (chunked_scan_is_raw_scan (fun _ _ => 1) f 128 1 2 None (blen f)).
  - rewrite take_ge by lia. reflexivity.
  - split; vm_compute; discriminate.
  - lia.
Defined.
End iter_demo.
