(* ===== verification/ReadBack.v ===== *)
(** * Reading back what was appended

    The readers of [Reader] on the segment files [Storage] writes: a raw segment
    is a header followed by the encoded records, its sparse index points at
    records, and a shard is a sequence of such segments with ascending base
    sequences. *)
From stdpp Require Import base gmap list numbers sorting.
From coqutil Require Import Byte.
From Stdlib Require Import ZArith Lia.
From S2P Require Import Prelude Externals RustStd Format Index Config Ring KeyRing FileSys Storage.
From S2P Require Import Frame Recovery Reader.
Open Scope Z_scope.

Section readback.
Context `{Externals}.

(** ** One raw segment *)

Lemma encoded_app vs vs' : encoded (vs ++ vs') = encoded vs ++ encoded vs'.
Proof. apply flat_map_app. Qed.

Lemma encoded_cons v vs : encoded (v :: vs) = record_bytes (rv_record_id v) v ++ encoded vs.
Proof. done. Qed.

Lemma raw_at_record pre v rest :
  view_wf v ->
  raw_at (pre ++ record_bytes (rv_record_id v) v ++ rest) (blen pre) = RawRec (view_rec v) (view_size v).
Proof.
  intros Hv. set (rb := record_bytes (rv_record_id v) v).
  pose proof (blen_record_bytes (rv_record_id v) v (vw_hash _ Hv)) as Hrb. fold rb in Hrb.
  assert (60 <= view_size v < 2 ^ 32 /\ view_size v = blen rb) as [Hr Hvs].
  { destruct Hv. unfold view_size. unfold record_size in *. lia. }
  destruct (record_fields (rv_record_id v) v rest (vw_id _ Hv) Hv) as (E1 & _). fold rb in E1.
  unfold raw_at. assert (blen (pre ++ rb ++ rest) = blen pre + blen rb + blen rest) as Hlen by len.
  rewrite Hlen, (proj2 (Z.leb_gt _ _)), (proj2 (Z.ltb_ge _ _)) by lia. cbn [orb].
  assert (get_le (pre ++ rb ++ rest) (blen pre) 4 = view_size v) as ->.
  { unfold get_le. rewrite slice_app_r by lia.
    replace (blen pre - blen pre) with 0 by lia. replace (blen pre + 4 - blen pre) with (0 + 4) by lia.
    exact E1. }
  unfold MIN_RECORD_SIZE. rewrite !(proj2 (Z.ltb_ge _ _)) by lia.
  rewrite slice_app_r, slice_app_exact by lia.
  pose proof (deserialize_record_bytes (rv_record_id v) v [] (vw_id _ Hv) Hv) as Hd.
  rewrite app_nil_r in Hd. fold rb in Hd. by rewrite Hd.
Qed.

(** A scan from a record boundary meets exactly the records behind it. *)
Lemma raw_list_encoded pre vs :
  Forall view_wf vs -> raw_list (pre ++ encoded vs) (blen pre) = view_rec <$> vs.
Proof.
  intros Hwf. revert pre. induction Hwf as [|v vs Hv _ IH]; intros pre; rewrite raw_list_at by lia.
  { unfold raw_at, encoded. simpl. rewrite app_nil_r, (proj2 (Z.leb_le _ _)) by lia. done. }
  rewrite encoded_cons, raw_at_record by done. csimpl. f_equal.
  specialize (IH (pre ++ record_bytes (rv_record_id v) v)). rewrite <- app_assoc in IH.
  rewrite <- IH. f_equal. unfold view_size.
  rewrite <- (blen_record_bytes (rv_record_id v) v) by apply Hv. len.
Qed.

Definition ascending (vs : list ReadView) : Prop :=
  StronglySorted (fun a b => rv_record_id a < rv_record_id b) vs.

Lemma find_rec_skip id vs vs' :
  Forall (fun v => rv_record_id v < id) vs ->
  find_rec id (view_rec <$> (vs ++ vs')) = find_rec id (view_rec <$> vs').
Proof.
  induction 1 as [|v vs Hv _ IH]; [done|]. csimpl. change (rec_seq (view_rec v)) with (rv_record_id v).
  rewrite (proj2 (Z.eqb_neq _ _)), (proj2 (Z.ltb_ge _ _)) by lia. exact IH.
Qed.

Lemma find_rec_above id vs :
  Forall (fun v => id < rv_record_id v) vs -> find_rec id (view_rec <$> vs) = None.
Proof.
  destruct 1 as [|v vs Hv _]; [done|]. csimpl. change (rec_seq (view_rec v)) with (rv_record_id v).
  by rewrite (proj2 (Z.eqb_neq _ _)), (proj2 (Z.ltb_lt _ _)) by lia.
Qed.

Lemma ascending_app vs vs' :
  ascending (vs ++ vs') ->
  ascending vs /\ ascending vs' /\
  forall a b, a ∈ vs -> b ∈ vs' -> rv_record_id a < rv_record_id b.
Proof.
  induction vs as [|v vs IH]; simpl; intros Hs.
  { split; [constructor|]. split; [done|]. intros a b Ha. by apply not_elem_of_nil in Ha. }
  apply StronglySorted_inv in Hs as [Hs Hall]. destruct (IH Hs) as (H1 & H2 & H3).
  apply Forall_app in Hall as [Hv1 Hv2]. split; [by constructor|]. split; [done|].
  intros a b [->|Ha]%elem_of_cons Hb; [|by apply H3].
  apply list_elem_of_lookup_1 in Hb as [i Hi]. exact (Forall_lookup_1 _ _ _ _ Hv2 Hi).
Qed.

(** Each anchor of the index points at the record it names. *)
Record index_valid (vs : list ReadView) (idx : SparseIndex) : Prop := {
  iv_sorted : index_sorted idx;
  iv_points : forall e, e ∈ entries idx -> exists pre v post, vs = pre ++ v :: post /\
    ie_sequence e = rv_record_id v /\ file_offset e = SEGMENT_HEADER_SIZE + blen (encoded pre);
}.

(** An anchored scan skips only records below the id it looks for. *)
Lemma anchor_split vs idx id :
  ascending vs -> (forall i, idx = Some i -> index_valid vs i) ->
  exists pre post, vs = pre ++ post /\ Forall (fun v => rv_record_id v < id) pre /\
    anchor_offset idx id = SEGMENT_HEADER_SIZE + blen (encoded pre).
Proof.
  intros Hs Hidx. unfold anchor_offset. destruct idx as [idx|]; simpl.
  2:{ exists [], vs. done. }
  destruct (Hidx idx eq_refl) as [Hsort Hp]. pose proof (find_anchor_spec idx id Hsort) as Ha.
  destruct (find_anchor idx id) as [[e i]|].
  2:{ exists [], vs. done. }
  destruct Ha as (He & Hle & _). destruct (Hp e) as (pre & v & post & -> & Hv & ->).
  { by eapply list_elem_of_lookup_2. }
  exists pre, (v :: post). split; [done|]. split; [|done].
  apply ascending_app in Hs as (_ & _ & Hlt). apply Forall_forall. intros a Ha.
  specialize (Hlt a v Ha ltac:(left)). lia.
Qed.

(** A point read of a raw segment, through any valid index. *)
Lemma read_raw_segment hd vs idx keys id :
  blen hd = SEGMENT_HEADER_SIZE -> Forall view_wf vs -> ascending vs ->
  (forall i, idx = Some i -> index_valid vs i) ->
  read_from_open_file (hd ++ encoded vs) false false keys (anchor_offset idx id) id =
  Some (find_rec id (view_rec <$> vs)).
Proof.
  intros Hhd Hwf Hs Hidx. unfold read_from_open_file. cbn [orb]. f_equal.
  destruct (anchor_split vs idx id Hs Hidx) as (pre & post & -> & Hpre & ->).
  transitivity (find_rec id (raw_list (hd ++ encoded (pre ++ post)) (SEGMENT_HEADER_SIZE + blen (encoded pre))));
    [apply read_raw_records|].
  rewrite encoded_app, app_assoc. replace (SEGMENT_HEADER_SIZE + blen (encoded pre)) with (blen (hd ++ encoded pre)) by len.
  apply Forall_app in Hwf as [_ Hwf]. rewrite raw_list_encoded by done. by rewrite find_rec_skip.
Qed.

(** ** The index an append maintains *)

Lemma index_valid_app vs v idx :
  index_valid vs idx -> index_valid (vs ++ [v]) idx.
Proof.
  intros [Hs Hp]. split; [done|]. intros e He. destruct (Hp e He) as (pre & v' & post & -> & H1 & H2).
  exists pre, v', (post ++ [v]). by rewrite <- app_assoc.
Qed.

Lemma index_valid_add vs v idx ts :
  index_valid vs idx -> ascending (vs ++ [v]) ->
  index_valid (vs ++ [v])
    (index_add idx (rv_record_id v) (SEGMENT_HEADER_SIZE + blen (encoded vs)) ts).
Proof.
  intros Hv Hs. apply ascending_app in Hs as (_ & _ & Hlt). split.
  - apply index_add_sorted; [apply Hv|]. intros e He.
    destruct (iv_points _ _ Hv e He) as (pre & v' & post & -> & -> & _).
    apply Hlt; [apply elem_of_app; right; left|left].
  - intros e. simpl. rewrite elem_of_app, list_elem_of_singleton. intros [He| ->].
    + by apply (iv_points _ _ (index_valid_app _ v _ Hv)).
    + exists vs, v, []. done.
Qed.

(** The invariant of the active segment's index: it is valid for the records
    written so far. *)
Lemma index_views_valid fs vs m :
  hashes_ok (vs ++ fs) -> ascending (vs ++ fs) ->
  (forall i, active_index m = Some i -> index_valid vs i) ->
  forall i, active_index (index_views (SEGMENT_HEADER_SIZE + blen (encoded vs)) fs m) = Some i ->
  index_valid (vs ++ fs) i.
Proof.
  revert vs m. induction fs as [|v fs IH]; intros vs m Hh Hs Hi; cbn [index_views].
  { by rewrite app_nil_r. }
  rewrite (cons_middle v vs fs), app_assoc in Hh, Hs |- *.
  assert (SEGMENT_HEADER_SIZE + blen (encoded vs) + view_size v =
          SEGMENT_HEADER_SIZE + blen (encoded (vs ++ [v]))) as ->.
  { rewrite encoded_app, length_app, encoded_cons, app_nil_r. unfold view_size.
    apply Forall_app in Hh as [Hh _]. apply Forall_app in Hh as [_ Hv].
    rewrite <- (blen_record_bytes (rv_record_id v) v) by (by inversion Hv). lia. }
  apply IH; [done|done|]. apply ascending_app in Hs as (Hs & _ & _).
  intros i. unfold index_record. destruct (active_index m) as [idx|] eqn:Hm; simpl.
  2:{ by rewrite Hm. }
  intros [= <-]. specialize (Hi idx eq_refl).
  destruct (should_index _ _); [by apply index_valid_add|by apply index_valid_app].
Qed.

(** ** A shard directory *)

Record Seg := mkSeg {
  sg_id : Z;
  sg_hd : bytes;
  sg_base : Z;
  sg_flags : Z;
  sg_views : list ReadView;
}.

Definition all_views (segs : list Seg) : list ReadView := flat_map sg_views segs.

Definition entry_of (s : Seg) : ManifestEntry := mkManifestEntry (sg_id s) (sg_base s) (sg_flags s).

Section layout.
Variable readdir : gmap Z bytes -> list Z.
Variables (files idxs : gmap Z bytes) (mtime : option Z).

(** A raw segment file with a readable header. *)
Record seg_ok (s : Seg) : Prop := {
  so_file : files !! sg_id s = Some (sg_hd s ++ encoded (sg_views s));
  so_hd : blen (sg_hd s) = SEGMENT_HEADER_SIZE;
  so_header : exists h, deserialize (sg_hd s) = Ok h /\ base_sequence h = sg_base s /\ flags h = sg_flags s;
  so_raw : framed_entry (entry_of s) = false;
  so_wf : Forall view_wf (sg_views s);
  so_base : Forall (fun v => sg_base s <= rv_record_id v) (sg_views s);
  so_index : forall i, load_index idxs (sg_id s) = Some i -> index_valid (sg_views s) i;
}.

(** Segment [b] starts above segment [a] and all its records. *)
Definition starts_above (a b : Seg) : Prop :=
  sg_base a <= sg_base b /\ Forall (fun v => rv_record_id v < sg_base b) (sg_views a).

(** [segs] is the directory: ascending ids, every segment starting above the
    records before it. *)
Record shard_layout (segs : list Seg) : Prop := {
  sl_dir : readdir files ≡ₚ (sg_id <$> segs);
  sl_ids : StronglySorted (fun a b => sg_id a < sg_id b) segs;
  sl_ok : Forall seg_ok segs;
  sl_views : ascending (all_views segs);
  sl_below : StronglySorted starts_above segs;
}.

Lemma manifest_entry_ok s : seg_ok s -> manifest_entry files (sg_id s) = Some (entry_of s).
Proof.
  intros [Hf Hhd (h & Hh & Hb & Hfl) _ _ _ _]. unfold manifest_entry, read_header_for_manifest.
  rewrite Hf. simpl. rewrite read_exact_Some by len. simpl.
  rewrite slice_app_exact by (done || lia). rewrite Hh. simpl. by rewrite Hb, Hfl.
Qed.

Lemma omap_entries segs : Forall seg_ok segs -> omap (manifest_entry files) (sg_id <$> segs) = entry_of <$> segs.
Proof.
  induction 1 as [|s segs Hs _ IH]; [done|]. csimpl. by rewrite manifest_entry_ok, IH.
Qed.

Lemma sorted_weaken {A} (R S : A -> A -> Prop) l :
  (forall x y, R x y -> S x y) -> StronglySorted R l -> StronglySorted S l.
Proof.
  intros HRS. induction 1 as [|x l _ IH Hall]; constructor; [done|].
  eapply Forall_impl; [exact Hall|]. apply HRS.
Qed.

(** Sorting a permutation of a strictly ascending list restores it. *)
Lemma sort_restores {A} (key : A -> Z) (l l' : list A) :
  StronglySorted (fun a b => key a < key b) l -> l' ≡ₚ l -> sort_by_key key l' = l.
Proof.
  intros Hs Hp. apply (StronglySorted_unique_strong (key_le key)).
  - intros x y Hx Hy H1 H2. unfold key_le in *. rewrite (sort_by_key_perm key l'), Hp in Hx.
    apply list_elem_of_lookup_1 in Hx as [i Hi], Hy as [j Hj].
    destruct (Nat.lt_trichotomy i j) as [Hij|[->|Hij]]; [|congruence|].
    + pose proof (sorted_lookup _ _ _ _ _ _ Hs Hij Hi Hj) as Hlt. simpl in Hlt. lia.
    + pose proof (sorted_lookup _ _ _ _ _ _ Hs Hij Hj Hi) as Hlt. simpl in Hlt. lia.
  - apply sort_by_key_sorted.
  - eapply sorted_weaken; [|exact Hs]. unfold key_le. simpl. lia.
  - by rewrite sort_by_key_perm.
Qed.

Lemma sorted_entries segs :
  StronglySorted (fun a b => sg_id a < sg_id b) segs ->
  StronglySorted (fun a b => me_segment_id a < me_segment_id b) (entry_of <$> segs).
Proof.
  induction 1 as [|s segs _ IH Hall]; csimpl; constructor; [done|]. by apply Forall_fmap.
Qed.

(** A scan of the directory finds the segments in order. *)
Lemma refresh_layout segs m :
  shard_layout segs -> m = manifest_new \/ m = mkManifest (entry_of <$> segs) mtime ->
  exists b, refresh_if_needed readdir files mtime m = (mkManifest (entry_of <$> segs) mtime, b).
Proof.
  intros Hl Hm. unfold refresh_if_needed.
  assert (sort_by_key me_segment_id (omap (manifest_entry files) (readdir files)) = entry_of <$> segs) as Hsort.
  { apply sort_restores; [by apply sorted_entries, Hl|].
    rewrite (sl_dir _ Hl), omap_entries by apply Hl. done. }
  destruct (bool_decide (mtime = dir_mtime m) && _) eqn:Hb; [|rewrite Hsort; by eexists].
  destruct Hm as [->| ->]; [|by eexists]. exfalso. revert Hb. simpl. by rewrite andb_false_r.
Qed.

(** ** Point reads across segments *)

Lemma find_rec_app_above id vs vs' :
  Forall (fun v => id < rv_record_id v) vs' ->
  find_rec id (view_rec <$> (vs ++ vs')) = find_rec id (view_rec <$> vs).
Proof.
  intros Hab. induction vs as [|v vs IH]; [by apply find_rec_above|]. csimpl. by rewrite IH.
Qed.

Lemma find_rec_elem vs v :
  ascending vs -> v ∈ vs -> find_rec (rv_record_id v) (view_rec <$> vs) = Some (view_rec v).
Proof.
  intros Hs Hv. apply list_elem_of_lookup_1 in Hv as [i Hi].
  rewrite <- (take_drop_middle vs i v Hi) in Hs |- *. apply ascending_app in Hs as (_ & _ & Hlt).
  rewrite find_rec_skip.
  - csimpl. by rewrite Z.eqb_refl.
  - apply Forall_forall. intros a Ha. apply Hlt; [done|left].
Qed.

Lemma find_rec_absent vs id :
  (forall v, v ∈ vs -> rv_record_id v <> id) -> find_rec id (view_rec <$> vs) = None.
Proof.
  induction vs as [|v vs IH]; intros Hne; [done|]. csimpl.
  change (rec_seq (view_rec v)) with (rv_record_id v).
  rewrite (proj2 (Z.eqb_neq _ _)) by (apply Hne; left). destruct (_ <? _); [done|].
  apply IH. intros v' Hv'. apply Hne. by right.
Qed.

Lemma all_views_app l l' : all_views (l ++ l') = all_views l ++ all_views l'.
Proof. apply flat_map_app. Qed.

Lemma Forall_all_views (P : ReadView -> Prop) segs :
  Forall (fun s => Forall P (sg_views s)) segs -> Forall P (all_views segs).
Proof. induction 1; [constructor|]. by apply Forall_app. Qed.

Lemma sorted_middle {A} (R : A -> A -> Prop) pre x post :
  StronglySorted R (pre ++ x :: post) -> Forall (fun y => R y x) pre /\ Forall (R x) post.
Proof.
  induction pre as [|y pre IH]; simpl; intros Hs; apply StronglySorted_inv in Hs as [Hs Hall].
  - split; [constructor|done].
  - destruct (IH Hs) as [H1 H2]. split; [|done]. constructor; [|done].
    apply Forall_app in Hall as [_ Hall]. by inversion Hall.
Qed.

(** The binary search over the entries splits the segments at the id. *)
Lemma layout_partition segs id :
  shard_layout segs ->
  let k := partition_point (fun e => me_base_sequence e <=? id) (entry_of <$> segs) in
  (k <= length segs)%nat /\
  (forall i s, (i < k)%nat -> segs !! i = Some s -> sg_base s <= id) /\
  (forall i s, (k <= i)%nat -> segs !! i = Some s -> id < sg_base s).
Proof.
  intros Hl. set (p := fun e => me_base_sequence e <=? id). cbv zeta.
  destruct (partition_point_spec p (entry_of <$> segs)) as (Hlen & Hlow & Hhigh).
  { intros i j x y Hij. rewrite !list_lookup_fmap. destruct (segs !! i) as [a|] eqn:Ha; [|done].
    destruct (segs !! j) as [b|] eqn:Hb; [|done]. intros [= <-] [= <-]. unfold p. simpl.
    rewrite !Z.leb_le. destruct (decide (i = j)) as [->|Hne]; [by simplify_eq|].
    pose proof (sorted_lookup _ _ i j a b (sl_below _ Hl) ltac:(lia) Ha Hb) as [? _]. lia. }
  rewrite length_fmap in Hlen. split; [exact Hlen|].
  split; intros i s Hi Hs; [apply Z.leb_le, (Hlow i (entry_of s))|apply Z.leb_gt, (Hhigh i (entry_of s))];
    [exact Hi|by rewrite list_lookup_fmap, Hs|exact Hi|by rewrite list_lookup_fmap, Hs].
Qed.

(** The cached lookup splits the segments at the one that can hold the id. *)
Lemma layout_split segs id :
  shard_layout segs ->
  match find_in_cache (mkManifest (entry_of <$> segs) mtime) id with
  | None => Forall (fun v => id < rv_record_id v) (all_views segs)
  | Some e => exists pre s post, segs = pre ++ s :: post /\ e = entry_of s /\ sg_base s <= id /\
      Forall (fun v => rv_record_id v < id) (all_views pre) /\
      Forall (fun v => id < rv_record_id v) (all_views post)
  end.
Proof.
  intros Hl. unfold find_in_cache. simpl. destruct (layout_partition segs id Hl) as (Hlen & Hlow & Hhigh).
  assert (forall k s, segs !! k = Some s ->
    (partition_point (fun e => (me_base_sequence e <=? id)%Z) (entry_of <$> segs) <= k)%nat ->
    Forall (fun v => id < rv_record_id v) (sg_views s)) as Habove.
  { intros k s Hk Hge. specialize (Hhigh k s Hge Hk).
    eapply Forall_impl; [apply (so_base s), (Forall_lookup_1 _ _ _ _ (sl_ok _ Hl) Hk)|]. simpl. lia. }
  destruct (partition_point _ (entry_of <$> segs)) as [|k].
  { apply Forall_all_views, Forall_lookup. intros k s Hk. eapply Habove; [done|lia]. }
  destruct (lookup_lt_is_Some_2 segs k Hlen) as [s Hk]. rewrite list_lookup_fmap, Hk. simpl.
  specialize (Hlow k s ltac:(lia) Hk). exists (take k segs), s, (drop (S k) segs).
  split; [by rewrite take_drop_middle|]. split; [done|]. split; [done|].
  destruct (sorted_middle starts_above (take k segs) s (drop (S k) segs)) as [Hpre _].
  { rewrite take_drop_middle by done. apply (sl_below _ Hl). }
  split; apply Forall_all_views.
  - eapply Forall_impl; [exact Hpre|]. intros t [_ Ht]. eapply Forall_impl; [exact Ht|]. simpl. lia.
  - apply Forall_lookup. intros j t Hj. rewrite lookup_drop in Hj. eapply Habove; [exact Hj|lia].
Qed.

(** The one segment that can hold the id answers for all of them. *)
Lemma find_in_cache_layout segs id :
  shard_layout segs ->
  match find_in_cache (mkManifest (entry_of <$> segs) mtime) id with
  | None => find_rec id (view_rec <$> all_views segs) = None
  | Some e => exists s, e = entry_of s /\ s ∈ segs /\
      find_rec id (view_rec <$> all_views segs) = find_rec id (view_rec <$> sg_views s)
  end.
Proof.
  intros Hl. pose proof (layout_split segs id Hl) as Hs.
  destruct (find_in_cache _ id) as [e|]; [|by apply find_rec_above].
  destruct Hs as (pre & s & post & -> & -> & _ & Hpre & Hpost). exists s. split; [done|].
  split; [apply elem_of_app; right; left|]. rewrite all_views_app, find_rec_skip by done.
  unfold all_views. cbn [flat_map]. by apply find_rec_app_above.
Qed.

(** The manifest lookup serves the cached entry: its file is there. *)
Lemma find_layout segs m id :
  shard_layout segs -> m = manifest_new \/ m = mkManifest (entry_of <$> segs) mtime ->
  let c := mkManifest (entry_of <$> segs) mtime in
  find readdir files mtime m id = (find_in_cache c id, c).
Proof.
  intros Hl Hm c. unfold find. destruct (refresh_layout segs m Hl Hm) as [b ->]. fold c.
  pose proof (find_in_cache_layout segs id Hl) as Hf. fold c in Hf. destruct b; [done|].
  destruct (find_in_cache c id) as [e|]; [|done].
  destruct Hf as (s & -> & Hs & _). apply list_elem_of_lookup_1 in Hs as [i Hi].
  rewrite (bool_decide_true); [done|]. simpl.
  by rewrite (so_file _ (Forall_lookup_1 _ _ _ _ (sl_ok _ Hl) Hi)).
Qed.

Lemma read_layout segs keys m id :
  shard_layout segs -> m = manifest_new \/ m = mkManifest (entry_of <$> segs) mtime ->
  (read readdir files idxs mtime keys m id).1 = Some (Ok (find_rec id (view_rec <$> all_views segs))).
Proof.
  intros Hl Hm. unfold read. rewrite (find_layout segs) by done.
  pose proof (find_in_cache_layout segs id Hl) as Hf. set (c := mkManifest _ _) in *.
  destruct (find_in_cache c id) as [e|]; [|by rewrite Hf].
  destruct Hf as (s & -> & Hs & ->). apply list_elem_of_lookup_1 in Hs as [i Hi].
  pose proof (Forall_lookup_1 _ _ _ _ (sl_ok _ Hl) Hi) as Hok. simpl. rewrite (so_file _ Hok).
  pose proof (so_raw _ Hok) as Hraw. unfold start_offset. rewrite Hraw.
  unfold framed_entry in Hraw. apply orb_false_iff in Hraw as [H1 H2]. simpl in *. rewrite H1, H2.
  rewrite read_raw_segment; [done|apply Hok|apply Hok| |apply Hok].
  pose proof (sl_views _ Hl) as Hs. rewrite <- (take_drop_middle segs i s Hi), all_views_app in Hs.
  apply ascending_app in Hs as (_ & Hs & _). by apply (ascending_app (sg_views s)) in Hs as (? & _).
Qed.

(** A point read returns the record that was appended.  In a shard
    directory of raw segments whose base sequences lie above all earlier records
    and whose index files, if any, are valid, reading an id through a fresh or a
    cached manifest returns the record with that id, whatever segment holds it
    and wherever the index anchors the scan, and nothing when no segment holds
    it. *)
Theorem read_returns_record segs keys m :
  shard_layout segs -> m = manifest_new \/ m = mkManifest (entry_of <$> segs) mtime ->
  (forall v, v ∈ all_views segs ->
     (read readdir files idxs mtime keys m (rv_record_id v)).1 = Some (Ok (Some (view_rec v)))) /\
  (forall id, (forall v, v ∈ all_views segs -> rv_record_id v <> id) ->
     (read readdir files idxs mtime keys m id).1 = Some (Ok None)).
Proof.
  intros Hl Hm. split.
  - intros v Hv. rewrite (read_layout segs) by done. by rewrite (find_rec_elem _ v (sl_views _ Hl) Hv).
  - intros id Hne. rewrite (read_layout segs) by done. by rewrite find_rec_absent.
Qed.
End layout.

(** ** Append, then read *)

Lemma index_valid_entries vs idx idx' :
  entries idx' = entries idx -> index_valid vs idx -> index_valid vs idx'.
Proof. intros He [Hs Hp]. split; unfold index_sorted; rewrite ?He; done. Qed.

(** C6: what a batch appends can be read back.  A raw active segment holds its
    header and the records [vs], and its in-memory index is valid for them;
    after [append_batch] wrote the records [fs] the file holds the header and
    [vs ++ fs], the index is valid for all of them, and a point read that starts
    at the anchor the index gives returns every one of the records. *)
Theorem appended_records_read_back ring from to m w hd vs keys :
  let batch := slot_views (Z.to_nat (to + 1 - from)) ring from in
  let fs := fit (sm_segment_size m - as_offset (active m)) batch in
  faults w = [] -> framed m = false -> blen hd = SEGMENT_HEADER_SIZE ->
  mgr_at m w (hd ++ encoded vs) [] ->
  (prepared_segment m = None -> files w !! (active_id m + 1) = None) ->
  Forall view_wf (vs ++ batch) -> ascending (vs ++ fs) -> fs <> [] ->
  (forall i, active_index m = Some i -> index_valid vs i) ->
  exists m' w', append_batch ring from to (m, w) = (Ok (from + Z.of_nat (length fs) - 1), (m', w')) /\
    files w' !! active_id m' = Some (hd ++ encoded (vs ++ fs)) /\
    (forall i, active_index m' = Some i -> index_valid (vs ++ fs) i) /\
    forall v, v ∈ vs ++ fs ->
      read_from_open_file (hd ++ encoded (vs ++ fs)) false false keys
        (anchor_offset (active_index m') (rv_record_id v)) (rv_record_id v) = Some (Some (view_rec v)).
Proof.
  intros batch fs Hf Hfr Hhd Hat Hprep Hwf Hs Hne Hi.
  assert (Forall view_wf (vs ++ fs)) as Hwf'.
  { apply Forall_app in Hwf as [Hwf1 Hwf2]. apply Forall_app. split; [done|].
    destruct (fit_prefix (sm_segment_size m - as_offset (active m)) batch) as [k Hk].
    rewrite Hk in Hwf2. by apply Forall_app in Hwf2 as [? _]. }
  destruct (append_batch_raw ring from to m w (hd ++ encoded vs) [] Hf Hfr Hat Hprep) as
    (m' & w' & Happ & Hat' & Hid & _ & _ & _ & Hent).
  { apply view_hashes_ok. by apply Forall_app in Hwf as [_ ?]. }
  { done. }
  fold batch in Happ, Hat', Hent. fold fs in Happ, Hat', Hent.
  assert (forall i, active_index m' = Some i -> index_valid (vs ++ fs) i) as Hidx.
  { intros i Hi'. rewrite Hi' in Hent. simpl in Hent.
    destruct (active_index (index_views (as_offset (active m)) fs m)) as [j|] eqn:Hj; [|done].
    simpl in Hent. injection Hent as Hent. apply (index_valid_entries _ j); [done|].
    eapply (index_views_valid fs vs m); [by apply view_hashes_ok|done|done|].
    rewrite <- Hj. f_equal. f_equal. rewrite (ma_offset _ _ _ _ Hat). len. }
  exists m', w'. split; [exact Happ|]. split; [|split; [exact Hidx|]].
  - rewrite (ma_file _ _ _ _ Hat'), drop_nil, app_nil_r. by rewrite <- app_assoc, encoded_app.
  - intros v Hv. rewrite read_raw_segment by done. by rewrite find_rec_elem.
Qed.
End readback.

(** ** Concrete runs *)

Section readback_demo.
#[local] Instance readback_demo_externals : Externals := toy.

Definition demo_first_hd : bytes := default [] (files (demo_state 640 KeepAll).2 !! 1).

Lemma appended_records_read_back_witness :
  let s := demo_state 640 KeepAll in
  exists m' w', append_batch (demo_slots 2) 0 1 s = (Ok 1, (m', w')) /\
    forall v, v ∈ slot_views 2 (demo_slots 2) 0 ->
      read_from_open_file (demo_first_hd ++ encoded (slot_views 2 (demo_slots 2) 0)) false false None
        (anchor_offset (active_index m') (rv_record_id v)) (rv_record_id v) = Some (Some (view_rec v)).
Proof.
  intros s. assert (s = (s.1, s.2)) as Hp by (by destruct s).
  destruct (appended_records_read_back (demo_slots 2) 0 1 s.1 s.2 demo_first_hd [] None)
    as (m' & w' & Happ & _ & _ & Hread).
  - reflexivity.
  - reflexivity.
  - vm_compute. reflexivity.
  - split; vm_compute; reflexivity.
  - intros _. vm_compute. reflexivity.
  - repeat (constructor; [split; vm_compute; first [reflexivity|split; [discriminate|reflexivity]]|]).
    constructor.
  - vm_compute. repeat constructor.
  - vm_compute. discriminate.
  - intros i Hi. vm_compute in Hi. injection Hi as <-. split; [constructor|]. intros e He. exfalso. exact (not_elem_of_nil e He).
  - exists m', w'. rewrite Hp. split; [exact Happ|exact Hread].
Defined.

(** Two segments: records 0 and 1, then record 2. *)
Definition demo_segs : list Seg :=
  [mkSeg 1 (demo_hd 0 1) 0 FLAG_HASH_ENABLED (take 2 (demo_views 3));
   mkSeg 2 (demo_hd 2 2) 2 FLAG_HASH_ENABLED (drop 2 (demo_views 3))].

Definition demo_files : gmap Z bytes :=
  <[1 := demo_hd 0 1 ++ encoded (take 2 (demo_views 3))]> {[2 := demo_hd 2 2 ++ encoded (drop 2 (demo_views 3))]}.

Ltac demo_view := split; vm_compute; first [reflexivity|split; [discriminate|reflexivity]].

Lemma demo_seg_ok base seg vs :
  demo_files !! seg = Some (demo_hd base seg ++ encoded vs) ->
  deserialize (demo_hd base seg) = Ok (demo_header base seg) ->
  Forall view_wf vs -> Forall (fun v => base <= rv_record_id v) vs ->
  seg_ok demo_files ∅ (mkSeg seg (demo_hd base seg) base FLAG_HASH_ENABLED vs).
Proof.
  intros Hf Hd Hwf Hb. split; cbn [sg_id sg_hd sg_base sg_flags sg_views];
    [exact Hf|apply length_header| |reflexivity|exact Hwf|exact Hb|].
  - exists (demo_header base seg). split; [exact Hd|]. split; reflexivity.
  - intros i Hi. unfold load_index in Hi. rewrite lookup_empty in Hi. discriminate Hi.
Qed.

Lemma demo_layout : shard_layout demo_readdir demo_files ∅ demo_segs.
Proof.
  split.
  - assert (demo_readdir demo_files = [2; 1]) as -> by (vm_compute; reflexivity). apply perm_swap.
  - repeat constructor.
  - constructor; [|constructor; [|constructor]].
    + apply demo_seg_ok; [vm_compute; reflexivity|vm_compute; reflexivity| |].
      * constructor; [demo_view|constructor; [demo_view|constructor]].
      * constructor; [|constructor; [|constructor]]; vm_compute; discriminate.
    + apply demo_seg_ok; [vm_compute; reflexivity|vm_compute; reflexivity| |].
      * constructor; [demo_view|constructor].
      * constructor; [|constructor]; vm_compute; discriminate.
  - vm_compute. repeat constructor.
  - constructor; [repeat constructor|]. constructor; [|constructor].
    split; [vm_compute; discriminate|]. vm_compute. repeat constructor.
Qed.

Lemma read_returns_record_witness :
  (read demo_readdir demo_files ∅ (Some 0) None manifest_new 1).1 =
    Some (Ok (Some (mkRec (mkRecordId 0 1) 7 [Byte.x61] (rv_hash_n (List.nth 1 (demo_views 3) (mkReadView 0 0 [] [])))))) /\
  (read demo_readdir demo_files ∅ (Some 0) None manifest_new 3).1 = Some (Ok None).
Proof.
  destruct (read_returns_record demo_readdir demo_files ∅ (Some 0) demo_segs None manifest_new demo_layout
    (or_introl eq_refl)) as [Hin Hout]. split.
  - apply (Hin (List.nth 1 (demo_views 3) (mkReadView 0 0 [] []))). right. left.
  - apply Hout. intros v Hv. apply list_elem_of_lookup_1 in Hv as [i Hi].
    destruct i as [|[|[|i]]]; vm_compute in Hi; [injection Hi as <-; discriminate..|discriminate].
Defined.

(** A stale base sequence hides durable records.  Segment 2 is pre-allocated
    with base 7 while record 7 still goes to segment 1; after the roll record 7
    is in segment 1, but the manifest sends a read of id 7 to segment 2, and a
    scan from 7 starts there too: the record is not found. *)
Theorem stale_base_hides_record :
  let s := exec (append_batch (demo_slots 9) 8 8) (exec (roll demo_readdir 8 0) demo_eight) in
  exists f, files s.2 !! 1 = Some f /\
    (rec_seq <$> raw_list f 128) = [0; 1; 2; 3; 4; 5; 6; 7] /\
    (read demo_readdir (files s.2) ∅ (Some 0) None manifest_new 7).1 = Some (Ok None) /\
    (me_segment_id <$> (segments_from demo_readdir (files s.2) (Some 0) manifest_new 7).1) = [2].
Proof.
  eexists. split; [vm_compute; reflexivity|]. split; [vm_compute; reflexivity|].
  split; vm_compute; reflexivity.
Qed.

(** A damaged frame header panics the point reader.  The record loop tests
    [doff <= decoded.len()] before it reads four bytes at [doff]; a stored
    decompressed length above the real one makes it index past the end. *)
Theorem frame_length_panics_reader :
  let raw := encoded (demo_views 1) in
  let f := serialize demo_zheader (zeros 32) ++ write_frame_header (1 + blen raw) (blen raw + 60) ++
           Byte.x5a :: raw in
  read_from_open_file f true false None SEGMENT_HEADER_SIZE 5 = None.
Proof. vm_compute. reflexivity. Qed.
End readback_demo.
