(* ===== verification/Scan.v ===== *)
(** * Cross-segment and cross-shard scans ([logdb/src/reader/scan.rs])

    [ShardScanner] chains the record iterators of the segments of one shard;
    [MergeIter] merges the scanners of several shards with a heap of their next
    ids.  What the merge needs of a scanner is the class [Stream]. *)
From stdpp Require Import base gmap list numbers sorting.
From coqutil Require Import Byte.
From Stdlib Require Import ZArith Lia.
From S2P Require Import Prelude Externals RustStd Format Index Config Ring KeyRing FileSys Storage.
From S2P Require Import Frame Recovery Reader ChunkIter ReadBack.
Open Scope Z_scope.

(** ** Streams of records *)

(** An iterator: one call of [next]. *)
Class Stream (S : Type) := stream_next : S -> option (result ReadError Rec) * S.

(** An iterator that meets no I/O error yields a fixed list. *)
Class StreamLaws (S : Type) `{Stream S} := {
  good : S -> Prop;
  yields : S -> list Rec;
  next_good s : good s -> good (stream_next s).2;
  next_yields s : good s ->
    match yields s with
    | [] => (stream_next s).1 = None /\ yields (stream_next s).2 = []
    | r :: rs => (stream_next s).1 = Some (Ok r) /\ yields (stream_next s).2 = rs
    end;
}.

(** ** The merge *)

Section merge.
Context {S : Type} `{Stream S}.

Record MergeIter := mkMerge {
  scanners : list S;
  peeked : list (option Rec);
  pending_err : option ReadError;
  heap : list (Z * nat);
}.

(** The order of the heap's entries. *)
Definition entry_le (a b : Z * nat) : bool :=
  (a.1 <? b.1) || ((a.1 =? b.1) && (a.2 <=? b.2)%nat).

(** [BinaryHeap<Reverse<(u64, usize)>>::pop]: the least entry and the others. *)
Fixpoint heap_pop (h : list (Z * nat)) : option ((Z * nat) * list (Z * nat)) :=
  match h with
  | [] => None
  | x :: h =>
      match heap_pop h with
      | None => Some (x, [])
      | Some (y, h') => if entry_le x y then Some (x, h) else Some (y, x :: h')
      end
  end.

(** [MergeIter::refill]. *)
Definition refill_scanner (i : nat) (m : MergeIter) : MergeIter :=
  match scanners m !! i with
  | None => m
  | Some s =>
      let '(item, s) := stream_next s in
      let scs := <[i := s]> (scanners m) in
      match item with
      | Some (Ok r) =>
          mkMerge scs (<[i := Some r]> (peeked m)) (pending_err m) ((rec_seq r, i) :: heap m)
      | Some (Err e) =>
          mkMerge scs (<[i := None]> (peeked m))
            (match pending_err m with None => Some e | err => err end) (heap m)
      | None => mkMerge scs (<[i := None]> (peeked m)) (pending_err m) (heap m)
      end
  end.

(** [MergeIter::new]. *)
Definition merge_new (scs : list S) : MergeIter :=
  let n := length scs in
  foldl (fun m i => refill_scanner i m) (mkMerge scs (replicate n None) None []) (seq 0 n).

(** [MergeIter::next]; [None] is the panic on a heap entry without a peeked
    record. *)
Definition merge_next (m : MergeIter) : option (option (result ReadError Rec) * MergeIter) :=
  match heap_pop (heap m) with
  | Some ((_, i), h) =>
      r ← peeked m !! i ≫= (fun p => p);
      Some (Some (Ok r), refill_scanner i
              (mkMerge (scanners m) (<[i := None]> (peeked m)) (pending_err m) h))
  | None =>
      Some (Err <$> pending_err m, mkMerge (scanners m) (peeked m) None (heap m))
  end.

Fixpoint merge_collect (n : nat) (m : MergeIter) : list Rec :=
  match n with
  | O => []
  | Datatypes.S n =>
      match merge_next m with
      | Some (Some (Ok r), m) => r :: merge_collect n m
      | _ => []
      end
  end.

(** ** The heap *)

Lemma heap_pop_spec h :
  match heap_pop h with
  | None => h = []
  | Some (x, h') => h ≡ₚ x :: h' /\ Forall (fun y => x.1 <= y.1) h'
  end.
Proof.
  induction h as [|x h IH]; simpl; [done|].
  destruct (heap_pop h) as [[y h']|]; [|subst h; split; [done|constructor]].
  destruct IH as [Hp Hall]. destruct (entry_le x y) eqn:Hle.
  - split; [done|]. rewrite Hp. unfold entry_le in Hle.
    apply orb_true_iff in Hle as [Hle%Z.ltb_lt|[Hle%Z.eqb_eq _]%andb_true_iff];
      (constructor; [lia|]; eapply Forall_impl; [exact Hall|simpl; lia]).
  - split; [etransitivity; [apply perm_skip, Hp|apply perm_swap]|]. constructor; [|done]. unfold entry_le in Hle.
    apply orb_false_iff in Hle as [Hle%Z.ltb_ge _]. lia.
Qed.

Lemma heap_pop_le h x h' : heap_pop h = Some (x, h') -> forall y, y ∈ h -> x.1 <= y.1.
Proof.
  intros Hp y Hy. pose proof (heap_pop_spec h) as Hs. rewrite Hp in Hs. destruct Hs as [Hperm Hall].
  rewrite Hperm in Hy. apply elem_of_cons in Hy as [->|Hy]; [lia|].
  apply list_elem_of_lookup_1 in Hy as [i Hi]. exact (Forall_lookup_1 _ _ _ _ Hall Hi).
Qed.

(** ** What the merge yields *)

Context `{!StreamLaws S}.

(** What is left of each shard: the peeked record and the rest of its
    scanner. *)
Definition streams (m : MergeIter) : list (list Rec) :=
  zip_with (fun p s => option_list p ++ yields s) (peeked m) (scanners m).

Definition rec_le (a b : Rec) : Prop := rec_seq a <= rec_seq b.

(** A peeked record has its heap entry, and a scanner in [P] without one is
    empty. *)
Record merge_inv (P : nat -> Prop) (m : MergeIter) : Prop := {
  mi_len : length (peeked m) = length (scanners m);
  mi_empty : forall i s, P i -> peeked m !! i = Some None -> scanners m !! i = Some s -> yields s = [];
  mi_heap : forall g i, (g, i) ∈ heap m -> exists r, peeked m !! i = Some (Some r) /\ g = rec_seq r;
  mi_peeked : forall i r, peeked m !! i = Some (Some r) -> (rec_seq r, i) ∈ heap m;
  mi_once : NoDup ((heap m).*2);
  mi_err : pending_err m = None;
  mi_good : Forall good (scanners m);
}.

Lemma streams_lookup m i l :
  streams m !! i = Some l <->
  exists p s, peeked m !! i = Some p /\ scanners m !! i = Some s /\ l = option_list p ++ yields s.
Proof.
  unfold streams. rewrite lookup_zip_with_Some. split; intros (p & s & ?); exists p, s; intuition.
Qed.

Lemma concat_insert (L : list (list Rec)) i r ys :
  L !! i = Some (r :: ys) -> concat L ≡ₚ r :: concat (<[i := ys]> L).
Proof.
  intros Hi. rewrite <- (take_drop_middle L i _ Hi) at 1.
  rewrite insert_take_drop by (by eapply lookup_lt_Some).
  rewrite !concat_app. cbn [concat app]. symmetry. apply Permutation_middle.
Qed.

(** Refilling a shard without a peeked record leaves what is to come. *)
Lemma refill_scanner_spec P i m :
  merge_inv P m -> peeked m !! i = Some None ->
  merge_inv (fun j => P j \/ j = i) (refill_scanner i m) /\ streams (refill_scanner i m) = streams m.
Proof.
  intros [Hlen Hemp Hheap Hpeek Honce Herr Hgood] Hi. unfold refill_scanner.
  destruct (lookup_lt_is_Some_2 (scanners m) i) as [s Hs].
  { rewrite <- Hlen. by eapply lookup_lt_Some. }
  assert (i < length (peeked m))%nat as Hlt by (by eapply lookup_lt_Some).
  assert (i < length (scanners m))%nat as Hlt' by lia.
  rewrite Hs. pose proof (Forall_lookup_1 _ _ _ _ Hgood Hs) as Hgs.
  pose proof (next_yields s Hgs) as Hn. apply next_good in Hgs. destruct (stream_next s) as [item s'].
  apply (Forall_insert _ _ i _ Hgood) in Hgs.
  assert (forall p, option_list p ++ yields s' = yields s ->
    zip_with (fun p s => option_list p ++ yields s) (<[i := p]> (peeked m)) (<[i := s']> (scanners m)) = streams m) as Hst.
  { intros p Hp. unfold streams. rewrite <- insert_zip_with. apply list_insert_id.
    rewrite lookup_zip_with_Some. exists None, s. by rewrite Hp. }
  destruct (yields s) as [|r ys] eqn:Hy; simpl in Hn; destruct Hn as [-> Hy'].
  - split; [|apply Hst; by rewrite Hy']. split; simpl; [by rewrite !length_insert| | | |done|done|done].
    + intros j t HP. destruct (decide (j = i)) as [->|Hne].
      * rewrite !list_lookup_insert_eq by done. by intros _ [= <-].
      * rewrite !list_lookup_insert_ne by done. intros. apply (Hemp j); [by destruct HP|done|done].
    + intros g j Hg. destruct (Hheap g j Hg) as (r & Hr & ->). exists r.
      rewrite list_lookup_insert_ne; [done|]. intros ->. congruence.
    + intros j r. destruct (decide (j = i)) as [->|Hne]; [by rewrite list_lookup_insert_eq|].
      rewrite list_lookup_insert_ne by done. apply Hpeek.
  - split; [|apply Hst; simpl; by rewrite Hy']. split; simpl; [by rewrite !length_insert| | | | |done|done].
    + intros j t HP. destruct (decide (j = i)) as [->|Hne]; [by rewrite list_lookup_insert_eq|].
      rewrite !list_lookup_insert_ne by done. intros. apply (Hemp j); [by destruct HP|done|done].
    + intros g j [[= -> ->]|Hg]%elem_of_cons.
      { exists r. by rewrite list_lookup_insert_eq. }
      destruct (Hheap g j Hg) as (r' & Hr & ->). exists r'.
      rewrite list_lookup_insert_ne; [done|]. intros ->. congruence.
    + intros j r'. destruct (decide (j = i)) as [->|Hne].
      * rewrite list_lookup_insert_eq by done. intros [= <-]. left.
      * rewrite list_lookup_insert_ne by done. intros Hj. right. by apply Hpeek.
    + constructor; [|done]. intros Hin. apply list_elem_of_fmap in Hin as ([g j] & Hj & Hg). simpl in Hj. subst j.
      destruct (Hheap g i Hg) as (r' & Hr & _). congruence.
Qed.

(** Taking the least entry out of the heap. *)
Lemma pop_spec P m g i h :
  merge_inv P m -> heap_pop (heap m) = Some ((g, i), h) ->
  exists r s, peeked m !! i = Some (Some r) /\ scanners m !! i = Some s /\ g = rec_seq r /\
    let m' := mkMerge (scanners m) (<[i := None]> (peeked m)) (pending_err m) h in
    merge_inv (fun j => P j /\ j <> i) m' /\ peeked m' !! i = Some None /\
    streams m' = <[i := yields s]> (streams m).
Proof.
  intros [Hlen Hemp Hheap Hpeek Honce Herr Hgood] Hpop. pose proof (heap_pop_spec (heap m)) as Hp. rewrite Hpop in Hp.
  destruct Hp as [Hperm _]. destruct (Hheap g i) as (r & Hr & ->); [rewrite Hperm; left|].
  assert (i < length (peeked m))%nat as Hlt by (by eapply lookup_lt_Some).
  destruct (lookup_lt_is_Some_2 (scanners m) i) as [s Hs]; [lia|].
  rewrite Hperm in Honce. csimpl in Honce. apply NoDup_cons in Honce as [Hnot Honce].
  assert (forall g', (g', i) ∉ h) as Hno.
  { intros g' Hin. apply Hnot, list_elem_of_fmap. by exists (g', i). }
  exists r, s. split; [done|]. split; [done|]. split; [done|]. split; [|split].
  - split; simpl; [by rewrite length_insert| | | |done|done|done].
    + intros j t [HP Hne]. rewrite list_lookup_insert_ne by done. by apply Hemp.
    + intros g' j Hj. destruct (Hheap g' j) as (r' & Hr' & ->); [rewrite Hperm; by right|]. exists r'.
      rewrite list_lookup_insert_ne; [done|]. intros ->. by eapply Hno.
    + intros j r'. destruct (decide (j = i)) as [->|Hne]; [by rewrite list_lookup_insert_eq|].
      rewrite list_lookup_insert_ne by done. intros Hj. apply Hpeek in Hj. rewrite Hperm in Hj.
      apply elem_of_cons in Hj as [[= ? ?]|?]; [congruence|done].
  - simpl. by rewrite list_lookup_insert_eq.
  - unfold streams. simpl. rewrite <- (list_insert_id (scanners m) i s Hs) at 1.
    by rewrite <- insert_zip_with.
Qed.

Lemma merge_inv_weaken P Q m : (forall i, Q i -> P i) -> merge_inv P m -> merge_inv Q m.
Proof. intros HPQ [H1 H2 H3 H4 H5 H6 H7]. split; [done| |done..]. intros i s Hi. by apply H2, HPQ. Qed.

(** One call of [next]: the least of all remaining records, or the end. *)
Lemma merge_next_spec m :
  merge_inv (fun _ => True) m -> Forall (StronglySorted rec_le) (streams m) ->
  (concat (streams m) = [] /\ exists m', merge_next m = Some (None, m')) \/
  exists r m', merge_next m = Some (Some (Ok r), m') /\ merge_inv (fun _ => True) m' /\
    Forall (StronglySorted rec_le) (streams m') /\
    concat (streams m) ≡ₚ r :: concat (streams m') /\ Forall (rec_le r) (concat (streams m')).
Proof.
  intros Hinv Hsort. unfold merge_next. destruct (heap_pop (heap m)) as [[[g i] h]|] eqn:Hpop.
  - right. destruct (pop_spec _ m g i h Hinv Hpop) as (r & s & Hr & Hs & -> & Hinv1 & Hi & Hst).
    rewrite Hr. simpl. set (m1 := mkMerge _ _ _ h) in *.
    destruct (refill_scanner_spec _ i m1 Hinv1 Hi) as [Hinv2 Hst2].
    exists r, (refill_scanner i m1). split; [done|]. split.
    { eapply merge_inv_weaken; [|exact Hinv2]. intros j _. destruct (decide (j = i)); auto. }
    assert (streams m !! i = Some (r :: yields s)) as Hm.
    { apply streams_lookup. by exists (Some r), s. }
    rewrite Hst2, Hst. pose proof (Forall_lookup_1 _ _ _ _ Hsort Hm) as Hri.
    split; [apply Forall_insert; [done|by apply StronglySorted_inv in Hri as [? _]]|].
    pose proof (concat_insert _ _ _ _ Hm) as Hperm. split; [done|].
    apply Forall_forall. intros x Hx. assert (x ∈ concat (streams m)) as Hx'.
    { rewrite Hperm. by right. }
    apply list_elem_of_In, in_concat in Hx' as (l & Hl & Hxl). apply list_elem_of_In in Hl, Hxl.
    apply list_elem_of_lookup_1 in Hl as [j Hj]. pose proof (Forall_lookup_1 _ _ _ _ Hsort Hj) as Hlj.
    apply streams_lookup in Hj as (p & t & Hp & Ht & ->).
    destruct p as [r'|]; simpl in *.
    2:{ rewrite (mi_empty _ _ Hinv j t) in Hxl by done. by apply not_elem_of_nil in Hxl. }
    pose proof (heap_pop_le _ _ _ Hpop _ (mi_peeked _ _ Hinv j r' Hp)) as Hle. simpl in Hle.
    apply StronglySorted_inv in Hlj as [_ Hall]. unfold rec_le in *.
    apply elem_of_cons in Hxl as [->|Hxl]; [done|].
    apply list_elem_of_lookup_1 in Hxl as [k Hk]. pose proof (Forall_lookup_1 _ _ _ _ Hall Hk) as Hk'.
    simpl in Hk'. lia.
  - left. pose proof (heap_pop_spec (heap m)) as Hh. rewrite Hpop in Hh. rewrite (mi_err _ _ Hinv). simpl.
    split; [|by eexists]. apply concat_nil_Forall, Forall_forall. intros l Hl.
    apply list_elem_of_lookup_1 in Hl as [j Hj]. apply streams_lookup in Hj as (p & t & Hp & Ht & ->).
    destruct p as [r|]; simpl.
    + apply (mi_peeked _ _ Hinv) in Hp. rewrite Hh in Hp. by apply not_elem_of_nil in Hp.
    + by apply (mi_empty _ _ Hinv j t).
Qed.

Lemma merge_collect_spec n m :
  merge_inv (fun _ => True) m -> Forall (StronglySorted rec_le) (streams m) ->
  (length (concat (streams m)) <= n)%nat ->
  merge_collect n m ≡ₚ concat (streams m) /\ StronglySorted rec_le (merge_collect n m).
Proof.
  revert m. induction n as [|n IH]; intros m Hinv Hs Hn.
  { destruct (concat (streams m)); simpl in *; [|lia]. split; [done|constructor]. }
  cbn [merge_collect].
  destruct (merge_next_spec m Hinv Hs) as [[-> [m' ->]]|(r & m' & -> & Hinv' & Hs' & Hp & Hle)].
  { split; [done|constructor]. }
  destruct (IH m' Hinv' Hs') as [IH1 IH2]; [rewrite Hp in Hn; simpl in Hn; lia|].
  split; [etransitivity; [apply perm_skip, IH1|by symmetry]|].
  constructor; [done|]. by rewrite IH1.
Qed.

Lemma refill_peeked_ne i j m : i <> j -> peeked (refill_scanner i m) !! j = peeked m !! j.
Proof.
  intros Hne. unfold refill_scanner. destruct (scanners m !! i) as [s|]; [|done].
  destruct (stream_next s) as [[[r|e]|] s']; simpl; by rewrite list_lookup_insert_ne.
Qed.

(** Priming the scanners from [k] on. *)
Lemma refill_all n k m :
  merge_inv (fun j => (j < k)%nat) m ->
  (forall j, (k <= j < k + n)%nat -> peeked m !! j = Some None) ->
  let m' := foldl (fun m i => refill_scanner i m) m (seq k n) in
  merge_inv (fun j => (j < k + n)%nat) m' /\ streams m' = streams m.
Proof.
  revert k m. induction n as [|n IH]; intros k m Hinv Hp; simpl.
  { by rewrite Nat.add_0_r. }
  destruct (refill_scanner_spec _ k m Hinv (Hp k ltac:(lia))) as [Hinv1 Hst1].
  destruct (IH (Datatypes.S k) (refill_scanner k m)) as [Hinv2 Hst2].
  - eapply merge_inv_weaken; [|exact Hinv1]. simpl. lia.
  - intros j Hj. rewrite refill_peeked_ne by lia. apply Hp. lia.
  - rewrite Hst1 in Hst2. split; [|done]. eapply merge_inv_weaken; [|exact Hinv2]. simpl. lia.
Qed.

Lemma merge_new_spec scs :
  Forall good scs -> merge_inv (fun j => (j < length scs)%nat) (merge_new scs) /\
  streams (merge_new scs) = yields <$> scs.
Proof.
  intros Hg. unfold merge_new. set (m0 := mkMerge _ _ _ _).
  destruct (refill_all (length scs) 0 m0) as [Hinv Hst].
  - split; simpl; [apply length_replicate|lia| | |constructor|done|done].
    + intros g i Hin. by apply not_elem_of_nil in Hin.
    + intros i r. rewrite lookup_replicate. by intros [? _].
  - intros j Hj. simpl. by rewrite lookup_replicate_2 by lia.
  - split; [exact Hinv|]. rewrite Hst. unfold streams. simpl. clear. induction scs as [|s scs IH]; csimpl; [done|].
    by rewrite IH.
Qed.

Lemma merge_sorted scs n :
  Forall good scs -> Forall (StronglySorted rec_le) (yields <$> scs) ->
  (length (concat (yields <$> scs)) <= n)%nat ->
  merge_collect n (merge_new scs) ≡ₚ concat (yields <$> scs) /\
  StronglySorted rec_le (merge_collect n (merge_new scs)).
Proof.
  intros Hg Hs Hn. destruct (merge_new_spec scs Hg) as [Hinv Hst].
  assert (length (streams (merge_new scs)) = length scs) as Hlen by (by rewrite Hst, length_fmap).
  rewrite <- Hst in *. apply merge_collect_spec; [|done|done].
  destruct Hinv as [H1 Hemp H3 H4 H5 H6 H7]. split; [done| |done..].
  intros i s _ Hp Hi. apply (Hemp i); [|done|done].
  rewrite <- Hlen. eapply lookup_lt_Some, streams_lookup. by exists None, s.
Qed.

(** The merge of the shards is their sorted union.  When every scanner
    yields its records in ascending id order, the merge terminates after all of
    them, never hits a heap entry without a record, yields every record of every
    scanner exactly once, and yields them in ascending global id order. *)
Theorem merge_yields_sorted_union scs n :
  Forall good scs -> Forall (StronglySorted rec_le) (yields <$> scs) ->
  (length (concat (yields <$> scs)) <= n)%nat ->
  merge_collect n (merge_new scs) ≡ₚ concat (yields <$> scs) /\
  StronglySorted rec_le (merge_collect n (merge_new scs)).
Proof. apply merge_sorted. Qed.
End merge.

Arguments MergeIter : clear implicits.

(** ** The scanner of one shard *)

(** A scanner with the directory it reads. *)
Record ShardScanner := mkScanner {
  sn_files : gmap Z bytes;
  sn_idxs : gmap Z bytes;
  sn_segments : list ManifestEntry;
  sn_cur : option RecordIter;
}.

Section scanner.
Context `{Externals}.

(** The key ring and the id range of the scan; short reads. *)
Variables (key : option KeyRing) (from_id to_id : Z) (short : Z -> Z -> Z).

Section directory.
Variables (files idxs : gmap Z bytes).

(** [iter_for_segment]. *)
Definition iter_for_segment (e : ManifestEntry) : result ReadError RecordIter :=
  match files !! me_segment_id e with
  | None => Err ReadIo
  | Some f =>
      Ok (iter_new f (start_offset idxs e from_id) from_id to_id
            (has_flag (me_flags e) FLAG_COMPRESSED_ZSTD)
            (has_flag (me_flags e) FLAG_ENCRYPTED_AES256GCM) key (blen f))
  end.

(** [load_next_segment]: the next iterator and the segments behind it. *)
Fixpoint load_next_segment (segments : list ManifestEntry) : option RecordIter * list ManifestEntry :=
  match segments with
  | [] => (None, [])
  | e :: segments =>
      if to_id <=? me_base_sequence e then (None, segments)
      else
        match iter_for_segment e with
        | Ok it => (Some it, segments)
        | Err _ => load_next_segment segments
        end
  end.

Definition segment_range (e : ManifestEntry) : list Rec :=
  match files !! me_segment_id e with
  | Some f => range from_id to_id (raw_list f (start_offset idxs e from_id))
  | None => []
  end.

(** What the segments still to be loaded contribute. *)
Fixpoint segments_range (segments : list ManifestEntry) : list Rec :=
  match segments with
  | [] => []
  | e :: segments =>
      if to_id <=? me_base_sequence e then [] else segment_range e ++ segments_range segments
  end.

Definition entry_good (e : ManifestEntry) : Prop :=
  framed_entry e = false /\
  forall f, files !! me_segment_id e = Some f -> 0 <= start_offset idxs e from_id <= blen f.
End directory.

(** The iterator's [next], when there is an iterator. *)
Definition cur_next (cur : option RecordIter) : option Rec * option RecordIter :=
  match cur with
  | None => (None, None)
  | Some it =>
      match next short it with
      | Some (r, it) => (r, Some it)
      | None => (None, Some it)
      end
  end.

(** The loop of [ShardScanner::next]: at most one round per segment. *)
Fixpoint scanner_next (fuel : nat) (sc : ShardScanner) : option Rec * ShardScanner :=
  match cur_next (sn_cur sc) with
  | (Some r, cur) => (Some r, mkScanner (sn_files sc) (sn_idxs sc) (sn_segments sc) cur)
  | (None, _) =>
      let '(cur, segments) := load_next_segment (sn_files sc) (sn_idxs sc) (sn_segments sc) in
      let sc := mkScanner (sn_files sc) (sn_idxs sc) segments cur in
      match fuel, cur with
      | S fuel, Some _ => scanner_next fuel sc
      | _, _ => (None, sc)
      end
  end.

Definition scanner_stream : Stream ShardScanner := fun sc =>
  let '(r, sc) := scanner_next (length (sn_segments sc)) sc in (Ok <$> r, sc).

(** ** What a scanner of raw segments yields *)

Definition iter_rest (cur : option RecordIter) : list Rec :=
  match cur with
  | Some it => if it_open it then range from_id to_id (raw_list (visible it) (position it)) else []
  | None => []
  end.

Definition scanner_yields (sc : ShardScanner) : list Rec :=
  iter_rest (sn_cur sc) ++ segments_range (sn_files sc) (sn_idxs sc) (sn_segments sc).

Definition iter_good (it : RecordIter) : Prop :=
  it_open it = true ->
  buf_ok it /\ it_compressed it = false /\ it_encrypted it = false /\
  it_from_id it = from_id /\ it_end_id it = to_id.

Definition bases_ascend (segments : list ManifestEntry) : Prop :=
  StronglySorted (fun a b => me_base_sequence a <= me_base_sequence b) segments.

Record scanner_good (sc : ShardScanner) : Prop := {
  sg_cur : forall it, sn_cur sc = Some it -> iter_good it;
  sg_segments : Forall (entry_good (sn_files sc) (sn_idxs sc)) (sn_segments sc);
  sg_ascending : bases_ascend (sn_segments sc);
}.

Lemma cur_next_spec cur :
  (forall it, cur = Some it -> iter_good it) ->
  let '(r, cur') := cur_next cur in
  (forall it, cur' = Some it -> iter_good it) /\
  match r with
  | None => iter_rest cur = [] /\ iter_rest cur' = []
  | Some rec => iter_rest cur = rec :: iter_rest cur'
  end.
Proof.
  intros Hg. destruct cur as [it|]; [|done]. cbn [cur_next iter_rest]. unfold next.
  destruct (it_open it) eqn:Ho; cbn [negb].
  2:{ cbn [iter_rest]. rewrite Ho. split; [|done]. intros it' [= <-]. by apply Hg. }
  destruct (Hg it eq_refl Ho) as (Hok & Hc & He & Hf & Ht). rewrite Hc, He. cbn [orb].
  destruct (next_raw_spec short (S (length (it_file it))) it Hok) as (r & it' & -> & Hs & Hr).
  { pose proof (position_range it Hok). destruct Hok. lia. }
  cbv beta zeta in Hr. rewrite Hf, Ht in Hr. cbn [iter_rest]. destruct r as [rec|].
  - destruct Hr as (Hok' & _ & ->). rewrite (bo_open _ Hok'), (visible_same _ _ Hs). split; [|done].
    intros it2 [= <-] _. destruct Hs as [_ _ E1 E2 [E3 E4]].
    split; [exact Hok'|]. by rewrite E1, E2, E3, E4.
  - destruct Hr as [Hr Hclosed]. rewrite Hclosed. split; [|done].
    intros it2 [= <-] Ho2. congruence.
Qed.

Lemma segments_range_above files idxs segments :
  Forall (fun e => to_id <= me_base_sequence e) segments -> segments_range files idxs segments = [].
Proof. destruct 1 as [|e l He _]; [done|]. simpl. by rewrite (proj2 (Z.leb_le _ _)). Qed.

Lemma load_next_segment_spec files idxs segments :
  Forall (entry_good files idxs) segments -> bases_ascend segments ->
  let '(cur, rest) := load_next_segment files idxs segments in
  (forall it, cur = Some it -> iter_good it) /\ Forall (entry_good files idxs) rest /\
  bases_ascend rest /\
  segments_range files idxs segments = iter_rest cur ++ segments_range files idxs rest /\
  (cur = None -> segments_range files idxs rest = []) /\
  (is_Some cur -> (length rest < length segments)%nat).
Proof.
  induction segments as [|e segments IH]; intros Hg Hs; simpl.
  { repeat split; try done; constructor. }
  apply StronglySorted_inv in Hs as [Hs Hall]. inversion Hg as [|? ? He Hg']; subst.
  destruct (Z.leb_spec to_id (me_base_sequence e)) as [Hle|Hlt].
  { assert (segments_range files idxs segments = []) as Hr.
    { apply segments_range_above. eapply Forall_impl; [exact Hall|]. simpl. lia. }
    split; [done|]. split; [done|]. split; [done|]. rewrite Hr. split; [done|]. split; [done|].
    by intros [? ?]. }
  unfold iter_for_segment, segment_range. destruct He as [Hraw Hoff].
  destruct (files !! me_segment_id e) as [f|] eqn:Hf.
  - specialize (Hoff f eq_refl). unfold framed_entry in Hraw. apply orb_false_iff in Hraw as [-> ->].
    set (it := iter_new _ _ _ _ _ _ _ _).
    assert (position it = start_offset idxs e from_id) as Hp by (unfold position; apply Z.add_0_r).
    split.
    { intros it' [= <-] _. split; [|repeat split; reflexivity].
      apply buf_ok_empty; [reflexivity|reflexivity|reflexivity|exact Hoff|].
      change (it_file_size it) with (blen f). change (it_file it) with f. lia. }
    split; [done|]. split; [done|]. split; [|split; [done|simpl; lia]].
    unfold iter_rest. change (it_open it) with true. cbn iota. rewrite Hp. unfold visible.
    change (it_file_size it) with (blen f). change (it_file it) with f. by rewrite take_ge by lia.
  - destruct (load_next_segment files idxs segments) as [cur rest]. destruct (IH Hg' Hs) as (H1 & H2 & H3 & H4 & H5 & H6).
    split; [done|]. split; [done|]. split; [done|]. split; [done|]. split; [done|].
    intros Hc. specialize (H6 Hc). lia.
Qed.

Lemma scanner_next_spec fuel sc :
  (length (sn_segments sc) <= fuel)%nat -> scanner_good sc ->
  let '(r, sc') := scanner_next fuel sc in
  scanner_good sc' /\
  match r with
  | None => scanner_yields sc = [] /\ scanner_yields sc' = []
  | Some rec => scanner_yields sc = rec :: scanner_yields sc'
  end.
Proof.
  revert sc. induction fuel as [|fuel IH]; intros [files idxs segments cur] Hlen [Hcur Hseg Hasc]; simpl in *;
    pose proof (cur_next_spec cur Hcur) as Hn; destruct (cur_next cur) as [[rec|] cur'];
    destruct Hn as [Hcur' Hr];
    try (split; [by split|]; unfold scanner_yields; simpl; by rewrite Hr);
    destruct Hr as [Hr _]; pose proof (load_next_segment_spec files idxs segments Hseg Hasc) as Hl;
    destruct (load_next_segment files idxs segments) as [cur2 rest]; destruct Hl as (H1 & H2 & H3 & H4 & H5 & H6).
  - destruct cur2 as [it|]; [specialize (H6 ltac:(by eexists)); lia|].
    split; [by split|]. unfold scanner_yields. simpl. rewrite Hr, H4. simpl. auto.
  - destruct cur2 as [it|].
    + specialize (IH (mkScanner files idxs rest (Some it))). specialize (H6 ltac:(by eexists)). simpl in IH.
      destruct (scanner_next fuel _) as [r sc']. destruct IH as [Hg Hy]; [lia|by split|].
      split; [done|]. unfold scanner_yields in *. simpl in *. by rewrite Hr, H4.
    + split; [by split|]. unfold scanner_yields. simpl. rewrite Hr, H4. simpl. auto.
Qed.

#[local] Existing Instance scanner_stream.

#[global] Program Instance scanner_laws : StreamLaws ShardScanner :=
  {| good := scanner_good; yields := scanner_yields |}.
Next Obligation.
  intros sc Hg. unfold stream_next, scanner_stream.
  pose proof (scanner_next_spec (length (sn_segments sc)) sc ltac:(lia) Hg) as Hs.
  destruct (scanner_next _ sc) as [r sc']. by destruct Hs.
Qed.
Next Obligation.
  intros sc Hg. unfold stream_next, scanner_stream.
  pose proof (scanner_next_spec (length (sn_segments sc)) sc ltac:(lia) Hg) as Hs.
  destruct (scanner_next _ sc) as [[rec|] sc']; destruct Hs as [_ Hs].
  - by rewrite Hs.
  - destruct Hs as [E1 E2]. rewrite E1. split; [done|exact E2].
Qed.

(** ** Scanning a shard directory *)

Lemma range_app_below vs rs :
  Forall (fun v => rv_record_id v < from_id) vs ->
  range from_id to_id ((view_rec <$> vs) ++ rs) = range from_id to_id rs.
Proof.
  induction 1 as [|v vs Hv _ IH]; [done|]. csimpl.
  change (rec_seq (view_rec v)) with (rv_record_id v). by rewrite (proj2 (Z.ltb_lt _ _)).
Qed.

Definition in_scan (v : ReadView) : Prop := from_id <= rv_record_id v < to_id.

#[global] Instance in_scan_dec v : Decision (in_scan v).
Proof. unfold in_scan. apply _. Defined.

Lemma filter_none vs : Forall (fun v => ~ in_scan v) vs -> filter in_scan vs = [].
Proof. induction 1 as [|v vs Hv _ IH]; [done|]. by rewrite filter_cons_False. Qed.

(** On ascending records the range is a filter. *)
Lemma range_filter vs :
  ascending vs -> range from_id to_id (view_rec <$> vs) = view_rec <$> filter in_scan vs.
Proof.
  induction vs as [|v vs IH]; intros Hs; [done|]. apply StronglySorted_inv in Hs as [Hs Hall].
  csimpl. change (rec_seq (view_rec v)) with (rv_record_id v).
  destruct (Z.ltb_spec (rv_record_id v) from_id).
  { rewrite filter_cons_False by (unfold in_scan; lia). by apply IH. }
  destruct (Z.leb_spec to_id (rv_record_id v)).
  - rewrite filter_none; [done|]. constructor; [unfold in_scan; lia|].
    eapply Forall_impl; [exact Hall|]. unfold in_scan. simpl. lia.
  - rewrite filter_cons_True by (unfold in_scan; lia). csimpl. by rewrite IH.
Qed.

Section shard.
Variable readdir : gmap Z bytes -> list Z.
Variables (files idxs : gmap Z bytes) (mtime : option Z).

(** [ShardScanner::new]. *)
Definition scanner_new (m : SegmentManifest) : ShardScanner * SegmentManifest :=
  let '(segments, m) := segments_from readdir files mtime m from_id in
  (mkScanner files idxs segments None, m).

Lemma seg_start s :
  seg_ok files idxs s -> ascending (sg_views s) ->
  exists pre post, sg_views s = pre ++ post /\ Forall (fun v => rv_record_id v < from_id) pre /\
    start_offset idxs (entry_of s) from_id = SEGMENT_HEADER_SIZE + blen (encoded pre).
Proof.
  intros Hok Hs. unfold start_offset. rewrite (so_raw _ _ _ Hok).
  apply anchor_split; [done|]. intros i Hi. by apply (so_index _ _ _ Hok).
Qed.

Lemma seg_entry_good s : seg_ok files idxs s -> ascending (sg_views s) -> entry_good files idxs (entry_of s).
Proof.
  intros Hok Hs. split; [apply Hok|]. intros f Hf. simpl in Hf. rewrite (so_file _ _ _ Hok) in Hf.
  injection Hf as <-. destruct (seg_start s Hok Hs) as (pre & post & Hv & _ & ->).
  pose proof (so_hd _ _ _ Hok). rewrite Hv, encoded_app. unfold SEGMENT_HEADER_SIZE in *. len.
Qed.

Lemma seg_range s :
  seg_ok files idxs s -> ascending (sg_views s) ->
  segment_range files idxs (entry_of s) = view_rec <$> filter in_scan (sg_views s).
Proof.
  intros Hok Hs. unfold segment_range. simpl. rewrite (so_file _ _ _ Hok).
  rewrite <- range_filter by done.
  destruct (seg_start s Hok Hs) as (pre & post & Hv & Hpre & ->). pose proof (so_wf _ _ _ Hok) as Hwf.
  rewrite Hv in Hwf |- *. apply Forall_app in Hwf as [_ Hwf].
  rewrite fmap_app, range_app_below by done. f_equal.
  rewrite encoded_app, app_assoc. pose proof (so_hd _ _ _ Hok).
  replace (SEGMENT_HEADER_SIZE + blen (encoded pre)) with (blen (sg_hd s ++ encoded pre)) by len.
  by apply raw_list_encoded.
Qed.

(** The segments of a list, the ones at or above [to_id] cut off. *)
Lemma segs_range segs :
  Forall (seg_ok files idxs) segs -> ascending (all_views segs) -> StronglySorted starts_above segs ->
  segments_range files idxs (entry_of <$> segs) = view_rec <$> filter in_scan (all_views segs).
Proof.
  induction segs as [|s segs IH]; intros Hok Hs Hb; [done|]. csimpl.
  inversion Hok as [|? ? Hs1 Hok']; subst.
  apply StronglySorted_inv in Hb as [Hb Hall].
  apply (ascending_app (sg_views s)) in Hs as (Hsv & Hs & _).
  unfold all_views. cbn [flat_map]. fold (all_views segs). rewrite filter_app, fmap_app.
  destruct (Z.leb_spec to_id (sg_base s)) as [Hle|Hlt].
  - rewrite !filter_none; [done| |].
    + apply Forall_all_views. apply Forall_lookup. intros i t Ht.
      pose proof (Forall_lookup_1 _ _ _ _ Hall Ht) as [Hbase _].
      pose proof (Forall_lookup_1 _ _ _ _ Hok' Ht) as Htok.
      eapply Forall_impl; [apply (so_base _ _ _ Htok)|]. unfold in_scan. simpl. lia.
    + eapply Forall_impl; [apply (so_base _ _ _ Hs1)|]. unfold in_scan. simpl. lia.
  - rewrite seg_range by done. by rewrite IH.
Qed.

Lemma layout_segment segs s : shard_layout readdir files idxs segs -> s ∈ segs -> ascending (sg_views s).
Proof.
  intros Hl Hs. apply list_elem_of_lookup_1 in Hs as [i Hi]. pose proof (sl_views _ _ _ _ Hl) as Hv.
  rewrite <- (take_drop_middle segs i s Hi), all_views_app in Hv.
  apply ascending_app in Hv as (_ & Hv & _). by apply (ascending_app (sg_views s)) in Hv as (? & _).
Qed.

Lemma sorted_drop {A} (R : A -> A -> Prop) k l : StronglySorted R l -> StronglySorted R (drop k l).
Proof.
  intros Hs. revert k. induction Hs as [|x l Hs IH Hx]; intros [|k]; simpl; [constructor..| |apply IH].
  by constructor.
Qed.

Lemma entries_ascend segs : StronglySorted starts_above segs -> bases_ascend (entry_of <$> segs).
Proof.
  induction 1 as [|s segs _ IH Hall]; csimpl; constructor; [exact IH|].
  apply Forall_fmap. eapply Forall_impl; [exact Hall|]. by intros t [? _].
Qed.

Lemma below_start segs :
  shard_layout readdir files idxs segs ->
  let k := Nat.pred (partition_point (fun e => me_base_sequence e <=? from_id) (entry_of <$> segs)) in
  Forall (fun v => rv_record_id v < from_id) (all_views (take k segs)).
Proof.
  intros Hl. destruct (layout_partition readdir files idxs segs from_id Hl) as (Hlen & Hlow & _).
  destruct (partition_point _ _) as [|k]; simpl; [constructor|].
  destruct (lookup_lt_is_Some_2 segs k Hlen) as [s Hk]. specialize (Hlow k s ltac:(lia) Hk).
  destruct (sorted_middle starts_above (take k segs) s (drop (S k) segs)) as [Hpre _].
  { rewrite take_drop_middle by done. apply (sl_below _ _ _ _ Hl). }
  apply Forall_all_views. eapply Forall_impl; [exact Hpre|]. intros t [_ Ht].
  eapply Forall_impl; [exact Ht|]. simpl. lia.
Qed.

(** The scanner of a shard directory is well-formed and yields the records of
    the range, in order. *)
Lemma scanner_new_spec segs m :
  shard_layout readdir files idxs segs -> m = manifest_new \/ m = mkManifest (entry_of <$> segs) mtime ->
  scanner_good (scanner_new m).1 /\
  scanner_yields (scanner_new m).1 = view_rec <$> filter in_scan (all_views segs).
Proof.
  intros Hl Hm. unfold scanner_new, segments_from.
  destruct (refresh_layout readdir files idxs mtime segs m Hl Hm) as [b ->]. simpl.
  pose proof (below_start segs Hl) as Hlow. cbv zeta in Hlow. set (k := Nat.pred _) in *.
  rewrite <- fmap_drop.
  assert (all_views segs = all_views (take k segs) ++ all_views (drop k segs)) as Hsplit.
  { by rewrite <- all_views_app, take_drop. }
  pose proof (sl_views _ _ _ _ Hl) as Hviews. rewrite Hsplit in Hviews.
  apply ascending_app in Hviews as (_ & Hviews & _).
  pose proof (Forall_drop _ k _ (sl_ok _ _ _ _ Hl)) as Hok.
  pose proof (sorted_drop _ k _ (sl_below _ _ _ _ Hl)) as Hb.
  split.
  - split; simpl; [done| |by apply entries_ascend].
    apply Forall_fmap, Forall_lookup. intros i s Hs. apply seg_entry_good.
    + exact (Forall_lookup_1 _ _ _ _ Hok Hs).
    + apply (layout_segment segs); [done|]. rewrite lookup_drop in Hs. by eapply list_elem_of_lookup_2.
  - unfold scanner_yields. simpl. rewrite segs_range by done. rewrite Hsplit, filter_app, fmap_app.
    rewrite (filter_none (all_views (take k segs))); [done|].
    eapply Forall_impl; [exact Hlow|]. unfold in_scan. simpl. lia.
Qed.
End shard.

(** ** [ScanIter] *)

Inductive ScanIter := ScanOne (sc : ShardScanner) | ScanMerge (m : MergeIter ShardScanner).

(** A shard: its segment and index files, the directory time and the cached
    manifest. *)
Record ShardDir := mkShardDir {
  sd_files : gmap Z bytes;
  sd_idxs : gmap Z bytes;
  sd_mtime : option Z;
  sd_manifest : SegmentManifest;
}.

Variable readdir : gmap Z bytes -> list Z.

Definition dir_scanner (d : ShardDir) : ShardScanner :=
  (scanner_new readdir (sd_files d) (sd_idxs d) (sd_mtime d) (sd_manifest d)).1.

(** [ScanIter::build] and [build_single]. *)
Definition scan_build (dirs : list ShardDir) : ScanIter :=
  match dir_scanner <$> dirs with
  | [sc] => ScanOne sc
  | scs => ScanMerge (merge_new scs)
  end.

(** The records a consumer takes from the iterator, at most [n]. *)
Fixpoint scanner_collect (n : nat) (sc : ShardScanner) : list Rec :=
  match n with
  | O => []
  | S n =>
      match stream_next sc with
      | (Some (Ok r), sc) => r :: scanner_collect n sc
      | _ => []
      end
  end.

Definition scan_collect (n : nat) (it : ScanIter) : list Rec :=
  match it with
  | ScanOne sc => scanner_collect n sc
  | ScanMerge m => merge_collect n m
  end.

Lemma scanner_collect_yields n sc :
  scanner_good sc -> (length (scanner_yields sc) <= n)%nat -> scanner_collect n sc = scanner_yields sc.
Proof.
  revert sc. induction n as [|n IH]; intros sc Hg Hn.
  { destruct (scanner_yields sc); simpl in *; [done|lia]. }
  cbn [scanner_collect]. pose proof (next_yields sc Hg) as Hs. pose proof (next_good sc Hg) as Hg'.
  simpl in Hs, Hg'. destruct (stream_next sc) as [item sc']. simpl in *.
  destruct (scanner_yields sc) as [|r rs]; destruct Hs as [-> Hy]; [done|].
  f_equal. rewrite <- Hy. apply IH; [done|]. rewrite Hy. simpl in Hn. lia.
Qed.

(** A directory with its segments. *)
Definition dir_layout (d : ShardDir) (segs : list Seg) : Prop :=
  shard_layout readdir (sd_files d) (sd_idxs d) segs /\
  (sd_manifest d = manifest_new \/ sd_manifest d = mkManifest (entry_of <$> segs) (sd_mtime d)).

Lemma sorted_views vs : ascending vs -> StronglySorted rec_le (view_rec <$> filter in_scan vs).
Proof.
  intros Hs. assert (ascending (filter in_scan vs)) as Hf.
  { induction Hs as [|v vs _ IH Hall]; [constructor|]. rewrite filter_cons. case_decide; [|done].
    constructor; [done|]. apply Forall_forall. intros x [_ Hx]%list_elem_of_filter.
    apply list_elem_of_lookup_1 in Hx as [i Hi]. exact (Forall_lookup_1 _ _ _ _ Hall Hi). }
  clear Hs. induction Hf as [|v l _ IH Hall]; csimpl; constructor; [exact IH|].
  apply Forall_fmap. eapply Forall_impl; [exact Hall|]. intros x Hx.
  change (rv_record_id v <= rv_record_id x). simpl in Hx. lia.
Qed.

Lemma dirs_scanners dirs segss :
  Forall2 dir_layout dirs segss ->
  Forall scanner_good (dir_scanner <$> dirs) /\
  scanner_yields <$> (dir_scanner <$> dirs) = (fun segs => view_rec <$> filter in_scan (all_views segs)) <$> segss /\
  Forall (StronglySorted rec_le) (scanner_yields <$> (dir_scanner <$> dirs)).
Proof.
  induction 1 as [|d segs dirs segss [Hl Hm] _ (IH1 & IH2 & IH3)]; [repeat constructor|]. csimpl.
  destruct (scanner_new_spec readdir (sd_files d) (sd_idxs d) (sd_mtime d) segs (sd_manifest d) Hl Hm) as [Hg Hy].
  fold (dir_scanner d) in Hg, Hy. split; [by constructor|]. split; [by rewrite Hy, IH2|].
  constructor; [|done]. rewrite Hy. apply sorted_views, Hl.
Qed.

Lemma concat_views segss :
  concat ((fun segs => view_rec <$> filter in_scan (all_views segs)) <$> segss) =
  view_rec <$> filter in_scan (flat_map all_views segss).
Proof.
  induction segss as [|segs segss IH]; csimpl; [done|]. cbn [concat flat_map].
  by rewrite IH, filter_app, fmap_app.
Qed.

End scanner.

(** ** Concrete runs *)

Section scan_demo.
#[local] Instance scan_demo_externals : Externals := toy.

(** A list is a stream. *)
#[local] Instance list_stream : Stream (list Rec) := fun l =>
  match l with [] => (None, []) | r :: l => (Some (Ok r), l) end.

#[local] Program Instance list_stream_laws : StreamLaws (list Rec) :=
  {| good := fun _ => True; yields := fun l => l |}.
Next Obligation. done. Qed.
Next Obligation. by intros [|r l]. Qed.

Definition demo_rec (i : Z) : Rec := mkRec (mkRecordId 0 i) 0 [] (zeros 32).

Lemma merge_yields_sorted_union_witness :
  let scs := [[demo_rec 0; demo_rec 4]; []; [demo_rec 2; demo_rec 6]] in
  (rec_seq <$> merge_collect 4 (merge_new scs)) = [0; 2; 4; 6] /\
  merge_collect 4 (merge_new scs) ≡ₚ concat scs.
Proof.
  intros scs. split; [vm_compute; reflexivity|].
  destruct (merge_yields_sorted_union scs 4) as [Hp _].
  - repeat constructor.
  - repeat first [apply List.Forall_nil | apply List.Forall_cons | apply SSorted_nil | apply SSorted_cons
                 | discriminate].
  - simpl. lia.
  - exact Hp.
Defined.

Definition demo_shard : ShardDir := mkShardDir demo_files ∅ (Some 0) manifest_new.

End scan_demo.
