(* ===== verification/ShardMap.v ===== *)
(** * The shard map ([logdb/src/shard.rs])

    One ring per shard, the choice of a shard by thread or by key, and claims
    that return global record ids. *)
From stdpp Require Import base list numbers.
From coqutil Require Import Byte.
From Stdlib Require Import ZArith Lia.
From S2P Require Import Prelude Externals RustStd Shard Config Ring.
Open Scope Z_scope.

Record ShardMap := mkShardMap {
  sh_rings : list Ring;
  sh_bits : Z;
}.

Definition num_shards (m : ShardMap) : Z := Z.of_nat (length (sh_rings m)).

(** [ShardMap::new_with_initial]; [None] is a failed assertion. *)
Definition shardmap_new (num_shards ring_size : Z) (hash_enabled : bool) (initial_seqs : list Z)
    : option ShardMap :=
  if (num_shards <? 1) || negb (Z.of_nat (length initial_seqs) =? num_shards) then None
  else
    let per_shard_slots := Z.max (next_power_of_two (ring_size / num_shards)) 16 in
    rings ← mapM (ring_new per_shard_slots hash_enabled) initial_seqs;
    Some (mkShardMap rings (shard_bits num_shards)).

(** The thread-local cell before its first use. *)
Definition USIZE_MAX : Z := U64_MAX.

(** [select_shard]: the cached index of the thread, computed from the hash of
    its id on first use; the cell is shared by all shard maps of the process. *)
Definition select_shard (thread_hash : Z) (m : ShardMap) (key : Z) : Z * Z :=
  let key := if key =? USIZE_MAX then thread_hash mod num_shards m else key in (key, key).

Section keyed.
Context `{Externals}.

(** [select_shard_by_key]. *)
Definition select_shard_by_key (m : ShardMap) (key : bytes) : Z := crc32c key mod num_shards m.
End keyed.

(** How a call that may wait for a consumer ends. *)
Inductive Call (A : Type) := Returned (a : A) | Waits | Panics.
Arguments Returned {A} a.
Arguments Waits {A}.
Arguments Panics {A}.

Definition set_ring (m : ShardMap) (s : Z) (r : Ring) : ShardMap :=
  mkShardMap (<[Z.to_nat s := r]> (sh_rings m)) (sh_bits m).

(** The common part of the claims: the global id and the local sequence. *)
Definition claimed (m : ShardMap) (s : Z) (c : option (result AppendError (Z * Ring)))
    : Call (result AppendError (Z * Z) * ShardMap) :=
  match c with
  | None => Waits
  | Some (Err e) => Returned (Err e, m)
  | Some (Ok (local, r)) => Returned (Ok (encode_record_id s local (sh_bits m), local), set_ring m s r)
  end.

(** [claim_on_shard]. *)
Definition claim_on_shard (m : ShardMap) (s : Z) (policy : QueueFullPolicy)
    : Call (result AppendError (Z * Z) * ShardMap) :=
  match sh_rings m !! Z.to_nat s with
  | None => Panics
  | Some r => claimed m s (claim r policy)
  end.

(** [claim_batch] on the selected shard. *)
Definition claim_batch_on (m : ShardMap) (s n : Z) (policy : QueueFullPolicy)
    : Call (result AppendError (Z * Z) * ShardMap) :=
  match sh_rings m !! Z.to_nat s with
  | None => Panics
  | Some r => claimed m s (claim_batch r n policy)
  end.

(** Cursor snapshots. *)
Definition producer_cursors (m : ShardMap) : list Z := producer_cursor <$> sh_rings m.
Definition durable_cursors (m : ShardMap) : list Z := durable_cursor <$> sh_rings m.
Definition max_producer_cursor (m : ShardMap) : Z := default 0 (list_max (producer_cursors m)).
Definition min_committed_cursor (m : ShardMap) : Z :=
  default 0 (list_min (committed_cursor <$> sh_rings m)).
Definition min_durable_cursor (m : ShardMap) : Z := default 0 (list_min (durable_cursors m)).

(** ** Properties *)

Lemma is_power_of_two_pow k : 0 <= k -> is_power_of_two (2 ^ k) = true.
Proof.
  intros Hk. unfold is_power_of_two. pose proof (Z.pow_pos_nonneg 2 k ltac:(lia) Hk).
  rewrite (proj2 (Z.ltb_lt _ _)) by lia. simpl. rewrite land_mask by done.
  by rewrite Z.mod_same by lia.
Qed.

(** The slots of each ring. *)
Lemma per_shard_slots_pow ring_size num :
  in_range 32 ring_size -> 1 <= num ->
  let n := Z.max (next_power_of_two (ring_size / num)) 16 in
  is_power_of_two n = true /\ 16 <= n <= 2 ^ 32.
Proof.
  intros [H0 H1] Hn n. pose proof (Z.div_le_upper_bound ring_size num ring_size ltac:(lia) ltac:(nia)) as Hq.
  pose proof (Z.div_pos ring_size num H0 ltac:(lia)) as Hq0. subst n.
  assert (exists j, 0 <= j <= 32 /\ next_power_of_two (ring_size / num) = 2 ^ j) as (j & Hj & ->).
  { unfold next_power_of_two. destruct (Z.leb_spec (ring_size / num) 1).
    - exists 0. lia.
    - exists (Z.log2_up (ring_size / num)). split; [|done]. split; [apply Z.log2_up_nonneg|].
      apply Z.log2_up_le_pow2; lia. }
  assert (Z.max (2 ^ j) 16 = 2 ^ Z.max j 4) as ->.
  { change 16 with (2 ^ 4). destruct (Z.max_spec j 4) as [[Hm ->]|[Hm ->]].
    - apply Z.max_r, Z.pow_le_mono_r; lia.
    - apply Z.max_l, Z.pow_le_mono_r; lia. }
  split; [apply is_power_of_two_pow; lia|]. change 16 with (2 ^ 4).
  split; apply Z.pow_le_mono_r; lia.
Qed.

(** An empty ring at sequence [i]. *)
Definition empty_ring (n : Z) (h : bool) (i : Z) : Ring :=
  mkRing (replicate (Z.to_nat n) slot_new) (n - 1) n i i i i h.

Lemma ring_new_empty n h i :
  is_power_of_two n = true -> 16 <= n < 2 ^ 64 ->
  ring_new n h i = Some (empty_ring n h i) /\ ring_wf (empty_ring n h i).
Proof.
  intros Hp Hn. assert (ring_new n h i = Some (empty_ring n h i)) as Hr
    by (unfold ring_new; by rewrite Hp, (proj2 (Z.leb_le _ _)) by lia).
  split; [done|]. apply (ring_new_wf n h i); [split; lia|done].
Qed.

(** The shard map of a validated configuration. *)
Lemma shardmap_new_spec cfg inits :
  validate cfg = Ok tt -> in_range 32 (ring_size cfg) -> Z.of_nat (length inits) = shards cfg ->
  exists n, 16 <= n <= 2 ^ 32 /\ (forall i, ring_wf (empty_ring n (cfg_hash_enabled cfg) i)) /\
    shardmap_new (shards cfg) (ring_size cfg) (cfg_hash_enabled cfg) inits =
    Some (mkShardMap (empty_ring n (cfg_hash_enabled cfg) <$> inits) (shard_bits (shards cfg))).
Proof.
  intros Hv Hrs Hlen. destruct (validate_ok cfg Hv) as (_ & Hsh & _ & _ & _).
  destruct (per_shard_slots_pow (ring_size cfg) (shards cfg) Hrs ltac:(lia)) as [Hp Hn].
  eexists. split; [exact Hn|]. split; [intros i; apply ring_new_empty; [done|lia]|].
  unfold shardmap_new. rewrite (proj2 (Z.ltb_ge _ _)), Hlen, Z.eqb_refl by lia. cbn [orb negb].
  cbv zeta. erewrite mapM_Some_2; [reflexivity|]. apply Forall2_fmap_r, Forall_Forall2_diag, Forall_true.
  intros i. apply ring_new_empty; [done|lia].
Qed.

(** A validated configuration gives a well-formed shard map.  Every shard
    gets a ring whose size is a power of two of at least sixteen slots and whose
    cursors all start at the shard's initial sequence, and every shard number
    fits in the bits of a record id. *)
Theorem shardmap_new_ok cfg inits :
  validate cfg = Ok tt -> in_range 32 (ring_size cfg) -> Z.of_nat (length inits) = shards cfg ->
  exists m, shardmap_new (shards cfg) (ring_size cfg) (cfg_hash_enabled cfg) inits = Some m /\
    num_shards m = shards cfg /\ Forall ring_wf (sh_rings m) /\
    (forall s, 0 <= s < num_shards m -> s < 2 ^ sh_bits m) /\ 0 <= sh_bits m <= 8 /\
    producer_cursors m = inits /\ durable_cursors m = inits /\ committed_cursor <$> sh_rings m = inits.
Proof.
  intros Hv Hrs Hlen. destruct (validate_ok cfg Hv) as (_ & Hsh & _ & _ & _).
  destruct (shardmap_new_spec cfg inits Hv Hrs Hlen) as (n & Hn & Hw & Hm).
  eexists. split; [exact Hm|]. unfold num_shards, producer_cursors, durable_cursors. cbn [sh_rings sh_bits].
  rewrite length_fmap, Hlen, <- !list_fmap_compose. split; [done|].
  split; [apply Forall_fmap, Forall_true; exact Hw|].
  split; [intros s Hs; by apply shard_bits_fits; lia|]. split; [by apply shard_bits_small|].
  repeat split; apply list_fmap_id.
Qed.

Lemma shardmap_new_ok_witness :
  let cfg := {| segment_size := 1024 * 1024; ring_size := 64; shards := 3; max_content_size := 1024;
                cfg_hash_enabled := false; compression_enabled := false; durability_mode := Batch;
                queue_full_policy := Block; index_stride := 16; retention := KeepAll |} in
  validate cfg = Ok tt /\
  exists m, shardmap_new 3 64 false [0; 5; 9] = Some m /\ producer_cursors m = [0; 5; 9] /\ sh_bits m = 2.
Proof.
  intros cfg. split; [reflexivity|].
  destruct (shardmap_new_ok cfg [0; 5; 9]) as (m & Hm & _ & _ & _ & _ & Hp & _); [reflexivity| |reflexivity|].
  - split; reflexivity || discriminate.
  - exists m. split; [exact Hm|]. split; [exact Hp|]. vm_compute in Hm. by injection Hm as <-.
Defined.

Section keyed_lemmas.
Context `{Externals}.

(** Routing by key is a function of the key into the shards.  The selected
    shard exists, so that the claim on it never panics, and it depends on the
    key and the number of shards alone. *)
Theorem select_shard_by_key_ok m key policy :
  sh_rings m <> [] ->
  0 <= select_shard_by_key m key < num_shards m /\
  claim_on_shard m (select_shard_by_key m key) policy <> Panics /\
  forall m', num_shards m' = num_shards m -> select_shard_by_key m' key = select_shard_by_key m key.
Proof.
  intros Hne. assert (0 < num_shards m) as Hn.
  { unfold num_shards. destruct (sh_rings m); simpl; [done|lia]. }
  assert (0 <= select_shard_by_key m key < num_shards m) as Hr by (by apply Z.mod_pos_bound).
  split; [done|]. split.
  - unfold claim_on_shard. destruct (lookup_lt_is_Some_2 (sh_rings m) (Z.to_nat (select_shard_by_key m key))) as [r Hr'].
    { unfold num_shards in Hr. lia. }
    rewrite Hr'. unfold claimed. by destruct (claim r policy) as [[[]|]|].
  - intros m' Hm. unfold select_shard_by_key. by rewrite Hm.
Qed.
End keyed_lemmas.

Lemma select_shard_by_key_ok_witness :
  exists m, shardmap_new 3 64 false [0; 0; 0] = Some m /\
    0 <= @select_shard_by_key toy m [Byte.x61] < 3.
Proof.
  destruct (shardmap_new 3 64 false [0; 0; 0]) as [m|] eqn:Hm; [|discriminate].
  exists m. split; [reflexivity|].
  assert (num_shards m = 3 /\ sh_rings m <> []) as [Hn Hne] by (vm_compute in Hm; injection Hm as <-; split; done).
  destruct (@select_shard_by_key_ok toy m [Byte.x61] Drop Hne) as [Hr _]. by rewrite Hn in Hr.
Defined.

(** The thread's shard index crosses databases.  The thread-local cell keeps
    the index computed for the first database the thread appends to; on a
    database with fewer shards the same thread then indexes past the rings. *)
Theorem cached_shard_index_panics hash policy :
  hash mod 8 = 5 ->
  exists m8 m2, shardmap_new 8 1024 false (replicate 8 0) = Some m8 /\
    shardmap_new 2 1024 false (replicate 2 0) = Some m2 /\
    let '(s8, cell) := select_shard hash m8 USIZE_MAX in
    let '(s2, _) := select_shard hash m2 cell in
    s8 = 5 /\ s2 = 5 /\ claim_on_shard m2 s2 policy = Panics.
Proof.
  intros Hh. eexists _, _. split; [vm_compute; reflexivity|]. split; [vm_compute; reflexivity|].
  unfold select_shard, num_shards. cbn [sh_rings length]. change (Z.of_nat 8) with 8.
  rewrite Z.eqb_refl, Hh. split; [reflexivity|]. split; reflexivity.
Qed.

Lemma cached_shard_index_panics_witness :
  exists m2, shardmap_new 2 1024 false (replicate 2 0) = Some m2 /\ claim_on_shard m2 5 Drop = Panics.
Proof.
  destruct (cached_shard_index_panics 5 Drop eq_refl) as (m8 & m2 & _ & Hm & _ & _ & Hp).
  exists m2. split; [exact Hm|]. vm_compute in Hm. injection Hm as <-. reflexivity.
Defined.
