(* ===== verification/Append.v ===== *)
(** * Appending through the database handle ([logdb/src/lib.rs])

    [append], [append_with_key], [append_batch] and [replicate]: the checks in
    the order of the code, the in-flight guard, the claim, the slot writes and
    the wake-up.  The calls run without interference here; [append_is_pipeline_run]
    places them among the other threads of a shard. *)
From stdpp Require Import base gmap list numbers relations.
From coqutil Require Import Byte.
From Stdlib Require Import ZArith Lia.
From S2P Require Import Prelude Externals RustStd Format Shard Config Ring Signal Sealer Pipeline ShardMap.
Open Scope Z_scope.

(** The fields of [LogDbInner] that appending, flushing and checkpointing use;
    [db_committer_wake] is the flag under the wake mutex. *)
Record LogDb := mkLogDb {
  db_config : Config;
  db_shards : ShardMap;
  db_health : HealthState;
  db_flush : FlushSignal;
  db_shutdown : ShutdownState;
  db_checkpoint : Z;
  db_committer_wake : bool;
}.

Definition set_db_shards (m : ShardMap) (db : LogDb) : LogDb :=
  mkLogDb (db_config db) m (db_health db) (db_flush db) (db_shutdown db) (db_checkpoint db)
    (db_committer_wake db).
Definition set_db_shutdown (s : ShutdownState) (db : LogDb) : LogDb :=
  mkLogDb (db_config db) (db_shards db) (db_health db) (db_flush db) s (db_checkpoint db)
    (db_committer_wake db).
Definition set_db_wake (b : bool) (db : LogDb) : LogDb :=
  mkLogDb (db_config db) (db_shards db) (db_health db) (db_flush db) (db_shutdown db)
    (db_checkpoint db) b.

(** ** The checks *)

Definition health_error (db : LogDb) : option AppendError :=
  match health_check (db_health db) with
  | Some code => Some (if code =? HEALTH_DISK_FULL then DiskFull else AppendIo)
  | None => None
  end.

(** The first content over the limit, if any. *)
Fixpoint size_error (limit : Z) (contents : list bytes) : option AppendError :=
  match contents with
  | [] => None
  | c :: contents =>
      if limit <? blen c then Some (ContentTooLarge (blen c) limit) else size_error limit contents
  end.

(** ** Writing claimed slots *)

(** [producer_write], then [publish]. *)
Definition write_record (r : Ring) (local_seq global_id ts : Z) (content : bytes) : Ring :=
  let r := set_slot r local_seq (producer_write (slot r local_seq) global_id ts content) in
  set_slot r local_seq (publish (slot r local_seq) local_seq).

(** The loop of [append_batch], from [local_seq] on. *)
Fixpoint write_records (r : Ring) (shard_id bits local_seq ts : Z) (contents : list bytes) : Ring :=
  match contents with
  | [] => r
  | c :: contents =>
      let r := write_record r local_seq (encode_record_id shard_id local_seq bits) ts c in
      write_records r shard_id bits (local_seq + 1) ts contents
  end.

(** The ring of [shard_id] with [f] applied. *)
Definition update_ring (f : Ring -> Ring) (shard_id : Z) (m : ShardMap) : ShardMap :=
  mkShardMap (alter f (Z.to_nat shard_id) (sh_rings m)) (sh_bits m).

(** ** Appends *)

(** [append_routed]; [ts] is what the clock returns. *)
Definition append_routed (ts : Z) (content : bytes) (shard_id : Z) (db : LogDb)
    : Call (result AppendError Z * LogDb) :=
  match health_error db with
  | Some e => Returned (Err e, db)
  | None =>
      let max := max_content_size (db_config db) in
      if max <? blen content then Returned (Err (ContentTooLarge (blen content) max), db)
      else
        let '(sd, entered) := enter (db_shutdown db) in
        let db := set_db_shutdown sd db in
        if negb entered then Returned (Err ShuttingDown, db)
        else
          match claim_on_shard (db_shards db) shard_id (queue_full_policy (db_config db)) with
          | Panics => Panics
          | Waits => Waits
          | Returned (Err e, m) =>
              Returned (Err e, set_db_shutdown (leave sd) (set_db_shards m db))
          | Returned (Ok (global_id, local_seq), m) =>
              let m := update_ring (fun r => write_record r local_seq global_id ts content) shard_id m in
              Returned (Ok global_id, set_db_shutdown (leave sd) (set_db_wake true (set_db_shards m db)))
          end
  end.

(** [append]: the thread's shard; [key] is its thread-local cell. *)
Definition append (thread_hash ts : Z) (content : bytes) (key : Z) (db : LogDb)
    : Call (result AppendError Z * LogDb) * Z :=
  let '(shard_id, key) := select_shard thread_hash (db_shards db) key in
  (append_routed ts content shard_id db, key).

(** [append_batch]; the cell is read inside [claim_batch]. *)
Definition append_batch (thread_hash ts : Z) (contents : list bytes) (key : Z) (db : LogDb)
    : Call (result AppendError Z * LogDb) * Z :=
  match contents with
  | [] => (Returned (Err EmptyBatch, db), key)
  | _ =>
  match health_error db with
  | Some e => (Returned (Err e, db), key)
  | None =>
  match size_error (max_content_size (db_config db)) contents with
  | Some e => (Returned (Err e, db), key)
  | None =>
      let '(sd, entered) := enter (db_shutdown db) in
      let db := set_db_shutdown sd db in
      if negb entered then (Returned (Err ShuttingDown, db), key)
      else
        let '(shard_id, key) := select_shard thread_hash (db_shards db) key in
        (match claim_batch_on (db_shards db) shard_id (Z.of_nat (length contents))
                 (queue_full_policy (db_config db)) with
         | Panics => Panics
         | Waits => Waits
         | Returned (Err e, m) =>
             Returned (Err e, set_db_shutdown (leave sd) (set_db_shards m db))
         | Returned (Ok (first_id, local_first), m) =>
             let m := update_ring (fun r =>
               write_records r shard_id (sh_bits m) local_first ts contents) shard_id m in
             Returned (Ok first_id, set_db_shutdown (leave sd) (set_db_shards m db))
         end, key)
  end
  end
  end.

(** [replicate]: a record at an exact sequence of shard 0. *)
Definition replicate_record (sequence ts : Z) (content : bytes) (db : LogDb)
    : Call (result AppendError unit * LogDb) :=
  if negb (num_shards (db_shards db) =? 1) then Returned (Err AppendIo, db)
  else
    let max := max_content_size (db_config db) in
    if max <? blen content then Returned (Err (ContentTooLarge (blen content) max), db)
    else
      match health_error db with
      | Some e => Returned (Err e, db)
      | None =>
          let '(sd, entered) := enter (db_shutdown db) in
          let db := set_db_shutdown sd db in
          if negb entered then Returned (Err ShuttingDown, db)
          else
            let out r m := Returned (r, set_db_shutdown (leave sd) (set_db_shards m db)) in
            match sh_rings (db_shards db) !! 0%nat with
            | None => Panics
            | Some r =>
                let cur := producer_cursor r in
                if sequence <? cur then out (Ok tt) (db_shards db)
                else if negb (sequence =? cur) then out (Err AppendIo) (db_shards db)
                else if rsize r <=? u64 (sequence - consume_watermark r)
                then out (Err QueueFull) (db_shards db)
                else
                  let r := write_record r sequence sequence ts content in
                  out (Ok tt) (set_ring (db_shards db) 0 (set_producer r (sequence + 1)))
            end
      end.

Section keyed.
Context `{Externals}.

(** [append_with_key]. *)
Definition append_with_key (ts : Z) (content shard_key : bytes) (db : LogDb)
    : Call (result AppendError Z * LogDb) :=
  append_routed ts content (select_shard_by_key (db_shards db) shard_key) db.
End keyed.

(** ** Slot writes *)

Lemma write_record_wf r l g ts c : ring_wf r -> ring_wf (write_record r l g ts c).
Proof.
  intros Hw. unfold write_record.
  assert (ring_wf (set_slot r l (producer_write (slot r l) g ts c))) as Hw1
    by (apply set_slot_ring_wf, producer_write_wf, slot_slot_wf; done).
  apply set_slot_ring_wf; [done|]. exact (slot_slot_wf _ l Hw1).
Qed.

Lemma write_record_slot r l g ts c :
  ring_wf r -> slot (write_record r l g ts c) l = publish (producer_write (slot r l) g ts c) l.
Proof.
  intros Hw. unfold write_record.
  assert (ring_wf (set_slot r l (producer_write (slot r l) g ts c))) as Hw1
    by (apply set_slot_ring_wf, producer_write_wf, slot_slot_wf; done).
  rewrite slot_set_eq by done. by rewrite slot_set_eq.
Qed.

Lemma write_record_other r l g ts c s :
  slot_index r l <> slot_index r s -> slot (write_record r l g ts c) s = slot r s.
Proof. intros Hne. unfold write_record. by rewrite !slot_set_ne. Qed.

Lemma write_record_same r l g ts c : same_ring r (write_record r l g ts c).
Proof. done. Qed.

Lemma write_records_spec r s bits l ts cs :
  ring_wf r -> Z.of_nat (length cs) <= rsize r -> Forall (fun c => blen c < 2 ^ 32) cs ->
  let r' := write_records r s bits l ts cs in
  ring_wf r' /\ same_ring r r' /\
  (forall i c, cs !! i = Some c ->
     is_published (slot r' (l + Z.of_nat i)) (l + Z.of_nat i) = true /\
     slot_read (slot r' (l + Z.of_nat i)) =
       mkReadView (encode_record_id s (l + Z.of_nat i) bits) ts c
         (rv_hash_n (slot_read (slot r (l + Z.of_nat i))))) /\
  (forall q, (forall i, (i < length cs)%nat -> slot_index r q <> slot_index r (l + Z.of_nat i)) ->
     slot r' q = slot r q).
Proof.
  revert r l. induction cs as [|c cs IH]; intros r l Hw Hn Hc; simpl.
  { repeat split; try done; apply Hw. }
  inversion Hc as [|?? Hc1 Hc2]; subst. cbn [length] in Hn.
  set (g := encode_record_id s l bits).
  pose proof (write_record_wf r l g ts c Hw) as Hw1.
  assert (forall i, (i < length cs)%nat -> slot_index r l <> slot_index r (l + 1 + Z.of_nat i)) as Hd.
  { intros i Hi He. apply slot_index_inj in He; [lia|done|lia]. }
  destruct (IH (write_record r l g ts c) (l + 1) Hw1 ltac:(simpl; lia) Hc2) as (Hw' & Hs & Hin & Hout).
  split; [done|]. split; [by destruct Hs; split|]. split.
  - intros [|i] x Hx; simpl in Hx; simplify_eq.
    + rewrite Z.add_0_r, Hout by (intros i Hi; by apply Hd).
      rewrite write_record_slot by done. split.
      { unfold is_published, publish. simpl. apply Z.eqb_refl. }
      rewrite read_publish, read_producer_write; [done|by apply slot_slot_wf|done].
    + replace (l + Z.of_nat (S i)) with (l + 1 + Z.of_nat i) by lia.
      destruct (Hin i x Hx) as [Hp Hr]. split; [done|]. rewrite Hr.
      rewrite write_record_other; [done|]. apply Hd. by eapply lookup_lt_Some.
  - intros q Hq. rewrite Hout.
    + apply write_record_other. intros He. apply (Hq 0%nat); [simpl; lia|]. by rewrite Z.add_0_r.
    + intros i Hi. specialize (Hq (S i) ltac:(simpl; lia)).
      by replace (l + Z.of_nat (S i)) with (l + 1 + Z.of_nat i) in Hq by lia.
Qed.

(** One record is a batch of one. *)
Lemma write_record_one r s bits l ts c :
  write_record r l (encode_record_id s l bits) ts c = write_records r s bits l ts [c].
Proof. done. Qed.

(** ** What an append does *)

Record db_wf (db : LogDb) : Prop := {
  dw_rings : Forall ring_wf (sh_rings (db_shards db));
  dw_count : 1 <= num_shards (db_shards db) <= 256;
  dw_bits : sh_bits (db_shards db) = shard_bits (num_shards (db_shards db));
  dw_max : max_content_size (db_config db) <= 64 * 1024 * 1024;
  dw_in_flight : 0 <= in_flight (db_shutdown db) < U64_MAX;
  dw_cursors : Forall (fun r => 0 <= consume_watermark r <= producer_cursor r /\
      producer_cursor r + rsize r < 2 ^ (64 - sh_bits (db_shards db)))
    (sh_rings (db_shards db));
}.

(** The check that refuses the contents before anything is claimed. *)
Definition admission (db : LogDb) (contents : list bytes) : option AppendError :=
  match health_error db with
  | Some e => Some e
  | None =>
      match size_error (max_content_size (db_config db)) contents with
      | Some e => Some e
      | None => if draining (db_shutdown db) then Some ShuttingDown else None
      end
  end.

(** The free slots of a ring. *)
Definition room (r : Ring) : Z := rsize r - (producer_cursor r - consume_watermark r).

(** [db'] is [db] with [contents] published on shard [s], from the producer
    cursor of its ring [r] on, and nothing else changed but the wake flag. *)
Record appended (db db' : LogDb) (s : nat) (r : Ring) (ts : Z) (contents : list bytes) : Prop := {
  ap_bits : sh_bits (db_shards db') = sh_bits (db_shards db);
  ap_ring : exists r', sh_rings (db_shards db') = <[s := r']> (sh_rings (db_shards db)) /\
    ring_wf r' /\ same_ring (set_producer r (producer_cursor r + Z.of_nat (length contents))) r' /\
    (forall i c, contents !! i = Some c ->
       let l := producer_cursor r + Z.of_nat i in
       is_published (slot r' l) l = true /\
       rv_record_id (slot_read (slot r' l)) = encode_record_id (Z.of_nat s) l (sh_bits (db_shards db)) /\
       decode_record_id (rv_record_id (slot_read (slot r' l))) (sh_bits (db_shards db)) = (Z.of_nat s, l) /\
       rv_timestamp_ns (slot_read (slot r' l)) = ts /\ rv_content (slot_read (slot r' l)) = c) /\
    (forall q, (forall i, (i < length contents)%nat ->
         slot_index r q <> slot_index r (producer_cursor r + Z.of_nat i)) ->
       slot r' q = slot r q);
  ap_config : db_config db' = db_config db;
  ap_health : db_health db' = db_health db;
  ap_flush : db_flush db' = db_flush db;
  ap_shutdown : db_shutdown db' = db_shutdown db;
  ap_checkpoint : db_checkpoint db' = db_checkpoint db;
}.

Lemma leave_reserve sd : 0 <= in_flight sd < U64_MAX -> leave (enter_reserve sd) = sd.
Proof.
  intros Hi. destruct sd as [p t n]. unfold leave, enter_reserve. simpl in *. f_equal.
  rewrite wrap_small by (unfold in_range; rewrite wrap_small by (unfold in_range; lia); lia).
  rewrite wrap_small by (unfold in_range; lia). lia.
Qed.

Lemma size_error_fits limit cs :
  size_error limit cs = None -> Forall (fun c => blen c <= limit) cs.
Proof.
  induction cs as [|c cs IH]; simpl; [constructor|].
  destruct (Z.ltb_spec limit (blen c)); [done|]. intros Hs. constructor; [lia|auto].
Qed.

Lemma admission_fits db cs :
  admission db cs = None -> Forall (fun c => blen c <= max_content_size (db_config db)) cs.
Proof.
  unfold admission. destruct (health_error db); [done|].
  destruct (size_error _ cs) eqn:Hs; [done|]. intros _. by apply size_error_fits.
Qed.

Lemma set_shards_id db : set_db_shards (db_shards db) db = db.
Proof. by destruct db. Qed.

Lemma set_shutdown_id db : set_db_shutdown (db_shutdown db) db = db.
Proof. by destruct db. Qed.

(** A shard's local sequences below the cursor limit make valid ids. *)
Lemma db_id_ok db s r l :
  db_wf db -> sh_rings (db_shards db) !! s = Some r ->
  0 <= l < producer_cursor r + rsize r ->
  id_ok (Z.of_nat s) l (sh_bits (db_shards db)).
Proof.
  intros Hw Hs Hl. pose proof (Forall_lookup_1 _ _ _ _ (dw_cursors _ Hw) Hs) as Hc. simpl in Hc.
  pose proof (dw_count _ Hw) as Hn. apply lookup_lt_Some in Hs. rewrite (dw_bits _ Hw) in *.
  pose proof (shard_bits_small _ Hn).
  split; [lia| |lia]. split; [lia|]. apply shard_bits_fits; [lia|]. unfold num_shards in *. lia.
Qed.

(** [db] with [cs] written and published on shard [s], whose ring is [r]. *)
Definition published_db (db : LogDb) (s : nat) (r : Ring) (ts : Z) (cs : list bytes) (wake : bool) : LogDb :=
  let m := db_shards db in
  let r' := write_records (set_producer r (producer_cursor r + Z.of_nat (length cs)))
              (Z.of_nat s) (sh_bits m) (producer_cursor r) ts cs in
  set_db_wake wake (set_db_shards (mkShardMap (<[s := r']> (sh_rings m)) (sh_bits m)) db).

Lemma db_cursor_top db s r :
  db_wf db -> sh_rings (db_shards db) !! s = Some r ->
  0 <= consume_watermark r <= producer_cursor r /\ producer_cursor r + rsize r < 2 ^ 64 /\
  16 <= rsize r < 2 ^ 64.
Proof.
  intros Hw Hs. pose proof (Forall_lookup_1 _ _ _ _ (dw_cursors _ Hw) Hs) as [Hc Ht]. simpl in Hc, Ht.
  pose proof (shard_bits_small _ (dw_count _ Hw)). split; [done|]. split.
  - rewrite (dw_bits _ Hw) in Ht. eapply Z.lt_le_trans; [exact Ht|]. apply Z.pow_le_mono_r; lia.
  - exact (rw_pos _ (Forall_lookup_1 _ _ _ _ (dw_rings _ Hw) Hs)).
Qed.

Lemma db_contents_small db (cs : list bytes) :
  db_wf db -> Forall (fun c => blen c <= max_content_size (db_config db)) cs ->
  Forall (fun c => blen c < 2 ^ 32) cs.
Proof.
  intros Hw Hc. eapply Forall_impl; [exact Hc|]. intros c Hcc. simpl in *. pose proof (dw_max _ Hw).
  assert (64 * 1024 * 1024 < 2 ^ 32) by done. lia.
Qed.

Lemma appended_intro db s r ts (cs : list bytes) w :
  db_wf db -> sh_rings (db_shards db) !! s = Some r ->
  Forall (fun c => blen c <= max_content_size (db_config db)) cs ->
  Z.of_nat (length cs) <= room r -> appended db (published_db db s r ts cs w) s r ts cs.
Proof.
  intros Hw Hs Hc Hroom. unfold room in Hroom.
  destruct (db_cursor_top db s r Hw Hs) as (Hcur & Htop & Hp).
  pose proof (Forall_lookup_1 _ _ _ _ (dw_rings _ Hw) Hs) as Hrw. simpl in Hrw.
  split; [done| |done..].
  set (r1 := set_producer r (producer_cursor r + Z.of_nat (length cs))).
  assert (ring_wf r1) as Hw1 by (destruct Hrw; by split).
  destruct (write_records_spec r1 (Z.of_nat s) (sh_bits (db_shards db)) (producer_cursor r) ts cs Hw1)
    as (Hw' & Hsame & Hin & Hout); [simpl; lia|by eapply db_contents_small|].
  exists (write_records r1 (Z.of_nat s) (sh_bits (db_shards db)) (producer_cursor r) ts cs).
  split; [done|split; [done|split; [done|split; [|exact Hout]]]].
  intros i c Hi. destruct (Hin i c Hi) as [Hpub Hv]. cbv zeta. rewrite Hv.
  cbn [rv_record_id rv_timestamp_ns rv_content].
  split; [done|]. split; [done|]. split; [|done]. apply decode_encode.
  apply lookup_lt_Some in Hi. apply (db_id_ok db s r); [done|done|]. lia.
Qed.

Lemma claim_room db s r n :
  db_wf db -> sh_rings (db_shards db) !! s = Some r -> 0 <= n <= rsize r ->
  claim_batch_full (rsize r) (producer_cursor r) (consume_watermark r) n = negb (n <=? room r) /\
  claim_full (rsize r) (producer_cursor r) (consume_watermark r) = negb (1 <=? room r).
Proof.
  intros Hw Hs Hn. destruct (db_cursor_top db s r Hw Hs) as (Hc & Ht & Hp).
  unfold claim_batch_full, claim_full, room.
  rewrite (wrap_small 64 (producer_cursor r - consume_watermark r)) by (unfold in_range; lia).
  rewrite wrap_small by (unfold in_range; lia).
  rewrite <- !Z.ltb_antisym. split; apply eq_true_iff_eq; rewrite ?Z.ltb_lt, ?Z.leb_le; lia.
Qed.

(** The database after an append that publishes [cs] on [s]. *)
Lemma published_db_eq db s r ts (cs : list bytes) w sd :
  db_wf db -> sh_rings (db_shards db) !! s = Some r -> Z.of_nat (length cs) <= rsize r ->
  let m := set_ring (db_shards db) (Z.of_nat s)
             (set_producer r (u64 (producer_cursor r + Z.of_nat (length cs)))) in
  let m := update_ring (fun r0 => write_records r0 (Z.of_nat s) (sh_bits (db_shards db))
             (producer_cursor r) ts cs) (Z.of_nat s) m in
  set_db_shutdown (db_shutdown db) (set_db_wake w (set_db_shards m (set_db_shutdown sd db))) =
  published_db db s r ts cs w.
Proof.
  intros Hw Hs Hn m m'. destruct (db_cursor_top db s r Hw Hs) as (Hc & Ht & Hp).
  subst m' m. unfold published_db, update_ring, set_ring. cbn [sh_rings sh_bits].
  rewrite Nat2Z.id, list_alter_insert, wrap_small by (unfold in_range; lia).
  done.
Qed.

(** [append_routed] in one equation. *)
Lemma append_routed_eq ts content s r db :
  db_wf db -> sh_rings (db_shards db) !! s = Some r ->
  append_routed ts content (Z.of_nat s) db =
  match admission db [content] with
  | Some e => Returned (Err e, db)
  | None =>
      if 1 <=? room r then
        Returned (Ok (encode_record_id (Z.of_nat s) (producer_cursor r) (sh_bits (db_shards db))),
                  published_db db s r ts [content] true)
      else match queue_full_policy (db_config db) with
           | Drop => Returned (Err QueueFull, db)
           | Block => Waits
           end
  end.
Proof.
  intros Hw Hs. unfold append_routed, admission. cbn [size_error].
  destruct (health_error db) as [e|]; [done|]. destruct (_ <? _); [done|].
  unfold enter. change (draining (enter_reserve (db_shutdown db))) with (draining (db_shutdown db)).
  destruct (draining (db_shutdown db)); cbn [negb].
  { by rewrite leave_reserve, set_shutdown_id by apply Hw. }
  unfold claim_on_shard. cbn [db_shards set_db_shutdown db_config]. rewrite Nat2Z.id, Hs.
  destruct (db_cursor_top db s r Hw Hs) as (_ & _ & Hp).
  destruct (claim_room db s r 1 Hw Hs ltac:(lia)) as [_ Hroom]. unfold claim. rewrite Hroom.
  rewrite leave_reserve by apply Hw. destruct (1 <=? room r); cbn [negb claimed].
  - rewrite <- (published_db_eq db s r ts [content] true (enter_reserve (db_shutdown db)) Hw Hs) by (simpl; lia).
    done.
  - by destruct (queue_full_policy (db_config db)), db.
Qed.

(** [append_batch] in one equation. *)
Lemma append_batch_eq hash ts contents key s r db :
  db_wf db -> (select_shard hash (db_shards db) key).1 = Z.of_nat s ->
  sh_rings (db_shards db) !! s = Some r -> contents <> [] ->
  let n := Z.of_nat (length contents) in
  (append_batch hash ts contents key db).1 =
  match admission db contents with
  | Some e => Returned (Err e, db)
  | None =>
      if n <=? room r then
        Returned (Ok (encode_record_id (Z.of_nat s) (producer_cursor r) (sh_bits (db_shards db))),
                  published_db db s r ts contents (db_committer_wake db))
      else if rsize r <? n then Returned (Err QueueFull, db)
      else match queue_full_policy (db_config db) with
           | Drop => Returned (Err QueueFull, db)
           | Block => Waits
           end
  end.
Proof.
  intros Hw Hsel Hs Hne n. unfold append_batch. subst n. destruct contents as [|c cs]; [done|].
  revert Hne. generalize (c :: cs). clear c cs. intros contents Hne. set (n := Z.of_nat (length contents)).
  unfold admission. destruct (health_error db) as [e|]; [done|].
  destruct (size_error _ contents) as [e|]; [done|].
  unfold enter. change (draining (enter_reserve (db_shutdown db))) with (draining (db_shutdown db)).
  destruct (draining (db_shutdown db)); cbn [negb fst].
  { by rewrite leave_reserve, set_shutdown_id by apply Hw. }
  cbn [db_shards set_db_shutdown]. destruct (select_shard hash (db_shards db) key) as [si k].
  cbn [fst] in *. subst si. unfold claim_batch_on. cbn [db_config set_db_shutdown]. rewrite Nat2Z.id, Hs.
  unfold claim_batch. fold n. destruct (db_cursor_top db s r Hw Hs) as (Hc & _ & _).
  rewrite leave_reserve by apply Hw. destruct (Z.ltb_spec (rsize r) n) as [Hbig|Hfit].
  { destruct (Z.leb_spec n (room r)); [unfold room in *; lia|]. by destruct db. }
  destruct (claim_room db s r n Hw Hs ltac:(lia)) as [-> _]. destruct (n <=? room r); cbn [negb claimed].
  - by rewrite <- (published_db_eq db s r ts contents (db_committer_wake db)
      (enter_reserve (db_shutdown db)) Hw Hs Hfit).
  - by destruct (queue_full_policy (db_config db)), db.
Qed.

(** [replicate] in one equation. *)
Lemma replicate_eq sequence ts content r db :
  db_wf db -> sh_rings (db_shards db) = [r] -> admission db [content] = None ->
  replicate_record sequence ts content db =
  Returned
    (if sequence <? producer_cursor r then (Ok tt, db)
     else if negb (sequence =? producer_cursor r) then (Err AppendIo, db)
     else if 1 <=? room r then (Ok tt, published_db db 0 r ts [content] (db_committer_wake db))
     else (Err QueueFull, db)).
Proof.
  intros Hw Hr Ha. unfold replicate_record, admission in *. cbn [size_error] in Ha.
  assert (num_shards (db_shards db) = 1) as Hn by (unfold num_shards; by rewrite Hr).
  assert (sh_rings (db_shards db) !! 0%nat = Some r) as Hs by (by rewrite Hr).
  rewrite Hn. change (negb (1 =? 1)) with false. cbv iota.
  destruct (health_error db) as [e|]; [done|]. destruct (_ <? blen content); [done|].
  unfold enter. change (draining (enter_reserve (db_shutdown db))) with (draining (db_shutdown db)).
  destruct (draining (db_shutdown db)); [done|]. cbn [negb db_shards set_db_shutdown].
  rewrite Hs, leave_reserve by apply Hw. cbv zeta.
  destruct (sequence <? producer_cursor r); [by destruct db|].
  destruct (Z.eqb_spec sequence (producer_cursor r)) as [->|]; cbn [negb]; [|by destruct db].
  destruct (db_cursor_top db 0 r Hw Hs) as (_ & _ & Hp).
  destruct (claim_room db 0 r 1 Hw Hs ltac:(lia)) as [_ Hroom]. unfold claim_full in Hroom. rewrite Hroom.
  destruct (1 <=? room r); cbn [negb]; [|by destruct db].
  unfold published_db, set_ring. rewrite Hr, (dw_bits _ Hw), Hn. done.
Qed.

(** Every way a single append ends.  On a well-formed database it never
    panics; a refusal (unhealthy, content too large, shutting down, ring full
    under [Drop], in this order of precedence) leaves the database exactly as it
    was, the in-flight count included; it waits only under [Block] on a full
    ring; otherwise the returned id names the shard and the local sequence the
    record was published at, the slot holds the record, the cursor has moved by
    one, and no other slot, cursor or shard has changed. *)
Theorem append_outcomes ts content s r db :
  db_wf db -> sh_rings (db_shards db) !! s = Some r ->
  match append_routed ts content (Z.of_nat s) db with
  | Panics => False
  | Waits => admission db [content] = None /\ queue_full_policy (db_config db) = Block /\ room r < 1
  | Returned (Err e, db') => db' = db /\
      (admission db [content] = Some e \/
       admission db [content] = None /\ queue_full_policy (db_config db) = Drop /\ room r < 1 /\ e = QueueFull)
  | Returned (Ok id, db') => admission db [content] = None /\ 1 <= room r /\
      id = encode_record_id (Z.of_nat s) (producer_cursor r) (sh_bits (db_shards db)) /\
      appended db db' s r ts [content] /\ db_committer_wake db' = true
  end.
Proof.
  intros Hw Hs. rewrite (append_routed_eq ts content s r) by done.
  destruct (admission db [content]) as [e|] eqn:Ha; [split; [done|by left]|].
  destruct (Z.leb_spec 1 (room r)).
  - split; [done|]. split; [done|]. split; [done|]. split; [|done].
    apply appended_intro; try done. by apply admission_fits.
  - destruct (queue_full_policy (db_config db)); [done|]. split; [done|]. by right.
Qed.

(** C36: every way a batch append ends.  An empty batch, a batch with one content
    that is too large, an unhealthy or closing database and a ring without room
    refuse the batch as a whole and change nothing; otherwise all contents are
    published at consecutive sequences of one shard, in order, the first of
    which the returned id names. *)
Theorem append_batch_outcomes hash ts contents key s r db :
  db_wf db -> (select_shard hash (db_shards db) key).1 = Z.of_nat s ->
  sh_rings (db_shards db) !! s = Some r ->
  let n := Z.of_nat (length contents) in
  match (append_batch hash ts contents key db).1 with
  | Panics => False
  | Waits => contents <> [] /\ admission db contents = None /\
      queue_full_policy (db_config db) = Block /\ room r < n <= rsize r
  | Returned (Err e, db') => db' = db /\
      (contents = [] /\ e = EmptyBatch \/
       contents <> [] /\ admission db contents = Some e \/
       contents <> [] /\ admission db contents = None /\ e = QueueFull /\
       (rsize r < n \/ queue_full_policy (db_config db) = Drop /\ room r < n))
  | Returned (Ok id, db') => contents <> [] /\ admission db contents = None /\ n <= room r /\
      id = encode_record_id (Z.of_nat s) (producer_cursor r) (sh_bits (db_shards db)) /\
      appended db db' s r ts contents
  end.
Proof.
  intros Hw Hsel Hs n. destruct (decide (contents = [])) as [->|Hne]; [split; [done|by left]|].
  rewrite (append_batch_eq hash ts contents key s r) by done. fold n.
  destruct (admission db contents) as [e|] eqn:Ha; [split; [done|]; right; by left|].
  destruct (Z.leb_spec n (room r)).
  - split; [done|]. split; [done|]. split; [done|]. split; [done|].
    apply appended_intro; try done. by apply admission_fits.
  - destruct (Z.ltb_spec (rsize r) n); [split; [done|]; right; right; auto 6|].
    destruct (queue_full_policy (db_config db)); [done|]. split; [done|]. right; right. auto 6.
Qed.

(** A standby follows its primary.  On a well-formed database with one shard
    that admits the record, [replicate] at the next sequence publishes the record
    there exactly as an append of it would; at an earlier sequence it reports
    success and changes nothing, so that a repeated delivery is harmless; at a
    later sequence, and on a full ring, it reports an error and changes nothing;
    it never waits or panics. *)
Theorem replicate_outcomes sequence ts content r db :
  db_wf db -> sh_rings (db_shards db) = [r] -> admission db [content] = None ->
  match replicate_record sequence ts content db with
  | Returned (Ok _, db') =>
      sequence < producer_cursor r /\ db' = db \/
      sequence = producer_cursor r /\ appended db db' 0 r ts [content] /\
      append_routed ts content 0 db = Returned (Ok sequence, set_db_wake true db')
  | Returned (Err e, db') => db' = db /\
      (producer_cursor r < sequence /\ e = AppendIo \/
       sequence = producer_cursor r /\ room r < 1 /\ e = QueueFull)
  | _ => False
  end.
Proof.
  intros Hw Hr Ha. rewrite (replicate_eq sequence ts content r) by done.
  assert (sh_rings (db_shards db) !! 0%nat = Some r) as Hs by (by rewrite Hr).
  destruct (Z.ltb_spec sequence (producer_cursor r)); [by left|].
  destruct (Z.eqb_spec sequence (producer_cursor r)) as [->|]; cbn [negb]; [|split; [done|]; left; split; [lia|done]].
  pose proof (append_routed_eq ts content 0 r db Hw Hs) as He. rewrite Ha in He.
  destruct (Z.leb_spec 1 (room r)); [|split; [done|]; by right]. right. split; [done|]. split.
  - apply appended_intro; try done. by apply admission_fits.
  - change 0 with (Z.of_nat 0). rewrite He. rewrite (dw_bits _ Hw). unfold num_shards. by rewrite Hr.
Qed.

(** ** Appends as runs of the pipeline *)

Section pipeline_run.
Context `{Externals}.
Variables (s : nat) (bits : Z) (policy : QueueFullPolicy).

Abbreviation prod_run := (rtc (producer_step (Z.of_nat s) bits policy)).

(** Writing and publishing the claimed slots. *)
Lemma run_writes p r ps se co sd d g l ts cs :
  prod_run (mkSt r (<[p := PWrite l (pair ts <$> cs)]> ps) se co sd d g)
    (mkSt (write_records r (Z.of_nat s) bits l ts cs)
       (<[p := PWrite (l + Z.of_nat (length cs)) []]> ps) se co sd d g).
Proof.
  revert r l. induction cs as [|c cs IH]; intros r l; csimpl.
  { rewrite Z.add_0_r. apply rtc_refl. }
  eapply rtc_l; [apply (P_write _ _ _ p l (ts, c) (pair ts <$> cs)), lookup_insert_eq|].
  eapply rtc_l; [apply (P_publish _ _ _ p l (ts, c) (pair ts <$> cs)), lookup_insert_eq|].
  rewrite !insert_insert_eq. cbn [fst snd].
  replace (l + Z.of_nat (S (length cs))) with (l + 1 + Z.of_nat (length cs)) by lia. apply IH.
Qed.

(** A whole undisturbed append of request [q]. *)
Lemma run_append q ts cs p r ps se co sd d g :
  items q = pair ts <$> cs -> ps !! p = None -> Z.of_nat (size ps) + 1 < 2 ^ 64 ->
  0 <= in_flight sd < U64_MAX -> draining sd = false ->
  1 <= Z.of_nat (length cs) <= rsize r -> Forall (fun c => blen c < 2 ^ 32) cs ->
  full q (rsize r) (producer_cursor r) (consume_watermark r) = false ->
  producer_cursor r + Z.of_nat (length cs) < U64_MAX ->
  let l := producer_cursor r in
  prod_run (mkSt r ps se co sd d g)
    (mkSt (write_records (set_producer r (l + Z.of_nat (length cs))) (Z.of_nat s) bits l ts cs)
       ps se co sd d (g ++ (pair ts <$> cs))).
Proof.
  intros Hq Hp Hsz Hfl Hdr Hn Hc Hfull Htop l.
  assert (length (items q) = length cs) as Hlen by (by rewrite Hq, length_fmap).
  eapply rtc_l; [apply (P_enter _ _ _ p q); rewrite ?Hlen; try done|].
  { rewrite Hq. apply Forall_fmap. exact Hc. }
  eapply rtc_l; [apply (P_admitted _ _ _ p q); [apply lookup_insert_eq|done]|].
  eapply rtc_l; [apply (P_load _ _ _ p q), lookup_insert_eq|].
  eapply rtc_l; [apply (P_committed _ _ _ p q), lookup_insert_eq|].
  eapply rtc_l; [apply (P_sealed _ _ _ p q), lookup_insert_eq|].
  eapply rtc_l; [eapply (P_cas_ok _ _ _ p q l (consume_watermark r)); [apply lookup_insert_eq|done|done|]|].
  { by rewrite Hlen. }
  rewrite Hlen, Hq, !insert_insert_eq. etransitivity; [apply run_writes|].
  eapply rtc_l; [eapply (P_published _ _ _ p), lookup_insert_eq|].
  eapply rtc_l; [apply (P_leave _ _ _ p), lookup_insert_eq|].
  rewrite !insert_insert_eq, leave_reserve, delete_insert_eq, delete_id by done. apply rtc_refl.
Qed.
End pipeline_run.

(** C5: an append is a run of the concurrent pipeline.  A successful [append] or
    [append_batch] takes the ring of its shard through a sequence of steps of one
    producer thread of the pipeline, from whatever state the other threads are
    in, and adds its records to the pipeline's log; what is proved of the
    pipeline therefore holds of the records appended through the handle. *)
Theorem append_is_pipeline_run `{Externals} s r db p ps se co d g :
  db_wf db -> sh_rings (db_shards db) !! s = Some r -> ps !! p = None ->
  Z.of_nat (size ps) + 1 < 2 ^ 64 -> producer_cursor r + rsize r < U64_MAX ->
  let runs ts cs db' := exists r', sh_rings (db_shards db') !! s = Some r' /\
    rtc (producer_step (Z.of_nat s) (sh_bits (db_shards db)) (queue_full_policy (db_config db)))
      (mkSt r ps se co (db_shutdown db) d g)
      (mkSt r' ps se co (db_shutdown db') d (g ++ (pair ts <$> cs))) in
  (forall ts c id db', append_routed ts c (Z.of_nat s) db = Returned (Ok id, db') -> runs ts [c] db') /\
  (forall hash key ts cs id db', (select_shard hash (db_shards db) key).1 = Z.of_nat s ->
     (append_batch hash ts cs key db).1 = Returned (Ok id, db') -> runs ts cs db').
Proof.
  intros Hw Hs Hp Hsz Htop runs. destruct (db_cursor_top db s r Hw Hs) as (Hc & _ & Hr).
  assert (forall q ts cs w, items q = pair ts <$> cs -> admission db cs = None ->
    1 <= Z.of_nat (length cs) <= room r ->
    full q (rsize r) (producer_cursor r) (consume_watermark r) = false ->
    runs ts cs (published_db db s r ts cs w)) as Hrun.
  { intros q ts cs w Hq Ha Hn Hf. unfold room in Hn. eexists. split.
    { simpl. apply list_lookup_insert_eq. by eapply lookup_lt_Some. }
    change (db_shutdown (published_db db s r ts cs w)) with (db_shutdown db).
    eapply (run_append s _ _ q); try done; [apply Hw| |lia| |lia].
    - revert Ha. unfold admission. destruct (health_error db); [done|]. destruct (size_error _ cs); [done|].
      by destruct (draining (db_shutdown db)).
    - eapply db_contents_small; [done|]. by apply admission_fits. }
  split.
  - intros ts c id db'. rewrite (append_routed_eq ts c s r) by done.
    destruct (admission db [c]) eqn:Ha; [done|]. destruct (Z.leb_spec 1 (room r)).
    + intros [= _ <-]. apply (Hrun (Single (ts, c))); [done|done|simpl; lia|].
      simpl. destruct (claim_room db s r 1 Hw Hs ltac:(lia)) as [_ ->]. by rewrite (proj2 (Z.leb_le _ _)).
    + by destruct (queue_full_policy (db_config db)).
  - intros hash key ts cs id db' Hsel. destruct (decide (cs = [])) as [->|Hne]; [done|].
    rewrite (append_batch_eq hash ts cs key s r) by done.
    destruct (admission db cs) eqn:Ha; [done|]. destruct (Z.leb_spec (Z.of_nat (length cs)) (room r)) as [Hn|].
    + intros [= _ <-]. apply (Hrun (Many (pair ts <$> cs))); [done|done| |].
      { destruct cs; simpl in *; [done|lia]. }
      simpl. rewrite length_fmap. unfold room in *.
      destruct (claim_room db s r (Z.of_nat (length cs)) Hw Hs ltac:(lia)) as [-> _].
      by rewrite (proj2 (Z.leb_le _ _)).
    + by repeat case_match.
Qed.

Section append_demo.
#[local] Instance append_demo_externals : Externals := toy.

(** A fresh database with one shard of 16 slots. *)
Definition demo_append_ring : Ring := mkRing (replicate 16 slot_new) 15 16 0 0 0 0 false.

Definition demo_config : Config := mkConfig (1024 * 1024) 16 1 100 false false Sync Drop 4 KeepAll.

Definition demo_db : LogDb :=
  mkLogDb demo_config (mkShardMap [demo_append_ring] 0) health_new (flush_new 1) shutdown_new 0 false.

Lemma demo_db_wf : db_wf demo_db.
Proof.
  assert (ring_wf demo_append_ring) as Hr
    by (apply (ring_new_wf 16 false 0); [split; [discriminate|reflexivity]|reflexivity]).
  split; [by constructor|done|done|done|done|]. constructor; [|constructor]. vm_compute. split; [split|]; done.
Qed.

Definition demo_content : bytes := [Byte.x61; Byte.x62].

Lemma append_outcomes_witness :
  exists db', append_routed 7 demo_content 0 demo_db = Returned (Ok 0, db') /\
    appended demo_db db' 0 demo_append_ring 7 [demo_content].
Proof.
  pose proof (append_outcomes 7 demo_content 0 demo_append_ring demo_db demo_db_wf eq_refl) as Ho.
  change (Z.of_nat 0) with 0 in Ho.
  assert (match append_routed 7 demo_content 0 demo_db with Returned (Ok 0, _) => True | _ => False end)
    as Hm by (vm_compute; exact I).
  destruct (append_routed 7 demo_content 0 demo_db) as [[[id|e] db']| |]; try contradiction.
  destruct id; try contradiction. exists db'. split; [reflexivity|]. apply Ho.
Defined.

Lemma append_batch_outcomes_witness :
  exists db', (append_batch 5 7 [demo_content; demo_content] USIZE_MAX demo_db).1 = Returned (Ok 0, db') /\
    appended demo_db db' 0 demo_append_ring 7 [demo_content; demo_content].
Proof.
  pose proof (append_batch_outcomes 5 7 [demo_content; demo_content] USIZE_MAX 0 demo_append_ring demo_db
    demo_db_wf eq_refl eq_refl) as Ho. cbv zeta in Ho.
  assert (match (append_batch 5 7 [demo_content; demo_content] USIZE_MAX demo_db).1 with
          | Returned (Ok 0, _) => True | _ => False end) as Hm by (vm_compute; exact I).
  destruct ((append_batch 5 7 [demo_content; demo_content] USIZE_MAX demo_db).1) as [[[id|e] db']| |];
    try contradiction.
  destruct id; try contradiction. exists db'. split; [reflexivity|]. apply Ho.
Defined.

Lemma replicate_outcomes_witness :
  match replicate_record 3 7 demo_content demo_db with
  | Returned (Err e, db') => e = AppendIo /\ db' = demo_db
  | _ => False
  end.
Proof.
  pose proof (replicate_outcomes 3 7 demo_content demo_append_ring demo_db demo_db_wf eq_refl eq_refl) as Ho.
  assert (match replicate_record 3 7 demo_content demo_db with
          | Returned (Err AppendIo, _) => True | _ => False end) as Hm by (vm_compute; exact I).
  destruct (replicate_record 3 7 demo_content demo_db) as [[[?|e] db']| |]; try contradiction.
  destruct e; try contradiction. split; [reflexivity|apply Ho].
Defined.

Lemma append_is_pipeline_run_witness :
  exists r' db', append_routed 7 demo_content 0 demo_db = Returned (Ok 0, db') /\
    rtc (producer_step 0 0 Drop)
      (mkSt demo_append_ring ∅ (mkSealer 0 [] (SScan 0)) (mkCommitter 0 CIdle []) shutdown_new DRun [])
      (mkSt r' ∅ (mkSealer 0 [] (SScan 0)) (mkCommitter 0 CIdle []) (db_shutdown db') DRun [(7, demo_content)]).
Proof.
  pose proof (append_is_pipeline_run 0 demo_append_ring demo_db 0%nat ∅ (mkSealer 0 [] (SScan 0))
    (mkCommitter 0 CIdle []) DRun [] demo_db_wf eq_refl eq_refl eq_refl eq_refl) as [Hrun _].
  change (Z.of_nat 0) with 0 in Hrun. specialize (Hrun 7 demo_content 0).
  assert (match append_routed 7 demo_content 0 demo_db with Returned (Ok 0, _) => True | _ => False end)
    as Hm by (vm_compute; exact I).
  destruct (append_routed 7 demo_content 0 demo_db) as [[[id|e] db']| |]; try contradiction.
  destruct id; try contradiction.
  destruct (Hrun db' eq_refl) as (r' & _ & Hr). exists r', db'. split; [reflexivity|exact Hr].
Defined.
End append_demo.
