(* ===== verification/AtomicFile.v ===== *)
(** * Small files that are replaced as a whole

    The checkpoint ([logdb/src/lib.rs]), the tailers' positions
    ([logdb/src/tailer.rs]) and the pusher's progress ([logdb/src/pusher.rs]) are
    files that are replaced by writing a temporary file, syncing it, renaming it
    and syncing the directory.  The model keeps, besides what the running process
    sees, every content the file may have after a crash. *)
From stdpp Require Import base list numbers.
From coqutil Require Import Byte.
From Stdlib Require Import ZArith Lia.
From S2P Require Import Prelude Externals Config FileSys.
Open Scope Z_scope.

(** [af_after_crash] lists what the file may hold when the machine stops now.  A
    temporary file that was renamed without being synced may come back empty or
    as it was written. *)
Record AtomicFile := mkAtomicFile {
  af_dat : option bytes;
  af_tmp : bytes;
  af_tmp_synced : bool;
  af_after_crash : list (option bytes);
  af_faults : list (option Z);
}.

(** One call: a fault [Some n] makes it fail after [n] bytes. *)
Definition af_call (failed : Z -> AtomicFile -> AtomicFile) (done : AtomicFile -> AtomicFile)
    : M AtomicFile IoError unit :=
  fun d =>
    let d' := mkAtomicFile (af_dat d) (af_tmp d) (af_tmp_synced d) (af_after_crash d) (tail (af_faults d)) in
    match mjoin (head (af_faults d)) with
    | Some n => (Err OtherIo, failed n d')
    | None => (Ok tt, done d')
    end.

Definition set_tmp (b : bytes) (synced : bool) (d : AtomicFile) : AtomicFile :=
  mkAtomicFile (af_dat d) b synced (af_after_crash d) (af_faults d).

(** [File::create(&tmp)]. *)
Definition af_create : M AtomicFile IoError unit := af_call (fun _ d => d) (set_tmp [] false).

(** [write_all]. *)
Definition af_write (buf : bytes) : M AtomicFile IoError unit :=
  af_call (fun n d => set_tmp (af_tmp d ++ take (Z.to_nat n) buf) false d)
    (fun d => set_tmp (af_tmp d ++ buf) false d).

(** [platform::fdatasync(&f)]. *)
Definition af_fdatasync : M AtomicFile IoError unit :=
  af_call (fun _ d => d) (fun d => set_tmp (af_tmp d) true d).

(** [fs::rename(&tmp, &path)]. *)
Definition af_rename : M AtomicFile IoError unit :=
  af_call (fun _ d => d) (fun d =>
    let lost := if af_tmp_synced d then [] else [Some []] in
    mkAtomicFile (Some (af_tmp d)) [] false (Some (af_tmp d) :: lost ++ af_after_crash d) (af_faults d)).

(** [File::open(dir)]. *)
Definition af_open_dir : M AtomicFile IoError unit := af_call (fun _ d => d) (fun d => d).

(** [platform::sync_dir]. *)
Definition af_sync_dir : M AtomicFile IoError unit :=
  af_call (fun _ d => d) (fun d =>
    mkAtomicFile (af_dat d) (af_tmp d) (af_tmp_synced d) [af_dat d] (af_faults d)).

(** [fs::remove_file]: until the directory is synced the old content may come
    back. *)
Definition af_remove : M AtomicFile IoError unit :=
  af_call (fun _ d => d) (fun d =>
    mkAtomicFile None (af_tmp d) (af_tmp_synced d) (None :: af_after_crash d) (af_faults d)).

Fixpoint af_write_chunks (chunks : list bytes) : M AtomicFile IoError unit :=
  match chunks with
  | [] => mret tt
  | c :: cs => af_write c ;; af_write_chunks cs
  end.

(** The whole protocol; [chunks] are the arguments of the [write_all] calls. *)
Definition replace_file (chunks : list bytes) : M AtomicFile IoError unit :=
  af_create ;;
  af_write_chunks chunks ;;
  af_fdatasync ;;
  af_rename ;;
  af_open_dir ;;
  af_sync_dir.

(** ** Properties *)

(** The process sees one of the contents a crash may leave. *)
Definition af_wf (d : AtomicFile) : Prop := af_dat d ∈ af_after_crash d.

(** The visible part of the state. *)
Definition af_same (d d' : AtomicFile) : Prop :=
  af_dat d' = af_dat d /\ af_after_crash d' = af_after_crash d.

Lemma af_write_chunks_spec chunks d r d' :
  af_write_chunks chunks d = (r, d') ->
  af_same d d' /\ (r = Ok tt -> af_tmp d' = af_tmp d ++ concat chunks).
Proof.
  revert d. induction chunks as [|c cs IH]; intros d; cbn [af_write_chunks].
  { intros [= <- <-]. split; [done|]. intros _. by rewrite app_nil_r. }
  unfold mbind, M_bind. destruct (af_write c d) as [[[]|e] d1] eqn:Hw.
  - intros Hcs. apply IH in Hcs as [[H1 H2] Ht]. revert Hw. unfold af_write, af_call.
    destruct (mjoin _); [discriminate|]. intros [= <-]. simpl in *. split; [done|].
    intros Hr. rewrite Ht by done. by rewrite <- app_assoc.
  - intros [= <- <-]. revert Hw. unfold af_write, af_call. destruct (mjoin _); [|discriminate].
    intros [= <- <-]. done.
Qed.

(** The file is replaced in one piece: wherever a call fails or the machine
    stops, it holds an old content or the new one. *)
Lemma replace_file_spec chunks d r d' :
  af_wf d -> replace_file chunks d = (r, d') ->
  af_wf d' /\
  (forall f, f ∈ af_after_crash d' -> f ∈ af_after_crash d \/ f = Some (concat chunks)) /\
  (r = Ok tt -> af_after_crash d' = [Some (concat chunks)] /\ af_dat d' = Some (concat chunks)).
Proof.
  unfold af_wf. intros Hd. unfold replace_file, mbind, M_bind. unfold af_create. unfold af_call at 1.
  destruct (mjoin (head (af_faults d))); [intros [= <- <-]; naive_solver|].
  destruct (af_write_chunks chunks _) as [r1 d1] eqn:Hw. apply af_write_chunks_spec in Hw as [[H1 H2] Ht].
  simpl in *. destruct r1 as [[]|e]; [|intros [= <- <-]; rewrite H1, H2; naive_solver].
  specialize (Ht eq_refl). rewrite <- H1, <- H2 in *. clear d H1 H2. destruct d1 as [dat tmp sy ac fl]. simpl in *. subst tmp.
  unfold af_fdatasync, af_rename, af_open_dir, af_sync_dir, af_call.
  cbn [af_dat af_tmp af_tmp_synced af_after_crash af_faults set_tmp].
  repeat match goal with
  | |- context [match mjoin (head ?l) with _ => _ end] => destruct (mjoin (head l))
  end; cbn [af_dat af_tmp af_tmp_synced af_after_crash af_faults set_tmp app]; intros [= <- <-];
    cbn [af_dat af_after_crash]; (split; [done || by left|]); (split; [|done]); intros f Hf; auto;
    apply elem_of_cons in Hf as [->|Hf]; auto; by apply not_elem_of_nil in Hf.
Qed.

(** Removing the file leaves an old content or none. *)
Lemma af_remove_spec d r d' :
  af_wf d -> af_remove d = (r, d') ->
  af_wf d' /\ (forall f, f ∈ af_after_crash d' -> f ∈ af_after_crash d \/ f = None) /\
  (r = Ok tt -> af_dat d' = None).
Proof.
  unfold af_wf, af_remove, af_call. intros Hd. destruct (mjoin _); intros [= <- <-]; simpl.
  - naive_solver.
  - split; [by left|]. split; [|done]. intros f [->|Hf]%elem_of_cons; auto.
Qed.

(** ** A sequence with its checksum *)

Section stamped.
Context `{Externals}.

(** The 12 bytes of a checkpoint, of a single position and of the pusher's
    progress. *)
Definition stamped (seq : Z) : bytes :=
  let seq_bytes := to_le 8 seq in seq_bytes ++ to_le 4 (crc32c seq_bytes).

Lemma stamped_fields seq :
  in_range 64 seq ->
  blen (stamped seq) = 12 /\ crc32c (slice (stamped seq) 0 8) = get_le (stamped seq) 8 4 /\
  get_le (stamped seq) 0 8 = seq.
Proof.
  intros Hs. unfold stamped, get_le. assert (blen (to_le 8 seq) = 8) as H8 by (by rewrite length_to_le).
  split; [by rewrite length_app, !length_to_le|].
  rewrite (slice_app_exact _ _ 0 8), (slice_app_exact _ _ 0 (0 + 8)) by (done || lia).
  rewrite slice_app_r by lia. rewrite H8. rewrite slice_exact by (by rewrite ?length_to_le).
  rewrite from_to_le by (apply crc32c_range). split; [done|]. by apply from_to_le.
Qed.
End stamped.
