(* ===== verification/Checkpoint.v ===== *)
(** * Checkpoints and the recovery report ([logdb/src/lib.rs])

    [checkpoint], [save_checkpoint], [load_checkpoint] and [recovery_report].
    The checkpoint file is replaced as a whole ([AtomicFile]). *)
From stdpp Require Import base list numbers.
From coqutil Require Import Byte.
From Stdlib Require Import ZArith Lia.
From S2P Require Import Prelude Externals RustStd Shard Config Ring Signal FileSys AtomicFile ShardMap Append.
Open Scope Z_scope.

Section checkpoint.
Context `{Externals}.

(** [save_checkpoint]. *)
Definition save_checkpoint (seq : Z) : M AtomicFile IoError unit := replace_file [stamped seq].

(** [LogDb::load_checkpoint] on the contents of the file, if there is one. *)
Definition load_checkpoint (file : option bytes) : Z :=
  match file with
  | Some data =>
      if negb (blen data =? 12) then 0
      else if crc32c (slice data 0 8) =? get_le data 8 4 then get_le data 0 8 else 0
  | None => 0
  end.

(** [LogDb::checkpoint]: the shared cell only rises; the file is written with
    the caller's value, and errors are dropped. *)
Definition checkpoint (sequence : Z) (db : LogDb) (d : AtomicFile) : LogDb * AtomicFile :=
  let db := mkLogDb (db_config db) (db_shards db) (db_health db) (db_flush db) (db_shutdown db)
              (if db_checkpoint db <? sequence then sequence else db_checkpoint db)
              (db_committer_wake db) in
  (db, (save_checkpoint sequence d).2).

(** ** Properties *)

Lemma load_stamped seq : in_range 64 seq -> load_checkpoint (Some (stamped seq)) = seq.
Proof.
  intros Hs. destruct (stamped_fields seq Hs) as (H12 & Hc & Hseq). unfold load_checkpoint.
  rewrite H12, Hc, !Z.eqb_refl. exact Hseq.
Qed.

(** Saving leaves an old content or one that loads as the sequence. *)
Lemma save_checkpoint_spec seq d r d' :
  in_range 64 seq -> af_wf d -> save_checkpoint seq d = (r, d') ->
  af_wf d' /\
  (forall f, f ∈ af_after_crash d' -> f ∈ af_after_crash d \/ load_checkpoint f = seq) /\
  (r = Ok tt -> af_after_crash d' = [af_dat d'] /\ load_checkpoint (af_dat d') = seq).
Proof.
  intros Hs Hd Hsave. pose proof (load_stamped seq Hs) as Hl.
  apply replace_file_spec in Hsave as (Hw & Hc & Hr); [|done]. cbn [concat] in *. rewrite app_nil_r in *.
  split; [done|]. split; [intros f Hf; destruct (Hc f Hf) as [?| ->]; auto|].
  intros Ho. destruct (Hr Ho) as [-> ->]. auto.
Qed.

(** The database and the file after a sequence of checkpoints. *)
Definition checkpoints (seqs : list Z) (s : LogDb * AtomicFile) : LogDb * AtomicFile :=
  foldl (fun s seq => checkpoint seq s.1 s.2) s seqs.

Lemma checkpoints_file seqs db d :
  Forall (in_range 64) seqs -> af_wf d ->
  let d' := (checkpoints seqs (db, d)).2 in
  af_wf d' /\
  forall f, f ∈ af_after_crash d' -> f ∈ af_after_crash d \/ load_checkpoint f ∈ seqs.
Proof.
  intros Hs. revert db d. induction Hs as [|x seqs Hx Hs IH]; intros db d Hd; [by split; [|left]|].
  unfold checkpoints. cbn [foldl].
  destruct (save_checkpoint x d) as [r d1] eqn:Hsave.
  destruct (save_checkpoint_spec x d r d1 Hx Hd Hsave) as (Hd1 & Hc & _).
  cbn [fst snd]. assert (checkpoint x db d = ((checkpoint x db d).1, d1)) as ->
    by (unfold checkpoint; by rewrite Hsave).
  destruct (IH (checkpoint x db d).1 d1 Hd1) as [Hd' Hc']. split; [exact Hd'|].
  intros f Hf. destruct (Hc' f Hf) as [Hf1|Hf1]; [|right; by right].
  destruct (Hc f Hf1) as [?|<-]; [by left|right; by left].
Qed.

Lemma checkpoints_cell seqs db d :
  db_checkpoint (checkpoints seqs (db, d)).1 = foldl Z.max (db_checkpoint db) seqs.
Proof.
  revert db d. induction seqs as [|x seqs IH]; intros db d; [done|]. unfold checkpoints. cbn [foldl fst snd].
  destruct (checkpoint x db d) as [db1 d1] eqn:Hc. etransitivity; [exact (IH db1 d1)|]. f_equal.
  unfold checkpoint in Hc. simplify_eq. cbn [db_checkpoint]. destruct (Z.ltb_spec (db_checkpoint db) x); lia.
Qed.

(** Checkpoints survive crashes.  After any sequence of checkpoint calls,
    whatever I/O faults they met, the shared checkpoint is the largest of the
    sequences and never falls; the file that a restart finds, also when the
    machine stops right then, loads as the value it had before or as one of the
    sequences, never as a mixture; and when the last save succeeded it loads as
    that one. *)
Theorem checkpoint_survives_crash seqs last db d :
  Forall (in_range 64) (seqs ++ [last]) -> af_wf d ->
  let s := checkpoints seqs (db, d) in
  let '(db', d') := checkpoint last s.1 s.2 in
  db_checkpoint db' = foldl Z.max (db_checkpoint db) (seqs ++ [last]) /\
  (forall f, f ∈ af_after_crash d' ->
     f ∈ af_after_crash d \/ load_checkpoint f ∈ seqs ++ [last]) /\
  ((save_checkpoint last s.2).1 = Ok tt ->
     af_after_crash d' = [af_dat d'] /\ load_checkpoint (af_dat d') = last).
Proof.
  intros Hs Hd s. destruct (checkpoint last s.1 s.2) as [db' d'] eqn:Hc.
  assert (checkpoints (seqs ++ [last]) (db, d) = (db', d')) as Hall
    by (unfold checkpoints; by rewrite foldl_app; simpl).
  pose proof (checkpoints_cell (seqs ++ [last]) db d) as Hcell.
  destruct (checkpoints_file (seqs ++ [last]) db d Hs Hd) as [_ Hf]. rewrite Hall in *.
  destruct (checkpoints_file seqs db d) as [Hd1 _]; [by apply Forall_app in Hs as [? _]|done|].
  split; [done|]. split; [done|]. intros Hok. apply Forall_app in Hs as [_ Hl]. inversion Hl; subst.
  destruct (save_checkpoint last s.2) as [r d1] eqn:Hsave. cbn [fst] in Hok.
  unfold checkpoint in Hc. rewrite Hsave in Hc. simplify_eq/=.
  by apply save_checkpoint_spec in Hsave as (_ & _ & Hr); [apply Hr|..].
Qed.

End checkpoint.

(** ** The recovery report *)

Record RecoveryReport := mkReport {
  from_sequence : Z;
  to_sequence : Z;
  rr_count : Z;
}.

(** [a.div_ceil(b)]. *)
Definition div_ceil (a b : Z) : Z := (a + b - 1) / b.

(** The loop over the shards, from shard [s] on. *)
Fixpoint report_shards (cp bits s : Z) (rings : list Ring) (count watermark : Z) : Z * Z :=
  match rings with
  | [] => (count, watermark)
  | r :: rings =>
      let durable_s := durable_cursor r in
      let first_local := if cp <=? s then 0 else div_ceil (cp - s) (Z.shiftl 1 bits) in
      let count := u64 (count + sat_sub durable_s first_local) in
      let wm := Z.lor (u64 (Z.shiftl durable_s bits)) s in
      report_shards cp bits (s + 1) rings count (if wm <? watermark then wm else watermark)
  end.

Definition recovery_report (db : LogDb) : RecoveryReport :=
  let cp := db_checkpoint db in
  let m := db_shards db in
  let '(count, watermark) := report_shards cp (sh_bits m) 0 (sh_rings m) 0 U64_MAX in
  mkReport cp (if watermark =? U64_MAX then 0 else watermark) count.

(** The ids of the durable records of the shards, from shard [s] on. *)
Fixpoint durable_ids (bits s : Z) (rings : list Ring) : list Z :=
  match rings with
  | [] => []
  | r :: rings =>
      ((fun l => encode_record_id s (Z.of_nat l) bits) <$> seq 0 (Z.to_nat (durable_cursor r))) ++
      durable_ids bits (s + 1) rings
  end.

(** Rings whose durable records have valid ids. *)
Definition report_ok (bits s : Z) (rings : list Ring) : Prop :=
  0 <= bits < 64 /\ 0 <= s /\ s + Z.of_nat (length rings) <= 2 ^ bits /\
  Forall (fun r => 0 <= durable_cursor r < 2 ^ (64 - bits)) rings.

Lemma div_ceil_le a b x : 0 < b -> div_ceil a b <= x <-> a <= x * b.
Proof.
  intros Hb. unfold div_ceil. split; intros Hx.
  - pose proof (Z.div_mod (a + b - 1) b ltac:(lia)). pose proof (Z.mod_pos_bound (a + b - 1) b Hb). nia.
  - assert ((a + b - 1) / b < x + 1); [|lia]. apply Z.div_lt_upper_bound; [done|]. nia.
Qed.

Lemma count_from cp g f n :
  0 <= f -> (forall l, (l < n)%nat -> cp <= g l <-> f <= Z.of_nat l) ->
  Z.of_nat (length (filter (fun id => cp <= id) (g <$> seq 0 n))) = sat_sub (Z.of_nat n) f.
Proof.
  intros Hf. unfold sat_sub. induction n as [|n IH]; intros Hg; [simpl; lia|].
  rewrite seq_S, fmap_app, list.filter_app, length_app, Nat2Z.inj_add, IH by auto with lia.
  csimpl. specialize (Hg n ltac:(lia)). rewrite filter_cons. case_decide; simpl; lia.
Qed.

(** The durable records of one shard at or after the checkpoint. *)
Lemma count_shard cp bits s d :
  0 <= bits < 64 -> 0 <= s < 2 ^ bits -> 0 <= d < 2 ^ (64 - bits) ->
  let first_local := if cp <=? s then 0 else div_ceil (cp - s) (Z.shiftl 1 bits) in
  Z.of_nat (length (filter (fun id => cp <= id)
    ((fun l => encode_record_id s (Z.of_nat l) bits) <$> seq 0 (Z.to_nat d)))) = sat_sub d first_local.
Proof.
  intros Hb Hs Hd f. rewrite <- (Z2Nat.id d) at 2 by lia.
  assert (0 < 2 ^ bits) by (apply Z.pow_pos_nonneg; lia).
  assert (0 <= f) as Hf.
  { subst f. destruct (Z.leb_spec cp s); [done|]. apply Z.div_pos; rewrite Z.shiftl_1_l; lia. }
  apply count_from; [done|]. intros l Hl. rewrite encode_eq by (split; lia). subst f.
  destruct (Z.leb_spec cp s); [split; nia|].
  rewrite Z.shiftl_1_l, div_ceil_le by done. lia.
Qed.

(** What the ids at or after the checkpoint number, from shard [s] on. *)
Definition unreplayed (cp bits s : Z) (rings : list Ring) : Z :=
  Z.of_nat (length (filter (fun id => cp <= id) (durable_ids bits s rings))).

Lemma report_ok_cons bits s r rings :
  report_ok bits s (r :: rings) ->
  0 <= s < 2 ^ bits /\ 0 <= durable_cursor r < 2 ^ (64 - bits) /\ report_ok bits (s + 1) rings.
Proof.
  intros (Hb & Hs & Hn & Hf). inversion Hf; subst. cbn [length] in Hn.
  split; [lia|]. split; [done|]. repeat split; try lia; done.
Qed.

Lemma unreplayed_cons cp bits s r rings :
  report_ok bits s (r :: rings) ->
  unreplayed cp bits s (r :: rings) =
  sat_sub (durable_cursor r) (if cp <=? s then 0 else div_ceil (cp - s) (Z.shiftl 1 bits)) +
  unreplayed cp bits (s + 1) rings.
Proof.
  intros Hok. apply report_ok_cons in Hok as Hc. destruct Hc as (Hs & Hd & _). destruct Hok as (Hb & _).
  unfold unreplayed. cbn [durable_ids]. rewrite list.filter_app, length_app, Nat2Z.inj_add.
  by rewrite (count_shard cp bits s (durable_cursor r)).
Qed.

(** There are fewer durable records than sequences. *)
Lemma unreplayed_bound cp bits s rings :
  report_ok bits s rings -> 0 <= unreplayed cp bits s rings <= Z.of_nat (length rings) * (2 ^ (64 - bits) - 1).
Proof.
  revert s. induction rings as [|r rings IH]; intros s Hok; [done|].
  rewrite unreplayed_cons by done. apply report_ok_cons in Hok as (Hs & Hd & Hok).
  specialize (IH (s + 1) Hok). cbn [length]. set (x := if cp <=? s then _ else _).
  assert (0 <= sat_sub (durable_cursor r) x <= 2 ^ (64 - bits) - 1); [|lia].
  assert (0 <= x); [|unfold sat_sub; lia]. subst x. destruct (Z.leb_spec cp s); [done|].
  rewrite Z.shiftl_1_l. apply Z.div_pos; pose proof (Z.pow_pos_nonneg 2 bits); destruct Hok; lia.
Qed.

(** The first id of a shard that is not durable. *)
Definition next_id (bits s : Z) (r : Ring) : Z := encode_record_id s (durable_cursor r) bits.

Lemma report_shards_spec cp bits s rings count wm :
  report_ok bits s rings -> 0 <= count -> count + unreplayed cp bits s rings < 2 ^ 64 ->
  let '(count', wm') := report_shards cp bits s rings count wm in
  count' = count + unreplayed cp bits s rings /\ wm' <= wm /\
  (forall i r, rings !! i = Some r -> wm' <= next_id bits (s + Z.of_nat i) r) /\
  (wm' = wm \/ exists i r, rings !! i = Some r /\ wm' = next_id bits (s + Z.of_nat i) r).
Proof.
  revert s count wm. induction rings as [|r rings IH]; intros s count wm Hok Hc Ht.
  { cbn. unfold unreplayed. cbn. split; [lia|]. split; [lia|]. split; [|by left].
    intros i r Hr. by rewrite lookup_nil in Hr. }
  pose proof (unreplayed_cons cp bits s r rings Hok) as Hu.
  apply report_ok_cons in Hok as Hok'. destruct Hok' as (Hs & Hd & Hok').
  pose proof (unreplayed_bound cp bits (s + 1) rings Hok') as [Hge _].
  cbn [report_shards]. set (x := sat_sub (durable_cursor r) _) in *.
  assert (0 <= x) as Hx by (subst x; unfold sat_sub; lia).
  rewrite (wrap_small 64 (count + x)) by (unfold in_range; lia).
  assert (Z.lor (u64 (Z.shiftl (durable_cursor r) bits)) s = next_id bits s r) as ->.
  { unfold next_id, encode_record_id. destruct (Z.eqb_spec bits 0) as [->|]; [|done].
    assert (s = 0) as -> by lia. rewrite Z.lor_0_r, Z.shiftl_0_r. apply wrap_small. unfold in_range. lia. }
  set (w := if next_id bits s r <? wm then _ else _).
  assert (w <= wm /\ w <= next_id bits s r /\ (w = wm \/ w = next_id bits s r)) as (Hw1 & Hw2 & Hw3).
  { subst w. destruct (Z.ltb_spec (next_id bits s r) wm); lia. }
  specialize (IH (s + 1) (count + x) w Hok' ltac:(lia) ltac:(lia)).
  destruct (report_shards cp bits (s + 1) rings (count + x) w) as [count' wm'].
  destruct IH as (-> & Hle & Hall & Hex). split; [lia|]. split; [lia|]. split.
  - intros [|i] r' Hr; simpl in Hr; simplify_eq; [rewrite Z.add_0_r; lia|].
    replace (s + Z.of_nat (S i)) with (s + 1 + Z.of_nat i) by lia. by apply Hall.
  - destruct Hex as [->|(i & r' & Hr & ->)].
    + destruct Hw3 as [->| ->]; [by left|]. right. exists 0%nat, r. by rewrite Z.add_0_r.
    + right. exists (S i), r'. split; [done|]. f_equal. lia.
Qed.

(** The recovery report is exact.  The count is the number of durable records
    of all shards with an id at or after the checkpoint, without overflow, and
    every id below the reported watermark belongs to a durable record. *)
Theorem recovery_report_exact db :
  let m := db_shards db in
  1 <= num_shards m <= 256 -> sh_bits m = shard_bits (num_shards m) ->
  Forall (fun r => 0 <= durable_cursor r < 2 ^ (64 - sh_bits m)) (sh_rings m) ->
  let rep := recovery_report db in
  from_sequence rep = db_checkpoint db /\
  rr_count rep = Z.of_nat (length (filter (fun id => db_checkpoint db <= id)
    (durable_ids (sh_bits m) 0 (sh_rings m)))) /\
  forall s r l, sh_rings m !! s = Some r -> 0 <= l < 2 ^ (64 - sh_bits m) ->
    encode_record_id (Z.of_nat s) l (sh_bits m) < to_sequence rep -> l < durable_cursor r.
Proof.
  intros m Hn Hb Hd. pose proof (shard_bits_small _ Hn) as Hbits. rewrite <- Hb in Hbits.
  assert (num_shards m <= 2 ^ sh_bits m) as Hfit.
  { rewrite Hb. pose proof (shard_bits_fits (num_shards m) (num_shards m - 1) ltac:(lia) ltac:(lia)). lia. }
  assert (report_ok (sh_bits m) 0 (sh_rings m)) as Hok
    by (unfold num_shards in *; repeat split; first [lia|exact Hd]).
  pose proof (unreplayed_bound (db_checkpoint db) _ _ _ Hok) as [_ Hmax].
  assert (2 ^ 64 = 2 ^ (64 - sh_bits m) * 2 ^ sh_bits m) as H64
    by (rewrite <- Z.pow_add_r by lia; f_equal; lia).
  assert (0 < 2 ^ sh_bits m /\ 0 < 2 ^ (64 - sh_bits m)) as [??]
    by (split; apply Z.pow_pos_nonneg; lia).
  assert (unreplayed (db_checkpoint db) (sh_bits m) 0 (sh_rings m) < 2 ^ 64) as Ht.
  { unfold num_shards in *. nia. }
  pose proof (report_shards_spec (db_checkpoint db) _ 0 _ 0 U64_MAX Hok ltac:(lia) Ht) as Hr.
  unfold recovery_report. fold m. destruct (report_shards _ _ _ _ _ _) as [count wm].
  destruct Hr as (-> & _ & Hall & _). cbn [from_sequence rr_count to_sequence]. split; [done|]. split; [done|].
  intros s r l Hs Hl Hlt. pose proof (Hall s r Hs) as Hle. rewrite Z.add_0_l in Hle.
  pose proof (Forall_lookup_1 _ _ _ _ Hd Hs) as Hds. cbv beta in Hds.
  assert (0 <= Z.of_nat s < 2 ^ sh_bits m) as Hsb by (apply lookup_lt_Some in Hs; unfold num_shards in *; lia).
  assert (id_ok (Z.of_nat s) l (sh_bits m)) as Hid by (split; lia).
  pose proof (encode_range _ _ _ Hid) as [Hid0 _].
  destruct (wm =? U64_MAX); [lia|].
  assert (encode_record_id (Z.of_nat s) l (sh_bits m) < next_id (sh_bits m) (Z.of_nat s) r) as He by lia.
  apply encode_lt in He; [lia|done|split; lia].
Qed.

Section checkpoint_demo.
#[local] Instance checkpoint_demo_externals : Externals := toy.

Definition demo_ckpt (faults : list (option Z)) : AtomicFile := mkAtomicFile None [] false [None] faults.

Lemma checkpoint_survives_crash_witness :
  let d' := (checkpoint 9 (checkpoints [7; 8] (demo_db, demo_ckpt [])).1
               (checkpoints [7; 8] (demo_db, demo_ckpt [])).2).2 in
  af_after_crash d' = [af_dat d'] /\ load_checkpoint (af_dat d') = 9.
Proof.
  assert (Forall (in_range 64) ([7; 8] ++ [9])) as Hr
    by (repeat (constructor; [split; [discriminate|reflexivity]|]); constructor).
  assert (af_wf (demo_ckpt [])) as Hl by left.
  pose proof (checkpoint_survives_crash [7; 8] 9 demo_db (demo_ckpt []) Hr Hl) as Hc. cbv zeta in Hc.
  destruct (checkpoint 9 _ _) as [db' d']. destruct Hc as (_ & _ & Hok). apply Hok. vm_compute. reflexivity.
Defined.

(** Two shards with three and five durable records, checkpoint 4. *)
Definition demo_report_db : LogDb :=
  mkLogDb demo_config
    (mkShardMap [set_durable demo_append_ring 3; set_durable demo_append_ring 5] 1)
    health_new (flush_new 2) shutdown_new 4 false.

Lemma recovery_report_exact_witness :
  recovery_report demo_report_db = mkReport 4 6 4 /\
  rr_count (recovery_report demo_report_db) =
    Z.of_nat (length (filter (fun id => 4 <= id) (durable_ids 1 0 (sh_rings (db_shards demo_report_db))))).
Proof.
  split; [vm_compute; reflexivity|].
  apply (recovery_report_exact demo_report_db); [vm_compute; split; discriminate|reflexivity|].
  repeat (constructor; [vm_compute; split; [discriminate|reflexivity]|]). constructor.
Defined.

(** A lower checkpoint overwrites the file.  The shared cell keeps the larger
    sequence, the file gets the caller's: after a restart the checkpoint has
    moved backwards. *)
Theorem checkpoint_file_regresses :
  let s := checkpoints [10; 5] (demo_db, demo_ckpt []) in
  db_checkpoint s.1 = 10 /\ load_checkpoint (af_dat s.2) = 5.
Proof. split; vm_compute; reflexivity. Qed.
End checkpoint_demo.
