(* ===== verification/Open.v ===== *)
(** * Opening a database ([LogDb::open] of [logdb/src/lib.rs])

    Each shard directory is recovered or created, the rings resume behind the
    recovered records, and the committer and the sealers start on them.  The
    state after [open] is the handle together with the committer's and the
    sealers' initial states, which share the rings and the signals. *)
From stdpp Require Import base gmap list numbers.
From coqutil Require Import Byte.
From Stdlib Require Import ZArith Lia.
From S2P Require Import Prelude Externals RustStd Format Index Shard Config Ring Sealer Signal KeyRing FileSys.
From S2P Require Import Storage Recovery Committer ShardMap Append Checkpoint.
Open Scope Z_scope.

Inductive OpenError :=
| InvalidConfig (e : ConfigError)
| OpenRecovery (shard : nat) (reason : RecoveryError)
| SegmentCreate (e : IoError).

(** What the loop of [open] collects for a shard: the manager with its
    directory, the local sequence to resume at and the hash-chain state. *)
Record Opened := mkOpened {
  op_mgr : SegmentManager;
  op_world : World;
  op_initial : Z;
  op_hash_init : bytes;
  op_last_hash : bytes;
}.

Section open.
Context `{Externals}.
Variable readdir : gmap Z bytes -> list Z.

(** One iteration of the loop; [seed] is what [generate_hash_init] returns. *)
Definition open_shard (cfg : Config) (keys : option KeyRing) (bits : Z) (s : nat) (seed : bytes)
    (w : World) : result OpenError Opened * World :=
  match files w !! 1 with
  | Some _ =>
      match recover_shard readdir (files w) bits (segment_size cfg) (retention cfg) keys with
      | Err e => (Err (OpenRecovery s e), w)
      | Ok (st, files') =>
          let w := set_files files' w in
          let initial_local := if recovered_count st =? 0 then 0
                               else (decode_record_id (last_sequence st) bits).2 + 1 in
          (Ok (mkOpened (segment_manager st) w initial_local (rs_hash_init st) (last_hash st)), w)
      end
  | None =>
      let header_hash_init :=
        match keys with
        | Some kr => if cfg_hash_enabled cfg then xor32 seed (derive_hash_init (kr_active kr)) else seed
        | None => seed
        end in
      match create (segment_size cfg) (cfg_hash_enabled cfg) (compression_enabled cfg) keys
              header_hash_init (retention cfg) 0 w with
      | (Err e, w) => (Err (SegmentCreate e), w)
      | (Ok m, w) => (Ok (mkOpened m w 0 seed (zeros 32)), w)
      end
  end.

(** [for s in 0..num_shards]; the directories as the call leaves them. *)
Fixpoint open_shards (cfg : Config) (keys : option KeyRing) (bits : Z) (s : nat)
    (dirs : list (bytes * World)) : result OpenError (list Opened) * list World :=
  match dirs with
  | [] => (Ok [], [])
  | (seed, w) :: dirs =>
      match open_shard cfg keys bits s seed w with
      | (Err e, w) => (Err e, w :: (snd <$> dirs))
      | (Ok o, w) =>
          let '(r, ws) := open_shards cfg keys bits (S s) dirs in
          (match r with Ok os => Ok (o :: os) | Err e => Err e end, w :: ws)
      end
  end.

(** [set_index_stride] and [set_shard] on the manager of shard [s]. *)
Definition tag_mgr (stride bits : Z) (s : nat) (o : Opened) : SegmentManager * World :=
  (set_shard (Z.of_nat s) bits (set_index_stride stride (op_mgr o)), op_world o).

(** Where the sealer of a shard starts: chain key, last hash, next sequence. *)
Definition sealer_start (o : Opened) : bytes * bytes * Z := (op_hash_init o, op_last_hash o, op_initial o).

Record OpenedDb := mkOpenedDb {
  od_handle : LogDb;
  od_committer : Committer;
  od_sealers : list (bytes * bytes * Z);
}.

(** [LogDb::open]; [checkpoint_file] is the content of [checkpoint.dat].  [None]
    is a failed assertion. *)
Definition open (cfg : Config) (keys : option KeyRing) (dirs : list (bytes * World))
    (checkpoint_file : option bytes) : option (result OpenError OpenedDb * list World) :=
  match validate cfg with
  | Err e => Some (Err (InvalidConfig e), snd <$> dirs)
  | Ok _ =>
      let bits := shard_bits (shards cfg) in
      match open_shards cfg keys bits 0 dirs with
      | (Err e, ws) => Some (Err e, ws)
      | (Ok os, ws) =>
          let mgrs := imap (tag_mgr (index_stride cfg) bits) os in
          m ← shardmap_new (shards cfg) (ring_size cfg) (cfg_hash_enabled cfg) (op_initial <$> os);
          let flush := flush_new (Z.to_nat (shards cfg)) in
          let cp := load_checkpoint checkpoint_file in
          Some (Ok (mkOpenedDb
                  (mkLogDb cfg m health_new flush shutdown_new cp false)
                  (committer_start (sh_rings m) mgrs flush shutdown_new health_new cp)
                  (if cfg_hash_enabled cfg then sealer_start <$> os else [])), ws)
      end
  end.

(** The trigger [open] gives the committer; durations are nanoseconds. *)
Definition open_trigger (cfg : Config) : CommitTrigger :=
  mkTrigger (256 * 1024) 1024 10000000 (durability_mode cfg).

(** ** One shard *)

Lemma open_shard_fresh cfg keys bits s seed w :
  files w = ∅ -> faults w = [] ->
  exists m w', open_shard cfg keys bits s seed w = (Ok (mkOpened m w' 0 seed (zeros 32)), w') /\
    active_id m = 1 /\ covered (m, w').
Proof.
  intros Hf Hft. unfold open_shard. rewrite Hf, lookup_empty. set (hi := match keys with Some _ => _ | None => _ end).
  destruct (create (segment_size cfg) (cfg_hash_enabled cfg) (compression_enabled cfg) keys hi (retention cfg) 0 w)
    as [[m|e] w'] eqn:Hc.
  - exists m, w'. split; [done|]. split; [|by eapply create_covered].
    revert Hc. unfold create, mbind, M_bind. rewrite active_create_ok by (rewrite ?Hf; done).
    destruct (fs_sync_dir _) as [[[]|] ?]; [|done]. by intros [= <- _].
  - exfalso. revert Hc. unfold create, mbind, M_bind. rewrite active_create_ok by (rewrite ?Hf; done).
    unfold fs_sync_dir, syscall. simpl. by rewrite Hft.
Qed.

(** The local sequence after the last record. *)
Definition resume_at (bits : Z) (vs : list ReadView) : Z :=
  match list.last vs with
  | Some v => (decode_record_id (rv_record_id v) bits).2 + 1
  | None => 0
  end.

(** A directory whose newest segment is raw, undamaged and holds [vs]. *)
Record shard_files (keys : option KeyRing) (bits : Z) (files : gmap Z bytes) (vs : list ReadView) : Prop := {
  sf_listing : readdir files ≡ₚ elements (dom files);
  sf_headers : headers_valid files;
  sf_records : exists f1 h1 k hd h,
    (forall id, is_Some (files !! id) -> 1 <= id <= k) /\
    files !! 1 = Some f1 /\ deserialize (slice f1 0 SEGMENT_HEADER_SIZE) = Ok h1 /\
    files !! k = Some (hd ++ encoded vs) /\ length hd = 128%nat /\ deserialize hd = Ok h /\
    raw_header h /\
    segment_records h (Format.hash_enabled h1) (resolve_chain_key f1 h1 keys) bits vs;
}.

Lemma open_shard_existing cfg keys bits s seed w vs :
  shard_files keys bits (files w) vs -> vs <> [] ->
  exists o, open_shard cfg keys bits s seed w = (Ok o, w) /\ op_world o = w /\
    op_initial o = resume_at bits vs /\ op_last_hash o = List.last (rv_hash_n <$> vs) (zeros 32) /\
    files w !! active_id (op_mgr o) = Some (take (Z.to_nat (as_offset (active (op_mgr o))))
      (default [] (files w !! active_id (op_mgr o)))).
Proof.
  intros [Hrd Hv (f1 & h1 & k & hd & h & Hmax & Hf1 & Hd1 & Hk & Hhd & Hd & Hraw & Hseg)] Hne.
  destruct (scan_intact hd vs k h (Format.hash_enabled h1) (resolve_chain_key f1 h1 keys) keys bits Hhd Hraw Hseg)
    as (sc & Hscan & Hfile & Hoff & Hw & Hcount & Hseq & Hhash).
  unfold open_shard. rewrite Hf1.
  rewrite (recover_shard_scan readdir (files w) bits (segment_size cfg) (retention cfg) keys 1 f1 h1 k _ h sc Hrd Hv Hmax
    Hf1 Hd1 Hk); [|by rewrite slice_app_exact by (rewrite ?Hhd; done)|done].
  cbn [recovered_count last_sequence segment_manager rs_hash_init last_hash].
  rewrite Hfile, insert_id by done.
  assert (set_files (files w) w = w) as -> by (by destruct w).
  eexists. split; [reflexivity|]. cbn [op_world op_initial op_last_hash op_mgr]. split; [done|]. split; [|split; [done|]].
  - rewrite Hcount, Hseq. unfold resume_at. destruct vs as [|v vs _] using rev_ind; [done|].
    rewrite last_snoc, fmap_app, length_app. simpl. rewrite List.last_last.
    destruct (Z.eqb_spec (Z.of_nat (length vs + 1)) 0); [lia|done].
  - simpl. rewrite Hk, Hoff. simpl. by rewrite take_ge by lia.
Qed.

(** ** All shards *)

(** What a directory given to [open] holds: nothing, or records of shard [s]. *)
Definition dir_state (keys : option KeyRing) (bits : Z) (s : nat) (w : World) (vs : list ReadView) : Prop :=
  files w = ∅ /\ faults w = [] /\ vs = [] \/
  shard_files keys bits (files w) vs /\ vs <> [] /\
  Forall (fun v => in_range 64 (rv_record_id v) /\
    (decode_record_id (rv_record_id v) bits).1 = Z.of_nat s) vs.

Lemma open_shards_ok cfg keys bits s dirs vss :
  length vss = length dirs ->
  (forall i d vs, dirs !! i = Some d -> vss !! i = Some vs -> dir_state keys bits (s + i) d.2 vs) ->
  exists os ws, open_shards cfg keys bits s dirs = (Ok os, ws) /\
    op_initial <$> os = resume_at bits <$> vss /\
    (forall i d vs, dirs !! i = Some d -> vss !! i = Some vs -> vs <> [] -> ws !! i = Some d.2).
Proof.
  revert s vss. induction dirs as [|[seed w] dirs IH]; intros s [|vs vss] Hl Hd; try done.
  { exists [], []. split; [done|]. split; [done|]. intros i d vs Hi. by rewrite lookup_nil in Hi. }
  destruct (IH (S s) vss) as (os & ws & Hos & Hin & Hws); [simpl in Hl; lia| |].
  { intros i d vs' Hi Hv. replace (S s + i)%nat with (s + S i)%nat by lia. by apply Hd. }
  specialize (Hd 0%nat (seed, w) vs eq_refl eq_refl). rewrite Nat.add_0_r in Hd. cbn [snd] in Hd.
  assert (exists o w', open_shard cfg keys bits s seed w = (Ok o, w') /\ op_initial o = resume_at bits vs /\
    (vs <> [] -> w' = w)) as (o & w' & Ho & Hi & Hw).
  { destruct Hd as [(Hf & Hft & ->)|(Hsf & Hne & _)].
    - destruct (open_shard_fresh cfg keys bits s seed w Hf Hft) as (m & w' & -> & _).
      eexists _, _. split; [reflexivity|]. done.
    - destruct (open_shard_existing cfg keys bits s seed w vs Hsf Hne) as (o & -> & _ & Hi & _).
      eexists _, _. split; [reflexivity|]. done. }
  exists (o :: os), (w' :: ws). cbn [open_shards]. rewrite Ho, Hos. split; [done|].
  split; [csimpl; by rewrite Hi, Hin|].
  intros [|i] d vs' Hi' Hv' Hne; simpl in Hi', Hv'; simplify_eq; [cbn [snd]; by rewrite Hw|]. by eapply Hws.
Qed.

Lemma resume_next bits s vs v :
  0 <= bits < 64 -> list.last vs = Some v ->
  in_range 64 (rv_record_id v) -> (decode_record_id (rv_record_id v) bits).1 = s ->
  resume_at bits vs < 2 ^ (64 - bits) ->
  encode_record_id s (resume_at bits vs) bits = rv_record_id v + 2 ^ bits.
Proof.
  intros Hb Hv Hr Hs Hlt. unfold resume_at in *. rewrite Hv in *.
  pose proof (encode_decode (rv_record_id v) bits Hb Hr) as He.
  destruct (decode_record_id (rv_record_id v) bits) as [s' l]. cbn [fst snd] in *. subst s'.
  destruct He as [Hok He]. rewrite <- He at 1. apply encode_succ; [done|]. destruct Hok. split; lia.
Qed.

(** C24: a reopened log continues where it ended.  Take a valid configuration
    and shard directories, with room for further ids, that are empty (and meet no I/O fault) or consist of
    segments numbered from 1 with valid headers, the newest one raw and holding
    exactly the shard's newest records: at least one, with consecutive ids from
    the header's base sequence (from any id when there are several shards), and
    chained from the header's previous hash when hashing is on.  [open]
    succeeds and leaves existing directories as they are; the handle is well
    formed, the committer starts in a consistent state on the same rings, the
    producer cursor and the durable cursor of every shard are right behind its
    last record, so that the next id is the last one plus the stride, and the
    checkpoint is the one that was saved.  (A directory whose newest segment
    was rolled to with a stale base, or in a hashed shard, is outside these
    conditions, and recovery can truncate it.) *)
Theorem open_resumes cfg keys dirs vss ckpt :
  validate cfg = Ok tt -> in_range 32 (ring_size cfg) -> Z.of_nat (length dirs) = shards cfg ->
  length vss = length dirs ->
  let bits := shard_bits (shards cfg) in
  (forall s d vs, dirs !! s = Some d -> vss !! s = Some vs -> dir_state keys bits s d.2 vs) ->
  Forall (fun vs => 0 <= resume_at bits vs < 2 ^ (63 - bits)) vss ->
  exists db ws, open cfg keys dirs ckpt = Some (Ok db, ws) /\
    db_wf (od_handle db) /\ cinv (od_committer db) /\
    c_rings (od_committer db) = sh_rings (db_shards (od_handle db)) /\
    db_checkpoint (od_handle db) = load_checkpoint ckpt /\
    producer_cursors (db_shards (od_handle db)) = resume_at bits <$> vss /\
    durable_cursors (db_shards (od_handle db)) = resume_at bits <$> vss /\
    forall s d vs v, dirs !! s = Some d -> vss !! s = Some vs -> list.last vs = Some v ->
      ws !! s = Some d.2 /\
      encode_record_id (Z.of_nat s) (resume_at bits vs) bits = rv_record_id v + 2 ^ bits.
Proof.
  intros Hv Hrs Hlen Hl bits Hd Hres. destruct (validate_ok cfg Hv) as (_ & Hsh & _ & Hmax & _).
  pose proof (shard_bits_small _ Hsh) as Hb. fold bits in Hb.
  destruct (open_shards_ok cfg keys bits 0 dirs vss Hl) as (os & ws & Hos & Hin & Hws); [done|].
  assert (length os = length vss) as Hlo by (by rewrite <- (length_fmap op_initial), Hin, length_fmap).
  destruct (shardmap_new_spec cfg (op_initial <$> os) Hv Hrs) as (n & Hn & Hw & Hm).
  { rewrite length_fmap. lia. }
  unfold open. rewrite Hv. fold bits. rewrite Hos, Hm. cbn [mbind option_bind].
  eexists _, ws. split; [reflexivity|]. cbn [od_handle od_committer db_shards db_checkpoint].
  fold bits. rewrite Hin. set (rings := empty_ring n (cfg_hash_enabled cfg) <$> _).
  assert (Z.of_nat (length rings) = shards cfg) as Hrl by (subst rings; rewrite !length_fmap; lia).
  assert (Forall (fun r => exists vs, vs ∈ vss /\ r = empty_ring n (cfg_hash_enabled cfg) (resume_at bits vs)) rings) as Hr.
  { subst rings. rewrite !Forall_fmap. apply list.Forall_forall. intros vs Hvs. by exists vs. }
  assert (2 ^ (64 - bits) = 2 * 2 ^ (63 - bits)) as H64
    by (rewrite <- Z.pow_succ_r by lia; f_equal; lia).
  assert (2 ^ 33 <= 2 ^ (63 - bits)) by (apply Z.pow_le_mono_r; lia).
  assert (2 ^ 33 = 2 * 2 ^ 32) by done.
  split; [|split; [|split; [done|split; [done|split; [|split]]]]].
  - split; cbn [db_shards sh_rings sh_bits db_config db_shutdown]; unfold num_shards; cbn [sh_rings]; rewrite ?Hrl; try done.
    + eapply list.Forall_impl; [exact Hr|]. intros r (vs & _ & ->). apply Hw.
    + eapply list.Forall_impl; [exact Hr|]. intros r (vs & Hvs & ->).
      rewrite list.Forall_forall in Hres. specialize (Hres vs Hvs).
      unfold consume_watermark. simpl. destruct (cfg_hash_enabled cfg); lia.
  - replace (Z.to_nat (shards cfg)) with (length rings) by lia. apply cinv_start.
    { rewrite length_imap, Hlo. lia. }
    eapply List.Forall_impl; [|exact Hr]. intros r (vs & Hvs & ->).
    rewrite list.Forall_forall in Hres. specialize (Hres vs Hvs). simpl.
    assert (2 ^ (63 - bits) <= 2 ^ 63) by (apply Z.pow_le_mono_r; lia). lia.
  - unfold producer_cursors. cbn [sh_rings]. subst rings. rewrite <- list_fmap_compose. apply list_fmap_id.
  - unfold durable_cursors. cbn [sh_rings]. subst rings. rewrite <- list_fmap_compose. apply list_fmap_id.
  - intros s d vs v Hsd Hsv Hlast. assert (vs <> []) as Hne by (by intros ->).
    split; [by eapply Hws|]. destruct (Hd s d vs Hsd Hsv) as [(_ & _ & ->)|(_ & _ & Hids)]; [done|].
    rewrite list.Forall_forall in Hids. apply last_Some_elem_of in Hlast as Hel.
    destruct (Hids v Hel) as [Hr1 Hr2].
    pose proof (Forall_lookup_1 _ _ _ _ Hres Hsv) as Hb2. cbv beta in Hb2.
    apply resume_next; [lia|done|done|done|lia].
Qed.
End open.

Section open_demo.
#[local] Instance open_demo_externals : Externals := toy.

Definition demo_open_config : Config := mkConfig (1024 * 1024) 16 1 100 true false Sync Drop 4 KeepAll.

(** A directory with one segment of two records. *)
Definition demo_open_dir : World :=
  set_files {[ 1 := demo_hd 0 1 ++ encoded (demo_views 2) ]} (demo_dir []).

Lemma demo_open_files : shard_files demo_readdir None 0 (files demo_open_dir) (demo_views 2).
Proof.
  split; [done| |].
  - intros id f. cbn [files demo_open_dir set_files]. rewrite lookup_singleton_Some. intros [<- <-].
    split; [vm_compute; discriminate|]. exists (demo_header 0 1). split; vm_compute; reflexivity.
  - exists (demo_hd 0 1 ++ encoded (demo_views 2)), (demo_header 0 1), 1, (demo_hd 0 1), (demo_header 0 1).
    cbn [files demo_open_dir set_files]. split; [|split; [apply lookup_singleton_eq|]].
    { intros id [f Hf]. rewrite lookup_singleton_Some in Hf. lia. }
    split; [vm_compute; reflexivity|]. split; [apply lookup_singleton_eq|]. split; [reflexivity|].
    split; [vm_compute; reflexivity|]. split; [exact demo_raw|exact demo_records].
Qed.

Lemma open_resumes_witness :
  exists db ws, open demo_readdir demo_open_config None [(demo_chain_key, demo_open_dir)] None = Some (Ok db, ws) /\
    producer_cursors (db_shards (od_handle db)) = [2].
Proof.
  destruct (open_resumes demo_readdir demo_open_config None [(demo_chain_key, demo_open_dir)] [demo_views 2] None)
    as (db & ws & E & _ & _ & _ & _ & Hp & _).
  - reflexivity.
  - split; [discriminate|reflexivity].
  - reflexivity.
  - reflexivity.
  - intros [|s] d vs Hd Hvs; simpl in Hd, Hvs; [|discriminate]. injection Hd as <-. injection Hvs as <-. right.
    split; [exact demo_open_files|]. split; [discriminate|].
    repeat (constructor; [split; [split; [discriminate|reflexivity]|reflexivity]|]). constructor.
  - repeat constructor; vm_compute; try discriminate; reflexivity.
  - exists db, ws. split; [exact E|]. rewrite Hp. reflexivity.
Defined.

(** ** Where opening goes wrong *)

(** An empty newest segment makes the ids start over.  A segment that was
    pre-allocated or rolled to but holds no record yet (its header is written
    with the segment) recovers no record, and [open] then resumes the shard at
    local sequence 0, whatever the earlier segments hold. *)
Theorem empty_newest_segment_restarts `{Externals} readdir cfg keys bits s seed w :
  shard_files readdir keys bits (files w) [] ->
  exists o, open_shard readdir cfg keys bits s seed w = (Ok o, w) /\ op_initial o = 0.
Proof.
  intros [Hrd Hv (f1 & h1 & k & hd & h & Hmax & Hf1 & Hd1 & Hk & Hhd & Hd & Hraw & Hseg)].
  destruct (scan_intact hd [] k h (Format.hash_enabled h1) (resolve_chain_key f1 h1 keys) keys bits Hhd Hraw Hseg)
    as (sc & Hscan & Hfile & Hoff & Hw & Hcount & _).
  unfold open_shard. rewrite Hf1.
  rewrite (recover_shard_scan readdir (files w) bits (segment_size cfg) (retention cfg) keys 1 f1 h1 k _ h sc Hrd Hv Hmax
    Hf1 Hd1 Hk); [|by rewrite slice_app_exact by (rewrite ?Hhd; done)|done].
  cbn [recovered_count]. rewrite Hcount, Hfile, insert_id by done.
  assert (set_files (files w) w = w) as -> by (by destruct w).
  eexists. split; [reflexivity|done].
Qed.

(** The pre-allocation of segment 2 behind a segment of records 0 to 7 does it:
    the next append reuses id 0. *)
Theorem prepared_segment_reuses_ids :
  let s := exec (Storage.append_batch (demo_slots 8) 0 7) (demo_state 694 KeepAll) in
  is_Some (files s.2 !! 2) /\
  match open_shard demo_readdir demo_open_config None 0 0 [] s.2 with
  | (Ok o, _) => op_initial o = 0 /\ active_id (op_mgr o) = 2
  | _ => False
  end.
Proof. vm_compute. eauto. Qed.

(** A log whose first segment was deleted is taken for a new one.  [open] looks
    for segment 1 only; after retention or a checkpoint has deleted it, [open]
    creates segment 1 again and resumes at sequence 0, although segment 2 still
    holds records. *)
Theorem truncated_log_restarts :
  let w := set_files {[ 2 := demo_hd 0 2 ++ encoded (demo_views 2) ]} (demo_dir []) in
  match open_shard demo_readdir demo_open_config None 0 0 demo_chain_key w with
  | (Ok o, w') => op_initial o = 0 /\ active_id (op_mgr o) = 1 /\ files w' !! 2 = files w !! 2
  | _ => False
  end.
Proof. vm_compute. eauto. Qed.
End open_demo.
