(* ===== verification/Flush.v ===== *)
(** * Flushing and draining ([flush], [drain] and [wait_until] of
      [logdb/src/lib.rs])

    A call of [flush] or [drain] is a small machine that polls the state it
    shares with the committer; the committer's passes and everything else run
    between its steps.  Durations and clock readings are explicit. *)
From stdpp Require Import base gmap list numbers relations.
From coqutil Require Import Byte.
From Stdlib Require Import ZArith Lia.
From S2P Require Import Prelude Externals RustStd Config Ring Signal FileSys Storage Committer.
Open Scope Z_scope.

Inductive FlushError := Timeout | Aborted.

(** [TimedOut] exists in the source but nothing returns it. *)
Inductive ShutdownReport := Clean | PartialDurable | TimedOut.

(** One iteration of [wait_until]; [None] goes on waiting. *)
Definition wait_poll (cond : bool) (sd : ShutdownState) (now deadline : Z)
    : option (result FlushError unit) :=
  if cond then Some (Ok tt)
  else if aborted sd then Some (Err Aborted)
  else if deadline <=? now then Some (Err Timeout)
  else None.

Definition cursors_of (c : Committer) : list Z := producer_cursor <$> c_rings c.

(** ** [flush] *)

Inductive FlushPC :=
| FSealing (targets : list Z) (deadline : Z)
| FRequest (targets : list Z)
| FWaiting (targets : list Z) (deadline : Z)
| FReturned (r : result FlushError unit).

(** From the call to the first wait: the snapshot of the producer cursors. *)
Definition flush_begin (hash_enabled : bool) (timeout now : Z) (c : Committer) : FlushPC :=
  let targets := cursors_of c in
  if forallb (fun t => t =? 0) targets then FReturned (Ok tt)
  else if hash_enabled then FSealing targets (now + timeout)
  else FRequest targets.

(** The sealer of shard 0 has reached its target. *)
Definition sealed_reached (targets : list Z) (c : Committer) : bool :=
  match targets, c_rings c with
  | t :: _, r :: _ => t <=? sealed_cursor r
  | _, _ => false
  end.

Definition flush_step (timeout now : Z) (pc : FlushPC) (c : Committer) : FlushPC * Committer :=
  match pc with
  | FSealing targets deadline =>
      match wait_poll (sealed_reached targets c) (c_shutdown c) now deadline with
      | Some (Ok _) => (FRequest targets, c)
      | Some (Err e) => (FReturned (Err e), c)
      | None => (pc, c)
      end
  | FRequest targets =>
      (FWaiting targets (now + timeout), with_flush (request (c_flush c) targets) c)
  | FWaiting targets deadline =>
      match wait_poll (is_done (c_flush c) targets) (c_shutdown c) now deadline with
      | Some r => (FReturned r, c)
      | None => (pc, c)
      end
  | FReturned _ => (pc, c)
  end.

(** ** [drain] *)

Inductive DrainPC :=
| DInFlight (deadline : Z)
| DTargets (deadline : Z)
| DWaiting (targets : list Z) (deadline : Z)
| DReturned (r : result FlushError ShutdownReport).

(** From the call to the first wait: appends are refused from here on. *)
Definition drain_begin (timeout now : Z) (c : Committer) : DrainPC * Committer :=
  (DInFlight (now + timeout), with_shutdown (start_drain (c_shutdown c)) c).

Definition drain_step (now : Z) (pc : DrainPC) (c : Committer) : DrainPC * Committer :=
  match pc with
  | DInFlight deadline =>
      if in_flight (c_shutdown c) =? 0 then (DTargets deadline, c)
      else if deadline <=? now
      then (DReturned (Err Timeout), with_shutdown (abort (c_shutdown c)) c)
      else (pc, c)
  | DTargets deadline =>
      let targets := cursors_of c in
      let c := with_shutdown (set_drain_target (c_shutdown c) (default 0 (list_max targets))) c in
      (DWaiting targets (now + Z.max 0 (deadline - now)), with_flush (request (c_flush c) targets) c)
  | DWaiting targets deadline =>
      match wait_poll (is_done (c_flush c) targets) (c_shutdown c) now deadline with
      | Some (Ok _) => (DReturned (Ok Clean), c)
      | Some (Err _) => (DReturned (Ok PartialDurable), c)
      | None => (pc, c)
      end
  | DReturned _ => (pc, c)
  end.

(** ** [shutdown] and [Drop] *)

Inductive ShutdownError := ShutdownTimeout | JoinError.

(** The end of [shutdown]: [exclusive] when no other handle is left, so that the
    threads can be joined. *)
Definition shutdown_result (exclusive : bool) (r : result FlushError ShutdownReport)
    : result ShutdownError ShutdownReport :=
  match r with
  | Err _ => Err ShutdownTimeout
  | Ok report => if exclusive then Ok report else Err JoinError
  end.

(** [DROP_DRAIN_TIMEOUT], in nanoseconds. *)
Definition DROP_DRAIN_TIMEOUT : Z := 5000000000.

(** The start of [drop]: a drain, unless the thread is panicking. *)
Definition drop_begin (panicking : bool) (now : Z) (c : Committer) : option DrainPC * Committer :=
  if panicking then (None, c)
  else let '(pc, c) := drain_begin DROP_DRAIN_TIMEOUT now c in (Some pc, c).

(** The end of [drop], whatever the drain returned. *)
Definition drop_end (c : Committer) : Committer := with_shutdown (abort (c_shutdown c)) c.

(** ** Both among the other threads *)

Section system.
Context `{Externals}.
Variables (readdir : gmap Z bytes -> list Z) (buf_cap : SegmentManager -> Z) (bits : Z)
  (trigger : CommitTrigger).

Abbreviation env_step := (cstep readdir buf_cap bits trigger).

(** A thread with program counter [P] and step function [own] beside the
    committer and the rest. *)
Inductive beside {P} (own : Z -> P -> Committer -> P * Committer) : P * Committer -> P * Committer -> Prop :=
| beside_other pc c c' : env_step c c' -> beside own (pc, c) (pc, c')
| beside_own now pc c : beside own (pc, c) (own now pc c).

Lemma beside_eq {P} (own : Z -> P -> Committer -> P * Committer) now pc c s :
  own now pc c = s -> beside own (pc, c) s.
Proof. intros <-. constructor. Qed.

(** Every target is durable. *)
Definition reached (targets : list Z) (c : Committer) : Prop :=
  forall s t r, targets !! s = Some t -> c_rings c !! s = Some r -> t <= durable_cursor r.

Definition durable_le (c c' : Committer) : Prop :=
  Forall2 (fun r r' => durable_cursor r <= durable_cursor r') (c_rings c) (c_rings c').

Lemma durable_le_refl c : durable_le c c.
Proof. apply Forall_Forall2_diag, Forall_true. intros. lia. Qed.

(** The durable cursors never fall. *)
Lemma cstep_durable_le c c' : cinv c -> env_step c c' -> durable_le c c'.
Proof.
  intros Hinv Hs. inversion Hs as [now o ?? Hp|rs ? Hrs|ts ?|sd ?|?]; subst;
    try exact (durable_le_refl c).
  - apply pass_pass_ok in Hp as [_ Hr _]; [|done]. unfold durable_le.
    pose proof (ci_order _ Hinv) as Ho. revert Ho Hr. generalize (c_rings c) (c_rings c').
    induction 2 as [|r r' l l' (a & d & -> & Ha & Hd) _ IH]; constructor; inversion Ho; subst; [|by apply IH].
    simpl. lia.
  - unfold durable_le. simpl. clear -Hrs. induction Hrs as [|r r' l l' (_ & E & _) _ IH]; constructor; [lia|done].
Qed.

Lemma reached_le targets c c' : durable_le c c' -> reached targets c -> reached targets c'.
Proof.
  intros Hle Hr s t r Ht Hs. destruct (Forall2_lookup_r _ _ _ _ _ Hle Hs) as (r0 & Hs0 & Hd).
  specialize (Hr s t r0 Ht Hs0). lia.
Qed.

(** A finished request is durable. *)
Lemma is_done_reached targets c : cinv c -> is_done (c_flush c) targets = true -> reached targets c.
Proof.
  intros Hinv Hdone s t r Ht Hs.
  destruct (Forall2_lookup_r _ _ _ _ _ (ci_flush _ Hinv) Hs) as (d & Hd & Hle). simpl in Hle.
  pose proof (proj1 (is_done_from_spec _ _) Hdone s t d Ht Hd). lia.
Qed.

Lemma wait_poll_ok cond sd now deadline : wait_poll cond sd now deadline = Some (Ok tt) -> cond = true.
Proof. unfold wait_poll. by repeat case_match. Qed.

(** *** [flush] *)

Variables (hash_enabled : bool) (timeout : Z).

Definition flush_inv (ts : list Z) (s : FlushPC * Committer) : Prop :=
  cinv s.2 /\
  match s.1 with
  | FSealing t _ | FRequest t | FWaiting t _ => t = ts
  | FReturned (Ok _) => reached ts s.2
  | FReturned (Err _) => True
  end.

Lemma flush_step_inv ts s s' : flush_inv ts s -> beside (flush_step timeout) s s' -> flush_inv ts s'.
Proof.
  intros [Hinv Hpc] Hs. inversion Hs as [pc c c' He|now pc c]; subst; cbn [fst snd] in *.
  - split; [by eapply cstep_inv|]. cbn [fst snd]. destruct pc as [| | |[[]|]]; try done.
    eapply reached_le; [|done]. by eapply cstep_durable_le.
  - destruct pc as [t d|t|t d|r]; cbn [flush_step]; [| |subst t|done].
    + destruct (wait_poll _ _ _ _) as [[[]|]|]; done.
    + split; [|done]. by apply (cstep_inv readdir buf_cap bits trigger c); [constructor|].
    + destruct (wait_poll (is_done (c_flush c) ts) _ _ _) as [[[]|]|] eqn:Hw; [|done..].
      split; [done|]. apply is_done_reached; [done|]. by eapply wait_poll_ok.
Qed.

Lemma flush_begin_inv now c : cinv c -> flush_inv (cursors_of c) (flush_begin hash_enabled timeout now c, c).
Proof.
  intros Hinv. split; [done|]. cbn [fst snd]. unfold flush_begin.
  destruct (forallb _ _) eqn:Hz; [|by destruct hash_enabled].
  intros s t r Ht Hs. rewrite forallb_forall in Hz.
  assert (t = 0) as ->.
  { apply Z.eqb_eq, Hz. apply list_elem_of_In. by eapply list_elem_of_lookup_2. }
  pose proof (Forall_lookup_1 _ _ _ _ (ci_order _ Hinv) Hs) as Ho. simpl in Ho. lia.
Qed.

(** A step in which no segment was lost from a queue of segments to sync. *)
Definition env_kept (c c' : Committer) : Prop := env_step c c' /\ queue_kept c c'.
Definition beside_kept (s s' : FlushPC * Committer) : Prop :=
  beside (flush_step timeout) s s' /\ queue_kept s.2 s'.2.

Lemma queue_kept_refl c : queue_kept c c.
Proof. intros i x y Hx Hy. simplify_eq. intros id f Hi Hn. done. Qed.

(** What the durable cursor of a shard says of the files: it is where it was
    at the start, or it is where the committed cursor was at a moment at which
    every segment of every shard was on stable storage. *)
Lemma durable_history c0 c :
  cinv c0 -> Forall covered (c_mgrs c0) -> rtc env_kept c0 c ->
  cinv c /\ Forall covered (c_mgrs c) /\
  forall s r0 r, c_rings c0 !! s = Some r0 -> c_rings c !! s = Some r ->
    durable_cursor r = durable_cursor r0 \/
    exists c1 r1, rtc env_kept c0 c1 /\ rtc env_kept c1 c /\ Forall all_synced (c_mgrs c1) /\
      c_rings c1 !! s = Some r1 /\ durable_cursor r = committed_cursor r1.
Proof.
  intros Hi0 Hc0. revert c. apply rtc_ind_r.
  { split; [done|]. split; [done|]. intros s r0 r Hr0 Hr. simplify_eq. by left. }
  intros y z Hy [Hyz Hk] (Hi & Hc & Hdur). split; [by eapply cstep_inv|]. split; [by eapply cstep_covered|].
  intros s r0 r Hr0 Hr.
  destruct (Forall2_lookup_r _ _ _ _ _ (cstep_durable_le _ _ Hi Hyz) Hr) as (ry & Hry & _).
  destruct (decide (durable_cursor r = durable_cursor ry)) as [He|Hne].
  - rewrite He. destruct (Hdur s r0 ry Hr0 Hry) as [?|(c1 & r1 & Ha & Hb & ? & ? & ?)]; [by left|].
    right. exists c1, r1. split; [done|]. split; [by eapply rtc_r|done].
  - right. inversion Hyz as [now o ?? Hp|rs ? Hrs|ts ?|sd ?|?]; subst; simpl in *.
    + apply pass_pass_ok in Hp as [_ Hrs Hsy]; [|done].
      destruct (Forall2_lookup_lr _ _ _ _ _ _ Hrs Hry Hr) as (a & d & -> & Ha & Hd).
      exists z. eexists. split; [by eapply rtc_r|]. split; [done|]. split; [by eapply Hsy|].
      split; [exact Hr|]. simpl in *. destruct Hd as [->| ->]; done.
    + destruct (Forall2_lookup_lr _ _ _ _ _ _ Hrs Hry Hr) as (_ & E & _). congruence.
    + congruence.
    + congruence.
    + congruence.
Qed.

Lemma flush_run_kept s s' : rtc beside_kept s s' -> rtc env_kept s.2 s'.2.
Proof.
  induction 1 as [|x y z [Hxy Hk] _ IH]; [done|]. etrans; [|exact IH]. clear IH.
  inversion Hxy as [pc c c' He|now pc c]; subst; simpl in *; [by apply rtc_once|].
  destruct pc as [t d|t|t d|r]; simpl in *.
  - by destruct (wait_poll _ _ _ _) as [[[]|]|].
  - apply rtc_once. split; [constructor|done].
  - by destruct (wait_poll _ _ _ _) as [[[]|]|].
  - done.
Qed.

(** C4: a flush that returns success has made every earlier append durable.
    Start from any state in which each sealed segment that is not on stable
    storage is queued to be synced (a new log, for one), let the committer,
    the sealers, producers, other flushes and a shutdown run for any time,
    call [flush], and let them run on while it polls; and suppose that in this
    time no segment was taken off the queue by a sync that failed.  When
    [flush] returns [Ok], the durable cursor of every shard is at or past the
    producer cursor the shard had when [flush] was called; and either it was
    there at the start already, or there was a moment before the return at
    which the committed cursor had reached that producer cursor and every
    segment file of every shard up to the active one had its full contents on
    stable storage.  (A failed sync breaks this: [sync_error_forgets_segment]
    shows [sync_all] losing a segment from the queue.) *)
Theorem flush_makes_durable now c00 c0 c :
  cinv c00 -> Forall covered (c_mgrs c00) -> rtc env_kept c00 c0 ->
  rtc beside_kept (flush_begin hash_enabled timeout now c0, c0) (FReturned (Ok tt), c) ->
  forall s r00 r0 r,
  c_rings c00 !! s = Some r00 -> c_rings c0 !! s = Some r0 -> c_rings c !! s = Some r ->
  producer_cursor r0 <= durable_cursor r <= committed_cursor r /\
  (producer_cursor r0 <= durable_cursor r00 \/
   exists c1 r1, rtc env_kept c00 c1 /\ rtc env_kept c1 c /\
     c_rings c1 !! s = Some r1 /\ producer_cursor r0 <= committed_cursor r1 /\
     forall i m w id f, c_mgrs c1 !! i = Some (m, w) -> id <= active_id m ->
       files w !! id = Some f -> synced w !! id = Some f).
Proof.
  intros Hi00 Hc00 Hpre Hrun s r00 r0 r Hs00 Hs0 Hs.
  destruct (durable_history c00 c0 Hi00 Hc00 Hpre) as (Hinv & _ & _).
  assert (flush_inv (cursors_of c0) (FReturned (Ok tt), c)) as [Hc Hr].
  { pose proof (flush_begin_inv now c0 Hinv) as Hi. revert Hi.
    generalize (flush_begin hash_enabled timeout now c0, c0) Hrun.
    clear. intros s Hrun. induction Hrun as [|x y z [Hxy _] _ IH]; [done|]. intros Hi.
    apply IH. by eapply flush_step_inv. }
  cbn [fst snd] in *. pose proof (Forall_lookup_1 _ _ _ _ (ci_order _ Hc) Hs) as Ho. simpl in Ho.
  assert (producer_cursor r0 <= durable_cursor r) as Hd.
  { apply (Hr s _ r); [|done]. unfold cursors_of. by rewrite list_lookup_fmap, Hs0. }
  split; [lia|]. apply flush_run_kept in Hrun. simpl in Hrun.
  destruct (durable_history c00 c Hi00 Hc00 (transitivity Hpre Hrun)) as (_ & _ & Hh).
  destruct (Hh s r00 r Hs00 Hs) as [?|(c1 & r1 & Ha & Hb & Hall & Hr1 & He)]; [left; lia|right].
  exists c1, r1. split; [done|]. split; [done|]. split; [done|]. split; [lia|].
  intros i m w id f Hi. exact (Forall_lookup_1 _ _ _ _ Hall Hi id f).
Qed.

(** *** [drain] *)

Definition drain_inv (s0 s : DrainPC * Committer) : Prop :=
  cinv s.2 /\
  match s.1 with
  | DWaiting ts _ => exists d c1, rtc (beside drain_step) s0 (DTargets d, c1) /\ ts = cursors_of c1
  | DReturned (Ok Clean) =>
      exists d c1, rtc (beside drain_step) s0 (DTargets d, c1) /\ reached (cursors_of c1) s.2
  | _ => True
  end.

Lemma drain_call_inv s0 s s' :
  rtc (beside drain_step) s0 s -> drain_inv s0 s -> beside drain_step s s' -> drain_inv s0 s'.
Proof.
  intros Hrun [Hinv Hpc] Hs. inversion Hs as [pc c c' He|now pc c]; subst; cbn [fst snd] in *.
  - split; [by eapply cstep_inv|]. cbn [fst snd]. destruct pc as [| | |[[]|]]; try done.
    destruct Hpc as (d & c1 & Hr & Hre). exists d, c1. split; [done|].
    eapply reached_le; [|done]. by eapply cstep_durable_le.
  - destruct pc as [d|d|ts d|r]; cbn [drain_step].
    + destruct (_ =? 0); [done|]. destruct (d <=? now); [|done]. split; [|done].
      by apply (cstep_inv readdir buf_cap bits trigger c); [constructor|].
    + split; cbn [fst snd]; [|by exists d, c].
      eapply (cstep_inv readdir buf_cap bits trigger); [apply cstep_request|].
      eapply (cstep_inv readdir buf_cap bits trigger); [apply cstep_shutdown|done].
    + destruct (wait_poll (is_done (c_flush c) ts) _ _ _) as [[[]|]|] eqn:Hw; [|done..].
      split; [done|]. destruct Hpc as (d' & c1 & Hr & ->). exists d', c1. split; [done|].
      apply is_done_reached; [done|]. by eapply wait_poll_ok.
    + done.
Qed.

(** A clean drain leaves nothing behind.  When [drain] returns [Clean], there
    was a moment after it had closed the database to new appends and seen no
    append in flight at which it read the producer cursors, and every shard is
    durable up to the cursor it had then. *)
Theorem clean_drain_is_durable now c0 c :
  cinv c0 ->
  let s0 := drain_begin timeout now c0 in
  rtc (beside drain_step) s0 (DReturned (Ok Clean), c) ->
  exists d c1, rtc (beside drain_step) s0 (DTargets d, c1) /\
    forall s r1 r, c_rings c1 !! s = Some r1 -> c_rings c !! s = Some r ->
    producer_cursor r1 <= durable_cursor r <= committed_cursor r.
Proof.
  intros Hinv s0 Hrun.
  assert (drain_inv s0 (DReturned (Ok Clean), c)) as [Hc (d & c1 & Hr & Hre)].
  { assert (drain_inv s0 s0) as Hi.
    { split; [|done]. cbn [snd].
      by apply (cstep_inv readdir buf_cap bits trigger c0); [constructor|]. }
    revert Hi. clearbody s0. revert Hrun. generalize (DReturned (Ok Clean), c). intros s Hrun Hi.
    revert s Hrun. apply rtc_ind_r; [done|]. intros y z Hy Hyz Hiy. by eapply drain_call_inv. }
  exists d, c1. split; [done|]. intros s r1 r Hs1 Hs. cbn [fst snd] in *.
  pose proof (Forall_lookup_1 _ _ _ _ (ci_order _ Hc) Hs) as Ho. simpl in Ho. split; [|lia].
  apply (Hre s _ r); [|done]. unfold cursors_of. by rewrite list_lookup_fmap, Hs1.
Qed.
End system.

Section flush_demo.
#[local] Instance flush_demo_externals : Externals := toy.

Definition demo_cap (m : SegmentManager) : Z := blen (write_buf m).

Abbreviation demo_beside own := (beside demo_readdir demo_cap 0 demo_trigger own).

Lemma demo_committer_inv : cinv (demo_committer 3 1000 []).
Proof.
  apply (cinv_start [demo_slots 3] [_]); [done|]. constructor; [|constructor].
  split; [split|]; vm_compute; discriminate.
Qed.

(** The committer has served the flush request. *)
Definition demo_flushed : Committer :=
  (pass demo_readdir demo_cap 0 demo_trigger 0 (demo_flushing 3)).2.

Lemma demo_covered : Forall covered (c_mgrs (demo_committer 3 1000 [])).
Proof.
  constructor; [|constructor].
  refine (create_covered 1000 false false None (zeros 32) KeepAll 0 (demo_dir []) _ _ eq_refl _).
  vm_compute. reflexivity.
Qed.

(** The committer's pass takes nothing off a queue that is empty. *)
Lemma demo_queue c : queue_kept (demo_flushing 3) c.
Proof.
  intros [|i] x x' Hx _ id f Hi; [|by destruct i]. vm_compute in Hx. injection Hx as <-.
  simpl in Hi. by apply not_elem_of_nil in Hi.
Qed.

Lemma demo_request_queue : queue_kept (demo_committer 3 1000 []) (demo_flushing 3).
Proof.
  unfold demo_flushing. cbv zeta. generalize (demo_committer 3 1000 []) as c.
  intros c i x y Hx Hy. simpl in Hy. simplify_eq. intros id f Hi Hn. done.
Qed.

Lemma flush_makes_durable_witness :
  (forall r0, c_rings (demo_committer 3 1000 []) !! 0%nat = Some r0 ->
     producer_cursor r0 = 3 /\ durable_cursor r0 = 0) /\
  forall r, c_rings demo_flushed !! 0%nat = Some r -> 3 <= durable_cursor r <= committed_cursor r /\
  exists c1 r1, c_rings c1 !! 0%nat = Some r1 /\ 3 <= committed_cursor r1 /\
    Forall all_synced (c_mgrs c1).
Proof.
  split; [intros r0 Hr; vm_compute in Hr; by simplify_eq|]. intros r Hr.
  destruct (flush_makes_durable demo_readdir demo_cap 0 demo_trigger false 5 0
    (demo_committer 3 1000 []) (demo_committer 3 1000 []) demo_flushed) with
    (s := 0%nat) (r00 := demo_slots 3) (r0 := demo_slots 3) (r := r)
    as [Hd [Hbad|(c1 & r1 & _ & _ & H1 & H2 & H3)]];
    [exact demo_committer_inv|exact demo_covered|apply rtc_refl| |reflexivity|reflexivity|exact Hr| |].
  - assert (flush_begin false 5 0 (demo_committer 3 1000 []) = FRequest [3]) as -> by (vm_compute; reflexivity).
    apply rtc_l with (FWaiting [3] 5, demo_flushing 3).
    { split; [by apply (beside_eq _ _ _ _ _ 0)|]. cbn [snd]. apply demo_request_queue. }
    apply rtc_l with (FWaiting [3] 5, demo_flushed).
    { split; [|exact (demo_queue demo_flushed)]. apply beside_other. eapply cstep_pass. apply surjective_pairing. }
    apply rtc_once. split; [|exact (queue_kept_refl demo_flushed)]. apply (beside_eq _ _ _ _ _ 0). unfold flush_step, wait_poll.
    assert (is_done (c_flush demo_flushed) [3] = true) as -> by (vm_compute; reflexivity). reflexivity.
  - exfalso. vm_compute in Hbad. by apply Hbad.
  - split; [exact Hd|]. exists c1, r1. split; [done|]. split; [exact H2|].
    apply Forall_lookup. intros i [m w] Hi id f. by eapply H3.
Defined.

(** The committer has drained and synced its records. *)
Definition demo_draining : Committer :=
  (drain_step 0 (DTargets 5) (drain_begin 5 0 (demo_committer 3 1000 [])).2).2.
Definition demo_clean : Committer :=
  (pass demo_readdir demo_cap 0 demo_trigger 0 demo_draining).2.

Lemma clean_drain_is_durable_witness :
  exists d c1, rtc (demo_beside drain_step) (drain_begin 5 0 (demo_committer 3 1000 [])) (DTargets d, c1).
Proof.
  destruct (clean_drain_is_durable demo_readdir demo_cap 0 demo_trigger 5 0 (demo_committer 3 1000 []) demo_clean)
    as (d & c1 & Hr & _); [exact demo_committer_inv| |by exists d, c1].
  apply rtc_l with (DTargets 5, (drain_begin 5 0 (demo_committer 3 1000 [])).2);
    [by apply (beside_eq _ _ _ _ _ 0)|].
  apply rtc_l with (DWaiting [3] 5, demo_draining).
  { apply (beside_eq _ _ _ _ _ 0). unfold demo_draining.
    assert (cursors_of (drain_begin 5 0 (demo_committer 3 1000 [])).2 = [3]) as E by (vm_compute; reflexivity).
    unfold drain_step. rewrite E. reflexivity. }
  apply rtc_l with (DWaiting [3] 5, demo_clean).
  { apply beside_other. eapply cstep_pass. apply surjective_pairing. }
  apply rtc_once, (beside_eq _ _ _ _ _ 0). unfold drain_step, wait_poll.
  assert (is_done (c_flush demo_clean) [3] = true) as -> by (vm_compute; reflexivity). reflexivity.
Defined.
End flush_demo.
