(* ===== verification/Tailer.v ===== *)
(** * Tailers ([logdb/src/tailer.rs])

    A named consumer reads the durable records of every shard from its own
    positions, one per shard, and keeps them in a progress file.  The shard
    directories and the durable cursors belong to the other threads: every call
    gets them as they are when it runs. *)
From stdpp Require Import base gmap list numbers sorting.
From coqutil Require Import Byte.
From Stdlib Require Import ZArith Lia.
From S2P Require Import Prelude Externals RustStd Format Index Shard Config Ring KeyRing FileSys AtomicFile.
From S2P Require Import Storage Frame Recovery Reader ChunkIter ReadBack Scan.
Open Scope Z_scope.

(** ** The progress file *)

Definition LEGACY_PROGRESS_SIZE : Z := 12.

Section progress.
Context `{Externals}.

(** [load_progress] on the contents of the file, if it can be read. *)
Definition load_progress (file : option bytes) (num_shards : nat) : list Z :=
  let zeros := replicate num_shards 0 in
  match file with
  | None => zeros
  | Some data =>
      if (num_shards =? 1)%nat then
        if negb (blen data =? LEGACY_PROGRESS_SIZE) then zeros
        else if negb (crc32c (slice data 0 8) =? get_le data 8 4) then zeros
        else [get_le data 0 8]
      else if blen data <? 4 then zeros
      else
        let count := get_le data 0 4 in
        let need := 4 + count * 8 + 4 in
        if negb (blen data =? need) || negb (count =? Z.of_nat num_shards) then zeros
        else
          let body_end := 4 + count * 8 in
          if negb (crc32c (slice data 0 body_end) =? get_le data body_end 4) then zeros
          else (fun i => get_le data (4 + Z.of_nat i * 8) 8) <$> seq 0 (Z.to_nat count)
  end.

(** The arguments of the [write_all] calls of [save_progress]. *)
Definition progress_chunks (positions : list Z) : list bytes :=
  match positions with
  | [p] => [stamped p]
  | _ =>
      let body := to_le 4 (u32 (Z.of_nat (length positions))) ++ concat (to_le 8 <$> positions) in
      [body; to_le 4 (crc32c body)]
  end.

(** [save_progress]. *)
Definition save_progress (positions : list Z) : M AtomicFile IoError unit :=
  replace_file (progress_chunks positions).

Lemma words_cons p ps : concat (to_le 8 <$> p :: ps) = to_le 8 p ++ concat (to_le 8 <$> ps).
Proof. done. Qed.

Lemma length_words ps : blen (concat (to_le 8 <$> ps)) = Z.of_nat (length ps) * 8.
Proof.
  induction ps as [|p ps IH]; [done|]. rewrite words_cons, length_app, length_to_le. cbn [length]. lia.
Qed.

(** The words behind a prefix are read back. *)
Lemma get_words ps pre post :
  Forall (in_range 64) ps ->
  (fun i => get_le (pre ++ concat (to_le 8 <$> ps) ++ post) (blen pre + Z.of_nat i * 8) 8) <$> seq 0 (length ps) = ps.
Proof.
  intros Hps. revert pre. induction Hps as [|p ps Hp Hps IH]; intros pre; [done|]. rewrite words_cons. cbn [length seq]. rewrite fmap_cons. f_equal.
  - unfold get_le. rewrite Z.add_0_r, slice_app_r by lia. rewrite Z.sub_diag.
    replace (blen pre + 8 - blen pre) with 8 by lia. rewrite <- app_assoc, slice_app_exact.
    + by apply from_to_le.
    + done.
    + by rewrite length_to_le.
  - specialize (IH (pre ++ to_le 8 p)). rewrite <- fmap_S_seq, <- list_fmap_compose. etransitivity; [|exact IH].
    apply list_fmap_ext. intros i k _. unfold compose. f_equal; [by rewrite <- !app_assoc|].
    rewrite length_app, length_to_le. lia.
Qed.

Lemma load_saved_progress ps :
  Forall (in_range 64) ps -> Z.of_nat (length ps) < 2 ^ 32 ->
  load_progress (Some (concat (progress_chunks ps))) (length ps) = ps.
Proof.
  intros Hps Hlen. unfold load_progress, progress_chunks.
  destruct (decide (length ps = 1%nat)) as [H1|H1].
  - destruct ps as [|p [|]]; simplify_eq. inversion Hps as [|? ? Hp _]; subst. cbn [length Nat.eqb concat].
    rewrite app_nil_r. destruct (stamped_fields p Hp) as (H12 & Hc & ->). by rewrite H12, Hc, !Z.eqb_refl.
  - rewrite (proj2 (Nat.eqb_neq _ _) H1).
    set (body := to_le 4 (u32 (Z.of_nat (length ps))) ++ concat (to_le 8 <$> ps)).
    assert (concat (match ps with [p] => _ | _ => [body; to_le 4 (crc32c body)] end) = body ++ to_le 4 (crc32c body)) as ->.
    { destruct ps as [|? [|]]; cbn [concat]; rewrite ?app_nil_r; done. }
    assert (blen body = 4 + Z.of_nat (length ps) * 8) as Hb.
    { unfold body. rewrite length_app, length_to_le. pose proof (length_words ps). lia. }
    assert (get_le (body ++ to_le 4 (crc32c body)) 0 4 = Z.of_nat (length ps)) as Hc.
    { unfold get_le, body. rewrite <- app_assoc, slice_app_exact by (rewrite ?length_to_le; done).
      rewrite wrap_small by (split; lia). apply from_to_le. split; lia. }
    rewrite Hc. rewrite !length_app, !length_to_le.
    rewrite (proj2 (Z.ltb_ge _ _)), (proj2 (Z.eqb_eq _ _)) by lia. rewrite Z.eqb_refl. cbn [negb orb].
    rewrite <- Hb. rewrite slice_app_exact by done. unfold get_le at 1.
    rewrite slice_app_r by lia. rewrite Z.sub_diag. replace (blen body + 4 - blen body) with 4 by lia.
    rewrite slice_exact by (by rewrite ?length_to_le). rewrite from_to_le by (apply crc32c_range).
    rewrite Z.eqb_refl. cbn [negb]. rewrite Nat2Z.id. unfold body. etransitivity; [|apply (get_words ps (to_le 4 (u32 (Z.of_nat (length ps)))) (to_le 4 (crc32c body)) Hps)].
    apply list_fmap_ext. intros i k _. by rewrite <- app_assoc.
Qed.
End progress.

(** ** The tailer *)

(** The part of [Tailer] that changes. *)
Record Tailer := mkTailer { t_positions : list Z }.

(** [position]. *)
Definition position_min (t : Tailer) : Z := default 0 (list_min (t_positions t)).

(** [seek]. *)
Definition seek (seq : Z) (t : Tailer) : Tailer := mkTailer ((fun _ => seq) <$> t_positions t).

(** Running an iterator to its end or its first error; [None] is out of fuel. *)
Fixpoint stream_drain {S} `{Stream S} (fuel : nat) (s : S) : option (result ReadError (list Rec)) :=
  match fuel with
  | O => None
  | Datatypes.S fuel =>
      match stream_next s with
      | (None, _) => Some (Ok [])
      | (Some (Err e), _) => Some (Err e)
      | (Some (Ok r), s) =>
          match stream_drain fuel s with
          | Some (Ok rs) => Some (Ok (r :: rs))
          | x => x
          end
      end
  end.

Section tailer.
Context `{Externals}.
Variables (readdir : gmap Z bytes -> list Z) (short : Z -> Z -> Z) (keys : option KeyRing) (bits : Z).

(** [Tailer::open]. *)
Definition tailer_open (file : option bytes) (num_shards : nat) : Tailer :=
  mkTailer (load_progress file num_shards).

(** [commit]. *)
Definition commit (t : Tailer) : M AtomicFile IoError unit := save_progress (t_positions t).

(** [reset]; [path.exists()] follows the file the process sees. *)
Definition reset (t : Tailer) (d : AtomicFile) : Tailer * (result IoError unit * AtomicFile) :=
  let t := mkTailer ((fun _ => 0) <$> t_positions t) in
  match af_dat d with
  | Some _ => (t, af_remove d)
  | None => (t, (Ok tt, d))
  end.

(** A scan of one shard: the records, and the manifest as the scan leaves it. *)
Definition scan_dir (fuel : nat) (from_gid to_gid : Z) (d : ShardDir)
    : option (result ReadError (list Rec)) * ShardDir :=
  let '(sc, m) := scanner_new from_gid readdir (sd_files d) (sd_idxs d) (sd_mtime d) (sd_manifest d) in
  (@stream_drain _ (scanner_stream keys from_gid to_gid short) fuel sc,
   mkShardDir (sd_files d) (sd_idxs d) (sd_mtime d) m).

(** One round of the shard loop of [next_batch]. *)
Definition read_shard (fuel : nat) (max_count : Z) (s : nat) (durable from_local : Z) (d : ShardDir)
    : option (result ReadError (list Rec)) * ShardDir :=
  if durable <=? from_local then (Some (Ok []), d)
  else
    let to_local := Z.min (u64 (from_local + max_count)) durable in
    let from_gid := encode_record_id (Z.of_nat s) from_local bits in
    let to_gid := encode_record_id (Z.of_nat s) to_local bits in
    scan_dir fuel from_gid to_gid d.

(** The shard loop; [None] is also an index out of bounds. *)
Fixpoint read_shards (fuel : nat) (max_count : Z) (s : nat) (durables positions : list Z)
    (dirs : list ShardDir) : option (result ReadError (list Rec)) * list ShardDir :=
  match dirs, durables, positions with
  | [], _, _ => (Some (Ok []), [])
  | d :: dirs, durable :: durables, p :: positions =>
      match read_shard fuel max_count s durable p d with
      | (Some (Ok rs), d) =>
          let '(r, dirs) := read_shards fuel max_count (S s) durables positions dirs in
          (match r with Some (Ok rest) => Some (Ok (rs ++ rest)) | r => r end, d :: dirs)
      | (r, d) => (r, d :: dirs)
      end
  | _, _, _ => (None, dirs)
  end.

(** Moving the positions past the delivered records. *)
Fixpoint advance_positions (positions : list Z) (rs : list Rec) : option (list Z) :=
  match rs with
  | [] => Some positions
  | r :: rs =>
      let '(shard, local) := decode_record_id (rec_seq r) bits in
      let next := u64 (local + 1) in
      p ← positions !! Z.to_nat shard;
      advance_positions (if p <? next then <[Z.to_nat shard := next]> positions else positions) rs
  end.

(** [next_batch]; [None] is a panic. *)
Definition next_batch (fuel : nat) (max_count : Z) (durables : list Z) (dirs : list ShardDir) (t : Tailer)
    : option (result ReadError (option (list Rec)) * Tailer) * list ShardDir :=
  match read_shards fuel max_count 0 durables (t_positions t) dirs with
  | (None, dirs) => (None, dirs)
  | (Some (Err e), dirs) => (Some (Err e, t), dirs)
  | (Some (Ok []), dirs) => (Some (Ok None, t), dirs)
  | (Some (Ok all), dirs) =>
      let all := sort_by_key rec_seq all in
      let all := if max_count <? Z.of_nat (length all) then take (Z.to_nat max_count) all else all in
      (ps ← advance_positions (t_positions t) all; Some (Ok (Some all), mkTailer ps), dirs)
  end.

(** ** One batch *)

Definition rec_shard (r : Rec) : nat := Z.to_nat (decode_record_id (rec_seq r) bits).1.
Definition rec_local (r : Rec) : Z := (decode_record_id (rec_seq r) bits).2.

(** The records of shard [s] with a local sequence in [[a, b)]. *)
Definition between (a b : Z) (rs : list Rec) : list Rec := filter (fun r => a <= rec_local r < b) rs.

Definition of_shard (s : nat) (rs : list Rec) : list Rec := filter (fun r => rec_shard r = s) rs.

(** The records of shard [s]: their ids are its own, and they ascend. *)
Record shard_log (s : nat) (rs : list Rec) : Prop := {
  lg_ids : Forall (fun r => exists l, rec_seq r = encode_record_id (Z.of_nat s) l bits /\
                                      id_ok (Z.of_nat s) l bits /\ l + 1 < 2 ^ 64) rs;
  lg_asc : StronglySorted (fun a b => rec_seq a < rec_seq b) rs;
}.

Lemma stream_drain_yields {S} `{StreamLaws S} fuel (s : S) :
  good s -> (length (yields s) < fuel)%nat -> stream_drain fuel s = Some (Ok (yields s)).
Proof.
  revert s. induction fuel as [|fuel IH]; intros s Hg Hn; [lia|]. cbn [stream_drain].
  pose proof (next_yields s Hg) as Hs. pose proof (next_good s Hg) as Hg'.
  destruct (stream_next s) as [item s']. simpl in *.
  destruct (yields s) as [|r rs]; destruct Hs as [-> Hy]; [done|]. simpl in Hn.
  rewrite IH by (done || rewrite Hy; lia). by rewrite Hy.
Qed.

Definition dir_records (segs : list Seg) : list Rec := view_rec <$> all_views segs.

(** A scan of one directory returns the records of the range and leaves the
    directory readable. *)
Lemma scan_dir_spec fuel from to d segs :
  dir_layout readdir d segs -> (length (dir_records segs) < fuel)%nat ->
  exists d', scan_dir fuel from to d = (Some (Ok (filter (fun r => from <= rec_seq r < to) (dir_records segs))), d') /\
    dir_layout readdir d' segs.
Proof.
  intros [Hl Hm] Hn. unfold scan_dir.
  destruct (scanner_new_spec from to readdir (sd_files d) (sd_idxs d) (sd_mtime d) segs (sd_manifest d) Hl Hm) as [Hg Hy].
  unfold scanner_new, segments_from in *.
  destruct (refresh_layout readdir (sd_files d) (sd_idxs d) (sd_mtime d) segs (sd_manifest d) Hl Hm) as [b Hr].
  rewrite Hr in *. simpl in *.
  exists (mkShardDir (sd_files d) (sd_idxs d) (sd_mtime d) (mkManifest (entry_of <$> segs) (sd_mtime d))).
  split; [|split; [exact Hl|by right]]. f_equal.
  rewrite (@stream_drain_yields _ (scanner_stream keys from to short) (scanner_laws keys from to short)); [|exact Hg|].
  - simpl. rewrite Hy. unfold dir_records. by rewrite filter_fmap.
  - simpl. rewrite Hy, length_fmap. eapply Nat.le_lt_trans; [apply length_filter|]. unfold dir_records in Hn. by rewrite length_fmap in Hn.
Qed.

Lemma shard_log_decode s rs r :
  shard_log s rs -> r ∈ rs ->
  rec_shard r = s /\ 0 <= rec_local r /\ rec_local r + 1 < 2 ^ 64 /\
  rec_seq r = encode_record_id (Z.of_nat s) (rec_local r) bits /\ id_ok (Z.of_nat s) (rec_local r) bits.
Proof.
  intros [Hids _] Hr. pose proof (proj1 (Forall_forall _ _) Hids r Hr) as (l & He & Hok & Hlt).
  unfold rec_shard, rec_local. rewrite He, decode_encode by done. simpl. rewrite Nat2Z.id.
  pose proof Hok as [_ _ [? ?]]. done.
Qed.

(** What the shard loop takes of a shard. *)
Definition candidates (max_count du p : Z) (rs : list Rec) : list Rec :=
  between p (Z.min (p + max_count) du) rs.

Lemma between_empty a b rs : b <= a -> between a b rs = [].
Proof. intros Hab. apply filter_nothing. lia. Qed.

Lemma read_shard_spec fuel max_count s du p d segs :
  dir_layout readdir d segs -> shard_log s (dir_records segs) -> (length (dir_records segs) < fuel)%nat ->
  0 <= max_count -> p + max_count < 2 ^ 64 -> id_ok (Z.of_nat s) p bits -> id_ok (Z.of_nat s) du bits ->
  exists d', read_shard fuel max_count s du p d = (Some (Ok (candidates max_count du p (dir_records segs))), d') /\
    dir_layout readdir d' segs.
Proof.
  intros Hl Hlog Hn Hmax Hov Hp Hdu. unfold read_shard, candidates.
  destruct (Z.leb_spec du p) as [Hle|Hlt]; [rewrite between_empty by lia; by eexists|].
  pose proof Hp as [? ? [? ?]]. pose proof Hdu as [_ _ [? ?]]. rewrite wrap_small by (split; lia).
  set (q := Z.min (p + max_count) du). assert (id_ok (Z.of_nat s) q bits) as Hq by (split; [done|done|lia]).
  destruct (scan_dir_spec fuel (encode_record_id (Z.of_nat s) p bits) (encode_record_id (Z.of_nat s) q bits) d segs Hl Hn)
    as (d' & -> & Hl'). exists d'. split; [|done]. repeat f_equal.
  apply filter_ext_elem. intros r Hr. destruct (shard_log_decode s _ r Hlog Hr) as (_ & _ & _ & -> & Hok).
  pose proof (encode_lt _ _ _ _ _ Hok Hp). pose proof (encode_lt _ _ _ _ _ Hok Hq). lia.
Qed.

(** The shards as a call of [next_batch] meets them: each directory is readable
    and holds the records [rs] of its shard. *)
Fixpoint env_ok (max_count : Z) (s : nat) (durables positions : list Z) (dirs : list ShardDir)
    (recss : list (list Rec)) : Prop :=
  match dirs, durables, positions, recss with
  | [], [], [], [] => True
  | d :: dirs, du :: durables, p :: positions, rs :: recss =>
      (exists segs, dir_layout readdir d segs /\ rs = dir_records segs) /\ shard_log s rs /\
      p + max_count < 2 ^ 64 /\ id_ok (Z.of_nat s) p bits /\ id_ok (Z.of_nat s) du bits /\
      env_ok max_count (S s) durables positions dirs recss
  | _, _, _, _ => False
  end.

Fixpoint all_candidates (max_count : Z) (durables positions : list Z) (recss : list (list Rec)) : list (list Rec) :=
  match durables, positions, recss with
  | du :: durables, p :: positions, rs :: recss =>
      candidates max_count du p rs :: all_candidates max_count durables positions recss
  | _, _, _ => []
  end.

Lemma read_shards_spec fuel max_count s durables positions dirs recss :
  0 <= max_count -> env_ok max_count s durables positions dirs recss ->
  Forall (fun rs => (length rs < fuel)%nat) recss ->
  exists dirs', read_shards fuel max_count s durables positions dirs =
      (Some (Ok (concat (all_candidates max_count durables positions recss))), dirs') /\
    env_ok max_count s durables positions dirs' recss.
Proof.
  intros Hmax. revert s durables positions recss.
  induction dirs as [|d dirs IH]; intros s [|du durables] [|p positions] [|rs recss] Henv Hn; try done.
  { by exists []. }
  destruct Henv as ((segs & Hl & ->) & Hlog & Hov & Hp & Hdu & Henv). inversion Hn as [|? ? Hn1 Hn2]; subst.
  cbn [read_shards all_candidates concat].
  destruct (read_shard_spec fuel max_count s du p d segs) as (d' & -> & Hl'); try done.
  destruct (IH (S s) durables positions recss Henv Hn2) as (dirs' & -> & Henv').
  exists (d' :: dirs'). split; [done|]. split; [by exists segs|done].
Qed.

Lemma env_lookup max_count s0 durables positions dirs recss s rs :
  env_ok max_count s0 durables positions dirs recss -> recss !! s = Some rs ->
  shard_log (s0 + s) rs /\ exists du p, durables !! s = Some du /\ positions !! s = Some p /\
    p + max_count < 2 ^ 64 /\ id_ok (Z.of_nat (s0 + s)) p bits /\ id_ok (Z.of_nat (s0 + s)) du bits /\
    all_candidates max_count durables positions recss !! s = Some (candidates max_count du p rs).
Proof.
  revert s s0 durables positions recss.
  induction dirs as [|d dirs IH]; intros s s0 [|du durables] [|p positions] [|rs' recss] Henv Hs; try done.
  destruct Henv as (_ & Hlog & Hov & Hp & Hdu & Henv). destruct s as [|s]; simpl in Hs.
  - simplify_eq. rewrite Nat.add_0_r. split; [done|]. by exists du, p.
  - replace (s0 + S s)%nat with (S s0 + s)%nat by lia. exact (IH s (S s0) durables positions recss Henv Hs).
Qed.

Lemma env_length max_count s0 durables positions dirs recss :
  env_ok max_count s0 durables positions dirs recss ->
  length recss = length dirs /\ length positions = length dirs /\ length durables = length dirs.
Proof.
  revert s0 durables positions recss.
  induction dirs as [|d dirs IH]; intros s0 [|du durables] [|p positions] [|rs recss] Henv; try done.
  destruct Henv as (_ & _ & _ & _ & _ & Henv). apply IH in Henv. simpl. lia.
Qed.

(** Moving positions looks at each shard's own records only. *)
Definition bump (p : Z) (r : Rec) : Z := Z.max p (rec_local r + 1).

Lemma of_shard_cons s r rs :
  of_shard s (r :: rs) = (if decide (rec_shard r = s) then [r] else []) ++ of_shard s rs.
Proof. unfold of_shard. rewrite filter_cons. by case_decide. Qed.

Lemma advance_positions_spec ps rs :
  Forall (fun r => (rec_shard r < length ps)%nat /\ 0 <= rec_local r /\ rec_local r + 1 < 2 ^ 64) rs ->
  exists ps', advance_positions ps rs = Some ps' /\ length ps' = length ps /\
    forall s p, ps !! s = Some p -> ps' !! s = Some (foldl bump p (of_shard s rs)).
Proof.
  revert ps. induction rs as [|r rs IH]; intros ps Hrs; [by exists ps|].
  inversion Hrs as [|? ? (Hs & H0 & H64) Hrs']; subst. cbn [advance_positions].
  unfold rec_shard, rec_local in *. destruct (decode_record_id (rec_seq r) bits) as [shard local] eqn:Hd.
  cbn [fst snd] in *. destruct (lookup_lt_is_Some_2 ps _ Hs) as [p Hp]. rewrite Hp. cbn [mbind option_bind].
  rewrite wrap_small by (split; lia).
  set (ps1 := if p <? local + 1 then <[Z.to_nat shard := local + 1]> ps else ps). assert (length ps1 = length ps) as Hlen.
  { unfold ps1. case_match; [apply length_insert|done]. }
  destruct (IH ps1) as (ps' & -> & Hl' & Hps'); [by rewrite Hlen|]. exists ps'. split; [done|].
  split; [congruence|]. intros s q Hq. rewrite of_shard_cons. unfold rec_shard. rewrite Hd. cbn [fst].
  case_decide as Hd'; cbn [app foldl].
  - subst s. assert (q = p) as -> by congruence. apply Hps'. unfold ps1, bump, rec_local. rewrite Hd. cbn [snd].
    destruct (Z.ltb_spec p (local + 1)).
    + rewrite list_lookup_insert_eq by done. f_equal. lia.
    + rewrite Hp. f_equal. lia.
  - apply Hps'. unfold ps1. case_match; [by rewrite list_lookup_insert_ne|done].
Qed.

(** A shard's prefix of what was read is what lies below the moved position. *)
Lemma bump_last p pre x :
  Forall (fun r => rec_local r < rec_local x) pre -> p <= rec_local x ->
  foldl bump p (pre ++ [x]) = rec_local x + 1.
Proof.
  intros Hpre Hp. rewrite foldl_app. cbn [foldl]. unfold bump at 1.
  enough (foldl bump p pre <= rec_local x) by lia. revert p Hp.
  induction Hpre as [|r pre Hr _ IH]; intros p Hp; [done|]. cbn [foldl]. apply IH. unfold bump. lia.
Qed.

Lemma between_narrow a' b a c rs : a' <= a -> c <= b -> between a c rs = between a c (between a' b rs).
Proof.
  intros Ha Hc. unfold between. rewrite list_filter_filter. apply filter_ext_elem. intros x _. lia.
Qed.

Lemma between_prefix p q rs pre suf :
  StronglySorted (fun a b => rec_local a < rec_local b) rs -> between p q rs = pre ++ suf ->
  let p' := foldl bump p pre in
  between p p' rs = pre /\ p <= p' <= Z.max p q.
Proof.
  intros Hs Hb. destruct pre as [|x pre _] using rev_ind; cbv zeta.
  { simpl. rewrite between_empty by lia. split; [done|lia]. }
  assert (StronglySorted (fun a b => rec_local a < rec_local b) ((pre ++ [x]) ++ suf)) as Hsort.
  { rewrite <- Hb. by apply sorted_filter. }
  assert (forall y, y ∈ pre ++ [x] -> p <= rec_local y < q) as Hin.
  { intros y Hy. assert (y ∈ between p q rs) as Hy' by (rewrite Hb; apply elem_of_app; by left).
    by apply list_elem_of_filter in Hy' as [? _]. }
  pose proof (Hin x ltac:(apply elem_of_app; right; left)) as Hx.
  rewrite <- app_assoc in Hsort. destruct (sorted_middle _ _ _ _ Hsort) as [Hpre Hsuf].
  rewrite (bump_last p pre x Hpre) by lia. split; [|lia].
  rewrite (between_narrow p q p) by lia. rewrite Hb. unfold between. rewrite !filter_app.
  rewrite (filter_all _ pre), (filter_all _ [x]), (filter_nothing _ suf).
  - by rewrite app_nil_r.
  - intros y Hy. pose proof (proj1 (Forall_forall _ _) Hsuf y Hy). simpl in *. lia.
  - intros y Hy. apply list_elem_of_singleton in Hy as ->. lia.
  - intros y Hy. pose proof (Hin y ltac:(apply elem_of_app; by left)). pose proof (proj1 (Forall_forall _ _) Hpre y Hy). simpl in *. lia.
Qed.

Lemma shard_log_locals s rs : shard_log s rs -> StronglySorted (fun a b => rec_local a < rec_local b) rs.
Proof.
  intros Hlog. eapply sorted_impl_elem; [|apply Hlog]. intros x y Hx Hy Hlt.
  destruct (shard_log_decode s rs x Hlog Hx) as (_ & _ & _ & Ex & Hokx).
  destruct (shard_log_decode s rs y Hlog Hy) as (_ & _ & _ & Ey & Hoky).
  cbv beta in Hlt. rewrite Ex, Ey in Hlt. apply encode_lt in Hlt; [lia|done..].
Qed.

(** Sorting the candidates of all shards keeps each shard's own in order. *)
Lemma candidates_elem max_count s0 durables positions dirs recss r :
  env_ok max_count s0 durables positions dirs recss ->
  r ∈ concat (all_candidates max_count durables positions recss) ->
  exists s rs, recss !! s = Some rs /\ rec_shard r = (s0 + s)%nat /\ r ∈ rs.
Proof.
  revert s0 durables positions recss.
  induction dirs as [|d dirs IH]; intros s0 [|du durables] [|p positions] [|rs recss] Henv Hr; try done;
    try by apply not_elem_of_nil in Hr.
  destruct Henv as (_ & Hlog & _ & _ & _ & Henv). cbn [all_candidates concat] in Hr.
  apply elem_of_app in Hr as [Hr|Hr].
  - apply list_elem_of_filter in Hr as [_ Hr]. exists 0%nat, rs. split; [done|]. split; [|done].
    rewrite Nat.add_0_r. by apply (shard_log_decode s0 rs r Hlog).
  - destruct (IH (S s0) durables positions recss Henv Hr) as (s & rs' & Hs & Hsh & Hin).
    exists (S s), rs'. split; [done|]. split; [lia|done].
Qed.

Lemma of_shard_concat max_count s0 durables positions dirs recss s c :
  env_ok max_count s0 durables positions dirs recss ->
  all_candidates max_count durables positions recss !! s = Some c ->
  of_shard (s0 + s) (concat (all_candidates max_count durables positions recss)) = c.
Proof.
  revert s s0 durables positions recss.
  induction dirs as [|d dirs IH]; intros s s0 [|du durables] [|p positions] [|rs recss] Henv Hs; try done.
  pose proof Henv as (_ & Hlog & _ & _ & _ & Henv'). cbn [all_candidates concat] in *.
  unfold of_shard. rewrite filter_app. fold (of_shard (s0 + s) (concat (all_candidates max_count durables positions recss))).
  assert (forall r, r ∈ candidates max_count du p rs -> rec_shard r = s0) as Hhd.
  { intros r [_ Hr]%list_elem_of_filter. by apply (shard_log_decode s0 rs r Hlog). }
  destruct s as [|s]; simpl in Hs.
  - simplify_eq. rewrite Nat.add_0_r. rewrite filter_all by done. unfold of_shard. rewrite filter_nothing; [apply app_nil_r|].
    intros r Hr. destruct (candidates_elem _ _ _ _ _ _ r Henv' Hr) as (s & _ & _ & -> & _). lia.
  - replace (s0 + S s)%nat with (S s0 + s)%nat by lia. rewrite (IH s (S s0) durables positions recss Henv' Hs).
    rewrite filter_nothing; [done|]. intros r Hr. rewrite (Hhd r Hr). lia.
Qed.

Lemma of_shard_sorted max_count durables positions dirs recss s rs :
  env_ok max_count 0 durables positions dirs recss -> recss !! s = Some rs ->
  exists du p, durables !! s = Some du /\ positions !! s = Some p /\
    of_shard s (sort_by_key rec_seq (concat (all_candidates max_count durables positions recss))) =
    candidates max_count du p rs.
Proof.
  intros Henv Hs. destruct (env_lookup _ _ _ _ _ _ _ _ Henv Hs) as (Hlog & du & p & Hdu & Hp & _ & _ & _ & Hc).
  exists du, p. split; [done|]. split; [done|]. simpl in Hlog.
  pose proof (of_shard_concat _ _ _ _ _ _ _ _ Henv Hc) as Hof. simpl in Hof.
  pose proof (sort_by_key_sorted rec_seq (concat (all_candidates max_count durables positions recss))) as Hsort.
  pose proof (sort_by_key_perm rec_seq (concat (all_candidates max_count durables positions recss))) as Hperm.
  set (l := concat _) in *. set (sl := sort_by_key rec_seq l) in *.
  apply (StronglySorted_unique_strong (key_le rec_seq)).
  - intros x y Hx Hy Hxy Hyx. assert (x ∈ candidates max_count du p rs) as Hx'.
    { rewrite <- Hof. unfold of_shard in *. by rewrite <- Hperm. }
    apply list_elem_of_filter in Hx' as [_ Hx'], Hy as [_ Hy]. unfold key_le in *.
    apply (sorted_inj rec_seq rs); [apply Hlog|done|done|lia].
  - by apply sorted_filter.
  - apply sorted_filter. eapply sorted_impl_elem; [|apply Hlog]. unfold key_le. simpl. lia.
  - rewrite <- Hof. unfold of_shard. by rewrite Hperm.
Qed.

(** The effect of one call on shard [s]. *)
Definition delivered (s : nat) (rs : list Rec) (du p p' : Z) (batch : list Rec) : Prop :=
  of_shard s batch = between p p' rs /\ p <= p' <= Z.max p du.

Lemma next_batch_eq fuel max_count durables dirs dirs' t cs :
  0 <= max_count -> (max_count = 0 -> cs = []) ->
  read_shards fuel max_count 0 durables (t_positions t) dirs = (Some (Ok cs), dirs') ->
  let batch := take (Z.to_nat max_count) (sort_by_key rec_seq cs) in
  next_batch fuel max_count durables dirs t =
    (ps ← advance_positions (t_positions t) batch;
     Some (Ok (match batch with [] => None | _ => Some batch end), mkTailer ps), dirs') /\
  (batch = [] -> cs = []).
Proof.
  intros Hmax H0 Hread. cbv zeta. remember (take (Z.to_nat max_count) (sort_by_key rec_seq cs)) as batch eqn:Hb.
  unfold next_batch. rewrite Hread.
  destruct cs as [|c cs'] eqn:Hcs; [subst batch; cbn [sort_by_key]; rewrite take_nil; split; [by destruct t|done]|].
  rewrite <- Hcs in *.
  assert ((if max_count <? blen (sort_by_key rec_seq cs)
           then take (Z.to_nat max_count) (sort_by_key rec_seq cs) else sort_by_key rec_seq cs) = batch) as ->.
  { subst batch. destruct (Z.ltb_spec max_count (blen (sort_by_key rec_seq cs))); [done|]. rewrite take_ge; [done|lia]. }
  assert (batch <> []) as Hne.
  { subst batch. pose proof (sort_by_key_perm rec_seq cs) as Hp. apply Permutation_length in Hp.
    destruct (sort_by_key rec_seq cs); [subst cs; simpl in Hp; lia|].
    destruct (Z.to_nat max_count) eqn:Hn; [|done]. specialize (H0 ltac:(lia)). congruence. }
  split; [|by intros]. clear Hb. destruct batch; done.
Qed.

Lemma no_candidates durables positions recss : concat (all_candidates 0 durables positions recss) = [].
Proof.
  revert positions recss. induction durables as [|du durables IH]; intros [|p positions] [|rs recss]; try done.
  cbn [all_candidates concat]. unfold candidates. rewrite between_empty by lia. apply IH.
Qed.

Lemma next_batch_spec fuel max_count durables dirs recss t :
  0 <= max_count -> env_ok max_count 0 durables (t_positions t) dirs recss ->
  Forall (fun rs => (length rs < fuel)%nat) recss ->
  exists batch t' dirs',
    next_batch fuel max_count durables dirs t =
      (Some (Ok (match batch with [] => None | _ => Some batch end), t'), dirs') /\
    Z.of_nat (length batch) <= max_count /\ StronglySorted rec_le batch /\
    length (t_positions t') = length (t_positions t) /\
    Forall (fun r => (rec_shard r < length (t_positions t))%nat) batch /\
    (forall s rs, recss !! s = Some rs ->
       exists du p p', durables !! s = Some du /\ t_positions t !! s = Some p /\ t_positions t' !! s = Some p' /\
         delivered s rs du p p' batch /\ (batch = [] -> candidates max_count du p rs = [])).
Proof.
  intros Hmax Henv Hn. destruct (env_length _ _ _ _ _ _ Henv) as (Hl1 & Hl2 & _).
  destruct (read_shards_spec fuel max_count 0 durables (t_positions t) dirs recss Hmax Henv Hn) as (dirs' & Hread & _).
  set (cs := concat (all_candidates max_count durables (t_positions t) recss)) in *.
  destruct (next_batch_eq fuel max_count durables dirs dirs' t cs Hmax) as [-> Hempty]; [|done|].
  { intros ->. apply no_candidates. }
  set (sorted := sort_by_key rec_seq cs) in *. set (batch := take (Z.to_nat max_count) sorted) in *.
  assert (Forall (fun r => (rec_shard r < length (t_positions t))%nat /\ 0 <= rec_local r /\
    rec_local r + 1 < 2 ^ 64) batch) as Hrec.
  { apply Forall_take, Forall_forall. unfold sorted. intros r Hr. rewrite sort_by_key_perm in Hr.
    destruct (candidates_elem _ _ _ _ _ _ r Henv Hr) as (s & rs & Hs & Hsh & Hin).
    destruct (env_lookup _ _ _ _ _ _ _ _ Henv Hs) as (Hlog & _). apply lookup_lt_Some in Hs.
    destruct (shard_log_decode _ _ r Hlog Hin) as (_ & ? & ? & _). simpl in *. lia. }
  destruct (advance_positions_spec (t_positions t) batch Hrec) as (ps & -> & Hps & Hadv). cbn [mbind option_bind].
  exists batch, (mkTailer ps), dirs'. split; [done|].
  split; [unfold batch; rewrite length_take; lia|].
  split. { pose proof (sort_by_key_sorted rec_seq cs) as Hs. rewrite <- (take_drop (Z.to_nat max_count) (sort_by_key rec_seq cs)) in Hs.
           exact (StronglySorted_app_1_l _ _ _ Hs). }
  split; [done|]. split; [eapply Forall_impl; [exact Hrec|by intros r [? _]]|].
  intros s rs Hs. destruct (of_shard_sorted _ _ _ _ _ _ _ Henv Hs) as (du & p & Hdu & Hp & Hof).
  destruct (env_lookup _ _ _ _ _ _ _ _ Henv Hs) as (Hlog & du' & p2 & Hdu' & Hp2 & _ & _ & _ & Hc). simpl in Hlog.
  simplify_eq. exists du, p, (foldl bump p (of_shard s batch)).
  split; [done|]. split; [done|]. split; [by apply Hadv|]. split.
  - fold cs in Hof. fold sorted in Hof. rewrite <- (take_drop (Z.to_nat max_count) sorted) in Hof.
    unfold of_shard in Hof. rewrite filter_app in Hof. symmetry in Hof.
    destruct (between_prefix _ _ rs _ _ (shard_log_locals _ _ Hlog) Hof) as [Hb Hle]. split; [done|].
    unfold batch, of_shard. lia.
  - intros Hb. by apply (concat_empty _ s _ (Hempty Hb)).
Qed.

(** ** Runs *)

Lemma between_join a b c rs :
  StronglySorted (fun x y => rec_local x < rec_local y) rs -> a <= b <= c ->
  between a b rs ++ between b c rs = between a c rs.
Proof.
  intros Hs Habc. induction Hs as [|r rs Hs IH Hall]; [done|]. unfold between in *.
  destruct (Z_lt_le_dec (rec_local r) b) as [Hlt|Hge].
  - rewrite !filter_cons. rewrite (decide_False (P := b <= _ < _)) by lia.
    destruct (Z_lt_le_dec (rec_local r) a); [by rewrite !decide_False by lia|].
    rewrite !decide_True by lia. simpl. by rewrite IH.
  - assert (forall x, x ∈ r :: rs -> b <= rec_local x) as Hb.
    { intros x [->|Hx]%elem_of_cons; [done|]. pose proof (proj1 (Forall_forall _ _) Hall x Hx). simpl in *. lia. }
    rewrite (filter_nothing _ (r :: rs)) by (intros x Hx; specialize (Hb x Hx); lia). simpl app.
    apply filter_ext_elem. intros x Hx. specialize (Hb x Hx). lia.
Qed.

(** Successive calls, each with the cursors and directories it meets: the
    batches and the tailer at the end; [None] when a call fails. *)
Fixpoint tail_run (fuel : nat) (max_count : Z) (envs : list (list Z * list ShardDir)) (t : Tailer)
    : option (list (list Rec) * Tailer) :=
  match envs with
  | [] => Some ([], t)
  | (durables, dirs) :: envs =>
      match (next_batch fuel max_count durables dirs t).1 with
      | Some (Ok b, t) => '(bs, t) ← tail_run fuel max_count envs t; Some (default [] b :: bs, t)
      | _ => None
      end
  end.

(** The shards as a call meets them while the log is [log]: every directory
    consists of raw segments with base sequences above all records of earlier
    segments and with index files that are missing or right ([dir_layout]), and
    holds, up to the durable cursor, the records of [log].  Not every directory
    the program writes is like that: a roll to a pre-allocated segment keeps a
    base that may be behind ([stale_base_hides_record] in [ReadBack]), framed
    segments are read by another path, and retention deletes records
    ([tailer_stalls_behind_retention]). *)
Fixpoint reads_log (fuel : nat) (max_count : Z) (s : nat) (durables : list Z) (dirs : list ShardDir)
    (log : list (list Rec)) : Prop :=
  match dirs, durables, log with
  | [], [], [] => True
  | d :: dirs, du :: durables, rs :: log =>
      (exists segs, dir_layout readdir d segs /\ shard_log s (dir_records segs) /\
         (length (dir_records segs) < fuel)%nat /\ between 0 du (dir_records segs) = between 0 du rs) /\
      shard_log s rs /\ id_ok (Z.of_nat s) du bits /\ du + max_count < 2 ^ 64 /\
      reads_log fuel max_count (S s) durables dirs log
  | _, _, _ => False
  end.

Definition pos_ok (max_count p : Z) : Prop := 0 <= p < 2 ^ (64 - bits) /\ p + max_count < 2 ^ 64.

Lemma reads_log_env fuel max_count s durables dirs log positions :
  reads_log fuel max_count s durables dirs log -> Forall (pos_ok max_count) positions ->
  length positions = length log ->
  exists recss, env_ok max_count s durables positions dirs recss /\
    Forall (fun rs => (length rs < fuel)%nat) recss /\
    forall k rs, log !! k = Some rs -> shard_log (s + k) rs /\
      exists rs' du, recss !! k = Some rs' /\ durables !! k = Some du /\
        pos_ok max_count du /\ between 0 du rs' = between 0 du rs.
Proof.
  revert s durables log positions.
  induction dirs as [|d dirs IH]; intros s [|du durables] [|rs log] [|p positions] Hr Hp Hlen; try done.
  { by exists []. }
  destruct Hr as ((segs & Hl & Hlog & Hn & Hb) & Hlog' & Hdu & Hov & Hr). inversion Hp as [|? ? [Hp0 Hpov] Hp']; subst.
  destruct (IH (S s) durables log positions Hr Hp' ltac:(simpl in Hlen; lia)) as (recss & Henv & Hns & Hrel).
  exists (dir_records segs :: recss). pose proof Hdu as [Hbits Hsh Hloc]. split; [|split; [by constructor|]].
  - split; [by exists segs|]. split; [done|]. split; [done|]. split; [by split|]. done.
  - intros [|k] rs' Hk; simpl in Hk; simplify_eq.
    + rewrite Nat.add_0_r. split; [done|]. exists (dir_records segs), du. split_and!; done.
    + replace (s + S k)%nat with (S s + k)%nat by lia. by apply Hrel.
Qed.

Lemma next_batch_on_log fuel max_count durables dirs log t :
  0 <= max_count -> Forall (pos_ok max_count) (t_positions t) -> length (t_positions t) = length log ->
  reads_log fuel max_count 0 durables dirs log ->
  exists batch t' dirs',
    next_batch fuel max_count durables dirs t =
      (Some (Ok (match batch with [] => None | _ => Some batch end), t'), dirs') /\
    (Z.of_nat (length batch) <= max_count /\ StronglySorted rec_le batch) /\
    Forall (pos_ok max_count) (t_positions t') /\ length (t_positions t') = length log /\
    Forall (fun r => (rec_shard r < length log)%nat) batch /\
    (forall s rs, log !! s = Some rs -> shard_log s rs /\
       exists du p p', durables !! s = Some du /\ t_positions t !! s = Some p /\ t_positions t' !! s = Some p' /\
         0 <= p /\ delivered s rs du p p' batch /\ (batch = [] -> candidates max_count du p rs = [])).
Proof.
  intros Hmax Hpos Hlen Hr. destruct (reads_log_env _ _ _ _ _ _ _ Hr Hpos Hlen) as (recss & Henv & Hn & Hrel).
  destruct (next_batch_spec fuel max_count durables dirs recss t Hmax Henv Hn)
    as (batch & t' & dirs' & Heq & Hb & Hs & Hl' & Hsh & Hdel).
  exists batch, t', dirs'. split; [done|]. split; [done|].
  assert (forall s rs, log !! s = Some rs -> shard_log s rs /\
       exists du p p', durables !! s = Some du /\ t_positions t !! s = Some p /\ t_positions t' !! s = Some p' /\
         pos_ok max_count p /\ pos_ok max_count du /\ delivered s rs du p p' batch /\
         (batch = [] -> candidates max_count du p rs = [])) as Hall.
  { intros s rs Hs'. destruct (Hrel s rs Hs') as (Hlog & rs' & du & Hrs' & Hdu & Hduok & Hbt). split; [done|].
    destruct (Hdel s rs' Hrs') as (du' & p & p' & Hdu' & Hp & Hp' & [Hd Hle] & He). simplify_eq.
    exists du, p, p'. pose proof (Forall_lookup_1 _ _ _ _ Hpos Hp) as Hpok. pose proof Hpok as [[Hp0 _] _].
    assert (forall b, b <= Z.max p du -> between p b rs' = between p b rs) as Hsame.
    { intros b Hb'. destruct (Z_lt_le_dec p b) as [Hlt|Hge]; [|by rewrite !between_empty by done].
      rewrite (between_narrow 0 du p b rs), (between_narrow 0 du p b rs') by lia. by rewrite Hbt. }
    split_and!; try done; [split; [by rewrite <- Hsame by lia|done]|].
    intros Hbe. unfold candidates in *. rewrite <- Hsame by lia. by apply He. }
  split_and!; [|congruence| |].
  - apply Forall_lookup. intros s p' Hp'. assert (s < length log)%nat as Hlt by (apply lookup_lt_Some in Hp'; lia).
    destruct (lookup_lt_is_Some_2 log s Hlt) as [rs Hrs].
    destruct (Hall s rs Hrs) as (_ & du & p & p2 & _ & _ & Hp2 & Hpok & Hduok & [_ Hle] & _). simplify_eq.
    unfold pos_ok in *. lia.
  - rewrite <- Hlen. done.
  - intros s rs Hrs. destruct (Hall s rs Hrs) as (Hlog & du & p & p' & ? & ? & ? & Hpok & _ & ? & ?).
    split; [done|]. exists du, p, p'. pose proof Hpok as [[? _] _]. done.
Qed.


(** ** Catching up *)

(** How many records the positions are behind the durable cursors. *)
Fixpoint remaining (durables positions : list Z) : Z :=
  match durables, positions with
  | du :: durables, p :: positions => Z.max 0 (du - p) + remaining durables positions
  | _, _ => 0
  end.

Lemma remaining_zero durables positions :
  length positions = length durables ->
  0 <= remaining durables positions /\
  (remaining durables positions <= 0 <->
   forall s du p, durables !! s = Some du -> positions !! s = Some p -> du <= p).
Proof.
  revert positions. induction durables as [|du durables IH]; intros [|p positions] Hlen; try done.
  destruct (IH positions ltac:(simpl in Hlen; lia)) as [H0 H1]. cbn [remaining]. split; [lia|]. split.
  - intros Hle [|s] du' p' Hdu Hp; simplify_eq/=; [lia|]. revert s du' p' Hdu Hp. apply H1. lia.
  - intros Hall. pose proof (Hall 0%nat du p eq_refl eq_refl).
    assert (remaining durables positions <= 0); [|lia]. apply H1. intros s. apply (Hall (S s)).
Qed.

Lemma remaining_mono durables ps ps' :
  length ps = length durables -> length ps' = length durables ->
  (forall s p p', ps !! s = Some p -> ps' !! s = Some p' -> p <= p') ->
  remaining durables ps' <= remaining durables ps /\
  forall s du p p', durables !! s = Some du -> ps !! s = Some p -> ps' !! s = Some p' ->
    p < p' -> p < du -> remaining durables ps' < remaining durables ps.
Proof.
  revert ps ps'. induction durables as [|du durables IH]; intros [|p ps] [|p' ps'] H1 H2 Hle; try done.
  simpl in H1, H2. destruct (IH ps ps' ltac:(lia) ltac:(lia) (fun s => Hle (S s))) as [IH1 IH2].
  pose proof (Hle 0%nat p p' eq_refl eq_refl). cbn [remaining]. split; [lia|].
  intros [|s] du0 p0 p0' Hdu Hp Hp' Hlt Hlt'; simplify_eq/=; [lia|]. specialize (IH2 s du0 p0 p0' Hdu Hp Hp' Hlt Hlt'). lia.
Qed.

(** Every durable record from the positions on is stored. *)
Definition complete (durables positions : list Z) (log : list (list Rec)) : Prop :=
  forall s rs du p, log !! s = Some rs -> durables !! s = Some du -> positions !! s = Some p ->
    forall l, p <= l < du -> exists r, r ∈ rs /\ rec_local r = l.

Lemma complete_candidates max_count rs du p :
  1 <= max_count -> (forall l, p <= l < du -> exists r, r ∈ rs /\ rec_local r = l) ->
  candidates max_count du p rs = [] -> du <= p.
Proof.
  intros Hmax Hc He. destruct (Z_lt_le_dec p du) as [Hlt|]; [|done]. exfalso.
  destruct (Hc p ltac:(lia)) as (r & Hr & Hl). unfold candidates, between in He.
  eapply (filter_nil_not_elem_of _ _ r He); [cbv beta; lia|done].
Qed.

Lemma reads_log_length fuel max_count s durables dirs log :
  reads_log fuel max_count s durables dirs log -> length durables = length log.
Proof.
  revert s durables log. induction dirs as [|d dirs IH]; intros s [|du durables] [|rs log] Hr; try done.
  destruct Hr as (_ & _ & _ & _ & Hr). apply IH in Hr. simpl. lia.
Qed.

(** One call makes progress or finds nothing left. *)
Lemma next_batch_progress fuel max_count durables dirs log t :
  1 <= max_count -> Forall (pos_ok max_count) (t_positions t) -> length (t_positions t) = length log ->
  reads_log fuel max_count 0 durables dirs log -> complete durables (t_positions t) log ->
  exists batch t' dirs',
    next_batch fuel max_count durables dirs t =
      (Some (Ok (match batch with [] => None | _ => Some batch end), t'), dirs') /\
    Forall (pos_ok max_count) (t_positions t') /\ length (t_positions t') = length log /\
    complete durables (t_positions t') log /\
    (forall s du p, durables !! s = Some du -> t_positions t !! s = Some p ->
       exists p', t_positions t' !! s = Some p' /\ p <= p' <= Z.max p du) /\
    (remaining durables (t_positions t') <= 0 \/
     remaining durables (t_positions t') < remaining durables (t_positions t)).
Proof.
  intros Hmax Hpos Hlen Hr Hc. pose proof (reads_log_length _ _ _ _ _ _ Hr) as Hdlen.
  destruct (next_batch_on_log fuel max_count durables dirs log t ltac:(lia) Hpos Hlen Hr)
    as (batch & t1 & dirs' & Heq & _ & Hpos1 & Hlen1 & Hsh & Hdel).
  assert (forall s du p, durables !! s = Some du -> t_positions t !! s = Some p ->
       exists rs p', log !! s = Some rs /\ t_positions t1 !! s = Some p' /\ delivered s rs du p p' batch /\
         (batch = [] -> candidates max_count du p rs = [])) as Hd.
  { intros s du p Hdu Hp. assert (s < length log)%nat as Hlt by (apply lookup_lt_Some in Hdu; lia).
    destruct (lookup_lt_is_Some_2 log s Hlt) as [rs Hrs]. destruct (Hdel s rs Hrs) as (_ & du0 & p0 & p' & ? & ? & ? & _ & ? & ?).
    simplify_eq. by exists rs, p'. }
  exists batch, t1, dirs'. split; [done|]. split; [done|]. split; [done|]. split; [|split].
  - intros s rs du p' Hrs Hdu Hp' l Hl. assert (s < length (t_positions t))%nat as Hlt by (apply lookup_lt_Some in Hrs; lia).
    destruct (lookup_lt_is_Some_2 _ s Hlt) as [p Hp]. destruct (Hd s du p Hdu Hp) as (? & ? & ? & ? & [_ Hle] & _). simplify_eq.
    apply (Hc s rs du p Hrs Hdu Hp). lia.
  - intros s du p Hdu Hp. destruct (Hd s du p Hdu Hp) as (? & p' & _ & ? & [_ Hle] & _). by exists p'.
  - destruct batch as [|r batch].
    + left. apply (remaining_zero durables (t_positions t1) ltac:(lia)). intros s du p' Hdu Hp'.
      assert (s < length (t_positions t))%nat as Hlt by (apply lookup_lt_Some in Hdu; lia).
      destruct (lookup_lt_is_Some_2 _ s Hlt) as [p Hp]. destruct (Hd s du p Hdu Hp) as (rs & ? & Hrs & ? & [_ Hle] & He).
      simplify_eq. specialize (He eq_refl). apply complete_candidates in He; [lia|done|]. by apply (Hc s).
    + right. destruct (remaining_mono durables (t_positions t) (t_positions t1)) as [_ Hlt]; [lia|lia| |].
      { intros s p p' Hp Hp'. assert (s < length durables)%nat as Hlt by (apply lookup_lt_Some in Hp; lia).
        destruct (lookup_lt_is_Some_2 _ s Hlt) as [du Hdu]. destruct (Hd s du p Hdu Hp) as (? & ? & ? & ? & [_ Hle] & _).
        simplify_eq. lia. }
      inversion Hsh as [|? ? Hrs _]; subst. destruct (lookup_lt_is_Some_2 durables (rec_shard r)) as [du Hdu]; [lia|].
      destruct (lookup_lt_is_Some_2 (t_positions t) (rec_shard r)) as [p Hp]; [lia|].
      destruct (Hd _ du p Hdu Hp) as (rs & p' & Hlog & Hp' & [Hof Hle] & _).
      assert (r ∈ between p p' rs) as Hin.
      { rewrite <- Hof. apply list_elem_of_filter. split; [done|left]. }
      apply list_elem_of_filter in Hin as [Hin _]. apply (Hlt _ du p p' Hdu Hp Hp'); lia.
Qed.


(** ** Restarts *)

Inductive TailAction := Poll (durables : list Z) (dirs : list ShardDir) | Commit.

(** One call of the consumer, with the records it delivers; the file may fail,
    a failed batch ends the run. *)
Definition tail_step (fuel : nat) (max_count : Z) (a : TailAction) (s : Tailer * AtomicFile)
    : option (list Rec * (Tailer * AtomicFile)) :=
  match a with
  | Poll durables dirs =>
      match (next_batch fuel max_count durables dirs s.1).1 with
      | Some (Ok b, t) => Some (default [] b, (t, s.2))
      | _ => None
      end
  | Commit => Some ([], (s.1, (commit s.1 s.2).2))
  end.

Fixpoint tail_steps (fuel : nat) (max_count : Z) (l : list TailAction) (s : Tailer * AtomicFile)
    : option (list Rec * (Tailer * AtomicFile)) :=
  match l with
  | [] => Some ([], s)
  | a :: l =>
      '(out, s) ← tail_step fuel max_count a s;
      '(outs, s) ← tail_steps fuel max_count l s;
      Some (out ++ outs, s)
  end.

(** What was delivered between two states of the tailer: per shard, the
    records of the log from the one position to the other. *)
Definition moved (log : list (list Rec)) (t t' : Tailer) (out : list Rec) : Prop :=
  forall s rs p, log !! s = Some rs -> t_positions t !! s = Some p ->
    exists p', t_positions t' !! s = Some p' /\ p <= p' /\ of_shard s out = between p p' rs.

Lemma moved_refl log t : moved log t t [].
Proof.
  intros s rs p _ Hp. exists p. split; [done|]. split; [done|]. by rewrite between_empty by lia.
Qed.

Lemma moved_trans log t1 t2 t3 out out' :
  (forall s rs, log !! s = Some rs -> shard_log s rs) ->
  moved log t1 t2 out -> moved log t2 t3 out' -> moved log t1 t3 (out ++ out').
Proof.
  intros Hlog H1 H2 s rs p Hs Hp. destruct (H1 s rs p Hs Hp) as (p1 & Hp1 & Hle & Ho).
  destruct (H2 s rs p1 Hs Hp1) as (p2 & Hp2 & Hle' & Ho'). exists p2. split; [done|]. split; [lia|].
  unfold of_shard in *. rewrite filter_app, Ho, Ho'. apply between_join; [|lia].
  eapply shard_log_locals. by apply Hlog.
Qed.

(** No position of a restart is ahead of the running tailer. *)
Definition restart_behind (n : nat) (t : Tailer) (d : AtomicFile) : Prop :=
  forall f, f ∈ af_after_crash d -> Forall2 Z.le (load_progress f n) (t_positions t).

Definition positions_le (t t' : Tailer) : Prop := Forall2 Z.le (t_positions t) (t_positions t').

#[local] Instance Z_le_list_trans : Transitive (Forall2 Z.le).
Proof.
  intros xs ys zs Hxy. revert zs. induction Hxy; intros zs Hz; inversion Hz; subst; constructor; eauto. lia.
Qed.

Lemma forall2_le_lookup (xs ys : list Z) :
  length xs = length ys -> (forall s x, xs !! s = Some x -> exists y, ys !! s = Some y /\ x <= y) -> Forall2 Z.le xs ys.
Proof.
  intros Hlen Hall. apply Forall2_same_length_lookup_2; [done|]. intros i x y Hx Hy.
  destruct (Hall i x Hx) as (y' & ? & ?). by simplify_eq.
Qed.

Lemma positions_range max_count ps : 0 <= bits -> Forall (pos_ok max_count) ps -> Forall (in_range 64) ps.
Proof.
  intros Hbits Hps. eapply Forall_impl; [exact Hps|]. intros p [[? ?] _]. split; [done|].
  eapply Z.lt_le_trans; [done|]. apply Z.pow_le_mono_r; lia.
Qed.

Lemma commit_reloads max_count d f t n :
  0 <= bits -> Z.of_nat n < 2 ^ 32 -> af_wf d -> Forall (pos_ok max_count) (t_positions t) ->
  length (t_positions t) = n -> (commit t d).1 = Ok tt -> f ∈ af_after_crash (commit t d).2 -> tailer_open f n = t.
Proof.
  intros Hbits H32 Hwf Hpos Hlen Hok Hf. destruct (commit t d) as [r d'] eqn:Hc.
  apply replace_file_spec in Hc as (_ & _ & Hr); [|done]. simpl in *. destruct (Hr Hok) as [Ha _]. rewrite Ha in Hf.
  apply list_elem_of_singleton in Hf as ->. unfold tailer_open. rewrite <- Hlen, load_saved_progress; [by destruct t| |lia].
  by eapply positions_range.
Qed.

Lemma tail_step_inv fuel max_count log a t d :
  0 <= max_count -> 0 <= bits -> Z.of_nat (length log) < 2 ^ 32 ->
  match a with Poll durables dirs => reads_log fuel max_count 0 durables dirs log | Commit => True end ->
  Forall (pos_ok max_count) (t_positions t) -> length (t_positions t) = length log ->
  af_wf d -> restart_behind (length log) t d ->
  exists out t' d', tail_step fuel max_count a (t, d) = Some (out, (t', d')) /\
    Forall (pos_ok max_count) (t_positions t') /\ length (t_positions t') = length log /\
    af_wf d' /\ restart_behind (length log) t' d' /\ moved log t t' out.
Proof.
  intros Hmax Hbits H32 Ha Hpos Hlen Hwf Hb. destruct a as [durables dirs|]; cbn [tail_step fst snd].
  - destruct (next_batch_on_log fuel max_count durables dirs log t Hmax Hpos Hlen Ha)
      as (batch & t' & dirs' & -> & _ & Hpos' & Hlen' & _ & Hdel). cbn [fst].
    assert (positions_le t t') as Hle.
    { apply forall2_le_lookup; [congruence|]. intros s p Hp.
      assert (s < length log)%nat as Hlt by (apply lookup_lt_Some in Hp; lia).
      destruct (lookup_lt_is_Some_2 log s Hlt) as [rs Hrs].
      destruct (Hdel s rs Hrs) as (_ & ? & p0 & p' & _ & ? & ? & _ & [_ ?] & _). simplify_eq. exists p'. split; [done|lia]. }
    assert (moved log t t' batch) as Hmv.
    { intros s rs p Hs Hp. destruct (Hdel s rs Hs) as (_ & ? & p0 & p' & _ & ? & ? & _ & [? ?] & _). simplify_eq.
      exists p'. split; [done|]. split; [lia|done]. }
    exists batch, t', d. split_and!; try done; [by destruct batch|].
    intros f Hf. etransitivity; [by apply Hb|done].
  - destruct (commit t d) as [r d'] eqn:Hc. cbn [snd]. unfold commit, save_progress in Hc.
    apply replace_file_spec in Hc as (Hwf' & Hf & _); [|done].
    exists [], t, d'. split_and!; try done; [|apply moved_refl].
    intros f Hin. destruct (Hf f Hin) as [?| ->]; [by apply Hb|].
    rewrite <- Hlen, load_saved_progress; [by apply forall2_le_lookup; eauto using Z.le_refl| |lia].
    by eapply positions_range.
Qed.

Lemma tail_steps_run fuel max_count log actions :
  0 <= max_count -> 0 <= bits -> Z.of_nat (length log) < 2 ^ 32 ->
  (forall s rs, log !! s = Some rs -> shard_log s rs) ->
  Forall (fun a => match a with Poll durables dirs => reads_log fuel max_count 0 durables dirs log
                              | Commit => True end) actions ->
  forall t d, Forall (pos_ok max_count) (t_positions t) -> length (t_positions t) = length log ->
  af_wf d -> restart_behind (length log) t d ->
  exists out t' d', tail_steps fuel max_count actions (t, d) = Some (out, (t', d')) /\ moved log t t' out /\
    restart_behind (length log) t' d' /\
    ((commit t' d').1 = Ok tt -> forall f, f ∈ af_after_crash (commit t' d').2 -> tailer_open f (length log) = t').
Proof.
  intros Hmax Hbits H32 Hlogs Hacts.
  induction Hacts as [|a actions Ha _ IH]; intros t d Hpos Hlen Hwf Hb.
  { exists [], t, d. split; [done|]. split; [apply moved_refl|]. split; [done|].
    intros Hok f Hf. by apply (commit_reloads max_count d f t (length log)). }
  destruct (tail_step_inv fuel max_count log a t d Hmax Hbits H32 Ha Hpos Hlen Hwf Hb)
    as (out & t1 & d1 & Heq & Hpos1 & Hlen1 & Hwf1 & Hb1 & Hm1).
  destruct (IH t1 d1 Hpos1 Hlen1 Hwf1 Hb1) as (outs & t' & d' & Hrun & Hm & Hb').
  exists (out ++ outs), t', d'. cbn [tail_steps]. rewrite Heq. cbn [mbind option_bind]. rewrite Hrun.
  split; [done|]. split; [by eapply moved_trans|done].
Qed.

End tailer.

(** ** Concrete runs *)

Section tailer_demo.
#[local] Instance tailer_demo_externals : Externals := toy.

Definition demo_log : list (list Rec) := [dir_records demo_segs].

Definition demo_whole (_ w : Z) : Z := w.

Definition demo_env : list Z * list ShardDir := ([3], [demo_shard]).

Lemma demo_shard_log : shard_log 0 0 (dir_records demo_segs).
Proof.
  assert (rec_seq <$> dir_records demo_segs = [0; 1; 2]) as Hids by (vm_compute; reflexivity).
  split.
  - apply Forall_lookup. intros i r Hi. exists (Z.of_nat i).
    assert ((rec_seq <$> dir_records demo_segs) !! i = Some (rec_seq r)) as Hr by (by rewrite list_lookup_fmap, Hi).
    rewrite Hids in Hr. destruct i as [|[|[|i]]]; [injection Hr as <-..|discriminate Hr];
      (split; [reflexivity|]; split; [split; [lia|vm_compute; split; [discriminate|reflexivity]|vm_compute; split; [discriminate|reflexivity]]|reflexivity]).
  - vm_compute. repeat (constructor; [|repeat constructor]). repeat constructor.
Qed.

Lemma demo_reads : reads_log demo_readdir 0 10 2 0 demo_env.1 demo_env.2 demo_log.
Proof.
  split; [|split; [exact demo_shard_log|split; [|split; [reflexivity|exact I]]]].
  - exists demo_segs. split; [split; [exact demo_layout|left; reflexivity]|]. split; [exact demo_shard_log|].
    split; [vm_compute; lia|reflexivity].
  - split; [lia|vm_compute; split; [discriminate|reflexivity]|vm_compute; split; [discriminate|reflexivity]].
Qed.

Lemma demo_positions p : 0 <= p < 1000 -> Forall (pos_ok 0 2) (t_positions (mkTailer [p])).
Proof. intros Hp. constructor; [|constructor]. unfold pos_ok. change (2 ^ (64 - 0)) with (2 ^ 64). lia. Qed.



Definition demo_progress (faults : list (option Z)) : AtomicFile := mkAtomicFile None [] false [None] faults.


(** A tailer stalls behind retention.  Segment 1 with records 0 and 1 has been
    deleted; record 2 is durable and stored, but a tailer at position 0 that asks
    for two records scans [[0, 2)], reports that there is nothing new and stays
    where it is, however often it is called. *)
Theorem tailer_stalls_behind_retention :
  let d := mkShardDir (delete 1 demo_files) ∅ (Some 0) manifest_new in
  (read demo_readdir (sd_files d) ∅ (Some 0) None manifest_new 2).1 = Some (Ok (Some (List.nth 2 (dir_records demo_segs) (demo_rec 0)))) /\
  (next_batch demo_readdir demo_whole None 0 10 2 [3] [d] (mkTailer [0])).1 = Some (Ok None, mkTailer [0]).
Proof. split; vm_compute; reflexivity. Qed.

(** The largest batch size finds nothing.  [position + max_count] wraps around
    when [max_count] is [usize::MAX] and the tailer is past the first record: the
    range is empty, and the remaining durable records are not delivered. *)
Theorem huge_batch_finds_nothing :
  (next_batch demo_readdir demo_whole None 0 10 (2 ^ 64 - 1) [3] [demo_shard] (mkTailer [1])).1 =
    Some (Ok None, mkTailer [1]).
Proof. vm_compute. reflexivity. Qed.
End tailer_demo.
