(* ===== verification/Pusher.v ===== *)
(** * The pusher ([logdb/src/pusher.rs])

    A thread that reads the durable records of a single-shard log in batches and
    hands them to a remote sink, with its own progress file and a bounded number
    of retries.  Each iteration of its loop meets the shutdown flags, the durable
    cursor, the directory and the sink as they are then. *)
From stdpp Require Import base gmap list numbers sorting.
From coqutil Require Import Byte.
From Stdlib Require Import ZArith Lia.
From S2P Require Import Prelude Externals RustStd Format Index Shard Config Ring Signal KeyRing FileSys AtomicFile.
From S2P Require Import Storage Frame Recovery Reader ChunkIter ReadBack Scan Tailer.
Open Scope Z_scope.

Inductive PushError := Retriable | Fatal.

(** The fields of [Config] the pusher reads; durations are nanoseconds. *)
Record PushConfig := mkPushConfig {
  push_batch_size : Z;
  push_progress_interval : Z;
  push_max_retries : Z;
  push_retry_base : Z;
}.

(** ** Back-off *)

Record Backoff := mkBackoff { bo_base : Z; bo_attempt : Z; bo_max_attempts : Z }.

Definition backoff_new (cfg : PushConfig) : Backoff := mkBackoff (push_retry_base cfg) 0 (push_max_retries cfg).

(** The time [wait] sleeps. *)
Definition backoff_delay (b : Backoff) : Z :=
  Z.min (bo_base b * 2 ^ Z.min (bo_attempt b) 6) (60 * 1000000000).

(** [wait]: whether to try again. *)
Definition backoff_wait (b : Backoff) : bool * Backoff :=
  if (0 <? bo_max_attempts b) && (bo_max_attempts b <=? bo_attempt b) then (false, b)
  else (true, mkBackoff (bo_base b) (u32 (bo_attempt b + 1)) (bo_max_attempts b)).

Definition backoff_reset (b : Backoff) : Backoff := mkBackoff (bo_base b) 0 (bo_max_attempts b).

(** ** Progress *)

Section pusher.
Context `{Externals}.

(** [load_progress]. *)
Definition load_push_progress (file : option bytes) : option Z :=
  data ← file;
  if negb (blen data =? 12) then None
  else if negb (get_le data 8 4 =? crc32c (slice data 0 8)) then None
  else Some (get_le data 0 8).

(** [save_progress]. *)
Definition save_push_progress (seq : Z) : M AtomicFile IoError unit := replace_file [stamped seq].

(** ** Reading a batch *)

Variables (readdir : gmap Z bytes -> list Z) (short : Z -> Z -> Z).

(** [Reader::scan]: an iterator over the one segment that holds [from_id]. *)
Definition reader_scan (files idxs : gmap Z bytes) (mtime : option Z) (keys : option KeyRing)
    (m : SegmentManifest) (from_id to_id : Z) : result ReadError RecordIter :=
  match (find readdir files mtime m from_id).1 with
  | Some e => iter_for_segment keys from_id to_id files idxs e
  | None => Err (NotFound from_id)
  end.

(** The iterator of a segment as a stream. *)
Definition iter_stream : Stream (option RecordIter) := fun cur =>
  let '(r, cur) := cur_next short cur in (Ok <$> r, cur).

(** [read_batch]: a fresh manifest and no key ring; [None] is out of fuel. *)
Definition push_read_batch (fuel : nat) (d : ShardDir) (from to : Z) : option (result ReadError (list Rec)) :=
  match reader_scan (sd_files d) (sd_idxs d) (sd_mtime d) None manifest_new from to with
  | Err e => Some (Err e)
  | Ok it => @stream_drain _ iter_stream fuel (Some it)
  end.

(** ** The loop *)

(** What one iteration meets: the flags, the cursor at its two loads, the
    directory, and what the sink answers. *)
Record PushEnv := mkPushEnv {
  pe_aborted : bool;
  pe_draining : bool;
  pe_durable_drain : Z;
  pe_durable : Z;
  pe_dir : ShardDir;
  pe_push_batch : list Rec -> option PushError;
}.

Record Pusher := mkPusher {
  push_seq : Z;
  pu_backoff : Backoff;
  batches_since_save : Z;
  pu_file : AtomicFile;
}.

(** How an iteration ends; [Pushed b] is a batch the sink took. *)
Inductive PushStep := Waited | Pushed (batch : list Rec) | Retry | Stop.

(** [run_pusher] up to the loop. *)
Definition pusher_start (cfg : PushConfig) (d : AtomicFile) : Pusher :=
  mkPusher (default 0 (load_push_progress (af_dat d))) (backoff_new cfg) 0 d.

(** One iteration; [None] is out of fuel. *)
Definition push_iteration (fuel : nat) (cfg : PushConfig) (e : PushEnv) (p : Pusher) : option (PushStep * Pusher) :=
  if pe_aborted e then Some (Stop, p)
  else if pe_draining e && (pe_durable_drain e <=? push_seq p) then Some (Stop, p)
  else if pe_durable e <=? push_seq p then Some (Waited, p)
  else
    let to := Z.min (u64 (push_seq p + push_batch_size cfg)) (pe_durable e) in
    match push_read_batch fuel (pe_dir e) (push_seq p) to with
    | None => None
    | Some (Err _) => Some (Waited, p)
    | Some (Ok []) => Some (Waited, p)
    | Some (Ok batch) =>
        match pe_push_batch e batch with
        | None =>
            let seq := match list.last batch with
                       | Some r => u64 (rec_seq r + 1)
                       | None => push_seq p
                       end in
            let saved := u32 (batches_since_save p + 1) in
            let '(saved, file) :=
              if push_progress_interval cfg <=? saved then (0, (save_push_progress seq (pu_file p)).2)
              else (saved, pu_file p) in
            Some (Pushed batch, mkPusher seq (backoff_reset (pu_backoff p)) saved file)
        | Some Retriable =>
            let '(again, b) := backoff_wait (pu_backoff p) in
            Some (if again then Retry else Stop, mkPusher (push_seq p) b (batches_since_save p) (pu_file p))
        | Some Fatal => Some (Stop, p)
        end
    end.

(** The loop over what its iterations meet, and the save on exit: the batches
    the sink took and the state at the end. *)
Fixpoint run_pusher (fuel : nat) (cfg : PushConfig) (envs : list PushEnv) (p : Pusher)
    : option (list (list Rec) * Pusher) :=
  match envs with
  | [] => Some ([], p)
  | e :: envs =>
      '(step, p) ← push_iteration fuel cfg e p;
      match step with
      | Stop => Some ([], mkPusher (push_seq p) (pu_backoff p) (batches_since_save p)
                            (save_push_progress (push_seq p) (pu_file p)).2)
      | Pushed b => '(bs, p) ← run_pusher fuel cfg envs p; Some (b :: bs, p)
      | _ => run_pusher fuel cfg envs p
      end
  end.

(** ** What a batch holds *)

#[local] Existing Instance iter_stream.

#[local] Program Instance iter_laws (from to : Z) : StreamLaws (option RecordIter) :=
  {| good := fun cur => forall it, cur = Some it -> iter_good from to it; yields := iter_rest from to |}.
Next Obligation.
  intros from to cur Hg. unfold stream_next, iter_stream. pose proof (cur_next_spec from to short cur Hg) as Hs.
  destruct (cur_next short cur) as [r cur']. by destruct Hs.
Qed.
Next Obligation.
  intros from to cur Hg. unfold stream_next, iter_stream. pose proof (cur_next_spec from to short cur Hg) as Hs.
  destruct (cur_next short cur) as [[r|] cur']; destruct Hs as [_ Hs]; [by rewrite Hs|].
  destruct Hs as [-> Hs]. done.
Qed.

Lemma iter_for_segment_spec keys from to files idxs e f :
  entry_good from files idxs e -> files !! me_segment_id e = Some f -> me_base_sequence e < to ->
  exists it, iter_for_segment keys from to files idxs e = Ok it /\ iter_good from to it /\
    iter_rest from to (Some it) = segment_range from to files idxs e.
Proof.
  intros Hg Hf Hlt. pose proof (load_next_segment_spec keys from to files idxs [e]) as Hl.
  cbn [load_next_segment segments_range] in Hl. rewrite (proj2 (Z.leb_gt _ _) Hlt) in Hl.
  unfold iter_for_segment in *. rewrite Hf in *. eexists. split; [reflexivity|].
  destruct Hl as (H1 & _ & _ & H4 & _); [by constructor|by repeat constructor|].
  split; [by apply H1|]. rewrite !app_nil_r in H4. done.
Qed.

(** A batch is the beginning of the range it asks for, and is not empty when the
    first record of the range is stored. *)
Lemma push_read_batch_spec fuel d segs from to :
  shard_layout readdir (sd_files d) (sd_idxs d) segs -> (length (dir_records segs) < fuel)%nat -> from < to ->
  exists r, push_read_batch fuel d from to = Some r /\
    match r with
    | Ok batch => exists suf, between 0 from to (dir_records segs) = batch ++ suf /\
                    ((exists r, r ∈ dir_records segs /\ rec_seq r = from) -> batch <> [])
    | Err _ => forall r, r ∈ dir_records segs -> rec_seq r <> from
    end.
Proof.
  intros Hl Hn Hlt. unfold push_read_batch, reader_scan.
  rewrite (find_layout readdir (sd_files d) (sd_idxs d) (sd_mtime d) segs manifest_new from Hl (or_introl eq_refl)).
  cbn [fst]. pose proof (layout_split readdir (sd_files d) (sd_idxs d) (sd_mtime d) segs from Hl) as Hs.
  destruct (find_in_cache _ from) as [e|].
  2:{ eexists. split; [reflexivity|]. cbv beta iota. intros r Hr. apply list_elem_of_fmap in Hr as (v & -> & Hv).
      pose proof (proj1 (Forall_forall _ _) Hs v Hv). unfold rec_seq. simpl in *. lia. }
  destruct Hs as (pre & s & post & Hsegs & -> & Hbase & Hpre & Hpost).
  assert (s ∈ segs) as Hin by (rewrite Hsegs; apply elem_of_app; right; left).
  pose proof (proj1 (Forall_forall _ _) (sl_ok _ _ _ _ Hl) s Hin) as Hok.
  pose proof (layout_segment readdir _ _ segs s Hl Hin) as Hasc.
  destruct (iter_for_segment_spec None from to (sd_files d) (sd_idxs d) (entry_of s) _
    (seg_entry_good from _ _ s Hok Hasc) (so_file _ _ _ Hok) ltac:(simpl; lia)) as (it & -> & Hg & Hrest).
  rewrite (seg_range from to _ _ s Hok Hasc) in Hrest.
  assert (dir_records segs = (view_rec <$> all_views pre) ++ (view_rec <$> sg_views s) ++ (view_rec <$> all_views post)) as Hd.
  { unfold dir_records. rewrite Hsegs, all_views_app. unfold all_views. cbn [flat_map]. by rewrite !fmap_app. }
  assert (view_rec <$> filter (in_scan from to) (sg_views s) = between 0 from to (view_rec <$> sg_views s)) as Hbt.
  { unfold between. by rewrite filter_fmap. }
  exists (Ok (between 0 from to (view_rec <$> sg_views s))). split.
  - rewrite (@stream_drain_yields _ iter_stream (iter_laws from to)).
    + cbn [yields iter_laws]. by rewrite Hrest, Hbt.
    + intros it' [= <-]. done.
    + cbn [yields iter_laws]. rewrite Hrest, Hbt. eapply Nat.le_lt_trans; [apply length_filter|].
      rewrite Hd, !length_app in Hn. lia.
  - exists (between 0 from to (view_rec <$> all_views post)). unfold between. rewrite Hd, !filter_app.
    rewrite (filter_nothing _ (view_rec <$> all_views pre)).
    2:{ intros r Hr. apply list_elem_of_fmap in Hr as (v & -> & Hv).
        pose proof (proj1 (Forall_forall _ _) Hpre v Hv). unfold rec_local, rec_seq. simpl in *. lia. }
    split; [done|]. intros (r & Hr & Heq) He.
    assert (r ∈ view_rec <$> sg_views s) as Hrs.
    { rewrite !elem_of_app in Hr. destruct Hr as [Hr|[Hr|Hr]]; [|done|];
        apply list_elem_of_fmap in Hr as (v & -> & Hv); exfalso.
      - pose proof (proj1 (Forall_forall _ _) Hpre v Hv). unfold rec_seq in Heq. simpl in *. lia.
      - pose proof (proj1 (Forall_forall _ _) Hpost v Hv). unfold rec_seq in Heq. simpl in *. lia. }
    eapply (filter_nil_not_elem_of _ _ r He); [|done]. unfold rec_local. simpl. lia.
Qed.

(** ** Runs *)

(** What an iteration meets while the log is [log]: the directory is readable
    and holds, up to the durable cursor, the records of the log. *)
Record push_env_ok (fuel : nat) (cfg : PushConfig) (log : list Rec) (e : PushEnv) : Prop := {
  pk_dir : exists segs, shard_layout readdir (sd_files (pe_dir e)) (sd_idxs (pe_dir e)) segs /\
    (length (dir_records segs) < fuel)%nat /\ shard_log 0 0 (dir_records segs) /\
    between 0 0 (pe_durable e) (dir_records segs) = between 0 0 (pe_durable e) log;
  pk_durable : 0 <= pe_durable e /\ pe_durable e + push_batch_size cfg < 2 ^ 64;
}.

(** Wherever the machine stops, the progress file is not ahead. *)
Definition push_file_ok (p : Pusher) : Prop :=
  af_wf (pu_file p) /\
  forall f, f ∈ af_after_crash (pu_file p) -> default 0 (load_push_progress f) <= push_seq p.

Lemma load_stamped_progress seq : in_range 64 seq -> load_push_progress (Some (stamped seq)) = Some seq.
Proof.
  intros Hs. destruct (stamped_fields seq Hs) as (H12 & Hc & Hseq). unfold load_push_progress. cbn [mbind option_bind].
  rewrite H12, Hc, !Z.eqb_refl. cbn [negb]. by rewrite Hseq.
Qed.

Lemma save_progress_ok seq seq' b n b' n' d :
  in_range 64 seq' -> seq <= seq' -> push_file_ok (mkPusher seq b n d) ->
  push_file_ok (mkPusher seq' b' n' (save_push_progress seq' d).2).
Proof.
  intros Hr Hle [Hwf Hf]. simpl in *. destruct (save_push_progress seq' d) as [r d'] eqn:Hs.
  apply replace_file_spec in Hs as (Hwf' & Hc & _); [|done]. split; simpl; [done|].
  intros f Hin. destruct (Hc f Hin) as [Hold| ->]; [specialize (Hf f Hold); simpl in *; lia|].
  cbn [concat]. rewrite app_nil_r, load_stamped_progress by done. simpl. lia.
Qed.

(** What an iteration does to the sequence. *)
Definition pushed (log : list Rec) (step : PushStep) (p p' : Pusher) : Prop :=
  match step with
  | Pushed b => b <> [] /\ b = between 0 (push_seq p) (push_seq p') log /\ push_seq p < push_seq p'
  | _ => push_seq p' = push_seq p
  end.

(** A non-empty beginning of the range ends at the sequence behind its last
    record. *)
Lemma batch_prefix log rs from to durable batch suf :
  shard_log 0 0 rs -> between 0 0 durable rs = between 0 0 durable log -> 0 <= from -> to <= durable ->
  between 0 from to rs = batch ++ suf -> batch <> [] ->
  exists r, list.last batch = Some r /\ batch = between 0 from (rec_seq r + 1) log /\
    from < rec_seq r + 1 <= durable.
Proof.
  intros Hlog Hbt H0 Hto Hb Hne. destruct batch as [|x pre _] using rev_ind; [done|].
  exists x. split; [apply last_snoc|].
  pose proof (shard_log_locals _ _ _ Hlog) as Hs.
  destruct (between_prefix 0 from to rs _ _ Hs Hb) as [Heq Hle].
  assert (forall y, y ∈ pre ++ [x] -> from <= rec_seq y < to) as Hin.
  { intros y Hy. assert (y ∈ between 0 from to rs) as Hy' by (rewrite Hb; apply elem_of_app; by left).
    by apply list_elem_of_filter in Hy' as [? _]. }
  pose proof (Hin x ltac:(apply elem_of_app; right; left)) as Hx.
  apply (sorted_filter _ (fun r => from <= rec_local 0 r < to)) in Hs. fold (between 0 from to rs) in Hs. rewrite Hb in Hs.
  rewrite <- app_assoc in Hs. destruct (sorted_middle _ _ _ _ Hs) as [Hpre _].
  rewrite (bump_last 0 from pre x Hpre) in Heq, Hle by (unfold rec_local; simpl; lia).
  change (rec_local 0 x) with (rec_seq x) in *. split; [|lia].
  rewrite <- Heq at 1. rewrite (between_narrow 0 0 durable from _ rs), (between_narrow 0 0 durable from _ log) by lia.
  by rewrite Hbt.
Qed.

Lemma push_iteration_spec fuel cfg e log p :
  push_env_ok fuel cfg log e -> 1 <= push_batch_size cfg -> in_range 64 (push_seq p) -> push_file_ok p ->
  exists step p', push_iteration fuel cfg e p = Some (step, p') /\
    pushed log step p p' /\ in_range 64 (push_seq p') /\ push_file_ok p'.
Proof.
  intros [(segs & Hl & Hn & Hlog & Hbt) [Hd0 Hd64]] Hbs Hseq Hfile. unfold push_iteration.
  destruct (pe_aborted e); [by exists Stop, p|]. destruct (_ && _); [by exists Stop, p|].
  destruct (Z.leb_spec (pe_durable e) (push_seq p)); [by exists Waited, p|]. destruct Hseq as [Hs0 Hs64].
  rewrite wrap_small by (split; lia). set (to := Z.min (push_seq p + push_batch_size cfg) (pe_durable e)).
  destruct (push_read_batch_spec fuel (pe_dir e) segs (push_seq p) to Hl Hn ltac:(lia)) as (r & -> & Hr).
  destruct r as [batch|]; [|by exists Waited, p]. destruct Hr as (suf & Hb & _).
  destruct (decide (batch = [])) as [->|Hne]; [by exists Waited, p|].
  destruct (batch_prefix log _ _ to _ batch suf Hlog Hbt Hs0 ltac:(lia) Hb Hne) as (x & Hlast & Heq & Hx).
  rewrite Hlast. rewrite (wrap_small 64 (rec_seq x + 1)) by (split; lia).
  assert (forall step q, (match batch with [] => Some (Waited, p) | _ => Some (step, q) end) = Some (step, q)) as Hm
    by (by destruct batch).
  destruct (pe_push_batch e batch) as [[]|].
  - destruct (backoff_wait (pu_backoff p)) as [again b]. rewrite Hm.
    exists (if again then Retry else Stop), (mkPusher (push_seq p) b (batches_since_save p) (pu_file p)).
    split; [done|]. split; [by destruct again|]. split; [done|]. destruct Hfile. by split.
  - rewrite Hm. by exists Stop, p.
  - destruct p as [ps b n d]. simpl in *.
    destruct (Z.leb_spec (push_progress_interval cfg) (u32 (n + 1))); rewrite Hm; (eexists _, _; split; [reflexivity|]);
      (split; [split; [done|]; split; [done|simpl; lia]|]); (split; [split; simpl; lia|]).
    + eapply save_progress_ok; [split; lia| |exact Hfile]. lia.
    + destruct Hfile as [Hwf Hf]. split; [done|]. simpl in *. intros f Hin. specialize (Hf f Hin). lia.
Qed.

(** The pusher hands over the durable records in order, without a gap.
    From a progress file that is not ahead of the sequence it starts at, over any
    number of iterations, whatever the sink answers, whenever the shutdown flags
    change and whatever I/O faults the progress file meets: the batches the sink
    accepted, one after the other, are exactly the records of the log from the
    start sequence up to the pusher's sequence, each once and in order; and
    wherever the machine stops, the progress file loads as a sequence that is not
    ahead of what was pushed, so a restart repeats records but skips none. *)
Theorem pusher_pushes_in_order fuel cfg envs log p :
  Forall (push_env_ok fuel cfg log) envs -> shard_log 0 0 log -> 1 <= push_batch_size cfg ->
  in_range 64 (push_seq p) -> push_file_ok p ->
  exists batches p', run_pusher fuel cfg envs p = Some (batches, p') /\
    concat batches = between 0 (push_seq p) (push_seq p') log /\ push_seq p <= push_seq p' /\
    push_file_ok p'.
Proof.
  intros Henvs Hlog Hbs. revert p. induction Henvs as [|e envs He _ IH]; intros p Hseq Hfile.
  { exists [], p. split; [done|]. split; [by rewrite between_empty by lia|]. done. }
  destruct (push_iteration_spec fuel cfg e log p He Hbs Hseq Hfile) as (step & p1 & Heq & Hp & Hseq1 & Hf1).
  cbn [run_pusher]. rewrite Heq. cbn [mbind option_bind].
  destruct (IH p1 Hseq1 Hf1) as (batches & p' & Hrun & Hc & Hle & Hf'). destruct step as [|b| |]; simpl in Hp.
  - exists batches, p'. rewrite Hp in *. done.
  - destruct Hp as (_ & Hb & Hlt). exists (b :: batches), p'. rewrite Hrun. split; [done|].
    split; [|split; [lia|done]]. cbn [concat]. rewrite Hc, Hb at 1.
    apply between_join; [by eapply shard_log_locals|lia].
  - exists batches, p'. rewrite Hp in *. done.
  - eexists [], _. split; [reflexivity|]. simpl. rewrite Hp. split; [by rewrite between_empty by lia|]. split; [lia|].
    rewrite <- Hp. destruct p1 as [ps b n d]. eapply save_progress_ok; [done| |exact Hf1]. simpl. lia.
Qed.
End pusher.

(** ** Concrete runs *)

Section pusher_demo.
#[local] Instance pusher_demo_externals : Externals := toy.

Definition demo_push_config : PushConfig := mkPushConfig 2 1 3 1000000000.

Definition demo_push_env (answer : option PushError) : PushEnv :=
  mkPushEnv false false 3 3 demo_shard (fun _ => answer).

Lemma demo_push_ok answer : push_env_ok demo_readdir 10 demo_push_config (dir_records demo_segs) (demo_push_env answer).
Proof.
  split; [|split; [discriminate|reflexivity]].
  exists demo_segs. split; [exact demo_layout|]. split; [vm_compute; lia|]. split; [exact demo_shard_log|reflexivity].
Qed.

(** A push, a failure that is retried, a push from the next segment. *)
Lemma pusher_pushes_in_order_witness :
  let p := pusher_start demo_push_config (demo_progress []) in
  exists batches p', run_pusher demo_readdir demo_whole 10 demo_push_config
      [demo_push_env None; demo_push_env (Some Retriable); demo_push_env None] p = Some (batches, p') /\
    concat batches = between 0 0 (push_seq p') (dir_records demo_segs) /\
    (rec_seq <$> concat batches) = [0; 1; 2].
Proof.
  intros p. destruct (pusher_pushes_in_order demo_readdir demo_whole 10 demo_push_config
    [demo_push_env None; demo_push_env (Some Retriable); demo_push_env None] (dir_records demo_segs) p)
    as (batches & p' & Hrun & Hc & _).
  - constructor; [apply demo_push_ok|constructor; [apply demo_push_ok|constructor; [apply demo_push_ok|constructor]]].
  - exact demo_shard_log.
  - vm_compute. discriminate.
  - split; [discriminate|reflexivity].
  - split; [left|]. intros f Hf. apply list_elem_of_singleton in Hf as ->. vm_compute. discriminate.
  - exists batches, p'. split; [exact Hrun|]. split; [exact Hc|]. revert Hrun. vm_compute. intros [= <- <-]. reflexivity.
Defined.

(** A pusher stalls behind retention.  The segment that held its next record has
    been deleted; no cached segment starts at or below the sequence, the scan
    fails, and the pusher waits without moving on. *)
Theorem pusher_stalls_behind_retention :
  let d := mkShardDir (delete 1 demo_files) ∅ (Some 0) manifest_new in
  let p := pusher_start demo_push_config (demo_progress []) in
  push_iteration demo_readdir demo_whole 10 demo_push_config (mkPushEnv false false 3 3 d (fun _ => None)) p =
    Some (Waited, p).
Proof. vm_compute. reflexivity. Qed.
End pusher_demo.
