(* ===== verification/MultiGet.v ===== *)
(** * Batched reads equal single reads ([read_batch] of [logdb/src/reader/mod.rs])

    [Reader::read_batch] resolves all ids through the manifest, groups them by
    segment and answers each group with one pass over the segment.  This file
    proves that it answers every id as a single read does. *)
From stdpp Require Import base gmap list numbers sorting.
From coqutil Require Import Byte.
From Stdlib Require Import ZArith Lia.
From S2P Require Import Prelude Externals RustStd Format Index Config Ring KeyRing FileSys Storage Frame.
From S2P Require Import Recovery Reader ReadBack Scan.
Open Scope Z_scope.

Section multiget.
Context `{Externals}.

(** ** One pass over a segment *)

(** What the pass finds for a target. *)
Definition target_answer (rs : list Rec) (t : nat * Z) : option (nat * Rec) :=
  r ← find_rec t.2 rs; Some (t.1, r).

Definition targets_ascend (ts : list (nat * Z)) : Prop := StronglySorted (fun a b => a.2 < b.2) ts.

Lemma skip_below_spec id ts :
  targets_ascend ts ->
  exists pre, ts = pre ++ skip_below id ts /\ Forall (fun t => t.2 < id) pre /\ Forall (fun t => id <= t.2) (skip_below id ts).
Proof.
  induction 1 as [|t ts Hs IH Hall]; [by exists []|]. cbn [skip_below]. destruct (Z.ltb_spec t.2 id).
  - destruct IH as (pre & Heq & Hpre & Hge). exists (t :: pre). split; [cbn; by rewrite <- Heq|].
    split; [by constructor|done].
  - exists []. split; [done|]. split; [constructor|]. constructor; [done|].
    eapply Forall_impl; [exact Hall|]. simpl. lia.
Qed.

Lemma omap_app_nil {A B} (f : A -> option B) l l' :
  Forall (fun x => f x = None) l -> omap f (l ++ l') = omap f l'.
Proof. induction 1 as [|x l Hx _ IH]; [done|]. cbn. by rewrite Hx. Qed.

Lemma omap_ext_elem {A B} (f g : A -> option B) l : Forall (fun x => f x = g x) l -> omap f l = omap g l.
Proof. induction 1 as [|x l Hx _ IH]; [done|]. cbn. by rewrite Hx, IH. Qed.

Lemma merge_targets_answers rs ts : targets_ascend ts -> merge_targets rs ts = omap (target_answer rs) ts.
Proof.
  revert ts. induction rs as [|r rs IH]; intros ts Hs.
  { induction ts as [|t ts IH]; [done|]. apply StronglySorted_inv in Hs as [Hs _]. cbn. by rewrite <- IH. }
  destruct ts as [|t ts]; [done|]. cbn [merge_targets]. set (l := t :: ts) in *.
  destruct (skip_below_spec (rec_seq r) l Hs) as (pre & Hl & Hpre & Hge).
  assert (omap (target_answer (r :: rs)) l = omap (target_answer (r :: rs)) (skip_below (rec_seq r) l)) as ->.
  { rewrite Hl at 1. apply omap_app_nil. eapply Forall_impl; [exact Hpre|]. intros x Hx. cbv beta in Hx.
    unfold target_answer. cbn [find_rec]. by rewrite (proj2 (Z.eqb_neq _ _)), (proj2 (Z.ltb_lt _ _)) by lia. }
  rewrite Hl in Hs. apply StronglySorted_app_1_r in Hs.
  destruct (skip_below (rec_seq r) l) as [|[slot id] ts']; [done|].
  apply StronglySorted_inv in Hs as Hs'. destruct Hs' as [Hs' Hall]. inversion Hge as [|? ? Hid _]; subst. simpl in Hid, Hall.
  assert (Forall (fun t => target_answer (r :: rs) t = target_answer rs t) ts') as Hrest.
  { eapply Forall_impl; [exact Hall|]. intros x Hx. cbv beta in Hx. unfold target_answer. cbn [find_rec].
    by rewrite (proj2 (Z.eqb_neq _ _)), (proj2 (Z.ltb_ge _ _)) by lia. }
  apply omap_ext_elem in Hrest. rewrite (Z.eqb_sym id).
  assert (target_answer (r :: rs) (slot, id) =
          if rec_seq r =? id then Some (slot, r) else target_answer rs (slot, id)) as Hhd.
  { unfold target_answer. cbn [fst snd find_rec]. destruct (_ =? _); [done|]. by rewrite (proj2 (Z.ltb_ge _ _)). }
  cbn [omap list_omap]. rewrite Hhd, Hrest.
  destruct (rec_seq r =? id); [f_equal; by apply IH|]. by rewrite IH.
Qed.

(** ** Filling in the results *)

(** [results'] is [results] with the targets' answers filled in. *)
Record answers (answer : Z -> option Rec) (ts : list (nat * Z)) (results results' : list (option Rec)) : Prop := {
  an_len : length results' = length results;
  an_hit : forall k id r, (k, id) ∈ ts -> answer id = Some r -> results' !! k = Some (Some r);
  an_miss : forall k, (forall id r, (k, id) ∈ ts -> answer id <> Some r) -> results' !! k = results !! k;
}.

Lemma answers_nil answer results : answers answer [] results results.
Proof. split; [done| |done]. intros k id r Hk. by apply not_elem_of_nil in Hk. Qed.

Lemma answers_app answer ts ts' results results1 results2 :
  NoDup (ts ++ ts').*1 -> answers answer ts results results1 -> answers answer ts' results1 results2 ->
  answers answer (ts ++ ts') results results2.
Proof.
  intros Hnd [Hl1 Hh1 Hm1] [Hl2 Hh2 Hm2]. rewrite fmap_app in Hnd. apply NoDup_app in Hnd as (_ & Hdis & _).
  split; [congruence| |].
  - intros k id r [Hk|Hk]%elem_of_app Ha; [|by eapply Hh2]. rewrite Hm2; [by eapply Hh1|].
    intros id' r' Hk' _. apply (Hdis k); [by apply (list_elem_of_fmap_2 fst _ _ Hk)|by apply (list_elem_of_fmap_2 fst _ _ Hk')].
  - intros k Hk. rewrite Hm2, Hm1; [done| |]; intros id r Hin; apply Hk, elem_of_app; auto.
Qed.

Lemma fill_answers answer ts results :
  NoDup ts.*1 -> Forall (fun t => (t.1 < length results)%nat) ts ->
  answers answer ts results (fill results (omap (fun t => r ← answer t.2; Some (t.1, r)) ts)).
Proof.
  revert results. induction ts as [|[k id] ts IH]; intros results Hnd Hk; [apply answers_nil|].
  inversion Hk as [|? ? Hlt Hk']; subst. apply (answers_app answer [(k, id)] ts _
    (fill results (omap (fun t => r ← answer t.2; Some (t.1, r)) [(k, id)]))); [done| |].
  - cbn. destruct (answer id) as [r|] eqn:Ha; cbn.
    + split; [apply length_insert| |].
      * intros k' id' r' Hin%list_elem_of_singleton Ha'. simplify_eq. by rewrite list_lookup_insert_eq.
      * intros k' Hne. destruct (decide (k' = k)) as [->|]; [|by rewrite list_lookup_insert_ne].
        exfalso. eapply Hne; [left|exact Ha].
    + split; [done| |done]. intros k' id' r' Hin%list_elem_of_singleton Ha'. congruence.
  - cbn [fmap list_fmap] in Hnd. apply NoDup_cons in Hnd as [_ Hnd].
    assert (forall l l' : list (nat * Rec), fill results (l ++ l') = fill (fill results l) l') as Hf
      by (intros; apply foldl_app).
    set (f := fun t : nat * Z => _). change ((k, id) :: ts) with ([(k, id)] ++ ts). rewrite omap_app, Hf.
    apply IH; [done|]. eapply Forall_impl; [exact Hk'|]. intros t Ht.
    unfold f. cbn. destruct (answer id); cbn; by rewrite ?length_insert.
Qed.

Lemma answers_ext answer answer' ts results results' :
  Forall (fun t => answer t.2 = answer' t.2) ts -> answers answer ts results results' -> answers answer' ts results results'.
Proof.
  intros Heq [Hl Hh Hm]. pose proof (proj1 (Forall_forall _ _) Heq) as He. split; [done| |].
  - intros k id r Hin Ha. apply (Hh k id); [done|]. specialize (He _ Hin). simpl in He. congruence.
  - intros k Hk. apply Hm. intros id r Hin Ha. apply (Hk id r Hin). specialize (He _ Hin). simpl in He. congruence.
Qed.

Lemma answers_perm answer ts ts' results results' :
  ts ≡ₚ ts' -> answers answer ts results results' -> answers answer ts' results results'.
Proof.
  intros Hp [Hl Hh Hm]. split; [done| |].
  - intros k id r Hin. apply Hh. by rewrite Hp.
  - intros k Hk. apply Hm. intros id r Hin. apply Hk. by rewrite <- Hp.
Qed.
(** ** The groups of a batch *)

Section groups.
Variable readdir : gmap Z bytes -> list Z.
Variables (files idxs : gmap Z bytes) (mtime : option Z) (keys : option KeyRing) (segs : list Seg).
Hypothesis layout : shard_layout readdir files idxs segs.

(** What a single read of an id finds. *)
Definition answer (id : Z) : option Rec := find_rec id (view_rec <$> all_views segs).

(** The entry of a resolved id is the segment that answers for it. *)
Definition resolved_ok (x : nat * Z * ManifestEntry) : Prop :=
  exists s, s ∈ segs /\ x.2 = entry_of s /\ answer x.1.2 = find_rec x.1.2 (view_rec <$> sg_views s).

Lemma sorted_strict {A} (key : A -> Z) l :
  StronglySorted (key_le key) l -> NoDup (key <$> l) -> StronglySorted (fun a b => key a < key b) l.
Proof.
  induction 1 as [|x l Hs IH Hall]; intros Hnd; constructor; csimpl in Hnd; apply NoDup_cons in Hnd as [Hx Hnd]; [by apply IH|].
  apply Forall_forall. intros y Hy. pose proof (proj1 (Forall_forall _ _) Hall y Hy) as Hle. unfold key_le in Hle.
  assert (key x <> key y); [|lia]. intros Heq. apply Hx. rewrite Heq. by apply list_elem_of_fmap_2.
Qed.

Lemma read_group_answers s ts results :
  s ∈ segs -> ts <> [] -> Forall (fun t => answer t.2 = find_rec t.2 (view_rec <$> sg_views s)) ts ->
  NoDup ts.*1 -> NoDup ts.*2 -> Forall (fun t => (t.1 < length results)%nat) ts ->
  exists results', read_group files idxs keys (entry_of s) ts results = Some results' /\
    answers answer ts results results'.
Proof.
  intros Hs Hne Hans Hslots Hids Hlt. pose proof (proj1 (Forall_forall _ _) (sl_ok _ _ _ _ layout) s Hs) as Hok.
  pose proof (layout_segment readdir files idxs segs s layout Hs) as Hasc.
  unfold read_group. cbn [me_segment_id entry_of]. rewrite (so_file _ _ _ Hok), (so_raw _ _ _ Hok).
  pose proof (sort_by_key_perm snd ts) as Hperm. pose proof (sort_by_key_sorted snd ts) as Hsort.
  set (group := sort_by_key snd ts) in *.
  apply sorted_strict in Hsort; [|by rewrite Hperm]. eexists. split; [reflexivity|].
  destruct group as [|[k0 id0] group'] eqn:Hg.
  { apply Permutation_nil in Hperm. congruence. }
  destruct (anchor_split (sg_views s) (load_index idxs (sg_id s)) id0 Hasc (so_index _ _ _ Hok)) as (pre & post & Hv & Hpre & Ha).
  rewrite Ha, read_many_raw_records. pose proof (so_wf _ _ _ Hok) as Hwf. pose proof (so_hd _ _ _ Hok) as Hhd.
  rewrite Hv in Hwf. apply Forall_app in Hwf as [_ Hwf].
  assert (raw_records (S (length (sg_hd s ++ encoded (sg_views s)))) (sg_hd s ++ encoded (sg_views s))
            (SEGMENT_HEADER_SIZE + blen (encoded pre)) = view_rec <$> post) as ->.
  { fold (raw_list (sg_hd s ++ encoded (sg_views s)) (SEGMENT_HEADER_SIZE + blen (encoded pre))).
    rewrite Hv, encoded_app, app_assoc.
    replace (SEGMENT_HEADER_SIZE + blen (encoded pre)) with (blen (sg_hd s ++ encoded pre)) by len.
    by apply raw_list_encoded. }
  rewrite merge_targets_answers by exact Hsort.
  eapply answers_perm; [exact Hperm|]. apply (answers_ext (fun id => find_rec id (view_rec <$> post))).
  - apply Forall_forall. intros t Ht. assert (id0 <= t.2) as Hge.
    { apply elem_of_cons in Ht as [->|Ht]; [done|]. apply StronglySorted_inv in Hsort as [_ Hall].
      pose proof (proj1 (Forall_forall _ _) Hall t Ht). simpl in *. lia. }
    rewrite Hperm in Ht. rewrite (proj1 (Forall_forall _ _) Hans t Ht), Hv. symmetry. apply find_rec_skip.
    eapply Forall_impl; [exact Hpre|]. simpl. lia.
  - apply fill_answers; [by rewrite Hperm|]. rewrite Hperm. done.
Qed.

Lemma same_segment_spec id l :
  let '(g, rest) := same_segment id l in l = g ++ rest /\ Forall (fun x => me_segment_id x.2 = id) g.
Proof.
  induction l as [|x l IH]; [done|]. cbn [same_segment]. destruct (Z.eqb_spec (me_segment_id x.2) id); [|done].
  destruct (same_segment id l) as [g rest]. destruct IH as [-> Hg]. split; [done|]. by constructor.
Qed.

Lemma read_groups_answers fuel l results :
  (length l <= fuel)%nat -> Forall resolved_ok l -> NoDup l.*1.*1 -> NoDup l.*1.*2 ->
  Forall (fun x => (x.1.1 < length results)%nat) l ->
  exists results', read_groups files idxs fuel keys l results = Some results' /\ answers answer l.*1 results results'.
Proof.
  revert l results. induction fuel as [|fuel IH]; intros l results Hf Hok Hslots Hids Hlt.
  { destruct l; [|simpl in Hf; lia]. exists results. split; [done|apply answers_nil]. }
  destruct l as [|[[i id] e] l']; [exists results; split; [done|apply answers_nil]|]. cbn [read_groups].
  pose proof (same_segment_spec (me_segment_id e) l') as Hss. destruct (same_segment _ l') as [g rest].
  destruct Hss as [-> Hg]. set (hd := (i, id, e) :: g) in *. change ((i, id, e) :: g ++ rest) with (hd ++ rest) in *.
  rewrite fmap_app. do 2 rewrite fmap_app in Hslots. do 2 rewrite fmap_app in Hids.
  apply NoDup_app in Hslots as HS, Hids as HI. destruct HS as (HS1 & HS2 & HS3), HI as (HI1 & _ & HI3).
  apply Forall_app in Hok as [Hok1 Hok2], Hlt as [Hlt1 Hlt2].
  inversion Hok1 as [|? ? Hhd Hokg]; subst. destruct Hhd as (s & Hs & He & Hans). simpl in He, Hans. subst e.
  destruct (read_group_answers s hd.*1 results Hs) as (results1 & Hread & Ha1); [done| |done|done| |].
  - constructor; [exact Hans|]. apply Forall_fmap, Forall_forall. intros x Hx.
    destruct (proj1 (Forall_forall _ _) Hokg x Hx) as (s' & Hs' & He' & Hans').
    pose proof (proj1 (Forall_forall _ _) Hg x Hx) as Hseg. simpl in Hseg. rewrite He' in Hseg. simpl in Hseg.
    rewrite (sorted_inj sg_id segs s' s (sl_ids _ _ _ _ layout) Hs' Hs Hseg) in Hans'. exact Hans'.
  - by apply Forall_fmap.
  - change ((i, id) :: (fst <$> g)) with hd.*1. rewrite Hread. cbn [mbind option_bind].
    destruct (IH rest results1) as (results2 & Hrest & Ha2); [|done|done|done| |].
    + unfold hd in Hf. simpl in Hf. rewrite length_app in Hf. lia.
    + by rewrite (an_len _ _ _ _ Ha1).
    + exists results2. split; [done|]. eapply answers_app; [|done|done]. by rewrite fmap_app.
Qed.

(** ** The whole batch *)

Abbreviation cached := (mkManifest (entry_of <$> segs) mtime).

Definition resolve (x : nat * Z) : option (nat * Z * ManifestEntry) :=
  e ← find_in_cache cached x.2; Some (x, e).

Lemma resolve_cons x l :
  omap resolve (x :: l) = match find_in_cache cached x.2 with
                          | Some e => (x, e) :: omap resolve l
                          | None => omap resolve l
                          end.
Proof.
  change (omap resolve (x :: l)) with (match resolve x with Some y => y :: omap resolve l | None => omap resolve l end).
  unfold resolve at 1. by destruct (find_in_cache cached x.2).
Qed.

Lemma resolve_ids_spec m i ids :
  m = manifest_new \/ m = cached ->
  exists m', resolve_ids readdir files mtime m i ids = (omap resolve (zip (seq i (length ids)) ids), m') /\
    (m' = manifest_new \/ m' = cached).
Proof.
  revert m i. induction ids as [|id ids IH]; intros m i Hm; [by exists m|]. cbn [resolve_ids].
  rewrite (find_layout readdir files idxs mtime segs m id layout Hm).
  destruct (IH cached (S i) (or_intror eq_refl)) as (m' & -> & Hm').
  exists m'. split; [|done]. cbn [length seq zip_with]. rewrite resolve_cons. cbn [snd].
  by destruct (find_in_cache cached id).
Qed.

Lemma resolve_fst l : (omap resolve l).*1 `sublist_of` l.
Proof.
  induction l as [|x l IH]; [constructor|]. rewrite resolve_cons.
  destruct (find_in_cache cached x.2); [cbn|]; by constructor.
Qed.

Lemma sublist_nodup {A} (l l' : list A) : NoDup l -> l' `sublist_of` l -> NoDup l'.
Proof.
  intros Hnd Hs. induction Hs as [|x l' l Hs IH|x l' l Hs IH]; [constructor| |]; apply NoDup_cons in Hnd as [Hx Hnd].
  - constructor; [|by apply IH]. intros Hin. apply Hx. by eapply elem_of_sublist.
  - by apply IH.
Qed.

Lemma resolve_all_ok l : Forall resolved_ok (omap resolve l).
Proof.
  apply Forall_forall. intros x Hx. apply list_elem_of_omap in Hx as (y & _ & Hy). unfold resolve in Hy.
  pose proof (find_in_cache_layout readdir files idxs mtime segs y.2 layout) as Hf.
  destruct (find_in_cache cached y.2) as [e|]; [|done]. cbn in Hy. simplify_eq.
  destruct Hf as (s & -> & Hs & Ha). by exists s.
Qed.

Lemma answered_resolves y r : answer y.2 = Some r -> is_Some (resolve y).
Proof.
  intros Ha. pose proof (find_in_cache_layout readdir files idxs mtime segs y.2 layout) as Hf. unfold resolve.
  destruct (find_in_cache cached y.2); [by eexists|]. unfold answer in Ha. congruence.
Qed.

Lemma batch_answers m ids :
  m = manifest_new \/ m = cached -> NoDup ids ->
  exists m', read_batch readdir files idxs mtime keys m ids = (Some (answer <$> ids), m') /\
    (m' = manifest_new \/ m' = cached).
Proof.
  intros Hm Hnd. unfold read_batch. destruct (resolve_ids_spec m 0 ids Hm) as (m' & -> & Hm'). exists m'. split; [|done].
  set (pairs := zip (seq 0 (length ids)) ids). set (res := sort_by_key _ (omap resolve pairs)).
  assert (res ≡ₚ omap resolve pairs) as Hperm by apply sort_by_key_perm.
  assert (pairs.*1 = seq 0 (length ids) /\ pairs.*2 = ids) as [Hp1 Hp2].
  { unfold pairs. split; [apply fst_zip|apply snd_zip]; rewrite length_seq; lia. }
  destruct (read_groups_answers (length res) res (replicate (length ids) None)) as (results & Hread & [Hlen Hhit Hmiss]).
  - done.
  - rewrite Hperm. apply resolve_all_ok.
  - rewrite Hperm. eapply sublist_nodup; [|apply fmap_sublist, resolve_fst]. rewrite Hp1. apply NoDup_seq.
  - rewrite Hperm. eapply sublist_nodup; [|apply fmap_sublist, resolve_fst]. by rewrite Hp2.
  - rewrite Hperm, length_replicate. apply Forall_forall. intros x Hx.
    assert (x.1 ∈ pairs) as Hin by (eapply elem_of_sublist; [by apply list_elem_of_fmap_2|apply resolve_fst]).
    apply (list_elem_of_fmap_2 fst) in Hin. rewrite Hp1 in Hin. apply elem_of_seq in Hin. lia.
  - rewrite Hread. do 2 f_equal. apply list_eq. intros k. rewrite list_lookup_fmap.
    rewrite length_replicate in Hlen. destruct (ids !! k) as [id|] eqn:Hk; cbn.
    2:{ apply lookup_ge_None_2. rewrite Hlen. by apply lookup_ge_None_1. }
    assert (pairs !! k = Some (k, id)) as Hpk.
    { unfold pairs. rewrite lookup_zip_with_Some. exists k, id. split; [done|]. split; [|done].
      apply lookup_seq. split; [done|]. by apply lookup_lt_Some in Hk. }
    destruct (answer id) as [r|] eqn:Ha.
    + apply (Hhit k id); [|done]. rewrite Hperm. destruct (answered_resolves (k, id) r Ha) as [x Hx].
      assert (x.1 = (k, id)) as <- by (unfold resolve in Hx; destruct (find_in_cache _ _); cbn in Hx; by simplify_eq).
      apply list_elem_of_fmap_2, list_elem_of_omap. eexists. split; [by eapply list_elem_of_lookup_2|done].
    + rewrite Hmiss; [apply lookup_replicate_2; by apply lookup_lt_Some in Hk|]. intros id' r Hin Ha'.
      rewrite Hperm in Hin. apply elem_of_sublist with (l2 := pairs) in Hin; [|apply resolve_fst].
      apply list_elem_of_lookup_1 in Hin as [j Hj]. assert (j = k) as ->; [|congruence].
      assert (pairs.*1 !! j = Some k) as Hj1 by (by rewrite list_lookup_fmap, Hj). rewrite Hp1 in Hj1.
      apply lookup_seq in Hj1. lia.
Qed.

(** A batched read answers like single reads.  In a shard directory of raw
    segments, [read_batch] of distinct ids, in any order and spread over any
    segments, terminates and returns at each position what a single [read] of
    that id returns, although it opens each segment once and passes over it once
    for all its ids. *)
Theorem read_batch_is_reads m ids :
  m = manifest_new \/ m = cached -> NoDup ids ->
  exists results, (read_batch readdir files idxs mtime keys m ids).1 = Some results /\
    Forall2 (fun id r => (read readdir files idxs mtime keys m id).1 = Some (Ok r)) ids results.
Proof.
  intros Hm Hnd. exists (answer <$> ids). split; [by destruct (batch_answers m ids Hm Hnd) as (m' & -> & _)|].
  apply Forall2_fmap_r, Forall_Forall2_diag, Forall_forall. intros id _. by apply read_layout.
Qed.
End groups.
End multiget.

(** ** Concrete runs *)

Section multiget_demo.
#[local] Instance multiget_demo_externals : Externals := toy.

(** Three ids out of order and one that is not stored. *)
Lemma read_batch_is_reads_witness :
  exists results, (read_batch demo_readdir demo_files ∅ (Some 0) None manifest_new [2; 7; 0]).1 = Some results /\
    (option_map rec_seq <$> results) = [Some 2; None; Some 0].
Proof.
  destruct (read_batch_is_reads demo_readdir demo_files ∅ (Some 0) None demo_segs demo_layout manifest_new [2; 7; 0])
    as (results & Hr & _).
  - left. reflexivity.
  - apply (bool_decide_unpack _). vm_compute. exact I.
  - exists results. split; [exact Hr|]. revert Hr. vm_compute. intros [= <-]. reflexivity.
Defined.

(** An id that is asked for twice is answered once.  The pass over a raw segment
    moves past a target as soon as it is answered, and the next record skips the
    second one: its position stays empty although the record is there. *)
Theorem duplicate_id_answered_once :
  (read_batch demo_readdir demo_files ∅ (Some 0) None manifest_new [1; 1]).1 =
    Some [Some (view_rec (List.nth 1 (demo_views 3) (mkReadView 0 0 [] []))); None].
Proof. vm_compute. reflexivity. Qed.
End multiget_demo.
