(* ===== verification/HandleRead.v ===== *)
(** * Reading through the database handle ([logdb/src/lib.rs])

    [LogDb::read] and [read_batch] decode the shard of an id, hide what is not
    durable yet and ask the shard's reader; [scan], [scan_shard] and
    [replay_from] build iterators over the shards' directories. *)
From stdpp Require Import base gmap list numbers sorting.
From coqutil Require Import Byte.
From Stdlib Require Import ZArith Lia.
From S2P Require Import Prelude Externals RustStd Format Index Shard Config Ring Signal KeyRing FileSys Storage.
From S2P Require Import Frame Recovery Reader ChunkIter ReadBack Scan MultiGet ShardMap Append.
Open Scope Z_scope.

Section handle.
Context `{Externals}.
Variables (readdir : gmap Z bytes -> list Z) (short : Z -> Z -> Z) (keys : option KeyRing).

Definition with_manifest (d : ShardDir) (m : SegmentManifest) : ShardDir :=
  mkShardDir (sd_files d) (sd_idxs d) (sd_mtime d) m.

Definition bits_of (db : LogDb) : Z := sh_bits (db_shards db).

(** The durable cursor of a shard, 0 when there is no such shard. *)
Definition durable_of (db : LogDb) (shard : Z) : Z :=
  default 0 (durable_cursors (db_shards db) !! Z.to_nat shard).

(** [LogDb::read]; [None] is a panic. *)
Definition db_read (db : LogDb) (dirs : list ShardDir) (record_id : Z)
    : option (result ReadError (option Rec)) * list ShardDir :=
  let '(shard, local) := decode_record_id record_id (bits_of db) in
  if durable_of db shard <=? local then (Some (Ok None), dirs)
  else
    match dirs !! Z.to_nat shard with
    | None => (None, dirs)
    | Some d =>
        let '(r, m) := read readdir (sd_files d) (sd_idxs d) (sd_mtime d) keys (sd_manifest d) record_id in
        (r, <[Z.to_nat shard := with_manifest d m]> dirs)
    end.

(** [LogDb::refresh_manifests]. *)
Definition refresh_manifests (dirs : list ShardDir) : list ShardDir :=
  (fun d => with_manifest d (force_refresh readdir (sd_files d) (sd_mtime d) (sd_manifest d))) <$> dirs.

(** ** [read_batch] *)

(** [by_shard.entry(shard).or_default().push(i)]. *)
Fixpoint group_push (shard : Z) (i : nat) (m : list (Z * list nat)) : list (Z * list nat) :=
  match m with
  | [] => [(shard, [i])]
  | (s, l) :: m => if s =? shard then (s, l ++ [i]) :: m else (s, l) :: group_push shard i m
  end.

Fixpoint group_ids (bits : Z) (i : nat) (ids : list Z) (m : list (Z * list nat)) : list (Z * list nat) :=
  match ids with
  | [] => m
  | id :: ids => group_ids bits (S i) ids (group_push (decode_record_id id bits).1 i m)
  end.

(** The order in which the map of the groups is iterated. *)
Variable hash_order : list (Z * list nat) -> list (Z * list nat).

(** The ids of a group that are durable. *)
Definition live_ids (db : LogDb) (ids : list Z) (shard : Z) (slots : list nat) : list (nat * Z) :=
  filter (fun x => (decode_record_id x.2 (bits_of db)).2 < durable_of db shard)
    ((fun slot => (slot, ids !!! slot)) <$> slots).

(** [results[slot] = batch[k].take()]. *)
Definition place (results : list (option Rec)) (found : list (nat * option Rec)) : list (option Rec) :=
  foldl (fun acc x => <[x.1 := x.2]> acc) results found.

(** One round of the loop over the groups. *)
Definition read_shard_group (db : LogDb) (ids : list Z) (g : Z * list nat) (dirs : list ShardDir)
    (results : list (option Rec)) : option (list (option Rec) * list ShardDir) :=
  let live := live_ids db ids g.1 g.2 in
  match live with
  | [] => Some (results, dirs)
  | _ =>
      d ← dirs !! Z.to_nat g.1;
      let '(batch, m) := read_batch readdir (sd_files d) (sd_idxs d) (sd_mtime d) keys (sd_manifest d) live.*2 in
      batch ← batch;
      Some (place results (zip live.*1 batch), <[Z.to_nat g.1 := with_manifest d m]> dirs)
  end.

Fixpoint read_shard_groups (db : LogDb) (ids : list Z) (gs : list (Z * list nat)) (dirs : list ShardDir)
    (results : list (option Rec)) : option (list (option Rec) * list ShardDir) :=
  match gs with
  | [] => Some (results, dirs)
  | g :: gs =>
      '(results, dirs) ← read_shard_group db ids g dirs results;
      read_shard_groups db ids gs dirs results
  end.

(** [LogDb::read_batch]; [None] is a panic. *)
Definition db_read_batch (db : LogDb) (dirs : list ShardDir) (ids : list Z)
    : option (list (option Rec) * list ShardDir) :=
  match ids with
  | [] => Some ([], dirs)
  | _ => read_shard_groups db ids (hash_order (group_ids (bits_of db) 0 ids [])) dirs
           (replicate (length ids) None)
  end.

(** ** Scans *)

(** [LogDb::scan]: the iterator, and the manifests as building it leaves them. *)
Definition db_scan (dirs : list ShardDir) (from_id to_id : Z) : ScanIter * list ShardDir :=
  (scan_build keys from_id to_id short readdir dirs,
   (fun d => with_manifest d
      (scanner_new from_id readdir (sd_files d) (sd_idxs d) (sd_mtime d) (sd_manifest d)).2) <$> dirs).

(** [LogDb::scan_shard]; [None] is an index out of bounds. *)
Definition db_scan_shard (dirs : list ShardDir) (shard_id : nat) (from_id to_id : Z) : option ScanIter :=
  d ← dirs !! shard_id; Some (ScanOne (dir_scanner from_id readdir d)).

(** [LogDb::replay_from]. *)
Definition replay_from (dirs : list ShardDir) (sequence : Z) : ScanIter * list ShardDir :=
  db_scan dirs sequence U64_MAX.

(** ** What a read sees *)

Section views.
Variables (db : LogDb) (segss : list (list Seg)).
Hypothesis bits_ok : 0 <= bits_of db < 64.
Hypothesis shards_ok : length segss = length (sh_rings (db_shards db)).

(** The stored record with the id, when it is durable. *)
Definition visible_rec (id : Z) : option Rec :=
  let '(shard, local) := decode_record_id id (bits_of db) in
  if durable_of db shard <=? local then None
  else segs ← segss !! Z.to_nat shard; find_rec id (view_rec <$> all_views segs).

Lemma gate_shard id : in_range 64 id ->
  let '(shard, local) := decode_record_id id (bits_of db) in
  local < durable_of db shard -> (Z.to_nat shard < length segss)%nat.
Proof.
  intros Hid. pose proof (encode_decode id (bits_of db) bits_ok Hid) as Hd.
  destruct (decode_record_id id (bits_of db)) as [shard local]. destruct Hd as [[_ _ [Hl _]] _]. intros Hlt.
  rewrite shards_ok. destruct (decide (Z.to_nat shard < length (sh_rings (db_shards db)))%nat) as [|Hge]; [done|].
  unfold durable_of, durable_cursors in Hlt. rewrite lookup_ge_None_2 in Hlt by (rewrite length_fmap; lia). simpl in Hlt. lia.
Qed.

Lemma db_read_visible dirs id :
  Forall2 (dir_layout readdir) dirs segss -> in_range 64 id -> (db_read db dirs id).1 = Some (Ok (visible_rec id)).
Proof.
  intros Hl Hid. pose proof (gate_shard id Hid) as Hg. unfold db_read, visible_rec.
  destruct (decode_record_id id (bits_of db)) as [shard local].
  destruct (Z.leb_spec (durable_of db shard) local) as [|Hlt]; [done|]. specialize (Hg Hlt).
  destruct (lookup_lt_is_Some_2 segss _ Hg) as [segs Hs]. destruct (Forall2_lookup_r _ _ _ _ _ Hl Hs) as (d & Hd & Hlay & Hm).
  rewrite Hd, Hs. pose proof (read_layout readdir (sd_files d) (sd_idxs d) (sd_mtime d) segs keys (sd_manifest d) id Hlay Hm) as Hr.
  destruct (read _ _ _ _ _ _ _) as [r m]. cbn [fst] in *. rewrite Hr. done.
Qed.

(** ** Groups *)

Definition slot_pairs (ids : list Z) (slots : list nat) : list (nat * Z) := (fun slot => (slot, ids !!! slot)) <$> slots.

Definition groups_of (ids : list Z) (gs : list (Z * list nat)) : Prop :=
  Forall (fun g => Forall (fun slot => (decode_record_id (ids !!! slot) (bits_of db)).1 = g.1) g.2) gs.

Lemma group_push_slots shard i m : concat (group_push shard i m).*2 ≡ₚ i :: concat m.*2.
Proof.
  induction m as [|[s l] m IH]; [done|]. cbn [group_push]. destruct (_ =? _); csimpl.
  - rewrite <- app_assoc. symmetry. apply Permutation_middle.
  - etransitivity; [apply Permutation_app_head, IH|]. symmetry. apply Permutation_middle.
Qed.

Lemma group_push_ok ids shard i m :
  (decode_record_id (ids !!! i) (bits_of db)).1 = shard -> groups_of ids m -> groups_of ids (group_push shard i m).
Proof.
  intros Hi Hm. induction Hm as [|[s l] m Hg Hm IH]; cbn [group_push].
  - repeat constructor. done.
  - destruct (Z.eqb_spec s shard) as [->|]; constructor; try done. simpl in *. apply Forall_app. split; [done|].
    by constructor.
Qed.

Lemma group_ids_spec pre ids m :
  groups_of (pre ++ ids) m ->
  groups_of (pre ++ ids) (group_ids (bits_of db) (length pre) ids m) /\
  concat (group_ids (bits_of db) (length pre) ids m).*2 ≡ₚ seq (length pre) (length ids) ++ concat m.*2.
Proof.
  revert pre m. induction ids as [|id ids IH]; intros pre m Hm; [done|]. cbn [group_ids].
  specialize (IH (pre ++ [id]) (group_push (decode_record_id id (bits_of db)).1 (length pre) m)).
  rewrite <- app_assoc in IH. cbn [app] in IH. rewrite length_app in IH. cbn [length] in IH.
  rewrite Nat.add_1_r in IH. destruct IH as [IH1 IH2].
  - apply group_push_ok; [|done]. by rewrite list_lookup_total_middle.
  - split; [exact IH1|]. etransitivity; [exact IH2|]. cbn [length seq].
    etransitivity; [apply Permutation_app_head, group_push_slots|]. symmetry. apply Permutation_middle.
Qed.

(** ** Placing a group's answers *)

Lemma place_answers (f : Z -> option Rec) ts results :
  NoDup ts.*1 -> Forall (fun t => results !! t.1 = Some None) ts ->
  answers f ts results (place results (zip ts.*1 (f <$> ts.*2))).
Proof.
  revert results. induction ts as [|[k id] ts IH]; intros results Hnd Hk; [apply answers_nil|].
  inversion Hk as [|? ? Hlt Hk']; subst. simpl in Hlt. pose proof Hnd as Hnd'. csimpl in Hnd'. apply NoDup_cons in Hnd' as [Hnk Hnd'].
  apply (answers_app f [(k, id)] ts _ (<[k := f id]> results)); [done| |].
  - split; [apply length_insert| |].
    + intros k' id' r' Hin%list_elem_of_singleton Ha. simplify_eq. rewrite list_lookup_insert_eq; [by rewrite Ha|].
      by eapply lookup_lt_Some.
    + intros k' Hne. destruct (decide (k' = k)) as [->|]; [|by rewrite list_lookup_insert_ne].
      rewrite list_lookup_insert_eq by (by eapply lookup_lt_Some). rewrite Hlt. destruct (f id) eqn:Hf; [|done].
      exfalso. by eapply Hne; [left|].
  - csimpl. apply IH; [done|]. apply Forall_forall. intros t Ht. rewrite list_lookup_insert_ne.
    + exact (proj1 (Forall_forall _ _) Hk' t Ht).
    + intros ->. apply Hnk. by apply list_elem_of_fmap_2.
Qed.

Lemma place_empty f ts results :
  Forall (fun t : nat * Z => f t.2 = None) ts -> answers f ts results results.
Proof.
  intros Hf. split; [done| |done]. intros k id r Hin Ha. pose proof (proj1 (Forall_forall _ _) Hf _ Hin). simpl in *. congruence.
Qed.

Lemma pairs_nodup ids slots :
  NoDup ids -> NoDup slots -> Forall (fun i => (i < length ids)%nat) slots -> NoDup (slot_pairs ids slots).*2.
Proof.
  intros Hids Hs Hlt. unfold slot_pairs. rewrite <- list_fmap_compose. apply NoDup_fmap_2_strong; [|done].
  intros i j Hi Hj Heq. cbn in Heq.
  apply (NoDup_lookup ids i j (ids !!! i) Hids); [|rewrite Heq]; apply list_lookup_lookup_total_lt;
    [exact (proj1 (Forall_forall _ _) Hlt i Hi)|exact (proj1 (Forall_forall _ _) Hlt j Hj)].
Qed.

Lemma answers_filter (f : Z -> option Rec) (P : nat * Z -> Prop) `{!forall t, Decision (P t)} ts results results' :
  (forall t, t ∈ ts -> ~ P t -> f t.2 = None) -> answers f (filter P ts) results results' -> answers f ts results results'.
Proof.
  intros Hn [Hl Hh Hm]. split; [done| |].
  - intros k id r Hin Ha. apply (Hh k id); [|done]. apply list_elem_of_filter. split; [|done].
    destruct (decide (P (k, id))) as [|Hp]; [done|]. specialize (Hn _ Hin Hp). simpl in *. congruence.
  - intros k Hk. apply Hm. intros id r [_ Hin]%list_elem_of_filter. by apply Hk.
Qed.

Lemma slot_pairs_fst ids slots : (slot_pairs ids slots).*1 = slots.
Proof. unfold slot_pairs. rewrite <- list_fmap_compose. apply list_fmap_id. Qed.

Lemma read_shard_group_spec ids g dirs results :
  Forall2 (dir_layout readdir) dirs segss -> NoDup ids -> Forall (in_range 64) ids ->
  Forall (fun slot => (decode_record_id (ids !!! slot) (bits_of db)).1 = g.1) g.2 ->
  NoDup g.2 -> Forall (fun i => (i < length ids)%nat) g.2 -> Forall (fun i => results !! i = Some None) g.2 ->
  exists results' dirs', read_shard_group db ids g dirs results = Some (results', dirs') /\
    Forall2 (dir_layout readdir) dirs' segss /\ answers visible_rec (slot_pairs ids g.2) results results'.
Proof.
  intros Hl Hids Hrange Hshard Hnd Hlt Hnone. destruct g as [shard slots]. simpl in *.
  assert (forall t, t ∈ slot_pairs ids slots -> in_range 64 t.2 /\ (decode_record_id t.2 (bits_of db)).1 = shard /\
    results !! t.1 = Some None) as Hpair.
  { intros t Ht. apply list_elem_of_fmap in Ht as (slot & -> & Hin). simpl.
    pose proof (proj1 (Forall_forall _ _) Hlt slot Hin) as Hs. split; [|split].
    - apply (Forall_lookup_1 _ _ slot _ Hrange). by apply list_lookup_lookup_total_lt.
    - exact (proj1 (Forall_forall _ _) Hshard slot Hin).
    - exact (proj1 (Forall_forall _ _) Hnone slot Hin). }
  set (P := fun x : nat * Z => (decode_record_id x.2 (bits_of db)).2 < durable_of db shard).
  unfold read_shard_group. cbn [fst snd].
  assert (live_ids db ids shard slots = filter P (slot_pairs ids slots)) as -> by done.
  assert (forall t, t ∈ slot_pairs ids slots -> ~ P t -> visible_rec t.2 = None) as Hdead.
  { intros t Ht Hp. destruct (Hpair t Ht) as (_ & Hd & _). unfold visible_rec, P in *.
    destruct (decode_record_id t.2 (bits_of db)) as [sh loc]. simpl in *. subst sh.
    by rewrite (proj2 (Z.leb_le _ _)) by lia. }
  destruct (filter P (slot_pairs ids slots)) as [|t0 ts] eqn:Hlive.
  { exists results, dirs. split; [done|]. split; [done|]. apply place_empty. apply Forall_forall. intros t Ht.
    apply Hdead; [done|]. intros Hp. by eapply (filter_nil_not_elem_of P _ t Hlive). }
  assert (forall t, t ∈ t0 :: ts -> t ∈ slot_pairs ids slots /\ P t) as Hin.
  { intros t Ht. rewrite <- Hlive in Ht. by apply list_elem_of_filter in Ht as [? ?]. }
  destruct (Hin t0 ltac:(left)) as [Ht0 HP0]. destruct (Hpair t0 Ht0) as (Hr0 & Hd0 & _).
  pose proof (gate_shard t0.2 Hr0) as Hg. unfold P in HP0. destruct (decode_record_id t0.2 (bits_of db)) as [sh loc] eqn:Hdec.
  simpl in Hd0, HP0. subst sh. specialize (Hg HP0). destruct (lookup_lt_is_Some_2 segss _ Hg) as [segs Hs].
  destruct (Forall2_lookup_r _ _ _ _ _ Hl Hs) as (d & Hd & Hlay & Hm). rewrite Hd. cbn [mbind option_bind].
  pose proof (pairs_nodup ids slots Hids Hnd Hlt) as Hnd2. assert (NoDup (slot_pairs ids slots).*1) as Hnd1 by (by rewrite slot_pairs_fst).
  assert (t0 :: ts `sublist_of` slot_pairs ids slots) as Hsub by (rewrite <- Hlive; apply sublist_filter).
  destruct (batch_answers readdir (sd_files d) (sd_idxs d) (sd_mtime d) keys segs Hlay (sd_manifest d) (t0 :: ts).*2 Hm)
    as (m' & -> & Hm'); [eapply sublist_nodup; [exact Hnd2|by apply fmap_sublist]|]. cbn [mbind option_bind].
  eexists _, _. split; [reflexivity|]. split.
  - rewrite <- (list_insert_id segss _ _ Hs). apply Forall2_insert; [done|]. by split.
  - apply (answers_filter _ P); [done|]. rewrite Hlive. apply (answers_ext (answer segs)).
    + apply Forall_forall. intros t Ht. destruct (Hin t Ht) as [Ht' HP]. destruct (Hpair t Ht') as (_ & Hdt & _).
      unfold visible_rec, P in *. destruct (decode_record_id t.2 (bits_of db)) as [sh' loc']. simpl in *. subst sh'.
      rewrite (proj2 (Z.leb_gt _ _)) by done. by rewrite Hs.
    + apply place_answers; [eapply sublist_nodup; [exact Hnd1|by apply fmap_sublist]|].
      apply Forall_forall. intros t Ht. by apply Hpair, Hin.
Qed.

Lemma read_shard_groups_spec ids gs dirs results :
  Forall2 (dir_layout readdir) dirs segss -> NoDup ids -> Forall (in_range 64) ids -> groups_of ids gs ->
  NoDup (concat gs.*2) -> Forall (fun i => (i < length ids)%nat) (concat gs.*2) ->
  Forall (fun i => results !! i = Some None) (concat gs.*2) ->
  exists results' dirs', read_shard_groups db ids gs dirs results = Some (results', dirs') /\
    answers visible_rec (slot_pairs ids (concat gs.*2)) results results'.
Proof.
  intros Hl Hids Hrange Hgs. revert dirs results Hl.
  induction Hgs as [|g gs Hg _ IH]; intros dirs results Hl Hnd Hlt Hnone.
  { exists results, dirs. split; [done|apply answers_nil]. }
  csimpl in Hnd. csimpl in Hlt. csimpl in Hnone. apply NoDup_app in Hnd as HN. destruct HN as (Hnd1 & Hdis & Hnd2).
  apply Forall_app in Hlt as [Hlt1 Hlt2], Hnone as [Hnone1 Hnone2].
  destruct (read_shard_group_spec ids g dirs results Hl Hids Hrange Hg Hnd1 Hlt1 Hnone1) as (r1 & d1 & Heq & Hl1 & Ha1).
  destruct (IH d1 r1 Hl1 Hnd2 Hlt2) as (r2 & d2 & Heq2 & Ha2).
  - apply Forall_forall. intros i Hi. rewrite (an_miss _ _ _ _ Ha1).
    + exact (proj1 (Forall_forall _ _) Hnone2 i Hi).
    + intros id r Hin. exfalso. apply (Hdis i); [|done]. apply (list_elem_of_fmap_2 fst) in Hin. by rewrite slot_pairs_fst in Hin.
  - exists r2, d2. cbn [read_shard_groups]. rewrite Heq. cbn [mbind option_bind]. split; [done|]. csimpl.
    unfold slot_pairs. rewrite fmap_app. eapply answers_app; [|done|done].
    rewrite fmap_app. pose proof (slot_pairs_fst ids) as Hsp. unfold slot_pairs in Hsp. by rewrite !Hsp.
Qed.

End views.
End handle.

(** ** A concrete run *)

Section handle_demo.
#[local] Instance handle_demo_externals : Externals := toy.

(** One shard with three stored records, two of them durable. *)
Definition demo_read_db : LogDb :=
  mkLogDb demo_config (mkShardMap [set_durable demo_append_ring 2] 0)
    health_new (flush_new 1) shutdown_new 0 false.

End handle_demo.
