(* ===== verification/Coordinator.v ===== *)
(** * Consumer groups ([logdb-broker/src/coordinator.rs])

    A group has members in join order and gives every shard to one of them.  The
    first member gets all shards; every later change of the membership keeps the
    shards where they are as far as fair shares allow ("sticky").  Offsets belong
    to the group and outlive its members. *)
From stdpp Require Import base gmap list numbers sorting strings list_numbers.
From Stdlib Require Import ZArith Lia.
From S2P Require Import Prelude RustStd.
Open Scope Z_scope.

Record GroupKey := mkGroupKey { gk_namespace : string; gk_stream : string; gk_group : string }.

#[global] Instance GroupKey_eq_dec : EqDecision GroupKey.
Proof. solve_decision. Defined.

#[global] Program Instance GroupKey_countable : Countable GroupKey :=
  inj_countable' (fun k => (gk_namespace k, gk_stream k, gk_group k)) (fun '(n, s, g) => mkGroupKey n s g) _.
Next Obligation. by intros []. Qed.

Record JoinResult := mkJoinResult { jr_generation : Z; jr_assigned_shards : list Z }.

Record GroupState := mkGroup {
  gs_generation : Z;
  members : list string;
  assignments : gmap string (list Z);
  shard_offsets : gmap Z Z;
  last_changed : gset string;
  gs_num_shards : Z;
}.

Definition group_new (num_shards : Z) : GroupState := mkGroup 0 [] ∅ ∅ ∅ num_shards.

Definition assigned (g : GroupState) (consumer_id : string) : option (list Z) := assignments g !! consumer_id.

(** [generation.saturating_add(1)] on [u32]. *)
Definition next_generation (g : Z) : Z := Z.min (g + 1) (2 ^ 32 - 1).

(** ** Round robin *)

(** [entry(owner).or_default().push(shard)]. *)
Definition push_shard (asg : gmap string (list Z)) (owner : string) (shard : Z) : gmap string (list Z) :=
  <[owner := default [] (asg !! owner) ++ [shard]]> asg.

(** [recompute_round_robin]. *)
Definition recompute_round_robin (ms : list string) (num_shards : Z) : gmap string (list Z) :=
  match ms with
  | [] => ∅
  | _ =>
      foldl (fun asg shard =>
        match ms !! Z.to_nat (shard mod Z.of_nat (length ms)) with
        | Some owner => push_shard asg owner shard
        | None => asg
        end) ∅ (seqZ 0 num_shards)
  end.

(** ** Sticky rebalance *)

(** Step 1: the old assignments of the members that are still there. *)
Definition keep_old (old : gmap string (list Z)) (ms : list string) : gmap string (list Z) :=
  foldl (fun asg id => <[id := default [] (asg !! id) ++ default [] (old !! id)]> asg) ∅ ms.

(** Step 2: the shards nobody has. *)
Definition free_shards (num_shards : Z) (asg : gmap string (list Z)) : list Z :=
  filter (fun s => Forall (fun kv => s ∉ kv.2) (map_to_list asg)) (seqZ 0 num_shards).

(** Step 3: the fair share of the member at [idx]. *)
Definition fair_share (num_shards n idx : Z) : Z :=
  num_shards / n + (if idx <? num_shards mod n then 1 else 0).

(** The [retain] of step 4: up to [surplus] shards whose home is another member
    move to [shed]. *)
Fixpoint shed_foreign (n idx surplus : Z) (shed l : list Z) : list Z * list Z :=
  match l with
  | [] => ([], shed)
  | s :: l =>
      if (surplus <=? Z.of_nat (length shed)) || (s mod n =? idx)
      then let '(kept, shed) := shed_foreign n idx surplus shed l in (s :: kept, shed)
      else shed_foreign n idx surplus (shed ++ [s]) l
  end.

(** Step 4 for one member: foreign shards first, then pops from the end until
    [target] are left. *)
Definition shed_member (n idx target : Z) (shards : list Z) : list Z * list Z :=
  let surplus := Z.max 0 (Z.of_nat (length shards) - target) in
  let '(kept, shed) := shed_foreign n idx surplus [] shards in
  (take (Z.to_nat target) kept, shed ++ reverse (drop (Z.to_nat target) kept)).

Fixpoint shed_loop (num_shards n idx : Z) (ms : list string) (asg : gmap string (list Z)) (free : list Z)
    : gmap string (list Z) * list Z :=
  match ms with
  | [] => (asg, free)
  | id :: ms =>
      let '(kept, shed) := shed_member n idx (fair_share num_shards n idx) (default [] (asg !! id)) in
      shed_loop num_shards n (idx + 1) ms (<[id := kept]> asg) (free ++ shed)
  end.

(** Step 5 for one member: pops from the end of the free pool until the target is
    reached or the pool is empty. *)
Definition fill_member (target : Z) (shards free : list Z) : list Z * list Z :=
  let k := (length free - Z.to_nat (target - Z.of_nat (length shards)))%nat in
  (shards ++ reverse (drop k free), take k free).

Fixpoint fill_loop (num_shards n idx : Z) (ms : list string) (asg : gmap string (list Z)) (free : list Z)
    : gmap string (list Z) :=
  match ms with
  | [] => asg
  | id :: ms =>
      let '(shards, free) := fill_member (fair_share num_shards n idx) (default [] (asg !! id)) free in
      fill_loop num_shards n (idx + 1) ms (<[id := shards]> asg) free
  end.

(** [recompute_sticky]: the new assignments and the consumers whose shards
    changed. *)
Definition recompute_sticky (ms : list string) (old : gmap string (list Z)) (num_shards : Z)
    : gmap string (list Z) * gset string :=
  match ms with
  | [] => (∅, dom old)
  | _ =>
      let n := Z.of_nat (length ms) in
      let asg := keep_old old ms in
      let free := free_shards num_shards asg in
      let '(asg, free) := shed_loop num_shards n 0 ms asg free in
      let asg := fill_loop num_shards n 0 ms asg free in
      let asg := sort_by_key (fun s => s) <$> asg in
      (asg, list_to_set (filter (fun id => asg !! id <> old !! id) ms) ∪
            filter (fun id => id ∉ ms) (dom old))
  end.

(** ** The operations of a group *)

(** [GroupState::join]. *)
Definition join (consumer_id : string) (g : GroupState) : JoinResult * GroupState :=
  let g :=
    if bool_decide (consumer_id ∈ members g) then g
    else
      let first := bool_decide (members g = []) in
      let ms := members g ++ [consumer_id] in
      let gen := next_generation (gs_generation g) in
      if first then
        mkGroup gen ms (recompute_round_robin ms (gs_num_shards g)) (shard_offsets g) (list_to_set ms) (gs_num_shards g)
      else
        let '(asg, changed) := recompute_sticky ms (assignments g) (gs_num_shards g) in
        mkGroup gen ms asg (shard_offsets g) changed (gs_num_shards g) in
  (mkJoinResult (gs_generation g) (default [] (assigned g consumer_id)), g).

(** [members.remove(pos)] at the first position of the id. *)
Fixpoint remove_member (consumer_id : string) (ms : list string) : list string :=
  match ms with
  | [] => []
  | m :: ms => if bool_decide (m = consumer_id) then ms else m :: remove_member consumer_id ms
  end.

(** [GroupState::leave]. *)
Definition leave (consumer_id : string) (g : GroupState) : bool * GroupState :=
  if bool_decide (consumer_id ∈ members g) then
    let ms := remove_member consumer_id (members g) in
    let old := delete consumer_id (assignments g) in
    let '(asg, changed) := recompute_sticky ms old (gs_num_shards g) in
    (true, mkGroup (next_generation (gs_generation g)) ms asg (shard_offsets g) changed (gs_num_shards g))
  else (false, g).

(** [GroupState::commit_offset]; the entry exists afterwards in any case. *)
Definition commit_offset (shard seq : Z) (g : GroupState) : bool * GroupState :=
  let entry := default 0 (shard_offsets g !! shard) in
  let advanced := entry <? seq in
  (advanced, mkGroup (gs_generation g) (members g) (assignments g)
               (<[shard := if advanced then seq else entry]> (shard_offsets g)) (last_changed g) (gs_num_shards g)).

(** [GroupState::shard_offset]. *)
Definition shard_offset (g : GroupState) (shard : Z) : Z := default 0 (shard_offsets g !! shard).

(** ** The registry *)

Record CoordinatorRegistry := mkRegistry {
  reg_num_shards : Z;
  groups : gmap GroupKey GroupState;
}.

Definition registry_new (num_shards : Z) : CoordinatorRegistry := mkRegistry num_shards ∅.

(** [entry(key).or_insert_with(..)]. *)
Definition get_group (r : CoordinatorRegistry) (key : GroupKey) : GroupState :=
  default (group_new (reg_num_shards r)) (groups r !! key).

Definition set_group (key : GroupKey) (g : GroupState) (r : CoordinatorRegistry) : CoordinatorRegistry :=
  mkRegistry (reg_num_shards r) (<[key := g]> (groups r)).

Definition registry_join (key : GroupKey) (consumer_id : string) (r : CoordinatorRegistry)
    : JoinResult * CoordinatorRegistry :=
  let '(res, g) := join consumer_id (get_group r key) in (res, set_group key g r).

Definition registry_leave (key : GroupKey) (consumer_id : string) (r : CoordinatorRegistry)
    : bool * CoordinatorRegistry :=
  match groups r !! key with
  | Some g => let '(res, g) := leave consumer_id g in (res, set_group key g r)
  | None => (false, r)
  end.

Definition registry_commit_offset (key : GroupKey) (shard seq : Z) (r : CoordinatorRegistry)
    : bool * CoordinatorRegistry :=
  let '(res, g) := commit_offset shard seq (get_group r key) in (res, set_group key g r).

Definition registry_shard_offset (r : CoordinatorRegistry) (key : GroupKey) (shard : Z) : Z :=
  default 0 ((fun g => shard_offset g shard) <$> groups r !! key).

Definition registry_last_changed (r : CoordinatorRegistry) (key : GroupKey) : gset string :=
  default ∅ (last_changed <$> groups r !! key).

Record GroupSnapshot := mkSnapshot { sn_generation : Z; sn_members : list (string * list Z) }.

Definition group_snapshot (r : CoordinatorRegistry) (key : GroupKey) : option GroupSnapshot :=
  g ← groups r !! key;
  Some (mkSnapshot (gs_generation g) ((fun id => (id, default [] (assigned g id))) <$> members g)).

(** ** Shedding and filling, row by row *)

Lemma perm_app_split {A} (a b k s ks ss : list A) :
  a ≡ₚ k ++ s -> b ≡ₚ ks ++ ss -> a ++ b ≡ₚ (k ++ ks) ++ s ++ ss.
Proof.
  intros Ha Hb. etransitivity; [apply Permutation_app; [exact Ha|exact Hb]|].
  rewrite <- !app_assoc. apply Permutation_app_head. rewrite !app_assoc.
  apply Permutation_app_tail, Permutation_app_comm.
Qed.

Lemma shed_foreign_spec n idx surplus shed l :
  Z.of_nat (length shed) <= surplus ->
  exists new, let '(kept, shed') := shed_foreign n idx surplus shed l in
    shed' = shed ++ new /\ l ≡ₚ kept ++ new /\ Z.of_nat (length shed') <= surplus.
Proof.
  revert shed. induction l as [|s l IH]; intros shed Hle; cbn [shed_foreign].
  { exists []. by rewrite app_nil_r. }
  destruct (Z.leb_spec surplus (Z.of_nat (length shed))) as [Hge|Hlt]; cbn [orb].
  - destruct (IH shed Hle) as [new Hn]. exists new. destruct (shed_foreign _ _ _ shed l) as [kept shed'].
    destruct Hn as (-> & Hp & Hl). split; [done|]. split; [|done]. cbn [app]. by constructor.
  - destruct (s mod n =? idx).
    + destruct (IH shed Hle) as [new Hn]. exists new. destruct (shed_foreign _ _ _ shed l) as [kept shed'].
      destruct Hn as (-> & Hp & Hl). split; [done|]. split; [|done]. cbn [app]. by constructor.
    + destruct (IH (shed ++ [s])) as [new Hn]; [rewrite length_app; simpl; lia|]. exists (s :: new).
      destruct (shed_foreign _ _ _ (shed ++ [s]) l) as [kept shed']. destruct Hn as (-> & Hp & Hl).
      rewrite <- app_assoc. split; [done|]. split; [|rewrite <- app_assoc in Hl; done].
      etransitivity; [by apply perm_skip|]. apply Permutation_middle.
Qed.

(** A member keeps as many of its shards as its share allows and gives the
    others away. *)
Lemma shed_member_spec n idx target l :
  0 <= target ->
  let '(kept, shed) := shed_member n idx target l in
  l ≡ₚ kept ++ shed /\ Z.of_nat (length kept) = Z.min (Z.of_nat (length l)) target.
Proof.
  intros Ht. unfold shed_member. set (surplus := Z.max 0 (Z.of_nat (length l) - target)).
  destruct (shed_foreign_spec n idx surplus [] l) as [new Hn]; [simpl; lia|].
  destruct (shed_foreign n idx surplus [] l) as [kept shed]. destruct Hn as (-> & Hp & Hl). cbn [app] in *. split.
  - rewrite Hp. rewrite <- (take_drop (Z.to_nat target) kept) at 1. rewrite <- app_assoc. apply Permutation_app_head.
    etransitivity; [apply Permutation_app_comm|]. apply Permutation_app_head. by rewrite reverse_Permutation.
  - apply Permutation_length in Hp. rewrite length_app in Hp. rewrite length_take. lia.
Qed.

Lemma fill_member_spec target l free :
  let '(l', free') := fill_member target l free in
  exists added, l' = l ++ added /\ added ++ free' ≡ₚ free /\
    Z.of_nat (length added) = Z.min (Z.max 0 (target - Z.of_nat (length l))) (Z.of_nat (length free)).
Proof.
  unfold fill_member. set (k := (length free - _)%nat). exists (reverse (drop k free)). split; [done|]. split.
  - etransitivity; [apply Permutation_app_comm|]. etransitivity; [apply Permutation_app_head, reverse_Permutation|].
    by rewrite take_drop.
  - rewrite length_reverse, length_drop. lia.
Qed.

Fixpoint shed_rows (num_shards n idx : Z) (rows : list (list Z)) : list (list Z) * list Z :=
  match rows with
  | [] => ([], [])
  | r :: rows =>
      let '(kept, shed) := shed_member n idx (fair_share num_shards n idx) r in
      let '(ks, ss) := shed_rows num_shards n (idx + 1) rows in (kept :: ks, shed ++ ss)
  end.

Fixpoint fill_rows (num_shards n idx : Z) (rows : list (list Z)) (free : list Z) : list (list Z) * list Z :=
  match rows with
  | [] => ([], free)
  | r :: rows =>
      let '(r, free) := fill_member (fair_share num_shards n idx) r free in
      let '(rs, free) := fill_rows num_shards n (idx + 1) rows free in (r :: rs, free)
  end.

Definition shares (num_shards n idx : Z) (k : nat) : list Z := fair_share num_shards n <$> seqZ idx (Z.of_nat k).

Lemma shares_S num_shards n idx k :
  shares num_shards n idx (S k) = fair_share num_shards n idx :: shares num_shards n (idx + 1) k.
Proof.
  unfold shares. rewrite seqZ_cons by lia. csimpl. f_equal. do 2 f_equal; lia.
Qed.

Lemma fair_share_nonneg num_shards n idx : 0 <= num_shards -> 0 < n -> 0 <= fair_share num_shards n idx.
Proof.
  intros. unfold fair_share. pose proof (Z.div_pos num_shards n ltac:(lia) ltac:(lia)). destruct (_ <? _); lia.
Qed.

(** The rows after shedding: each row is split into what is kept, at most the
    share, and what is shed. *)
Lemma shed_rows_spec num_shards n idx rows :
  0 <= num_shards -> 0 < n ->
  let '(ks, ss) := shed_rows num_shards n idx rows in
  concat rows ≡ₚ concat ks ++ ss /\
  Forall3 (fun t r k => (exists s, r ≡ₚ k ++ s) /\ Z.of_nat (length k) = Z.min (Z.of_nat (length r)) t)
    (shares num_shards n idx (length rows)) rows ks.
Proof.
  intros H0 Hn. revert idx. induction rows as [|r rows IH]; intros idx; cbn [shed_rows].
  { split; [done|constructor]. }
  pose proof (shed_member_spec n idx (fair_share num_shards n idx) r (fair_share_nonneg _ _ _ H0 Hn)) as Hm.
  destruct (shed_member _ _ _ r) as [kept shed]. specialize (IH (idx + 1)).
  destruct (shed_rows _ _ _ rows) as [ks ss]. destruct Hm as [Hp Hl], IH as [IH1 IH2]. split.
  - cbn [concat]. by apply perm_app_split.
  - cbn [length]. rewrite shares_S. constructor; [split; [by exists shed|done]|done].
Qed.

Definition total (l : list Z) : Z := foldr Z.add 0 l.

(** The pool fills all rows up to their shares when it has as many shards as are
    missing. *)
Lemma fill_rows_spec num_shards n idx rows free :
  Forall2 (fun t r => Z.of_nat (length r) <= t) (shares num_shards n idx (length rows)) rows ->
  total (shares num_shards n idx (length rows)) = Z.of_nat (length (concat rows)) + Z.of_nat (length free) ->
  exists rows', fill_rows num_shards n idx rows free = (rows', []) /\
    concat rows' ≡ₚ concat rows ++ free /\
    Forall3 (fun t r r' => (exists added, r' = r ++ added) /\ Z.of_nat (length r') = t)
      (shares num_shards n idx (length rows)) rows rows'.
Proof.
  revert idx free. induction rows as [|r rows IH]; intros idx free Hle Htot; cbn [fill_rows length] in *.
  { unfold total in Htot. simpl in Htot. destruct free; [|simpl in Htot; lia]. exists []. split; [done|]. split; [done|constructor]. }
  rewrite shares_S in *. cbn [total foldr concat] in Htot. rewrite length_app in Htot.
  inversion Hle as [|? ? ? ? Hr Hle']; subst.
  pose proof (fill_member_spec (fair_share num_shards n idx) r free) as Hm.
  destruct (fill_member _ r free) as [r' free']. destruct Hm as (added & -> & Hp & Hl).
  assert (total (shares num_shards n (idx + 1) (length rows)) >= Z.of_nat (length (concat rows))) as Hge.
  { clear - Hle'. revert Hle'. generalize (shares num_shards n (idx + 1) (length rows)). intros ts Ht.
    induction Ht; unfold total in *; cbn [foldr concat] in *; rewrite ?length_app; simpl; lia. }
  fold (total (shares num_shards n (idx + 1) (length rows))) in Htot.
  apply Permutation_length in Hp as Hlen. rewrite length_app in Hlen.
  destruct (IH (idx + 1) free' Hle') as (rows' & -> & Hc & Hf); [lia|].
  exists ((r ++ added) :: rows'). split; [done|]. split.
  - cbn [concat]. etransitivity; [apply Permutation_app_head, Hc|].
    etransitivity; [|apply Permutation_app_head, Hp]. symmetry. etransitivity; [|by rewrite <- app_assoc].
    rewrite <- !app_assoc. apply Permutation_app_head. rewrite !app_assoc.
    apply Permutation_app_tail, Permutation_app_comm.
  - constructor; [|done]. split; [by exists added|]. rewrite length_app. lia.
Qed.

Lemma total_shares num_shards n k :
  total (shares num_shards n 0 k) = Z.of_nat k * (num_shards / n) + Z.min (Z.of_nat k) (Z.max 0 (num_shards mod n)).
Proof.
  induction k as [|k IH]; [unfold shares, total; simpl; lia|].
  unfold shares in *. rewrite Nat2Z.inj_succ, <- Z.add_1_r, seqZ_app by lia. rewrite fmap_app.
  unfold total in *. rewrite foldr_app. change (seqZ (0 + Z.of_nat k) 1) with [0 + Z.of_nat k].
  assert (forall l a, foldr Z.add a l = foldr Z.add 0 l + a) as Hf.
  { intros l a. induction l as [|x l IHl]; simpl; lia. }
  rewrite Hf, IH. cbn [fmap list_fmap foldr]. unfold fair_share.
  destruct (Z.ltb_spec (0 + Z.of_nat k) (num_shards mod n)); lia.
Qed.

Lemma total_all_shares num_shards k :
  (0 < k)%nat -> total (shares num_shards (Z.of_nat k) 0 k) = num_shards.
Proof.
  intros Hk. rewrite total_shares. pose proof (Z.mod_pos_bound num_shards (Z.of_nat k) ltac:(lia)).
  pose proof (Z.div_mod num_shards (Z.of_nat k) ltac:(lia)). lia.
Qed.

(** ** From the map to the rows *)

(** The shards of each member, in join order. *)
Definition rows (ms : list string) (asg : gmap string (list Z)) : list (list Z) :=
  (fun id => default [] (asg !! id)) <$> ms.

Lemma rows_cons id ms asg : rows (id :: ms) asg = default [] (asg !! id) :: rows ms asg.
Proof. done. Qed.

Lemma rows_ext ms asg asg' : (forall id, id ∈ ms -> asg !! id = asg' !! id) -> rows ms asg = rows ms asg'.
Proof.
  intros H. unfold rows. apply list_fmap_ext. intros i id Hi. rewrite H; [done|]. by apply list_elem_of_lookup_2 in Hi.
Qed.

Lemma rows_insert_other id v ms asg : id ∉ ms -> rows ms (<[id := v]> asg) = rows ms asg.
Proof.
  intros H. apply rows_ext. intros id' Hin. apply lookup_insert_ne. by intros ->.
Qed.

(** The rows of [ms] are replaced and nothing else. *)
Definition rows_set (ms : list string) (rs : list (list Z)) (asg asg' : gmap string (list Z)) : Prop :=
  rows ms asg' = rs /\ (forall id, id ∉ ms -> asg' !! id = asg !! id) /\ (forall id, id ∈ ms -> is_Some (asg' !! id)).

Lemma rows_set_cons id ms r rs asg asg' :
  id ∉ ms -> rows_set ms rs (<[id := r]> asg) asg' -> rows_set (id :: ms) (r :: rs) asg asg'.
Proof.
  intros Hid (H1 & H2 & H3). repeat split.
  - unfold rows in *. csimpl. rewrite H1, (H2 id Hid), lookup_insert_eq. done.
  - intros id' Hn. apply not_elem_of_cons in Hn as [Hne Hn]. by rewrite (H2 _ Hn), lookup_insert_ne.
  - intros id' [->|Hin]%elem_of_cons; [|by apply H3]. by rewrite (H2 _ Hid), lookup_insert_eq.
Qed.

Lemma shed_loop_rows num_shards n idx ms asg free :
  NoDup ms ->
  let '(asg', free') := shed_loop num_shards n idx ms asg free in
  let '(ks, ss) := shed_rows num_shards n idx (rows ms asg) in
  rows_set ms ks asg asg' /\ free' = free ++ ss.
Proof.
  revert idx asg free. induction ms as [|id ms IH]; intros idx asg free Hnd.
  { simpl. split; [|by rewrite app_nil_r]. split_and!; [done|done|]. intros id Hin. by apply elem_of_nil in Hin. }
  apply NoDup_cons in Hnd as [Hid Hnd]. rewrite rows_cons. cbn [shed_loop shed_rows].
  destruct (shed_member _ _ _ (default [] (asg !! id))) as [kept shed].
  specialize (IH (idx + 1) (<[id := kept]> asg) (free ++ shed) Hnd). rewrite rows_insert_other in IH by done.
  destruct (shed_loop _ _ _ ms _ _) as [asg' free'].
  destruct (shed_rows _ _ _ (rows ms asg)) as [ks ss]. destruct IH as [IH ->].
  split; [by apply rows_set_cons|]. by rewrite <- app_assoc.
Qed.

Lemma fill_loop_rows num_shards n idx ms asg free :
  NoDup ms ->
  rows_set ms (fill_rows num_shards n idx (rows ms asg) free).1 asg (fill_loop num_shards n idx ms asg free).
Proof.
  revert idx asg free. induction ms as [|id ms IH]; intros idx asg free Hnd.
  { split_and!; [done|done|]. intros id Hin. by apply elem_of_nil in Hin. }
  apply NoDup_cons in Hnd as [Hid Hnd]. rewrite rows_cons. cbn [fill_loop fill_rows].
  destruct (fill_member _ (default [] (asg !! id)) free) as [r free'].
  specialize (IH (idx + 1) (<[id := r]> asg) free' Hnd). rewrite rows_insert_other in IH by done.
  destruct (fill_rows _ _ _ (rows ms asg) free') as [rs free'']. by apply rows_set_cons.
Qed.

Lemma keep_old_aux old ms asg :
  NoDup ms -> (forall id, id ∈ ms -> asg !! id = None) ->
  rows_set ms (rows ms old) asg
    (foldl (fun asg id => <[id := default [] (asg !! id) ++ default [] (old !! id)]> asg) asg ms).
Proof.
  revert asg. induction ms as [|id ms IH]; intros asg Hnd Hno; cbn [foldl].
  { split_and!; [done|done|]. intros id Hin. by apply elem_of_nil in Hin. }
  apply NoDup_cons in Hnd as [Hid Hnd]. rewrite (Hno id) by set_solver. cbn [default app].
  unfold rows at 1. csimpl. apply rows_set_cons; [done|]. apply IH; [done|].
  intros id' Hin. rewrite lookup_insert_ne; [apply Hno; set_solver|]. by intros ->.
Qed.

Lemma keep_old_rows old ms :
  NoDup ms -> rows_set ms (rows ms old) ∅ (keep_old old ms).
Proof.
  intros Hnd. apply keep_old_aux; [done|]. intros. apply lookup_empty.
Qed.

Lemma elem_of_rows ms asg s : s ∈ concat (rows ms asg) <-> exists id l, id ∈ ms /\ asg !! id = Some l /\ s ∈ l.
Proof.
  unfold rows. split.
  - intros (r & Hs & Hr)%list_elem_of_concat. apply list_elem_of_fmap in Hr as (id & -> & Hid).
    destruct (asg !! id) as [l|] eqn:E; [|by apply elem_of_nil in Hs]. by exists id, l.
  - intros (id & l & Hid & E & Hs). apply list_elem_of_concat. exists l. split; [done|].
    apply list_elem_of_fmap. exists id. by rewrite E.
Qed.

(** The free shards are those no member has. *)
Lemma free_shards_spec num_shards ms asg :
  (forall id, id ∉ ms -> asg !! id = None) ->
  NoDup (concat (rows ms asg)) -> (forall s, s ∈ concat (rows ms asg) -> 0 <= s < num_shards) ->
  concat (rows ms asg) ++ free_shards num_shards asg ≡ₚ seqZ 0 num_shards.
Proof.
  intros Hdom Hnd Hin.
  assert (forall s, s ∈ free_shards num_shards asg <-> (s ∉ concat (rows ms asg)) /\ 0 <= s < num_shards) as Hf.
  { intros s. unfold free_shards. rewrite list_elem_of_filter, elem_of_seqZ, Forall_forall, elem_of_rows.
    split.
    - intros [Hall Hs]. split; [|lia]. intros (id & l & _ & E & Hl). apply elem_of_map_to_list in E. by apply (Hall _ E).
    - intros [Hno Hs]. split; [|lia]. intros [id l] E%elem_of_map_to_list Hl. apply Hno. exists id, l. cbn in Hl.
      split; [|done]. destruct (decide (id ∈ ms)) as [|Hid]; [done|]. by rewrite (Hdom _ Hid) in E. }
  apply NoDup_Permutation.
  - apply NoDup_app. split; [done|]. split; [intros s Hs Hs'; apply Hf in Hs'; tauto|]. apply NoDup_filter, NoDup_seqZ.
  - apply NoDup_seqZ.
  - intros s. rewrite elem_of_app, Hf, elem_of_seqZ. split; [intros [Hs|Hs]; [apply Hin in Hs|]; lia|].
    intros Hs. destruct (decide (s ∈ concat (rows ms asg))); [by left|]. right. split; [done|lia].
Qed.

(** ** The sticky rebalance *)

(** A member's new shards: as many as its share, in ascending order, with as many
    of its old ones as the share allows. *)
Definition row_ok (t : Z) (old new : list Z) : Prop :=
  Z.of_nat (length new) = t /\ StronglySorted Z.le new /\
  exists kept, kept ⊆+ old /\ kept ⊆+ new /\ Z.of_nat (length kept) = Z.min (Z.of_nat (length old)) t.

Lemma rows_sort ms asg : rows ms (sort_by_key (fun s => s) <$> asg) = sort_by_key (fun s => s) <$> rows ms asg.
Proof.
  unfold rows. rewrite <- list_fmap_compose. apply list_fmap_ext. intros i id _. cbn. rewrite lookup_fmap.
  by destruct (asg !! id).
Qed.

Lemma concat_sorted (rs : list (list Z)) : concat (sort_by_key (fun s => s) <$> rs) ≡ₚ concat rs.
Proof.
  induction rs as [|r rs IH]; [done|]. csimpl. apply Permutation_app; [apply sort_by_key_perm|done].
Qed.

(** Shedding, filling and sorting together. *)
Lemma rows_rebalanced ts olds ks rs :
  Forall3 (fun t r k => (exists s, r ≡ₚ k ++ s) /\ Z.of_nat (length k) = Z.min (Z.of_nat (length r)) t) ts olds ks ->
  Forall3 (fun t r r' => (exists added, r' = r ++ added) /\ Z.of_nat (length r') = t) ts ks rs ->
  Forall3 row_ok ts olds (sort_by_key (fun s => s) <$> rs).
Proof.
  intros H. revert rs. induction H as [|t o k ts olds ks [[s Hs] Hk] H IH]; intros rs H2; inversion H2; subst.
  { constructor. }
  csimpl. constructor; [|by apply IH].
  match goal with H : (exists _, _) /\ _ |- _ => destruct H as [[added ->] Hl] end.
  split_and!.
  - rewrite sort_by_key_perm. done.
  - apply (sort_by_key_sorted (fun s => s)).
  - exists k. split_and!; [| |done].
    + rewrite Hs. apply submseteq_inserts_r. done.
    + rewrite sort_by_key_perm. apply submseteq_inserts_r. done.
Qed.

Lemma Forall3_length {A B C} (P : A -> B -> C -> Prop) l k m :
  Forall3 P l k m -> length l = length k /\ length k = length m.
Proof. induction 1; simpl; lia. Qed.

Lemma shed_within ts (olds ks : list (list Z)) :
  Forall3 (fun t r k => (exists s, r ≡ₚ k ++ s) /\ Z.of_nat (length k) = Z.min (Z.of_nat (length r)) t) ts olds ks ->
  Forall2 (fun t r => Z.of_nat (length r) <= t) ts ks.
Proof. induction 1 as [|t o k ts olds ks [_ Hk] H3 IH]; constructor; [lia|done]. Qed.

Lemma recompute_sticky_rows ms old num_shards :
  NoDup ms -> ms <> [] -> 0 <= num_shards ->
  NoDup (concat (rows ms old)) -> (forall s, s ∈ concat (rows ms old) -> 0 <= s < num_shards) ->
  let asg := (recompute_sticky ms old num_shards).1 in
  concat (rows ms asg) ≡ₚ seqZ 0 num_shards /\
  Forall3 row_ok (shares num_shards (Z.of_nat (length ms)) 0 (length ms)) (rows ms old) (rows ms asg) /\
  (forall id, id ∈ ms <-> is_Some (asg !! id)).
Proof.
  intros Hnd Hne H0 Hrows Hrange asg. set (n := Z.of_nat (length ms)) in *.
  assert (0 < n) as Hn by (destruct ms; [done|]; subst n; simpl; lia).
  assert (length (rows ms old) = length ms) as Hlr by apply length_fmap.
  destruct (keep_old_rows old ms Hnd) as (K1 & K2 & K3).
  pose proof (free_shards_spec num_shards ms (keep_old old ms)) as Hfree. rewrite K1 in Hfree.
  specialize (Hfree (fun id Hid => eq_trans (K2 id Hid) (lookup_empty id)) Hrows Hrange).
  pose proof (shed_loop_rows num_shards n 0 ms (keep_old old ms) (free_shards num_shards (keep_old old ms)) Hnd) as Hs.
  pose proof (shed_rows_spec num_shards n 0 (rows ms old) H0 Hn) as Hsr. rewrite K1 in Hs.
  destruct (shed_loop num_shards n 0 ms _ _) as [asg1 free1] eqn:Es.
  destruct (shed_rows num_shards n 0 (rows ms old)) as [ks ss]. destruct Hs as [(S1 & S2 & S3) ->], Hsr as [P1 P2].
  pose proof (Forall3_length _ _ _ _ P2) as [_ Hlk]. rewrite Hlr in P2, Hlk.
  pose proof (fill_loop_rows num_shards n 0 ms asg1 (free_shards num_shards (keep_old old ms) ++ ss) Hnd) as (F1 & F2 & F3).
  rewrite S1 in F1.
  destruct (fill_rows_spec num_shards n 0 ks (free_shards num_shards (keep_old old ms) ++ ss)) as (rs & E & C1 & C2).
  { rewrite <- Hlk. by eapply shed_within. }
  { rewrite <- Hlk. unfold n. rewrite total_all_shares by lia. apply Permutation_length in Hfree, P1.
    rewrite length_app, length_seqZ in Hfree. rewrite length_app in P1 |- *. lia. }
  rewrite E in F1. cbn [fst] in F1. rewrite <- Hlk in C2.
  assert (asg = sort_by_key (fun s => s) <$> fill_loop num_shards n 0 ms asg1 (free_shards num_shards (keep_old old ms) ++ ss)) as ->.
  { unfold asg, recompute_sticky. destruct ms; [done|]. fold n. by rewrite Es. }
  rewrite rows_sort, F1. split_and!.
  - etransitivity; [apply concat_sorted|]. etransitivity; [exact C1|]. etransitivity; [|exact Hfree].
    etransitivity; [|symmetry; apply Permutation_app_tail, P1]. rewrite <- app_assoc.
    apply Permutation_app_head, Permutation_app_comm.
  - by eapply rows_rebalanced.
  - intros id. rewrite lookup_fmap, fmap_is_Some. split; [apply F3|]. intros Hid.
    destruct (decide (id ∈ ms)) as [|Hno]; [done|]. rewrite (F2 _ Hno), (S2 _ Hno), (K2 _ Hno) in Hid.
    by apply is_Some_None in Hid.
Qed.

(** The reported consumers are those whose entry changed. *)
Lemma recompute_sticky_changed ms old num_shards id :
  (forall id, id ∈ ms <-> is_Some ((recompute_sticky ms old num_shards).1 !! id)) ->
  id ∈ (recompute_sticky ms old num_shards).2 <-> (recompute_sticky ms old num_shards).1 !! id <> old !! id.
Proof.
  intros Hdom. unfold recompute_sticky in *. destruct ms as [|m ms'].
  { cbn [fst snd]. rewrite lookup_empty, elem_of_dom. destruct (old !! id); split; intros H; [done|by eexists|by destruct H|done]. }
  set (ms := m :: ms') in *. destruct (shed_loop _ _ _ _ _ _) as [asg free]. cbn [fst snd] in *.
  set (new := sort_by_key _ <$> _) in *. rewrite elem_of_union, elem_of_list_to_set, list_elem_of_filter, elem_of_filter, elem_of_dom.
  split.
  - intros [[H _]|[Hno Ho]]; [done|]. intros Heq. rewrite <- Heq in Ho. by apply Hno, Hdom.
  - intros H. destruct (decide (id ∈ ms)) as [Hid|Hid]; [by left|]. right. split; [done|].
    destruct (new !! id) eqn:E; [exfalso; apply Hid, Hdom; by rewrite E|]. destruct (old !! id); [by eexists|done].
Qed.

(** ** Every history of a group *)

Inductive GroupOp :=
  | OpJoin (consumer_id : string)
  | OpLeave (consumer_id : string)
  | OpCommit (shard seq : Z).

Definition apply_op (g : GroupState) (op : GroupOp) : GroupState :=
  match op with
  | OpJoin id => (join id g).2
  | OpLeave id => (leave id g).2
  | OpCommit shard seq => (commit_offset shard seq g).2
  end.

Definition run_group (num_shards : Z) (ops : list GroupOp) : GroupState :=
  foldl apply_op (group_new num_shards) ops.

(** All shards are given out, to each member as many as its share. *)
Definition rows_ok (num_shards : Z) (ms : list string) (asg : gmap string (list Z)) : Prop :=
  concat (rows ms asg) ≡ₚ seqZ 0 num_shards /\
  Forall2 (fun t r => Z.of_nat (length r) = t /\ StronglySorted Z.le r)
    (shares num_shards (Z.of_nat (length ms)) 0 (length ms)) (rows ms asg).

Definition group_ok (g : GroupState) : Prop :=
  NoDup (members g) /\ (forall id, is_Some (assignments g !! id) -> id ∈ members g) /\
  (members g <> [] -> rows_ok (gs_num_shards g) (members g) (assignments g)).

Lemma round_robin_single id l asg :
  (forall id', id' <> id -> asg !! id' = None) ->
  let asg' := foldl (fun asg shard =>
    match [id] !! Z.to_nat (shard mod Z.of_nat (length [id])) with
    | Some owner => push_shard asg owner shard
    | None => asg
    end) asg l in
  default [] (asg' !! id) = default [] (asg !! id) ++ l /\ (forall id', id' <> id -> asg' !! id' = None).
Proof.
  revert asg. induction l as [|s l IH]; intros asg Hno; cbn [foldl]; [by rewrite app_nil_r|].
  change (Z.of_nat (length [id])) with 1 in *. rewrite Z.mod_1_r. change ([id] !! Z.to_nat 0) with (Some id). cbv iota beta.
  destruct (IH (push_shard asg id s)) as [H1 H2].
  { intros id' Hne. unfold push_shard. rewrite lookup_insert_ne by done. by apply Hno. }
  split; [|done]. rewrite H1. unfold push_shard. rewrite lookup_insert_eq. cbn [from_option Datatypes.id]. by rewrite <- app_assoc.
Qed.

Lemma seqZ_sorted m n : StronglySorted Z.le (seqZ m n).
Proof.
  destruct (Z.le_gt_cases n 0) as [Hn|Hn]; [rewrite seqZ_nil by lia; constructor|].
  rewrite <- (Z2Nat.id n) by lia. clear Hn. generalize (Z.to_nat n) as k. intros k. revert m.
  induction k as [|k IH]; intros m; [constructor|]. rewrite seqZ_cons by lia. constructor.
  - replace (Z.pred (Z.of_nat (S k))) with (Z.of_nat k) by lia. apply IH.
  - apply Forall_forall. intros x Hx%elem_of_seqZ. lia.
Qed.

Lemma round_robin_ok id num_shards :
  0 <= num_shards ->
  rows_ok num_shards [id] (recompute_round_robin [id] num_shards) /\
  (forall id', id' <> id -> recompute_round_robin [id] num_shards !! id' = None).
Proof.
  intros H0. destruct (round_robin_single id (seqZ 0 num_shards) ∅) as [H1 H2]; [intros; apply lookup_empty|].
  unfold recompute_round_robin. rewrite lookup_empty in H1. cbn [from_option Datatypes.id app] in H1. split; [|done].
  unfold rows_ok. rewrite rows_cons, H1. cbn [concat rows fmap list_fmap]. rewrite app_nil_r. split; [done|].
  change (length [id]) with 1%nat. rewrite shares_S. constructor; [|constructor]. split; [|apply seqZ_sorted].
  rewrite length_seqZ. unfold fair_share. rewrite Z.mod_1_r, Z.div_1_r. simpl. lia.
Qed.

Lemma rows_range num_shards ms asg s :
  concat (rows ms asg) ≡ₚ seqZ 0 num_shards -> s ∈ concat (rows ms asg) -> 0 <= s < num_shards.
Proof. intros Hp Hs. rewrite Hp in Hs. apply elem_of_seqZ in Hs. lia. Qed.

Lemma rows_nodup num_shards ms asg :
  concat (rows ms asg) ≡ₚ seqZ 0 num_shards -> NoDup (concat (rows ms asg)).
Proof. intros Hp. rewrite Hp. apply NoDup_seqZ. Qed.

(** What a rebalance starts from: shards of the group, each with at most one
    member. *)
Definition rows_start (num_shards : Z) (ms : list string) (old : gmap string (list Z)) : Prop :=
  NoDup (concat (rows ms old)) /\ (forall s, s ∈ concat (rows ms old) -> 0 <= s < num_shards).

Lemma sticky_ok ms old num_shards :
  NoDup ms -> ms <> [] -> 0 <= num_shards -> rows_start num_shards ms old ->
  rows_ok num_shards ms (recompute_sticky ms old num_shards).1 /\
  (forall id, is_Some ((recompute_sticky ms old num_shards).1 !! id) -> id ∈ ms).
Proof.
  intros Hnd Hne H0 [Hs1 Hs2]. destruct (recompute_sticky_rows ms old num_shards Hnd Hne H0 Hs1 Hs2) as (H1 & H2 & H3).
  split; [|intros; by apply H3]. split; [done|]. revert H2.
  generalize (shares num_shards (Z.of_nat (length ms)) 0 (length ms)). intros ts H2. clear -H2.
  induction H2 as [|t o r ts os rs (Hl & Hs & _) H IH]; by constructor.
Qed.

Lemma join_start g id :
  group_ok g -> members g <> [] -> id ∉ members g -> rows_start (gs_num_shards g) (members g ++ [id]) (assignments g).
Proof.
  intros (Hnd & Hdom & Hrows) Hne Hid. destruct (Hrows Hne) as [Hp _].
  assert (concat (rows (members g ++ [id]) (assignments g)) = concat (rows (members g) (assignments g))) as Heq.
  { unfold rows. rewrite fmap_app, concat_app. csimpl. destruct (assignments g !! id) eqn:E; [|by rewrite !app_nil_r].
    exfalso. apply Hid, Hdom. by rewrite E. }
  split; rewrite Heq; [by eapply rows_nodup|]. intros s. by apply rows_range.
Qed.

Lemma remove_member_perm id ms : id ∈ ms -> ms ≡ₚ id :: remove_member id ms.
Proof.
  induction ms as [|m ms IH]; intros Hid; [by apply elem_of_nil in Hid|]. cbn [remove_member].
  case_bool_decide as Hm; [by rewrite Hm|]. etransitivity; [|apply perm_swap]. apply perm_skip, IH.
  apply elem_of_cons in Hid as [->|]; done.
Qed.

Lemma rows_perm ms ms' asg : ms ≡ₚ ms' -> concat (rows ms asg) ≡ₚ concat (rows ms' asg).
Proof.
  unfold rows. induction 1; csimpl.
  - done.
  - by apply Permutation_app_head.
  - rewrite !app_assoc. apply Permutation_app_tail, Permutation_app_comm.
  - by etransitivity.
Qed.

Lemma leave_start g id :
  group_ok g -> id ∈ members g ->
  let ms := remove_member id (members g) in
  NoDup ms /\ (forall m, m ∈ ms <-> m ∈ members g /\ m <> id) /\
  rows ms (delete id (assignments g)) = rows ms (assignments g) /\
  rows_start (gs_num_shards g) ms (delete id (assignments g)).
Proof.
  intros (Hnd & Hdom & Hrows) Hid ms. pose proof (remove_member_perm id (members g) Hid) as Hp. fold ms in Hp.
  assert (NoDup (id :: ms)) as Hnd' by (rewrite <- Hp; done). apply NoDup_cons in Hnd' as [Hno Hnd'].
  assert (rows ms (delete id (assignments g)) = rows ms (assignments g)) as Heq.
  { apply rows_ext. intros m Hm. apply lookup_delete_ne. by intros ->. }
  split; [done|]. split.
  { intros m. rewrite Hp, elem_of_cons. split; [|by intros [[->|Hm] Hne]]. intros Hm. split; [by right|]. by intros ->. }
  split; [done|]. destruct Hrows as [Hc _]; [by intros E; rewrite E in Hid; apply elem_of_nil in Hid|].
  pose proof (rows_perm _ _ (assignments g) Hp) as Hperm. unfold rows at 2 in Hperm. csimpl in *.
  rewrite Hc in Hperm. unfold rows_start. rewrite Heq. split.
  - pose proof (NoDup_seqZ 0 (gs_num_shards g)) as Hs. rewrite Hperm in Hs. by apply NoDup_app in Hs as (_ & _ & ?).
  - intros s Hs. assert (s ∈ seqZ 0 (gs_num_shards g)) as Hin; [|apply elem_of_seqZ in Hin; lia].
    rewrite Hperm. apply elem_of_app. by right.
Qed.

Lemma nodup_snoc {A} (l : list A) x : NoDup l -> x ∉ l -> NoDup (l ++ [x]).
Proof.
  intros Hnd Hx. apply NoDup_app. split_and!; [done| |apply NoDup_singleton]. intros y Hy ->%list_elem_of_singleton. done.
Qed.

Lemma group_ok_new num_shards : group_ok (group_new num_shards).
Proof.
  split_and!; cbn [group_new members assignments]; [constructor| |done]. intros id. rewrite lookup_empty. by intros ?%is_Some_None.
Qed.

Lemma join_ok id g : 0 <= gs_num_shards g -> group_ok g -> group_ok (join id g).2.
Proof.
  intros H0 Hok. unfold join. cbn [snd]. case_bool_decide as Hin; [done|]. destruct (Hok) as (Hnd & _ & _).
  case_bool_decide as Hfirst.
  - rewrite Hfirst. cbn [app]. destruct (round_robin_ok id _ H0) as [Hr Hno].
    split_and!; cbn [members assignments gs_num_shards]; [apply NoDup_singleton| |done].
    intros id' Hs. destruct (decide (id' = id)) as [->|Hne]; [by apply elem_of_cons; left|].
    rewrite Hno in Hs by done. by apply is_Some_None in Hs.
  - pose proof (join_start g id Hok Hfirst Hin) as Hst.
    assert (NoDup (members g ++ [id])) as Hnd' by (by apply nodup_snoc).
    destruct (sticky_ok (members g ++ [id]) _ _ Hnd' ltac:(by destruct (members g)) H0 Hst) as [H1 H2].
    destruct (recompute_sticky _ _ _) as [asg changed]. by split_and!.
Qed.

Lemma leave_ok id g : 0 <= gs_num_shards g -> group_ok g -> group_ok (leave id g).2.
Proof.
  intros H0 Hok. unfold leave. case_bool_decide as Hin; [|done].
  destruct (leave_start g id Hok Hin) as (Hnd & _ & _ & Hst).
  destruct (decide (remove_member id (members g) = [])) as [E|Hne].
  - rewrite E. cbn [recompute_sticky snd]. split_and!; cbn [members assignments]; [constructor| |done].
    intros id'. rewrite lookup_empty. by intros ?%is_Some_None.
  - destruct (sticky_ok _ _ _ Hnd Hne H0 Hst) as [H1 H2]. destruct (recompute_sticky _ _ _) as [asg changed].
    by split_and!.
Qed.

Lemma apply_op_shards op g : gs_num_shards (apply_op g op) = gs_num_shards g.
Proof.
  destruct op; cbn [apply_op]; [| |done].
  - unfold join. cbn [snd]. repeat case_bool_decide; try done. by destruct (recompute_sticky _ _ _).
  - unfold leave. case_bool_decide; [|done]. by destruct (recompute_sticky _ _ _).
Qed.

Lemma apply_op_ok op g : 0 <= gs_num_shards g -> group_ok g -> group_ok (apply_op g op).
Proof.
  destruct op; [apply join_ok|apply leave_ok|done].
Qed.

Lemma run_group_ok num_shards ops :
  0 <= num_shards -> group_ok (run_group num_shards ops) /\ gs_num_shards (run_group num_shards ops) = num_shards.
Proof.
  intros H0. induction ops as [|op ops [IH1 IH2]] using rev_ind; [split; [apply group_ok_new|done]|].
  unfold run_group in *. rewrite foldl_app. cbn [foldl]. rewrite apply_op_shards. split; [|done].
  apply apply_op_ok; [lia|done].
Qed.

Lemma nodup_concat_unique {A} (ls : list (list A)) i j a b x :
  NoDup (concat ls) -> ls !! i = Some a -> ls !! j = Some b -> x ∈ a -> x ∈ b -> i = j.
Proof.
  revert i j. induction ls as [|l ls IH]; intros i j Hnd Hi Hj Ha Hb; [done|]. cbn [concat] in Hnd.
  apply NoDup_app in Hnd as (_ & Hdis & Hnd).
  assert (forall k c, ls !! k = Some c -> x ∈ c -> x ∈ concat ls) as Hc.
  { intros k c Hk Hx. apply list_elem_of_concat. exists c. split; [done|]. by eapply list_elem_of_lookup_2. }
  destruct i as [|i], j as [|j]; simplify_eq/=; [done| | |f_equal; by eapply IH]; exfalso; by eapply Hdis, Hc.
Qed.

Lemma sorted_nodup_lt (l : list Z) : StronglySorted Z.le l -> NoDup l -> StronglySorted Z.lt l.
Proof.
  induction 1 as [|x l Hs IH Hall]; intros Hnd; constructor; apply NoDup_cons in Hnd as [Hx Hnd]; [by apply IH|].
  rewrite Forall_forall in Hall |- *. intros y Hy. specialize (Hall _ Hy). assert (x <> y) by (by intros ->). lia.
Qed.

Lemma nodup_concat_elem {A} (ls : list (list A)) l : NoDup (concat ls) -> l ∈ ls -> NoDup l.
Proof.
  induction ls as [|l' ls IH]; intros Hnd Hin; [by apply elem_of_nil in Hin|]. cbn [concat] in Hnd.
  apply NoDup_app in Hnd as (H1 & _ & H2). apply elem_of_cons in Hin as [->|]; [done|by apply IH].
Qed.

(** A shard has one owner. *)
Lemma owner_unique g a b la lb s :
  group_ok g -> assigned g a = Some la -> assigned g b = Some lb -> s ∈ la -> s ∈ lb -> a = b.
Proof.
  intros (Hnd & Hdom & Hrows) Ea Eb Ha Hb.
  assert (forall id l, assigned g id = Some l -> exists i, members g !! i = Some id /\ rows (members g) (assignments g) !! i = Some l) as Hrow.
  { intros id l E. unfold assigned in E. assert (id ∈ members g) as [i Hi]%list_elem_of_lookup by (apply Hdom; by rewrite E).
    exists i. split; [done|]. unfold rows. rewrite list_lookup_fmap, Hi. cbn. by rewrite E. }
  destruct (Hrow _ _ Ea) as (i & Hi & Ri), (Hrow _ _ Eb) as (j & Hj & Rj).
  destruct Hrows as [Hp _]; [by intros E; rewrite E in Hi|].
  pose proof (nodup_concat_unique _ _ _ _ _ _ (rows_nodup _ _ _ Hp) Ri Rj Ha Hb). by simplify_eq.
Qed.

(** C10: whatever consumers join and leave and whatever offsets are committed, a
    group with members gives every one of its shards to exactly one member: the
    shard has an owner, no second member has it, the member at place [i] of the
    join order has exactly its fair share of shards, ascending and within range,
    and consumers that are not members have none. *)
Theorem assignments_partition_shards (num_shards : Z) (ops : list GroupOp) :
  0 <= num_shards ->
  let g := run_group num_shards ops in
  members g <> [] ->
  (forall s, 0 <= s < num_shards ->
     exists id l, assigned g id = Some l /\ s ∈ l /\
       forall id' l', assigned g id' = Some l' -> s ∈ l' -> id' = id) /\
  (forall i id, members g !! i = Some id ->
     let l := default [] (assigned g id) in
     Z.of_nat (length l) = fair_share num_shards (Z.of_nat (length (members g))) (Z.of_nat i) /\
     StronglySorted Z.lt l /\ Forall (fun s => 0 <= s < num_shards) l) /\
  (forall id, id ∉ members g -> assigned g id = None).
Proof.
  intros H0 g Hne. destruct (run_group_ok num_shards ops H0) as [(Hnd & Hdom & Hrows) HN]. fold g in Hnd, Hdom, Hrows, HN.
  destruct (Hrows Hne) as [Hp Hsh]. rewrite HN in Hp, Hsh. pose proof (rows_nodup _ _ _ Hp) as Hcn.
  split_and!.
  - intros s Hs. assert (s ∈ concat (rows (members g) (assignments g))) as Hin by (rewrite Hp; apply elem_of_seqZ; lia).
    apply elem_of_rows in Hin as (id & l & _ & E & Hsl). exists id, l. split; [done|]. split; [done|].
    intros id' l' E' Hsl'. by eapply (owner_unique g).
  - intros i id Hi l. assert (rows (members g) (assignments g) !! i = Some l) as Hl.
    { unfold rows. by rewrite list_lookup_fmap, Hi. }
    destruct (Forall2_lookup_r _ _ _ _ _ Hsh Hl) as (t & Ht & Hlen & Hsort).
    unfold shares in Ht. apply list_lookup_fmap_Some in Ht as (k & -> & Hk). apply lookup_seqZ in Hk as [-> _].
    split_and!; [done| |].
    + apply sorted_nodup_lt; [done|]. eapply nodup_concat_elem; [exact Hcn|]. by eapply list_elem_of_lookup_2.
    + apply Forall_forall. intros s Hs. eapply rows_range; [exact Hp|]. apply list_elem_of_concat. exists l.
      split; [done|]. by eapply list_elem_of_lookup_2.
  - intros id Hid. unfold assigned. destruct (assignments g !! id) eqn:E; [|done]. exfalso. apply Hid, Hdom. by rewrite E.
Qed.

(** ** How much a rebalance moves *)

(** How many of its old shards the consumer still has. *)
Definition kept_by (old new : gmap string (list Z)) (id : string) : nat :=
  length (filter (fun s => s ∈ default [] (new !! id)) (default [] (old !! id))).

Definition kept_total (ms : list string) (old new : gmap string (list Z)) : nat :=
  sum_list_with (kept_by old new) ms.

Lemma sum_list_with_le {A} (f h : A -> nat) l : (forall x, x ∈ l -> (f x <= h x)%nat) -> (sum_list_with f l <= sum_list_with h l)%nat.
Proof.
  induction l as [|x l IH]; intros H; simpl; [lia|]. pose proof (H x ltac:(set_solver)).
  assert (sum_list_with f l <= sum_list_with h l)%nat by (apply IH; set_solver). lia.
Qed.

(** No more can be kept than there was or than there is now. *)
Lemma kept_by_le old new id :
  NoDup (default [] (old !! id)) ->
  (kept_by old new id <= length (default [] (old !! id)))%nat /\ (kept_by old new id <= length (default [] (new !! id)))%nat.
Proof.
  intros Hnd. unfold kept_by. split; [apply length_filter|].
  apply submseteq_length, NoDup_submseteq; [by apply NoDup_filter|]. intros s Hs. by apply list_elem_of_filter in Hs as [Hs _].
Qed.

Lemma kept_by_sub old new id kept :
  NoDup (default [] (old !! id)) -> kept ⊆+ default [] (old !! id) -> kept ⊆+ default [] (new !! id) ->
  (length kept <= kept_by old new id)%nat.
Proof.
  intros Hnd H1 H2. unfold kept_by. apply submseteq_length, NoDup_submseteq.
  - apply submseteq_Permutation in H1 as [k Hk]. rewrite Hk in Hnd. by apply NoDup_app in Hnd as [? _].
  - intros s Hs. apply list_elem_of_filter. split; [by eapply elem_of_submseteq|by eapply elem_of_submseteq].
Qed.

Lemma sticky_moves_least ms old num_shards alt :
  NoDup ms -> ms <> [] -> 0 <= num_shards -> rows_start num_shards ms old ->
  let new := (recompute_sticky ms old num_shards).1 in
  (forall id, id ∈ ms -> length (default [] (alt !! id)) = length (default [] (new !! id))) ->
  (kept_total ms old alt <= kept_total ms old new)%nat.
Proof.
  intros Hnd Hne H0 [Hs1 Hs2] new Halt. destruct (recompute_sticky_rows ms old num_shards Hnd Hne H0 Hs1 Hs2) as (_ & H2 & _).
  fold new in H2. apply sum_list_with_le. intros id Hid. specialize (Halt id Hid).
  apply list_elem_of_lookup in Hid as [i Hi].
  assert (forall asg, rows ms asg !! i = Some (default [] (asg !! id))) as Hrow.
  { intros asg. unfold rows. by rewrite list_lookup_fmap, Hi. }
  destruct (Forall3_lookup_m _ _ _ _ _ _ H2 (Hrow old)) as (t & r & _ & Hr & Hok).
  rewrite Hrow in Hr. injection Hr as <-. destruct Hok as (Hlen & _ & kept & Ho & Hn & Hk).
  assert (NoDup (default [] (old !! id))) as Hndr.
  { eapply nodup_concat_elem; [exact Hs1|]. eapply list_elem_of_lookup_2, Hrow. }
  pose proof (kept_by_le old alt id Hndr) as [Hl1 Hl2]. pose proof (kept_by_sub old new id kept Hndr Ho Hn). lia.
Qed.

Lemma kept_total_max ms old : (forall alt, kept_total ms old alt <= kept_total ms old old)%nat.
Proof.
  intros alt. apply sum_list_with_le. intros id _. unfold kept_by. rewrite (filter_all (fun s => s ∈ default [] (old !! id)) (default [] (old !! id))) by (intros x Hx; exact Hx).
  apply length_filter.
Qed.

Lemma kept_total_ext ms old old' new :
  (forall id, id ∈ ms -> old !! id = old' !! id) -> kept_total ms old new = kept_total ms old' new.
Proof.
  intros H. unfold kept_total. induction ms as [|m ms IH]; [done|]. cbn. unfold kept_by at 1 3. rewrite (H m) by set_solver.
  f_equal. apply IH. intros id Hid. apply H. set_solver.
Qed.

Lemma kept_total_none ms new : kept_total ms ∅ new = 0%nat.
Proof.
  induction ms as [|m ms IH]; [done|]. unfold kept_total in *. cbn. rewrite IH. unfold kept_by. by rewrite lookup_empty.
Qed.

(** A change of a group moves no more shards than it must: of all ways to give
    each member the number of shards the group gives it now, none leaves more
    shards with the consumer that had them before. *)
Theorem rebalance_moves_least (num_shards : Z) (ops : list GroupOp) (op : GroupOp) (alt : gmap string (list Z)) :
  0 <= num_shards ->
  let g := run_group num_shards ops in
  let g' := apply_op g op in
  (forall id, id ∈ members g' -> length (default [] (alt !! id)) = length (default [] (assigned g' id))) ->
  (kept_total (members g') (assignments g) alt <= kept_total (members g') (assignments g) (assignments g'))%nat.
Proof.
  intros H0 g. destruct (run_group_ok num_shards ops H0) as [Hok HN]. fold g in Hok, HN. clearbody g. subst num_shards.
  destruct op as [c|c|shard seq]; cbn [apply_op]; [| |intros _; apply kept_total_max].
  - unfold join, assigned. cbn [snd]. case_bool_decide as Hin; [intros _; apply kept_total_max|].
    case_bool_decide as Hfirst.
    + intros _. destruct Hok as (_ & Hdom & _). assert (assignments g = ∅) as ->; [|by rewrite !kept_total_none].
      apply map_empty. intros id. apply eq_None_not_Some. intros H%Hdom. rewrite Hfirst in H. by apply elem_of_nil in H.
    + pose proof (join_start g c Hok Hfirst Hin) as Hst.
      assert (NoDup (members g ++ [c])) as Hnd by (destruct Hok; by apply nodup_snoc).
      pose proof (sticky_moves_least _ _ _ alt Hnd ltac:(by destruct (members g)) H0 Hst) as H.
      destruct (recompute_sticky _ _ _) as [asg changed]. exact H.
  - unfold leave, assigned. case_bool_decide as Hin; [|intros _; apply kept_total_max].
    destruct (leave_start g c Hok Hin) as (Hnd & Hms & _ & Hst).
    destruct (decide (remove_member c (members g) = [])) as [E|Hne].
    + rewrite E. cbn [recompute_sticky snd members]. done.
    + pose proof (sticky_moves_least _ _ _ alt Hnd Hne H0 Hst) as H.
      destruct (recompute_sticky _ _ _) as [asg changed]. cbn [snd fst members assignments] in *. intros Halt.
      rewrite (kept_total_ext _ (assignments g) (delete c (assignments g)) alt),
        (kept_total_ext _ (assignments g) (delete c (assignments g)) asg); [by apply H| |];
        intros id Hid; symmetry; apply lookup_delete_ne; apply Hms in Hid as [_ Hid]; congruence.
Qed.

(** ** Who is told of a rebalance *)

Lemma join_changed g c id :
  0 <= gs_num_shards g -> group_ok g -> members g <> [] -> c ∉ members g ->
  id ∈ last_changed (join c g).2 <-> assigned (join c g).2 id <> assigned g id.
Proof.
  intros H0 Hok Hne Hin. unfold assigned, join. rewrite bool_decide_false by done. rewrite bool_decide_false by done.
  pose proof (join_start g c Hok Hne Hin) as [Hs1 Hs2].
  assert (NoDup (members g ++ [c])) as Hnd by (destruct Hok; by apply nodup_snoc).
  destruct (recompute_sticky_rows _ _ _ Hnd ltac:(by destruct (members g)) H0 Hs1 Hs2) as (_ & _ & Hdom).
  pose proof (recompute_sticky_changed _ _ _ id Hdom) as H. destruct (recompute_sticky _ _ _) as [asg changed]. exact H.
Qed.

Lemma join_new g c :
  0 <= gs_num_shards g -> group_ok g -> members g <> [] -> c ∉ members g ->
  members (join c g).2 = members g ++ [c] /\ is_Some (assignments (join c g).2 !! c).
Proof.
  intros H0 Hok Hne Hin. unfold join. rewrite bool_decide_false by done. rewrite bool_decide_false by done.
  pose proof (join_start g c Hok Hne Hin) as [Hs1 Hs2].
  assert (NoDup (members g ++ [c])) as Hnd by (destruct Hok; by apply nodup_snoc).
  destruct (recompute_sticky_rows _ _ _ Hnd ltac:(by destruct (members g)) H0 Hs1 Hs2) as (_ & _ & Hdom).
  destruct (recompute_sticky _ _ _) as [asg changed]. split; [done|]. apply Hdom. apply elem_of_app. right.
  by apply list_elem_of_singleton.
Qed.

Lemma leave_members g c m :
  group_ok g -> c ∈ members g -> m ∈ members (leave c g).2 <-> m ∈ members g /\ m <> c.
Proof.
  intros Hok Hin. unfold leave. rewrite bool_decide_true by done. destruct (leave_start g c Hok Hin) as (_ & Hms & _).
  destruct (recompute_sticky _ _ _) as [asg changed]. apply Hms.
Qed.

Lemma leave_changed g c id :
  0 <= gs_num_shards g -> group_ok g -> c ∈ members g ->
  id ∈ last_changed (leave c g).2 <-> id <> c /\ assigned (leave c g).2 id <> assigned g id.
Proof.
  intros H0 Hok Hin. unfold assigned, leave. rewrite bool_decide_true by done.
  destruct (leave_start g c Hok Hin) as (Hnd & Hms & _ & [Hs1 Hs2]).
  set (ms := remove_member c (members g)) in *. set (old := delete c (assignments g)) in *.
  assert (forall id, id ∈ ms <-> is_Some ((recompute_sticky ms old (gs_num_shards g)).1 !! id)) as Hdom.
  { destruct (decide (ms = [])) as [E|Hne].
    - intros m. rewrite E. cbn [recompute_sticky fst]. rewrite lookup_empty. split; [by intros ?%elem_of_nil|by intros ?%is_Some_None].
    - destruct (recompute_sticky_rows _ _ _ Hnd Hne H0 Hs1 Hs2) as (_ & _ & Hdom). exact Hdom. }
  pose proof (recompute_sticky_changed _ _ _ id Hdom) as H. pose proof (Hdom c) as Hc.
  destruct (recompute_sticky _ _ _) as [asg changed]. cbn [fst snd last_changed assignments] in *. rewrite H.
  destruct (decide (id = c)) as [->|Hid].
  - subst old. rewrite lookup_delete_eq. split; [|by intros []]. intros Hne. exfalso.
    destruct (asg !! c) eqn:E; [|done]. assert (c ∈ ms) as [_ Hcc]%Hms by (apply Hc; by eexists). done.
  - subst old. rewrite lookup_delete_ne by done. tauto.
Qed.

(** After a new consumer joins a group with members, [last_changed] holds
    exactly the consumers whose shards differ from before; after a member leaves,
    exactly those of the others whose shards differ.  The consumer that left is
    never among them, although its shards are gone. *)
Theorem last_changed_exact (num_shards : Z) (ops : list GroupOp) (c : string) :
  0 <= num_shards ->
  let g := run_group num_shards ops in
  (members g <> [] -> c ∉ members g ->
     forall id, id ∈ last_changed (join c g).2 <-> assigned (join c g).2 id <> assigned g id) /\
  (c ∈ members g ->
     forall id, id ∈ last_changed (leave c g).2 <-> id <> c /\ assigned (leave c g).2 id <> assigned g id).
Proof.
  intros H0 g. destruct (run_group_ok num_shards ops H0) as [Hok HN]. fold g in Hok, HN. rewrite <- HN in H0. split; intros.
  - by apply join_changed.
  - by apply leave_changed.
Qed.

(** ** Offsets in the registry *)

Inductive RegistryOp :=
  | RJoin (key : GroupKey) (consumer_id : string)
  | RLeave (key : GroupKey) (consumer_id : string)
  | RCommit (key : GroupKey) (shard seq : Z).

Definition apply_registry (r : CoordinatorRegistry) (op : RegistryOp) : CoordinatorRegistry :=
  match op with
  | RJoin key id => (registry_join key id r).2
  | RLeave key id => (registry_leave key id r).2
  | RCommit key shard seq => (registry_commit_offset key shard seq r).2
  end.

Definition run_registry (num_shards : Z) (ops : list RegistryOp) : CoordinatorRegistry :=
  foldl apply_registry (registry_new num_shards) ops.

(** The sequences committed for one shard of one group. *)
Definition committed (key : GroupKey) (shard : Z) (ops : list RegistryOp) : list Z :=
  omap (fun op => match op with
                  | RCommit k s seq => if bool_decide (k = key /\ s = shard) then Some seq else None
                  | _ => None
                  end) ops.

Lemma shard_offset_join id g shard : shard_offset (join id g).2 shard = shard_offset g shard.
Proof.
  unfold join. cbn [snd]. case_bool_decide; [done|]. case_bool_decide; [done|]. by destruct (recompute_sticky _ _ _).
Qed.

Lemma shard_offset_leave id g shard : shard_offset (leave id g).2 shard = shard_offset g shard.
Proof.
  unfold leave. case_bool_decide; [|done]. by destruct (recompute_sticky _ _ _).
Qed.

Lemma shard_offset_commit shard seq g shard' :
  shard_offset (commit_offset shard seq g).2 shard' =
  if bool_decide (shard = shard') then Z.max seq (shard_offset g shard') else shard_offset g shard'.
Proof.
  unfold commit_offset, shard_offset. cbn [snd shard_offsets]. case_bool_decide as Hs.
  - subst. rewrite lookup_insert_eq. cbn. destruct (Z.ltb_spec (default 0 (shard_offsets g !! shard')) seq); lia.
  - by rewrite lookup_insert_ne.
Qed.

Lemma registry_offset_get r key shard : registry_shard_offset r key shard = shard_offset (get_group r key) shard.
Proof. unfold registry_shard_offset, get_group. by destruct (groups r !! key). Qed.

Lemma get_set_group r key key' g :
  get_group (set_group key g r) key' = if bool_decide (key = key') then g else get_group r key'.
Proof.
  unfold get_group, set_group. cbn [groups reg_num_shards]. case_bool_decide as Hk.
  - subst. by rewrite lookup_insert_eq.
  - by rewrite lookup_insert_ne.
Qed.

Lemma apply_registry_offset r op key shard :
  registry_shard_offset (apply_registry r op) key shard =
  match op with
  | RCommit k s seq =>
      if bool_decide (k = key /\ s = shard) then Z.max seq (registry_shard_offset r key shard) else registry_shard_offset r key shard
  | _ => registry_shard_offset r key shard
  end.
Proof.
  rewrite !registry_offset_get. destruct op as [k id|k id|k s seq]; cbn [apply_registry].
  - unfold registry_join. pose proof (shard_offset_join id (get_group r k) shard) as H. destruct (join id _) as [res g].
    cbn [snd] in *. rewrite get_set_group. by case_bool_decide; subst.
  - unfold registry_leave. destruct (groups r !! k) as [g0|] eqn:E; [|done].
    pose proof (shard_offset_leave id g0 shard) as H. destruct (leave id g0) as [res g]. cbn [snd] in *.
    rewrite get_set_group. case_bool_decide; [|done]. subst. rewrite H. unfold get_group. by rewrite E.
  - unfold registry_commit_offset. pose proof (shard_offset_commit s seq (get_group r k) shard) as H.
    destruct (commit_offset s seq _) as [res g]. cbn [snd] in *. rewrite get_set_group.
    destruct (decide (k = key)) as [->|Hk].
    + rewrite bool_decide_true by done. rewrite H. repeat case_bool_decide; tauto.
    + rewrite !bool_decide_false by tauto. done.
Qed.

(** The offset of a shard is the greatest sequence any consumer of the group
    ever committed for it, 0 if none was: consumers joining and leaving, other
    groups, other shards and stale commits do not move it; and a commit says
    "advanced" exactly when it raises the offset. *)
Theorem offset_is_greatest_commit (num_shards : Z) (ops : list RegistryOp) (key : GroupKey) (shard seq : Z) :
  let r := run_registry num_shards ops in
  registry_shard_offset r key shard = foldr Z.max 0 (committed key shard ops) /\
  (registry_commit_offset key shard seq r).1 = (registry_shard_offset r key shard <? seq).
Proof.
  intros r. split.
  - subst r. induction ops as [|op ops IH] using rev_ind.
    { unfold registry_shard_offset, run_registry. cbn [foldl registry_new groups]. by rewrite lookup_empty. }
    unfold run_registry in *. rewrite foldl_app. cbn [foldl]. rewrite apply_registry_offset.
    unfold committed in *. rewrite omap_app, foldr_app. cbn [omap list_omap].
    assert (forall l a, 0 <= a -> foldr Z.max a l = Z.max a (foldr Z.max 0 l)) as Hf.
    { intros l a Ha. induction l as [|x l IHl]; simpl; [lia|]. rewrite IHl. lia. }
    destruct op as [| |k s q]; [done|done|]. case_bool_decide; [|done]. cbn [foldr]. rewrite Hf by lia. rewrite <- IH.
    assert (0 <= foldr Z.max 0 (committed key shard ops)) as Hp.
    { generalize (committed key shard ops). intros l. induction l; simpl; lia. }
    unfold committed in Hp. rewrite <- IH in Hp. lia.
  - rewrite registry_offset_get. unfold registry_commit_offset, commit_offset. reflexivity.
Qed.

(** ** Witnesses *)

Local Open Scope string_scope.

Definition demo_ops : list GroupOp := [OpJoin "a"; OpJoin "b"; OpJoin "c"; OpLeave "a"; OpCommit 1 7].

Lemma assignments_partition_shards_witness :
  let g := run_group 7 demo_ops in
  members g = ["b"; "c"] /\ assigned g "b" = Some [1; 4; 5; 6] /\ assigned g "c" = Some [0; 2; 3] /\
  exists id l, assigned g id = Some l /\ 6 ∈ l /\ forall id' l', assigned g id' = Some l' -> 6 ∈ l' -> id' = id.
Proof.
  destruct (assignments_partition_shards 7 demo_ops ltac:(lia) ltac:(by vm_compute)) as (H & _ & _).
  split; [by vm_compute|]. split; [by vm_compute|]. split; [by vm_compute|]. apply H. lia.
Defined.

(** "a" and "b" each lose one of their shards to "c"; an assignment that gives "a"
    other shards keeps fewer. *)
Lemma rebalance_moves_least_witness :
  let g := run_group 6 [OpJoin "a"; OpJoin "b"] in
  let alt : gmap string (list Z) := {["a" := [1; 2]; "b" := [3; 5]; "c" := [0; 4]]} in
  (kept_total ["a"; "b"; "c"] (assignments g) alt <= kept_total ["a"; "b"; "c"] (assignments g) (assignments (apply_op g (OpJoin "c"))))%nat /\
  kept_total ["a"; "b"; "c"] (assignments g) (assignments (apply_op g (OpJoin "c"))) = 4%nat.
Proof.
  split; [|by vm_compute].
  apply (rebalance_moves_least 6 [OpJoin "a"; OpJoin "b"] (OpJoin "c") {["a" := [1; 2]; "b" := [3; 5]; "c" := [0; 4]]} ltac:(lia)).
  intros id Hid. assert (id ∈ ["a"; "b"; "c"]) as Hid' by exact Hid.
  repeat (apply elem_of_cons in Hid' as [->|Hid']; [by vm_compute|]). by apply elem_of_nil in Hid'.
Defined.

(** "b" leaves: "a" is told, "b" is not. *)
Lemma last_changed_exact_witness :
  let g := run_group 4 [OpJoin "a"; OpJoin "b"] in
  "a" ∈ last_changed (leave "b" g).2 /\ ~ "b" ∈ last_changed (leave "b" g).2 /\
  assigned (leave "b" g).2 "b" <> assigned g "b".
Proof.
  destruct (last_changed_exact 4 [OpJoin "a"; OpJoin "b"] "b" ltac:(lia)) as [_ H].
  specialize (H ltac:(by vm_compute; right; left)). split; [|split; [|by vm_compute]].
  - apply H. split; [done|]. by vm_compute.
  - intros Hb. apply H in Hb as [Hb _]. by apply Hb.
Defined.
