(* ===== verification/Leader.v ===== *)
(** * Leader election of the brokers ([logdb-broker/src/leader.rs])

    Every broker scans the claims in a meta stream and, group by group, finds out
    who leads, renews its own claims and takes over groups whose leader has gone
    silent.  The meta stream is the only thing the brokers share.

    A pass of one broker reads the clock once.  What becomes of each append is a
    parameter: the claim is stored and the reply arrives, it is stored and the
    reply is lost, or it is not stored.  So is what its scan receives: the server may
    refuse it, and the messages may break off with an error, which the broker takes for
    the end.  The order in which a [HashMap] is walked
    is that of [map_to_list]. *)
From stdpp Require Import base gmap list numbers sorting strings.
From Stdlib Require Import ZArith Lia Ascii.
From S2P Require Import Prelude RustStd Coordinator.
Open Scope Z_scope.

Record LeaderClaim := mkClaim {
  lc_broker_id : string;
  lc_address : string;
  lc_epoch : Z;
  lc_timestamp_ms : Z;
  lc_group : option string;
}.

Record LeaderInfo := mkLeaderInfo { li_broker_id : string; li_address : string; li_epoch : Z }.

Inductive LeaderState :=
  | Leader (epoch : Z)
  | Standby (leader : LeaderInfo).

Record LeaderElection := mkElection {
  le_broker_id : string;
  le_address : string;
  le_lease_ms : Z;
  le_state : gmap GroupKey LeaderState;
}.

Definition DEFAULT_LEASE_MS : Z := 10000.

(** [LeaderElection::new]. *)
Definition election_new (broker_id address : string) (lease_ms : option Z) : LeaderElection :=
  mkElection broker_id address (default DEFAULT_LEASE_MS lease_ms) ∅.

(** [require_leader]: [None] is accepted, [Some addr] the address to go to. *)
Definition require_leader (e : LeaderElection) (key : GroupKey) : option string :=
  match le_state e !! key with
  | Some (Leader _) => None
  | Some (Standby leader) => Some (li_address leader)
  | None => None
  end.

Definition is_leader (e : LeaderElection) (key : GroupKey) : bool :=
  match le_state e !! key with Some (Leader _) => true | _ => false end.

(** ** Group names on the wire *)

(** The name of a group in a claim, [format!("{}/{}/{}")]. *)
Definition format_group (k : GroupKey) : string :=
  (gk_namespace k +:+ "/" +:+ gk_stream k +:+ "/" +:+ gk_group k)%string.

Fixpoint split_slash (s : string) : option (string * string) :=
  match s with
  | EmptyString => None
  | String c s =>
      if Ascii.eqb c "/" then Some (EmptyString, s)
      else '(a, b) ← split_slash s; Some (String c a, b)
  end.

(** [splitn(3, '/')] with the test for three parts. *)
Definition parse_group (s : string) : option GroupKey :=
  '(ns, rest) ← split_slash s;
  '(st, gr) ← split_slash rest;
  Some (mkGroupKey ns st gr).

(** ** One pass *)

Definition now_age (now ts : Z) : Z := Z.max 0 (now - ts).

(** [max_by_key(|c| (c.epoch, c.timestamp_ms))]: the last of the greatest. *)
Definition claim_le (a b : LeaderClaim) : bool :=
  (lc_epoch a <? lc_epoch b) || ((lc_epoch a =? lc_epoch b) && (lc_timestamp_ms a <=? lc_timestamp_ms b)).

Definition later (best : option LeaderClaim) (c : LeaderClaim) : option LeaderClaim :=
  match best with
  | None => Some c
  | Some b => if claim_le b c then Some c else Some b
  end.

Definition latest_claim (cs : list LeaderClaim) : option LeaderClaim := foldl later None cs.

Definition max_epoch (cs : list LeaderClaim) : Z := foldr (fun c m => Z.max (lc_epoch c) m) 0 cs.

(** The claims of each group, in the order of the scan. *)
Definition group_claims (claims : list LeaderClaim) : gmap GroupKey (list LeaderClaim) :=
  foldl (fun m c =>
    match lc_group c ≫= parse_group with
    | Some key => <[key := default [] (m !! key) ++ [c]]> m
    | None => m
    end) ∅ claims.

Inductive AppendAnswer := Stored | ReplyLost | NotStored.

(** The meta stream during a pass, with what becomes of the appends to come; an
    append after them is stored. *)
Record MetaLog := mkMeta { meta_claims : list LeaderClaim; answers : list AppendAnswer }.

(** [append_claim]; the answer is whether it was [Ok]. *)
Definition append_claim (e : LeaderElection) (now : Z) (key : GroupKey) (epoch : Z) (m : MetaLog) : bool * MetaLog :=
  let claim := mkClaim (le_broker_id e) (le_address e) epoch now (Some (format_group key)) in
  let a := default Stored (head (answers m)) in
  let cs := match a with NotStored => meta_claims m | _ => meta_claims m ++ [claim] end in
  (match a with Stored => true | _ => false end, mkMeta cs (tail (answers m))).

(** The first loop for one group: the state it enters, if any. *)
Definition judge_group (e : LeaderElection) (now : Z) (cs : list LeaderClaim) : option LeaderState :=
  latest ← latest_claim cs;
  if now_age now (lc_timestamp_ms latest) <=? le_lease_ms e then
    Some (if bool_decide (lc_broker_id latest = le_broker_id e) then Leader (lc_epoch latest)
          else Standby (mkLeaderInfo (lc_broker_id latest) (lc_address latest) (lc_epoch latest)))
  else None.

(** With the heartbeat for a group this broker leads. *)
Definition judge_step (e : LeaderElection) (now : Z) (st : gmap GroupKey LeaderState * MetaLog)
    (kc : GroupKey * list LeaderClaim) : gmap GroupKey LeaderState * MetaLog :=
  let '(new_state, m) := st in
  match judge_group e now kc.2 with
  | Some (Leader epoch) => (<[kc.1 := Leader epoch]> new_state, (append_claim e now kc.1 epoch m).2)
  | Some s => (<[kc.1 := s]> new_state, m)
  | None => (new_state, m)
  end.

(** The second loop for one group: a claim for the next epoch, then for epoch 1
    when that was not acknowledged. *)
Definition claim_step (e : LeaderElection) (now : Z) (st : gmap GroupKey LeaderState * MetaLog)
    (kc : GroupKey * list LeaderClaim) : gmap GroupKey LeaderState * MetaLog :=
  let '(new_state, m) := st in
  match new_state !! kc.1 with
  | Some _ => (new_state, m)
  | None =>
      let next := Z.min (max_epoch kc.2 + 1) (2 ^ 64 - 1) in
      let '(ok, m) := append_claim e now kc.1 next m in
      if ok then (<[kc.1 := Leader next]> new_state, m)
      else
        let '(ok, m) := append_claim e now kc.1 1 m in
        (if ok then <[kc.1 := Leader 1]> new_state else new_state, m)
  end.

(** The third loop: a heartbeat for every group this broker leads. *)
Definition heartbeat_step (e : LeaderElection) (now : Z) (m : MetaLog) (ks : GroupKey * LeaderState) : MetaLog :=
  match ks.2 with
  | Leader epoch => (append_claim e now ks.1 epoch m).2
  | Standby _ => m
  end.

(** The part of [scan_and_reconcile] after the scan, on the claims it saw. *)
Definition reconcile (e : LeaderElection) (now : Z) (claims : list LeaderClaim) (m : MetaLog) : LeaderElection * MetaLog :=
  let by_group := map_to_list (group_claims claims) in
  let '(new_state, m) := foldl (judge_step e now) (∅, m) by_group in
  let '(new_state, m) := foldl (claim_step e now) (new_state, m) by_group in
  let m := foldl (heartbeat_step e now) m (map_to_list new_state) in
  (mkElection (le_broker_id e) (le_address e) (le_lease_ms e) new_state, m).

(** A record of the meta stream as a scan delivers it: its event type, and the claim
    its content decodes to, if it does. *)
Record ScannedRecord := mkScanned { sd_event_type : string; sd_claim : option LeaderClaim }.

Definition EVENT_LEADER_CLAIM : string := "leader_claim".

(** The answer to a scan: refused, or the messages that arrive, [inr] an error. *)
Inductive ScanReply := ScanRefused | ScanStream (messages : list (list ScannedRecord + string)).

(** The loop [while let Ok(Some(..))]: an error ends it like the end of the stream. *)
Fixpoint collect_claims (messages : list (list ScannedRecord + string)) : list LeaderClaim :=
  match messages with
  | [] => []
  | inr _ :: _ => []
  | inl records :: messages =>
      omap (fun r => if String.eqb (sd_event_type r) EVENT_LEADER_CLAIM then sd_claim r else None) records ++ collect_claims messages
  end.

(** [scan_claims]. *)
Definition scan_claims (reply : ScanReply) : option (list LeaderClaim) :=
  match reply with ScanRefused => None | ScanStream messages => Some (collect_claims messages) end.

(** [scan_and_reconcile]; the meta stream is the one the appends go to. *)
Definition scan_and_reconcile (e : LeaderElection) (now : Z) (reply : ScanReply) (m : MetaLog) : LeaderElection * MetaLog :=
  match scan_claims reply with
  | Some claims => reconcile e now claims m
  | None => (e, m)
  end.

(** ** Names *)

Lemma split_slash_app a b :
  (forall i, String.get i a <> Some "/"%char) -> split_slash (a +:+ String "/" b) = Some (a, b).
Proof.
  induction a as [|c a IH]; intros Hno; [done|].
  change (String c a +:+ String "/" b) with (String c (a +:+ String "/" b)). cbn [split_slash].
  destruct (Ascii.eqb_spec c "/") as [->|Hc]; [by specialize (Hno 0%nat)|].
  rewrite IH; [done|]. intros i. by specialize (Hno (S i)).
Qed.

Lemma split_slash_inv s a b : split_slash s = Some (a, b) -> s = a +:+ String "/" b.
Proof.
  revert a b. induction s as [|c s IH]; intros a b; cbn [split_slash]; [done|].
  destruct (Ascii.eqb_spec c "/") as [->|Hc]; [by intros [= <- <-]|].
  destruct (split_slash s) as [[a' b']|] eqn:E; [|done]. cbn. intros [= <- <-].
  change (String c a' +:+ String "/" b') with (String c (a' +:+ String "/" b')). by rewrite (IH a' b').
Qed.

(** A name that parses is the name of what it parses to. *)
Lemma parse_format s k : parse_group s = Some k -> format_group k = s.
Proof.
  unfold parse_group. destruct (split_slash s) as [[ns rest]|] eqn:E1; [|done]. cbn.
  destruct (split_slash rest) as [[st gr]|] eqn:E2; [|done]. cbn. intros [= <-]. unfold format_group. cbn.
  apply split_slash_inv in E1 as ->, E2 as ->. done.
Qed.

(** ** The claims of a group *)

Definition claims_of (key : GroupKey) (cs : list LeaderClaim) : list LeaderClaim :=
  filter (fun c => lc_group c ≫= parse_group = Some key) cs.

Lemma group_claims_lookup cs key :
  group_claims cs !! key = if bool_decide (claims_of key cs = []) then None else Some (claims_of key cs).
Proof.
  induction cs as [|c cs IH] using rev_ind; [done|]. unfold group_claims, claims_of in *. rewrite foldl_app, filter_app. cbn [foldl].
  destruct (lc_group c ≫= parse_group) as [k|] eqn:E.
  - destruct (decide (k = key)) as [->|Hk].
    + rewrite lookup_insert_eq, IH, filter_cons_True, filter_nil by done. rewrite (bool_decide_false (_ ++ [c] = [])).
      { case_bool_decide as H; [by rewrite H|done]. }
      by destruct (filter _ cs).
    + rewrite lookup_insert_ne, IH, filter_cons_False, filter_nil, app_nil_r by (rewrite ?E; congruence). done.
  - rewrite IH, filter_cons_False, filter_nil, app_nil_r by (rewrite ?E; congruence). done.
Qed.

Lemma group_claims_key cs key l : group_claims cs !! key = Some l -> l = claims_of key cs /\ l <> [] /\ exists s, parse_group s = Some key.
Proof.
  rewrite group_claims_lookup. case_bool_decide as H; [done|]. intros [= <-]. split; [done|]. split; [done|].
  destruct (claims_of key cs) as [|c l] eqn:E; [done|]. assert (c ∈ claims_of key cs) as Hc by (rewrite E; left).
  unfold claims_of in Hc. apply list_elem_of_filter in Hc as [Hc _]. destruct (lc_group c) as [s|]; [|done]. by exists s.
Qed.

(** ** What a pass does when its appends are stored *)

Definition claim_by (e : LeaderElection) (now : Z) (key : GroupKey) (epoch : Z) : LeaderClaim :=
  mkClaim (le_broker_id e) (le_address e) epoch now (Some (format_group key)).

(** The claims appended so far are for groups this broker leads. *)
Definition appended (e : LeaderElection) (now : Z) (cs : list LeaderClaim) (st : gmap GroupKey LeaderState * MetaLog) : Prop :=
  exists app, st.2 = mkMeta (cs ++ app) [] /\
    Forall (fun c => exists key ep, st.1 !! key = Some (Leader ep) /\ c = claim_by e now key ep) app.

Lemma append_stored e now key ep cs : append_claim e now key ep (mkMeta cs []) = (true, mkMeta (cs ++ [claim_by e now key ep]) []).
Proof. done. Qed.

Lemma appended_insert e now cs ns m key s :
  ns !! key = None -> appended e now cs (ns, m) -> appended e now cs (<[key := s]> ns, m).
Proof.
  intros Hno (app & Hm & Happ). exists app. split; [done|]. eapply Forall_impl; [exact Happ|].
  intros c (k & ep & Hk & ->). exists k, ep. split; [|done]. cbn [fst] in *. rewrite lookup_insert_ne; [done|congruence].
Qed.

Lemma appended_claim e now cs ns m key ep :
  ns !! key = Some (Leader ep) -> appended e now cs (ns, m) ->
  exists m', append_claim e now key ep m = (true, m') /\ appended e now cs (ns, m') /\ claim_by e now key ep ∈ meta_claims m'.
Proof.
  intros Hk (app & Hm & Happ). cbn [snd] in Hm. subst m. rewrite append_stored. eexists. split; [done|]. split.
  - exists (app ++ [claim_by e now key ep]). split; [by rewrite app_assoc|]. apply Forall_app. split; [done|].
    constructor; [|constructor]. by exists key, ep.
  - cbn [meta_claims]. apply elem_of_app. right. by apply list_elem_of_singleton.
Qed.

Lemma judge_step_ok e now cs ns m kc :
  ns !! kc.1 = None -> appended e now cs (ns, m) ->
  appended e now cs (judge_step e now (ns, m) kc) /\
  (judge_step e now (ns, m) kc).1 = (match judge_group e now kc.2 with Some s => <[kc.1 := s]> ns | None => ns end).
Proof.
  intros Hno Happ. cbn [judge_step]. destruct (judge_group e now kc.2) as [[ep|l]|]; [| |done].
  - pose proof (appended_insert _ _ _ _ _ _ (Leader ep) Hno Happ) as Happ'.
    destruct (appended_claim _ _ _ _ _ kc.1 ep (lookup_insert_eq _ _ _) Happ') as (m' & -> & Hm' & _). by split.
  - split; [by apply appended_insert|done].
Qed.

Lemma judge_loop e now cs l ns m :
  NoDup l.*1 -> (forall kc, kc ∈ l -> ns !! kc.1 = None) -> appended e now cs (ns, m) ->
  let st := foldl (judge_step e now) (ns, m) l in
  appended e now cs st /\
  (forall k, k ∉ l.*1 -> st.1 !! k = ns !! k) /\ (forall k c, (k, c) ∈ l -> st.1 !! k = judge_group e now c).
Proof.
  revert ns m. induction l as [|[k c] l IH]; intros ns m Hnd Hno Happ; cbn [foldl].
  { split_and!; [done|done|]. by intros ? ? ?%elem_of_nil. }
  csimpl in Hnd. apply NoDup_cons in Hnd as [Hk Hnd].
  destruct (judge_step_ok e now cs ns m (k, c) (Hno (k, c) ltac:(left)) Happ) as [Happ' Hns].
  destruct (judge_step e now (ns, m) (k, c)) as [ns' m']. cbn [fst snd] in *.
  assert (forall k', k' <> k -> ns' !! k' = ns !! k') as Hother.
  { intros k' Hne. subst ns'. destruct (judge_group e now c); [|done]. by rewrite lookup_insert_ne. }
  destruct (IH ns' m' Hnd) as (H1 & H2 & H3); [|done|].
  { intros kc Hkc. rewrite Hother; [apply Hno; by right|]. intros <-. apply Hk. by apply list_elem_of_fmap_2. }
  split_and!; [done| |].
  - intros k' Hk'. csimpl in Hk'. apply not_elem_of_cons in Hk' as [Hne Hk']. by rewrite H2, Hother.
  - intros k' c' [[= -> ->]|Hin]%elem_of_cons; [|by apply H3]. rewrite (H2 k Hk). subst ns'.
    destruct (judge_group e now c); [by rewrite lookup_insert_eq|]. by apply (Hno (k, c)); left.
Qed.

Definition next_epoch (c : list LeaderClaim) : Z := Z.min (max_epoch c + 1) (2 ^ 64 - 1).

Lemma claim_step_ok e now cs ns m kc :
  appended e now cs (ns, m) ->
  appended e now cs (claim_step e now (ns, m) kc) /\
  (claim_step e now (ns, m) kc).1 = match ns !! kc.1 with Some _ => ns | None => <[kc.1 := Leader (next_epoch kc.2)]> ns end.
Proof.
  intros Happ. cbn [claim_step]. fold (next_epoch kc.2). destruct (ns !! kc.1) as [s|] eqn:E; [done|].
  pose proof (appended_insert _ _ _ _ _ _ (Leader (next_epoch kc.2)) E Happ) as Happ'.
  destruct (appended_claim _ _ _ _ _ kc.1 _ (lookup_insert_eq _ _ _) Happ') as (m' & -> & Hm' & _). by split.
Qed.

Lemma claim_loop e now cs l ns m :
  NoDup l.*1 -> appended e now cs (ns, m) ->
  let st := foldl (claim_step e now) (ns, m) l in
  appended e now cs st /\
  (forall k, k ∉ l.*1 -> st.1 !! k = ns !! k) /\
  (forall k c, (k, c) ∈ l -> st.1 !! k = Some (default (Leader (next_epoch c)) (ns !! k))).
Proof.
  revert ns m. induction l as [|[k c] l IH]; intros ns m Hnd Happ; cbn [foldl].
  { split_and!; [done|done|]. by intros ? ? ?%elem_of_nil. }
  csimpl in Hnd. apply NoDup_cons in Hnd as [Hk Hnd].
  destruct (claim_step_ok e now cs ns m (k, c) Happ) as [Happ' Hns].
  destruct (claim_step e now (ns, m) (k, c)) as [ns' m']. cbn [fst snd] in *.
  assert (forall k', k' <> k -> ns' !! k' = ns !! k') as Hother.
  { intros k' Hne. subst ns'. destruct (ns !! k); [done|]. by rewrite lookup_insert_ne. }
  destruct (IH ns' m' Hnd Happ') as (H1 & H2 & H3). split_and!; [done| |].
  - intros k' Hk'. csimpl in Hk'. apply not_elem_of_cons in Hk' as [Hne Hk']. by rewrite H2, Hother.
  - intros k' c' [[= -> ->]|Hin]%elem_of_cons.
    + rewrite (H2 k Hk). subst ns'. destruct (ns !! k) eqn:E; [by rewrite E|by rewrite lookup_insert_eq].
    + rewrite (H3 k' c' Hin), Hother; [done|]. intros ->. apply Hk. by apply (list_elem_of_fmap_2 fst l (k, c')).
Qed.

Definition heartbeats (e : LeaderElection) (now : Z) (l : list (GroupKey * LeaderState)) : list LeaderClaim :=
  omap (fun ks => match ks.2 with Leader ep => Some (claim_by e now ks.1 ep) | Standby _ => None end) l.

Lemma heartbeat_loop e now l cs :
  foldl (heartbeat_step e now) (mkMeta cs []) l = mkMeta (cs ++ heartbeats e now l) [].
Proof.
  revert cs. induction l as [|[k s] l IH]; intros cs; cbn [foldl]; [by rewrite app_nil_r|].
  destruct s as [ep|i]; [|apply IH].
  change (heartbeat_step e now (mkMeta cs []) (k, Leader ep)) with (mkMeta (cs ++ [claim_by e now k ep]) []).
  rewrite IH, <- app_assoc. done.
Qed.

(** A pass whose appends are stored: what the broker thinks of each group, and
    which claims it adds. *)
Lemma reconcile_spec e now cs base :
  let '(e', m') := reconcile e now cs (mkMeta base []) in
  le_broker_id e' = le_broker_id e /\ le_address e' = le_address e /\ le_lease_ms e' = le_lease_ms e /\
  (forall k, le_state e' !! k = (fun c => default (Leader (next_epoch c)) (judge_group e now c)) <$> group_claims cs !! k) /\
  exists app, m' = mkMeta (base ++ app) [] /\
    Forall (fun c => exists key ep, le_state e' !! key = Some (Leader ep) /\ c = claim_by e now key ep) app /\
    (forall key ep, le_state e' !! key = Some (Leader ep) -> claim_by e now key ep ∈ app).
Proof.
  unfold reconcile. set (l := map_to_list (group_claims cs)).
  assert (NoDup l.*1) as Hnd by apply NoDup_fst_map_to_list.
  destruct (judge_loop e now base l ∅ (mkMeta base [])) as (A1 & A2 & A3);
    [done|intros; apply lookup_empty|exists []; by rewrite app_nil_r|].
  destruct (foldl (judge_step e now) _ l) as [ns1 m1].
  destruct (claim_loop e now base l ns1 m1 Hnd A1) as (B1 & B2 & B3).
  destruct (foldl (claim_step e now) _ l) as [ns m2]. cbn [fst] in *.
  destruct B1 as (app & Hm & Happ). cbn [fst snd] in Hm, Happ. subst m2. rewrite heartbeat_loop. cbn [le_broker_id le_address le_lease_ms le_state].
  split_and!; [done|done|done| |].
  - intros k. destruct (group_claims cs !! k) as [c|] eqn:E; cbn [fmap option_fmap option_map].
    + apply elem_of_map_to_list in E. by rewrite (B3 k c E), (A3 k c E).
    + assert (k ∉ l.*1) as Hk.
      { intros ([k' c] & -> & Hin)%list_elem_of_fmap. apply elem_of_map_to_list in Hin. cbn in E. congruence. }
      by rewrite (B2 k Hk), (A2 k Hk), lookup_empty.
  - exists (app ++ heartbeats e now (map_to_list ns)). split; [by rewrite app_assoc|]. split.
    + apply Forall_app. split; [done|]. apply Forall_forall. intros c ([k s] & Hin & Hc)%list_elem_of_omap.
      apply elem_of_map_to_list in Hin. cbn [fst snd] in Hc. destruct s as [ep|]; [|done]. injection Hc as <-. by exists k, ep.
    + intros key ep Hk. apply elem_of_app. right. apply list_elem_of_omap. exists (key, Leader ep).
      split; [by apply elem_of_map_to_list|done].
Qed.

(** ** The latest claim *)

Lemma latest_app cs1 cs2 : latest_claim (cs1 ++ cs2) = foldl later (latest_claim cs1) cs2.
Proof. apply foldl_app. Qed.

Lemma latest_elem cs c : latest_claim cs = Some c -> c ∈ cs.
Proof.
  revert c. induction cs as [|x cs IH] using rev_ind; intros c; [done|]. rewrite latest_app. cbn [foldl later].
  destruct (latest_claim cs) as [b|]; cbn [later]; [destruct (claim_le b x)|]; intros [= <-]; set_solver.
Qed.

Lemma latest_some cs : cs <> [] -> is_Some (latest_claim cs).
Proof.
  destruct cs as [|x cs _] using rev_ind; [done|]. intros _. rewrite latest_app. cbn [foldl].
  destruct (latest_claim cs) as [b|]; cbn [later]; [destruct (claim_le b x)|]; by eexists.
Qed.

Lemma max_epoch_ge cs c : c ∈ cs -> lc_epoch c <= max_epoch cs.
Proof.
  induction cs as [|x cs IH]; intros Hin; [by apply elem_of_nil in Hin|]. cbn [max_epoch foldr].
  apply elem_of_cons in Hin as [->|Hin]; [lia|]. specialize (IH Hin). unfold max_epoch in IH. lia.
Qed.

Lemma claim_le_spec a b :
  claim_le a b = true <-> lc_epoch a < lc_epoch b \/ (lc_epoch a = lc_epoch b /\ lc_timestamp_ms a <= lc_timestamp_ms b).
Proof. unfold claim_le. rewrite orb_true_iff, andb_true_iff, Z.ltb_lt, Z.eqb_eq, Z.leb_le. done. Qed.

(** No claim is greater than the latest. *)
Lemma latest_max cs c : latest_claim cs = Some c -> forall x, x ∈ cs -> claim_le x c = true.
Proof.
  revert c. induction cs as [|y cs IH] using rev_ind; intros c Hc x Hx; [done|]. rewrite latest_app in Hc. cbn [foldl] in Hc.
  apply elem_of_app in Hx. rewrite list_elem_of_singleton in Hx. assert (forall z, claim_le z z = true) as Hrefl by (intros z; apply claim_le_spec; lia).
  destruct (latest_claim cs) as [b|] eqn:E; cbn [later] in Hc.
  - specialize (IH b eq_refl). destruct (claim_le b y) eqn:Eb; injection Hc as <-; destruct Hx as [Hx| ->]; try done; [|by apply IH|].
    + specialize (IH x Hx). rewrite claim_le_spec in *. lia.
    + apply not_true_iff_false in Eb. rewrite claim_le_spec in *. lia.
  - injection Hc as <-. destruct Hx as [Hx| ->]; [|done]. destruct cs; [by apply elem_of_nil in Hx|].
    destruct (latest_some (l :: cs)) as [? ?]; [done|]. congruence.
Qed.

(** ** Several brokers, pass by pass *)

(** The meta stream and what each broker thinks, with the time of its last pass
    whose scan was not refused. *)
Record Cluster := mkCluster {
  cl_claims : list LeaderClaim;
  cl_brokers : gmap string (LeaderElection * Z);
}.

(** Two claims of a group with the same epoch and time are one broker's. *)
Definition untied (cs : list LeaderClaim) : Prop :=
  forall key x y, x ∈ claims_of key cs -> y ∈ claims_of key cs ->
    lc_epoch x = lc_epoch y -> lc_timestamp_ms x = lc_timestamp_ms y -> lc_broker_id x = lc_broker_id y.

(** The greatest claims are the broker's, made at [t]. *)
Definition top (id : string) (t : Z) (cs : list LeaderClaim) : Prop :=
  exists cl, cl ∈ cs /\ lc_broker_id cl = id /\ lc_timestamp_ms cl = t /\ forall x, x ∈ cs -> claim_le x cl = true.

Section Cluster.
Context (addr : string -> string) (lease : Z).

Definition broker_of (c : Cluster) (id : string) : LeaderElection :=
  match cl_brokers c !! id with Some (e, _) => e | None => election_new id (addr id) (Some lease) end.

(** One pass of the broker [id] at time [now] with the answer to its scan, with no
    other pass in between and with all appends stored. *)
Definition cluster_pass (c : Cluster) (p : string * Z * ScanReply) : Cluster :=
  let '(id, now, reply) := p in
  let '(e, m) := scan_and_reconcile (broker_of c id) now reply (mkMeta (cl_claims c) []) in
  match scan_claims reply with
  | Some _ => mkCluster (meta_claims m) (<[id := (e, now)]> (cl_brokers c))
  | None => mkCluster (meta_claims m) (cl_brokers c)
  end.

Definition run_cluster (claims : list LeaderClaim) (passes : list (string * Z * ScanReply)) : Cluster :=
  foldl cluster_pass (mkCluster claims ∅) passes.

(** A scan that is not refused brings every claim of the stream, in any order. *)
Definition scan_complete (c : Cluster) (reply : ScanReply) : Prop :=
  match scan_claims reply with Some cs => cs ≡ₚ cl_claims c | None => True end.

Fixpoint scans_complete (c : Cluster) (passes : list (string * Z * ScanReply)) : Prop :=
  match passes with
  | [] => True
  | p :: passes => scan_complete c p.2 /\ scans_complete (cluster_pass c p) passes
  end.

Definition claims_ok (T : Z) (cs : list LeaderClaim) : Prop :=
  Forall (fun c => lc_timestamp_ms c <= T /\ lc_epoch c <= 2 ^ 64 - 1) cs.

(** A broker that led a group within the last lease has the greatest claims. *)
Definition cluster_inv (T : Z) (c : Cluster) : Prop :=
  (claims_ok T (cl_claims c) /\ untied (cl_claims c)) /\
  forall id e t, cl_brokers c !! id = Some (e, t) ->
    le_broker_id e = id /\ le_lease_ms e = lease /\
    forall key, is_leader e key -> T - t <= lease -> top id t (claims_of key (cl_claims c)).

Lemma claims_of_by e now key key' ep cs c :
  group_claims cs !! key' = Some c ->
  lc_group (claim_by e now key' ep) ≫= parse_group = Some key <-> key' = key.
Proof.
  intros (_ & _ & s & Hs)%group_claims_key. cbn. rewrite (parse_format _ _ Hs), Hs. naive_solver.
Qed.

Lemma claims_of_elem key cs c : c ∈ claims_of key cs -> c ∈ cs.
Proof. unfold claims_of. by intros [_ ?]%list_elem_of_filter. Qed.

(** What a broker that leads after a pass at [now] saw: its epoch is none of the lower
    ones, and a claim with its epoch and the time of the pass is its own. *)
Lemma leader_epoch e now cs key ep :
  0 <= le_lease_ms e -> claims_ok now cs -> untied cs ->
  (fun c => default (Leader (next_epoch c)) (judge_group e now c)) <$> group_claims cs !! key = Some (Leader ep) ->
  ep <= 2 ^ 64 - 1 /\
  forall c, c ∈ claims_of key cs -> lc_epoch c <= ep /\ (lc_epoch c = ep -> lc_timestamp_ms c = now -> lc_broker_id c = le_broker_id e).
Proof.
  intros Hlease Hok Hun Hst. destruct (group_claims cs !! key) as [l|] eqn:E; [|done].
  apply group_claims_key in E as (-> & Hne & _). cbn in Hst. injection Hst as Hst. unfold claims_ok in Hok. rewrite Forall_forall in Hok.
  unfold judge_group in Hst. destruct (latest_some _ Hne) as [lt El]. rewrite El in Hst. cbn in Hst.
  pose proof (latest_elem _ _ El) as Hlt. pose proof (latest_max _ _ El) as Hmax.
  destruct (Z.leb_spec (now_age now (lc_timestamp_ms lt)) (le_lease_ms e)) as [Hage|Hage]; cbn in Hst.
  - case_bool_decide as Hb; [|done]. injection Hst as <-. split; [apply Hok; by eapply claims_of_elem|]. intros c Hc.
    pose proof (Hmax c Hc) as Hle%claim_le_spec. destruct (Hok c (claims_of_elem _ _ _ Hc)), (Hok lt (claims_of_elem _ _ _ Hlt)). split; [lia|].
    intros Hep Hts. rewrite <- Hb. apply (Hun key); [done|done|lia|lia].
  - injection Hst as <-. unfold next_epoch. split; [lia|]. intros c Hc. pose proof (max_epoch_ge _ _ Hc). destruct (Hok c (claims_of_elem _ _ _ Hc)). split; [lia|].
    intros Hep Hts. exfalso. pose proof (Hmax c Hc) as Hle%claim_le_spec. pose proof (max_epoch_ge _ _ Hlt). unfold now_age in Hage.
    destruct (Hok lt (claims_of_elem _ _ _ Hlt)). lia.
Qed.

Lemma judge_standby e now cs key id t :
  top id t (claims_of key cs) -> untied cs -> id <> le_broker_id e ->
  now - t <= le_lease_ms e -> 0 <= le_lease_ms e ->
  exists info, (fun c => default (Leader (next_epoch c)) (judge_group e now c)) <$> group_claims cs !! key = Some (Standby info).
Proof.
  intros (cl & Hcl & Hid & Ht & Hmax) Hun Hne Hage Hlease.
  assert (claims_of key cs <> []) as Hnil by (intros E; rewrite E in Hcl; by apply elem_of_nil in Hcl).
  rewrite group_claims_lookup, bool_decide_false by done. cbn [fmap option_fmap option_map].
  destruct (latest_some _ Hnil) as [lt El]. unfold judge_group. rewrite El. cbn [mbind option_bind]. unfold now_age.
  pose proof (latest_elem _ _ El) as Hlt. pose proof (latest_max _ _ El cl Hcl) as H1%claim_le_spec. pose proof (Hmax lt Hlt) as H2%claim_le_spec.
  rewrite (proj2 (Z.leb_le _ _)) by lia.
  rewrite bool_decide_false; [by eexists|]. rewrite <- (Hun key cl lt); [by subst id|done|done|lia|lia].
Qed.

Lemma broker_of_ok T c id : cluster_inv T c -> le_broker_id (broker_of c id) = id /\ le_lease_ms (broker_of c id) = lease.
Proof.
  intros [_ H]. unfold broker_of. destruct (cl_brokers c !! id) as [[e t]|] eqn:E; [|done]. by destruct (H _ _ _ E) as (? & ? & _).
Qed.

(** The claims a pass adds for a group, seen group by group. *)
Lemma added_claims_of e now cs (st : gmap GroupKey LeaderState) app key c :
  (forall k, st !! k = (fun c => default (Leader (next_epoch c)) (judge_group e now c)) <$> group_claims cs !! k) ->
  Forall (fun c => exists key ep, st !! key = Some (Leader ep) /\ c = claim_by e now key ep) app ->
  c ∈ claims_of key app <-> c ∈ app /\ exists ep, st !! key = Some (Leader ep) /\ c = claim_by e now key ep.
Proof.
  intros Hst Happ. rewrite Forall_forall in Happ.
  assert (forall k ep, st !! k = Some (Leader ep) -> forall k', lc_group (claim_by e now k ep) ≫= parse_group = Some k' <-> k = k') as Hk.
  { intros k ep Hk k'. rewrite Hst in Hk. destruct (group_claims cs !! k) as [l|] eqn:Hg; [|done]. by eapply claims_of_by. }
  unfold claims_of. rewrite list_elem_of_filter. split.
  - intros [Hx Hin]. split; [done|]. destruct (Happ _ Hin) as (k & ep & Hs & ->). apply (Hk k ep Hs) in Hx as <-. by exists ep.
  - intros (Hin & ep & Hs & ->). split; [|done]. by apply (Hk key ep Hs).
Qed.

Lemma claims_of_app key cs cs' c : c ∈ claims_of key (cs ++ cs') <-> c ∈ claims_of key cs \/ c ∈ claims_of key cs'.
Proof. unfold claims_of. by rewrite filter_app, elem_of_app. Qed.

Lemma claims_of_perm key cs cs' c : cs ≡ₚ cs' -> c ∈ claims_of key cs <-> c ∈ claims_of key cs'.
Proof. intros Hp. unfold claims_of. by rewrite Hp. Qed.

(** One pass that saw the claims [cs] of a stream with the claims [base]. *)
Lemma reconcile_inv T c id cs :
  0 <= lease -> cs ≡ₚ cl_claims c -> claims_ok T (cl_claims c) -> untied (cl_claims c) ->
  let e := broker_of c id in
  le_broker_id e = id -> le_lease_ms e = lease ->
  let '(e', m') := reconcile e T cs (mkMeta (cl_claims c) []) in
  le_broker_id e' = id /\ le_lease_ms e' = lease /\ claims_ok T (meta_claims m') /\ untied (meta_claims m') /\
  (forall key, is_leader e' key -> top id T (claims_of key (meta_claims m'))) /\
  (forall key id' t, id' <> id -> T - t <= lease -> top id' t (claims_of key (cl_claims c)) -> top id' t (claims_of key (meta_claims m'))).
Proof.
  intros Hlease Hp Hok Hun e Hid Hle. set (base := cl_claims c) in *.
  assert (claims_ok T cs) as Hokc by (unfold claims_ok; by rewrite Hp).
  assert (untied cs) as Hunc by (intros key x y; rewrite !(claims_of_perm _ _ _ _ Hp); apply Hun).
  pose proof (reconcile_spec e T cs base) as Hr. destruct (reconcile e T cs (mkMeta base [])) as [e' m'].
  destruct Hr as (Hb & _ & Hl & Hst & app & -> & Happ & Hhb). cbn [meta_claims].
  pose proof (fun key x => added_claims_of e T cs _ app key x Hst Happ) as Hof.
  assert (forall key ep, le_state e' !! key = Some (Leader ep) -> ep <= 2 ^ 64 - 1 /\ forall x, x ∈ claims_of key base ->
    lc_epoch x <= ep /\ (lc_epoch x = ep -> lc_timestamp_ms x = T -> lc_broker_id x = id)) as Hlead.
  { intros key ep Hk. rewrite Hst in Hk. destruct (leader_epoch e T cs key ep ltac:(lia) Hokc Hunc Hk) as [H1 H2]. split; [done|].
    intros x Hx. rewrite <- (claims_of_perm _ _ _ _ Hp) in Hx. rewrite <- Hid. by apply H2. }
  assert (forall x, x ∈ base -> lc_timestamp_ms x <= T) as Hts by (intros x Hx; by apply (proj1 (Forall_forall _ _) Hok)).
  split; [congruence|]. split; [congruence|]. split_and!.
  - apply Forall_app. split; [done|]. eapply Forall_impl; [exact Happ|]. intros x (k & ep & Hk & ->). cbn. split; [lia|]. by apply (Hlead k ep).
  - intros key x y [Hx|Hx]%claims_of_app [Hy|Hy]%claims_of_app; [by apply (Hun key)| | |].
    + apply Hof in Hy as (_ & ep & Hk & ->). cbn. rewrite Hid. intros H1 H2. by apply (Hlead key ep Hk).
    + apply Hof in Hx as (_ & ep & Hk & ->). cbn. rewrite Hid. intros H1 H2. symmetry. by apply (Hlead key ep Hk).
    + apply Hof in Hx as (_ & ? & _ & ->), Hy as (_ & ? & _ & ->). done.
  - intros key Hk. unfold is_leader in Hk. destruct (le_state e' !! key) as [[ep|]|] eqn:Ek; [|done|done].
    exists (claim_by e T key ep). split; [|split; [done|split; [done|]]].
    + apply claims_of_app. right. apply Hof. split; [by apply Hhb|by exists ep].
    + intros x [Hx|Hx]%claims_of_app; apply claim_le_spec; cbn.
      * destruct (Hlead key ep Ek) as [_ H]. destruct (H x Hx). pose proof (Hts x (claims_of_elem _ _ _ Hx)). lia.
      * apply Hof in Hx as (_ & ep' & Hk' & ->). cbn. rewrite Ek in Hk'. injection Hk' as <-. lia.
  - intros key id' t Hne Ht Htop.
    assert (top id' t (claims_of key cs)) as Htop'.
    { destruct Htop as (cl & H1 & H2 & H3 & H4). exists cl. rewrite (claims_of_perm _ _ _ _ Hp). split_and!; try done.
      intros x. rewrite (claims_of_perm _ _ _ _ Hp). apply H4. }
    destruct (judge_standby e T cs key id' t Htop' Hunc) as [info Hinfo]; [congruence|lia|lia|]. rewrite <- Hst in Hinfo.
    destruct Htop as (cl & H1 & H2 & H3 & H4). exists cl. split; [apply claims_of_app; by left|]. split_and!; try done.
    intros x [Hx|Hx]%claims_of_app; [by apply H4|]. apply Hof in Hx as (_ & ep & Hk & _). congruence.
Qed.

Lemma cluster_pass_inv T T' c id reply :
  0 <= lease -> T <= T' -> scan_complete c reply -> cluster_inv T c -> cluster_inv T' (cluster_pass c (id, T', reply)).
Proof.
  intros Hlease HT Hcomp Hinv. destruct (broker_of_ok T c id Hinv) as [Hid Hle]. destruct Hinv as [[Hok Hun] Hbr].
  assert (claims_ok T' (cl_claims c)) as Hok' by (eapply Forall_impl; [exact Hok|]; cbn; lia).
  unfold cluster_pass, scan_and_reconcile. unfold scan_complete in Hcomp. destruct (scan_claims reply) as [cs|].
  - pose proof (reconcile_inv T' c id cs Hlease Hcomp Hok' Hun Hid Hle) as Hr. destruct (reconcile _ _ _ _) as [e' m'].
    destruct Hr as (R1 & R2 & R3 & R4 & R5 & R6). split; [done|]. cbn [cl_brokers cl_claims]. intros id' e'' t Hlk.
    destruct (decide (id = id')) as [<-|Hne].
    + rewrite lookup_insert_eq in Hlk. injection Hlk as <- <-. split_and!; [done|done|]. intros key Hk _. by apply R5.
    + rewrite lookup_insert_ne in Hlk by done. destruct (Hbr _ _ _ Hlk) as (H1 & H2 & H3). split_and!; [done|done|].
      intros key Hk Ht. apply R6; [done|done|]. apply H3; [done|lia].
  - split; [done|]. intros id' e t Hlk. destruct (Hbr _ _ _ Hlk) as (H1 & H2 & H3). split_and!; [done|done|].
    intros key Hk Ht. apply H3; [done|lia].
Qed.

Lemma run_passes_inv T passes c :
  0 <= lease -> cluster_inv T c -> StronglySorted Z.le (T :: passes.*1.*2) -> scans_complete c passes ->
  cluster_inv (List.last passes.*1.*2 T) (foldl cluster_pass c passes).
Proof.
  intros Hlease. revert T c. induction passes as [|[[id t] reply] passes IH]; intros T c Hinv Hs Hc; [done|].
  destruct Hc as [Hc1 Hc]. rewrite !fmap_cons, last_cons_default in *. cbn [foldl fst snd] in *. inversion_clear Hs as [|? ? Hs' Hle].
  apply Forall_cons in Hle as [Hle _]. apply IH; [by apply (cluster_pass_inv T)|done|done].
Qed.
End Cluster.

(** C19: when the passes of the brokers do not overlap, their appends are stored and
    their clocks agree, a group never has two leaders: of the brokers whose last pass
    that scanned lies within the lease, at most one thinks it leads.  A scan may be
    refused; one that is not has to bring every claim appended before, in any order
    (an error within the scan is taken for its end, and a claim that the log has not
    committed is not found: [partial_scan_two_leaders]).  The claims there were
    before have epochs in range and no times in the future, and two of a group with the
    same epoch and time are one broker's. *)
Theorem one_leader_per_lease (addr : string -> string) (lease t0 now : Z) (claims : list LeaderClaim)
    (passes : list (string * Z * ScanReply)) (key : GroupKey) (a b : string) (ea eb : LeaderElection) (ta tb : Z) :
  0 <= lease -> claims_ok t0 claims -> untied claims -> StronglySorted Z.le (t0 :: passes.*1.*2) ->
  scans_complete addr lease (mkCluster claims ∅) passes ->
  let c := run_cluster addr lease claims passes in
  cl_brokers c !! a = Some (ea, ta) -> is_leader ea key -> now - ta <= lease ->
  cl_brokers c !! b = Some (eb, tb) -> is_leader eb key -> now - tb <= lease ->
  List.last passes.*1.*2 t0 <= now ->
  a = b.
Proof.
  intros Hlease Hok Hun Hs Hc c Ha La Ta Hb Lb Tb Hnow.
  assert (cluster_inv lease t0 (mkCluster claims ∅)) as H0 by (split; [done|]; intros id e t; cbn; by rewrite lookup_empty).
  destruct (run_passes_inv addr lease t0 passes _ Hlease H0 Hs Hc) as [[_ Hunt] Hinv]. fold (run_cluster addr lease claims passes) in Hinv, Hunt. fold c in Hinv, Hunt.
  destruct (Hinv _ _ _ Ha) as (_ & _ & H1). destruct (Hinv _ _ _ Hb) as (_ & _ & H2).
  destruct (H1 key La ltac:(lia)) as (ca & Hca & <- & _ & Ma). destruct (H2 key Lb ltac:(lia)) as (cb & Hcb & <- & _ & Mb).
  pose proof (Ma cb Hcb) as M1%claim_le_spec. pose proof (Mb ca Hca) as M2%claim_le_spec. apply (Hunt key); [done|done|lia|lia].
Qed.

(** The name of a group in a claim is read back as the group when its namespace
    and stream have no slash; the group's own name may have some. *)
Theorem group_name_round_trip (k : GroupKey) :
  (forall i, String.get i (gk_namespace k) <> Some "/"%char) -> (forall i, String.get i (gk_stream k) <> Some "/"%char) ->
  parse_group (format_group k) = Some k.
Proof.
  intros H1 H2. unfold parse_group, format_group.
  change ("/" +:+ gk_stream k +:+ "/" +:+ gk_group k) with (String "/" (gk_stream k +:+ String "/" (gk_group k))).
  rewrite (split_slash_app _ _ H1). cbn [mbind option_bind]. rewrite (split_slash_app _ _ H2). by destruct k.
Qed.

(** ** Where the election falls short *)

Lemma reconcile_nothing e now m :
  reconcile e now [] m = (mkElection (le_broker_id e) (le_address e) (le_lease_ms e) ∅, m).
Proof. done. Qed.

(** The brokers only ever claim groups that already have a claim: from a meta
    stream without one none is ever made, and every broker goes on accepting the
    requests of every group. *)
Theorem first_claim_never_made (addr : string -> string) (lease : Z) (passes : list (string * Z * ScanReply)) :
  scans_complete addr lease (mkCluster [] ∅) passes ->
  let c := run_cluster addr lease [] passes in
  cl_claims c = [] /\
  forall id e t key, cl_brokers c !! id = Some (e, t) -> is_leader e key = false /\ require_leader e key = None.
Proof.
  assert (forall c, cl_claims c = [] ->
    (forall id e t key, cl_brokers c !! id = Some (e, t) -> is_leader e key = false /\ require_leader e key = None) ->
    scans_complete addr lease c passes ->
    let c' := foldl (cluster_pass addr lease) c passes in cl_claims c' = [] /\
    forall id e t key, cl_brokers c' !! id = Some (e, t) -> is_leader e key = false /\ require_leader e key = None) as H.
  { induction passes as [|[[id now] reply] passes IH]; intros c Hc Hb Hs; [done|]. destruct Hs as [Hs1 Hs]. cbn [foldl].
    assert (cl_claims (cluster_pass addr lease c (id, now, reply)) = [] /\
      forall id' e t key, cl_brokers (cluster_pass addr lease c (id, now, reply)) !! id' = Some (e, t) ->
        is_leader e key = false /\ require_leader e key = None) as [H1 H2]; [|by apply IH].
    unfold cluster_pass, scan_and_reconcile. unfold scan_complete in Hs1. cbn [snd] in Hs1. destruct (scan_claims reply) as [cs|]; [|done].
    rewrite Hc in Hs1 |- *. apply Permutation_nil_r in Hs1 as ->. rewrite reconcile_nothing. split; [done|].
    intros id' e t key Hlk. cbn [cl_brokers] in Hlk. destruct (decide (id = id')) as [<-|Hne].
    - rewrite lookup_insert_eq in Hlk. injection Hlk as <- <-. done.
    - rewrite lookup_insert_ne in Hlk by done. by eapply Hb. }
  intros Hs. apply H; [done| |done]. intros id e t key. cbn. by rewrite lookup_empty.
Qed.

Local Open Scope string_scope.

Definition demo_key : GroupKey := mkGroupKey "ns" "st" "g".

Definition demo_claim : LeaderClaim := mkClaim "old" "addr-old" 4 100 (Some "ns/st/g").

(** Two brokers that scan before either has appended both take the group over,
    in the same epoch. *)
Theorem overlapping_passes_two_leaders :
  let a := election_new "a" "addr-a" None in
  let b := election_new "b" "addr-b" None in
  let '(a, m) := reconcile a 20000 [demo_claim] (mkMeta [demo_claim] []) in
  let '(b, _) := reconcile b 20000 [demo_claim] m in
  le_state a !! demo_key = Some (Leader 5) /\ le_state b !! demo_key = Some (Leader 5).
Proof. by vm_compute. Qed.

Definition scanned (c : LeaderClaim) : ScannedRecord := mkScanned "leader_claim" (Some c).

(** "a" has taken the group over; the scan of "b" breaks off with an error before the
    claim of "a" (or does not find it yet), and "b" takes the group over too. *)
Theorem partial_scan_two_leaders :
  let '(a, m) := scan_and_reconcile (election_new "a" "addr-a" None) 20000 (ScanStream [inl [scanned demo_claim]]) (mkMeta [demo_claim] []) in
  let '(b, _) := scan_and_reconcile (election_new "b" "addr-b" None) 21000 (ScanStream [inl [scanned demo_claim]; inr "reset"]) m in
  le_state a !! demo_key = Some (Leader 5) /\ le_state b !! demo_key = Some (Leader 5).
Proof. by vm_compute. Qed.

(** A stream name may contain a slash; its groups' claims are read as another
    group's. *)
Theorem slash_in_stream_misread :
  parse_group (format_group (mkGroupKey "ns" "a/b" "g")) = Some (mkGroupKey "ns" "a" "b/g").
Proof. by vm_compute. Qed.

(** ** Witnesses *)

Definition demo_turns : list (string * Z) := [("a", 20000); ("b", 23000); ("a", 24000); ("b", 40000); ("a", 41000)].

(** The passes at these times, each with a scan that brings all claims in one message. *)
Fixpoint full_passes (c : Cluster) (turns : list (string * Z)) : list (string * Z * ScanReply) :=
  match turns with
  | [] => []
  | p :: turns =>
      let p := (p, ScanStream [inl (scanned <$> cl_claims c)]) in
      p :: full_passes (cluster_pass (fun id => id) 10000 c p) turns
  end.

Definition demo_passes : list (string * Z * ScanReply) := full_passes (mkCluster [demo_claim] ∅) demo_turns.

Lemma collect_scanned cs : collect_claims [inl (scanned <$> cs)] = cs.
Proof.
  cbn [collect_claims]. rewrite app_nil_r. induction cs as [|c cs IH]; [done|].
  transitivity (c :: omap (fun r => if String.eqb (sd_event_type r) EVENT_LEADER_CLAIM then sd_claim r else None) (scanned <$> cs)); [done|]. by rewrite IH.
Qed.

Lemma full_passes_complete c turns : scans_complete (fun id => id) 10000 c (full_passes c turns).
Proof.
  revert c. induction turns as [|p turns IH]; intros c; [done|]. split; [|apply IH].
  unfold scan_complete. cbn [snd scan_claims]. by rewrite collect_scanned.
Qed.

(** "a" takes the group over, "b" stands by until "a" has been silent for longer
    than the lease, then leads, and "a" stands by. *)
Lemma one_leader_per_lease_witness :
  let c := run_cluster (fun id => id) 10000 [demo_claim] demo_passes in
  let c3 := run_cluster (fun id => id) 10000 [demo_claim] (take 3 demo_passes) in
  (is_leader (broker_of (fun id => id) 10000 c3 "a") demo_key = true /\
   is_leader (broker_of (fun id => id) 10000 c3 "b") demo_key = false) /\
  (is_leader (broker_of (fun id => id) 10000 c "a") demo_key = false /\
   is_leader (broker_of (fun id => id) 10000 c "b") demo_key = true) /\
  forall x ex tx, cl_brokers c !! x = Some (ex, tx) -> is_leader ex demo_key -> 42000 - tx <= 10000 -> x = "b".
Proof.
  split; [by vm_compute|]. split; [by vm_compute|]. intros x ex tx Hx Lx Tx.
  apply (one_leader_per_lease (fun id => id) 10000 100 42000 [demo_claim] demo_passes demo_key x "b" ex
           (broker_of (fun id => id) 10000 (run_cluster (fun id => id) 10000 [demo_claim] demo_passes) "b") tx 40000);
    [lia| | | |apply full_passes_complete|exact Hx|exact Lx|exact Tx|by vm_compute|by vm_compute|lia|by vm_compute].
  - repeat constructor; vm_compute; congruence.
  - intros k y z Hy%claims_of_elem%list_elem_of_singleton Hz%claims_of_elem%list_elem_of_singleton. by subst.
  - vm_compute. repeat constructor; vm_compute; congruence.
Defined.

Lemma group_name_round_trip_witness :
  parse_group (format_group (mkGroupKey "ns" "st" "a/b")) = Some (mkGroupKey "ns" "st" "a/b").
Proof.
  apply group_name_round_trip; intros [|[|[|i]]]; vm_compute; congruence.
Defined.
