(* ===== verification/OffsetLog.v ===== *)
(** * Durable offsets of the broker ([logdb-broker/src/persistence.rs])

    Committed offsets are events of a meta stream.  A broker that starts replays
    the stream, loads what it finds into its registry and appends a snapshot, from
    which the next replay starts over.

    The server gives every record of the stream an id and returns the records of a
    scan in the order of their ids; the id of an append, and which records a scan
    finds, are parameters.

    [serde_json] is not part of the program: the encoders and decoders are
    parameters, with the law that what was encoded is read back.  So is the order in
    which a [HashMap] is walked. *)
From stdpp Require Import base gmap list numbers sorting strings.
From Stdlib Require Import ZArith Lia.
From S2P Require Import Prelude RustStd Coordinator.
Open Scope Z_scope.

Record OffsetRecord := mkOffset {
  or_ns : string;
  or_stream : string;
  or_group : string;
  or_shard : Z;
  or_seq : Z;
}.

(** A record of the meta stream: the id the server gave it, its event type and its
    content. *)
Record MetaRecord := mkMetaRecord { mr_gid : Z; mr_event_type : string; mr_content : list Z }.

Abbreviation OffsetState := (gmap (string * string * string * Z) Z).

(** What an append can come to: an append that is not acknowledged may be in the
    stream all the same. *)
Inductive MetaAnswer := MetaStored (gid : Z) | MetaReplyLost (gid : Z) | MetaNotStored.

(** The meta stream in the order of the appends. *)
Definition meta_append (a : MetaAnswer) (event_type : string) (content : list Z) (log : list MetaRecord) : bool * list MetaRecord :=
  match a with
  | MetaStored gid => (true, log ++ [mkMetaRecord gid event_type content])
  | MetaReplyLost gid => (false, log ++ [mkMetaRecord gid event_type content])
  | MetaNotStored => (false, log)
  end.

(** [scan_raw_meta] when no message of the scan is an error: the records that the
    server's scan finds, in the order of their ids. *)
Definition scan_raw_meta (found : Z -> bool) (log : list MetaRecord) : list MetaRecord :=
  sort_by_key mr_gid (filter (fun m => found (mr_gid m) = true) log).

(** The [entry(k).and_modify(..).or_insert(..)] that keeps the greater sequence. *)
Definition apply_offset (state : OffsetState) (r : OffsetRecord) : OffsetState :=
  let k := (or_ns r, or_stream r, or_group r, or_shard r) in
  <[k := match state !! k with Some v => Z.max v (or_seq r) | None => or_seq r end]> state.

Section Codec.
Context (encode_offset : OffsetRecord -> list Z) (decode_offset : list Z -> option OffsetRecord).
Context (encode_snapshot : list OffsetRecord -> list Z) (decode_snapshot : list Z -> option (list OffsetRecord)).
Context (entries : OffsetState -> list ((string * string * string * Z) * Z)).

(** [append_offset]. *)
Definition append_offset (a : MetaAnswer) (r : OffsetRecord) (log : list MetaRecord) : bool * list MetaRecord :=
  meta_append a "offset_committed" (encode_offset r) log.

(** [scan_offsets]. *)
Definition scan_offsets (found : Z -> bool) (log : list MetaRecord) : list OffsetRecord :=
  omap (fun m => if String.eqb (mr_event_type m) "offset_committed" then decode_offset (mr_content m) else None)
    (scan_raw_meta found log).

(** [compact_offsets]. *)
Definition compact_offsets (a : MetaAnswer) (recs : list OffsetRecord) (log : list MetaRecord) : bool * list MetaRecord :=
  meta_append a "offset_snapshot" (encode_snapshot recs) log.

(** One event of the replay. *)
Definition replay_event (state : OffsetState) (m : MetaRecord) : OffsetState :=
  if String.eqb (mr_event_type m) "offset_snapshot" then
    match decode_snapshot (mr_content m) with
    | Some snapshot => foldl apply_offset ∅ snapshot
    | None => state
    end
  else if String.eqb (mr_event_type m) "offset_committed" then
    match decode_offset (mr_content m) with
    | Some r => apply_offset state r
    | None => state
    end
  else state.

(** The loop of [load_recovered_offsets] over the events of a scan. *)
Definition replay (events : list MetaRecord) : OffsetState := foldl replay_event ∅ events.

Definition to_record (kv : (string * string * string * Z) * Z) : OffsetRecord :=
  let '((ns, st, gr, sh), seq) := kv in mkOffset ns st gr sh seq.

(** [load_recovered_offsets]. *)
Definition load_recovered_offsets (found : Z -> bool) (log : list MetaRecord) : list OffsetRecord :=
  to_record <$> entries (replay (scan_raw_meta found log)).

(** ** The broker's part of it *)

Record Broker := mkBroker { br_registry : CoordinatorRegistry; br_log : list MetaRecord }.

(** The start of a broker ([main::run]) whose scan succeeds: recover, then compact;
    a failed compaction is only logged. *)
Definition broker_start (num_shards : Z) (found : Z -> bool) (a : MetaAnswer) (log : list MetaRecord) : Broker :=
  let recovered := load_recovered_offsets found log in
  let registry := foldl (fun reg r =>
    (registry_commit_offset (mkGroupKey (or_ns r) (or_stream r) (or_group r)) (or_shard r) (or_seq r) reg).2)
    (registry_new num_shards) recovered in
  mkBroker registry (compact_offsets a recovered log).2.

(** [commit_shard_offset] of the service, past the leader check: [None] is an error
    of the append, [Some advanced] the reply. *)
Definition commit_shard_offset (a : MetaAnswer) (key : GroupKey) (shard seq : Z) (b : Broker) : option bool * Broker :=
  let '(advanced, reg) := registry_commit_offset key shard seq (br_registry b) in
  if advanced then
    let '(ok, log) := append_offset a (mkOffset (gk_namespace key) (gk_stream key) (gk_group key) shard seq) (br_log b) in
    (if ok then Some true else None, mkBroker reg log)
  else (Some false, mkBroker reg (br_log b)).

(** Histories of one broker over the stream: commits, members that come and go,
    records of other kinds (claims of leadership), restarts. *)
Inductive BrokerOp :=
  | BCommit (a : MetaAnswer) (key : GroupKey) (shard seq : Z)
  | BJoin (key : GroupKey) (consumer_id : string)
  | BLeave (key : GroupKey) (consumer_id : string)
  | BOther (gid : Z) (event_type : string) (content : list Z)
  | BRestart (num_shards : Z) (found : Z -> bool) (a : MetaAnswer).

Definition broker_step (b : Broker) (op : BrokerOp) : Broker :=
  match op with
  | BCommit a key shard seq => (commit_shard_offset a key shard seq b).2
  | BJoin key id => mkBroker (registry_join key id (br_registry b)).2 (br_log b)
  | BLeave key id => mkBroker (registry_leave key id (br_registry b)).2 (br_log b)
  | BOther gid ty content => mkBroker (br_registry b) (br_log b ++ [mkMetaRecord gid ty content])
  | BRestart n found a => broker_start n found a (br_log b)
  end.

Definition run_broker (num_shards : Z) (a : MetaAnswer) (ops : list BrokerOp) : Broker :=
  foldl broker_step (broker_start num_shards (fun _ => true) a []) ops.

(** The commits the broker acknowledged as an advance. *)
Fixpoint acks (b : Broker) (ops : list BrokerOp) : list (GroupKey * Z * Z) :=
  match ops with
  | [] => []
  | op :: ops =>
      match op with
      | BCommit a key shard seq =>
          match (commit_shard_offset a key shard seq b).1 with Some true => [(key, shard, seq)] | _ => [] end
      | _ => []
      end ++ acks (broker_step b op) ops
  end.

(** ** Proofs *)

Definition offset_in (st : OffsetState) (key : GroupKey) (shard : Z) : Z :=
  default 0 (st !! (gk_namespace key, gk_stream key, gk_group key, shard)).

Lemma apply_offset_in st r key shard :
  0 <= or_seq r ->
  offset_in (apply_offset st r) key shard =
  if bool_decide (mkGroupKey (or_ns r) (or_stream r) (or_group r) = key /\ or_shard r = shard)
  then Z.max (or_seq r) (offset_in st key shard) else offset_in st key shard.
Proof.
  intros H0. unfold offset_in, apply_offset. case_bool_decide as H.
  - destruct H as [<- <-]. cbn [gk_namespace gk_stream gk_group]. rewrite lookup_insert_eq. cbn.
    destruct (st !! _); cbn; lia.
  - rewrite lookup_insert_ne; [done|]. intros [= H1 H2 H3 H4]. apply H. split; [|done]. destruct key. cbn in *. congruence.
Qed.

(** The registry has the offsets of the replayed state. *)
Definition tracks (reg : CoordinatorRegistry) (st : OffsetState) : Prop :=
  forall key shard, registry_shard_offset reg key shard = offset_in st key shard.

Definition commit_record (reg : CoordinatorRegistry) (r : OffsetRecord) : CoordinatorRegistry :=
  apply_registry reg (RCommit (mkGroupKey (or_ns r) (or_stream r) (or_group r)) (or_shard r) (or_seq r)).

Lemma commit_record_tracks recs reg st :
  Forall (fun r => 0 <= or_seq r) recs -> tracks reg st -> tracks (foldl commit_record reg recs) (foldl apply_offset st recs).
Proof.
  intros Hp. revert reg st. induction Hp as [|r recs Hr Hp IH]; intros reg st Ht; [done|]. cbn [foldl]. apply IH.
  intros key shard. unfold commit_record. rewrite apply_registry_offset, apply_offset_in by done.
  by rewrite !Ht.
Qed.

Lemma rebuild_aux l st :
  NoDup l.*1 -> (forall k, k ∈ l.*1 -> st !! k = None) -> foldl apply_offset st (to_record <$> l) = list_to_map l ∪ st.
Proof.
  revert st. induction l as [|[[[[ns sm] gr] sh] v] l IH]; intros st Hnd Hno.
  { cbn. by rewrite (left_id_L ∅ (∪)). }
  assert (st !! (ns, sm, gr, sh) = None) as Hst by (apply Hno; left).
  assert (apply_offset st (mkOffset ns sm gr sh v) = <[(ns, sm, gr, sh) := v]> st) as Happ.
  { unfold apply_offset. cbn [or_ns or_stream or_group or_shard or_seq]. by rewrite Hst. }
  csimpl. rewrite Happ. csimpl in Hnd. apply NoDup_cons in Hnd as [Hk Hnd]. rewrite IH; [|done|].
  - rewrite <- insert_union_r by (by apply not_elem_of_list_to_map_1). by rewrite insert_union_l.
  - intros k Hin. rewrite lookup_insert_ne; [apply Hno; by right|]. intros Heq. apply Hk. by rewrite Heq.
Qed.

Context (decode_encode_offset : forall r, decode_offset (encode_offset r) = Some r).
Context (decode_encode_snapshot : forall l, decode_snapshot (encode_snapshot l) = Some l).
Context (entries_perm : forall st, entries st ≡ₚ map_to_list st).

Lemma rebuild st : foldl apply_offset ∅ (to_record <$> entries st) = st.
Proof.
  assert (NoDup (entries st).*1) as Hnd by (rewrite entries_perm; apply NoDup_fst_map_to_list).
  rewrite rebuild_aux; [|done|intros; apply lookup_empty]. rewrite (right_id_L ∅ (∪)).
  rewrite (list_to_map_proper _ _ Hnd (entries_perm st)). apply list_to_map_to_list.
Qed.

(** The ids ascend in the order of the appends. *)
Definition ascending (log : list MetaRecord) : Prop := StronglySorted (fun m m' => mr_gid m < mr_gid m') log.

(** A scan that finds everything gives the stream in the order of the appends. *)
Lemma scan_whole found log :
  ascending log -> Forall (fun m => found (mr_gid m) = true) log -> scan_raw_meta found log = log.
Proof.
  intros Ha Hf. unfold scan_raw_meta. rewrite filter_all by (by apply Forall_forall).
  apply sort_by_key_id. clear Hf. induction Ha as [|m log _ IH Hm]; [constructor|]. constructor; [done|].
  eapply Forall_impl; [exact Hm|]. intros m' H. cbn in H. unfold key_le. lia.
Qed.

(** The id of an append is above those the stream has. *)
Definition next_id (log : list MetaRecord) (gid : Z) : Prop := Forall (fun m => mr_gid m < gid) log.

Definition answer_next (a : MetaAnswer) (log : list MetaRecord) : Prop :=
  match a with MetaStored gid | MetaReplyLost gid => next_id log gid | MetaNotStored => True end.

Lemma ascending_snoc log gid ty content : ascending log -> next_id log gid -> ascending (log ++ [mkMetaRecord gid ty content]).
Proof.
  unfold ascending. intros Ha Hn. induction Ha as [|m log Ha IH Hm]; [repeat constructor|].
  apply Forall_cons in Hn as [H1 Hn]. cbn [app]. constructor; [by apply IH|].
  apply Forall_app. split; [done|]. by constructor.
Qed.

Lemma meta_append_ascending a ty content log : ascending log -> answer_next a log -> ascending (meta_append a ty content log).2.
Proof. intros Ha Hn. destruct a; cbn; [by apply ascending_snoc..|done]. Qed.

(** A snapshot taken of the whole stream changes nothing. *)
Lemma replay_compacted found a log :
  scan_raw_meta found log = log -> replay (compact_offsets a (load_recovered_offsets found log) log).2 = replay log.
Proof.
  intros Hs. assert (forall gid, replay (log ++ [mkMetaRecord gid "offset_snapshot" (encode_snapshot (load_recovered_offsets found log))]) = replay log) as H.
  { intros gid. unfold replay. rewrite foldl_app. cbn [foldl]. unfold replay_event at 1. cbn [mr_event_type mr_content String.eqb].
    rewrite decode_encode_snapshot. unfold load_recovered_offsets. rewrite Hs. apply rebuild. }
  destruct a; [apply H|apply H|done].
Qed.

Definition nonneg (st : OffsetState) : Prop := map_Forall (fun _ v => 0 <= v) st.

(** The registry a start builds has the offsets that the replay of its scan gives. *)
Lemma broker_start_tracks n found a log :
  nonneg (replay (scan_raw_meta found log)) -> tracks (br_registry (broker_start n found a log)) (replay (scan_raw_meta found log)).
Proof.
  intros Hnn. unfold broker_start. cbn [br_registry].
  pose proof (commit_record_tracks (load_recovered_offsets found log) (registry_new n) ∅) as H.
  unfold load_recovered_offsets in H at 3. rewrite rebuild in H. apply H.
  - apply Forall_forall. intros r ([[[[ns sm] gr] sh] v] & -> & Hin)%list_elem_of_fmap. rewrite entries_perm in Hin.
    apply elem_of_map_to_list in Hin. cbn. by apply (Hnn _ _ Hin).
  - intros key shard. unfold registry_shard_offset, offset_in. cbn. by rewrite !lookup_empty.
Qed.

(** What a step asks of the server: the ids it gives ascend, a scan of a start finds
    all that was appended, and records of other kinds do not pose as offsets. *)
Definition op_ok (b : Broker) (op : BrokerOp) : Prop :=
  match op with
  | BCommit a _ _ _ => answer_next a (br_log b)
  | BOther gid ty _ => next_id (br_log b) gid /\ ty <> "offset_snapshot" /\ ty <> "offset_committed"
  | BRestart _ found a => Forall (fun m => found (mr_gid m) = true) (br_log b) /\ answer_next a (br_log b)
  | BJoin _ _ | BLeave _ _ => True
  end.

Fixpoint run_ok (b : Broker) (ops : list BrokerOp) : Prop :=
  match ops with
  | [] => True
  | op :: ops => op_ok b op /\ run_ok (broker_step b op) ops
  end.

(** What the stream holds is not ahead of the registry and not behind an
    acknowledged commit. *)
Definition broker_inv (b : Broker) (acked : list (GroupKey * Z * Z)) : Prop :=
  ascending (br_log b) /\
  nonneg (replay (br_log b)) /\
  (forall key shard, offset_in (replay (br_log b)) key shard <= registry_shard_offset (br_registry b) key shard) /\
  (forall key shard seq, (key, shard, seq) ∈ acked -> seq <= offset_in (replay (br_log b)) key shard).

Lemma offset_in_nonneg st key shard : nonneg st -> 0 <= offset_in st key shard.
Proof.
  intros H. unfold offset_in. destruct (st !! _) as [v|] eqn:E; cbn; [|lia]. by apply (H _ _ E).
Qed.

Lemma apply_offset_nonneg st r : 0 <= or_seq r -> nonneg st -> nonneg (apply_offset st r).
Proof.
  intros Hr Hst. unfold apply_offset. apply map_Forall_insert_2; [|done].
  destruct (st !! _) as [v|] eqn:E; [|done]. pose proof (Hst _ _ E). cbn in *. lia.
Qed.

Lemma replay_committed log gid r : replay (log ++ [mkMetaRecord gid "offset_committed" (encode_offset r)]) = apply_offset (replay log) r.
Proof.
  unfold replay. rewrite foldl_app. cbn [foldl]. unfold replay_event at 1. cbn [mr_event_type mr_content String.eqb].
  by rewrite decode_encode_offset.
Qed.

Lemma replay_other log gid ty content :
  ty <> "offset_snapshot" -> ty <> "offset_committed" -> replay (log ++ [mkMetaRecord gid ty content]) = replay log.
Proof.
  intros H1 H2. unfold replay. rewrite foldl_app. cbn [foldl]. unfold replay_event at 1. cbn [mr_event_type].
  by rewrite (proj2 (String.eqb_neq _ _) H1), (proj2 (String.eqb_neq _ _) H2).
Qed.

(** The commit is in the stream or it is not; the registry has it in any case. *)
Lemma commit_inv b acked a key shard seq :
  answer_next a (br_log b) -> broker_inv b acked ->
  broker_inv (commit_shard_offset a key shard seq b).2
    (match (commit_shard_offset a key shard seq b).1 with Some true => [(key, shard, seq)] | _ => [] end ++ acked).
Proof.
  intros Hnext (Hasc & Hnn & Hle & Hack). unfold commit_shard_offset.
  pose proof (fun k s => apply_registry_offset (br_registry b) (RCommit key shard seq) k s) as Hreg. cbn [apply_registry] in Hreg.
  assert ((registry_commit_offset key shard seq (br_registry b)).1 = (registry_shard_offset (br_registry b) key shard <? seq)) as Hadv.
  { by rewrite registry_offset_get. }
  destruct (registry_commit_offset key shard seq (br_registry b)) as [advanced reg]. cbn [fst snd] in *. subst advanced.
  assert (forall k s, registry_shard_offset (br_registry b) k s <= registry_shard_offset reg k s) as Hup.
  { intros k s. rewrite Hreg. case_bool_decide; lia. }
  destruct (Z.ltb_spec (registry_shard_offset (br_registry b) key shard) seq) as [Hlt|Hge].
  - pose proof (offset_in_nonneg _ key shard Hnn) as H0. specialize (Hle key shard) as Hle1.
    set (r := mkOffset (gk_namespace key) (gk_stream key) (gk_group key) shard seq).
    assert (broker_inv (mkBroker reg (br_log b)) acked) as Hkeep.
    { split; [done|]. split; [done|]. split; [|done]. intros k s. cbn [br_log br_registry]. specialize (Hle k s). specialize (Hup k s). lia. }
    assert (forall gid, next_id (br_log b) gid ->
      broker_inv (mkBroker reg (br_log b ++ [mkMetaRecord gid "offset_committed" (encode_offset r)])) ((key, shard, seq) :: acked)) as Hst.
    { intros gid Hgid. unfold broker_inv. cbn [br_log br_registry]. rewrite replay_committed. split; [by apply ascending_snoc|]. split; [apply apply_offset_nonneg; [cbn; lia|done]|].
      split.
      - intros k s. rewrite apply_offset_in, Hreg by (cbn; lia). specialize (Hle k s). unfold r.
        cbn [or_ns or_stream or_group or_shard or_seq]. destruct key as [kn ks kg]. cbn [gk_namespace gk_stream gk_group]. case_bool_decide; lia.
      - intros k s q [[= -> -> ->]|Hin]%elem_of_cons; rewrite apply_offset_in by (cbn; lia); unfold r;
          cbn [or_ns or_stream or_group or_shard or_seq].
        + rewrite bool_decide_true by (by destruct key). lia.
        + specialize (Hack k s q Hin). case_bool_decide; lia. }
    unfold append_offset. fold r. destruct a as [gid|gid|]; cbn [meta_append fst snd app]; [by apply Hst| |done].
    destruct (Hst gid Hnext) as (? & ? & ? & Hack'). split_and!; [done|done|done|]. intros k s q Hin. apply Hack'. by right.
  - cbn [fst snd app]. split; [done|]. split; [done|]. split; [|done]. intros k s. cbn [br_log br_registry]. specialize (Hle k s). specialize (Hup k s). lia.
Qed.

Lemma broker_step_inv b acked op :
  op_ok b op -> broker_inv b acked ->
  broker_inv (broker_step b op) (acks b [op] ++ acked).
Proof.
  intros Hop Hinv. destruct op as [a key shard seq|key id|key id|gid ty content|n found a]; cbn [broker_step acks app]; rewrite ?app_nil_r.
  - by apply commit_inv.
  - destruct Hinv as (? & ? & Hle & ?). split; [done|]. split; [done|]. split; [|done]. intros k s. cbn [br_log br_registry].
    pose proof (apply_registry_offset (br_registry b) (RJoin key id) k s) as Heq. cbn [apply_registry] in Heq. rewrite Heq. apply Hle.
  - destruct Hinv as (? & ? & Hle & ?). split; [done|]. split; [done|]. split; [|done]. intros k s. cbn [br_log br_registry].
    pose proof (apply_registry_offset (br_registry b) (RLeave key id) k s) as Heq. cbn [apply_registry] in Heq. rewrite Heq. apply Hle.
  - destruct Hop as (H1 & H2 & H3), Hinv as (Hasc & Hinv). unfold broker_inv. cbn [br_log br_registry]. rewrite replay_other by done.
    split; [by apply ascending_snoc|done].
  - destruct Hop as [Hf Hn], Hinv as (Hasc & Hnn & Hle & Hack). pose proof (scan_whole found _ Hasc Hf) as Hs.
    pose proof (broker_start_tracks n found a (br_log b)) as Ht. rewrite Hs in Ht. specialize (Ht Hnn).
    pose proof (replay_compacted found a _ Hs) as Hr. unfold broker_inv. unfold broker_start at 1 2 3 5. cbn [br_log]. rewrite Hr.
    split; [by apply meta_append_ascending|]. split; [done|]. split; [|done]. intros k s. by rewrite Ht.
Qed.

Lemma run_broker_inv b acked ops :
  run_ok b ops -> broker_inv b acked -> broker_inv (foldl broker_step b ops) (acks b ops ++ acked) .
Proof.
  revert b acked. induction ops as [|op ops IH]; intros b acked Hops Hinv; [done|]. destruct Hops as [Hop Hops]. cbn [foldl].
  pose proof (IH _ _ Hops (broker_step_inv b acked op Hop Hinv)) as (H0 & H1 & H2 & H3). split; [done|]. split; [done|]. split; [done|].
  intros k s q Hin. apply H3. revert Hin. cbn [acks]. rewrite !elem_of_app. tauto.
Qed.

Lemma first_start_inv n a : broker_inv (broker_start n (fun _ => true) a []) [].
Proof.
  pose proof (scan_whole (fun _ => true) [] ltac:(constructor) ltac:(constructor)) as Hs.
  pose proof (broker_start_tracks n (fun _ => true) a []) as Ht. rewrite Hs in Ht. specialize (Ht ltac:(apply map_Forall_empty)).
  pose proof (replay_compacted (fun _ => true) a _ Hs) as Hr. unfold broker_inv. unfold broker_start at 1 2 3 5. cbn [br_log]. rewrite Hr.
  split; [apply meta_append_ascending; [constructor|by destruct a; [apply Forall_nil..|]]|]. split; [apply map_Forall_empty|].
  split; [intros; by rewrite Ht|by intros ? ? ? ?%elem_of_nil].
Qed.

(** C18: whatever consumers commit, whichever appends fail, whoever joins and leaves
    and however often the broker restarts: the offset a restart recovers for a
    shard is at least every commit that was acknowledged as an advance, and is never
    ahead of what the running broker has.  Snapshots of restarts lose nothing.  This
    is for one broker at a time ([stale_snapshot_loses_offset]) on a server that gives
    the records of the meta stream ids in the order of their appends, as it does with
    one shard (with several a scan can return an old snapshot behind a later commit,
    [sharded_snapshot_wipes_offset]), whose scan of a start finds every record
    appended so far, as it does once they are committed in the log
    ([unseen_commit_is_lost]), and for other records of the stream that do not carry
    the event types of offsets. *)
Theorem offsets_survive_restart (num_shards num_shards' : Z) (found' : Z -> bool) (a a' : MetaAnswer) (ops : list BrokerOp) :
  let b0 := broker_start num_shards (fun _ => true) a [] in
  let b := run_broker num_shards a ops in
  let b' := broker_start num_shards' found' a' (br_log b) in
  run_ok b0 ops -> Forall (fun m => found' (mr_gid m) = true) (br_log b) ->
  (forall key shard seq, (key, shard, seq) ∈ acks b0 ops ->
     seq <= registry_shard_offset (br_registry b') key shard) /\
  (forall key shard, registry_shard_offset (br_registry b') key shard <= registry_shard_offset (br_registry b) key shard).
Proof.
  intros b0 b b' Hops Hf.
  destruct (run_broker_inv _ _ _ Hops (first_start_inv num_shards a)) as (Hasc & Hnn & Hle & Hack).
  change (foldl broker_step b0 ops) with b in Hasc, Hnn, Hle, Hack. pose proof (scan_whole found' _ Hasc Hf) as Hs.
  pose proof (broker_start_tracks num_shards' found' a' (br_log b)) as Ht. rewrite Hs in Ht. specialize (Ht Hnn). fold b' in Ht. split.
  - intros key shard seq Hin. rewrite Ht. apply Hack. apply elem_of_app. by left.
  - intros key shard. rewrite Ht. apply Hle.
Qed.

End Codec.

(** ** Witnesses *)

#[global] Instance OffsetRecord_eq_dec : EqDecision OffsetRecord.
Proof. solve_decision. Defined.

#[global] Program Instance OffsetRecord_countable : Countable OffsetRecord :=
  inj_countable' (fun r => (or_ns r, or_stream r, or_group r, or_shard r, or_seq r))
    (fun '(n, s, g, h, q) => mkOffset n s g h q) _.
Next Obligation. by intros []. Qed.

(** A codec that satisfies the laws. *)
Definition demo_encode {A} `{Countable A} (x : A) : list Z := [Zpos (encode x)].

Definition demo_decode {A} `{Countable A} (l : list Z) : option A :=
  match l with [Zpos p] => decode p | _ => None end.

Lemma demo_codec {A} `{Countable A} (x : A) : demo_decode (demo_encode x) = Some x.
Proof. apply decode_encode. Qed.

Local Open Scope string_scope.

Definition demo_group : GroupKey := mkGroupKey "ns" "st" "g".

Definition demo_history : list BrokerOp :=
  [BJoin demo_group "c"; BCommit (MetaStored 1) demo_group 0 5; BOther 2 "leader_claim" []; BRestart 2 (fun _ => true) (MetaStored 3);
   BCommit (MetaStored 4) demo_group 1 3; BCommit MetaNotStored demo_group 0 9; BCommit (MetaStored 5) demo_group 0 7].

(** The commit of 9 is not stored and the one of 7 is not an advance any more: 5
    and 3 are recovered. *)
Lemma offsets_survive_restart_witness :
  let start := broker_start demo_decode demo_encode demo_decode map_to_list in
  let b := run_broker demo_encode demo_decode demo_encode demo_decode map_to_list 2 (MetaStored 0) demo_history in
  let b' := start 2 (fun _ => true) (MetaStored 9) (br_log b) in
  (registry_shard_offset (br_registry b) demo_group 0 = 9 /\
   registry_shard_offset (br_registry b') demo_group 0 = 5 /\ registry_shard_offset (br_registry b') demo_group 1 = 3) /\
  (forall key shard, registry_shard_offset (br_registry b') key shard <= registry_shard_offset (br_registry b) key shard).
Proof.
  split; [by vm_compute|].
  apply (offsets_survive_restart demo_encode demo_decode demo_encode demo_decode map_to_list
           demo_codec demo_codec (fun st => reflexivity (map_to_list st)) 2 2 (fun _ => true) (MetaStored 0) (MetaStored 9) demo_history).
  - vm_compute. repeat split; try discriminate; repeat constructor.
  - apply Forall_forall. reflexivity.
Defined.

(** ** Where recovery falls short *)

Definition demo_start : Z -> (Z -> bool) -> MetaAnswer -> list MetaRecord -> Broker := broker_start demo_decode demo_encode demo_decode map_to_list.
Definition demo_commit : MetaAnswer -> GroupKey -> Z -> Z -> Broker -> option bool * Broker := commit_shard_offset demo_encode.

(** A snapshot from a broker that replayed before another's commit takes the
    commit back: after the next replay the acknowledged offset is gone, though the
    event that committed it is in the stream. *)
Theorem stale_snapshot_loses_offset :
  let leader := demo_start 1 (fun _ => true) (MetaStored 0) [] in
  let recovered := load_recovered_offsets demo_decode demo_decode map_to_list (fun _ => true) (br_log leader) in
  let '(reply, leader) := demo_commit (MetaStored 1) demo_group 0 7 leader in
  let log := (compact_offsets demo_encode (MetaStored 2) recovered (br_log leader)).2 in
  reply = Some true /\
  scan_offsets demo_decode (fun _ => true) log = [mkOffset "ns" "st" "g" 0 7] /\
  registry_shard_offset (br_registry (demo_start 1 (fun _ => true) (MetaStored 3) log)) demo_group 0 = 0.
Proof. by vm_compute. Qed.

(** With two shards, the snapshot of the first start in the second shard and a later
    commit in the first: the scan returns the snapshot behind the commit, which is
    forgotten. *)
Theorem sharded_snapshot_wipes_offset :
  let b := demo_start 1 (fun _ => true) (MetaStored (2 ^ 63)) [] in
  let '(reply, b) := demo_commit (MetaStored 0) demo_group 0 7 b in
  reply = Some true /\
  registry_shard_offset (br_registry (demo_start 1 (fun _ => true) (MetaStored 1) (br_log b))) demo_group 0 = 0.
Proof. by vm_compute. Qed.

(** A start whose scan does not find the last commit yet: its snapshot hides the
    commit from every later start too. *)
Theorem unseen_commit_is_lost :
  let b := demo_start 1 (fun _ => true) (MetaStored 0) [] in
  let '(reply, b) := demo_commit (MetaStored 1) demo_group 0 7 b in
  let b := demo_start 1 (fun gid => (gid <? 1)%Z) (MetaStored 2) (br_log b) in
  reply = Some true /\
  registry_shard_offset (br_registry (demo_start 1 (fun _ => true) (MetaStored 3) (br_log b))) demo_group 0 = 0.
Proof. by vm_compute. Qed.
