(* ===== verification/BrokerService.v ===== *)
(** * The broker's service ([logdb-broker/src/service.rs], [sessions.rs],
      [forwarder.rs])

    Consumers join groups, open a stream and get the records of their shards
    forwarded.  While a stream is open the broker keeps a session with the forward
    task that serves it; a change of the membership replaces the tasks of the
    consumers whose shards changed.

    A handler runs to its end before the next one starts; the two halves of a
    handler that changes the membership, the registry's and the sessions', are
    definitions of their own, so that their interleaving can be stated too.  A
    session's channel is the frames sent and whether the consumer still listens; a
    forward task is the position it starts from for each of its shards.  Such a
    task spawns one task per shard and waits for them; aborting it detaches those,
    and they go on until the consumer stops listening, so aborted tasks are kept
    as detached ones.  The clock
    and the outcome of the leader check are parameters of the handlers.  A
    [HashMap] is walked in the order of [map_to_list]. *)
From stdpp Require Import base gmap list numbers strings.
From Stdlib Require Import ZArith Lia.
From S2P Require Import Prelude RustStd Coordinator.
Open Scope Z_scope.

(** ** Forwarding one shard *)

Record LogdbdRecord := mkLogdbdRecord {
  lr_namespace_id : Z;
  lr_stream_id : Z;
  lr_seq : Z;
  lr_event_type : string;
  lr_timestamp_ns : Z;
  lr_content_type : string;
  lr_metadata : gmap string string;
  lr_content : list Z;
}.

Record BrokerRecord := mkBrokerRecord {
  brr_namespace_id : Z;
  brr_stream_id : Z;
  brr_seq : Z;
  brr_event_type : string;
  brr_timestamp_ns : Z;
  brr_content_type : string;
  brr_metadata : gmap string string;
  brr_content : list Z;
  brr_shard_id : Z;
}.

Definition into_broker_record (r : LogdbdRecord) (shard_id : Z) : BrokerRecord :=
  mkBrokerRecord (lr_namespace_id r) (lr_stream_id r) (lr_seq r) (lr_event_type r) (lr_timestamp_ns r)
    (lr_content_type r) (lr_metadata r) (lr_content r) shard_id.

(** What travels on a consumer's stream. *)
Inductive Frame :=
  | FRecord (r : BrokerRecord)
  | FCaughtUp (shard_id : Z)
  | FRebalance (generation : Z)
  | FAssignment (generation : Z) (shards : list Z)
  | FError (status : string).

(** A channel whose next [cap] sends are received; then the consumer is gone. *)
Record Channel := mkChannel { ch_sent : list Frame; ch_cap : nat }.

Definition ch_send (f : Frame) (c : Channel) : bool * Channel :=
  match ch_cap c with
  | O => (false, c)
  | S n => (true, mkChannel (ch_sent c ++ [f]) n)
  end.

(** The inner loop over the records of one response. *)
Fixpoint send_records (rs : list LogdbdRecord) (shard_id : Z) (c : Channel) : bool * Channel :=
  match rs with
  | [] => (true, c)
  | r :: rs =>
      let '(ok, c) := ch_send (FRecord (into_broker_record r shard_id)) c in
      if ok then send_records rs shard_id c else (false, c)
  end.

(** [forward_stream]: the responses of the Tail, or its error. *)
Fixpoint forward_stream (tail : list (list LogdbdRecord + string)) (shard_id : Z) (caught_up_sent : bool) (c : Channel)
    : Channel :=
  match tail with
  | [] => c
  | inr status :: _ => (ch_send (FError status) c).2
  | inl records :: tail =>
      let first := bool_decide (records = []) && negb caught_up_sent in
      let '(ok, c) := if first then ch_send (FCaughtUp shard_id) c else (true, c) in
      if ok then
        let '(ok, c) := send_records records shard_id c in
        if ok then forward_stream tail shard_id (caught_up_sent || first) c else c
      else c
  end.

(** ** Sessions *)

(** [ss_forward] is the task the handle holds; [ss_detached] are the aborted
    ones, whose per-shard tasks still hold the channel. *)
Record SessionHandle := mkSession {
  ss_open : bool;
  ss_sent : list Frame;
  ss_forward : option (gmap Z Z);
  ss_detached : list (gmap Z Z);
  ss_last_heartbeat : Z;
}.

Definition session_new (now : Z) : SessionHandle := mkSession true [] None [] now.

Definition touch (now : Z) (s : SessionHandle) : SessionHandle :=
  mkSession (ss_open s) (ss_sent s) (ss_forward s) (ss_detached s) now.

Definition ms_since_last_heartbeat (now : Z) (s : SessionHandle) : Z := Z.max 0 (now - ss_last_heartbeat s).

(** [g.take()] and [old.abort()]: the handle lets go of its task, whose
    per-shard tasks are detached. *)
Definition detach (s : SessionHandle) : list (gmap Z Z) := ss_detached s ++ option_list (ss_forward s).

(** [set_forward] and [abort_forward]: the task before is aborted. *)
Definition set_forward (task : gmap Z Z) (s : SessionHandle) : SessionHandle :=
  mkSession (ss_open s) (ss_sent s) (Some task) (detach s) (ss_last_heartbeat s).

Definition abort_forward (s : SessionHandle) : SessionHandle :=
  mkSession (ss_open s) (ss_sent s) None (detach s) (ss_last_heartbeat s).

Definition session_send (f : Frame) (s : SessionHandle) : bool * SessionHandle :=
  if ss_open s then (true, mkSession true (ss_sent s ++ [f]) (ss_forward s) (ss_detached s) (ss_last_heartbeat s))
  else (false, s).

Abbreviation Sessions := (gmap GroupKey (gmap string SessionHandle)).

Definition sessions_group (ss : Sessions) (key : GroupKey) : gmap string SessionHandle := default ∅ (ss !! key).

(** [Sessions::insert] on the map. *)
Definition sessions_insert (key : GroupKey) (consumer_id : string) (h : SessionHandle) (ss : Sessions) : Sessions :=
  <[key := <[consumer_id := h]> (sessions_group ss key)]> ss.

(** [Sessions::get]. *)
Definition sessions_get (ss : Sessions) (key : GroupKey) (consumer_id : string) : option SessionHandle :=
  ss !! key ≫= (fun m => m !! consumer_id).

(** [Sessions::remove] on the map; a group without sessions is dropped. *)
Definition sessions_remove (key : GroupKey) (consumer_id : string) (ss : Sessions) : Sessions :=
  match ss !! key with
  | Some group =>
      let group := delete consumer_id group in
      if bool_decide (group = ∅) then delete key ss else <[key := group]> ss
  | None => ss
  end.

(** [Sessions::get_group]: the ids, whose handles are those of the map. *)
Definition get_session_ids (ss : Sessions) (key : GroupKey) : list string := (map_to_list (sessions_group ss key)).*1.

(** Works on the handle of a registered session. *)
Definition sessions_update (key : GroupKey) (consumer_id : string) (f : SessionHandle -> SessionHandle) (ss : Sessions)
    : Sessions :=
  match sessions_get ss key consumer_id with
  | Some h => sessions_insert key consumer_id (f h) ss
  | None => ss
  end.

(** [Sessions::stale_consumers]. *)
Definition stale_consumers (now timeout_ms : Z) (ss : Sessions) : list (GroupKey * string) :=
  km ← map_to_list ss;
  ch ← map_to_list km.2;
  if timeout_ms <? ms_since_last_heartbeat now ch.2 then [(km.1, ch.1)] else [].

(** ** The service *)

Inductive Status :=
  | Unavailable (leader : string)
  | InvalidArgument
  | Unimplemented
  | FailedPrecondition
  | NotFound.

(** [sv_orphans] are the tasks that sessions left behind when they were
    replaced or removed, with the group and the consumer of the session. *)
Record Service := mkService {
  sv_registry : CoordinatorRegistry;
  sv_sessions : Sessions;
  sv_forwarder : bool;
  sv_orphans : list (GroupKey * string * gmap Z Z);
}.

Definition with_sessions (ss : Sessions) (s : Service) : Service :=
  mkService (sv_registry s) ss (sv_forwarder s) (sv_orphans s).
Definition with_registry (r : CoordinatorRegistry) (s : Service) : Service :=
  mkService r (sv_sessions s) (sv_forwarder s) (sv_orphans s).
Definition with_orphans (o : list (GroupKey * string * gmap Z Z)) (s : Service) : Service :=
  mkService (sv_registry s) (sv_sessions s) (sv_forwarder s) o.

(** The tasks [tasks] of a consumer's session outlive it when the consumer
    still listens to its stream. *)
Definition leave_tasks (key : GroupKey) (consumer_id : string) (tasks : SessionHandle -> list (gmap Z Z)) (s : Service)
    : Service :=
  match sessions_get (sv_sessions s) key consumer_id with
  | Some h => if ss_open h then with_orphans (sv_orphans s ++ ((fun t => (key, consumer_id, t)) <$> tasks h)) s else s
  | None => s
  end.

(** [Sessions::insert]; the session it replaces is aborted. *)
Definition put_session (key : GroupKey) (consumer_id : string) (h : SessionHandle) (s : Service) : Service :=
  let s := leave_tasks key consumer_id detach s in
  with_sessions (sessions_insert key consumer_id h (sv_sessions s)) s.

(** [Sessions::remove]; the session is aborted. *)
Definition drop_session (key : GroupKey) (consumer_id : string) (s : Service) : Service :=
  let s := leave_tasks key consumer_id detach s in
  with_sessions (sessions_remove key consumer_id (sv_sessions s)) s.

(** [shard_offsets_for]: the first sequence to forward for each shard. *)
Definition shard_offsets_for (r : CoordinatorRegistry) (key : GroupKey) (shards : list Z) : gmap Z Z :=
  foldl (fun m shard => <[shard := Z.min (registry_shard_offset r key shard + 1) (2 ^ 64 - 1)]> m) ∅ shards.

(** [spawn_forward] on a session. *)
Definition spawn_forward (s : Service) (key : GroupKey) (shards : list Z) (h : SessionHandle) : SessionHandle :=
  if sv_forwarder s then set_forward (shard_offsets_for (sv_registry s) key shards) h else h.

(** The shards of one consumer in a snapshot, [find] on its members. *)
Fixpoint snapshot_find (ms : list (string * list Z)) (consumer_id : string) : option (list Z) :=
  match ms with
  | [] => None
  | (id, shards) :: ms => if bool_decide (id = consumer_id) then Some shards else snapshot_find ms consumer_id
  end.

(** The body of the loop of [rebalance_group] for one session. *)
Definition rebalance_session (key : GroupKey) (snap : GroupSnapshot) (changed : gset string) (s : Service) (consumer_id : string)
    : Service :=
  match sessions_get (sv_sessions s) key consumer_id with
  | None => s
  | Some h =>
      if bool_decide (consumer_id ∈ changed) then
        let new_shards := default [] (snapshot_find (sn_members snap) consumer_id) in
        let '(ok, h) := session_send (FRebalance (sn_generation snap)) h in
        if ok then
          let h := abort_forward h in
          let h := (session_send (FAssignment (sn_generation snap) new_shards) h).2 in
          let h := if bool_decide (new_shards = []) then h else spawn_forward s key new_shards h in
          with_sessions (sessions_insert key consumer_id h (sv_sessions s)) s
        else drop_session key consumer_id s
      else s
  end.

(** [rebalance_group]. *)
Definition rebalance_group (key : GroupKey) (s : Service) : Service :=
  let ids := get_session_ids (sv_sessions s) key in
  match ids with
  | [] => s
  | _ =>
      match group_snapshot (sv_registry s) key with
      | None => s
      | Some snap => foldl (rebalance_session key snap (registry_last_changed (sv_registry s) key)) s ids
      end
  end.

(** The first half of a join: the registry. *)
Definition join_registry (key : GroupKey) (consumer_id : string) (s : Service) : JoinResult * Service :=
  let '(res, r) := registry_join key consumer_id (sv_registry s) in (res, with_registry r s).

Definition str_empty (s : string) : bool := bool_decide (s = EmptyString).

(** [join_group]. *)
Definition join_group (redirect : option string) (key : GroupKey) (consumer_id : string) (s : Service)
    : (JoinResult + Status) * Service :=
  match redirect with
  | Some addr => (inr (Unavailable addr), s)
  | None =>
      if str_empty consumer_id || str_empty (gk_group key) then (inr InvalidArgument, s)
      else
        let '(res, s) := join_registry key consumer_id s in
        (inl res, rebalance_group key s)
  end.

(** [leave_group]. *)
Definition leave_group (redirect : option string) (key : GroupKey) (consumer_id : string) (s : Service)
    : (bool + Status) * Service :=
  match redirect with
  | Some addr => (inr (Unavailable addr), s)
  | None =>
      let '(ok, r) := registry_leave key consumer_id (sv_registry s) in
      let s := with_registry r s in
      (inl ok, if ok then rebalance_group key s else s)
  end.

(** [list_members]. *)
Definition list_members (key : GroupKey) (s : Service) : GroupSnapshot + Status :=
  match group_snapshot (sv_registry s) key with Some snap => inl snap | None => inr NotFound end.

(** [consume]: the session's stream, or why there is none. *)
Definition consume (redirect : option string) (now : Z) (key : GroupKey) (consumer_id : string) (generation : Z) (s : Service)
    : (unit + Status) * Service :=
  match redirect with
  | Some addr => (inr (Unavailable addr), s)
  | None =>
      if str_empty consumer_id || str_empty (gk_group key) then (inr InvalidArgument, s)
      else if negb (sv_forwarder s) then (inr Unimplemented, s)
      else
        match group_snapshot (sv_registry s) key with
        | None => (inr FailedPrecondition, s)
        | Some snap =>
            if negb (sn_generation snap =? generation) then (inr FailedPrecondition, s)
            else
              match snapshot_find (sn_members snap) consumer_id with
              | None => (inr NotFound, s)
              | Some [] => (inr FailedPrecondition, s)
              | Some shards =>
                  (inl tt, put_session key consumer_id (spawn_forward s key shards (session_new now)) s)
              end
        end
  end.

(** [heartbeat]: the group's generation and whether it is not the consumer's. *)
Definition heartbeat (redirect : option string) (now : Z) (key : GroupKey) (consumer_id : string) (generation : Z) (s : Service)
    : (Z * bool + Status) * Service :=
  match redirect with
  | Some addr => (inr (Unavailable addr), s)
  | None =>
      match sessions_get (sv_sessions s) key consumer_id with
      | None => (inr NotFound, s)
      | Some _ =>
          let current := default 0 (sn_generation <$> group_snapshot (sv_registry s) key) in
          (inl (current, negb (current =? generation)),
           with_sessions (sessions_update key consumer_id (touch now) (sv_sessions s)) s)
      end
  end.

(** One turn of [evict_stale]. *)
Definition evict (s : Service) (kc : GroupKey * string) : Service :=
  let s := drop_session kc.1 kc.2 s in
  let s := with_registry (registry_leave kc.1 kc.2 (sv_registry s)).2 s in
  rebalance_group kc.1 s.

(** [evict_stale]. *)
Definition evict_stale (now timeout_ms : Z) (s : Service) : Service :=
  foldl evict s (stale_consumers now timeout_ms (sv_sessions s)).

(** The end of a forward task that was not aborted: its per-shard tasks have
    ended, and it deregisters its consumer. *)
Definition forward_ended (key : GroupKey) (consumer_id : string) (s : Service) : Service :=
  let s := leave_tasks key consumer_id ss_detached s in
  with_sessions (sessions_remove key consumer_id (sv_sessions s)) s.

(** The consumer stops listening. *)
Definition consumer_gone (key : GroupKey) (consumer_id : string) (s : Service) : Service :=
  with_sessions (sessions_update key consumer_id
    (fun h => mkSession false (ss_sent h) (ss_forward h) (ss_detached h) (ss_last_heartbeat h)) (sv_sessions s)) s.

(** The consumer stops listening to the streams of its sessions before: a task
    ends at its next send. *)
Definition orphans_gone (key : GroupKey) (consumer_id : string) (s : Service) : Service :=
  with_orphans (filter (fun o => o.1 <> (key, consumer_id)) (sv_orphans s)) s.

(** The registry part of [commit_shard_offset]. *)
Definition commit_shard (key : GroupKey) (shard seq : Z) (s : Service) : Service :=
  with_registry (registry_commit_offset key shard seq (sv_registry s)).2 s.

(** ** Looking up sessions *)

Lemma sessions_get_group ss key c : sessions_get ss key c = sessions_group ss key !! c.
Proof. unfold sessions_get, sessions_group. destruct (ss !! key); cbn; [done|]. by rewrite lookup_empty. Qed.

Lemma sessions_get_insert ss key c h k' c' :
  sessions_get (sessions_insert key c h ss) k' c' = if bool_decide (key = k' /\ c = c') then Some h else sessions_get ss k' c'.
Proof.
  rewrite !sessions_get_group. unfold sessions_insert, sessions_group at 1. case_bool_decide as H.
  - destruct H as [<- <-]. rewrite lookup_insert_eq. cbn. by rewrite lookup_insert_eq.
  - destruct (decide (key = k')) as [<-|Hk]; [|by rewrite lookup_insert_ne].
    rewrite lookup_insert_eq. cbn. rewrite lookup_insert_ne; [done|]. intros ->. by apply H.
Qed.

Lemma sessions_get_remove ss key c k' c' :
  sessions_get (sessions_remove key c ss) k' c' = if bool_decide (key = k' /\ c = c') then None else sessions_get ss k' c'.
Proof.
  unfold sessions_remove. destruct (ss !! key) as [g|] eqn:E.
  - assert (forall k, sessions_group (if bool_decide (delete c g = ∅) then delete key ss else <[key := delete c g]> ss) k
      = if bool_decide (key = k) then delete c g else sessions_group ss k) as Hg.
    { intros k. unfold sessions_group. case_bool_decide as He; case_bool_decide as Hk; subst.
      - by rewrite lookup_delete_eq, He.
      - by rewrite lookup_delete_ne.
      - by rewrite lookup_insert_eq.
      - by rewrite lookup_insert_ne. }
    rewrite !sessions_get_group, Hg. destruct (decide (key = k')) as [<-|Hk].
    + rewrite (bool_decide_true (key = key)) by done. unfold sessions_group. rewrite E. cbn. destruct (decide (c = c')) as [<-|Hc].
      * rewrite bool_decide_true by done. apply lookup_delete_eq.
      * rewrite bool_decide_false by tauto. by rewrite lookup_delete_ne.
    + rewrite (bool_decide_false (key = k')), (bool_decide_false (key = k' /\ c = c')) by tauto. done.
  - case_bool_decide as H; [|done]. destruct H as [<- <-]. unfold sessions_get. by rewrite E.
Qed.

Lemma sessions_get_update ss key c f k' c' :
  sessions_get (sessions_update key c f ss) k' c' =
  if bool_decide (key = k' /\ c = c') then f <$> sessions_get ss k' c' else sessions_get ss k' c'.
Proof.
  unfold sessions_update. destruct (sessions_get ss key c) as [h|] eqn:E.
  - rewrite sessions_get_insert. case_bool_decide as H; [|done]. destruct H as [<- <-]. by rewrite E.
  - case_bool_decide as H; [|done]. destruct H as [<- <-]. by rewrite E.
Qed.

Lemma leave_tasks_same key c tasks s :
  sv_registry (leave_tasks key c tasks s) = sv_registry s /\ sv_sessions (leave_tasks key c tasks s) = sv_sessions s /\
  sv_forwarder (leave_tasks key c tasks s) = sv_forwarder s.
Proof. unfold leave_tasks. destruct (sessions_get _ _ _) as [h|]; [|done]. by destruct (ss_open h). Qed.

Lemma drop_session_same key c s :
  sv_registry (drop_session key c s) = sv_registry s /\ sv_forwarder (drop_session key c s) = sv_forwarder s.
Proof. unfold drop_session. by destruct (leave_tasks_same key c detach s) as (? & _ & ?). Qed.

Lemma put_session_same key c h s :
  sv_registry (put_session key c h s) = sv_registry s /\
  sv_sessions (put_session key c h s) = sessions_insert key c h (sv_sessions s).
Proof.
  unfold put_session. destruct (leave_tasks_same key c detach s) as (? & E & _). split; [done|]. cbn. by rewrite E.
Qed.

(** ** The loop over the sessions *)

(** What a rebalance makes of one session: nothing, if it is dropped. *)
Definition rebalanced (r : CoordinatorRegistry) (key : GroupKey) (snap : GroupSnapshot) (changed : gset string) (c : string)
    (h : SessionHandle) : option SessionHandle :=
  if bool_decide (c ∈ changed) then
    if ss_open h then
      let shards := default [] (snapshot_find (sn_members snap) c) in
      Some (mkSession true (ss_sent h ++ [FRebalance (sn_generation snap); FAssignment (sn_generation snap) shards])
              (if bool_decide (shards = []) then None else Some (shard_offsets_for r key shards)) (detach h) (ss_last_heartbeat h))
    else None
  else Some h.

Lemma rebalance_session_spec key snap changed s c :
  sv_forwarder s = true ->
  let s' := rebalance_session key snap changed s c in
  sv_registry s' = sv_registry s /\ sv_forwarder s' = true /\
  forall k' c', sessions_get (sv_sessions s') k' c' =
    if bool_decide (key = k' /\ c = c') then sessions_get (sv_sessions s) key c ≫= rebalanced (sv_registry s) key snap changed c
    else sessions_get (sv_sessions s) k' c'.
Proof.
  intros Hf. unfold rebalance_session, rebalanced. destruct (sessions_get (sv_sessions s) key c) as [h|] eqn:E.
  - case_bool_decide as Hc; cbn [mbind option_bind].
    + unfold session_send. destruct (ss_open h); cbn [fst snd abort_forward ss_open ss_sent ss_forward ss_last_heartbeat].
      * split_and!; [done|done|]. intros k' c'. cbn [with_sessions sv_sessions]. rewrite sessions_get_insert. case_bool_decide; [|done].
        f_equal. rewrite <- app_assoc. cbn [app]. unfold spawn_forward. rewrite Hf.
        case_bool_decide; [done|]. unfold set_forward, detach. cbn. by rewrite app_nil_r.
      * destruct (leave_tasks_same key c detach s) as (L1 & L2 & L3). unfold drop_session. cbn [with_sessions sv_sessions sv_registry sv_forwarder].
        rewrite L1, L2, L3. split_and!; [done|done|]. intros k' c'. apply sessions_get_remove.
    + split_and!; [done|done|]. intros k' c'. case_bool_decide as H; [|done]. by destruct H as [<- <-].
  - split_and!; [done|done|]. intros k' c'. case_bool_decide as H; [|done]. by destruct H as [<- <-].
Qed.

Lemma rebalance_loop key snap changed ids s :
  sv_forwarder s = true -> NoDup ids ->
  let s' := foldl (rebalance_session key snap changed) s ids in
  sv_registry s' = sv_registry s /\ sv_forwarder s' = true /\
  forall k' c', sessions_get (sv_sessions s') k' c' =
    if bool_decide (key = k' /\ c' ∈ ids) then sessions_get (sv_sessions s) key c' ≫= rebalanced (sv_registry s) key snap changed c'
    else sessions_get (sv_sessions s) k' c'.
Proof.
  revert s. induction ids as [|c ids IH]; intros s Hf Hnd; cbn [foldl].
  { split_and!; [done|done|]. intros k' c'. rewrite bool_decide_false; [done|]. intros [_ H]. by apply elem_of_nil in H. }
  apply NoDup_cons in Hnd as [Hc Hnd]. destruct (rebalance_session_spec key snap changed s c Hf) as (H1 & H2 & H3).
  destruct (IH _ H2 Hnd) as (I1 & I2 & I3). rewrite H1 in I1. split_and!; [done|done|]. intros k' c'. rewrite I3, H1.
  destruct (decide (key = k')) as [<-|Hk].
  - rewrite (bool_decide_ext (key = key /\ c' ∈ c :: ids) (c' = c \/ c' ∈ ids)) by (rewrite elem_of_cons; tauto).
    destruct (decide (c' = c)) as [->|Hne].
    + rewrite (bool_decide_false (key = key /\ c ∈ ids)) by tauto. rewrite (bool_decide_true (c = c \/ _)) by tauto.
      rewrite H3. by rewrite bool_decide_true.
    + rewrite !H3, !(bool_decide_false (key = key /\ c = c')) by (intros [_ ?]; congruence).
      destruct (decide (c' ∈ ids)); [by rewrite !bool_decide_true by tauto|by rewrite !bool_decide_false by tauto].
  - rewrite !(bool_decide_false (key = k' /\ _)) by tauto. rewrite H3. by rewrite bool_decide_false by tauto.
Qed.

(** All sessions of the group are rebalanced, no other is touched. *)
Lemma rebalance_group_spec key s snap :
  sv_forwarder s = true -> group_snapshot (sv_registry s) key = Some snap ->
  let s' := rebalance_group key s in
  sv_registry s' = sv_registry s /\ sv_forwarder s' = true /\
  forall k' c', sessions_get (sv_sessions s') k' c' =
    if bool_decide (key = k')
    then sessions_get (sv_sessions s) key c' ≫= rebalanced (sv_registry s) key snap (registry_last_changed (sv_registry s) key) c'
    else sessions_get (sv_sessions s) k' c'.
Proof.
  intros Hf Hsnap. set (ids := get_session_ids (sv_sessions s) key).
  assert (rebalance_group key s = foldl (rebalance_session key snap (registry_last_changed (sv_registry s) key)) s ids) as ->.
  { unfold rebalance_group. fold ids. rewrite Hsnap. by destruct ids. }
  destruct (rebalance_loop key snap (registry_last_changed (sv_registry s) key) ids s Hf) as (H1 & H2 & H3);
    [apply NoDup_fst_map_to_list|].
  split_and!; [done|done|]. intros k' c'. rewrite H3. destruct (decide (key = k')) as [<-|Hk].
  - rewrite (bool_decide_true (key = key)) by done. case_bool_decide as H; [done|].
    destruct (sessions_get (sv_sessions s) key c') as [h|] eqn:E; [|done]. exfalso. apply H. split; [done|].
    rewrite sessions_get_group in E. apply elem_of_map_to_list in E. by apply (list_elem_of_fmap_2 fst _ _ E).
  - rewrite !bool_decide_false by tauto. done.
Qed.

(** ** Open streams follow the assignment *)

(** The task forwards exactly the shards, none from beyond its offset. *)
Definition task_ok (r : CoordinatorRegistry) (key : GroupKey) (shards : list Z) (task : option (gmap Z Z)) : Prop :=
  match task with
  | None => shards = []
  | Some t =>
      (forall shard, is_Some (t !! shard) <-> shard ∈ shards) /\
      (forall shard from, t !! shard = Some from -> 0 <= from <= registry_shard_offset r key shard + 1)
  end.

Lemma shard_offsets_for_ok r key shards :
  (forall s, 0 <= registry_shard_offset r key s) -> task_ok r key shards (Some (shard_offsets_for r key shards)).
Proof.
  intros Hoff. induction shards as [|s shards IH] using rev_ind.
  { split; [intros shard; cbn; rewrite lookup_empty; split; [by intros ?%is_Some_None|by intros ?%elem_of_nil]|intros shard from; cbn; by rewrite lookup_empty]. }
  unfold shard_offsets_for in *. destruct IH as [IH1 IH2]. rewrite foldl_app. cbn [foldl]. split.
  - intros shard. rewrite elem_of_app, list_elem_of_singleton, <- IH1. destruct (decide (s = shard)) as [->|Hne].
    + rewrite lookup_insert_eq. split; [by right|by eexists].
    + rewrite lookup_insert_ne by done. split; [by left|]. by intros [|].
  - intros shard from. destruct (decide (s = shard)) as [->|Hne].
    + rewrite lookup_insert_eq. intros [= <-]. specialize (Hoff shard). lia.
    + rewrite lookup_insert_ne by done. apply IH2.
Qed.

Lemma task_ok_mono r r' key shards task :
  (forall s, registry_shard_offset r key s <= registry_shard_offset r' key s) -> task_ok r key shards task -> task_ok r' key shards task.
Proof.
  intros Hle. destruct task as [t|]; [|done]. intros [H1 H2]. split; [done|]. intros s from Hs. specialize (H2 _ _ Hs). specialize (Hle s). lia.
Qed.

Definition groups_ok (r : CoordinatorRegistry) : Prop :=
  0 <= reg_num_shards r /\
  forall key, group_ok (get_group r key) /\ gs_num_shards (get_group r key) = reg_num_shards r /\ forall s, 0 <= registry_shard_offset r key s.

Definition service_inv (s : Service) : Prop :=
  sv_forwarder s = true /\ groups_ok (sv_registry s) /\
  forall key c h, sessions_get (sv_sessions s) key c = Some h -> c ∈ members (get_group (sv_registry s) key) ->
    task_ok (sv_registry s) key (default [] (assigned (get_group (sv_registry s) key) c)) (ss_forward h).

(** A change of one group that names all members whose shards changed. *)
Definition announced (r r' : CoordinatorRegistry) (key : GroupKey) : Prop :=
  (forall k, k <> key -> get_group r' k = get_group r k) /\
  (forall k s, registry_shard_offset r k s <= registry_shard_offset r' k s) /\
  (forall c, c ∈ members (get_group r' key) -> c ∉ last_changed (get_group r' key) ->
     c ∈ members (get_group r key) /\ assigned (get_group r' key) c = assigned (get_group r key) c).

Lemma snapshot_find_member g c :
  c ∈ members g -> snapshot_find ((fun id => (id, default [] (assigned g id))) <$> members g) c = Some (default [] (assigned g c)).
Proof.
  induction (members g) as [|m ms IH]; intros Hc; [by apply elem_of_nil in Hc|]. csimpl. case_bool_decide as Hm; [by subst|].
  apply elem_of_cons in Hc as [->|Hc]; [done|by apply IH].
Qed.

Lemma group_snapshot_get r key :
  (group_snapshot r key = None /\ members (get_group r key) = []) \/
  (exists snap, group_snapshot r key = Some snap /\ sn_generation snap = gs_generation (get_group r key) /\
     (forall c, c ∈ members (get_group r key) -> snapshot_find (sn_members snap) c = Some (default [] (assigned (get_group r key) c)))) .
Proof.
  unfold group_snapshot, get_group. destruct (groups r !! key) as [g|]; [right|by left]. eexists. split; [done|]. split; [done|].
  intros c Hc. by apply snapshot_find_member.
Qed.

Lemma last_changed_get r key : registry_last_changed r key = last_changed (get_group r key).
Proof. unfold registry_last_changed, get_group. by destruct (groups r !! key). Qed.

(** A rebalance after an announced change puts every stream right. *)
Lemma rebalance_inv s r key :
  service_inv s -> groups_ok r -> announced (sv_registry s) r key -> service_inv (rebalance_group key (with_registry r s)).
Proof.
  intros (Hf & _ & Hs) Hr (Hother & Hoff & Hann).
  assert (forall k c h, k <> key -> sessions_get (sv_sessions s) k c = Some h -> c ∈ members (get_group r k) ->
    task_ok r k (default [] (assigned (get_group r k) c)) (ss_forward h)) as Hrest.
  { intros k c h Hk Hh Hc. rewrite (Hother k Hk) in *. eapply task_ok_mono; [apply Hoff|by apply Hs]. }
  destruct (group_snapshot_get r key) as [[Hn Hm]|(snap & Hsnap & _ & Hfind)].
  - assert (rebalance_group key (with_registry r s) = with_registry r s) as ->.
    { unfold rebalance_group. cbn [with_registry sv_registry sv_sessions]. rewrite Hn. by destruct (get_session_ids _ _). }
    split; [done|]. split; [done|]. intros k c h Hh Hc. cbn [with_registry sv_registry sv_sessions] in *.
    destruct (decide (k = key)) as [->|Hk]; [|by apply Hrest]. rewrite Hm in Hc. by apply elem_of_nil in Hc.
  - destruct (rebalance_group_spec key (with_registry r s) snap Hf Hsnap) as (H1 & H2 & H3).
    unfold service_inv. rewrite H1. split; [done|]. split; [done|]. intros k c h Hh Hc. rewrite H3 in Hh.
    cbn [with_registry sv_registry sv_sessions] in *. case_bool_decide as Hk; [subst k|by apply Hrest].
    destruct (sessions_get (sv_sessions s) key c) as [h0|] eqn:E; [|done]. cbn [mbind option_bind] in Hh. unfold rebalanced in Hh.
    rewrite last_changed_get in Hh. case_bool_decide as Hch.
    + destruct (ss_open h0); [|done]. injection Hh as <-. cbn [ss_forward]. rewrite (Hfind c Hc). cbn [from_option Datatypes.id].
      case_bool_decide as Hnil; [exact Hnil|apply shard_offsets_for_ok, (proj2 Hr key)].
    + injection Hh as <-. destruct (Hann c Hc Hch) as [Hc0 ->]. eapply task_ok_mono; [apply Hoff|by apply Hs].
Qed.

(** ** The changes of the registry are announced *)

Lemma get_registry_join r key c k :
  get_group (registry_join key c r).2 k = if bool_decide (key = k) then (join c (get_group r key)).2 else get_group r k.
Proof.
  unfold registry_join. destruct (join c (get_group r key)) as [res g]. cbn [snd]. apply get_set_group.
Qed.

Lemma get_registry_leave r key c k :
  get_group (registry_leave key c r).2 k = if bool_decide (key = k) then (leave c (get_group r key)).2 else get_group r k.
Proof.
  unfold registry_leave. destruct (groups r !! key) as [g|] eqn:E.
  - assert (get_group r key = g) as -> by (unfold get_group; by rewrite E). destruct (leave c g) as [res g']. cbn [snd]. apply get_set_group.
  - cbn [snd]. case_bool_decide; [|done]. subst k. unfold get_group. rewrite E. done.
Qed.

Lemma reg_shards_set key g r : reg_num_shards (set_group key g r) = reg_num_shards r.
Proof. done. Qed.

Lemma apply_registry_shards r op : reg_num_shards (apply_registry r op) = reg_num_shards r.
Proof.
  destruct op as [k c|k c|k s q]; cbn [apply_registry].
  - unfold registry_join. by destruct (join c _).
  - unfold registry_leave. destruct (groups r !! k); [|done]. by destruct (leave c _).
  - unfold registry_commit_offset. by destruct (commit_offset s q _).
Qed.

Lemma apply_registry_group r op k :
  get_group (apply_registry r op) k = get_group r k \/ exists gop, get_group (apply_registry r op) k = apply_op (get_group r k) gop.
Proof.
  destruct op as [key c|key c|key s q]; cbn [apply_registry].
  - rewrite get_registry_join. case_bool_decide as H; [subst; right; by exists (OpJoin c)|by left].
  - rewrite get_registry_leave. case_bool_decide as H; [subst; right; by exists (OpLeave c)|by left].
  - unfold registry_commit_offset. pose proof (get_set_group r key k) as Hg.
    destruct (commit_offset s q (get_group r key)) as [res g] eqn:E. cbn [snd]. rewrite Hg. case_bool_decide as H; [|by left].
    subst. right. exists (OpCommit s q). cbn [apply_op]. by rewrite E.
Qed.

Lemma registry_offset_up r op k s : registry_shard_offset r k s <= registry_shard_offset (apply_registry r op) k s.
Proof.
  rewrite apply_registry_offset. destruct op; [lia|lia|]. case_bool_decide; lia.
Qed.

Lemma apply_registry_ok r op : groups_ok r -> groups_ok (apply_registry r op).
Proof.
  intros [H0 Hr]. split; [by rewrite apply_registry_shards|]. intros k. rewrite apply_registry_shards.
  destruct (Hr k) as (Hok & HN & Hoff).
  assert (forall s, 0 <= registry_shard_offset (apply_registry r op) k s) as Hoff' by (intros s; etrans; [apply Hoff|apply registry_offset_up]).
  destruct (apply_registry_group r op k) as [->|[gop ->]]; [done|].
  rewrite apply_op_shards. split_and!; [apply apply_op_ok; [lia|done]|done|done].
Qed.

Lemma join_announced r key c : groups_ok r -> announced r (registry_join key c r).2 key.
Proof.
  intros [H0 Hr]. destruct (Hr key) as (Hok & HN & _). split; [|split].
  - intros k Hk. rewrite get_registry_join. by rewrite bool_decide_false.
  - apply (registry_offset_up r (RJoin key c)).
  - rewrite get_registry_join, bool_decide_true by done. set (g := get_group r key) in *. intros c' Hc' Hch.
    destruct (decide (c ∈ members g)) as [Hin|Hin].
    { unfold join in *. rewrite bool_decide_true in * by done. done. }
    destruct (decide (members g = [])) as [Hnil|Hne].
    { exfalso. unfold join in *. rewrite bool_decide_false in * by done. rewrite bool_decide_true in * by done.
      cbn [snd members last_changed] in *. apply Hch. by apply elem_of_list_to_set. }
    assert (assigned (join c g).2 c' = assigned g c') as Heq.
    { destruct (decide (assigned (join c g).2 c' = assigned g c')) as [|Hd]; [done|]. exfalso. apply Hch. apply join_changed; [lia|done..]. }
    split; [|done]. destruct (Hok) as (_ & Hdom & _).
    destruct (join_new g c ltac:(lia) Hok Hne Hin) as [Hms Has].
    rewrite Hms in Hc'. apply elem_of_app in Hc' as [|Hc']; [done|].
    apply list_elem_of_singleton in Hc' as ->. exfalso. apply Hin, Hdom. unfold assigned in Heq. by rewrite <- Heq.
Qed.

Lemma leave_announced r key c : groups_ok r -> announced r (registry_leave key c r).2 key.
Proof.
  intros [H0 Hr]. destruct (Hr key) as (Hok & HN & _). split; [|split].
  - intros k Hk. rewrite get_registry_leave. by rewrite bool_decide_false.
  - apply (registry_offset_up r (RLeave key c)).
  - rewrite get_registry_leave, bool_decide_true by done. set (g := get_group r key) in *. intros c' Hc' Hch.
    destruct (decide (c ∈ members g)) as [Hin|Hin]; [|unfold leave in *; rewrite bool_decide_false in * by done; done].
    apply leave_members in Hc' as [Hc' Hne]; [|done|done]. split; [done|].
    destruct (decide (assigned (leave c g).2 c' = assigned g c')) as [|Hd]; [done|]. exfalso. apply Hch.
    apply leave_changed; [lia|done..].
Qed.

(** ** All histories *)

Inductive ServiceOp :=
  | SJoin (redirect : option string) (key : GroupKey) (consumer_id : string)
  | SLeave (redirect : option string) (key : GroupKey) (consumer_id : string)
  | SConsume (redirect : option string) (now : Z) (key : GroupKey) (consumer_id : string) (generation : Z)
  | SHeartbeat (redirect : option string) (now : Z) (key : GroupKey) (consumer_id : string) (generation : Z)
  | SCommit (key : GroupKey) (shard seq : Z)
  | SEvict (now timeout_ms : Z)
  | SForwardEnded (key : GroupKey) (consumer_id : string)
  | SConsumerGone (key : GroupKey) (consumer_id : string)
  | SOrphansGone (key : GroupKey) (consumer_id : string).

Definition service_step (s : Service) (op : ServiceOp) : Service :=
  match op with
  | SJoin redirect key c => (join_group redirect key c s).2
  | SLeave redirect key c => (leave_group redirect key c s).2
  | SConsume redirect now key c gen => (consume redirect now key c gen s).2
  | SHeartbeat redirect now key c gen => (heartbeat redirect now key c gen s).2
  | SCommit key shard seq => commit_shard key shard seq s
  | SEvict now timeout_ms => evict_stale now timeout_ms s
  | SForwardEnded key c => forward_ended key c s
  | SConsumerGone key c => consumer_gone key c s
  | SOrphansGone key c => orphans_gone key c s
  end.

Definition run_service (num_shards : Z) (ops : list ServiceOp) : Service :=
  foldl service_step (mkService (registry_new num_shards) ∅ true []) ops.

Lemma join_group_inv redirect key c s : service_inv s -> service_inv (join_group redirect key c s).2.
Proof.
  intros Hs. unfold join_group, join_registry. destruct redirect; [done|]. destruct (_ || _); [done|].
  assert (groups_ok (sv_registry s)) as Hr by apply Hs.
  pose proof (join_announced _ key c Hr) as Ha. pose proof (apply_registry_ok _ (RJoin key c) Hr) as Hr'. cbn [apply_registry] in Hr'.
  destruct (registry_join key c (sv_registry s)) as [res r]. by apply rebalance_inv.
Qed.

Lemma leave_group_inv redirect key c s : service_inv s -> service_inv (leave_group redirect key c s).2.
Proof.
  intros Hs. unfold leave_group. destruct redirect; [done|]. assert (groups_ok (sv_registry s)) as Hr by apply Hs.
  pose proof (leave_announced _ key c Hr) as Ha. pose proof (apply_registry_ok _ (RLeave key c) Hr) as Hr'. cbn [apply_registry] in Hr'.
  assert ((registry_leave key c (sv_registry s)).1 = false -> (registry_leave key c (sv_registry s)).2 = sv_registry s) as Hno.
  { unfold registry_leave. destruct (groups (sv_registry s) !! key) as [g|] eqn:E; [|done]. unfold leave.
    case_bool_decide; [by destruct (recompute_sticky _ _ _)|]. intros _. cbn [snd]. unfold set_group.
    rewrite insert_id by done. by destruct (sv_registry s). }
  destruct (registry_leave key c (sv_registry s)) as [ok r]. cbn [fst snd] in *. destruct ok; [by apply rebalance_inv|].
  rewrite Hno by done. by destruct s.
Qed.

(** Work on sessions that keeps their tasks or drops them. *)
Lemma sessions_inv s ss :
  (forall key c h, sessions_get ss key c = Some h ->
     (exists h0, sessions_get (sv_sessions s) key c = Some h0 /\ ss_forward h0 = ss_forward h)) ->
  service_inv s -> service_inv (with_sessions ss s).
Proof.
  intros Hss (Hf & Hr & Hs). split; [done|]. split; [done|]. cbn [with_sessions sv_registry sv_sessions]. intros key c h Hh Hc.
  destruct (Hss _ _ _ Hh) as (h0 & Hh0 & <-). by apply Hs.
Qed.

Lemma leave_tasks_inv key c tasks s : service_inv s -> service_inv (leave_tasks key c tasks s).
Proof. unfold leave_tasks. destruct (sessions_get _ _ _) as [h|]; [|done]. by destruct (ss_open h). Qed.

Lemma remove_inv key c tasks s :
  service_inv s ->
  let s := leave_tasks key c tasks s in service_inv (with_sessions (sessions_remove key c (sv_sessions s)) s).
Proof.
  intros Hs s'. apply sessions_inv; [|by apply leave_tasks_inv]. clearbody s'. clear Hs s. intros k c' h. rewrite sessions_get_remove. case_bool_decide; [done|]. intros Hh. by exists h.
Qed.

Lemma update_inv key c f s :
  (forall h, ss_forward (f h) = ss_forward h) -> service_inv s -> service_inv (with_sessions (sessions_update key c f (sv_sessions s)) s).
Proof.
  intros Hf. apply sessions_inv. intros k c' h. rewrite sessions_get_update. case_bool_decide; [|intros Hh; by exists h].
  destruct (sessions_get (sv_sessions s) k c') as [h0|]; [|done]. cbn. intros [= <-]. exists h0. by rewrite Hf.
Qed.

Lemma consume_inv redirect now key c gen s : service_inv s -> service_inv (consume redirect now key c gen s).2.
Proof.
  intros Hs. unfold consume. destruct redirect; [done|]. destruct (_ || _); [done|]. destruct (negb (sv_forwarder s)); [done|].
  destruct (group_snapshot_get (sv_registry s) key) as [[-> _]|(snap & -> & _ & Hfind)]; [done|].
  destruct (negb _); [done|]. destruct (snapshot_find (sn_members snap) c) as [[|x shards]|] eqn:E; [done| |done].
  destruct (leave_tasks_same key c detach s) as (L1 & L2 & L3).
  destruct Hs as (Hf & Hr & Hs). unfold put_session, service_inv. cbn [snd with_sessions sv_registry sv_sessions sv_forwarder].
  rewrite L1, L2, L3. split; [done|]. split; [done|]. intros k c' h. rewrite sessions_get_insert. case_bool_decide as Hk; [|apply Hs]. destruct Hk as [<- <-]. intros [= <-] Hc.
  rewrite (Hfind c Hc) in E. injection E as ->. unfold spawn_forward. rewrite Hf. cbn [set_forward ss_forward]. apply shard_offsets_for_ok, (proj2 Hr key).
Qed.

Lemma evict_inv kc s : service_inv s -> service_inv (evict s kc).
Proof.
  intros Hs. unfold evict. pose proof (remove_inv kc.1 kc.2 detach s Hs) as Hs'.
  fold (drop_session kc.1 kc.2 s) in Hs'. set (s' := drop_session _ _ s) in *. assert (groups_ok (sv_registry s')) as Hr by apply Hs'.
  apply rebalance_inv; [done| |by apply leave_announced]. by apply (apply_registry_ok _ (RLeave kc.1 kc.2)).
Qed.

Lemma commit_shard_inv key shard seq s : service_inv s -> service_inv (commit_shard key shard seq s).
Proof.
  intros (Hf & Hr & Hs). split; [done|]. split; [by apply (apply_registry_ok _ (RCommit key shard seq))|].
  unfold commit_shard. cbn [with_registry sv_registry sv_sessions]. intros k c h Hh.
  assert (forall c, assigned (get_group (registry_commit_offset key shard seq (sv_registry s)).2 k) c = assigned (get_group (sv_registry s) k) c) as Has.
  { intros c'. unfold registry_commit_offset, commit_offset. cbn [snd]. rewrite get_set_group. case_bool_decide; [by subst|done]. }
  assert (members (get_group (registry_commit_offset key shard seq (sv_registry s)).2 k) = members (get_group (sv_registry s) k)) as ->.
  { unfold registry_commit_offset, commit_offset. cbn [snd]. rewrite get_set_group. case_bool_decide; [by subst|done]. }
  intros Hc. rewrite Has. eapply task_ok_mono; [|by apply Hs]. intros sh. apply (registry_offset_up _ (RCommit key shard seq)).
Qed.

Lemma service_step_inv s op : service_inv s -> service_inv (service_step s op).
Proof.
  intros Hs. destruct op as [rd key c|rd key c|rd now key c gen|rd now key c gen|key sh q|now t|key c|key c|key c]; cbn [service_step].
  - by apply join_group_inv.
  - by apply leave_group_inv.
  - by apply consume_inv.
  - unfold heartbeat. destruct rd; [done|]. destruct (sessions_get _ _ _); [|done]. by apply update_inv.
  - by apply commit_shard_inv.
  - unfold evict_stale. generalize (stale_consumers now t (sv_sessions s)). intros l. revert s Hs.
    induction l as [|kc l IH]; intros s Hs; [done|]. cbn [foldl]. by apply IH, evict_inv.
  - by apply (remove_inv key c ss_detached).
  - by apply update_inv.
  - exact Hs.
Qed.

Lemma run_service_inv num_shards ops : 0 <= num_shards -> service_inv (run_service num_shards ops).
Proof.
  intros H0. unfold run_service. assert (service_inv (mkService (registry_new num_shards) ∅ true [])) as Hs.
  { split; [done|]. split; [|done]. split; [done|]. intros key. split; [apply group_ok_new|done]. }
  revert Hs. generalize (mkService (registry_new num_shards) ∅ true []). induction ops as [|op ops IH]; intros s Hs; [done|].
  cbn [foldl]. by apply IH, service_step_inv.
Qed.

(** The shards a consumer is sent records of: those of the task its session
    holds, and those of tasks that were aborted and left running. *)
Definition current (s : Service) (key : GroupKey) (c : string) (shard : Z) : Prop :=
  exists h t, sessions_get (sv_sessions s) key c = Some h /\ ss_forward h = Some t /\ is_Some (t !! shard).

Definition stray (s : Service) (key : GroupKey) (c : string) (shard : Z) : Prop :=
  (exists h t, sessions_get (sv_sessions s) key c = Some h /\ ss_open h = true /\ t ∈ ss_detached h /\ is_Some (t !! shard)) \/
  (exists t, (key, c, t) ∈ sv_orphans s /\ is_Some (t !! shard)).

Lemma current_assigned num_shards ops key c shard :
  0 <= num_shards ->
  let s := run_service num_shards ops in let g := get_group (sv_registry s) key in
  c ∈ members g -> current s key c shard -> shard ∈ default [] (assigned g c).
Proof.
  intros H0 s g Hc (h & t & Hh & Ht & Hsh). destruct (run_service_inv num_shards ops H0) as (_ & _ & Hs).
  specialize (Hs key c h Hh Hc). rewrite Ht in Hs. by apply Hs.
Qed.

Lemma current_unique num_shards ops key c1 c2 shard :
  0 <= num_shards ->
  let s := run_service num_shards ops in let g := get_group (sv_registry s) key in
  c1 ∈ members g -> c2 ∈ members g -> current s key c1 shard -> current s key c2 shard -> c1 = c2.
Proof.
  intros H0 s g M1 M2 C1 C2.
  assert (shard ∈ default [] (assigned g c1)) as S1 by (by apply (current_assigned num_shards ops key)).
  assert (shard ∈ default [] (assigned g c2)) as S2 by (by apply (current_assigned num_shards ops key)).
  assert (group_ok g) as Hr by (by apply (run_service_inv num_shards ops H0)).
  destruct (assigned g c1) as [l1|] eqn:A1; [|by apply elem_of_nil in S1].
  destruct (assigned g c2) as [l2|] eqn:A2; [|by apply elem_of_nil in S2].
  eapply (owner_unique g); [exact Hr|exact A1|exact A2|exact S1|exact S2].
Qed.


(** ** What forwarding sends *)

(** The frames of a Tail for a consumer that listens throughout. *)
Fixpoint tail_frames (tail : list (list LogdbdRecord + string)) (shard_id : Z) (caught_up_sent : bool) : list Frame :=
  match tail with
  | [] => []
  | inr status :: _ => [FError status]
  | inl [] :: tail => (if caught_up_sent then [] else [FCaughtUp shard_id]) ++ tail_frames tail shard_id true
  | inl rs :: tail => ((fun r => FRecord (into_broker_record r shard_id)) <$> rs) ++ tail_frames tail shard_id caught_up_sent
  end.

(** Sends [fs] as far as the consumer listens. *)
Definition deliver (fs : list Frame) (c : Channel) : Channel :=
  mkChannel (ch_sent c ++ take (ch_cap c) fs) (ch_cap c - length fs).

Lemma send_records_spec rs shard_id c :
  let '(ok, c') := send_records rs shard_id c in
  c' = deliver ((fun r => FRecord (into_broker_record r shard_id)) <$> rs) c /\
  ok = bool_decide (length rs <= ch_cap c)%nat.
Proof.
  revert c. induction rs as [|r rs IH]; intros [sent cap]; cbn [send_records].
  { split; [unfold deliver; cbn; by rewrite take_nil, app_nil_r, Nat.sub_0_r|]. by rewrite bool_decide_true by (cbn; lia). }
  unfold ch_send. cbn [ch_cap ch_sent]. destruct cap as [|cap].
  { split; [unfold deliver; cbn; by rewrite app_nil_r|done]. }
  specialize (IH (mkChannel (sent ++ [FRecord (into_broker_record r shard_id)]) cap)).
  destruct (send_records rs shard_id _) as [ok c']. destruct IH as [-> ->]. split.
  - unfold deliver. cbn [ch_sent ch_cap]. csimpl. by rewrite <- app_assoc.
  - cbn [ch_cap length]. apply bool_decide_ext. lia.
Qed.

Lemma deliver_app fs gs c : (length fs <= ch_cap c)%nat -> deliver gs (deliver fs c) = deliver (fs ++ gs) c.
Proof.
  intros Hle. unfold deliver. cbn [ch_sent ch_cap]. rewrite length_app, take_app_ge, <- app_assoc by lia.
  rewrite (take_ge fs) by lia. f_equal. lia.
Qed.

Lemma deliver_cut fs gs c : (ch_cap c < length fs)%nat -> deliver fs c = deliver (fs ++ gs) c.
Proof.
  intros Hlt. unfold deliver. rewrite length_app, take_app_le by lia. f_equal. lia.
Qed.

(** The consumer of a shard gets, for as long as it listens, the records of the
    Tail in order and stamped with the shard, one [CaughtUp] at the first empty
    response and no other, and the Tail's error, after which nothing comes. *)
Theorem forward_stream_delivers (tail : list (list LogdbdRecord + string)) (shard_id : Z) (c : Channel) :
  forward_stream tail shard_id false c = deliver (tail_frames tail shard_id false) c.
Proof.
  generalize false at 1 2. intros sent. revert sent c.
  induction tail as [|[rs|status] tail IH]; intros sent c; cbn [forward_stream tail_frames].
  { unfold deliver. destruct c. cbn. by rewrite take_nil, app_nil_r, Nat.sub_0_r. }
  - destruct rs as [|r rs].
    + rewrite bool_decide_true by done. cbn [andb]. destruct sent; cbn [negb orb].
      { cbn [send_records app]. apply IH. }
      unfold ch_send. destruct c as [fs [|n]]; cbn [ch_cap ch_sent send_records]; [unfold deliver; cbn; by rewrite app_nil_r|].
      rewrite IH. unfold deliver. cbn [ch_sent ch_cap app take length]. by rewrite <- app_assoc.
    + rewrite bool_decide_false by done. cbn [andb]. pose proof (send_records_spec (r :: rs) shard_id c) as Hs.
      destruct (send_records (r :: rs) shard_id c) as [ok c']. destruct Hs as [-> ->]. rewrite orb_false_r.
      case_bool_decide as Hle.
      * rewrite IH. apply deliver_app. rewrite length_fmap. done.
      * apply deliver_cut. rewrite length_fmap. lia.
  - unfold ch_send, deliver. destruct c as [fs [|n]]; cbn; [by rewrite app_nil_r|]. by rewrite Nat.sub_0_r, take_nil.
Qed.

(** ** Where the service falls short *)

Local Open Scope string_scope.

Definition demo_key : GroupKey := mkGroupKey "ns" "st" "g".

Definition demo_two : list ServiceOp :=
  [SJoin None demo_key "a"; SJoin None demo_key "b"; SConsume None 0 demo_key "a" 2; SConsume None 0 demo_key "b" 2].

Definition forwarded (s : Service) (c : string) : list Z :=
  match sessions_get (sv_sessions s) demo_key c ≫= ss_forward with Some t => (map_to_list t).*1 | None => [] end.

(** A consumer that leaves while its stream is open is not told, and its task
    goes on forwarding shards that a member forwards too. *)
Theorem departed_stream_keeps_running :
  let s := run_service 2 (demo_two ++ [SLeave None demo_key "b"]) in
  members (get_group (sv_registry s) demo_key) = ["a"] /\
  forwarded s "b" = [1] /\ 1 ∈ forwarded s "a" /\
  (ss_sent <$> sessions_get (sv_sessions s) demo_key "b") = Some [].
Proof. split; [by vm_compute|]. split; [by vm_compute|]. split; [|by vm_compute]. vm_compute. repeat constructor. Qed.

(** A rebalance leaves the tasks it aborts running: when "c" joins, the shard
    that moves to it is still sent to the consumer it moved from. *)
Theorem rebalance_leaves_tasks_running :
  let s := run_service 3 (demo_two ++ [SJoin None demo_key "c"; SConsume None 0 demo_key "c" 3]) in
  current s demo_key "c" 2 /\ stray s demo_key "a" 2 /\
  assigned (get_group (sv_registry s) demo_key) "a" = Some [0].
Proof.
  split; [|split; [|by vm_compute]].
  - eexists _, _. split; [by vm_compute|]. split; [by vm_compute|]. vm_compute. by eexists.
  - left. eexists _, _. split; [by vm_compute|]. split; [by vm_compute|]. split; [left|]. vm_compute. by eexists.
Qed.

(** Two joins whose registry halves both run before either rebalances. *)
Definition two_joins (key : GroupKey) (c1 c2 : string) (s : Service) : Service :=
  rebalance_group key (rebalance_group key (join_registry key c2 (join_registry key c1 s).2).2).

(** When two joins overlap, a consumer that only the first one moved is never
    told: its task goes on forwarding a shard that is another's. *)
Theorem overlapping_joins_miss_change :
  let s := two_joins demo_key "c" "d" (run_service 3 demo_two) in
  let g := get_group (sv_registry s) demo_key in
  assigned g "a" = Some [0] /\ assigned g "c" = Some [2] /\ 2 ∈ forwarded s "a".
Proof. split; [by vm_compute|]. split; [by vm_compute|]. vm_compute. repeat constructor. Qed.

(** A member that joins again changes nothing in the group, but the streams of
    the consumers that the last change moved are stopped and restarted. *)
Theorem rejoin_restarts_streams :
  let s := run_service 2 demo_two in
  let s' := service_step s (SJoin None demo_key "a") in
  get_group (sv_registry s') demo_key = get_group (sv_registry s) demo_key /\
  (ss_sent <$> sessions_get (sv_sessions s) demo_key "b") = Some [] /\
  (ss_sent <$> sessions_get (sv_sessions s') demo_key "b") = Some [FRebalance 2; FAssignment 2 [1]].
Proof. by vm_compute. Qed.

(** ** Witness *)

(** "c" joins a group with two open streams, then "b" goes silent and is evicted;
    "a" and "c" then have all shards, "a"'s stream follows. *)
Definition demo_service : list ServiceOp :=
  demo_two ++ [SCommit demo_key 0 4; SJoin None demo_key "c"; SHeartbeat None 5000 demo_key "a" 3; SEvict 6000 3000].

