(* ===== verification/ByteReader.v ===== *)
(** * Reading binary files front to back

    The server's file formats ([logdbd/src/record.rs], [offsets.rs], [catalog.rs])
    are written by appending fields and read by a position that moves over the
    bytes.  This file has the readers they share, UTF-8 validation and byte-string
    maps of the standard library ([str::from_utf8], [BTreeMap]), and the lemmas by
    which "what was written is read back" is put together from its parts. *)
From stdpp Require Import base gmap list numbers sorting.
From coqutil Require Import Byte.
From Stdlib Require Import ZArith Lia.
From S2P Require Import Prelude.
Open Scope Z_scope.

(** ** UTF-8 *)

Definition byte_in (lo hi : Z) (b : byte) : bool :=
  (lo <=? byte.unsigned b) && (byte.unsigned b <=? hi).

(** [str::from_utf8] accepts. *)
Fixpoint utf8_valid (bs : bytes) : bool :=
  match bs with
  | [] => true
  | b :: rest =>
      if byte_in 0 127 b then utf8_valid rest
      else
        match rest with
        | c :: rest =>
            if byte_in 194 223 b then byte_in 128 191 c && utf8_valid rest
            else
              match rest with
              | d :: rest =>
                  if byte_in 224 224 b then byte_in 160 191 c && byte_in 128 191 d && utf8_valid rest
                  else if byte_in 237 237 b then byte_in 128 159 c && byte_in 128 191 d && utf8_valid rest
                  else if byte_in 225 239 b then byte_in 128 191 c && byte_in 128 191 d && utf8_valid rest
                  else
                    match rest with
                    | e :: rest =>
                        (if byte_in 240 240 b then byte_in 144 191 c
                         else if byte_in 241 243 b then byte_in 128 191 c
                         else if byte_in 244 244 b then byte_in 128 143 c
                         else false) && byte_in 128 191 d && byte_in 128 191 e && utf8_valid rest
                    | [] => false
                    end
              | [] => false
              end
        | [] => false
        end
  end.

(** Valid texts can be joined. *)
Lemma utf8_app a b : utf8_valid a = true -> utf8_valid b = true -> utf8_valid (a ++ b) = true.
Proof.
  intros Ha Hb. remember (length a) as n eqn:Hn. revert a Hn Ha. induction n as [n IH] using lt_wf_ind; intros a -> Ha.
  destruct a as [|b0 a]; [done|]. cbn [utf8_valid app] in *. destruct (byte_in 0 127 b0); [apply (IH (length a)); cbn; auto with arith|].
  destruct a as [|b1 a]; [done|]. cbn [app]. destruct (byte_in 194 223 b0).
  { apply andb_prop in Ha as [-> Ha]. apply (IH (length a)); cbn; auto with arith. }
  destruct a as [|b2 a]; [done|]. cbn [app].
  repeat match type of Ha with
  | context [if ?c then _ else _] => destruct c; [apply andb_prop in Ha as [-> Ha]; apply (IH (length a)); cbn; auto with arith|]
  end.
  destruct a as [|b3 a]; [done|]. cbn [app]. apply andb_prop in Ha as [-> Ha]. apply (IH (length a)); cbn; auto with arith.
Qed.

(** ** Maps with byte-string keys, as ascending lists ([BTreeMap<String, _>]) *)

(** The order of strings. *)
Fixpoint bytes_ltb (a b : bytes) : bool :=
  match a, b with
  | [], [] => false
  | [], _ :: _ => true
  | _ :: _, [] => false
  | x :: a, y :: b => (byte.unsigned x <? byte.unsigned y) || ((byte.unsigned x =? byte.unsigned y) && bytes_ltb a b)
  end.

Fixpoint bt_insert {V} (k : bytes) (v : V) (m : list (bytes * V)) : list (bytes * V) :=
  match m with
  | [] => [(k, v)]
  | (k', v') :: m =>
      if bytes_ltb k k' then (k, v) :: (k', v') :: m
      else if bytes_ltb k' k then (k', v') :: bt_insert k v m
      else (k, v) :: m
  end.

Fixpoint bt_lookup {V} (k : bytes) (m : list (bytes * V)) : option V :=
  match m with
  | [] => None
  | (k', v') :: m => if bytes_ltb k' k then bt_lookup k m else if bytes_ltb k k' then None else Some v'
  end.

Definition bt_sorted {V} (m : list (bytes * V)) : Prop := StronglySorted (fun a b => bytes_ltb a.1 b.1 = true) m.

Lemma bytes_ltb_irrefl a : bytes_ltb a a = false.
Proof. induction a as [|x a IH]; [done|]. cbn. rewrite IH, Z.ltb_irrefl. by rewrite andb_false_r. Qed.

Lemma bytes_ltb_asym a b : bytes_ltb a b = true -> bytes_ltb b a = false.
Proof.
  revert b. induction a as [|x a IH]; intros [|y b]; cbn; [done..|]. rewrite orb_true_iff, andb_true_iff, Z.ltb_lt, Z.eqb_eq.
  intros [H|[H1 H2]].
  - rewrite (proj2 (Z.ltb_ge _ _)), (proj2 (Z.eqb_neq _ _)) by lia. done.
  - rewrite (proj2 (Z.ltb_ge _ _)) by lia. rewrite (IH _ H2). by rewrite andb_false_r.
Qed.

Lemma bytes_ltb_trans a b c : bytes_ltb a b = true -> bytes_ltb b c = true -> bytes_ltb a c = true.
Proof.
  revert b c. induction a as [|x a IH]; intros [|y b] [|z c]; cbn; try done.
  rewrite !orb_true_iff, !andb_true_iff, !Z.ltb_lt, !Z.eqb_eq. intros [H1|[H1 H2]] [H3|[H3 H4]]; [left; lia..|].
  right. split; [lia|by eapply IH].
Qed.

Lemma bytes_ltb_total a b : bytes_ltb a b = false -> bytes_ltb b a = false -> a = b.
Proof.
  revert b. induction a as [|x a IH]; intros [|y b]; cbn; try done.
  rewrite !orb_false_iff, !andb_false_iff, !Z.ltb_ge, !Z.eqb_neq. intros [H1 H2] [H3 H4].
  assert (byte.unsigned x = byte.unsigned y) as E by lia. f_equal; [|apply IH; [destruct H2; congruence|destruct H4; congruence]].
  rewrite <- (byte.of_Z_unsigned x), E. apply byte.of_Z_unsigned.
Qed.

Lemma bt_insert_elem {V} k (v : V) m kv : kv ∈ bt_insert k v m -> kv = (k, v) \/ kv ∈ m.
Proof.
  induction m as [|[k' v'] m IH]; cbn [bt_insert]; [by rewrite list_elem_of_singleton; left|].
  destruct (bytes_ltb k k'); [rewrite elem_of_cons; tauto|]. destruct (bytes_ltb k' k); rewrite !elem_of_cons; [|tauto].
  intros [->|H]; [tauto|]. destruct (IH H); tauto.
Qed.

Lemma bt_insert_sorted {V} k (v : V) m : bt_sorted m -> bt_sorted (bt_insert k v m).
Proof.
  induction 1 as [|[k' v'] m Hs IH Hf]; cbn [bt_insert]; [repeat constructor|]. destruct (bytes_ltb k k') eqn:E1.
  - constructor; [by constructor|]. constructor; [done|]. eapply Forall_impl; [exact Hf|]. intros kv Hkv. by eapply bytes_ltb_trans.
  - destruct (bytes_ltb k' k) eqn:E2.
    + constructor; [done|]. apply Forall_forall. intros kv [->|Hkv]%bt_insert_elem; [done|]. rewrite Forall_forall in Hf. by apply Hf.
    + rewrite (bytes_ltb_total k k') by done. by constructor.
Qed.

(** A key above all others is added at the end. *)
Lemma bt_insert_above {V} k (v : V) m :
  Forall (fun kv => bytes_ltb kv.1 k = true) m -> bt_insert k v m = m ++ [(k, v)].
Proof.
  induction 1 as [|[k' v'] m Hk H IH]; [done|]. cbn in *. rewrite (bytes_ltb_asym _ _ Hk), Hk. by rewrite IH.
Qed.

(** A new key is one more entry. *)
Lemma bt_insert_perm {V} k (v : V) m : k ∉ m.*1 -> bt_insert k v m ≡ₚ (k, v) :: m.
Proof.
  induction m as [|[k' v'] m IH]; intros Hk; [done|]. cbn [bt_insert fmap list_fmap fst] in *. apply not_elem_of_cons in Hk as [Hne Hk].
  destruct (bytes_ltb k k') eqn:E1; [done|]. destruct (bytes_ltb k' k) eqn:E2; [etrans; [apply Permutation_cons; [done|by apply IH]|apply Permutation_swap]|].
  exfalso. by apply Hne, bytes_ltb_total.
Qed.

(** Inserting the entries of a map in order builds the map. *)
Lemma bt_insert_all {V} (m acc : list (bytes * V)) :
  bt_sorted (acc ++ m) -> foldl (fun m kv => bt_insert kv.1 kv.2 m) acc m = acc ++ m.
Proof.
  revert acc. induction m as [|[k v] m IH]; intros acc Hs; cbn [foldl]; [by rewrite app_nil_r|].
  rewrite bt_insert_above.
  - cbn [fst snd]. rewrite IH; rewrite <- app_assoc; [done|]. done.
  - apply Forall_forall. intros kv Hkv. unfold bt_sorted in Hs. apply StronglySorted_app in Hs as (Hs & _ & _).
    apply (Hs kv (k, v) Hkv). left.
Qed.

(** ** Hash maps built entry by entry *)

#[global] Program Instance byte_countable : Countable byte :=
  inj_countable' byte.unsigned byte.of_Z _.
Next Obligation. intros b. apply byte.of_Z_unsigned. Qed.

Section InsertAll.
Context `{Countable K} {V : Type}.

(** [for (k, v) in l { m.insert(k, v) }]. *)
Definition insert_all (l : list (K * V)) (acc : gmap K V) : gmap K V := foldl (fun m kv => <[kv.1 := kv.2]> m) acc l.

Lemma insert_all_agree (m : gmap K V) l acc :
  acc ⊆ m -> (forall k v, (k, v) ∈ l -> m !! k = Some v) ->
  (forall k v, m !! k = Some v -> acc !! k = Some v \/ (k, v) ∈ l) -> insert_all l acc = m.
Proof.
  revert acc. induction l as [|[k v] l IH]; intros acc Hsub Hin Hall.
  - apply (anti_symm (⊆)); [done|]. apply map_subseteq_spec. intros k v Hk. destruct (Hall k v Hk) as [?|Hn]; [done|by apply elem_of_nil in Hn].
  - cbn [insert_all foldl fst snd]. assert (m !! k = Some v) as Hkv by (apply Hin; left). apply IH.
    + by apply insert_subseteq_l.
    + intros k' v' H'. apply Hin. by right.
    + intros k' v' H'. destruct (decide (k = k')) as [<-|Hne].
      * left. rewrite lookup_insert_eq. congruence.
      * rewrite lookup_insert_ne by done. destruct (Hall k' v' H') as [?|[[= -> ->]|?]%elem_of_cons]; tauto.
Qed.

(** Inserting the entries of a map, in any order, builds the map. *)
Lemma insert_all_elems (m : gmap K V) l : (forall k v, (k, v) ∈ l <-> m !! k = Some v) -> insert_all l ∅ = m.
Proof.
  intros Hl. apply insert_all_agree; [apply map_empty_subseteq| |]; intros k v; rewrite Hl; tauto.
Qed.

Lemma insert_all_perm (m : gmap K V) l : l ≡ₚ map_to_list m -> insert_all l ∅ = m.
Proof. intros Hp. apply insert_all_elems. intros k v. rewrite Hp. apply elem_of_map_to_list. Qed.

Lemma insert_all_inv (l : list (K * V)) acc k v : insert_all l acc !! k = Some v -> (k, v) ∈ l \/ acc !! k = Some v.
Proof.
  revert acc. induction l as [|[k' v'] l IH]; intros acc; [by right|]. cbn. intros [H'|H']%IH; [left; by right|].
  apply lookup_insert_Some in H' as [[-> ->]|[_ H']]; [left; left|by right].
Qed.

Lemma insert_all_lookup (l : list (K * V)) acc n d : NoDup l.*1 -> (n, d) ∈ l -> insert_all l acc !! n = Some d.
Proof.
  revert acc. induction l as [|[k v] l IH]; intros acc Hnd Hin; [by apply elem_of_nil in Hin|]. cbn [fmap list_fmap fst] in Hnd. apply NoDup_cons in Hnd as [Hk Hnd].
  change (insert_all l (<[k := v]> acc) !! n = Some d). apply elem_of_cons in Hin as [[= <- <-]|Hin]; [|by apply IH]. clear IH.
  assert ((<[n := d]> acc) !! n = Some d) as Ha by apply lookup_insert_eq. revert Ha. generalize (<[n := d]> acc). clear Hnd.
  induction l as [|[k v] l IH]; intros m Hm; [done|]. cbn [fmap list_fmap fst] in Hk. apply not_elem_of_cons in Hk as [Hne Hk]. cbn. apply (IH Hk).
  cbn. by rewrite lookup_insert_ne.
Qed.
End InsertAll.

(** ** Readers *)

Lemma Ok_inj {E A} (a b : A) : @Ok E A a = Ok b -> a = b.
Proof. by intros [= ->]. Qed.

(** A reader of an [A]: from a position, the value and the position behind it. *)
Definition Rd (E A : Type) : Type := bytes -> Z -> result E (A * Z).

Definition rd_ret {E A} (a : A) : Rd E A := fun _ pos => Ok (a, pos).

Definition rd_bind {E A B} (p : Rd E A) (f : A -> Rd E B) : Rd E B :=
  fun raw pos => match p raw pos with Ok (a, pos) => f a raw pos | Err e => Err e end.

Definition rd_fail {E A} (e : E) : Rd E A := fun _ _ => Err e.

(** [n] bytes, or [e] when fewer are left. *)
Definition rd_bytes {E} (e : E) (n : Z) : Rd E bytes :=
  fun raw pos => if blen raw <? pos + n then Err e else Ok (slice raw pos (pos + n), pos + n).

(** A little-endian integer of [n] bytes. *)
Definition rd_le {E} (e : E) (n : Z) : Rd E Z :=
  fun raw pos => if blen raw <? pos + n then Err e else Ok (get_le raw pos n, pos + n).

(** A string of [n] bytes. *)
Definition rd_str {E} (e bad : E) (n : Z) : Rd E bytes :=
  rd_bind (rd_bytes e n) (fun s => if utf8_valid s then rd_ret s else rd_fail bad).

(** [for _ in 0..n], collecting what is read. *)
Fixpoint rd_times {E A} (n : nat) (p : Rd E A) : Rd E (list A) :=
  match n with
  | O => rd_ret []
  | S n => rd_bind p (fun a => rd_bind (rd_times n p) (fun l => rd_ret (a :: l)))
  end.

#[global] Instance Rd_ret E : MRet (Rd E) := fun A => rd_ret.
#[global] Instance Rd_bind E : MBind (Rd E) := fun A B f p => rd_bind p f.

(** ** What a reader reads *)

(** The reader reads exactly these bytes, wherever they stand, and yields [a]. *)
Definition parses {E A} (p : Rd E A) (bs : bytes) (a : A) : Prop :=
  forall pre post, p (pre ++ bs ++ post) (blen pre) = Ok (a, blen pre + blen bs).

Lemma parses_ret {E A} (a : A) : parses (rd_ret (E := E) a) [] a.
Proof. intros pre post. unfold rd_ret. do 2 f_equal. cbn. lia. Qed.

Lemma parses_bind {E A B} (p : Rd E A) (f : A -> Rd E B) bs1 bs2 a b :
  parses p bs1 a -> parses (f a) bs2 b -> parses (p ≫= f) (bs1 ++ bs2) b.
Proof.
  intros H1 H2 pre post. unfold mbind, Rd_bind, rd_bind. rewrite <- app_assoc, H1. cbv iota beta.
  specialize (H2 (pre ++ bs1) post). rewrite <- app_assoc in H2. rewrite length_app, Nat2Z.inj_add in H2. rewrite H2.
  do 2 f_equal. rewrite length_app. lia.
Qed.

(** A check that reads nothing. *)
Lemma parses_check {E A B} (p : Rd E A) (f : A -> Rd E B) bs a b :
  parses p [] a -> parses (f a) bs b -> parses (p ≫= f) bs b.
Proof. intros H1 H2. by apply (parses_bind p f [] bs a b). Qed.

Lemma parses_eq {E A} (p : Rd E A) bs bs' a : parses p bs a -> bs = bs' -> parses p bs' a.
Proof. by intros ? <-. Qed.

Lemma parses_bytes {E} (e : E) bs : parses (rd_bytes e (blen bs)) bs bs.
Proof.
  intros pre post. unfold rd_bytes. rewrite !length_app, !Nat2Z.inj_add. rewrite (proj2 (Z.ltb_ge _ _)) by lia.
  do 2 f_equal. rewrite slice_app_r by lia. rewrite slice_app_exact by lia. done.
Qed.

Lemma parses_le {E} (e : E) n z : in_range (Z.of_nat n * 8) z -> parses (rd_le e (Z.of_nat n)) (to_le n z) z.
Proof.
  intros Hz pre post. pose proof (parses_bytes e (to_le n z) pre post) as H. unfold rd_bytes, rd_le in *.
  rewrite length_to_le in *. destruct (_ <? _); [done|]. injection H as H. unfold get_le. rewrite H. by rewrite from_to_le.
Qed.

Lemma parses_le1 {E} (e : E) z : in_range 8 z -> parses (rd_le e 1) (to_le 1 z) z.
Proof. intros H. by apply (parses_le e 1). Qed.

Lemma parses_le2 {E} (e : E) z : in_range 16 z -> parses (rd_le e 2) (to_le 2 z) z.
Proof. intros H. by apply (parses_le e 2). Qed.

Lemma parses_le4 {E} (e : E) z : in_range 32 z -> parses (rd_le e 4) (to_le 4 z) z.
Proof. intros H. by apply (parses_le e 4). Qed.

Lemma parses_le8 {E} (e : E) z : in_range 64 z -> parses (rd_le e 8) (to_le 8 z) z.
Proof. intros H. by apply (parses_le e 8). Qed.

Lemma parses_str {E} (e bad : E) s : utf8_valid s = true -> parses (rd_str e bad (blen s)) s s.
Proof.
  intros Hs. unfold rd_str. eapply parses_eq; [|apply app_nil_r].
  apply (parses_bind _ (fun s => if utf8_valid s then rd_ret s else rd_fail bad) _ _ s); [apply parses_bytes|].
  rewrite Hs. apply parses_ret.
Qed.

Lemma parses_times {E A} (p : Rd E A) (enc : A -> bytes) (l : list A) :
  (forall a, a ∈ l -> parses p (enc a) a) -> parses (rd_times (length l) p) (concat (enc <$> l)) l.
Proof.
  induction l as [|a l IH]; intros H; cbn [length rd_times]; [apply parses_ret|]. csimpl.
  apply (parses_bind p (fun a => rd_bind (rd_times (length l) p) (fun l => rd_ret (a :: l))) _ _ a); [apply H; left|].
  eapply parses_eq; [|apply app_nil_r].
  apply (parses_bind (rd_times (length l) p) (fun l => rd_ret (a :: l)) _ _ l).
  - apply IH. intros x Hx. apply H. by right.
  - apply parses_ret.
Qed.

(** A file that begins with what the reader reads. *)
Lemma parses_front {E A} (p : Rd E A) bs post a : parses p bs a -> p (bs ++ post) 0 = Ok (a, blen bs).
Proof. intros H. exact (H [] post). Qed.

Lemma parses_whole {E A} (p : Rd E A) bs a : parses p bs a -> p bs 0 = Ok (a, blen bs).
Proof. intros H. rewrite <- (app_nil_r bs) at 1. by apply parses_front. Qed.
