(* ===== verification/ServerRecord.v ===== *)
(** * The server's records ([logdbd/src/record.rs])

    [logdbd] wraps what a client appends in a header with the stream, the sequence
    within the stream, the event type and the metadata, and stores the result as the
    content of a log record.  Strings are their UTF-8 bytes, the metadata an
    ascending list of keys and values. *)
From stdpp Require Import base list numbers sorting.
From coqutil Require Import Byte.
From Stdlib Require Import ZArith Lia.
From S2P Require Import Prelude ByteReader.
Open Scope Z_scope.

Definition RECORD_MAGIC : Z := 19538.
Definition RECORD_VERSION : Z := 1.
Definition MAX_METADATA_COUNT : Z := 16.
Definition MAX_METADATA_BYTES : Z := 4096.

Record DecodedRecord := mkDecoded {
  d_namespace_id : Z;
  d_stream_id : Z;
  d_seq : Z;
  d_event_type : bytes;
  d_content_type : bytes;
  d_metadata : list (bytes * bytes);
  d_timestamp_ns : Z;
  d_user_content : bytes;
  d_shard_id : Z;
}.

Inductive RecordError :=
  | Truncated
  | BadMagic (m : Z)
  | UnsupportedVersion (v : Z)
  | InvalidUtf8
  | ContentTooLarge (n : Z)
  | MetadataTooMany (n : Z)
  | MetadataTooLarge (n : Z).

(** ** Encoding *)

Definition meta_bytes (metadata : list (bytes * bytes)) : Z :=
  foldr (fun kv n => blen kv.1 + blen kv.2 + n) 0 metadata.

(** One metadata entry; [as u8] and [as u16] cut the lengths off. *)
Definition encode_meta (kv : bytes * bytes) : bytes :=
  to_le 1 (blen kv.1) ++ kv.1 ++ to_le 2 (blen kv.2) ++ kv.2.

(** [encode_record]. *)
Definition encode_record (namespace_id stream_id seq : Z) (event_type content_type : bytes) (metadata : list (bytes * bytes))
    (timestamp_ns : Z) (user_content : bytes) : result RecordError bytes :=
  if MAX_METADATA_COUNT <? Z.of_nat (length metadata) then Err (MetadataTooMany (Z.of_nat (length metadata)))
  else if MAX_METADATA_BYTES <? meta_bytes metadata then Err (MetadataTooLarge (meta_bytes metadata))
  else if U32_MAX <? blen user_content then Err (ContentTooLarge (blen user_content))
  else Ok (
    to_le 2 RECORD_MAGIC ++ to_le 1 RECORD_VERSION ++ to_le 1 0 ++
    to_le 4 namespace_id ++ to_le 8 stream_id ++ to_le 8 seq ++
    to_le 2 (blen event_type) ++ event_type ++
    to_le 2 (blen content_type) ++ content_type ++
    to_le 1 (Z.of_nat (length metadata)) ++ concat (encode_meta <$> metadata) ++
    to_le 8 timestamp_ns ++ to_le 4 (blen user_content) ++ user_content).

(** ** Decoding *)

Definition read_u8 : Rd RecordError Z := rd_le Truncated 1.
Definition read_u16 : Rd RecordError Z := rd_le Truncated 2.
Definition read_u32 : Rd RecordError Z := rd_le Truncated 4.
Definition read_u64 : Rd RecordError Z := rd_le Truncated 8.
Definition read_str (len : Z) : Rd RecordError bytes := rd_str Truncated InvalidUtf8 len.
Definition read_bytes (len : Z) : Rd RecordError bytes := rd_bytes Truncated len.

Definition decode_meta : Rd RecordError (bytes * bytes) :=
  k_len ← read_u8;
  key ← read_str k_len;
  v_len ← read_u16;
  value ← read_str v_len;
  mret (key, value).

Definition check_magic (magic : Z) : Rd RecordError unit :=
  if magic =? RECORD_MAGIC then rd_ret tt else rd_fail (BadMagic magic).

Definition check_version (version : Z) : Rd RecordError unit :=
  if version =? RECORD_VERSION then rd_ret tt else rd_fail (UnsupportedVersion version).

Definition read_record : Rd RecordError DecodedRecord :=
  magic ← read_u16;
  _ ← check_magic magic;
  version ← read_u8;
  _ ← check_version version;
  _ ← read_u8;
  namespace_id ← read_u32;
  stream_id ← read_u64;
  seq ← read_u64;
  et_len ← read_u16;
  event_type ← read_str et_len;
  ct_len ← read_u16;
  content_type ← read_str ct_len;
  meta_count ← read_u8;
  metadata ← rd_times (Z.to_nat meta_count) decode_meta;
  timestamp_ns ← read_u64;
  content_len ← read_u32;
  user_content ← read_bytes content_len;
  mret (mkDecoded namespace_id stream_id seq event_type content_type
          (foldl (fun m kv => bt_insert kv.1 kv.2 m) [] metadata) timestamp_ns user_content 0).

(** [decode_record]: what stands behind the content is not looked at. *)
Definition decode_record (raw : bytes) : result RecordError DecodedRecord :=
  match read_record raw 0 with Ok (r, _) => Ok r | Err e => Err e end.

(** ** Round trip *)

(** What Rust's types guarantee of the arguments. *)
Definition meta_ok (metadata : list (bytes * bytes)) : Prop :=
  bt_sorted metadata /\ Forall (fun kv => utf8_valid kv.1 = true /\ utf8_valid kv.2 = true) metadata.

(** The lengths fit their fields. *)
Definition meta_fits (metadata : list (bytes * bytes)) : Prop :=
  Forall (fun kv => blen kv.1 < 2 ^ 8 /\ blen kv.2 < 2 ^ 16) metadata.

Lemma decode_meta_parses kv :
  utf8_valid kv.1 = true -> utf8_valid kv.2 = true -> blen kv.1 < 2 ^ 8 -> blen kv.2 < 2 ^ 16 ->
  parses decode_meta (encode_meta kv) kv.
Proof.
  intros U1 U2 L1 L2. unfold decode_meta, encode_meta.
  eapply parses_bind; [apply parses_le1; split; lia|].
  eapply parses_bind; [by apply parses_str|].
  eapply parses_bind; [apply parses_le2; split; lia|].
  eapply parses_eq; [eapply parses_bind; [by apply parses_str|]|apply app_nil_r].
  destruct kv. apply parses_ret.
Qed.

Lemma decode_encode_record ns st seq et ct md ts content raw post :
  in_range 32 ns -> in_range 64 st -> in_range 64 seq -> in_range 64 ts ->
  utf8_valid et = true -> utf8_valid ct = true -> meta_ok md ->
  blen et < 2 ^ 16 -> blen ct < 2 ^ 16 -> meta_fits md ->
  encode_record ns st seq et ct md ts content = Ok raw ->
  decode_record (raw ++ post) = Ok (mkDecoded ns st seq et ct md ts content 0).
Proof.
  intros Hns Hst Hseq Hts Uet Uct [Hsort Umd] Let Lct Lmd Henc. unfold encode_record in Henc.
  destruct (Z.ltb_spec MAX_METADATA_COUNT (Z.of_nat (length md))) as [|Hc]; [done|].
  destruct (Z.ltb_spec MAX_METADATA_BYTES (meta_bytes md)) as [|Hb]; [done|].
  destruct (Z.ltb_spec U32_MAX (blen content)) as [|Hl]; [done|]. apply Ok_inj in Henc as <-.
  assert (parses read_record (to_le 2 RECORD_MAGIC ++ to_le 1 RECORD_VERSION ++ to_le 1 0 ++ to_le 4 ns ++ to_le 8 st ++
    to_le 8 seq ++ to_le 2 (blen et) ++ et ++ to_le 2 (blen ct) ++ ct ++ to_le 1 (Z.of_nat (length md)) ++
    concat (encode_meta <$> md) ++ to_le 8 ts ++ to_le 4 (blen content) ++ content) (mkDecoded ns st seq et ct md ts content 0)) as H.
  { unfold read_record.
    eapply parses_bind; [apply parses_le2; by split|].
    apply (parses_check _ _ _ tt); [apply parses_ret|].
    eapply parses_bind; [apply parses_le1; by split|].
    apply (parses_check _ _ _ tt); [apply parses_ret|].
    eapply parses_bind; [apply parses_le1; by split|].
    eapply parses_bind; [by apply parses_le4|].
    eapply parses_bind; [by apply parses_le8|].
    eapply parses_bind; [by apply parses_le8|].
    eapply parses_bind; [apply parses_le2; split; lia|].
    eapply parses_bind; [by apply parses_str|].
    eapply parses_bind; [apply parses_le2; split; lia|].
    eapply parses_bind; [by apply parses_str|].
    eapply parses_bind; [apply parses_le1; unfold MAX_METADATA_COUNT in Hc; split; lia|].
    rewrite Nat2Z.id.
    eapply parses_bind; [apply (parses_times decode_meta encode_meta)|].
    { intros kv Hkv. rewrite Forall_forall in Umd. unfold meta_fits in Lmd. rewrite Forall_forall in Lmd.
      destruct (Umd _ Hkv), (Lmd _ Hkv). by apply decode_meta_parses. }
    eapply parses_bind; [by apply parses_le8|].
    eapply parses_bind; [apply parses_le4; split; lia|].
    eapply parses_eq; [eapply parses_bind; [apply parses_bytes|]|apply app_nil_r].
    rewrite (bt_insert_all md []) by done. apply parses_ret. }
  unfold decode_record. by rewrite (parses_front _ _ post _ H).
Qed.

(** An encoded record, followed by anything, is decoded to what was encoded,
    provided the lengths of its strings fit the fields they are written to. *)
Theorem server_record_round_trip (ns st seq : Z) (et ct : bytes) (md : list (bytes * bytes)) (ts : Z) (content raw post : bytes) :
  in_range 32 ns -> in_range 64 st -> in_range 64 seq -> in_range 64 ts ->
  utf8_valid et = true -> utf8_valid ct = true -> meta_ok md ->
  blen et < 2 ^ 16 -> blen ct < 2 ^ 16 -> meta_fits md ->
  encode_record ns st seq et ct md ts content = Ok raw ->
  decode_record (raw ++ post) = Ok (mkDecoded ns st seq et ct md ts content 0).
Proof. intros. by apply decode_encode_record. Qed.

(** ** Where lengths do not fit *)

(** Letters as UTF-8. *)
Definition demo_text (n : Z) : bytes := replicate (Z.to_nat n) Byte.x61.

(** A metadata key of 256 bytes is within the limits that [encode_record] checks,
    but its length is written as 0: the record is accepted and stored, and can never
    be decoded again. *)
Theorem long_key_is_unreadable :
  exists raw, encode_record 1 1 1 [] [] [(demo_text 256, [])] 0 [] = Ok raw /\ decode_record raw = Err Truncated.
Proof. eexists. split; [by vm_compute|]. by vm_compute. Qed.

(** ** Witness *)

Lemma server_record_round_trip_witness :
  match encode_record 1 7 42 (demo_text 3) (demo_text 4) [(demo_text 1, demo_text 2); (demo_text 2, [])] 99 (demo_text 5) with
  | Ok raw => decode_record (raw ++ [Byte.x00]) =
      Ok (mkDecoded 1 7 42 (demo_text 3) (demo_text 4) [(demo_text 1, demo_text 2); (demo_text 2, [])] 99 (demo_text 5) 0)
  | Err _ => False
  end.
Proof.
  destruct (encode_record 1 7 42 (demo_text 3) (demo_text 4) [(demo_text 1, demo_text 2); (demo_text 2, [])] 99 (demo_text 5)) as [raw|e] eqn:E;
    [|by vm_compute in E].
  apply (server_record_round_trip 1 7 42 (demo_text 3) (demo_text 4) [(demo_text 1, demo_text 2); (demo_text 2, [])] 99 (demo_text 5) raw [Byte.x00]);
    [by split|by split|by split|by split|by vm_compute|by vm_compute| |by vm_compute|by vm_compute| |exact E].
  - split; repeat constructor.
  - apply Forall_cons. split; [by split|]. apply Forall_cons. split; [by split|]. by apply Forall_nil.
Defined.
