(* ===== verification/StreamStore.v ===== *)
(** * Streams over the log ([logdbd/src/storage.rs])

    The server keeps, for every stream, which record of the log holds which of the
    stream's sequence numbers, and what number comes next.  The map is in memory; it
    is rebuilt from the log when the server starts, or loaded from a checkpoint file
    and completed from the log.

    The log is what its handle shows: the content appended under each id, the
    cursors below which the records of a shard are committed, so that a scan may find
    them, and durable, so that a read may, and the ids that a search misses all the
    same ([HandleRead] and [Scan] prove of the handle's reads and scans that nothing is
    missed in directories whose segments start above the records before them; after a
    roll to a pre-allocated segment with a stale base, and after segments were
    deleted, records are missed).
    The id an append is given, or its failure, is a parameter of the append.  An
    ordered map is a [gmap] whose entries are listed in ascending order. *)
From stdpp Require Import base gmap list numbers sorting.
From coqutil Require Import Byte.
From Stdlib Require Import ZArith Lia.
From S2P Require Import Prelude RustStd Shard ByteReader ServerRecord.
Open Scope Z_scope.

(** ** The log *)

(** The contents appended, each shard's committed and durable cursor, and the ids
    that a read of, or a scan from, an id does not find: those whose segment was
    deleted (retention, checkpoint) or lies before the segment the search starts in
    (a stale base sequence). *)
Record LogState := mkLogState {
  ls_written : gmap Z bytes;
  ls_committed : list Z;
  ls_durable : list Z;
  ls_bits : Z;
  ls_hidden : Z -> gset Z;
}.

(** A log that finds all its records. *)
Abbreviation mkLog w c d b := (mkLogState w c d b (fun _ => ∅)).

(** The record is below its shard's cursor. *)
Definition below_cursor (cursors : list Z) (bits gid : Z) : bool :=
  let '(shard, local) := decode_record_id gid bits in local <? default 0 (cursors !! Z.to_nat shard).
Definition committed_at (d : LogState) (gid : Z) : bool := below_cursor (ls_committed d) (ls_bits d) gid.
Definition durable_at (d : LogState) (gid : Z) : bool := below_cursor (ls_durable d) (ls_bits d) gid.

(** [LogDb::read] and [LogDb::read_batch]. *)
Definition log_read (d : LogState) (gid : Z) : option bytes :=
  if durable_at d gid && bool_decide (gid ∉ ls_hidden d gid) then ls_written d !! gid else None.

(** [LogDb::durable_cursor] and [LogDb::committed_cursor]: the least of the shards'
    cursors, which count the records of one shard. *)
Definition durable_cursor (d : LogState) : Z := default 0 (list_min (ls_durable d)).
Definition committed_cursor (d : LogState) : Z := default 0 (list_min (ls_committed d)).

(** The entries of an ordered map, ascending. *)
Definition ascending_list {V} (m : gmap Z V) : list (Z * V) := sort_by_key fst (map_to_list m).

(** [LogDb::scan] and [LogDb::scan_shard]: the committed records that are found, in
    order of ids. *)
Definition log_scan (d : LogState) (from to : Z) : list (Z * bytes) :=
  filter (fun gc => from <= gc.1 < to /\ committed_at d gc.1 = true /\ gc.1 ∉ ls_hidden d from) (ascending_list (ls_written d)).

Definition log_scan_shard (d : LogState) (bits shard from to : Z) : list (Z * bytes) :=
  filter (fun gc => (decode_record_id gc.1 bits).1 = shard) (log_scan d from to).

(** ** The storage *)

Record Storage := mkStorage {
  st_db : LogState;
  seq_map : gmap Z (gmap Z Z);
  next_seqs : gmap Z Z;
  replicated_seq : Z;
  st_num_shards : Z;
  st_shard_bits : Z;
}.

Inductive StorageError :=
  | SRecord (e : RecordError)
  | SLogDb
  | SPanic.

Definition with_db (d : LogState) (s : Storage) : Storage :=
  mkStorage d (seq_map s) (next_seqs s) (replicated_seq s) (st_num_shards s) (st_shard_bits s).

Definition with_maps (m : gmap Z (gmap Z Z)) (n : gmap Z Z) (s : Storage) : Storage :=
  mkStorage (st_db s) m n (replicated_seq s) (st_num_shards s) (st_shard_bits s).

(** [entry(sid).or_default().insert(seq, gid)]. *)
Definition map_put (m : gmap Z (gmap Z Z)) (sid seq gid : Z) : gmap Z (gmap Z Z) :=
  <[sid := <[seq := gid]> (default ∅ (m !! sid))]> m.

(** [entry(sid).or_insert(1)], raised above [seq]. *)
Definition next_put (n : gmap Z Z) (sid seq : Z) : gmap Z Z :=
  let cur := default 1 (n !! sid) in <[sid := if cur <=? seq then seq + 1 else cur]> n.

(** The record of the log under [gid], entered in the maps. *)
Definition enter (mn : gmap Z (gmap Z Z) * gmap Z Z) (gid : Z) (r : DecodedRecord) : gmap Z (gmap Z Z) * gmap Z Z :=
  (map_put mn.1 (d_stream_id r) (d_seq r) gid, next_put mn.2 (d_stream_id r) (d_seq r)).

(** One turn of the loop of [rebuild_mapping]: a record that does not decode is
    passed over. *)
Definition rebuild_step (mn : gmap Z (gmap Z Z) * gmap Z Z) (gc : Z * bytes) : gmap Z (gmap Z Z) * gmap Z Z :=
  match decode_record gc.2 with
  | Ok r => enter mn gc.1 r
  | Err _ => mn
  end.

(** [rebuild_mapping]. *)
Definition rebuild_mapping (s : Storage) : Storage :=
  if durable_cursor (st_db s) =? 0 then s
  else let '(m, n) := foldl rebuild_step (∅, ∅) (log_scan (st_db s) 0 U64_MAX) in with_maps m n s.

(** [Storage::new]. *)
Definition storage_new (db : LogState) (num_shards : Z) : Storage :=
  rebuild_mapping (mkStorage db ∅ ∅ 0 num_shards (shard_bits num_shards)).

(** The first section of [append]: the stream's next number. *)
Definition alloc_seq (stream_id : Z) (s : Storage) : Z * Storage :=
  let seq := default 1 (next_seqs s !! stream_id) in
  (seq, with_maps (seq_map s) (<[stream_id := seq + 1]> (next_seqs s)) s).

(** Its last section. *)
Definition store_mapping (stream_id seq gid : Z) (s : Storage) : Storage :=
  with_maps (map_put (seq_map s) stream_id seq gid) (next_seqs s) s.

(** The log takes the content under [gid]. *)
Definition log_append (gid : Z) (content : bytes) (d : LogState) : LogState :=
  mkLogState (<[gid := content]> (ls_written d)) (ls_committed d) (ls_durable d) (ls_bits d) (ls_hidden d).

(** [append]; [answer] is the id the log gives the record, if it takes it. *)
Definition append (answer : option Z) (namespace_id stream_id : Z) (event_type content_type : bytes)
    (metadata : list (bytes * bytes)) (timestamp_ns : Z) (user_content : bytes) (s : Storage)
    : result StorageError (Z * Z) * Storage :=
  let '(seq, s) := alloc_seq stream_id s in
  match encode_record namespace_id stream_id seq event_type content_type metadata timestamp_ns user_content with
  | Err e => (Err (SRecord e), s)
  | Ok encoded =>
      match answer with
      | None => (Err SLogDb, s)
      | Some gid =>
          let s := with_db (log_append gid encoded (st_db s)) s in
          (Ok (gid, seq), store_mapping stream_id seq gid s)
      end
  end.

Definition with_shard (bits gid : Z) (r : DecodedRecord) : DecodedRecord :=
  mkDecoded (d_namespace_id r) (d_stream_id r) (d_seq r) (d_event_type r) (d_content_type r) (d_metadata r)
    (d_timestamp_ns r) (d_user_content r) (decode_record_id gid bits).1.

(** The content of [gid], decoded and with its shard. *)
Definition decode_at (s : Storage) (gid : Z) (content : bytes) : result StorageError DecodedRecord :=
  match decode_record content with
  | Ok r => Ok (with_shard (st_shard_bits s) gid r)
  | Err e => Err (SRecord e)
  end.

(** [read]. *)
Definition read (stream_id stream_seq : Z) (s : Storage) : result StorageError (option DecodedRecord) :=
  match seq_map s !! stream_id ≫= (fun m => m !! stream_seq) with
  | None => Ok None
  | Some gid =>
      match log_read (st_db s) gid with
      | None => Ok None
      | Some content => r ← decode_at s gid content; Ok (Some r)
      end
  end.

(** Decodes all, or fails with the first record that does not decode. *)
Fixpoint decode_all (s : Storage) (l : list (Z * bytes)) : result StorageError (list DecodedRecord) :=
  match l with
  | [] => Ok []
  | (gid, content) :: l => r ← decode_at s gid content; rs ← decode_all s l; Ok (r :: rs)
  end.

(** [scan]. *)
Definition scan (from_gid to_gid : Z) (s : Storage) : result StorageError (list DecodedRecord) :=
  decode_all s (log_scan (st_db s) from_gid to_gid).

(** The ids [scan_stream_filtered] collects: the stream's from [from_seq], of the
    wanted shards, at most [limit]. *)
Definition stream_gids (stream_id from_seq : Z) (shard_ids : gset Z) (limit : nat) (s : Storage) : list Z :=
  let wanted gid := bool_decide (shard_ids = ∅) || bool_decide ((decode_record_id gid (st_shard_bits s)).1 ∈ shard_ids) in
  (take limit (filter (fun sg => from_seq <= sg.1 /\ wanted sg.2 = true)
                 (ascending_list (default ∅ (seq_map s !! stream_id))))).*2.

(** [scan_stream_filtered]: of those, the ones the log can show. *)
Definition scan_stream_filtered (stream_id from_seq : Z) (shard_ids : gset Z) (limit : nat) (s : Storage)
    : result StorageError (list DecodedRecord) :=
  decode_all s (omap (fun gid => c ← log_read (st_db s) gid; Some (gid, c)) (stream_gids stream_id from_seq shard_ids limit s)).

(** [durable_gid] and [committed_gid]. *)
Definition durable_gid (s : Storage) : Z := durable_cursor (st_db s).
Definition committed_gid (s : Storage) : Z := committed_cursor (st_db s).

(** [advance_replicated]. *)
Definition advance_replicated (gid : Z) (s : Storage) : Storage :=
  mkStorage (st_db s) (seq_map s) (next_seqs s) (Z.max gid (replicated_seq s)) (st_num_shards s) (st_shard_bits s).

(** What [LogDb::replicate] does: write the record, find that it has one at this
    place already, or refuse. *)
Inductive Replicated := RWritten | RPresent | RRefused.

(** [replicate]: the record is in the log even when it does not decode. *)
Definition replicate (outcome : Replicated) (gid : Z) (raw_content : bytes) (s : Storage) : result StorageError unit * Storage :=
  match outcome with
  | RRefused => (Err SLogDb, s)
  | _ =>
      let s := match outcome with RWritten => with_db (log_append gid raw_content (st_db s)) s | _ => s end in
      match decode_record raw_content with
      | Err e => (Err (SRecord e), s)
      | Ok r => let '(m, n) := enter (seq_map s, next_seqs s) gid r in (Ok tt, with_maps m n s)
      end
  end.

(** ** What the maps hold *)

Definition lookup2 (m : gmap Z (gmap Z Z)) (sid seq : Z) : option Z := m !! sid ≫= (fun x => x !! seq).

Lemma lookup2_put m sid seq gid sid' seq' :
  lookup2 (map_put m sid seq gid) sid' seq' =
  if bool_decide (sid = sid' /\ seq = seq') then Some gid else lookup2 m sid' seq'.
Proof.
  unfold lookup2, map_put. destruct (decide (sid = sid')) as [<-|Hne].
  - rewrite lookup_insert_eq. cbn [mbind option_bind]. destruct (decide (seq = seq')) as [<-|Hs].
    + rewrite lookup_insert_eq. by rewrite bool_decide_true.
    + rewrite lookup_insert_ne, bool_decide_false by (done || tauto). destruct (m !! sid); [done|]. cbn. by rewrite lookup_empty.
  - rewrite lookup_insert_ne, bool_decide_false by (done || tauto). done.
Qed.

Lemma next_put_ge n sid seq sid' : default 1 (n !! sid') <= default 1 (next_put n sid seq !! sid').
Proof.
  unfold next_put. destruct (decide (sid = sid')) as [<-|Hne].
  - rewrite lookup_insert_eq. cbn [from_option Datatypes.id]. destruct (Z.leb_spec (default 1 (n !! sid)) seq); lia.
  - rewrite lookup_insert_ne by done. lia.
Qed.

Lemma next_put_gt n sid seq : seq < default 1 (next_put n sid seq !! sid).
Proof.
  unfold next_put. rewrite lookup_insert_eq. cbn [from_option Datatypes.id].
  destruct (Z.leb_spec (default 1 (n !! sid)) seq); lia.
Qed.

(** The records of a list of log entries that decode. *)
Definition rec_in (l : list (Z * bytes)) (gid : Z) (r : DecodedRecord) : Prop :=
  exists c, (gid, c) ∈ l /\ decode_record c = Ok r.

(** No number of a stream is used twice. *)
Definition unique_in (l : list (Z * bytes)) : Prop :=
  forall g1 g2 r1 r2, rec_in l g1 r1 -> rec_in l g2 r2 ->
    d_stream_id r1 = d_stream_id r2 -> d_seq r1 = d_seq r2 -> g1 = g2.

(** The map holds exactly these records; the next numbers are above theirs. *)
Definition maps_ok (mn : gmap Z (gmap Z Z) * gmap Z Z) (l : list (Z * bytes)) : Prop :=
  (forall sid seq gid, lookup2 mn.1 sid seq = Some gid <-> exists r, rec_in l gid r /\ d_stream_id r = sid /\ d_seq r = seq) /\
  (forall gid r, rec_in l gid r -> d_seq r < default 1 (mn.2 !! d_stream_id r)).

Lemma rec_in_snoc l g c gid r : rec_in (l ++ [(g, c)]) gid r <-> rec_in l gid r \/ (gid = g /\ decode_record c = Ok r).
Proof.
  unfold rec_in. setoid_rewrite elem_of_app. setoid_rewrite list_elem_of_singleton. split.
  - intros (c' & [H|[= -> ->]] & Hd); [left; by exists c'|by right].
  - intros [(c' & H & Hd)|[-> Hd]]; [exists c'; tauto|exists c; tauto].
Qed.

Lemma unique_prefix l1 l2 : unique_in (l1 ++ l2) -> unique_in l1.
Proof.
  intros H g1 g2 r1 r2 (c1 & H1 & D1) (c2 & H2 & D2). apply H; [exists c1|exists c2]; rewrite elem_of_app; tauto.
Qed.

Lemma enter_ok mn l g c r :
  maps_ok mn l -> decode_record c = Ok r -> unique_in (l ++ [(g, c)]) -> maps_ok (enter mn g r) (l ++ [(g, c)]).
Proof.
  intros [Hm Hn] Hd Hu. assert (rec_in (l ++ [(g, c)]) g r) as Hnew by (apply rec_in_snoc; by right). split.
  - intros sid seq gid. cbn [enter fst]. rewrite lookup2_put. split.
    + case_bool_decide as H.
      * intros [= <-]. exists r. tauto.
      * rewrite Hm. intros (r' & Hr & ?). exists r'. rewrite rec_in_snoc. tauto.
    + intros (r' & Hr & <- & <-). case_bool_decide as H.
      * destruct H as [H1 H2]. f_equal. eapply (Hu g gid r r'); [done|done|done|done].
      * apply Hm. exists r'. apply rec_in_snoc in Hr as [Hr|[-> Hr]]; [done|]. exfalso. apply H.
        rewrite Hd in Hr. injection Hr as <-. done.
  - intros gid r' Hr. cbn [enter snd]. apply rec_in_snoc in Hr as [Hr|[-> Hr]].
    + specialize (Hn _ _ Hr). pose proof (next_put_ge mn.2 (d_stream_id r) (d_seq r) (d_stream_id r')). lia.
    + rewrite Hd in Hr. injection Hr as <-. apply next_put_gt.
Qed.

Lemma skip_ok mn l g c e :
  maps_ok mn l -> decode_record c = Err e -> maps_ok mn (l ++ [(g, c)]).
Proof.
  intros [Hm Hn] Hd. assert (forall gid r, rec_in (l ++ [(g, c)]) gid r <-> rec_in l gid r) as Heq.
  { intros gid r. rewrite rec_in_snoc. split; [intros [|[_ H]]; [done|congruence]|tauto]. }
  split.
  - intros sid seq gid. rewrite Hm. by setoid_rewrite Heq.
  - intros gid r Hr. apply Hn with gid. by apply Heq.
Qed.

(** A rebuild over a list of log entries, from maps for the entries before. *)
Lemma rebuild_ok mn l0 l :
  maps_ok mn l0 -> unique_in (l0 ++ l) -> maps_ok (foldl rebuild_step mn l) (l0 ++ l).
Proof.
  revert mn l0. induction l as [|[g c] l IH]; intros mn l0 Hok Hu; cbn [foldl]; [by rewrite app_nil_r|].
  change (l0 ++ (g, c) :: l) with (l0 ++ [(g, c)] ++ l) in *. rewrite app_assoc in *. apply IH; [|done].
  unfold rebuild_step. destruct (decode_record c) as [r|e] eqn:E; cbn [snd fst]; rewrite E.
  - eapply enter_ok; [done|done|]. by eapply unique_prefix.
  - by eapply skip_ok.
Qed.

Lemma maps_ok_nil : maps_ok (∅, ∅) [].
Proof.
  split.
  - intros sid seq gid. unfold lookup2. cbn [fst]. rewrite lookup_empty. split; [done|]. intros (r & (c & Hc & _) & _).
    by apply elem_of_nil in Hc.
  - intros gid r (c & Hc & _). by apply elem_of_nil in Hc.
Qed.

Lemma maps_ok_equiv mn l l' :
  (forall gid r, rec_in l gid r <-> rec_in l' gid r) -> maps_ok mn l -> maps_ok mn l'.
Proof.
  intros Heq [Hm Hn]. split.
  - intros sid seq gid. rewrite Hm. by setoid_rewrite Heq.
  - intros gid r Hr. apply Hn with gid. by apply Heq.
Qed.

(** ** The storage and its log *)

Definition log_list (d : LogState) : list (Z * bytes) := map_to_list (ls_written d).

Lemma rec_in_log d gid r : rec_in (log_list d) gid r <-> exists c, ls_written d !! gid = Some c /\ decode_record c = Ok r.
Proof. unfold rec_in, log_list. by setoid_rewrite elem_of_map_to_list. Qed.

Lemma rec_in_empty d g r : ls_written d = ∅ -> ~ rec_in (log_list d) g r.
Proof. intros Hd (c & Hc & _)%rec_in_log. by rewrite Hd, lookup_empty in Hc. Qed.

Definition gids_ok (d : LogState) : Prop := map_Forall (fun gid _ => 0 <= gid < U64_MAX) (ls_written d).

(** Nothing is left in the rings. *)
Definition all_committed (d : LogState) : Prop := map_Forall (fun gid _ => committed_at d gid = true) (ls_written d).

(** A scan from the start finds every record the log has: no segment was deleted
    since the records were written. *)
Definition whole (d : LogState) : Prop := ls_hidden d 0 = ∅.

(** No search misses a record. *)
Definition finds_all (d : LogState) : Prop := forall from, ls_hidden d from = ∅.

Lemma scan_all_elem d gc : gids_ok d -> all_committed d -> whole d -> gc ∈ log_scan d 0 U64_MAX <-> gc ∈ log_list d.
Proof.
  intros Hg Hc Hw. unfold log_scan, ascending_list. rewrite list_elem_of_filter, sort_by_key_perm. unfold log_list.
  split; [tauto|]. intros H. split; [|done]. destruct gc as [g c]. apply elem_of_map_to_list in H.
  split; [by apply (Hg _ _ H)|]. split; [by apply (Hc _ _ H)|]. rewrite Hw. set_solver.
Qed.

(** The storage's maps are those of its log. *)
Definition store_ok (s : Storage) : Prop :=
  gids_ok (st_db s) /\ st_shard_bits s = ls_bits (st_db s) /\ maps_ok (seq_map s, next_seqs s) (log_list (st_db s)).

Lemma store_unique s : store_ok s -> unique_in (log_list (st_db s)).
Proof.
  intros (_ & _ & Hm & _) g1 g2 r1 r2 H1 H2 Hs Hq. cbn [fst] in Hm.
  assert (lookup2 (seq_map s) (d_stream_id r1) (d_seq r1) = Some g1) as E1 by (apply Hm; by exists r1).
  assert (lookup2 (seq_map s) (d_stream_id r1) (d_seq r1) = Some g2) as E2 by (apply Hm; exists r2; auto).
  congruence.
Qed.

Lemma unique_sub l l' : (forall gid r, rec_in l gid r -> rec_in l' gid r) -> unique_in l' -> unique_in l.
Proof. intros H Hu g1 g2 r1 r2 H1 H2. apply Hu; by apply H. Qed.

(** A start over a log whose shards all have durable records, or that is empty. *)
Lemma storage_new_ok d n :
  gids_ok d -> all_committed d -> whole d -> unique_in (log_list d) -> shard_bits n = ls_bits d ->
  (durable_cursor d <> 0 \/ ls_written d = ∅) ->
  store_ok (storage_new d n) /\ st_db (storage_new d n) = d.
Proof.
  intros Hg Hc Hwh Hu Hb Hd. unfold storage_new, rebuild_mapping. cbn [st_db]. destruct (Z.eqb_spec (durable_cursor d) 0) as [E|E].
  - destruct Hd as [?|Hd]; [done|]. split; [|done]. split; [done|]. split; [done|]. cbn [st_db seq_map next_seqs].
    unfold log_list. rewrite Hd, map_to_list_empty. apply maps_ok_nil.
  - pose proof (rebuild_ok (∅, ∅) [] (log_scan d 0 U64_MAX) maps_ok_nil) as H.
    assert (forall gid r, rec_in (log_scan d 0 U64_MAX) gid r <-> rec_in (log_list d) gid r) as Heq.
    { intros gid r. unfold rec_in. by setoid_rewrite (scan_all_elem d _ Hg Hc Hwh). }
    destruct (foldl rebuild_step (∅, ∅) (log_scan d 0 U64_MAX)) as [m nx]. split; [|done]. split; [done|]. split; [done|].
    cbn [with_maps st_db seq_map next_seqs]. eapply maps_ok_equiv; [exact Heq|]. apply H. eapply unique_sub; [|exact Hu].
    intros gid r. by rewrite Heq.
Qed.

Lemma rec_in_append d gid c g r :
  ls_written d !! gid = None -> rec_in (log_list (log_append gid c d)) g r <-> rec_in (log_list d ++ [(gid, c)]) g r.
Proof.
  intros Hno. rewrite rec_in_snoc, !rec_in_log. cbn [log_append ls_written]. destruct (decide (gid = g)) as [<-|Hne].
  - rewrite lookup_insert_eq, Hno. split; [intros (c' & [= <-] & H); by right|intros [(c' & ? & _)|[_ H]]; [done|by exists c]].
  - rewrite lookup_insert_ne by done. split; [by left|intros [H|[-> _]]; done].
Qed.

Lemma gids_append d gid c : gids_ok d -> 0 <= gid < U64_MAX -> gids_ok (log_append gid c d).
Proof. intros H1 H2. unfold gids_ok. cbn [log_append ls_written]. by apply map_Forall_insert_2. Qed.

(** A record whose number is new in its stream is entered. *)
Lemma enter_append s gid c r :
  store_ok s -> ls_written (st_db s) !! gid = None -> 0 <= gid < U64_MAX ->
  decode_record c = Ok r -> lookup2 (seq_map s) (d_stream_id r) (d_seq r) = None ->
  maps_ok (enter (seq_map s, next_seqs s) gid r) (log_list (log_append gid c (st_db s))).
Proof.
  intros Hok Hfresh Hgid Hd Hnew. eapply maps_ok_equiv; [intros g r'; symmetry; by apply rec_in_append|].
  destruct (Hok) as (_ & _ & Hm). apply (enter_ok _ _ _ _ _ Hm Hd).
  intros g1 g2 r1 r2 H1 H2 Hs Hq. apply rec_in_snoc in H1, H2.
  assert (forall g r', rec_in (log_list (st_db s)) g r' -> d_stream_id r' = d_stream_id r -> d_seq r' = d_seq r -> False) as Hno.
  { intros g r' Hr E1 E2. destruct Hm as [Hm _]. cbn [fst] in Hm.
    assert (lookup2 (seq_map s) (d_stream_id r) (d_seq r) = Some g) by (apply Hm; by exists r'). congruence. }
  destruct H1 as [H1|[-> D1]], H2 as [H2|[-> D2]]; [by eapply (store_unique s)| | |done].
  - exfalso. eapply Hno; [exact H1|congruence|congruence].
  - exfalso. eapply Hno; [exact H2|congruence|congruence].
Qed.

(** ** Histories *)

(** What the types of the arguments and the field widths ask for. *)
Definition args_ok (namespace_id stream_id timestamp_ns : Z) (event_type content_type : bytes) (metadata : list (bytes * bytes)) : Prop :=
  in_range 32 namespace_id /\ in_range 64 stream_id /\ in_range 64 timestamp_ns /\
  (utf8_valid event_type = true /\ blen event_type < 2 ^ 16) /\
  (utf8_valid content_type = true /\ blen content_type < 2 ^ 16) /\ meta_ok metadata /\ meta_fits metadata.

(** The log on its own: records become committed and durable, segments roll and are
    deleted, so that what is found changes. *)
Definition log_moves (d d' : LogState) : Prop := ls_written d' = ls_written d /\ ls_bits d' = ls_bits d.

(** A stop or a crash: records that were not yet safe and those of deleted segments
    may be gone; the cursors resume behind the records the files hold, and a scan
    from the start finds these. *)
Definition log_after_stop (d d' : LogState) : Prop :=
  ls_written d' ⊆ ls_written d /\ ls_bits d' = ls_bits d /\ all_committed d' /\ whole d'.

Definition fresh_gid (s : Storage) (gid : Z) : Prop := ls_written (st_db s) !! gid = None /\ 0 <= gid < U64_MAX.

Inductive store_step : Storage -> Storage -> Prop :=
  | step_append s answer ns st et ct md ts content :
      args_ok ns st ts et ct md -> (forall gid, answer = Some gid -> fresh_gid s gid) ->
      default 1 (next_seqs s !! st) < 2 ^ 64 ->
      store_step s (append answer ns st et ct md ts content s).2
  | step_replicate s gid raw :
      fresh_gid s gid ->
      (forall r, decode_record raw = Ok r -> lookup2 (seq_map s) (d_stream_id r) (d_seq r) = None) ->
      store_step s (replicate RWritten gid raw s).2
  | step_replay s gid raw :
      ls_written (st_db s) !! gid = Some raw -> store_step s (replicate RPresent gid raw s).2
  | step_log s d : log_moves (st_db s) d -> store_step s (with_db d s)
  | step_restart s d n :
      log_after_stop (st_db s) d -> shard_bits n = ls_bits d -> (durable_cursor d <> 0 \/ ls_written d = ∅) ->
      store_step s (storage_new d n).

Definition store_initial (s : Storage) : Prop :=
  exists n, s = storage_new (mkLog ∅ (repeat 0 (Z.to_nat n)) (repeat 0 (Z.to_nat n)) (shard_bits n)) n.

Definition store_reachable (s : Storage) : Prop := exists s0, store_initial s0 /\ rtc store_step s0 s.

(** Every stream's next number is at least 1. *)
Definition nexts_pos (s : Storage) : Prop := forall st, 1 <= default 1 (next_seqs s !! st).

Lemma alloc_ok st s : store_ok s -> store_ok (alloc_seq st s).2.
Proof.
  intros (H1 & H2 & Hm & Hn). split; [done|]. split; [done|]. split; [exact Hm|]. cbn [snd fst alloc_seq with_maps next_seqs seq_map st_db] in *.
  intros gid r Hr. specialize (Hn _ _ Hr). destruct (decide (st = d_stream_id r)) as [->|Hne].
  - rewrite lookup_insert_eq. cbn [from_option Datatypes.id]. lia.
  - by rewrite lookup_insert_ne.
Qed.

Lemma alloc_new st s : store_ok s -> lookup2 (seq_map s) st (alloc_seq st s).1 = None.
Proof.
  intros (_ & _ & Hm & Hn). cbn [alloc_seq fst]. destruct (lookup2 (seq_map s) st (default 1 (next_seqs s !! st))) as [g|] eqn:E; [|done].
  apply Hm in E as (r & Hr & <- & Hs). specialize (Hn _ _ Hr). cbn [snd] in Hn. lia.
Qed.

Lemma with_maps_ok s m n :
  store_ok s -> maps_ok (m, n) (log_list (st_db s)) -> store_ok (with_maps m n s).
Proof. intros (H1 & H2 & _) Hm. by split_and!. Qed.

Lemma append_store_ok s answer ns st et ct md ts content :
  args_ok ns st ts et ct md -> (forall gid, answer = Some gid -> fresh_gid s gid) ->
  1 <= default 1 (next_seqs s !! st) < 2 ^ 64 ->
  store_ok s -> store_ok (append answer ns st et ct md ts content s).2.
Proof.
  intros (Hns & Hst & Hts & [Uet Let] & [Uct Lct] & Hmo & Hmf) Hfresh Hseq Hok. unfold append.
  pose proof (alloc_ok st s Hok) as Hok'. pose proof (alloc_new st s Hok) as Hnew.
  destruct (alloc_seq st s) as [seq s'] eqn:Ea. cbn [fst snd] in *.
  assert (st_db s' = st_db s /\ seq_map s' = seq_map s /\ seq = default 1 (next_seqs s !! st)) as (Hdb & Hsm & Hsq).
  { injection Ea as <- <-. done. }
  destruct (encode_record ns st seq et ct md ts content) as [raw|e] eqn:Ee; [|done].
  destruct answer as [gid|]; [|done]. cbn [snd]. destruct (Hfresh gid eq_refl) as [Hf1 Hf2].
  assert (decode_record raw = Ok (mkDecoded ns st seq et ct md ts content 0)) as Hd.
  { rewrite <- (app_nil_r raw). eapply decode_encode_record; try done. subst seq. split; lia. }
  rewrite <- Hdb in Hf1. pose proof (enter_append s' gid raw _ Hok' Hf1 Hf2 Hd) as Hen.
  cbn [d_stream_id d_seq] in Hen. rewrite Hsm in Hen. specialize (Hen Hnew).
  destruct Hok' as (G1 & G2 & _). split; [by apply gids_append|]. split; [done|]. cbn [store_mapping with_maps with_db st_db seq_map next_seqs].
  rewrite Hsm. destruct Hen as [Hen1 Hen2]. split; [exact Hen1|]. cbn [snd enter] in *.
  intros g r Hr. specialize (Hen2 g r Hr). cbn [d_stream_id d_seq] in Hen2. injection Ea as _ <-.
  cbn [with_maps next_seqs] in *. unfold next_put in Hen2.
  destruct (decide (st = d_stream_id r)) as [->|Hne].
  - rewrite !lookup_insert_eq in Hen2. cbn [from_option Datatypes.id] in Hen2. rewrite lookup_insert_eq. cbn [from_option Datatypes.id].
    destruct (Z.leb_spec (default 1 (next_seqs s !! d_stream_id r) + 1) seq); lia.
  - rewrite lookup_insert_ne in Hen2 by done. exact Hen2.
Qed.

Lemma replicate_store_ok s gid raw :
  fresh_gid s gid -> (forall r, decode_record raw = Ok r -> lookup2 (seq_map s) (d_stream_id r) (d_seq r) = None) ->
  store_ok s -> store_ok (replicate RWritten gid raw s).2.
Proof.
  intros [Hf1 Hf2] Hnew Hok. unfold replicate.
  destruct (Hok) as (G1 & G2 & Hm). pose proof (gids_append _ _ raw G1 Hf2) as G1'.
  destruct (decode_record raw) as [r|e] eqn:E.
  - pose proof (enter_append s gid raw r Hok Hf1 Hf2 E (Hnew r eq_refl)) as Hen. cbn [with_db seq_map next_seqs].
    destruct (enter (seq_map s, next_seqs s) gid r) as [m n]. by split_and!.
  - cbn [snd]. split; [done|]. split; [done|]. cbn [with_db st_db seq_map next_seqs].
    eapply maps_ok_equiv; [intros g r'; symmetry; by apply rec_in_append|]. by eapply skip_ok.
Qed.

(** Entering a record once more changes nothing that is read. *)
Lemma enter_again mn l g r : maps_ok mn l -> rec_in l g r -> maps_ok (enter mn g r) l.
Proof.
  intros [Hm Hn] Hr. assert (lookup2 mn.1 (d_stream_id r) (d_seq r) = Some g) as Hl by (apply Hm; by exists r). split.
  - intros sid seq gid. cbn [enter fst]. rewrite lookup2_put. case_bool_decide as E; [|apply Hm]. destruct E as [<- <-]. rewrite <- Hl. apply Hm.
  - intros gid r' Hr'. cbn [enter snd]. specialize (Hn gid r' Hr'). pose proof (next_put_ge mn.2 (d_stream_id r) (d_seq r) (d_stream_id r')). lia.
Qed.

Lemma replay_store_ok s gid raw :
  ls_written (st_db s) !! gid = Some raw -> store_ok s -> store_ok (replicate RPresent gid raw s).2 /\ st_db (replicate RPresent gid raw s).2 = st_db s.
Proof.
  intros Hw Hok. unfold replicate. destruct (decode_record raw) as [r|e] eqn:E; [|done].
  destruct (Hok) as (G1 & G2 & Hm). pose proof (enter_again _ _ gid r Hm ltac:(apply rec_in_log; by exists raw)) as Hen.
  destruct (enter (seq_map s, next_seqs s) gid r) as [m n]. split; [|done]. by split_and!.
Qed.

Lemma store_ok_log s d : log_moves (st_db s) d -> store_ok s -> store_ok (with_db d s).
Proof.
  intros [Hw Hb] (G1 & G2 & Hm). unfold store_ok, gids_ok, log_list in *. cbn [with_db st_db seq_map next_seqs st_shard_bits].
  rewrite Hw, Hb. by split_and!.
Qed.

Lemma restart_store_ok s d n :
  log_after_stop (st_db s) d -> shard_bits n = ls_bits d -> (durable_cursor d <> 0 \/ ls_written d = ∅) ->
  store_ok s -> store_ok (storage_new d n).
Proof.
  intros (Hsub & Hb & Hall & Hwh) Hn Hd Hok. destruct (Hok) as (G1 & _ & _). apply storage_new_ok; [|done|done| |done|done].
  - intros g c Hg. apply (G1 g c). by eapply lookup_weaken.
  - eapply unique_sub; [|by apply store_unique]. intros gid r. rewrite !rec_in_log. intros (c & Hc & Hr). exists c.
    split; [|done]. by eapply lookup_weaken.
Qed.

Lemma enter_pos mn gid r st : 1 <= default 1 (mn.2 !! st) -> 1 <= default 1 ((enter mn gid r).2 !! st).
Proof. intros H. cbn [enter snd]. pose proof (next_put_ge mn.2 (d_stream_id r) (d_seq r) st). lia. Qed.

Lemma rebuild_pos l mn st : 1 <= default 1 (mn.2 !! st) -> 1 <= default 1 ((foldl rebuild_step mn l).2 !! st).
Proof.
  revert mn. induction l as [|gc l IH]; intros mn H; [done|]. cbn [foldl]. apply IH. unfold rebuild_step.
  destruct (decode_record gc.2); [by apply enter_pos|done].
Qed.

Lemma nexts_pos_new d n : nexts_pos (storage_new d n).
Proof.
  intros st. unfold storage_new, rebuild_mapping. cbn [st_db]. destruct (_ =? 0); [cbn; rewrite lookup_empty; cbn; lia|].
  pose proof (rebuild_pos (log_scan d 0 U64_MAX) (∅, ∅) st) as H. destruct (foldl _ _ _) as [m nx]. apply H. cbn. by rewrite lookup_empty.
Qed.

Lemma nexts_pos_append answer ns st et ct md ts content s :
  nexts_pos s -> nexts_pos (append answer ns st et ct md ts content s).2.
Proof.
  intros H st'. unfold append, alloc_seq. specialize (H st') as Hs. specialize (H st).
  assert (1 <= default 1 (<[st := default 1 (next_seqs s !! st) + 1]> (next_seqs s) !! st')) as Hi.
  { destruct (decide (st = st')) as [<-|Hne]; [rewrite lookup_insert_eq; cbn; lia|by rewrite lookup_insert_ne]. }
  destruct (encode_record _ _ _ _ _ _ _ _); [|done]. by destruct answer.
Qed.

Lemma nexts_pos_replicate outcome gid raw s : nexts_pos s -> nexts_pos (replicate outcome gid raw s).2.
Proof.
  intros H st. unfold replicate. destruct outcome; [| |apply H]; (destruct (decode_record raw) as [r|]; [|apply H]);
    apply (enter_pos (seq_map s, next_seqs s) gid r); apply H.
Qed.

Lemma store_step_ok s s' : store_step s s' -> store_ok s /\ nexts_pos s -> store_ok s' /\ nexts_pos s'.
Proof.
  intros Hstep [Hok Hp]. destruct Hstep as [s answer ns st et ct md ts content Ha Hf Hb|s gid raw Hf Hn|s gid raw Hw|s d Hl|s d n Hd Hb Hc].
  - split; [apply append_store_ok; [done|done|split; [apply Hp|done]|done]|by apply nexts_pos_append].
  - split; [by apply replicate_store_ok|by apply nexts_pos_replicate].
  - split; [by apply replay_store_ok|by apply nexts_pos_replicate].
  - split; [by apply store_ok_log|done].
  - split; [by eapply restart_store_ok|apply nexts_pos_new].
Qed.

Lemma store_reachable_ok s : store_reachable s -> store_ok s /\ nexts_pos s.
Proof.
  intros (s0 & [n ->] & Hr). assert (store_ok (storage_new (mkLog ∅ (repeat 0 (Z.to_nat n)) (repeat 0 (Z.to_nat n)) (shard_bits n)) n) /\
    nexts_pos (storage_new (mkLog ∅ (repeat 0 (Z.to_nat n)) (repeat 0 (Z.to_nat n)) (shard_bits n)) n)) as H0.
  { split; [|apply nexts_pos_new]. apply storage_new_ok; [apply map_Forall_empty|apply map_Forall_empty|done| |done|by right].
    intros g1 g2 r1 r2 Hr1. by apply rec_in_empty in Hr1. }
  revert H0. induction Hr as [|s1 s2 s3 H12 _ IH]; intros H0; [done|]. apply IH. by eapply store_step_ok.
Qed.

(** What the storage shows under a stream's number. *)
Lemma read_spec s sid seq :
  store_ok s ->
  read sid seq s = match lookup2 (seq_map s) sid seq with
                   | Some gid =>
                       if durable_at (st_db s) gid && bool_decide (gid ∉ ls_hidden (st_db s) gid)
                       then match ls_written (st_db s) !! gid with
                            | Some c => match decode_record c with
                                        | Ok r => Ok (Some (with_shard (st_shard_bits s) gid r))
                                        | Err e => Err (SRecord e)
                                        end
                            | None => Ok None
                            end
                       else Ok None
                   | None => Ok None
                   end.
Proof.
  intros Hok. unfold read, lookup2, log_read, decode_at. destruct (seq_map s !! sid ≫= _) as [gid|]; [|done].
  destruct (durable_at (st_db s) gid && _); [|done]. destruct (ls_written (st_db s) !! gid) as [c|]; [|done].
  by destruct (decode_record c).
Qed.

(** A durable record that decodes is read under its stream and number. *)
Lemma read_found s gid c r :
  store_ok s -> ls_written (st_db s) !! gid = Some c -> decode_record c = Ok r -> durable_at (st_db s) gid = true ->
  gid ∉ ls_hidden (st_db s) gid ->
  read (d_stream_id r) (d_seq r) s = Ok (Some (with_shard (ls_bits (st_db s)) gid r)).
Proof.
  intros Hok Hw Hd Hdur Hh. rewrite read_spec by done. destruct (Hok) as (_ & Hb & Hm & _). cbn [fst] in Hm.
  assert (lookup2 (seq_map s) (d_stream_id r) (d_seq r) = Some gid) as ->.
  { apply Hm. exists r. split; [|done]. apply rec_in_log. by exists c. }
  rewrite Hdur, bool_decide_true by done. cbn [andb]. by rewrite Hw, Hd, Hb.
Qed.

(** Nothing else is read, and no read fails. *)
Lemma read_only_found s sid seq :
  store_ok s ->
  read sid seq s = Ok None \/
  exists gid c r, read sid seq s = Ok (Some (with_shard (ls_bits (st_db s)) gid r)) /\
    log_read (st_db s) gid = Some c /\ decode_record c = Ok r /\
    (ls_written (st_db s) !! gid = Some c /\ durable_at (st_db s) gid = true) /\ d_stream_id r = sid /\ d_seq r = seq.
Proof.
  intros Hok. rewrite read_spec by done. destruct (Hok) as (_ & Hb & Hm & _). cbn [fst] in Hm.
  destruct (lookup2 (seq_map s) sid seq) as [gid|] eqn:E; [|by left].
  apply Hm in E as (r & (c & Hw & Hd)%rec_in_log & <- & <-). rewrite Hw, Hd. destruct (durable_at (st_db s) gid) eqn:Ed; [|by left].
  cbn [andb]. case_bool_decide as Hh; [|by left]. right. exists gid, c, r. rewrite Hb.
  unfold log_read. by rewrite Ed, bool_decide_true, Hw by done.
Qed.


(** ** Where the storage falls short *)

Definition demo_raw (sid seq : Z) (et : bytes) : bytes :=
  match encode_record 1 sid seq et (demo_text 1) [] 5 (demo_text 2) with Ok raw => raw | Err _ => [] end.

(** The rebuild is skipped when the least durable cursor is 0: with a shard that
    has no record yet, a restart forgets all streams.  The record is durable but is
    not found, and the next append of its stream gets its number again. *)
Theorem idle_shard_hides_streams :
  let d := mkLog {[0 := demo_raw 7 1 (demo_text 3)]} [1; 0] [1; 0] 1 in
  let s := storage_new d 2 in
  log_read d 0 <> None /\ read 7 1 s = Ok None /\ (alloc_seq 7 s).1 = 1.
Proof. by vm_compute. Qed.

(** [committed_gid] and [durable_gid] are the least of the shards' own counts, not
    ids: a scan up to them misses most of the committed records. *)
Theorem cursor_is_not_an_id :
  let d := mkLog (list_to_map ((fun g => (g, demo_raw 7 (g + 1) (demo_text 3))) <$> seqZ 0 8)) [4; 4] [4; 4] 1 in
  let s := storage_new d 2 in
  committed_gid s = 4 /\
  (exists rs, scan 0 (committed_gid s) s = Ok rs /\ d_seq <$> rs = [1; 2; 3; 4]) /\
  (exists rs, scan 0 U64_MAX s = Ok rs /\ d_seq <$> rs = [1; 2; 3; 4; 5; 6; 7; 8]).
Proof.
  split; [by vm_compute|]. split; eexists; (split; [by vm_compute|by vm_compute]).
Qed.

(** One record that does not decode makes every scan fail, whatever stream it is
    for; an append with a long metadata key stores such a record. *)
Theorem undecodable_record_blocks_scans :
  let s0 := storage_new (mkLog ∅ [0] [0] 0) 1 in
  let '(a1, s) := append (Some 0) 1 7 (demo_text 3) (demo_text 1) [] 5 [] s0 in
  let '(a2, s) := append (Some 1) 1 8 (demo_text 3) (demo_text 1) [(demo_text 256, [])] 5 [] s in
  a1 = Ok (0, 1) /\ a2 = Ok (1, 1) /\ scan 0 U64_MAX (with_db (mkLog (ls_written (st_db s)) [2] [2] 0) s) = Err (SRecord Truncated).
Proof. by vm_compute. Qed.

(** ** Witness *)

Definition demo_store : Storage :=
  (append (Some 0) 1 7 (demo_text 3) (demo_text 1) [] 5 (demo_text 2)
    (storage_new (mkLog ∅ [0] [0] 0) 1)).2.

Definition demo_durable : Storage := with_db (mkLog (ls_written (st_db demo_store)) [1] [1] 0) demo_store.

Lemma demo_durable_reachable : store_reachable demo_durable.
Proof.
  exists (storage_new (mkLog ∅ [0] [0] 0) 1). split; [by exists 1|].
  eapply rtc_l; [|eapply rtc_l; [|apply rtc_refl]].
  - apply (step_append _ (Some 0) 1 7 (demo_text 3) (demo_text 1) [] 5 (demo_text 2)).
    + split_and!; try (by split; vm_compute); [|by constructor]. split; constructor.
    + intros gid [= <-]. by split.
    + by vm_compute.
  - by apply step_log.
Qed.

