(* ===== verification/SeqCheckpoint.v ===== *)
(** * The checkpoint of the stream maps ([logdbd/src/storage.rs])

    [write_seq_map_checkpoint] writes the maps of a storage and a cursor for each
    shard to a file; [try_new_from_checkpoint] loads the file and completes the maps
    from the records of the log above the cursors.  A start of the server
    ([logdbd/src/main.rs]) tries this first and rebuilds the maps from the whole log
    when it fails.

    A slice outside the file panics; this is the error [SPanic].  Whether the file
    can be created, flushed and renamed is a parameter. *)
From stdpp Require Import base gmap list numbers sorting.
From coqutil Require Import Byte.
From Stdlib Require Import ZArith Lia.
From S2P Require Import Prelude RustStd Shard ByteReader ServerRecord StreamStore.
Open Scope Z_scope.

(** ** Writing *)

Definition CKPT_MAGIC : bytes := [Byte.x4c; Byte.x44; Byte.x53; Byte.x43].

(** The cursors: one above the greatest local number of each shard's mapped records;
    a record of a shard the vector does not have is a panic. *)
Fixpoint shard_max (bits : Z) (gids : list Z) (acc : list Z) : option (list Z) :=
  match gids with
  | [] => Some acc
  | gid :: gids =>
      let '(shard, local) := decode_record_id gid bits in
      match acc !! Z.to_nat shard with
      | None => None
      | Some m => shard_max bits gids (if m <? local + 1 then <[Z.to_nat shard := local + 1]> acc else acc)
      end
  end.

(** The ids of all streams' records. *)
Definition mapped_gids (m : gmap Z (gmap Z Z)) : list Z := concat ((fun sm => (ascending_list sm.2).*2) <$> map_to_list m).

Definition encode_pair (kv : Z * Z) : bytes := to_le 8 kv.1 ++ to_le 8 kv.2.

Definition encode_stream (sm : Z * gmap Z Z) : bytes :=
  to_le 8 sm.1 ++ to_le 8 (Z.of_nat (size sm.2)) ++ concat (encode_pair <$> ascending_list sm.2).

Definition encode_checkpoint (num_shards : Z) (cursors : list Z) (m : gmap Z (gmap Z Z)) (n : gmap Z Z) : bytes :=
  CKPT_MAGIC ++ to_le 4 1 ++ to_le 4 num_shards ++ concat (to_le 8 <$> cursors) ++
  to_le 8 (Z.of_nat (size m)) ++ concat (encode_stream <$> map_to_list m) ++
  to_le 8 (Z.of_nat (size n)) ++ concat (encode_pair <$> map_to_list n).

(** How the file operations end. *)
Record CkptIo := mkCkptIo { io_create : bool; io_write : bool; io_flush : bool; io_rename : bool }.

(** [write_seq_map_checkpoint]: its answer and the checkpoint file afterwards. *)
Definition write_seq_map_checkpoint (io : CkptIo) (file : option bytes) (s : Storage)
    : result StorageError unit * option bytes :=
  match shard_max (st_shard_bits s) (mapped_gids (seq_map s)) (repeat 0 (Z.to_nat (st_num_shards s))) with
  | None => (Err SPanic, file)
  | Some cursors =>
      if negb (io_create io) then (Err SLogDb, file)
      else if negb (io_write io) then (Err SPanic, file)
      else if negb (io_flush io) then (Err SLogDb, file)
      else if negb (io_rename io) then (Err SLogDb, file)
      else (Ok tt, Some (encode_checkpoint (st_num_shards s) cursors (seq_map s) (next_seqs s)))
  end.

(** ** Loading *)

Definition read_pair : Rd StorageError (Z * Z) :=
  a ← rd_le SPanic 8;
  b ← rd_le SPanic 8;
  mret (a, b).

Definition read_stream : Rd StorageError (Z * gmap Z Z) :=
  sid ← rd_le SPanic 8;
  n ← rd_le SPanic 8;
  l ← rd_times (Z.to_nat n) read_pair;
  mret (sid, insert_all l ∅).

Definition check_shards (n_shards num_shards : Z) : Rd StorageError unit :=
  if n_shards =? num_shards then rd_ret tt else rd_fail SLogDb.

Definition read_body (num_shards : Z) : Rd StorageError (list Z * gmap Z (gmap Z Z) * gmap Z Z) :=
  n_shards ← rd_le SPanic 4;
  _ ← check_shards n_shards num_shards;
  cursors ← rd_times (Z.to_nat n_shards) (rd_le SPanic 8);
  stream_count ← rd_le SPanic 8;
  streams ← rd_times (Z.to_nat stream_count) read_stream;
  next_count ← rd_le SPanic 8;
  nexts ← rd_times (Z.to_nat next_count) read_pair;
  mret (cursors, insert_all streams ∅, insert_all nexts ∅).

(** The file's content, checked and taken apart. *)
Definition load_checkpoint (num_shards : Z) (raw : bytes) : result StorageError (list Z * gmap Z (gmap Z Z) * gmap Z Z) :=
  if (blen raw <? 20) || negb (bool_decide (slice raw 0 4 = CKPT_MAGIC)) then Err SLogDb
  else if negb (get_le raw 4 4 =? 1) then Err SLogDb
  else match read_body num_shards raw 8 with Ok (x, _) => Ok x | Err e => Err e end.

(** The records of one shard above its cursor are entered; one that does not decode
    ends the loading. *)
Fixpoint enter_all (mn : gmap Z (gmap Z Z) * gmap Z Z) (l : list (Z * bytes)) : result StorageError (gmap Z (gmap Z Z) * gmap Z Z) :=
  match l with
  | [] => Ok mn
  | (gid, content) :: l =>
      match decode_record content with
      | Ok r => enter_all (enter mn gid r) l
      | Err e => Err (SRecord e)
      end
  end.

Fixpoint scan_shards (d : LogState) (bits shard : Z) (cursors : list Z) (mn : gmap Z (gmap Z Z) * gmap Z Z)
    : result StorageError (gmap Z (gmap Z Z) * gmap Z Z) :=
  match cursors with
  | [] => Ok mn
  | cursor :: cursors =>
      mn ← enter_all mn (log_scan_shard d bits shard (encode_record_id shard cursor bits) U64_MAX);
      scan_shards d bits (shard + 1) cursors mn
  end.

(** [try_new_from_checkpoint]. *)
Definition try_new_from_checkpoint (db : LogState) (num_shards : Z) (file : option bytes) : result StorageError Storage :=
  match file with
  | None => Err SLogDb
  | Some raw =>
      '(cursors, m, n) ← load_checkpoint num_shards raw;
      '(m, n) ← scan_shards db (shard_bits num_shards) 0 cursors (m, n);
      Ok (mkStorage db m n 0 num_shards (shard_bits num_shards))
  end.

(** The storage of a starting server ([main.rs]); [None] when it panics. *)
Definition start_storage (db : LogState) (num_shards : Z) (file : option bytes) : option Storage :=
  match try_new_from_checkpoint db num_shards file with
  | Ok s => Some s
  | Err SPanic => None
  | Err _ => Some (storage_new db num_shards)
  end.

(** ** The cursors *)

Lemma shard_max_spec bits gids acc :
  (forall g, g ∈ gids -> 0 <= (decode_record_id g bits).1 < Z.of_nat (length acc)) ->
  exists acc', shard_max bits gids acc = Some acc' /\ length acc' = length acc /\
    (forall i m, acc !! i = Some m -> exists m', acc' !! i = Some m' /\ m <= m') /\
    (forall g, g ∈ gids -> exists m, acc' !! Z.to_nat (decode_record_id g bits).1 = Some m /\ (decode_record_id g bits).2 < m) /\
    (forall i m, acc' !! i = Some m -> acc !! i = Some m \/ exists g, g ∈ gids /\ decode_record_id g bits = (Z.of_nat i, m - 1)).
Proof.
  revert acc. induction gids as [|g gids IH]; intros acc H.
  - exists acc. split_and!; [done|done|by eauto using Z.le_refl|intros g Hg; by apply elem_of_nil in Hg|by left].
  - cbn [shard_max]. pose proof (H g ltac:(left)) as Hg. destruct (decode_record_id g bits) as [shard local] eqn:E. cbn [fst] in Hg.
    destruct (lookup_lt_is_Some_2 acc (Z.to_nat shard)) as [m Hm]; [lia|]. rewrite Hm.
    set (acc1 := if m <? local + 1 then <[Z.to_nat shard := local + 1]> acc else acc).
    assert (length acc1 = length acc) as Hl1 by (unfold acc1; destruct (_ <? _); [apply length_insert|done]).
    assert (exists m1, acc1 !! Z.to_nat shard = Some m1 /\ local < m1) as Hself.
    { unfold acc1. destruct (Z.ltb_spec m (local + 1)) as [Hlt|Hge].
      - exists (local + 1). split; [apply list_lookup_insert_eq; lia|lia].
      - exists m. split; [done|lia]. }
    assert (forall i m0, acc !! i = Some m0 -> exists m1, acc1 !! i = Some m1 /\ m0 <= m1) as Hmono.
    { intros i m0 Hi. unfold acc1. destruct (Z.ltb_spec m (local + 1)) as [Hlt|Hge]; [|eauto using Z.le_refl].
      destruct (decide (i = Z.to_nat shard)) as [->|Hne].
      - exists (local + 1). split; [apply list_lookup_insert_eq; lia|]. rewrite Hm in Hi. injection Hi as <-. lia.
      - rewrite list_lookup_insert_ne by done. eauto using Z.le_refl. }
    destruct (IH acc1) as (acc' & Hr & Hl & Hge & Hin & Horig).
    { intros g' Hg'. rewrite Hl1. apply H. by right. }
    exists acc'. split_and!; [done|lia| | |].
    + intros i m0 Hi. destruct (Hmono i m0 Hi) as (m1 & H1 & ?). destruct (Hge _ _ H1) as (m2 & H2 & ?). exists m2. split; [done|lia].
    + intros g' [->|Hg']%elem_of_cons; [|by apply Hin]. rewrite E. cbn [fst snd]. destruct Hself as (m1 & H1 & ?).
      destruct (Hge _ _ H1) as (m2 & H2 & ?). exists m2. split; [done|lia].
    + intros i m0 Hi. destruct (Horig _ _ Hi) as [H1|(g' & Hg' & Hd)]; [|right; exists g'; split; [by right|done]].
      unfold acc1 in H1. destruct (Z.ltb_spec m (local + 1)) as [Hlt|Hge']; [|by left].
      destruct (decide (i = Z.to_nat shard)) as [->|Hne].
      * rewrite list_lookup_insert_eq in H1 by lia. injection H1 as <-. right. exists g. split; [left|].
        rewrite E. f_equal; lia.
      * rewrite list_lookup_insert_ne in H1 by done. by left.
Qed.

Lemma mapped_gids_elem m gid : gid ∈ mapped_gids m <-> exists sid seq, lookup2 m sid seq = Some gid.
Proof.
  unfold mapped_gids. rewrite list_elem_of_concat. setoid_rewrite list_elem_of_fmap. split.
  - intros (l & Hg & ([sid sm] & -> & Hs)). apply elem_of_map_to_list in Hs. cbn [snd] in Hg.
    apply list_elem_of_fmap in Hg as ([seq g] & -> & Hg). unfold ascending_list in Hg. rewrite sort_by_key_perm in Hg.
    apply elem_of_map_to_list in Hg. exists sid, seq. unfold lookup2. by rewrite Hs.
  - intros (sid & seq & H). unfold lookup2 in H. destruct (m !! sid) as [sm|] eqn:Hs; [|done]. cbn in H.
    exists (ascending_list sm).*2. split; [|exists (sid, sm); split; [done|by apply elem_of_map_to_list]].
    apply list_elem_of_fmap. exists (seq, gid). split; [done|]. unfold ascending_list. rewrite sort_by_key_perm. by apply elem_of_map_to_list.
Qed.

(** ** The file is read back *)

Definition pairs_fit (m : gmap Z Z) : Prop :=
  Z.of_nat (size m) < 2 ^ 64 /\ map_Forall (fun k v => in_range 64 k /\ in_range 64 v) m.

(** All numbers are of the type the source gives them. *)
Definition maps_fit (m : gmap Z (gmap Z Z)) (n : gmap Z Z) : Prop :=
  (Z.of_nat (size m) < 2 ^ 64 /\ map_Forall (fun k sm => in_range 64 k /\ pairs_fit sm) m) /\ pairs_fit n.

Lemma parses_pair kv : in_range 64 kv.1 -> in_range 64 kv.2 -> parses read_pair (encode_pair kv) kv.
Proof.
  intros H1 H2. destruct kv as [k v]. unfold read_pair, encode_pair. cbn [fst snd] in *.
  eapply parses_bind; [by apply parses_le8|]. eapply parses_eq; [|apply app_nil_r].
  eapply parses_bind; [by apply parses_le8|]. apply parses_ret.
Qed.

Lemma parses_size {E} (e : E) n : Z.of_nat n < 2 ^ 64 -> parses (rd_le e 8) (to_le 8 (Z.of_nat n)) (Z.of_nat n).
Proof. intros H. apply parses_le8. split; [lia|done]. Qed.

Lemma parses_pairs (m : gmap Z Z) l :
  pairs_fit m -> l ≡ₚ map_to_list m -> parses (rd_times (Z.to_nat (Z.of_nat (size m))) read_pair) (concat (encode_pair <$> l)) l.
Proof.
  intros [_ Hf] Hp. replace (Z.to_nat (Z.of_nat (size m))) with (length l) by (rewrite Hp, length_map_to_list; lia).
  apply parses_times. intros [k v] Hkv. rewrite Hp in Hkv. apply elem_of_map_to_list in Hkv. destruct (Hf _ _ Hkv). by apply parses_pair.
Qed.

Lemma ascending_perm {V} (m : gmap Z V) : ascending_list m ≡ₚ map_to_list m.
Proof. apply sort_by_key_perm. Qed.

Lemma parses_stream sm : in_range 64 sm.1 -> pairs_fit sm.2 -> parses read_stream (encode_stream sm) sm.
Proof.
  intros H1 H2. destruct sm as [sid m]. unfold read_stream, encode_stream. cbn [fst snd] in *.
  eapply parses_bind; [by apply parses_le8|]. eapply parses_bind; [apply parses_size; apply H2|].
  eapply parses_eq; [|apply app_nil_r]. eapply parses_bind; [apply parses_pairs; [done|apply ascending_perm]|].
  rewrite (insert_all_perm m) by apply ascending_perm. apply parses_ret.
Qed.

Lemma parses_body num_shards cursors m n :
  in_range 32 num_shards -> length cursors = Z.to_nat num_shards -> Forall (in_range 64) cursors -> maps_fit m n ->
  parses (read_body num_shards)
    (to_le 4 num_shards ++ concat (to_le 8 <$> cursors) ++ to_le 8 (Z.of_nat (size m)) ++ concat (encode_stream <$> map_to_list m) ++
     to_le 8 (Z.of_nat (size n)) ++ concat (encode_pair <$> map_to_list n)) (cursors, m, n).
Proof.
  intros Hn Hl Hc [[Hm1 Hm2] Hnf]. unfold read_body. eapply parses_bind; [by apply parses_le4|].
  eapply parses_check; [unfold check_shards; rewrite Z.eqb_refl; apply parses_ret|].
  rewrite <- Hl. eapply parses_bind; [apply parses_times; intros c Hin; apply parses_le8; by eapply Forall_forall|].
  eapply parses_bind; [by apply parses_size|].
  replace (Z.to_nat (Z.of_nat (size m))) with (length (map_to_list m)) by (rewrite length_map_to_list; lia).
  eapply parses_bind.
  { apply parses_times. intros [k sm] Hin. apply elem_of_map_to_list in Hin. destruct (Hm2 _ _ Hin). by apply parses_stream. }
  eapply parses_bind; [apply parses_size; apply Hnf|]. eapply parses_eq; [|apply app_nil_r].
  eapply parses_bind; [by apply parses_pairs|]. rewrite (insert_all_perm m), (insert_all_perm n) by done. apply parses_ret.
Qed.

Lemma load_encode num_shards cursors m n :
  in_range 32 num_shards -> length cursors = Z.to_nat num_shards -> Forall (in_range 64) cursors -> maps_fit m n ->
  load_checkpoint num_shards (encode_checkpoint num_shards cursors m n) = Ok (cursors, m, n).
Proof.
  intros Hn Hl Hc Hf. pose proof (parses_body num_shards cursors m n Hn Hl Hc Hf) as Hp. unfold load_checkpoint, encode_checkpoint.
  set (body := to_le 4 num_shards ++ _) in *. assert (12 <= blen body) as Hlen.
  { unfold body. rewrite !length_app, !length_to_le. lia. }
  specialize (Hp (CKPT_MAGIC ++ to_le 4 1) []). rewrite app_nil_r, <- app_assoc in Hp.
  rewrite (proj2 (Z.ltb_ge _ _)) by (rewrite !length_app, length_to_le; cbn; lia).
  rewrite bool_decide_true by (by apply slice_app_exact). cbn [negb orb].
  change (get_le (CKPT_MAGIC ++ to_le 4 1 ++ body) 4 4) with 1. cbn [negb Z.eqb Pos.eqb].
  change (blen (CKPT_MAGIC ++ to_le 4 1)) with 8 in Hp. by rewrite Hp.
Qed.

(** ** Completing the maps from the log *)

(** The records the start reads: those of each shard from its cursor on. *)
Fixpoint tails (d : LogState) (bits shard : Z) (cursors : list Z) : list (Z * bytes) :=
  match cursors with
  | [] => []
  | cursor :: cursors => log_scan_shard d bits shard (encode_record_id shard cursor bits) U64_MAX ++ tails d bits (shard + 1) cursors
  end.

Lemma enter_all_spec l mn :
  match enter_all mn l with
  | Ok mn' => mn' = foldl rebuild_step mn l
  | Err e => exists e', e = SRecord e'
  end.
Proof.
  revert mn. induction l as [|[g c] l IH]; intros mn; cbn [enter_all foldl]; [done|]. unfold rebuild_step at 2. cbn [fst snd].
  destruct (decode_record c) as [r|e]; [apply IH|by exists e].
Qed.

Lemma scan_shards_spec d bits shard cursors mn :
  match scan_shards d bits shard cursors mn with
  | Ok mn' => mn' = foldl rebuild_step mn (tails d bits shard cursors)
  | Err e => exists e', e = SRecord e'
  end.
Proof.
  revert shard mn. induction cursors as [|cu cursors IH]; intros shard mn; cbn [scan_shards tails]; [done|].
  pose proof (enter_all_spec (log_scan_shard d bits shard (encode_record_id shard cu bits) U64_MAX) mn) as H.
  destruct (enter_all _ _) as [mn1|e]; cbn; [|done]. subst mn1. rewrite foldl_app. apply IH.
Qed.

Lemma tails_elem d bits shard cursors g c :
  all_committed d -> finds_all d ->
  (g, c) ∈ tails d bits shard cursors <->
  ls_written d !! g = Some c /\ g < U64_MAX /\
  exists i cu, cursors !! i = Some cu /\ (decode_record_id g bits).1 = shard + Z.of_nat i /\
    encode_record_id (shard + Z.of_nat i) cu bits <= g.
Proof.
  intros Hcom Hfa. revert shard. induction cursors as [|cu cursors IH]; intros shard; cbn [tails].
  - split; [intros H; by apply elem_of_nil in H|]. by intros (_ & _ & i & cu & H & _).
  - rewrite elem_of_app, IH. unfold log_scan_shard, log_scan. rewrite !list_elem_of_filter. unfold ascending_list.
    rewrite sort_by_key_perm, elem_of_map_to_list. cbn [fst]. split.
    + intros [(H1 & ([H2 H3] & _ & _) & H4)|(H1 & H2 & i & cu' & Hi & H3 & H4)].
      * split_and!; [done|done|]. exists O, cu. rewrite Z.add_0_r. by split_and!.
      * split_and!; [done|done|]. exists (S i), cu'. replace (shard + Z.of_nat (S i)) with (shard + 1 + Z.of_nat i) by lia. by split_and!.
    + intros (H1 & H2 & [|i] & cu' & Hi & H3 & H4).
      * left. injection Hi as <-. rewrite Z.add_0_r in *. specialize (Hcom _ _ H1). rewrite Hfa. by split_and!.
      * right. split_and!; [done|done|]. exists i, cu'. replace (shard + 1 + Z.of_nat i) with (shard + Z.of_nat (S i)) by lia. by split_and!.
Qed.

(** Two storages whose maps are those of the same log read the same. *)
Lemma store_ok_reads_eq s1 s2 sid seq :
  store_ok s1 -> store_ok s2 -> st_db s1 = st_db s2 -> read sid seq s1 = read sid seq s2.
Proof.
  intros H1 H2 Hd. rewrite !read_spec by done. destruct H1 as (_ & B1 & [M1 _]), H2 as (_ & B2 & [M2 _]). cbn [fst] in *.
  rewrite Hd in *. assert (lookup2 (seq_map s1) sid seq = lookup2 (seq_map s2) sid seq) as ->.
  { apply option_eq. intros gid. by rewrite M1, M2. }
  by rewrite B1, B2.
Qed.

(** The ids of a log: each of one of the shards, with room above it. *)
Definition ids_ok (num_shards : Z) (d : LogState) : Prop :=
  map_Forall (fun gid _ => 0 <= gid < 2 ^ 63 /\ (decode_record_id gid (shard_bits num_shards)).1 < num_shards) (ls_written d).

(** The log after the checkpoint of [s]: the records of the maps are all there, and
    the new records of a shard are above them. *)
Definition log_continues (s : Storage) (d : LogState) : Prop :=
  (forall gid c r, ls_written (st_db s) !! gid = Some c -> decode_record c = Ok r -> ls_written d !! gid = Some c) /\
  (forall gid c, ls_written d !! gid = Some c ->
     ls_written (st_db s) !! gid = Some c \/
     forall gid' c' r', ls_written (st_db s) !! gid' = Some c' -> decode_record c' = Ok r' ->
       (decode_record_id gid' (ls_bits (st_db s))).1 = (decode_record_id gid (ls_bits (st_db s))).1 ->
       (decode_record_id gid' (ls_bits (st_db s))).2 < (decode_record_id gid (ls_bits (st_db s))).2).

(** The cursors cut the log's shards behind the mapped records. *)
Definition cursors_ok (s : Storage) (n : Z) (cursors : list Z) : Prop :=
  length cursors = Z.to_nat n /\ Forall (in_range 64) cursors /\
  (forall i cu, cursors !! i = Some cu -> 0 <= Z.of_nat i < 2 ^ shard_bits n /\ cu < 2 ^ (64 - shard_bits n)) /\
  (forall i cu, cursors !! i = Some cu -> cu = 0 \/
     exists gid c r, ls_written (st_db s) !! gid = Some c /\ decode_record c = Ok r /\ decode_record_id gid (shard_bits n) = (Z.of_nat i, cu - 1)).

Lemma decode_id_ok gid b : 0 <= b <= 8 -> 0 <= gid < 2 ^ 63 ->
  id_ok (decode_record_id gid b).1 (decode_record_id gid b).2 b /\
  encode_record_id (decode_record_id gid b).1 (decode_record_id gid b).2 b = gid /\
  (decode_record_id gid b).2 + 1 < 2 ^ (64 - b).
Proof.
  intros Hb Hg. pose proof (encode_decode gid b ltac:(lia) ltac:(split; lia)) as H.
  destruct (decode_record_id gid b) as [sh lo]. cbn [fst snd]. destruct H as [Hid He]. split; [done|]. split; [done|].
  rewrite encode_eq in He by done. destruct Hid as [_ [? _] [? _]].
  assert (2 ^ 64 = 2 ^ (64 - b) * 2 ^ b) as E by (rewrite <- Z.pow_add_r by lia; f_equal; lia).
  assert (2 ^ b <= 2 ^ 8) by (apply Z.pow_le_mono_r; lia). assert (0 < 2 ^ b) by (apply Z.pow_pos_nonneg; lia). nia.
Qed.

Lemma shard_max_cursors s n :
  store_ok s -> ls_bits (st_db s) = shard_bits n -> 1 <= n <= 256 -> ids_ok n (st_db s) ->
  exists cursors, shard_max (st_shard_bits s) (mapped_gids (seq_map s)) (repeat 0 (Z.to_nat n)) = Some cursors /\ cursors_ok s n cursors.
Proof.
  intros (_ & Hb & Hm & _) Hbits Hn Hids. cbn [fst] in Hm. rewrite Hb, Hbits. pose proof (shard_bits_small n Hn) as Hbs.
  assert (forall g, g ∈ mapped_gids (seq_map s) -> exists c r, ls_written (st_db s) !! g = Some c /\ decode_record c = Ok r) as Hmap.
  { intros g (sid & seq & Hl)%mapped_gids_elem. apply Hm in Hl as (r & (c & ? & ?)%rec_in_log & _). by exists c, r. }
  destruct (shard_max_spec (shard_bits n) (mapped_gids (seq_map s)) (repeat 0 (Z.to_nat n))) as (cu & Hr & Hl & _ & _ & Ho).
  { intros g Hg. destruct (Hmap g Hg) as (c & r & Hw & _). destruct (Hids _ _ Hw) as [Hg1 Hg2].
    destruct (decode_id_ok g (shard_bits n) Hbs Hg1) as ([_ [? _] _] & _). rewrite repeat_length. lia. }
  rewrite repeat_length in Hl. exists cu. split; [done|].
  assert (forall i c0, cu !! i = Some c0 -> c0 = 0 \/
     exists gid c r, ls_written (st_db s) !! gid = Some c /\ decode_record c = Ok r /\ decode_record_id gid (shard_bits n) = (Z.of_nat i, c0 - 1)) as Hc.
  { intros i c0 Hi. destruct (Ho i c0 Hi) as [H0|(g & Hg & Hd)].
    - left. apply list_elem_of_lookup_2 in H0. apply list_elem_of_In, repeat_spec in H0. done.
    - right. destruct (Hmap g Hg) as (c & r & ? & ?). by exists g, c, r. }
  assert (forall i c0, cu !! i = Some c0 -> 0 <= c0 < 2 ^ (64 - shard_bits n)) as Hfit.
  { intros i c0 Hi. destruct (Hc i c0 Hi) as [->|(gid & c & r & Hw & _ & Hd)]; [split; [done|apply Z.pow_pos_nonneg; lia]|].
    destruct (Hids _ _ Hw) as [Hg1 _]. destruct (decode_id_ok gid (shard_bits n) Hbs Hg1) as ([_ _ [? _]] & _ & ?).
    rewrite Hd in *. cbn [snd] in *. lia. }
  split_and!; [done| | |done].
  - apply Forall_lookup. intros i c0 Hi. destruct (Hfit i c0 Hi). split; [done|].
    assert (2 ^ (64 - shard_bits n) <= 2 ^ 64) by (apply Z.pow_le_mono_r; lia). lia.
  - intros i c0 Hi. split; [|apply (Hfit i c0 Hi)]. split; [lia|]. apply shard_bits_fits; [lia|]. apply lookup_lt_Some in Hi. lia.
Qed.

(** The mapped records and what the start reads are together the records of the log. *)
Lemma tails_complete s n d cursors gid r :
  1 <= n <= 256 -> all_committed d -> finds_all d -> ls_bits (st_db s) = shard_bits n -> ids_ok n d -> log_continues s d -> cursors_ok s n cursors ->
  rec_in (log_list (st_db s) ++ tails d (shard_bits n) 0 cursors) gid r <-> rec_in (log_list d) gid r.
Proof.
  intros Hn Hcom Hfa Hbits Hids [Hkeep Hnew] (Hlen & Hrange & Hfit & Hcur). unfold log_list at 1, rec_in at 1. setoid_rewrite elem_of_app.
  rewrite rec_in_log. setoid_rewrite elem_of_map_to_list. rewrite Hbits in Hnew. pose proof (shard_bits_small n Hn) as Hbs. split.
  - intros (c & [H|H] & Hd); [exists c; split; [by eapply Hkeep|done]|]. apply tails_elem in H as (H & _); [|done..]. by exists c.
  - intros (c & Hw & Hd). exists c. split; [|done]. destruct (Hnew gid c Hw) as [H|H]; [by left|]. right. apply tails_elem; [done..|].
    destruct (Hids _ _ Hw) as [Hg1 Hg2]. destruct (decode_id_ok gid (shard_bits n) Hbs Hg1) as (Hid & He & _).
    destruct (decode_record_id gid (shard_bits n)) as [sh lo] eqn:Ed. cbn [fst snd] in *. split; [done|]. split; [lia|].
    destruct (io_shard _ _ _ Hid) as [Hsh _]. destruct (lookup_lt_is_Some_2 cursors (Z.to_nat sh)) as [cu Hcu]; [lia|].
    exists (Z.to_nat sh), cu. rewrite Z2Nat.id, Z.add_0_l by done. split_and!; [done|done|].
    destruct (Hfit _ _ Hcu) as [Hf1 Hf2]. rewrite Z2Nat.id in Hf1 by done. rewrite <- He.
    assert (0 <= cu <= lo) as Hle.
    { destruct (Hcur _ _ Hcu) as [->|(g' & c' & r' & Hw' & Hr' & Hd')]; [split; [done|apply (io_local _ _ _ Hid)]|].
      rewrite Z2Nat.id in Hd' by done. specialize (H g' c' r' Hw' Hr'). rewrite Hd' in H. cbn [fst snd] in H. specialize (H eq_refl).
      split; [apply (Forall_lookup_1 _ _ _ _ Hrange Hcu)|lia]. }
    rewrite !encode_eq by (done || (split; [lia|done|lia])). assert (0 < 2 ^ shard_bits n) by (apply Z.pow_pos_nonneg; lia). nia.
Qed.

(** C25: A server that starts from a checkpoint of its maps reads exactly as one that
    rebuilt them from the whole log, and gives out numbers at least as high: the
    checkpoint can be written, loading it never panics, and a record that does not
    decode makes the start fall back to the rebuild.  This is for a storage of at most
    256 shards whose maps are those of its log and fit the fields of the file, which is
    written without an I/O error, and for a log at the start whose records
    are all committed and found by scans (none deleted, none behind a stale base),
    that still holds the mapped records and has its new records above them, and in
    which every shard has a durable record or which is empty: with an idle shard the
    rebuild is skipped and finds nothing, see [idle_shard_hides_streams]. *)
Theorem checkpoint_start_equals_rebuild (s : Storage) (n : Z) (d : LogState) :
  store_ok s -> st_num_shards s = n -> 1 <= n <= 256 -> ls_bits (st_db s) = shard_bits n -> ls_bits d = shard_bits n ->
  ids_ok n (st_db s) -> ids_ok n d -> all_committed d -> finds_all d -> maps_fit (seq_map s) (next_seqs s) -> unique_in (log_list d) ->
  (durable_cursor d <> 0 \/ ls_written d = ∅) -> log_continues s d ->
  exists file s', write_seq_map_checkpoint (mkCkptIo true true true true) None s = (Ok tt, Some file) /\
    start_storage d n (Some file) = Some s' /\ st_db s' = d /\
    (forall sid seq, read sid seq s' = read sid seq (storage_new d n)) /\
    (forall gid r, rec_in (log_list d) gid r -> d_seq r < (alloc_seq (d_stream_id r) s').1).
Proof.
  intros Hok Hnum Hn Hb1 Hb2 Hi1 Hi2 Hcom Hfa Hfit Hu Hdur Hcont.
  destruct (shard_max_cursors s n Hok Hb1 Hn Hi1) as (cursors & Hmax & Hcur).
  assert (gids_ok d) as Hgd by (intros g c Hg; destruct (Hi2 g c Hg) as [? _]; lia).
  destruct (storage_new_ok d n Hgd Hcom (Hfa 0) Hu ltac:(done) Hdur) as [Hnew Hnewdb].
  eexists. unfold write_seq_map_checkpoint. rewrite Hnum, Hmax. cbn [io_create io_write io_flush io_rename negb].
  enough (exists s', start_storage d n (Some (encode_checkpoint n cursors (seq_map s) (next_seqs s))) = Some s' /\ store_ok s' /\ st_db s' = d) as
    (s' & Hs & Hok' & Hdb).
  { exists s'. split_and!; [done|done|done| |].
    - intros sid seq. apply store_ok_reads_eq; [done|done|by rewrite Hdb].
    - destruct Hok' as (_ & _ & _ & Hn'). rewrite Hdb in Hn'. exact Hn'. }
  unfold start_storage, try_new_from_checkpoint.
  destruct (Hcur) as (Hlen & Hrange & _). rewrite load_encode by (try done; split; lia). cbn [mbind result_bind].
  pose proof (scan_shards_spec d (shard_bits n) 0 cursors (seq_map s, next_seqs s)) as Hscan.
  destruct (scan_shards _ _ _ _ _) as [[m nx]|e]; cbn [mbind result_bind].
  - eexists. split; [done|]. split; [|done]. split; [done|]. split; [done|]. cbn [st_db seq_map next_seqs]. rewrite Hscan.
    eapply maps_ok_equiv; [intros g r; by eapply tails_complete|]. apply rebuild_ok; [apply Hok|].
    eapply unique_sub; [|exact Hu]. intros g r. by rewrite tails_complete.
  - destruct Hscan as (e' & ->). exists (storage_new d n). by split_and!.
Qed.

(** ** Where the checkpoint falls short *)

Definition ckpt_of (s : Storage) : bytes := default [] (write_seq_map_checkpoint (mkCkptIo true true true true) None s).2.

(** A checkpoint may name records that are not durable yet.  When a crash loses such
    a record and its id is given to another stream's record, the start from the
    checkpoint reads the wrong record, does not find the new one, and gives its
    number out again. *)
Theorem checkpoint_outlives_lost_record :
  let s0 := storage_new (mkLog ∅ [0] [0] 0) 1 in
  let s := (append (Some 0) 1 7 (demo_text 3) (demo_text 1) [] 5 [] s0).2 in
  let d := mkLog {[0 := demo_raw 8 1 (demo_text 3)]} [1] [1] 0 in
  exists s', start_storage d 1 (Some (ckpt_of s)) = Some s' /\
    (exists r, read 7 1 s' = Ok (Some r) /\ d_stream_id r = 8) /\
    read 8 1 s' = Ok None /\ (alloc_seq 8 s').1 = 1 /\
    (exists r, read 8 1 (storage_new d 1) = Ok (Some r)) /\ read 7 1 (storage_new d 1) = Ok None.
Proof.
  eexists. split; [by vm_compute|]. split_and!; [eexists; split; by vm_compute|by vm_compute..| |by vm_compute].
  eexists. by vm_compute.
Qed.

(** The file has no checksum and is not synced before the rename: a file cut short
    makes the start panic instead of falling back. *)
Theorem short_checkpoint_panics :
  let s := storage_new (mkLog {[0 := demo_raw 7 1 (demo_text 3)]} [1] [1] 0) 1 in
  start_storage (st_db s) 1 (Some (ckpt_of s)) <> None /\
  start_storage (st_db s) 1 (Some (take 40 (ckpt_of s))) = None.
Proof. by vm_compute. Qed.

(** ** Witness *)

Definition demo_later : Storage := (append (Some 1) 1 8 (demo_text 3) (demo_text 1) [] 5 (demo_text 2) demo_store).2.
Definition demo_log : LogState := mkLog (ls_written (st_db demo_later)) [2] [2] 0.

Lemma demo_append_ok gid sid s :
  fresh_gid s gid -> in_range 64 sid -> 1 <= default 1 (next_seqs s !! sid) < 2 ^ 64 -> store_ok s ->
  store_ok (append (Some gid) 1 sid (demo_text 3) (demo_text 1) [] 5 (demo_text 2) s).2.
Proof.
  intros Hf Hs Hn Hok. apply append_store_ok; [|by intros g [= <-]|done|done].
  split; [by split|]. split; [exact Hs|]. split_and!; try (by split; vm_compute); [split; constructor|by constructor].
Qed.

Lemma demo_store_ok : store_ok demo_store.
Proof.
  apply demo_append_ok; [by split|by split|by vm_compute|]. apply storage_new_ok; [apply map_Forall_empty|apply map_Forall_empty|done| |done|by right].
  intros g1 g2 r1 r2 Hr1. by apply rec_in_empty in Hr1.
Qed.

Lemma demo_later_ok : store_ok demo_later.
Proof. apply demo_append_ok; [by split; vm_compute|by split|by vm_compute|apply demo_store_ok]. Qed.

Lemma demo_written : ls_written (st_db demo_store) = {[0 := demo_raw 7 1 (demo_text 3)]}.
Proof. by vm_compute. Qed.

Lemma demo_log_written : ls_written demo_log = <[1 := demo_raw 8 1 (demo_text 3)]> {[0 := demo_raw 7 1 (demo_text 3)]}.
Proof. by vm_compute. Qed.

Lemma demo_continues : log_continues demo_store demo_log.
Proof.
  split; rewrite demo_written, demo_log_written.
  - intros gid c r [<- <-]%lookup_singleton_Some _. rewrite lookup_insert_ne by done. by rewrite lookup_singleton_eq.
  - intros gid c Hg. destruct (decide (gid = 1)) as [->|Hne].
    + right. by intros gid' c' r' [<- <-]%lookup_singleton_Some _ _.
    + left. by rewrite lookup_insert_ne in Hg.
Qed.

Lemma checkpoint_start_equals_rebuild_witness :
  exists file s', write_seq_map_checkpoint (mkCkptIo true true true true) None demo_store = (Ok tt, Some file) /\
    start_storage demo_log 1 (Some file) = Some s' /\ read 8 1 s' = read 8 1 (storage_new demo_log 1).
Proof.
  destruct (checkpoint_start_equals_rebuild demo_store 1 demo_log demo_store_ok) as (file & s' & Hf & Hs & _ & Hr & _).
  - reflexivity.
  - lia.
  - reflexivity.
  - reflexivity.
  - unfold ids_ok. rewrite demo_written. apply map_Forall_singleton. by vm_compute.
  - unfold ids_ok. rewrite demo_log_written. apply map_Forall_insert_2; [by vm_compute|]. apply map_Forall_singleton. by vm_compute.
  - unfold all_committed. rewrite demo_log_written. apply map_Forall_insert_2; [by vm_compute|]. apply map_Forall_singleton. by vm_compute.
  - intros from. reflexivity.
  - change (maps_fit {[7 := {[1 := 0]}]} {[7 := 2]}). split; [split; [by vm_compute|]|split; [by vm_compute|]].
    + apply map_Forall_singleton. split; [by split|]. split; [by vm_compute|]. apply map_Forall_singleton. by repeat split.
    + apply map_Forall_singleton. by repeat split.
  - exact (store_unique _ demo_later_ok).
  - left. by vm_compute.
  - exact demo_continues.
  - exists file, s'. split; [exact Hf|]. split; [exact Hs|apply Hr].
Defined.
