(* ===== verification/Catalog.v ===== *)
(** * The catalog of namespaces and streams ([logdbd/src/catalog.rs], names of
    [logdbd/src/config.rs])

    The catalog gives every namespace and every stream a number the first time its
    name is used and keeps the numbers in a snapshot file that is written anew after
    each creation.  Records carry the numbers, not the names, so a number must never
    pass from one stream to another.

    A string is its bytes.  Whether the snapshot could be written is a parameter of
    [resolve], which only logs a failure. *)
From stdpp Require Import base gmap list numbers.
From coqutil Require Import Byte.
From Stdlib Require Import ZArith Lia.
From S2P Require Import Prelude Externals ByteReader.
Open Scope Z_scope.

(** ** Names *)

Definition ch (b : byte) (c : Z) : bool := byte.unsigned b =? c.

(** A character of a name: a-z, 0-9, underscore, hyphen, and the slash in stream names. *)
Definition name_char (allow_slash : bool) (b : byte) : bool :=
  byte_in 97 122 b || byte_in 48 57 b || ch b 95 || ch b 45 || (allow_slash && ch b 47).

Definition starts_with (c : Z) (s : bytes) : bool := match s with b :: _ => ch b c | [] => false end.
Definition ends_with (c : Z) (s : bytes) : bool := starts_with c (rev s).

Fixpoint contains_double (c : Z) (s : bytes) : bool :=
  match s with
  | a :: (b :: _) as rest => (ch a c && ch b c) || contains_double c rest
  | _ => false
  end.

(** [validate_name] accepts. *)
Definition validate_name (name : bytes) (min_len max_len : Z) (allow_slash : bool) : bool :=
  negb ((blen name <? min_len) || (max_len <? blen name)) &&
  negb (starts_with 95 name) &&
  (if allow_slash then negb (starts_with 47 name) && negb (ends_with 47 name) && negb (contains_double 47 name) else true) &&
  forallb (name_char allow_slash) name.

Definition validate_namespace_name (name : bytes) : bool := validate_name name 1 64 false.
Definition validate_stream_name (name : bytes) : bool := validate_name name 1 128 true.

(** ** The catalog *)

Record Catalog := mkCatalog {
  namespaces : gmap bytes Z;
  namespace_names : gmap Z bytes;
  streams : gmap (Z * bytes) Z;
  stream_info : gmap Z (Z * bytes);
  next_ns_id : Z;
  next_stream_id : Z;
}.

Inductive CatalogError :=
  | CatIo
  | CatTooShort
  | CatCrcMismatch
  | CatBadMagic
  | CatVersion (v : Z)
  | CatTruncated
  | CatBadUtf8
  | InvalidName
  | NamespaceNotFound.

Definition catalog_empty : Catalog := mkCatalog ∅ ∅ ∅ ∅ 1 1.

(** The first half of [resolve]: the namespace's number, and whether it is new. *)
Definition resolve_namespace (ns : bytes) (c : Catalog) : Z * bool * Catalog :=
  match namespaces c !! ns with
  | Some id => (id, false, c)
  | None =>
      let id := next_ns_id c in
      (id, true, mkCatalog (<[ns := id]> (namespaces c)) (<[id := ns]> (namespace_names c)) (streams c) (stream_info c)
                   (u32 (id + 1)) (next_stream_id c))
  end.

(** The second half: the stream's number. *)
Definition resolve_stream (ns_id : Z) (stream : bytes) (c : Catalog) : Z * bool * Catalog :=
  match streams c !! (ns_id, stream) with
  | Some id => (id, false, c)
  | None =>
      let id := next_stream_id c in
      (id, true, mkCatalog (namespaces c) (namespace_names c) (<[(ns_id, stream) := id]> (streams c)) (<[id := (ns_id, stream)]> (stream_info c))
                   (next_ns_id c) (u64 (id + 1)))
  end.

(** ** The snapshot *)

Section WithCrc.
Context {ext : Externals}.

Definition SNAPSHOT_MAGIC : Z := 1128354892.
Definition SNAPSHOT_VERSION : Z := 1.

Definition encode_name (name : bytes) : bytes := to_le 2 (blen name) ++ name.

Definition encode_cstream (e : Z * bytes) : bytes := to_le 8 e.1 ++ encode_name e.2.

(** The streams of a namespace. *)
Definition ns_streams (stream_map : gmap (Z * bytes) Z) (ns_id : Z) : list (Z * bytes) :=
  (fun e => (e.2, e.1.2)) <$> filter (fun e => e.1.1 = ns_id) (map_to_list stream_map).

Definition encode_ns (e : Z * bytes * list (Z * bytes)) : bytes :=
  to_le 4 e.1.1 ++ encode_name e.1.2 ++ to_le 4 (Z.of_nat (length e.2)) ++ concat (encode_cstream <$> e.2).

Definition entries (ns_map : gmap bytes Z) (stream_map : gmap (Z * bytes) Z) : list (Z * bytes * list (Z * bytes)) :=
  (fun e => (e.2, e.1, ns_streams stream_map e.2)) <$> map_to_list ns_map.

(** [serialize]. *)
Definition serialize (ns_map : gmap bytes Z) (stream_map : gmap (Z * bytes) Z) : bytes :=
  let buf := to_le 4 SNAPSHOT_MAGIC ++ to_le 2 SNAPSHOT_VERSION ++ to_le 4 (Z.of_nat (size ns_map)) ++
             concat (encode_ns <$> entries ns_map stream_map) in
  buf ++ to_le 4 (crc32c buf).

(** [save_snapshot]: the file afterwards; [saved] says whether the file operations succeed. *)
Definition save_snapshot (saved : bool) (c : Catalog) (file : option bytes) : option bytes :=
  if saved then Some (serialize (namespaces c) (streams c)) else file.

(** [resolve]: both halves, and a snapshot when one of them is new. *)
Definition resolve (saved : bool) (ns stream : bytes) (c : Catalog) (file : option bytes)
    : result CatalogError (Z * Z) * Catalog * option bytes :=
  if negb (validate_namespace_name ns) then (Err InvalidName, c, file)
  else if negb (validate_stream_name stream) then (Err InvalidName, c, file)
  else
    let '(ns_id, new1, c) := resolve_namespace ns c in
    let '(stream_id, new2, c) := resolve_stream ns_id stream c in
    (Ok (ns_id, stream_id), c, if new1 || new2 then save_snapshot saved c file else file).

(** Reading: a name, a stream, a namespace with its streams. *)
Definition read_name : Rd CatalogError bytes :=
  len ← rd_le CatTruncated 2;
  rd_str CatTruncated CatBadUtf8 len.

Definition read_cstream : Rd CatalogError (Z * bytes) :=
  id ← rd_le CatTruncated 8;
  name ← read_name;
  mret (id, name).

Definition read_ns : Rd CatalogError (Z * bytes * list (Z * bytes)) :=
  id ← rd_le CatTruncated 4;
  name ← read_name;
  stream_count ← rd_le CatTruncated 4;
  l ← rd_times (Z.to_nat stream_count) read_cstream;
  mret (id, name, l).

Definition list_maximum (l : list Z) : Z := foldl Z.max 0 l.

(** The catalog of the entries read: the maps filled entry by entry, the counters
    behind the greatest ids. *)
Definition catalog_of (l : list (Z * bytes * list (Z * bytes))) : Catalog :=
  let ss := concat ((fun e : Z * bytes * list (Z * bytes) => (fun s => (s.1, (e.1.1, s.2))) <$> e.2) <$> l) in
  mkCatalog (insert_all ((fun e => (e.1.2, e.1.1)) <$> l) ∅) (insert_all ((fun e => (e.1.1, e.1.2)) <$> l) ∅)
    (insert_all ((fun s => (s.2, s.1)) <$> ss) ∅) (insert_all ss ∅)
    (u32 (list_maximum ((fun e => e.1.1) <$> l) + 1)) (u64 (list_maximum ss.*1 + 1)).

(** [load_snapshot]: the checksum is over all but the last four bytes, and no entry
    reaches into it. *)
Definition load_snapshot (data : bytes) : result CatalogError Catalog :=
  if blen data <? 10 then Err CatTooShort
  else
    let crc_offset := blen data - 4 in
    let body := take (Z.to_nat crc_offset) data in
    if negb (get_le data crc_offset 4 =? crc32c body) then Err CatCrcMismatch
    else if negb (get_le data 0 4 =? SNAPSHOT_MAGIC) then Err CatBadMagic
    else if negb (get_le data 4 2 =? SNAPSHOT_VERSION) then Err (CatVersion (get_le data 4 2))
    else
      match rd_times (Z.to_nat (get_le data 6 4)) read_ns body 10 with
      | Ok (l, _) => Ok (catalog_of l)
      | Err e => Err e
      end.

(** [open]. *)
Definition catalog_open (file : option bytes) : result CatalogError Catalog :=
  match file with
  | None => Ok catalog_empty
  | Some data => load_snapshot data
  end.

(** [list_namespaces] and [list_streams]. *)
Definition list_namespaces (c : Catalog) : list (bytes * Z * Z) :=
  (fun e => (e.1, e.2, Z.of_nat (length (filter (fun k => k.1.1 = e.2) (map_to_list (streams c)))))) <$>
    filter (fun e => starts_with 95 e.1 = false) (map_to_list (namespaces c)).

Definition list_streams (ns : bytes) (c : Catalog) : result CatalogError (list (bytes * Z)) :=
  match namespaces c !! ns with
  | None => Err NamespaceNotFound
  | Some ns_id => Ok ((fun e => (e.1.2, e.2)) <$> filter (fun e => e.1.1 = ns_id) (map_to_list (streams c)))
  end.

(** ** The invariant *)

Definition name_ok (name : bytes) : Prop := utf8_valid name = true /\ blen name < 2 ^ 16.

(** The ids of a map are 1, 2, ... below the counter. *)
Definition ids_below {V} (m : gmap Z V) (next : Z) : Prop := 1 <= next /\ forall id, is_Some (m !! id) <-> 1 <= id < next.

(** The maps are inverse to each other, the ids are the numbers below the counters,
    and a stream's namespace exists. *)
Record cat_ok (c : Catalog) : Prop := {
  co_ns : forall name id, namespaces c !! name = Some id <-> namespace_names c !! id = Some name;
  co_st : forall k id, streams c !! k = Some id <-> stream_info c !! id = Some k;
  co_ns_ids : ids_below (namespace_names c) (next_ns_id c);
  co_st_ids : ids_below (stream_info c) (next_stream_id c);
  co_parent : forall nid name id, streams c !! (nid, name) = Some id -> is_Some (namespace_names c !! nid);
  co_ns_name : forall name id, namespaces c !! name = Some id -> name_ok name;
  co_st_name : forall nid name id, streams c !! (nid, name) = Some id -> name_ok name;
  co_ns_size : Z.of_nat (size (namespaces c)) = next_ns_id c - 1;
  co_st_size : Z.of_nat (size (streams c)) = next_stream_id c - 1;
}.

(** Fewer than 2^32 namespaces and streams. *)
Definition cat_fits (c : Catalog) : Prop := next_ns_id c <= 2 ^ 32 - 1 /\ next_stream_id c <= 2 ^ 32.

(** ** Names are UTF-8 *)

Lemma ascii_utf8 s : forallb (byte_in 0 127) s = true -> utf8_valid s = true.
Proof. induction s as [|b s IH]; [done|]. cbn. intros [-> H]%andb_prop. by apply IH. Qed.

Lemma validate_name_ok name mn mx sl : mx < 2 ^ 16 -> validate_name name mn mx sl = true -> name_ok name.
Proof.
  intros Hmx. unfold validate_name. rewrite !andb_true_iff, negb_true_iff, orb_false_iff, !Z.ltb_ge. intros (((Hl & _) & _) & Hf).
  split; [|lia]. apply ascii_utf8. apply forallb_forall. intros b Hb. rewrite forallb_forall in Hf. specialize (Hf b Hb).
  unfold name_char, byte_in, ch in *. rewrite !orb_true_iff, !andb_true_iff, !Z.leb_le, !Z.eqb_eq in Hf. rewrite andb_true_iff, !Z.leb_le. lia.
Qed.

(** ** [resolve] keeps the invariant *)

Lemma ids_below_fresh {V} (m : gmap Z V) next : ids_below m next -> m !! next = None.
Proof. intros [_ H]. destruct (m !! next) eqn:E; [|done]. exfalso. assert (is_Some (m !! next)) as Hs by eauto. apply H in Hs. lia. Qed.

Lemma ids_below_insert {V} (m : gmap Z V) next v : ids_below m next -> ids_below (<[next := v]> m) (next + 1).
Proof.
  intros [H1 H]. split; [lia|]. intros id. rewrite lookup_insert_is_Some, H. lia.
Qed.

(** A new pair keeps two maps inverse to each other. *)
Lemma inverse_insert `{Countable K} (m : gmap K Z) (w : gmap Z K) k id :
  (forall k i, m !! k = Some i <-> w !! i = Some k) -> m !! k = None -> w !! id = None ->
  forall k' i, <[k := id]> m !! k' = Some i <-> <[id := k]> w !! i = Some k'.
Proof.
  intros Hinv Hk Hid k' i. destruct (decide (k = k')) as [<-|Hk'], (decide (id = i)) as [<-|Hi]; rewrite ?lookup_insert_eq, ?lookup_insert_ne by done.
  - done.
  - split; [by intros [= ?]|]. intros Hw. apply Hinv in Hw. congruence.
  - split; [intros Hm; apply Hinv in Hm; congruence|by intros [= ?]].
  - apply Hinv.
Qed.

Lemma resolve_namespace_ok ns c :
  cat_ok c -> name_ok ns -> next_ns_id c < 2 ^ 32 - 1 ->
  let '(id, new, c') := resolve_namespace ns c in
  cat_ok c' /\ namespaces c' !! ns = Some id /\ namespaces c ⊆ namespaces c' /\ streams c' = streams c /\
  next_stream_id c' = next_stream_id c /\ (new = false -> c' = c) /\ (new = true -> namespaces c !! ns = None) /\
  next_ns_id c <= next_ns_id c' <= next_ns_id c + 1.
Proof.
  intros Hc Hn Hfit. unfold resolve_namespace. destruct (namespaces c !! ns) as [id|] eqn:E; [split_and!; (done || lia)|].
  pose proof (ids_below_fresh _ _ (co_ns_ids c Hc)) as Hfresh. pose proof (co_ns_ids c Hc) as [Hge _].
  unfold wrap. rewrite Z.mod_small by lia. split; [|split_and!; cbn; rewrite ?lookup_insert_eq; (done || lia || by apply insert_subseteq)].
  destruct Hc as [H1 H2 H3 H4 H5 H6 H7 H8 H9]. split; cbn; try done.
  - by apply inverse_insert.
  - by apply ids_below_insert.
  - intros nid name id Hs. rewrite lookup_insert_is_Some'. right. by eapply H5.
  - intros name id. rewrite lookup_insert_Some. intros [[<- _]|[_ ?]]; [done|by eapply H6].
  - rewrite map_size_insert_None by done. lia.
Qed.

Lemma resolve_stream_ok nid st c :
  cat_ok c -> name_ok st -> is_Some (namespace_names c !! nid) -> next_stream_id c < 2 ^ 32 ->
  let '(id, new, c') := resolve_stream nid st c in
  cat_ok c' /\ streams c' !! (nid, st) = Some id /\ streams c ⊆ streams c' /\ namespaces c' = namespaces c /\
  next_ns_id c' = next_ns_id c /\ (new = false -> c' = c) /\ (new = true -> streams c !! (nid, st) = None) /\
  next_stream_id c <= next_stream_id c' <= next_stream_id c + 1.
Proof.
  intros Hc Hn Hp Hfit. unfold resolve_stream. destruct (streams c !! (nid, st)) as [id|] eqn:E; [split_and!; (done || lia)|].
  pose proof (ids_below_fresh _ _ (co_st_ids c Hc)) as Hfresh. pose proof (co_st_ids c Hc) as [Hge _].
  unfold wrap. rewrite Z.mod_small by lia. split; [|split_and!; cbn; rewrite ?lookup_insert_eq; (done || lia || by apply insert_subseteq)].
  destruct Hc as [H1 H2 H3 H4 H5 H6 H7 H8 H9]. split; cbn; try done.
  - by apply inverse_insert.
  - by apply ids_below_insert.
  - intros nid' name id. rewrite lookup_insert_Some. intros [[[= <- <-] _]|[_ ?]]; [done|by eapply H5].
  - intros nid' name id. rewrite lookup_insert_Some. intros [[[= <- <-] _]|[_ ?]]; [done|by eapply H7].
  - rewrite map_size_insert_None by done. lia.
Qed.

Lemma catalog_empty_ok : cat_ok catalog_empty.
Proof.
  split; cbn; try done; try (intros; rewrite ?lookup_empty in *; done).
  - split; [done|]. intros id. rewrite lookup_empty. split; [intros [? ?]; done|lia].
  - split; [done|]. intros id. rewrite lookup_empty. split; [intros [? ?]; done|lia].
Qed.

(** ** A snapshot is read back *)

Lemma parses_name name : name_ok name -> parses read_name (encode_name name) name.
Proof.
  intros [H1 H2]. unfold read_name, encode_name. eapply parses_bind; [apply parses_le2; split; [lia|done]|]. by apply parses_str.
Qed.

Lemma parses_cstream e : in_range 64 e.1 -> name_ok e.2 -> parses read_cstream (encode_cstream e) e.
Proof.
  intros H1 H2. destruct e as [id name]. cbn [fst snd] in *. unfold read_cstream, encode_cstream.
  eapply parses_bind; [by apply parses_le8|]. eapply parses_eq; [|apply app_nil_r].
  eapply parses_bind; [by apply parses_name|]. apply parses_ret.
Qed.

Definition entry_ok (e : Z * bytes * list (Z * bytes)) : Prop :=
  in_range 32 e.1.1 /\ name_ok e.1.2 /\ Z.of_nat (length e.2) < 2 ^ 32 /\ forall s, s ∈ e.2 -> in_range 64 s.1 /\ name_ok s.2.

Lemma parses_ns e : entry_ok e -> parses read_ns (encode_ns e) e.
Proof.
  destruct e as [[id name] l]. intros (H1 & H2 & H3 & H4). cbn [fst snd] in *. unfold read_ns, encode_ns. cbn [fst snd].
  eapply parses_bind; [by apply parses_le4|]. eapply parses_bind; [by apply parses_name|].
  eapply parses_bind; [apply parses_le4; split; [lia|done]|]. rewrite Nat2Z.id. eapply parses_eq; [|apply app_nil_r].
  eapply parses_bind; [apply parses_times; intros s Hs; destruct (H4 s Hs); by apply parses_cstream|]. apply parses_ret.
Qed.

Lemma ns_streams_elem m nid sid name : (sid, name) ∈ ns_streams m nid <-> m !! (nid, name) = Some sid.
Proof.
  unfold ns_streams. rewrite list_elem_of_fmap. setoid_rewrite list_elem_of_filter. split.
  - intros ([[n nm] i] & [= -> ->] & [<- Hm]). by apply elem_of_map_to_list in Hm.
  - intros Hm. exists (nid, name, sid). split; [done|]. split; [done|]. by apply elem_of_map_to_list.
Qed.

Lemma entries_elem ns st id name l : (id, name, l) ∈ entries ns st <-> ns !! name = Some id /\ l = ns_streams st id.
Proof.
  unfold entries. rewrite list_elem_of_fmap. split.
  - intros ([nm i] & [= -> -> ->] & Hm). by apply elem_of_map_to_list in Hm.
  - intros [Hm ->]. exists (name, id). split; [done|]. by apply elem_of_map_to_list.
Qed.

Lemma length_ns_streams m nid : (length (ns_streams m nid) <= size m)%nat.
Proof. unfold ns_streams. rewrite length_fmap. etransitivity; [apply length_filter|]. by rewrite length_map_to_list. Qed.

Lemma entries_ok c e : cat_ok c -> cat_fits c -> e ∈ entries (namespaces c) (streams c) -> entry_ok e.
Proof.
  intros Hc [F1 F2]. destruct e as [[id name] l]. intros [Hn ->]%entries_elem. split_and!; cbn [fst snd].
  - apply (co_ns c Hc) in Hn. assert (is_Some (namespace_names c !! id)) as Hs by eauto. apply (co_ns_ids c Hc) in Hs. split; lia.
  - by eapply co_ns_name.
  - pose proof (length_ns_streams (streams c) id). pose proof (co_st_size c Hc). lia.
  - intros [sid sname] Hs%ns_streams_elem. cbn [fst snd]. split; [|by eapply co_st_name]. apply (co_st c Hc) in Hs.
    assert (is_Some (stream_info c !! sid)) as Hi by eauto. apply (co_st_ids c Hc) in Hi. split; lia.
Qed.

Lemma list_maximum_acc l a b : a <= b -> (forall x, x ∈ l -> x <= b) -> (a = b \/ b ∈ l) -> foldl Z.max a l = b.
Proof.
  revert a. induction l as [|x l IH]; intros a Ha Hl Hb; cbn [foldl].
  - destruct Hb as [|Hb]; [done|by apply elem_of_nil in Hb].
  - pose proof (Hl x ltac:(left)) as Hx. apply IH; [lia|intros y Hy; apply Hl; by right|].
    destruct Hb as [->|[->|?]%elem_of_cons]; [left; lia|left; lia|by right].
Qed.

(** The greatest id is the one below the counter. *)
Lemma list_maximum_ids {V} (m : gmap Z V) next l :
  ids_below m next -> (forall id, id ∈ l <-> is_Some (m !! id)) -> list_maximum l = next - 1.
Proof.
  intros [H1 H2] Hl. apply list_maximum_acc; [lia|intros x Hx; apply Hl, H2 in Hx; lia|].
  destruct (decide (next = 1)) as [->|Hne]; [by left|right]. apply Hl, H2. lia.
Qed.

(** The entries of a catalog build it. *)
Lemma catalog_of_entries c : cat_ok c -> cat_fits c -> catalog_of (entries (namespaces c) (streams c)) = c.
Proof.
  intros Hc [F1 F2]. set (ss := concat ((fun e : Z * bytes * list (Z * bytes) => (fun s => (s.1, (e.1.1, s.2))) <$> e.2) <$>
    entries (namespaces c) (streams c))).
  assert (forall sid k, (sid, k) ∈ ss <-> stream_info c !! sid = Some k) as Hss.
  { intros sid [nid name]. unfold ss. rewrite list_elem_of_concat, <- (co_st c Hc). split.
    - intros (l & Hin & Hl). apply list_elem_of_fmap in Hl as ([[id nm] l'] & -> & He). apply entries_elem in He as [Hn ->].
      cbn [fst snd] in Hin. apply list_elem_of_fmap in Hin as ([sid' name'] & [= -> -> ->] & Hs). by apply ns_streams_elem in Hs.
    - intros Hs. destruct (co_parent c Hc _ _ _ Hs) as [nm Hnm]. apply (co_ns c Hc) in Hnm.
      eexists. split; [|apply list_elem_of_fmap; exists (nid, nm, ns_streams (streams c) nid); split; [done|by apply entries_elem]].
      cbn [fst snd]. apply list_elem_of_fmap. exists (sid, name). split; [done|by apply ns_streams_elem]. }
  assert (forall id name, namespaces c !! name = Some id <-> exists l, (id, name, l) ∈ entries (namespaces c) (streams c)) as Hns.
  { intros id name. setoid_rewrite entries_elem. split; [|by intros (l & ? & _)]. by eauto. }
  unfold catalog_of. fold ss.
  rewrite (list_maximum_ids (namespace_names c) (next_ns_id c)), (list_maximum_ids (stream_info c) (next_stream_id c)).
  2: apply (co_st_ids c Hc). 3: apply (co_ns_ids c Hc).
  2: { intros id. rewrite list_elem_of_fmap. split; [intros ([i k] & -> & Hk); apply Hss in Hk; by eauto|].
       intros [k Hk]. exists (id, k). split; [done|by apply Hss]. }
  2: { intros id. rewrite list_elem_of_fmap. split.
       - intros ([[i nm] l] & -> & He). exists nm. apply (co_ns c Hc), Hns. by exists l.
       - intros [nm Hnm]. apply (co_ns c Hc), Hns in Hnm as (l & He). by exists (id, nm, l). }
  destruct (co_ns_ids c Hc) as [? _], (co_st_ids c Hc) as [? _]. unfold wrap. rewrite !Z.mod_small by lia.
  rewrite (insert_all_elems (namespaces c)), (insert_all_elems (namespace_names c)), (insert_all_elems (streams c)), (insert_all_elems (stream_info c)).
  - destruct c; cbn. f_equal; lia.
  - intros sid k. apply Hss.
  - intros k sid. rewrite list_elem_of_fmap, (co_st c Hc), <- Hss. split; [by intros ([i k'] & [= -> ->] & ?)|]. intros Hin. by exists (sid, k).
  - intros id name. rewrite list_elem_of_fmap, <- (co_ns c Hc), Hns. split.
    + intros ([[i nm] l] & [= -> ->] & He). by exists l.
    + intros [l He]. by exists (id, name, l).
  - intros name id. rewrite list_elem_of_fmap, Hns. split.
    + intros ([[i nm] l] & [= -> ->] & He). by exists l.
    + intros [l He]. by exists (id, name, l).
Qed.

Lemma load_serialize c : cat_ok c -> cat_fits c -> load_snapshot (serialize (namespaces c) (streams c)) = Ok c.
Proof.
  intros Hc Hf. unfold load_snapshot, serialize. set (es := entries (namespaces c) (streams c)).
  set (buf := to_le 4 SNAPSHOT_MAGIC ++ to_le 2 SNAPSHOT_VERSION ++ to_le 4 (Z.of_nat (size (namespaces c))) ++ concat (encode_ns <$> es)).
  assert (blen (buf ++ to_le 4 (crc32c buf)) = blen buf + 4) as Hlen by (rewrite length_app, length_to_le; lia).
  assert (10 <= blen buf) as Hb by (unfold buf; rewrite !length_app, !length_to_le; lia).
  rewrite Hlen. rewrite (proj2 (Z.ltb_ge _ _)) by lia. replace (blen buf + 4 - 4) with (blen buf) by lia.
  rewrite Nat2Z.id, take_app_length.
  assert (get_le (buf ++ to_le 4 (crc32c buf)) (blen buf) 4 = crc32c buf) as ->.
  { unfold get_le. rewrite slice_app_r by lia. replace (blen buf - blen buf) with 0 by lia.
    rewrite slice_exact by (rewrite ?length_to_le; lia). rewrite from_to_le; [done|apply crc32c_range]. }
  rewrite Z.eqb_refl. cbn [negb].
  assert (get_le (buf ++ to_le 4 (crc32c buf)) 6 4 = Z.of_nat (size (namespaces c))) as Hcnt.
  { unfold buf. rewrite <- !app_assoc. unfold get_le. rewrite !(app_assoc (to_le 4 SNAPSHOT_MAGIC)).
    rewrite slice_app_r by (rewrite length_app, !length_to_le; lia). rewrite length_app, !length_to_le. cbn [Z.of_nat].
    rewrite slice_app_exact by (rewrite ?length_to_le; lia). apply from_to_le.
    pose proof (co_ns_size c Hc). destruct Hf as [? _]. split; lia. }
  change (get_le (buf ++ to_le 4 (crc32c buf)) 0 4) with SNAPSHOT_MAGIC.
  change (get_le (buf ++ to_le 4 (crc32c buf)) 4 2) with SNAPSHOT_VERSION. rewrite !Z.eqb_refl, Hcnt, Nat2Z.id. cbn [negb].
  assert (size (namespaces c) = length es) as -> by (unfold es, entries; by rewrite length_fmap, length_map_to_list).
  pose proof (parses_times read_ns encode_ns es (fun e He => parses_ns e (entries_ok c e Hc Hf He))) as Hp.
  specialize (Hp (to_le 4 SNAPSHOT_MAGIC ++ to_le 2 SNAPSHOT_VERSION ++ to_le 4 (Z.of_nat (size (namespaces c)))) []).
  rewrite app_nil_r, <- !app_assoc in Hp. change (blen (to_le 4 SNAPSHOT_MAGIC ++ to_le 2 SNAPSHOT_VERSION ++ to_le 4 (Z.of_nat (size (namespaces c))))) with 10 in Hp.
  fold buf in Hp. rewrite Hp. f_equal. by apply catalog_of_entries.
Qed.

(** ** Histories *)

(** The numbers a pair of names has. *)
Definition lookup_ids (c : Catalog) (ns st : bytes) : option (Z * Z) :=
  match namespaces c !! ns with
  | None => None
  | Some nid => match streams c !! (nid, st) with None => None | Some sid => Some (nid, sid) end
  end.

(** Room for one more namespace and stream. *)
Definition cat_room (c : Catalog) : Prop := next_ns_id c < 2 ^ 32 - 1 /\ next_stream_id c < 2 ^ 32.

Lemma resolve_ok saved ns st c f :
  cat_ok c -> cat_room c ->
  let '(r, c', f') := resolve saved ns st c f in
  cat_ok c' /\ cat_fits c' /\ namespaces c ⊆ namespaces c' /\ streams c ⊆ streams c' /\
  (r = Err InvalidName /\ c' = c /\ f' = f /\ validate_namespace_name ns && validate_stream_name st = false \/
   validate_namespace_name ns && validate_stream_name st = true /\
   (exists ids, r = Ok ids /\ lookup_ids c' ns st = Some ids) /\
   ((c' = c /\ f' = f) \/ f' = save_snapshot saved c' f)).
Proof.
  intros Hc [F1 F2]. unfold resolve. destruct (validate_namespace_name ns) eqn:En; cbn [negb].
  2: { split_and!; try done; [split; lia|by left]. }
  destruct (validate_stream_name st) eqn:Es; cbn [negb].
  2: { split_and!; try done; [split; lia|by left]. }
  apply validate_name_ok in En, Es; [|done|done].
  pose proof (resolve_namespace_ok ns c Hc En F1) as H. destruct (resolve_namespace ns c) as [[nid new1] c1].
  destruct H as (Hc1 & Hn1 & Hsub & Hst & Hnx & Hsame1 & _ & Hb1).
  assert (is_Some (namespace_names c1 !! nid)) as Hp by (exists ns; by apply (co_ns c1 Hc1)).
  pose proof (resolve_stream_ok nid st c1 Hc1 Es Hp ltac:(lia)) as H. destruct (resolve_stream nid st c1) as [[sid new2] c2].
  destruct H as (Hc2 & Hs2 & Hsub2 & Hns2 & Hnx2 & Hsame2 & _ & Hb2).
  split; [done|]. split; [split; lia|]. split; [by rewrite Hns2|]. split; [by rewrite <- Hst|]. right. split; [done|]. split.
  - exists (nid, sid). split; [done|]. unfold lookup_ids. by rewrite Hns2, Hn1, Hs2.
  - destruct new1, new2; cbn [orb]; try (by right). left. by rewrite Hsame2, Hsame1.
Qed.

Inductive cat_step : Catalog * option bytes -> Catalog * option bytes -> Prop :=
  | cat_resolve ns st c f :
      cat_room c -> cat_step (c, f) ((resolve true ns st c f).1.2, (resolve true ns st c f).2)
  | cat_restart c f c' : catalog_open f = Ok c' -> cat_step (c, f) (c', f).

(** What is on disk opens to the catalog in memory. *)
Definition server_cat_ok (s : Catalog * option bytes) : Prop := cat_ok s.1 /\ cat_fits s.1 /\ catalog_open s.2 = Ok s.1.

Lemma cat_step_ok s s' : cat_step s s' -> server_cat_ok s ->
  server_cat_ok s' /\ namespaces s.1 ⊆ namespaces s'.1 /\ streams s.1 ⊆ streams s'.1.
Proof.
  intros Hs (Hc & Hf & Ho). destruct Hs as [ns st c f Hroom|c f c' Hopen]; cbn [fst snd] in *.
  - pose proof (resolve_ok true ns st c f Hc Hroom) as H. destruct (resolve true ns st c f) as [[r c'] f']. cbn [fst snd].
    destruct H as (Hc' & Hf' & H1 & H2 & H). split; [|done]. split; [done|]. split; [done|].
    destruct H as [(_ & -> & -> & _)|(_ & _ & [[-> ->]| ->])]; [done|done|]. by apply load_serialize.
  - rewrite Ho in Hopen. injection Hopen as <-. done.
Qed.

Lemma cat_steps_ok s s' : rtc cat_step s s' -> server_cat_ok s ->
  server_cat_ok s' /\ namespaces s.1 ⊆ namespaces s'.1 /\ streams s.1 ⊆ streams s'.1.
Proof.
  induction 1 as [s|s1 s2 s3 H12 _ IH]; intros Hok; [done|]. destruct (cat_step_ok _ _ H12 Hok) as (Hok2 & A1 & A2).
  destruct (IH Hok2) as (Hok3 & B1 & B2). split; [done|]. split; by etransitivity.
Qed.

Lemma lookup_ids_mono c c' ns st ids :
  namespaces c ⊆ namespaces c' -> streams c ⊆ streams c' -> lookup_ids c ns st = Some ids -> lookup_ids c' ns st = Some ids.
Proof.
  intros H1 H2. unfold lookup_ids. destruct (namespaces c !! ns) as [nid|] eqn:E; [|done]. rewrite (lookup_weaken _ _ _ _ E H1).
  destruct (streams c !! (nid, st)) as [sid|] eqn:E2; [|done]. by rewrite (lookup_weaken _ _ _ _ E2 H2).
Qed.

Lemma lookup_ids_inj c ns st ns' st' n n' i :
  cat_ok c -> lookup_ids c ns st = Some (n, i) -> lookup_ids c ns' st' = Some (n', i) -> ns = ns' /\ st = st'.
Proof.
  intros Hc. unfold lookup_ids. destruct (namespaces c !! ns) as [a|] eqn:E1; [|done]. destruct (streams c !! (a, st)) as [b|] eqn:E2; [|done].
  intros [= -> ->]. destruct (namespaces c !! ns') as [a'|] eqn:E3; [|done]. destruct (streams c !! (a', st')) as [b'|] eqn:E4; [|done].
  intros [= -> ->]. apply (co_st c Hc) in E2, E4. rewrite E2 in E4. injection E4 as <- <-.
  apply (co_ns c Hc) in E1, E3. rewrite E1 in E3. by injection E3 as <-.
Qed.

Lemma empty_server_ok : server_cat_ok (catalog_empty, None).
Proof. split; [apply catalog_empty_ok|]. by split. Qed.

(** C22: Numbers of namespaces and streams are permanent: in every history of requests
    and restarts in which the snapshots are written, a stream keeps its number, two
    streams never have the same number, a restart brings back the very catalog, and
    a valid name always gets its number. *)
Theorem catalog_ids_are_permanent (c1 c2 : Catalog) (f1 f2 : option bytes) :
  rtc cat_step (catalog_empty, None) (c1, f1) -> rtc cat_step (c1, f1) (c2, f2) ->
  catalog_open f2 = Ok c2 /\
  (forall ns st ids, lookup_ids c1 ns st = Some ids -> lookup_ids c2 ns st = Some ids) /\
  (forall ns st ns' st' n n' i, lookup_ids c2 ns st = Some (n, i) -> lookup_ids c2 ns' st' = Some (n', i) -> ns = ns' /\ st = st') /\
  (cat_room c2 -> forall ns st, validate_namespace_name ns = true -> validate_stream_name st = true ->
     exists ids c3 f3, resolve true ns st c2 f2 = (Ok ids, c3, f3) /\ lookup_ids c3 ns st = Some ids /\
       (forall old, lookup_ids c2 ns st = Some old -> old = ids)).
Proof.
  intros H1 H2. destruct (cat_steps_ok _ _ H1 empty_server_ok) as (Hok1 & _ & _).
  destruct (cat_steps_ok _ _ H2 Hok1) as ((Hc2 & Hf2 & Ho2) & S1 & S2). cbn [fst snd] in *. split_and!.
  - done.
  - intros ns st ids. by apply lookup_ids_mono.
  - intros ns st ns' st' n n' i. by apply lookup_ids_inj.
  - intros Hroom ns st Vn Vs. pose proof (resolve_ok true ns st c2 f2 Hc2 Hroom) as H.
    destruct (resolve true ns st c2 f2) as [[r c3] f3]. destruct H as (_ & _ & T1 & T2 & H). rewrite Vn, Vs in H.
    destruct H as [(_ & _ & _ & ?)|(_ & (ids & -> & Hl) & _)]; [done|]. exists ids, c3, f3. split_and!; [done|done|].
    intros old Hold. apply (lookup_ids_mono _ _ _ _ _ T1 T2) in Hold. congruence.
Qed.

(** C38: [resolve] keeps the catalog well formed, whatever names it is given and
    whether or not the snapshot can be written: names and numbers stay inverse to
    each other, every stream's namespace exists, and the numbers are exactly those
    below the counters, which have not wrapped. *)
Theorem resolve_keeps_catalog_well_formed (saved : bool) (ns st : bytes) (c : Catalog) (f : option bytes) :
  cat_ok c -> cat_room c ->
  cat_ok (resolve saved ns st c f).1.2 /\ cat_fits (resolve saved ns st c f).1.2 /\
  (resolve saved ns st c f).1.1 = (if validate_namespace_name ns && validate_stream_name st
                                   then match lookup_ids (resolve saved ns st c f).1.2 ns st with Some ids => Ok ids | None => Err InvalidName end
                                   else Err InvalidName).
Proof.
  intros Hc Hroom. pose proof (resolve_ok saved ns st c f Hc Hroom) as H. destruct (resolve saved ns st c f) as [[r c'] f']. cbn [fst snd].
  destruct H as (Hc' & Hf' & _ & _ & H). split; [done|]. split; [done|].
  destruct H as [(-> & _ & _ & ->)|(-> & (ids & -> & ->) & _)]; done.
Qed.

(** ** Where the catalog falls short *)

Definition nm (z : Z) : bytes := [byte.of_Z z].

(** A snapshot that cannot be written is only logged: after a restart the stream's
    number is given to another stream, whose readers then find its records. *)
Theorem unsaved_catalog_reuses_ids :
  let '(r1, c1, f1) := resolve false (nm 97) (nm 120) catalog_empty None in
  r1 = Ok (1, 1) /\
  exists c2, catalog_open f1 = Ok c2 /\ (resolve true (nm 97) (nm 121) c2 f1).1.1 = Ok (1, 1).
Proof. split; [done|]. by eexists. Qed.

End WithCrc.

#[local] Instance catalog_demo_externals : Externals := toy.

(** [save_snapshot] serialises under the locks but writes after it has released them:
    of two creations at once the older snapshot can be the one that stays.  Then the
    second stream's number is given away after a restart. *)
Theorem stale_catalog_snapshot_reuses_ids :
  let c1 := (resolve true (nm 97) (nm 120) catalog_empty None).1.2 in
  let '(r2, c2, f2) := resolve true (nm 97) (nm 121) c1 None in
  let late := save_snapshot true c1 f2 in
  r2 = Ok (1, 2) /\
  match catalog_open late with
  | Ok c3 => (resolve true (nm 97) (nm 122) c3 late).1.1 = Ok (1, 2)
  | Err _ => False
  end.
Proof. by vm_compute. Qed.

(** ** Witnesses *)

Lemma catalog_ids_are_permanent_witness :
  exists c2 f2, rtc cat_step (catalog_empty, None) (c2, f2) /\ lookup_ids c2 (nm 97) (nm 120) = Some (1, 1) /\
    catalog_open f2 = Ok c2 /\ exists c3 f3, resolve true (nm 97) (nm 121) c2 f2 = (Ok (1, 2), c3, f3) /\ lookup_ids c3 (nm 97) (nm 121) = Some (1, 2).
Proof.
  set (c1 := (resolve true (nm 97) (nm 120) catalog_empty None).1.2). set (f1 := (resolve true (nm 97) (nm 120) catalog_empty None).2).
  assert (rtc cat_step (catalog_empty, None) (c1, f1)) as Hr by (apply rtc_once; by apply cat_resolve).
  exists c1, f1. split; [exact Hr|].
  destruct (catalog_ids_are_permanent c1 c1 f1 f1 Hr (rtc_refl _ _)) as (Ho & _ & _ & Hres).
  destruct (Hres ltac:(by split; vm_compute) (nm 97) (nm 121) eq_refl eq_refl) as (ids & c3 & f3 & E1 & E2 & _).
  split; [by vm_compute|]. split; [exact Ho|]. exists c3, f3.
  assert (ids = (1, 2)) as ->.
  { assert ((resolve true (nm 97) (nm 121) c1 f1).1.1 = Ok (1, 2)) as E by (by vm_compute). rewrite E1 in E. by injection E. }
  by split.
Defined.

Lemma resolve_keeps_catalog_well_formed_witness :
  cat_ok (resolve false (nm 97) (nm 120) catalog_empty None).1.2 /\ (resolve false (nm 97) (nm 120) catalog_empty None).1.1 = Ok (1, 1).
Proof.
  destruct (resolve_keeps_catalog_well_formed false (nm 97) (nm 120) catalog_empty None catalog_empty_ok) as (H1 & _ & H3); [by split|].
  split; [exact H1|]. by rewrite H3.
Defined.
