(* ===== verification/Lifecycle.v ===== *)
(** * The server's write and read handlers ([logdbd/src/service.rs], [tombstone.rs],
    [quota.rs], [auth.rs])

    A stream is deleted by a tombstone: a record of a reserved event type whose number
    is the cutoff below which the stream's records are hidden.  Quotas are counts in
    memory, seeded from the log at the start and kept up by every append.

    Handlers run one after the other.  What the log answers to an append, and whether
    a catalog snapshot could be written, are parameters.  A request's metadata is a
    map; a handler's answer is its value or the code of its status. *)
From stdpp Require Import base gmap list numbers sorting.
From coqutil Require Import Byte.
From Stdlib Require Import ZArith Lia.
From S2P Require Import Prelude Externals RustStd Shard ByteReader ServerRecord StreamStore Catalog.
Open Scope Z_scope.

(** ** Roles *)

Inductive Role := Admin | Writer | Reader | Subscriber.

#[global] Instance Role_eq_dec : EqDecision Role.
Proof. solve_decision. Defined.

(** [AuthContext::has]. *)
Definition has (roles : list Role) (role : Role) : bool := bool_decide (Admin ∈ roles) || bool_decide (role ∈ roles).

(** [require_role]; a request without a context is let through. *)
Definition require_role (ctx : option (list Role)) (role : Role) : bool :=
  match ctx with None => true | Some roles => has roles role end.

(** The bearer token of a header. *)
Definition bearer (token : bytes) : bytes := [Byte.x42; Byte.x65; Byte.x61; Byte.x72; Byte.x65; Byte.x72; Byte.x20] ++ token.

(** [AuthInterceptor::new]: a token that occurs twice has the roles of its last entry. *)
Definition auth_new (entries : list (bytes * list Role)) : gmap bytes (list Role) :=
  insert_all ((fun e => (bearer e.1, e.2)) <$> entries) ∅.

(** [AuthInterceptor::call]: the context of a request, or [None] when it is refused. *)
Definition intercept (tokens : gmap bytes (list Role)) (header : option bytes) : option (list Role) :=
  tokens !! default [] header.

(** ** Tombstones *)

Definition STREAM_DELETED_EVENT : bytes :=
  byte.of_Z <$> [108; 111; 103; 100; 98; 46; 115; 116; 114; 101; 97; 109; 95; 100; 101; 108; 101; 116; 101; 100].

Abbreviation Cutoffs := (gmap Z Z).

(** [TombstoneTracker::record]. *)
Definition tomb_record (stream_id seq : Z) (m : Cutoffs) : Cutoffs :=
  <[stream_id := match m !! stream_id with Some e => Z.max e seq | None => seq end]> m.

(** [TombstoneTracker::rebuild_from_records]. *)
Definition tomb_step (m : Cutoffs) (r : DecodedRecord) : Cutoffs :=
  if bool_decide (d_event_type r = STREAM_DELETED_EVENT) then tomb_record (d_stream_id r) (d_seq r) m else m.
Definition tomb_rebuild (records : list DecodedRecord) : Cutoffs := foldl tomb_step ∅ records.

(** [TombstoneTracker::cutoff] and [is_live]. *)
Definition cutoff (m : Cutoffs) (stream_id : Z) : Z := default 0 (m !! stream_id).
Definition is_live (m : Cutoffs) (stream_id seq : Z) : bool := cutoff m stream_id <? seq.

(** ** Quotas *)

Record Usage := mkUsage { u_records : Z; u_bytes : Z }.

Abbreviation UsageMap := (gmap (Z * Z) Usage).

(** [QuotaTracker::usage]. *)
Definition usage (m : UsageMap) (namespace_id stream_id : Z) : Usage := default (mkUsage 0 0) (m !! (namespace_id, stream_id)).

(** [QuotaTracker::add] and [reset]. *)
Definition quota_add (namespace_id stream_id bytes_ : Z) (m : UsageMap) : UsageMap :=
  let u := usage m namespace_id stream_id in
  <[(namespace_id, stream_id) := mkUsage (u64 (u_records u + 1)) (u64 (u_bytes u + bytes_))]> m.

Definition quota_reset (namespace_id stream_id : Z) (m : UsageMap) : UsageMap := <[(namespace_id, stream_id) := mkUsage 0 0]> m.

(** [QuotaTracker::seed_from_records]. *)
Definition seed_step (live : Z -> Z -> bool) (m : UsageMap) (r : DecodedRecord) : UsageMap :=
  if bool_decide (d_event_type r = STREAM_DELETED_EVENT) then m
  else if negb (live (d_stream_id r) (d_seq r)) then m
  else quota_add (d_namespace_id r) (d_stream_id r) (blen (d_user_content r)) m.
Definition seed_from_records (records : list DecodedRecord) (live : Z -> Z -> bool) : UsageMap := foldl (seed_step live) ∅ records.

Record StreamQuota := mkQuota { q_namespace : bytes; q_stream : bytes; max_records : option Z; max_bytes : option Z }.

(** ** The service *)

Record Service := mkService {
  sv_storage : Storage;
  sv_catalog : Catalog;
  sv_catfile : option bytes;
  sv_quotas : list StreamQuota;
  sv_primary : bool;
  sv_usage : UsageMap;
  sv_cutoffs : Cutoffs;
}.

Inductive Status := PermissionDenied | InvalidArgument | ResourceExhausted | Internal.

Record AppendRequest := mkAppendReq {
  ar_namespace : bytes;
  ar_stream : bytes;
  ar_event_type : bytes;
  ar_content_type : bytes;
  ar_metadata : gmap bytes bytes;
  ar_timestamp_ns : Z;
  ar_content : bytes;
}.

(** namespace, stream, number in the stream, id in the log. *)
Definition AppendResponse : Type := Z * Z * Z * Z.

Definition with_storage (st : Storage) (s : Service) : Service :=
  mkService st (sv_catalog s) (sv_catfile s) (sv_quotas s) (sv_primary s) (sv_usage s) (sv_cutoffs s).
Definition with_catalog (c : Catalog) (f : option bytes) (s : Service) : Service :=
  mkService (sv_storage s) c f (sv_quotas s) (sv_primary s) (sv_usage s) (sv_cutoffs s).
Definition with_usage (u : UsageMap) (s : Service) : Service :=
  mkService (sv_storage s) (sv_catalog s) (sv_catfile s) (sv_quotas s) (sv_primary s) u (sv_cutoffs s).
Definition with_cutoffs (t : Cutoffs) (s : Service) : Service :=
  mkService (sv_storage s) (sv_catalog s) (sv_catfile s) (sv_quotas s) (sv_primary s) (sv_usage s) t.

(** [to_btree]. *)
Definition to_btree (m : gmap bytes bytes) : list (bytes * bytes) := foldl (fun b kv => bt_insert kv.1 kv.2 b) [] (map_to_list m).

Definition APPLICATION_JSON : bytes := byte.of_Z <$> [97; 112; 112; 108; 105; 99; 97; 116; 105; 111; 110; 47; 106; 115; 111; 110].

Definition over (limit : option Z) (n : Z) : bool := match limit with Some m => m <? n | None => false end.

(** [check_quota]: the first quota of the stream that would be exceeded refuses. *)
Fixpoint check_quota (ns stream : bytes) (u : Usage) (incoming_records incoming_bytes : Z) (quotas : list StreamQuota) : bool :=
  match quotas with
  | [] => true
  | q :: quotas =>
      if bool_decide (q_namespace q = ns) && bool_decide (q_stream q = stream) &&
         (over (max_records q) (u_records u + incoming_records) || over (max_bytes q) (u_bytes u + incoming_bytes))
      then false
      else check_quota ns stream u incoming_records incoming_bytes quotas
  end.

Section WithCrc.
Context {ext : Externals}.

(** [resolve] of the service. *)
Definition svc_resolve (saved : bool) (ns stream : bytes) (s : Service) : result Status (Z * Z) * Service :=
  let '(r, c, f) := resolve saved ns stream (sv_catalog s) (sv_catfile s) in
  (match r with Ok ids => Ok ids | Err _ => Err InvalidArgument end, with_catalog c f s).

(** The part [append] and [batch_append] share: one record is stored and counted. *)
Definition append_one (answer : option Z) (ns_id stream_id : Z) (r : AppendRequest) (s : Service)
    : result Status AppendResponse * Service :=
  let ct := if bool_decide (ar_content_type r = []) then APPLICATION_JSON else ar_content_type r in
  let '(a, st) := append answer ns_id stream_id (ar_event_type r) ct (to_btree (ar_metadata r)) (ar_timestamp_ns r) (ar_content r) (sv_storage s) in
  let s := with_storage st s in
  match a with
  | Err _ => (Err Internal, s)
  | Ok (gid, seq) => (Ok (ns_id, stream_id, seq, gid), with_usage (quota_add ns_id stream_id (blen (ar_content r)) (sv_usage s)) s)
  end.

(** [append]. *)
Definition rpc_append (ctx : option (list Role)) (saved : bool) (answer : option Z) (r : AppendRequest) (s : Service)
    : result Status AppendResponse * Service :=
  if negb (require_role ctx Writer) then (Err PermissionDenied, s)
  else if negb (sv_primary s) then (Err PermissionDenied, s)
  else
    let '(ids, s) := svc_resolve saved (ar_namespace r) (ar_stream r) s in
    match ids with
    | Err e => (Err e, s)
    | Ok (ns_id, stream_id) =>
        if negb (check_quota (ar_namespace r) (ar_stream r) (usage (sv_usage s) ns_id stream_id) 1 (blen (ar_content r)) (sv_quotas s))
        then (Err ResourceExhausted, s)
        else append_one answer ns_id stream_id r s
    end.

(** The loop of [batch_append]: it ends with the first record that cannot be stored. *)
Fixpoint append_all (answers : list (option Z)) (ns_id stream_id : Z) (rs : list AppendRequest) (s : Service)
    : result Status (list AppendResponse) * Service :=
  match rs with
  | [] => (Ok [], s)
  | r :: rs =>
      match append_one (default None (head answers)) ns_id stream_id r s with
      | (Err e, s) => (Err e, s)
      | (Ok a, s) =>
          match append_all (tail answers) ns_id stream_id rs s with
          | (Err e, s) => (Err e, s)
          | (Ok l, s) => (Ok (a :: l), s)
          end
      end
  end.

Definition total_bytes (rs : list AppendRequest) : Z := foldr (fun r n => blen (ar_content r) + n) 0 rs.

(** [batch_append]. *)
Definition rpc_batch_append (ctx : option (list Role)) (saved : bool) (answers : list (option Z)) (rs : list AppendRequest) (s : Service)
    : result Status (list AppendResponse) * Service :=
  if negb (require_role ctx Writer) then (Err PermissionDenied, s)
  else if negb (sv_primary s) then (Err PermissionDenied, s)
  else
    match rs with
    | [] => (Ok [], s)
    | r0 :: rest =>
        if negb (forallb (fun r => bool_decide (ar_namespace r = ar_namespace r0) && bool_decide (ar_stream r = ar_stream r0)) rest)
        then (Err InvalidArgument, s)
        else
          let '(ids, s) := svc_resolve saved (ar_namespace r0) (ar_stream r0) s in
          match ids with
          | Err e => (Err e, s)
          | Ok (ns_id, stream_id) =>
              if negb (check_quota (ar_namespace r0) (ar_stream r0) (usage (sv_usage s) ns_id stream_id)
                         (Z.of_nat (length rs)) (total_bytes rs) (sv_quotas s))
              then (Err ResourceExhausted, s)
              else append_all answers ns_id stream_id rs s
          end
    end.

(** [read]. *)
Definition rpc_read (ctx : option (list Role)) (saved : bool) (ns stream : bytes) (seq : Z) (s : Service)
    : result Status (option DecodedRecord) * Service :=
  if negb (require_role ctx Reader) then (Err PermissionDenied, s)
  else
    let '(ids, s) := svc_resolve saved ns stream s in
    match ids with
    | Err e => (Err e, s)
    | Ok (_, stream_id) =>
        match read stream_id seq (sv_storage s) with
        | Err _ => (Err Internal, s)
        | Ok None => (Ok None, s)
        | Ok (Some rec) => if is_live (sv_cutoffs s) stream_id (d_seq rec) then (Ok (Some rec), s) else (Ok None, s)
        end
    end.

(** [delete_stream]: its answer is the number of records deleted. *)
Definition rpc_delete_stream (ctx : option (list Role)) (saved : bool) (answer : option Z) (ns stream : bytes) (s : Service)
    : result Status Z * Service :=
  if negb (require_role ctx Admin) then (Err PermissionDenied, s)
  else if negb (sv_primary s) then (Err PermissionDenied, s)
  else
    let '(ids, s) := svc_resolve saved ns stream s in
    match ids with
    | Err e => (Err e, s)
    | Ok (ns_id, stream_id) =>
        let deleted_count := u_records (usage (sv_usage s) ns_id stream_id) in
        let '(a, st) := append answer ns_id stream_id STREAM_DELETED_EVENT APPLICATION_JSON [] 0 [] (sv_storage s) in
        let s := with_storage st s in
        match a with
        | Err _ => (Err Internal, s)
        | Ok (_, seq) =>
            (Ok deleted_count, with_usage (quota_reset ns_id stream_id (sv_usage s)) (with_cutoffs (tomb_record stream_id seq (sv_cutoffs s)) s))
        end
    end.

(** [create_stream]. *)
Definition rpc_create_stream (ctx : option (list Role)) (saved : bool) (ns stream : bytes) (s : Service)
    : result Status (Z * Z) * Service :=
  if negb (require_role ctx Admin) then (Err PermissionDenied, s) else svc_resolve saved ns stream s.

(** The trackers of a starting server ([main.rs]): seeded from what a scan up to the
    committed cursor shows, empty when that fails. *)
Definition service_start (storage : Storage) (catfile : option bytes) (quotas : list StreamQuota) (primary : bool) : result CatalogError Service :=
  c ← catalog_open catfile;
  let seed_records := match scan 0 (committed_gid storage) storage with Ok l => l | Err _ => [] end in
  let tt_ := tomb_rebuild seed_records in
  Ok (mkService storage c catfile quotas primary (seed_from_records seed_records (is_live tt_)) tt_).

End WithCrc.

(** ** What the trackers stand for *)

(** The records of a log that decode. *)
Definition log_records (d : LogState) : list DecodedRecord := omap (fun gc => ok_of (decode_record gc.2)) (log_list d).

Definition is_tombstone (r : DecodedRecord) : Prop := d_event_type r = STREAM_DELETED_EVENT.

#[global] Instance is_tombstone_dec r : Decision (is_tombstone r).
Proof. unfold is_tombstone. apply _. Defined.

(** The greatest number of a tombstone of the stream, 0 without one. *)
Definition tomb_max (l : list DecodedRecord) (st : Z) : Z :=
  foldr (fun r m => if bool_decide (is_tombstone r /\ d_stream_id r = st) then Z.max (d_seq r) m else m) 0 l.

(** The stream's live records: those above its last tombstone. *)
Definition live_records (l : list DecodedRecord) (ns st : Z) : list DecodedRecord :=
  filter (fun r => (d_namespace_id r = ns /\ d_stream_id r = st) /\ ~ is_tombstone r /\ tomb_max l st < d_seq r) l.

Definition sum_bytes (l : list DecodedRecord) : Z := foldr (fun r n => blen (d_user_content r) + n) 0 l.

Definition usage_of (l : list DecodedRecord) : Usage := mkUsage (u64 (Z.of_nat (length l))) (u64 (sum_bytes l)).

Lemma tomb_max_nonneg l st : 0 <= tomb_max l st.
Proof. unfold tomb_max in *. induction l as [|r l IH]; [done|]. cbn [foldr]. case_bool_decide; lia. Qed.

Lemma tomb_max_perm l l' st : l ≡ₚ l' -> tomb_max l st = tomb_max l' st.
Proof.
  unfold tomb_max. induction 1 as [|r l l' _ IH|r r' l|l l' l'' _ IH1 _ IH2]; cbn [foldr]; [done|by rewrite IH| |congruence].
  repeat case_bool_decide; lia.
Qed.

Lemma sum_bytes_perm l l' : l ≡ₚ l' -> sum_bytes l = sum_bytes l'.
Proof. unfold sum_bytes. induction 1; cbn [foldr]; lia. Qed.

Lemma live_records_perm l l' ns st : l ≡ₚ l' -> live_records l ns st ≡ₚ live_records l' ns st.
Proof. intros H. unfold live_records. rewrite (tomb_max_perm _ _ st H). by apply filter_Permutation. Qed.

Lemma usage_of_perm l l' : l ≡ₚ l' -> usage_of l = usage_of l'.
Proof. intros H. unfold usage_of. by rewrite (sum_bytes_perm _ _ H), H. Qed.

(** ** The trackers of a list of records *)

Lemma cutoff_record m sid seq st : 0 <= cutoff m sid -> 0 <= seq -> cutoff (tomb_record sid seq m) st = if bool_decide (sid = st) then Z.max (cutoff m st) seq else cutoff m st.
Proof.
  unfold cutoff, tomb_record. intros H Hs. case_bool_decide as E.
  - subst. rewrite lookup_insert_eq. destruct (m !! st); cbn [from_option Datatypes.id] in *; lia.
  - by rewrite lookup_insert_ne.
Qed.

Lemma tomb_rebuild_cutoff l : Forall (fun r => 0 <= d_seq r) l -> forall st, cutoff (tomb_rebuild l) st = tomb_max l st.
Proof.
  induction l as [|r l IH] using rev_ind; intros Hpos st; [done|]. apply Forall_app in Hpos as [Hpos Hr]. apply Forall_cons in Hr as [Hr _].
  unfold tomb_rebuild. rewrite foldl_app. cbn [foldl]. rewrite (tomb_max_perm _ (r :: l)) by (symmetry; apply Permutation_cons_append).
  change (foldl tomb_step ∅ l) with (tomb_rebuild l). unfold tomb_step. cbn [tomb_max foldr].
  specialize (IH Hpos). change (foldr _ 0 l) with (tomb_max l st). case_bool_decide as E.
  - rewrite cutoff_record by (rewrite ?IH; (done || apply tomb_max_nonneg)). case_bool_decide as E2.
    + rewrite bool_decide_true by done. rewrite IH. lia.
    + rewrite bool_decide_false by tauto. apply IH.
  - rewrite bool_decide_false by tauto. apply IH.
Qed.

Lemma usage_add m ns st b ns' st' :
  usage (quota_add ns st b m) ns' st' =
  if bool_decide ((ns, st) = (ns', st')) then mkUsage (u64 (u_records (usage m ns' st') + 1)) (u64 (u_bytes (usage m ns' st') + b)) else usage m ns' st'.
Proof.
  unfold quota_add, usage. cbv zeta. case_bool_decide as E.
  - injection E as -> ->. by rewrite lookup_insert_eq.
  - by rewrite lookup_insert_ne.
Qed.

Lemma usage_of_cons r l : usage_of (r :: l) = mkUsage (u64 (u_records (usage_of l) + 1)) (u64 (u_bytes (usage_of l) + blen (d_user_content r))).
Proof. unfold usage_of. cbn [u_records u_bytes length sum_bytes foldr]. rewrite !wrap_add_l by lia. f_equal; f_equal; unfold sum_bytes; lia. Qed.

(** Seeding counts the live records of each stream. *)
Lemma seed_usage l live ns st :
  usage (seed_from_records l live) ns st =
  usage_of (filter (fun r => (d_namespace_id r = ns /\ d_stream_id r = st) /\ ~ is_tombstone r /\ live st (d_seq r) = true) l).
Proof.
  induction l as [|r l IH] using rev_ind; [done|]. unfold seed_from_records. rewrite foldl_app. cbn [foldl].
  change (foldl (seed_step live) ∅ l) with (seed_from_records l live). rewrite filter_app.
  rewrite (usage_of_perm _ _ (Permutation_app_comm _ _)). unfold seed_step. case_bool_decide as E.
  - rewrite filter_cons_False by (intros (_ & Hn & _); by apply Hn). exact IH.
  - destruct (live (d_stream_id r) (d_seq r)) eqn:El; cbn [negb].
    + rewrite usage_add. case_bool_decide as E2.
      * injection E2 as E3 E4. rewrite filter_cons_True by (subst; done). cbn [app]. rewrite filter_nil. cbn [app]. rewrite usage_of_cons, <- IH. done.
      * rewrite filter_cons_False by (intros ([H1 H2] & _); apply E2; by rewrite H1, H2). exact IH.
    + rewrite filter_cons_False by (intros ([H1 H2] & _ & H3); subst; congruence). exact IH.
Qed.

(** ** Requests and the log *)

Lemma foldl_bt_insert_sorted {V} (l acc : list (bytes * V)) :
  bt_sorted acc -> bt_sorted (foldl (fun b kv => bt_insert kv.1 kv.2 b) acc l).
Proof. revert acc. induction l as [|kv l IH]; intros acc Ha; cbn [foldl]; [done|]. apply IH. by apply bt_insert_sorted. Qed.

Lemma foldl_bt_insert_elem {V} (l acc : list (bytes * V)) kv :
  kv ∈ foldl (fun b kv => bt_insert kv.1 kv.2 b) acc l -> kv ∈ acc \/ kv ∈ l.
Proof.
  revert acc. induction l as [|[k v] l IH]; intros acc Hin; cbn [foldl] in Hin; [by left|].
  destruct (IH _ Hin) as [[->|?]%bt_insert_elem|?]; [right; left|by left|right; by right].
Qed.

(** What the types of a request ask for, and strings no longer than their fields. *)
Record req_ok (r : AppendRequest) : Prop := {
  ro_event_type : utf8_valid (ar_event_type r) = true /\ blen (ar_event_type r) < 2 ^ 16;
  ro_content_type : utf8_valid (ar_content_type r) = true /\ blen (ar_content_type r) < 2 ^ 16;
  ro_timestamp : in_range 64 (ar_timestamp_ns r);
  ro_metadata : map_Forall (fun k v => (utf8_valid k = true /\ utf8_valid v = true) /\ blen k < 2 ^ 8 /\ blen v < 2 ^ 16) (ar_metadata r);
}.

Lemma to_btree_ok r : req_ok r -> meta_ok (to_btree (ar_metadata r)) /\ meta_fits (to_btree (ar_metadata r)).
Proof.
  intros [_ _ _ Hm]. assert (forall kv, kv ∈ to_btree (ar_metadata r) -> ar_metadata r !! kv.1 = Some kv.2) as Hin.
  { intros [k v] Hkv. apply foldl_bt_insert_elem in Hkv as [Hn|Hkv]; [by apply elem_of_nil in Hn|by apply elem_of_map_to_list in Hkv]. }
  split; [split|].
  - apply foldl_bt_insert_sorted. constructor.
  - apply Forall_forall. intros kv Hkv. by apply (Hm _ _ (Hin kv Hkv)).
  - apply Forall_forall. intros kv Hkv. by apply (Hm _ _ (Hin kv Hkv)).
Qed.

Lemma log_records_append gid c d r :
  ls_written d !! gid = None -> decode_record c = Ok r -> log_records (log_append gid c d) ≡ₚ r :: log_records d.
Proof.
  intros Hf Hd. unfold log_records, log_list. cbn [log_append ls_written]. rewrite (map_to_list_insert _ _ _ Hf).
  csimpl. by rewrite Hd.
Qed.

Lemma log_records_elem d r : r ∈ log_records d <-> exists gid, rec_in (log_list d) gid r.
Proof.
  unfold log_records, rec_in. rewrite list_elem_of_omap. split.
  - intros ([g c] & Hin & Hd). exists g, c. cbn [snd] in Hd. destruct (decode_record c); [|done]. cbn in Hd. by injection Hd as ->.
  - intros (g & c & Hin & Hd). exists (g, c). cbn [snd]. by rewrite Hd.
Qed.

(** Every record of the log decodes. *)
Definition all_decode (d : LogState) : Prop := map_Forall (fun _ c => is_ok (decode_record c) = true) (ls_written d).

(** What an append does to the log: nothing, or it adds its record with the stream's
    next number. *)
Lemma append_effect answer ns st et ct md ts content s :
  args_ok ns st ts et ct md -> (forall gid, answer = Some gid -> fresh_gid s gid) ->
  1 <= default 1 (next_seqs s !! st) < 2 ^ 64 ->
  let '(a, s') := append answer ns st et ct md ts content s in
  match a with
  | Err _ => st_db s' = st_db s
  | Ok (gid, seq) =>
      seq = default 1 (next_seqs s !! st) /\
      log_records (st_db s') ≡ₚ mkDecoded ns st seq et ct md ts content 0 :: log_records (st_db s) /\
      (all_decode (st_db s) -> all_decode (st_db s'))
  end.
Proof.
  intros (Hns & Hst & Hts & [Uet Let] & [Uct Lct] & Hmo & Hmf) Hfresh Hseq. unfold append, alloc_seq.
  set (seq := default 1 (next_seqs s !! st)) in *. destruct (encode_record _ _ _ _ _ _ _ _) as [raw|e] eqn:Ee; [|done].
  destruct answer as [gid|]; [|done]. split; [done|]. destruct (Hfresh gid eq_refl) as [Hf1 _].
  assert (decode_record raw = Ok (mkDecoded ns st seq et ct md ts content 0)) as Hd.
  { rewrite <- (app_nil_r raw). eapply decode_encode_record; try done. split; lia. }
  cbn [store_mapping with_maps with_db st_db]. split; [by apply log_records_append|].
  intros Ha. unfold all_decode. cbn [log_append ls_written]. apply map_Forall_insert_2; [by rewrite Hd|exact Ha].
Qed.

(** What an append leaves alone: other ids stay free, numbers move by at most one. *)
Lemma append_frame answer ns st et ct md ts content s :
  let s' := (append answer ns st et ct md ts content s).2 in
  (forall st', default 1 (next_seqs s' !! st') <= default 1 (next_seqs s !! st') + 1) /\
  (forall g, fresh_gid s g -> answer <> Some g -> fresh_gid s' g).
Proof.
  unfold append, alloc_seq.
  assert (forall st', default 1 (<[st := default 1 (next_seqs s !! st) + 1]> (next_seqs s) !! st') <= default 1 (next_seqs s !! st') + 1) as Hn.
  { intros st'. destruct (decide (st = st')) as [<-|Hne]; [rewrite lookup_insert_eq; cbn [from_option Datatypes.id]; lia|]. rewrite lookup_insert_ne by done. lia. }
  destruct (encode_record _ _ _ _ _ _ _ _); [|by split]. destruct answer as [gid|]; [|by split]. split; [exact Hn|].
  intros g [H1 H2] Hne. split; [|done]. cbn [snd store_mapping with_maps with_db st_db log_append ls_written].
  rewrite lookup_insert_ne by congruence. done.
Qed.

(** ** One more record *)

Lemma tomb_max_lt l st n : (forall r, r ∈ l -> d_stream_id r = st -> d_seq r < n) -> 0 < n -> tomb_max l st < n.
Proof.
  intros H Hn. unfold tomb_max. induction l as [|r l IH]; [done|]. cbn [foldr].
  assert (foldr (fun r m => if bool_decide (is_tombstone r /\ d_stream_id r = st) then Z.max (d_seq r) m else m) 0 l < n) as Hl
    by (apply IH; intros r' Hr'; apply H; by right).
  case_bool_decide as E; [|done]. specialize (H r ltac:(left)). destruct E as [_ E]. specialize (H E). lia.
Qed.

Definition newest (r : DecodedRecord) (l : list DecodedRecord) : Prop :=
  1 <= d_seq r /\ forall r', r' ∈ l -> d_stream_id r' = d_stream_id r -> d_seq r' < d_seq r.

Lemma tomb_max_user r l st : ~ is_tombstone r -> tomb_max (r :: l) st = tomb_max l st.
Proof. intros Hr. cbn [tomb_max foldr]. by rewrite bool_decide_false by tauto. Qed.

Lemma tomb_max_tomb r l st :
  is_tombstone r -> newest r l -> tomb_max (r :: l) st = if bool_decide (d_stream_id r = st) then d_seq r else tomb_max l st.
Proof.
  intros Hr [H1 H2]. unfold tomb_max at 1. cbn [foldr]. change (foldr _ 0 l) with (tomb_max l st). case_bool_decide as E; case_bool_decide as E2; try tauto.
  pose proof (tomb_max_lt l st (d_seq r)) as H. subst st. specialize (H H2 ltac:(lia)). lia.
Qed.

Lemma live_user r l ns st :
  ~ is_tombstone r -> newest r l ->
  live_records (r :: l) ns st = (if bool_decide ((d_namespace_id r, d_stream_id r) = (ns, st)) then [r] else []) ++ live_records l ns st.
Proof.
  intros Hr [H1 H2]. unfold live_records. rewrite tomb_max_user by done. case_bool_decide as E.
  - injection E as E1 E2. rewrite filter_cons_True; [done|]. split; [done|]. split; [done|]. apply tomb_max_lt; [|lia].
    intros r' Hr' Hs. apply H2; [done|congruence].
  - rewrite filter_cons_False; [done|]. intros ([F1 F2] & _). apply E. by rewrite F1, F2.
Qed.

Lemma live_tomb r l ns st :
  is_tombstone r -> newest r l ->
  live_records (r :: l) ns st = if bool_decide (d_stream_id r = st) then [] else live_records l ns st.
Proof.
  intros Hr Hnew. unfold live_records. rewrite (tomb_max_tomb _ _ _ Hr Hnew), filter_cons_False by tauto. case_bool_decide as E; [|done].
  apply filter_nothing. intros r' Hr' ([_ Hs] & _ & Hlt). destruct Hnew as [_ Hnew]. specialize (Hnew r' Hr'). subst st. specialize (Hnew Hs). lia.
Qed.

Lemma live_records_other l ns st : (forall r, r ∈ l -> d_stream_id r = st -> d_namespace_id r <> ns) -> live_records l ns st = [].
Proof. intros H. apply filter_nothing. intros r Hr ([H1 H2] & _). by apply (H r Hr). Qed.

Section Invariant.
Context {ext : Externals}.

(** The storage is well formed, the catalog is the one on disk, and the trackers say
    what the records of the log say. *)
Record service_ok (s : Service) : Prop := {
  so_store : store_ok (sv_storage s);
  so_nexts : nexts_pos (sv_storage s);
  so_cat : server_cat_ok (sv_catalog s, sv_catfile s);
  so_cut : forall st, cutoff (sv_cutoffs s) st = tomb_max (log_records (st_db (sv_storage s))) st;
  so_use : forall ns st, usage (sv_usage s) ns st = usage_of (live_records (log_records (st_db (sv_storage s))) ns st);
  so_ns : forall r, r ∈ log_records (st_db (sv_storage s)) ->
    1 <= d_seq r /\ exists nm, stream_info (sv_catalog s) !! d_stream_id r = Some (d_namespace_id r, nm);
  so_dec : all_decode (st_db (sv_storage s));
}.

(** The numbers a request resolves to. *)
Definition ids_in (c : Catalog) (nid sid : Z) : Prop :=
  in_range 32 nid /\ in_range 64 sid /\ exists nm, stream_info c !! sid = Some (nid, nm).

Lemma lookup_ids_in c ns st nid sid : cat_ok c -> cat_fits c -> lookup_ids c ns st = Some (nid, sid) -> ids_in c nid sid.
Proof.
  intros Hc [F1 F2]. unfold lookup_ids. destruct (namespaces c !! ns) as [a|] eqn:E1; [|done]. destruct (streams c !! (a, st)) as [b|] eqn:E2; [|done].
  intros [= -> ->]. apply (co_ns c Hc) in E1. apply (co_st c Hc) in E2.
  pose proof (proj1 (proj2 (co_ns_ids c Hc) nid) ltac:(by eauto)). pose proof (proj1 (proj2 (co_st_ids c Hc) sid) ltac:(by eauto)).
  split_and!; [split; lia|split; lia|by exists st].
Qed.

Lemma svc_resolve_ok ns st s :
  service_ok s -> cat_room (sv_catalog s) ->
  let '(r, s') := svc_resolve true ns st s in
  service_ok s' /\ sv_storage s' = sv_storage s /\ sv_quotas s' = sv_quotas s /\ sv_primary s' = sv_primary s /\
  sv_usage s' = sv_usage s /\ sv_cutoffs s' = sv_cutoffs s /\
  match r with
  | Ok (nid, sid) => ids_in (sv_catalog s') nid sid /\ lookup_ids (sv_catalog s') ns st = Some (nid, sid)
  | Err e => e = InvalidArgument
  end.
Proof.
  intros Hok Hroom. unfold svc_resolve. destruct (so_cat s Hok) as (Hc & Hf & Ho). cbn [fst snd] in *.
  pose proof (cat_step_ok _ _ (cat_resolve ns st _ (sv_catfile s) Hroom) (so_cat s Hok)) as (Hstep & _ & _).
  pose proof (resolve_ok true ns st (sv_catalog s) (sv_catfile s) Hc Hroom) as H.
  destruct (resolve true ns st (sv_catalog s) (sv_catfile s)) as [[r c'] f']. cbn [fst snd] in *. destruct H as (Hc' & Hf' & _ & Hsub & H).
  split; [|split_and!; try done]. 
  - destruct Hok as [H1 H2 H3 H4 H5 H6 H7]. split; cbn; try done. intros x Hx. destruct (H6 x Hx) as (Hs & nm & Hn). split; [done|]. exists nm.
    apply (co_st _ Hc) in Hn. apply (co_st _ Hc'). by eapply lookup_weaken.
  - destruct H as [(-> & _)|(_ & ([nid sid] & -> & Hl) & _)]; [done|]. split; [|done]. by eapply lookup_ids_in.
Qed.

(** A record is added and the trackers follow. *)
Lemma service_ok_add s s' r :
  service_ok s -> store_ok (sv_storage s') -> nexts_pos (sv_storage s') -> sv_catalog s' = sv_catalog s -> sv_catfile s' = sv_catfile s ->
  log_records (st_db (sv_storage s')) ≡ₚ r :: log_records (st_db (sv_storage s)) ->
  (all_decode (st_db (sv_storage s)) -> all_decode (st_db (sv_storage s'))) ->
  newest r (log_records (st_db (sv_storage s))) -> (exists nm, stream_info (sv_catalog s) !! d_stream_id r = Some (d_namespace_id r, nm)) ->
  (forall st, cutoff (sv_cutoffs s') st = tomb_max (r :: log_records (st_db (sv_storage s))) st) ->
  (forall ns st, usage (sv_usage s') ns st = usage_of (live_records (r :: log_records (st_db (sv_storage s))) ns st)) ->
  service_ok s'.
Proof.
  intros [H1 H2 H3 H4 H5 H6 H7] Hst Hnx Hcat Hfile Hlog Hdec [Hseq Hnew] Hinfo Hcut Huse. split; [done|done|by rewrite Hcat, Hfile| | | |by apply Hdec].
  - intros st. by rewrite (tomb_max_perm _ _ _ Hlog).
  - intros ns st. by rewrite Huse, (usage_of_perm _ _ (live_records_perm _ _ ns st Hlog)).
  - intros x Hx. rewrite Hlog in Hx. rewrite Hcat. apply elem_of_cons in Hx as [->|Hx]; [done|by apply H6].
Qed.

Lemma newest_next s st r :
  service_ok s -> d_stream_id r = st -> d_seq r = default 1 (next_seqs (sv_storage s) !! st) -> newest r (log_records (st_db (sv_storage s))).
Proof.
  intros Hok <- Hseq. split; [rewrite Hseq; apply (so_nexts s Hok)|]. intros r' Hr' Hs. rewrite Hseq.
  apply log_records_elem in Hr' as (g & Hr'). destruct (so_store s Hok) as (_ & _ & _ & Hn). specialize (Hn g r' Hr'). cbn [snd] in Hn. by rewrite Hs in Hn.
Qed.

(** ** The handlers keep the invariant *)

(** How many live records, and bytes in them, a stream has. *)
Definition live_count (s : Service) (ns st : Z) : Z := Z.of_nat (length (live_records (log_records (st_db (sv_storage s))) ns st)).
Definition live_bytes (s : Service) (ns st : Z) : Z := sum_bytes (live_records (log_records (st_db (sv_storage s))) ns st).

(** At most [n] records with [b] bytes were added, all to the stream [nid], [sid]. *)
Definition grows (s s' : Service) (nid sid n b : Z) : Prop :=
  forall ns st, if bool_decide ((nid, sid) = (ns, st))
    then live_count s' ns st <= live_count s ns st + n /\ live_bytes s' ns st <= live_bytes s ns st + b
    else live_count s' ns st = live_count s ns st /\ live_bytes s' ns st = live_bytes s ns st.

(** What the handlers do not touch. *)
Definition same_config (s s' : Service) : Prop :=
  sv_catalog s' = sv_catalog s /\ sv_catfile s' = sv_catfile s /\ sv_quotas s' = sv_quotas s /\ sv_primary s' = sv_primary s.

Definition seqs_below (n : Z) (s : Service) : Prop := forall st, default 1 (next_seqs (sv_storage s) !! st) + n <= 2 ^ 64.

Definition answer_ok (s : Service) (answer : option Z) : Prop := forall gid, answer = Some gid -> fresh_gid (sv_storage s) gid.

Lemma req_args_ok nid sid r : in_range 32 nid -> in_range 64 sid -> req_ok r ->
  args_ok nid sid (ar_timestamp_ns r) (ar_event_type r) (if bool_decide (ar_content_type r = []) then APPLICATION_JSON else ar_content_type r) (to_btree (ar_metadata r)).
Proof.
  intros Hn Hs Hr. destruct (to_btree_ok r Hr). destruct Hr as [He Hc Ht _]. split_and!; try done; try apply He; case_bool_decide; (done || apply Hc).
Qed.

Lemma sum_bytes_nonneg l : 0 <= sum_bytes l.
Proof. unfold sum_bytes. induction l as [|r l IH]; cbn [foldr]; lia. Qed.

Lemma live_count_perm l l' ns st : l ≡ₚ l' -> length (live_records l ns st) = length (live_records l' ns st).
Proof. intros H. by apply Permutation_length, live_records_perm. Qed.

Lemma live_bytes_perm l l' ns st : l ≡ₚ l' -> sum_bytes (live_records l ns st) = sum_bytes (live_records l' ns st).
Proof. intros H. by apply sum_bytes_perm, live_records_perm. Qed.

Lemma append_one_ok answer nid sid r s :
  service_ok s -> ids_in (sv_catalog s) nid sid -> req_ok r -> ar_event_type r <> STREAM_DELETED_EVENT -> answer_ok s answer -> seqs_below 1 s ->
  let s' := (append_one answer nid sid r s).2 in
  service_ok s' /\ same_config s s' /\ grows s s' nid sid 1 (blen (ar_content r)) /\
  (forall n, seqs_below (n + 1) s -> seqs_below n s') /\
  (forall g, fresh_gid (sv_storage s) g -> answer <> Some g -> fresh_gid (sv_storage s') g).
Proof.
  intros Hok (Hnid & Hsid & Hinfo) Hreq Hev Hans Hseq. unfold append_one.
  set (ct := if bool_decide (ar_content_type r = []) then APPLICATION_JSON else ar_content_type r).
  assert (1 <= default 1 (next_seqs (sv_storage s) !! sid) < 2 ^ 64) as Hb by (split; [apply (so_nexts s Hok)|specialize (Hseq sid); lia]).
  pose proof (req_args_ok nid sid r Hnid Hsid Hreq) as Hargs. fold ct in Hargs.
  pose proof (append_effect answer nid sid _ _ _ _ (ar_content r) (sv_storage s) Hargs Hans Hb) as He.
  pose proof (append_frame answer nid sid (ar_event_type r) ct (to_btree (ar_metadata r)) (ar_timestamp_ns r) (ar_content r) (sv_storage s)) as [Hf1 Hf2].
  pose proof (append_store_ok (sv_storage s) answer nid sid _ _ _ _ (ar_content r) Hargs Hans Hb (so_store s Hok)) as Hst.
  pose proof (nexts_pos_append answer nid sid (ar_event_type r) ct (to_btree (ar_metadata r)) (ar_timestamp_ns r) (ar_content r) _ (so_nexts s Hok)) as Hnx.
  destruct (append answer nid sid _ _ _ _ _ (sv_storage s)) as [a st']. cbn [snd] in *.
  assert (forall n, seqs_below (n + 1) s -> forall st, default 1 (next_seqs st' !! st) + n <= 2 ^ 64) as Hn by (intros n Hn st; specialize (Hn st); specialize (Hf1 st); lia).
  destruct a as [[gid seq]|e]; cbn [snd fst].
  - destruct He as (Hs & Hlog & Hdec). set (rec := mkDecoded nid sid seq (ar_event_type r) ct (to_btree (ar_metadata r)) (ar_timestamp_ns r) (ar_content r) 0) in *.
    assert (newest rec (log_records (st_db (sv_storage s)))) as Hnew by (by apply (newest_next s sid rec)).
    assert (~ is_tombstone rec) as Hnt by done.
    split_and!; try done.
    + apply (service_ok_add s _ rec); try done.
      * intros st. rewrite tomb_max_user by done. apply (so_cut s Hok).
      * intros ns st. cbn [sv_usage with_usage with_storage]. rewrite usage_add, (live_user rec) by done. cbn [d_namespace_id d_stream_id rec].
        rewrite (so_use s Hok). case_bool_decide; [|done]. cbn [app]. by rewrite usage_of_cons.
    + intros ns st. unfold live_count, live_bytes. cbn [sv_storage with_usage with_storage].
      rewrite (live_count_perm _ _ ns st Hlog), (live_bytes_perm _ _ ns st Hlog), (live_user rec) by done. cbn [d_namespace_id d_stream_id rec].
      case_bool_decide; [|done]. unfold sum_bytes. cbn [app length foldr d_user_content rec]. lia.
  - split_and!; try done.
    + destruct Hok as [H1 H2 H3 H4 H5 H6 H7]. split; cbn [sv_storage with_storage sv_catalog sv_catfile sv_cutoffs sv_usage]; rewrite ?He; done.
    + intros ns st. unfold live_count, live_bytes. cbn [sv_storage with_storage]. rewrite He. case_bool_decide; [|done]. lia.
Qed.

Definition answers_ok (s : Service) (answers : list (option Z)) : Prop :=
  NoDup (omap Datatypes.id answers) /\ forall g, Some g ∈ answers -> fresh_gid (sv_storage s) g.

Definition user_req (r : AppendRequest) : Prop := req_ok r /\ ar_event_type r <> STREAM_DELETED_EVENT.

Lemma append_all_ok answers nid sid rs s :
  service_ok s -> ids_in (sv_catalog s) nid sid -> Forall user_req rs -> answers_ok s answers -> seqs_below (Z.of_nat (length rs)) s ->
  let s' := (append_all answers nid sid rs s).2 in
  service_ok s' /\ same_config s s' /\ grows s s' nid sid (Z.of_nat (length rs)) (total_bytes rs).
Proof.
  revert answers s. induction rs as [|r rs IH]; intros answers s Hok Hids Hrs Hans Hseq; cbn [append_all].
  - split_and!; try done. intros ns st. case_bool_decide; [|done]. cbn. lia.
  - apply Forall_cons in Hrs as [[Hr Hev] Hrs]. destruct Hans as [Hnd Hfr].
    assert (answer_ok s (default None (head answers))) as Ha.
    { intros gid Hg. apply Hfr. destruct answers as [|[x|] answers]; cbn in Hg; [done| |done]. injection Hg as ->. left. }
    assert (seqs_below 1 s) as Hs1 by (intros st; specialize (Hseq st); cbn [length] in Hseq; lia).
    pose proof (append_one_ok (default None (head answers)) nid sid r s Hok Hids Hr Hev Ha Hs1) as H.
    destruct (append_one (default None (head answers)) nid sid r s) as [a s1] eqn:E1. cbn [snd] in H. destruct H as (Hok1 & Hcfg1 & Hg1 & Hn1 & Hf1).
    assert (0 <= total_bytes rs) as Htb by (clear; unfold total_bytes; induction rs as [|x l IHl]; cbn [foldr]; lia).
    destruct a as [a|e]; cbn [snd].
    + specialize (IH (tail answers) s1 Hok1).
      destruct IH as (Hok2 & Hcfg2 & Hg2).
      * destruct Hcfg1 as (-> & _). done.
      * done.
      * destruct answers as [|[x|] answers]; cbn [tail] in *; [split; [constructor|intros g Hg; by apply elem_of_nil in Hg]| |].
        -- csimpl in Hnd. apply NoDup_cons in Hnd as [Hx Hnd]. split; [done|]. intros g Hg. apply Hf1; [apply Hfr; by right|].
           cbn. intros [= ->]. apply Hx. apply list_elem_of_omap. by exists (Some g).
        -- split; [done|]. intros g Hg. apply Hf1; [apply Hfr; by right|done].
      * apply Hn1. intros st. specialize (Hseq st). cbn [length] in Hseq. lia.
      * destruct (append_all (tail answers) nid sid rs s1) as [b s2]. cbn [snd] in *. assert (same_config s s2) as Hc.
        { unfold same_config in *. intuition congruence. }
        assert (grows s s2 nid sid (Z.of_nat (length (r :: rs))) (total_bytes (r :: rs))) as Hg.
        { intros ns st. specialize (Hg1 ns st). specialize (Hg2 ns st). cbn [total_bytes foldr length]. change (foldr _ 0 rs) with (total_bytes rs). case_bool_decide; lia. }
        by destruct b.
    + split_and!; try done. intros ns st. specialize (Hg1 ns st). cbn [total_bytes foldr length]. change (foldr _ 0 rs) with (total_bytes rs). case_bool_decide; lia.
Qed.

Lemma delete_record_ok nid sid : in_range 32 nid -> in_range 64 sid -> args_ok nid sid 0 STREAM_DELETED_EVENT APPLICATION_JSON [].
Proof. intros H1 H2. split; [done|]. split; [done|]. split; [by split|]. split; [by split; vm_compute|]. split; [by split; vm_compute|]. split; [split; constructor|constructor]. Qed.

Lemma delete_ok ctx answer ns st s :
  service_ok s -> cat_room (sv_catalog s) -> answer_ok s answer -> seqs_below 1 s ->
  let '(a, s') := rpc_delete_stream ctx true answer ns st s in
  service_ok s' /\ sv_quotas s' = sv_quotas s /\ (s' = s \/ sv_catalog s' = sv_catalog (svc_resolve true ns st s).2) /\
  (forall n i, live_count s' n i <= live_count s n i /\ live_bytes s' n i <= live_bytes s n i) /\
  (forall k, a = Ok k -> exists nid sid, lookup_ids (sv_catalog s') ns st = Some (nid, sid) /\ live_count s' nid sid = 0 /\ k = u64 (live_count s nid sid)).
Proof.
  intros Hok Hroom Hans Hseq. unfold rpc_delete_stream. destruct (require_role ctx Admin); cbn [negb]; [|split_and!; (done || by left)].
  destruct (sv_primary s); cbn [negb]; [|split_and!; (done || by left)]. pose proof (svc_resolve_ok ns st s Hok Hroom) as H.
  destruct (svc_resolve true ns st s) as [r s1]. cbn [snd]. destruct H as (Hok1 & Hst1 & Hq & _ & Hu & Hc & Hr).
  destruct r as [[nid sid]|e]; [|split_and!; try done; [by right|]; intros n i; unfold live_count, live_bytes; rewrite Hst1; lia].
  destruct Hr as [(Hn & Hs & Hinfo) Hl]. pose proof (delete_record_ok nid sid Hn Hs) as Hargs.
  assert (1 <= default 1 (next_seqs (sv_storage s1) !! sid) < 2 ^ 64) as Hb by (split; [apply (so_nexts s1 Hok1)|rewrite Hst1; specialize (Hseq sid); lia]).
  assert (forall gid, answer = Some gid -> fresh_gid (sv_storage s1) gid) as Hans1 by (rewrite Hst1; exact Hans).
  pose proof (append_effect answer nid sid _ _ _ _ [] (sv_storage s1) Hargs Hans1 Hb) as He.
  pose proof (append_store_ok (sv_storage s1) answer nid sid _ _ _ _ [] Hargs Hans1 Hb (so_store s1 Hok1)) as Hst.
  pose proof (nexts_pos_append answer nid sid STREAM_DELETED_EVENT APPLICATION_JSON [] 0 [] _ (so_nexts s1 Hok1)) as Hnx.
  destruct (append answer nid sid _ _ _ _ _ (sv_storage s1)) as [a st']. cbn [snd] in *. destruct a as [[gid seq]|e].
  - destruct He as (Hsq & Hlog & Hdec). set (rec := mkDecoded nid sid seq STREAM_DELETED_EVENT APPLICATION_JSON [] 0 [] 0) in *.
    assert (newest rec (log_records (st_db (sv_storage s1)))) as Hnew by (by apply (newest_next s1 sid rec)).
    assert (is_tombstone rec) as Ht by done.
    assert (forall n i, live_records (rec :: log_records (st_db (sv_storage s1))) n i = if bool_decide (sid = i) then [] else live_records (log_records (st_db (sv_storage s1))) n i) as Hlive
      by (intros n i; by apply (live_tomb rec)).
    split_and!; [|done|by right| |].
    + apply (service_ok_add s1 _ rec); try done; cbn [sv_cutoffs sv_usage with_usage with_cutoffs with_storage].
      * intros i. rewrite (tomb_max_tomb rec) by done. cbn [d_stream_id d_seq rec]. rewrite cutoff_record, (so_cut s1 Hok1).
        -- case_bool_decide; [|done]. subst i. pose proof (tomb_max_lt (log_records (st_db (sv_storage s1))) sid seq (proj2 Hnew)). lia.
        -- rewrite (so_cut s1 Hok1). apply tomb_max_nonneg.
        -- lia.
      * intros n i. rewrite Hlive. unfold quota_reset, usage. destruct (decide ((nid, sid) = (n, i))) as [[= <- <-]|Hne].
        -- rewrite lookup_insert_eq. by rewrite bool_decide_true.
        -- rewrite lookup_insert_ne by done. change (default _ _) with (usage (sv_usage s1) n i). rewrite (so_use s1 Hok1).
           case_bool_decide as E; [|done]. subst i. rewrite live_records_other; [done|]. intros x Hx Hsx Hnx'. destruct (so_ns s1 Hok1 x Hx) as (_ & nm & Hi).
           destruct Hinfo as (nm' & Hi'). rewrite Hsx, Hi' in Hi. injection Hi as Hi _. congruence.
    + intros n i. unfold live_count, live_bytes. cbn [sv_storage with_usage with_cutoffs with_storage].
      rewrite (live_count_perm _ _ n i Hlog), (live_bytes_perm _ _ n i Hlog), Hlive, Hst1. case_bool_decide; [|lia]. pose proof (sum_bytes_nonneg (live_records (log_records (st_db (sv_storage s))) n i)). cbn. lia.
    + intros k [= <-]. exists nid, sid. split; [done|]. split.
      * unfold live_count. cbn [sv_storage with_usage with_cutoffs with_storage]. rewrite (live_count_perm _ _ nid sid Hlog), Hlive. by rewrite bool_decide_true.
      * rewrite (so_use s1 Hok1). unfold live_count. by rewrite Hst1.
  - split_and!; [|done|by right| |done].
    + destruct Hok1 as [H1 H2 H3 H4 H5 H6 H7]. split; cbn [sv_storage with_storage sv_catalog sv_catfile sv_cutoffs sv_usage]; rewrite ?He; done.
    + intros n i. unfold live_count, live_bytes. cbn [sv_storage with_storage]. rewrite He, Hst1. lia.
Qed.

End Invariant.
