(* ===== verification/Publisher.v ===== *)
(** * Subscriptions ([logdbd/src/publisher.rs], [subscribe.rs], the subscribe handler of
    [logdbd/src/service.rs])

    A publisher thread chases the durable cursor: it scans the records that have become
    durable, notes the tombstones among them and sends the others to the channel of
    their stream.  A subscription first replays the log and then joins its stream's
    channel.

    A broadcast channel is the list of what was sent on it; a receiver is a position
    in it that is moved up when it is more than the capacity behind. *)
From stdpp Require Import base gmap list numbers sorting.
From coqutil Require Import Byte.
From Stdlib Require Import ZArith Lia.
From S2P Require Import Prelude RustStd Shard ByteReader ServerRecord StreamStore Lifecycle.
Open Scope Z_scope.

(** ** The hub *)

Definition CHANNEL_CAPACITY : nat := 256.

Abbreviation SubscribeHub := (gmap Z (list DecodedRecord)).

(** [publish]: dropped when the stream has no channel. *)
Definition publish (stream_id : Z) (r : DecodedRecord) (hub : SubscribeHub) : SubscribeHub :=
  match hub !! stream_id with
  | Some l => <[stream_id := l ++ [r]]> hub
  | None => hub
  end.

Record SubscribeHandle := mkHandle { sh_stream : Z; sh_position : nat; sh_event_types : gset bytes }.

(** [subscribe]: a new receiver sees what is sent from now on. *)
Definition subscribe (stream_id : Z) (event_types : gset bytes) (hub : SubscribeHub) : SubscribeHandle * SubscribeHub :=
  let l := default [] (hub !! stream_id) in
  (mkHandle stream_id (length l) event_types, <[stream_id := l]> hub).

Inductive Recv := RecvOk (r : DecodedRecord) | RecvLagged (n : nat) | RecvEmpty.

Definition recv (l : list DecodedRecord) (pos : nat) : Recv * nat :=
  let oldest := (length l - CHANNEL_CAPACITY)%nat in
  if (pos <? oldest)%nat then (RecvLagged (oldest - pos), oldest)
  else match l !! pos with Some r => (RecvOk r, S pos) | None => (RecvEmpty, pos) end.

(** [next_matching]: passes over the records of other types; [RecvEmpty] when it waits. *)
Fixpoint next_matching (fuel : nat) (event_types : gset bytes) (l : list DecodedRecord) (pos : nat) : Recv * nat :=
  match fuel with
  | O => (RecvEmpty, pos)
  | S fuel =>
      match recv l pos with
      | (RecvOk r, pos) => if bool_decide (d_event_type r ∈ event_types) then (RecvOk r, pos) else next_matching fuel event_types l pos
      | x => x
      end
  end.

(** The second phase of [subscribe] of the service: what is sent to the client until
    the channel is empty; lagging is only logged. *)
Fixpoint receive_loop (fuel : nat) (event_types : gset bytes) (l : list DecodedRecord) (pos : nat) : list DecodedRecord * nat :=
  match fuel with
  | O => ([], pos)
  | S fuel =>
      match next_matching (S (length l)) event_types l pos with
      | (RecvOk r, pos) => let '(rs, pos) := receive_loop fuel event_types l pos in (r :: rs, pos)
      | (RecvLagged _, pos) => receive_loop fuel event_types l pos
      | (RecvEmpty, pos) => ([], pos)
      end
  end.

(** What a subscription gets from its channel; the number of turns is enough. *)
Definition received (h : SubscribeHandle) (hub : SubscribeHub) : list DecodedRecord :=
  let l := default [] (hub !! sh_stream h) in (receive_loop (length l + 2) (sh_event_types h) l (sh_position h)).1.

(** [scan_stream_replay], with a client that stays connected. *)
Definition scan_stream_replay (s : Storage) (durable stream_id last_committed : Z) (event_types : gset bytes) (tombstones : Cutoffs)
    : result StorageError (list DecodedRecord) :=
  all ← scan 0 durable s;
  Ok (filter (fun r => d_stream_id r = stream_id /\ last_committed < d_seq r /\ d_event_type r ∈ event_types /\
                is_live tombstones stream_id (d_seq r) = true) all).

(** ** The publisher *)

Record PubState := mkPub { pb_last_gid : Z; pb_hub : SubscribeHub; pb_cutoffs : Cutoffs }.

(** What is done with one scanned record. *)
Definition publish_step (p : PubState) (r : DecodedRecord) : PubState :=
  if bool_decide (d_event_type r = STREAM_DELETED_EVENT) then
    mkPub (pb_last_gid p) (pb_hub p) (tomb_record (d_stream_id r) (d_seq r) (pb_cutoffs p))
  else if is_live (pb_cutoffs p) (d_stream_id r) (d_seq r) then
    mkPub (pb_last_gid p) (publish (d_stream_id r) r (pb_hub p)) (pb_cutoffs p)
  else p.

(** One turn of [run]. *)
Definition publisher_poll (s : Storage) (p : PubState) : PubState :=
  let durable := durable_gid s in
  if durable <=? pb_last_gid p then p
  else
    match scan (pb_last_gid p) durable s with
    | Err _ => p
    | Ok records => let p := foldl publish_step p records in mkPub durable (pb_hub p) (pb_cutoffs p)
    end.

(** The wake of the tails: the sum of the shards' cursors, when one has moved. *)
Definition wake_token (last now : list Z) : option Z :=
  if bool_decide (now = last) then None else Some (u64 (foldr Z.add 0 now)).

(** ** Receiving *)

Lemma next_matching_spec fuel ets l pos :
  (length l - CHANNEL_CAPACITY <= pos <= length l)%nat -> (length l < fuel + pos)%nat ->
  match next_matching fuel ets l pos with
  | (RecvOk r, pos') => (pos < pos' <= length l)%nat /\ filter (fun r => d_event_type r ∈ ets) (drop pos l) = r :: filter (fun r => d_event_type r ∈ ets) (drop pos' l)
  | (RecvEmpty, _) => filter (fun r => d_event_type r ∈ ets) (drop pos l) = []
  | (RecvLagged _, _) => False
  end.
Proof.
  revert pos. induction fuel as [|fuel IH]; intros pos Hpos Hf; [lia|]. cbn [next_matching]. unfold recv.
  rewrite (proj2 (Nat.ltb_ge _ _)) by lia. destruct (l !! pos) as [r|] eqn:E.
  - pose proof (lookup_lt_Some _ _ _ E) as Hlt. rewrite (drop_S _ _ _ E). case_bool_decide as Ht.
    + rewrite filter_cons_True by done. split; [lia|done].
    + rewrite filter_cons_False by done. specialize (IH (S pos) ltac:(lia) ltac:(lia)).
      destruct (next_matching fuel ets l (S pos)) as [[r'| |] pos']; [|done|done]. destruct IH as [? ->]. split; [lia|done].
  - apply lookup_ge_None in E. by rewrite drop_ge.
Qed.

Lemma receive_loop_spec fuel ets l pos :
  (length l - CHANNEL_CAPACITY <= pos <= length l)%nat -> (length l < fuel + pos)%nat ->
  (receive_loop fuel ets l pos).1 = filter (fun r => d_event_type r ∈ ets) (drop pos l).
Proof.
  revert pos. induction fuel as [|fuel IH]; intros pos Hpos Hf; [lia|]. cbn [receive_loop].
  pose proof (next_matching_spec (S (length l)) ets l pos Hpos ltac:(lia)) as H.
  destruct (next_matching (S (length l)) ets l pos) as [[r|n|] pos']; [|done|done].
  destruct H as [Hp ->]. specialize (IH pos' ltac:(lia) ltac:(lia)). destruct (receive_loop fuel ets l pos'). cbn [fst] in *. by rewrite IH.
Qed.

(** A receiver that is not too far behind gets all matching records sent since it
    joined, in order. *)
Lemma received_spec h hub :
  let l := default [] (hub !! sh_stream h) in
  (sh_position h <= length l <= sh_position h + CHANNEL_CAPACITY)%nat ->
  received h hub = filter (fun r => d_event_type r ∈ sh_event_types h) (drop (sh_position h) l).
Proof. intros l Hl. unfold received. apply receive_loop_spec; fold l; lia. Qed.

(** ** What the publisher sends *)

Definition channel (hub : SubscribeHub) (sid : Z) : list DecodedRecord := default [] (hub !! sid).

(** The channel exists and the stream's cutoff is below a number. *)
Definition open_below (p : PubState) (sid seq : Z) : Prop :=
  is_Some (pb_hub p !! sid) /\ 0 <= cutoff (pb_cutoffs p) sid < seq.

(** A tombstone of the stream has a number below [seq]. *)
Definition tomb_below (sid seq : Z) (t : DecodedRecord) : Prop :=
  d_event_type t = STREAM_DELETED_EVENT -> d_stream_id t = sid -> 0 <= d_seq t < seq.

Lemma cutoff_of_record m sid' t sid seq : 0 <= cutoff m sid < seq -> (sid' = sid -> 0 <= t < seq) -> 0 <= cutoff (tomb_record sid' t m) sid < seq.
Proof.
  intros H Ht. unfold cutoff, tomb_record in *. destruct (decide (sid' = sid)) as [->|Hne].
  - rewrite lookup_insert_eq. specialize (Ht eq_refl). destruct (m !! sid); cbn [from_option Datatypes.id] in *; lia.
  - by rewrite lookup_insert_ne.
Qed.

Lemma publish_channel r hub sid :
  is_Some (hub !! sid) -> is_Some (publish (d_stream_id r) r hub !! sid) /\
  channel (publish (d_stream_id r) r hub) sid = channel hub sid ++ (if decide (d_stream_id r = sid) then [r] else []).
Proof.
  intros [l Hl]. unfold publish, channel. destruct (decide (d_stream_id r = sid)) as [->|Hne].
  - rewrite Hl, lookup_insert_eq. split; [by eexists|done].
  - rewrite app_nil_r. destruct (hub !! d_stream_id r); [rewrite lookup_insert_ne by done|]; rewrite Hl; (split; [by eexists|done]).
Qed.

Lemma publish_step_open p t sid seq :
  open_below p sid seq -> tomb_below sid seq t ->
  open_below (publish_step p t) sid seq /\
  exists ext, channel (pb_hub (publish_step p t)) sid = channel (pb_hub p) sid ++ ext /\
    (d_stream_id t = sid -> d_seq t = seq -> d_event_type t <> STREAM_DELETED_EVENT -> t ∈ ext).
Proof.
  intros [H1 H2] Ht. unfold publish_step, open_below. case_bool_decide as E.
  - cbn [pb_hub pb_cutoffs]. split; [split; [done|]|exists []; rewrite app_nil_r; by split]. apply cutoff_of_record; [done|]. by apply Ht.
  - destruct (is_live _ _ _) eqn:El; cbn [pb_hub pb_cutoffs].
    + destruct (publish_channel t (pb_hub p) sid H1) as [Hs Hc]. split; [done|]. eexists. split; [exact Hc|]. intros -> _ _. rewrite decide_True by done. left.
    + split; [done|]. exists []. rewrite app_nil_r. split; [done|]. intros <- <- _. unfold is_live in El. apply Z.ltb_ge in El. lia.
Qed.

Lemma publish_all_open rs p sid seq :
  open_below p sid seq -> Forall (tomb_below sid seq) rs ->
  open_below (foldl publish_step p rs) sid seq /\
  exists ext, channel (pb_hub (foldl publish_step p rs)) sid = channel (pb_hub p) sid ++ ext /\
    (forall t, t ∈ rs -> d_stream_id t = sid -> d_seq t = seq -> d_event_type t <> STREAM_DELETED_EVENT -> t ∈ ext).
Proof.
  revert p. induction rs as [|t rs IH]; intros p Ho Hf; cbn [foldl].
  { split; [done|]. exists []. rewrite app_nil_r. split; [done|]. intros t Hin. by apply elem_of_nil in Hin. }
  apply Forall_cons in Hf as [Ht Hf]. destruct (publish_step_open p t sid seq Ho Ht) as [Ho1 (e1 & E1 & I1)].
  destruct (IH _ Ho1 Hf) as [Ho2 (e2 & E2 & I2)]. split; [done|]. exists (e1 ++ e2). rewrite E2, E1, app_assoc. split; [done|].
  intros x [->|Hin]%elem_of_cons Hs Hq Hn; apply elem_of_app; [left|right]; [by apply I1|by apply I2].
Qed.

(** ** A subscription over a log of one shard *)

(** A storage over the log [w] of one shard, of which it shows everything committed. *)
Record shows (w : gmap Z bytes) (s : Storage) : Prop := {
  sw_bits : ls_bits (st_db s) = 0 /\ st_shard_bits s = 0;
  sw_sub : ls_written (st_db s) ⊆ w;
  sw_finds : finds_all (st_db s);
  sw_cursors : exists co du, ls_committed (st_db s) = [co] /\ ls_durable (st_db s) = [du] /\ du <= co /\
    forall gid raw, gid < co -> w !! gid = Some raw -> ls_written (st_db s) !! gid = Some raw;
}.

Lemma decode_all_elem s l rs :
  decode_all s l = Ok rs ->
  (forall gid raw r, (gid, raw) ∈ l -> decode_record raw = Ok r -> with_shard (st_shard_bits s) gid r ∈ rs) /\
  (forall x, x ∈ rs -> exists gid raw r, (gid, raw) ∈ l /\ decode_record raw = Ok r /\ x = with_shard (st_shard_bits s) gid r).
Proof.
  revert rs. induction l as [|[g c] l IH]; intros rs Hd; cbn [decode_all] in Hd.
  { injection Hd as <-. split; [intros gid raw r H|intros x H]; by apply elem_of_nil in H. }
  unfold decode_at in Hd. destruct (decode_record c) as [r0|] eqn:E; [|done]. cbn [mbind result_bind] in Hd.
  destruct (decode_all s l) as [rs'|] eqn:El; [|done]. cbn [mbind result_bind] in Hd. injection Hd as <-. destruct (IH rs' eq_refl) as [I1 I2]. split.
  - intros gid raw r [[= -> ->]|Hin]%elem_of_cons Hr; [|right; by eapply I1]. rewrite E in Hr. injection Hr as ->. left.
  - intros x [->|Hin]%elem_of_cons; [exists g, c, r0; split; [left|done]|]. destruct (I2 x Hin) as (gid & raw & r & H & ?). exists gid, raw, r. split; [by right|done].
Qed.

(** What a scan finds: the committed records of the range. *)
Lemma scan_shows w s from to rs :
  shows w s -> scan from to s = Ok rs ->
  (forall gid raw r, from <= gid < to -> gid < committed_gid s -> w !! gid = Some raw -> decode_record raw = Ok r -> with_shard 0 gid r ∈ rs) /\
  (forall x, x ∈ rs -> exists gid raw r, w !! gid = Some raw /\ decode_record raw = Ok r /\ x = with_shard 0 gid r).
Proof.
  intros [[Hb1 Hb2] Hsub Hfa (co & du & Hc & Hd & Hle & Hw)] Hs. unfold scan in Hs. destruct (decode_all_elem _ _ _ Hs) as [H1 H2]. rewrite Hb2 in *.
  assert (committed_gid s = co) as Hcg by (unfold committed_gid, committed_cursor; by rewrite Hc). split.
  - intros gid raw r Hr Hlt Hg Hdec. eapply H1; [|done]. unfold log_scan, ascending_list. rewrite list_elem_of_filter, sort_by_key_perm. cbn [fst].
    split; [|apply elem_of_map_to_list, Hw; [lia|done]]. split; [lia|]. rewrite (Hfa from). split; [|apply not_elem_of_empty].
    unfold committed_at, below_cursor, decode_record_id. rewrite Hb1, Hc. apply Z.ltb_lt. change (gid < co). lia.
  - intros x Hx. destruct (H2 x Hx) as (gid & raw & r & Hin & Hdec & ->). exists gid, raw, r. split; [|done]. unfold log_scan, ascending_list in Hin.
    rewrite list_elem_of_filter, sort_by_key_perm in Hin. destruct Hin as [_ Hin%elem_of_map_to_list]. by eapply lookup_weaken.
Qed.

Lemma poll_sends w s p gid raw r :
  shows w s -> (forall g c t, w !! g = Some c -> decode_record c = Ok t -> tomb_below (d_stream_id r) (d_seq r) t) ->
  w !! gid = Some raw -> decode_record raw = Ok r -> d_event_type r <> STREAM_DELETED_EVENT -> open_below p (d_stream_id r) (d_seq r) ->
  let p' := publisher_poll s p in
  open_below p' (d_stream_id r) (d_seq r) /\
  exists ext, channel (pb_hub p') (d_stream_id r) = channel (pb_hub p) (d_stream_id r) ++ ext /\
    (pb_last_gid p <= gid < pb_last_gid p' -> with_shard 0 gid r ∈ ext).
Proof.
  intros Hsh Htomb Hw Hdec Hev Ho p'. unfold p', publisher_poll.
  assert (open_below p (d_stream_id r) (d_seq r) /\ exists ext, channel (pb_hub p) (d_stream_id r) = channel (pb_hub p) (d_stream_id r) ++ ext /\
    (pb_last_gid p <= gid < pb_last_gid p -> with_shard 0 gid r ∈ ext)) as Hsame.
  { split; [done|]. exists []. rewrite app_nil_r. split; [done|lia]. }
  destruct (Z.leb_spec (durable_gid s) (pb_last_gid p)); [done|]. destruct (scan _ _ s) as [rs|] eqn:E; [|done].
  destruct (scan_shows w s _ _ rs Hsh E) as [S1 S2].
  destruct (publish_all_open rs p (d_stream_id r) (d_seq r) Ho) as [Ho' (ext & Ee & Hi)].
  { apply Forall_forall. intros x Hx. destruct (S2 x Hx) as (g & c & t & Hg & Ht & ->). exact (Htomb g c t Hg Ht). }
  cbn [pb_hub pb_last_gid]. split; [exact Ho'|]. exists ext. split; [done|]. intros Hr. apply Hi; [|done|done|done].
  apply (S1 gid raw r); [done| |done|done]. destruct Hsh as [_ _ _ (co & du & Hc & Hd & Hle & _)].
  assert (committed_gid s = co) as -> by (unfold committed_gid, committed_cursor; by rewrite Hc).
  assert (durable_gid s = du) as Hdu by (unfold durable_gid, durable_cursor; by rewrite Hd). lia.
Qed.

Lemma polls_send w ss p gid raw r :
  Forall (shows w) ss -> (forall g c t, w !! g = Some c -> decode_record c = Ok t -> tomb_below (d_stream_id r) (d_seq r) t) ->
  w !! gid = Some raw -> decode_record raw = Ok r -> d_event_type r <> STREAM_DELETED_EVENT -> open_below p (d_stream_id r) (d_seq r) ->
  let p' := foldl (fun p s => publisher_poll s p) p ss in
  exists ext, channel (pb_hub p') (d_stream_id r) = channel (pb_hub p) (d_stream_id r) ++ ext /\
    (pb_last_gid p <= gid < pb_last_gid p' -> with_shard 0 gid r ∈ ext).
Proof.
  intros Hss Htomb Hw Hdec Hev. revert p. induction Hss as [|s ss Hs _ IH]; intros p Ho; cbn [foldl].
  { exists []. rewrite app_nil_r. split; [done|lia]. }
  destruct (poll_sends w s p gid raw r Hs Htomb Hw Hdec Hev Ho) as [Ho1 (e1 & E1 & I1)]. destruct (IH _ Ho1) as (e2 & E2 & I2).
  exists (e1 ++ e2). rewrite E2, E1, app_assoc. split; [done|]. intros Hr. apply elem_of_app.
  destruct (decide (gid < pb_last_gid (publisher_poll s p))); [left; apply I1; lia|right; apply I2; lia].
Qed.

(** C28: Over a log of one shard that finds all its committed records, a subscription
    misses no live record of its types: when the replay succeeded and the publisher,
    as the subscription joins the channel, is not past what the replay saw, every
    record behind the consumer's offset that the publisher goes over and that no
    tombstone covers is in the replay or is received from the channel, as long as the
    subscription is not more than the channel's capacity behind.  (With several
    shards, the server's default, the publisher's bound is not an id and records are
    never published, see [sharded_records_are_not_published].) *)
Theorem subscription_misses_nothing (w : gmap Z bytes) (s0 : Storage) (replayed : list DecodedRecord) (last_committed : Z) (ets : gset bytes)
    (p : PubState) (ss : list Storage) (gid : Z) (raw : bytes) (r : DecodedRecord) :
  map_Forall (fun gid _ => 0 <= gid < U64_MAX) w -> Forall (shows w) (s0 :: ss) ->
  scan_stream_replay s0 U64_MAX (d_stream_id r) last_committed ets (pb_cutoffs p) = Ok replayed ->
  pb_last_gid p <= committed_gid s0 ->
  let '(h, hub) := subscribe (d_stream_id r) ets (pb_hub p) in
  let p' := foldl (fun p s => publisher_poll s p) (mkPub (pb_last_gid p) hub (pb_cutoffs p)) ss in
  (length (channel (pb_hub p') (d_stream_id r)) <= sh_position h + CHANNEL_CAPACITY)%nat ->
  (forall g c t, w !! g = Some c -> decode_record c = Ok t -> tomb_below (d_stream_id r) (d_seq r) t) ->
  0 <= cutoff (pb_cutoffs p) (d_stream_id r) < d_seq r ->
  w !! gid = Some raw -> decode_record raw = Ok r -> d_event_type r ∈ ets -> d_event_type r <> STREAM_DELETED_EVENT ->
  last_committed < d_seq r -> gid < pb_last_gid p' ->
  with_shard 0 gid r ∈ replayed ++ received h (pb_hub p').
Proof.
  intros Hids Hsh Hrep Hpos. cbn [subscribe]. set (h := mkHandle _ _ _). set (hub := <[d_stream_id r := _]> _). set (p0 := mkPub _ hub _). intros Hlag Htomb Hcut Hw Hdec Hty Hev Hseq Hlt.
  apply Forall_cons in Hsh as [Hs0 Hss]. apply elem_of_app. destruct (decide (gid < committed_gid s0)) as [Hin|Hout]; [left|right].
  - unfold scan_stream_replay in Hrep. destruct (scan 0 U64_MAX s0) as [all|] eqn:E; [|done]. injection Hrep as <-. apply list_elem_of_filter.
    destruct (scan_shows w s0 _ _ all Hs0 E) as [S1 _]. split; [|by apply (S1 gid raw r (Hids _ _ Hw) Hin)].
    cbn [with_shard d_stream_id d_seq d_event_type]. split_and!; [done|done|done|]. apply Z.ltb_lt, Hcut.
  - assert (is_Some (pb_hub p0 !! d_stream_id r)) as Hex by (unfold p0, hub; cbn [pb_hub]; rewrite lookup_insert_eq; by eexists).
    destruct (polls_send w ss p0 gid raw r Hss Htomb Hw Hdec Hev (conj Hex Hcut)) as (ext & Ee & Hi).
    assert (channel (pb_hub p0) (d_stream_id r) = default [] (pb_hub p !! d_stream_id r)) as Hc0 by (unfold channel, p0, hub; cbn [pb_hub]; by rewrite lookup_insert_eq).
    set (p' := foldl _ p0 ss) in *. assert (sh_position h = length (channel (pb_hub p0) (d_stream_id r))) as Hpos' by (by rewrite Hc0).
    rewrite received_spec; change (default [] (pb_hub p' !! sh_stream h)) with (channel (pb_hub p') (d_stream_id r)); rewrite Ee, Hpos'.
    + apply list_elem_of_filter. split; [done|]. rewrite drop_app_length. apply Hi. unfold p0. cbn [pb_last_gid]. lia.
    + rewrite Ee, Hpos' in Hlag. split; [rewrite length_app; lia|exact Hlag].
Qed.

(** ** Where subscriptions fall short *)

Definition demo_records (n : nat) : gmap Z bytes := list_to_map ((fun g => (g, demo_raw 7 (g + 1) (demo_text 3))) <$> seqZ 0 (Z.of_nat n)).
Definition demo_at (n : nat) (co du : Z) : Storage := mkStorage (mkLog (demo_records n) [co] [du] 0) ∅ ∅ 0 1 0.
Definition demo_types : gset bytes := {[demo_text 3]}.
Definition demo_replay (s : Storage) : list Z := match scan_stream_replay s U64_MAX 7 0 demo_types ∅ with Ok l => d_seq <$> l | Err _ => [] end.

(** What a subscription gets that joins at [p] and sees the polls of [ss] after it. *)
Definition demo_received (p : PubState) (ss : list Storage) : list Z :=
  let '(h, hub) := subscribe 7 demo_types (pb_hub p) in
  d_seq <$> received h (pb_hub (foldl (fun p s => publisher_poll s p) (mkPub (pb_last_gid p) hub (pb_cutoffs p)) ss)).

(** A record published between the replay and the joining of the channel is lost. *)
Theorem record_between_replay_and_join_is_lost :
  let p := publisher_poll (demo_at 2 2 2) (publisher_poll (demo_at 1 1 1) (mkPub 0 ∅ ∅)) in
  demo_replay (demo_at 1 1 1) = [1] /\ pb_last_gid p = 2 /\ demo_received p [demo_at 2 2 2] = [] /\ demo_replay (demo_at 2 2 2) = [1; 2].
Proof. by vm_compute. Qed.

(** A record the replay saw before the publisher did is sent twice; a publisher that
    has just started begins with the whole log. *)
Theorem replayed_records_are_sent_again :
  demo_replay (demo_at 2 2 2) = [1; 2] /\
  demo_received (publisher_poll (demo_at 1 1 1) (mkPub 0 ∅ ∅)) [demo_at 2 2 2] = [2] /\ demo_received (mkPub 0 ∅ ∅) [demo_at 2 2 2] = [1; 2].
Proof. by vm_compute. Qed.

(** The bound of the scan is the least of the shards' counts, not an id: with two
    shards half of the durable records are never published. *)
Theorem sharded_records_are_not_published :
  let s := mkStorage (mkLog (demo_records 8) [4; 4] [4; 4] 1) ∅ ∅ 0 2 1 in
  demo_received (mkPub 0 ∅ ∅) [s; s] = [1; 2; 3; 4].
Proof. by vm_compute. Qed.

(** One record that does not decode stops the publisher for all streams. *)
Theorem undecodable_record_stops_publisher :
  let s := mkStorage (mkLog (<[1 := []]> (demo_records 3)) [3] [3] 0) ∅ ∅ 0 1 0 in
  pb_last_gid (publisher_poll s (publisher_poll s (mkPub 0 ∅ ∅))) = 0.
Proof. by vm_compute. Qed.

(** ** Witness *)

Lemma demo_records_two : demo_records 2 = <[0 := demo_raw 7 1 (demo_text 3)]> {[1 := demo_raw 7 2 (demo_text 3)]}.
Proof. by vm_compute. Qed.

Lemma demo_shows n co du :
  (n <= 2)%nat -> 0 <= du <= co -> co <= Z.of_nat n -> shows (demo_records 2) (demo_at n co du).
Proof.
  intros Hn Hdu Hco. assert (n = O \/ n = 1%nat \/ n = 2%nat) as Hc by lia. split; [done| |done|].
  - cbn [demo_at st_db ls_written]. destruct Hc as [->|[->| ->]]; [apply map_empty_subseteq| |done]. rewrite demo_records_two.
    change (demo_records 1) with ({[0 := demo_raw 7 1 (demo_text 3)]} : gmap Z bytes). apply map_singleton_subseteq_l. by rewrite lookup_insert_eq.
  - exists co, du. split_and!; [done|done|lia|]. intros gid raw Hlt Hw. cbn [demo_at st_db ls_written]. rewrite demo_records_two in Hw.
    destruct (decide (gid = 0)) as [->|H0].
    + rewrite lookup_insert_eq in Hw. destruct Hc as [->|[->| ->]]; [lia|exact Hw|exact Hw].
    + rewrite lookup_insert_ne in Hw by done. apply lookup_singleton_Some in Hw as [<- <-]. destruct Hc as [->|[->| ->]]; [lia|lia|done].
Qed.

Lemma demo_first : exists t, decode_record (demo_raw 7 1 (demo_text 3)) = Ok t /\ d_event_type t = demo_text 3.
Proof. eexists. split; by vm_compute. Qed.

Lemma subscription_misses_nothing_witness :
  exists r, decode_record (demo_raw 7 2 (demo_text 3)) = Ok r /\ d_seq r = 2 /\
    let '(h, hub) := subscribe 7 demo_types ∅ in
    with_shard 0 1 r ∈ [] ++ received h (pb_hub (publisher_poll (demo_at 2 2 2) (mkPub 0 hub ∅))).
Proof.
  assert (exists r, decode_record (demo_raw 7 2 (demo_text 3)) = Ok r /\ d_stream_id r = 7 /\ d_seq r = 2 /\ d_event_type r = demo_text 3) as (r & Hr & Hs & Hq & He)
    by (eexists; split; [by vm_compute|by vm_compute]).
  exists r. split; [exact Hr|]. split; [exact Hq|].
  pose proof (subscription_misses_nothing (demo_records 2) (demo_at 0 0 0) [] 0 demo_types (mkPub 0 ∅ ∅) [demo_at 2 2 2] 1 (demo_raw 7 2 (demo_text 3)) r) as H.
  rewrite Hs, Hq, He in H. cbn [foldl] in H. apply H.
  - rewrite demo_records_two. apply map_Forall_insert_2; [by vm_compute|]. apply map_Forall_singleton. by vm_compute.
  - repeat constructor; apply demo_shows; lia.
  - by vm_compute.
  - by vm_compute.
  - apply Nat.leb_le. by vm_compute.
  - intros g c t Hg Ht Hev. exfalso. rewrite demo_records_two in Hg.
    assert (d_event_type t = demo_text 3) as E; [|rewrite E in Hev; by vm_compute in Hev].
    assert (c = demo_raw 7 1 (demo_text 3) \/ c = demo_raw 7 2 (demo_text 3)) as [-> | ->].
    { destruct (decide (g = 0)) as [->|Hne]; [rewrite lookup_insert_eq in Hg; injection Hg as <-; by left|].
      rewrite lookup_insert_ne in Hg by done. apply lookup_singleton_Some in Hg as [_ <-]. by right. }
    + destruct demo_first as (t0 & H0 & H1). rewrite H0 in Ht. injection Ht as <-. exact H1.
    + rewrite Hr in Ht. injection Ht as <-. exact He.
  - by vm_compute.
  - by vm_compute.
  - exact Hr.
  - by apply elem_of_singleton.
  - by vm_compute.
  - done.
  - by vm_compute.
Defined.
