(* ===== verification/ServiceRun.v ===== *)
(** * Histories of the server

    A primary server as a sequence of requests and clean restarts, and what holds in
    all of them: the quota counts and tombstones in memory are those a fresh scan of
    the log gives, quotas bound what a stream holds, and deleted records stay hidden. *)
From stdpp Require Import base gmap list numbers sorting.
From coqutil Require Import Byte.
From Stdlib Require Import ZArith Lia.
From S2P Require Import Prelude Externals RustStd Shard ByteReader ServerRecord StreamStore Catalog Lifecycle Publisher.
Open Scope Z_scope.

(** ** What a scan of the whole log shows *)

(** A record without its shard. *)
Definition strip (r : DecodedRecord) : DecodedRecord := with_shard 0 0 r.

Lemma tomb_max_strip l st : tomb_max (strip <$> l) st = tomb_max l st.
Proof. unfold tomb_max. induction l as [|r l IH]; [done|]. cbn [fmap list_fmap foldr]. by rewrite IH. Qed.

Lemma sum_bytes_strip l : sum_bytes (strip <$> l) = sum_bytes l.
Proof. unfold sum_bytes. induction l as [|r l IH]; [done|]. cbn [fmap list_fmap foldr]. by rewrite IH. Qed.

Lemma usage_of_strip l : usage_of (strip <$> l) = usage_of l.
Proof. unfold usage_of. by rewrite sum_bytes_strip, length_fmap. Qed.

Lemma live_records_strip l ns st : live_records (strip <$> l) ns st = strip <$> live_records l ns st.
Proof. unfold live_records. rewrite tomb_max_strip. by rewrite (filter_fmap strip). Qed.

(** Two lists of the same records in any order, whatever their shards. *)
Definition same_records (l l' : list DecodedRecord) : Prop := strip <$> l ≡ₚ strip <$> l'.

Lemma same_records_tomb l l' st : same_records l l' -> tomb_max l st = tomb_max l' st.
Proof. intros H. rewrite <- (tomb_max_strip l), <- (tomb_max_strip l'). by apply tomb_max_perm. Qed.

Lemma same_records_usage l l' ns st : same_records l l' -> usage_of (live_records l ns st) = usage_of (live_records l' ns st).
Proof.
  intros H. rewrite <- (usage_of_strip (live_records l ns st)), <- (usage_of_strip (live_records l' ns st)), <- !live_records_strip.
  by apply usage_of_perm, live_records_perm.
Qed.

Lemma decode_all_ok s l :
  Forall (fun gc => is_ok (decode_record gc.2) = true) l ->
  exists rs, decode_all s l = Ok rs /\ strip <$> rs = strip <$> omap (fun gc => ok_of (decode_record gc.2)) l.
Proof.
  induction l as [|[g c] l IH]; intros Hd; [by exists []|]. apply Forall_cons in Hd as [Hc Hd]. destruct (IH Hd) as (rs & Hrs & He).
  cbn [decode_all]. unfold decode_at. cbn [snd] in Hc. destruct (decode_record c) as [r|] eqn:E; [|done]. rewrite Hrs. eexists. split; [done|].
  csimpl. rewrite E. csimpl. by rewrite He.
Qed.

(** A scan over all ids shows the records of the log. *)
Lemma scan_all s to :
  all_decode (st_db s) -> all_committed (st_db s) -> whole (st_db s) ->
  map_Forall (fun gid _ => 0 <= gid < to) (ls_written (st_db s)) ->
  exists rs, scan 0 to s = Ok rs /\ same_records rs (log_records (st_db s)).
Proof.
  intros Hd Hcom Hwh Hto. unfold scan. assert (log_scan (st_db s) 0 to ≡ₚ log_list (st_db s)) as Hp.
  { unfold log_scan. rewrite filter_all; [apply sort_by_key_perm|]. intros [g c] Hin. unfold ascending_list in Hin.
    rewrite sort_by_key_perm in Hin. apply elem_of_map_to_list in Hin.
    split; [by apply (Hto g c)|]. split; [by apply (Hcom g c)|]. rewrite Hwh. apply not_elem_of_empty. }
  destruct (decode_all_ok s (log_scan (st_db s) 0 to)) as (rs & Hrs & He).
  { apply Forall_forall. intros [g c] Hin. rewrite Hp in Hin. apply elem_of_map_to_list in Hin. by apply (Hd g c). }
  exists rs. split; [done|]. unfold same_records. rewrite He. unfold log_records. by rewrite Hp.
Qed.

(** The trackers a scan gives. *)
Lemma trackers_of rs l :
  same_records rs l -> Forall (fun r => 0 <= d_seq r) l ->
  (forall st, cutoff (tomb_rebuild rs) st = tomb_max l st) /\
  (forall ns st, usage (seed_from_records rs (is_live (tomb_rebuild rs))) ns st = usage_of (live_records l ns st)).
Proof.
  intros Hs Hpos. assert (Forall (fun r => 0 <= d_seq r) rs) as Hpos'.
  { apply Forall_forall. intros r Hr. assert (strip r ∈ strip <$> l) as Hin by (unfold same_records in Hs; rewrite <- Hs; by apply list_elem_of_fmap_2).
    apply list_elem_of_fmap in Hin as (r' & Heq & Hr'). rewrite Forall_forall in Hpos. specialize (Hpos r' Hr').
    apply (f_equal d_seq) in Heq. cbn in Heq. lia. }
  assert (forall st, cutoff (tomb_rebuild rs) st = tomb_max rs st) as Hcut by (by apply tomb_rebuild_cutoff).
  split; [intros st; rewrite Hcut; by apply same_records_tomb|].
  intros ns st. rewrite seed_usage, <- (same_records_usage _ _ ns st Hs). f_equal. unfold live_records. apply filter_ext_elem.
  intros r _. unfold is_live. rewrite Hcut, Z.ltb_lt. done.
Qed.

Section Runs.
Context {ext : Externals}.

(** ** Steps *)

(** A clean stop, for any number of shards: the log has all its records, all of them
    committed and durable, and none in a deleted segment. *)
Record clean_stop (s : Service) (d : LogState) (n : Z) : Prop := {
  cl_written : ls_written d = ls_written (st_db (sv_storage s));
  cl_bits : ls_bits d = ls_bits (st_db (sv_storage s));
  cl_shards : shard_bits n = ls_bits d;
  cl_all : all_committed d;
  cl_safe : map_Forall (fun gid _ => durable_at d gid = true) (ls_written d);
  cl_whole : whole d;
}.

(** The scans of the start cover the log: the rebuild of the maps is not skipped, and
    every id is below the least of the shards' committed counts, where the scan for
    tombstones and quotas ends. *)
Definition start_covers (d : LogState) : Prop :=
  (durable_cursor d <> 0 \/ ls_written d = ∅) /\
  map_Forall (fun gid _ => gid < committed_cursor d) (ls_written d).

(** With one shard the start always covers the log. *)
Lemma one_shard_covers s d n co du :
  clean_stop s d n -> gids_ok d -> ls_bits d = 0 -> ls_committed d = [co] -> ls_durable d = [du] -> 0 <= du -> start_covers d.
Proof.
  intros [_ _ _ Hall Hsafe _] Hg Hb Hc Hd H0.
  assert (forall k g, below_cursor [k] 0 g = true -> g < k) as Hlt.
  { intros k g Hs. unfold below_cursor, decode_record_id in Hs. apply Z.ltb_lt in Hs. exact Hs. }
  split.
  - unfold durable_cursor. rewrite Hd. cbn. destruct (decide (du = 0)) as [->|]; [right|by left].
    apply map_empty. intros g. destruct (ls_written d !! g) as [c|] eqn:E; [|done]. exfalso.
    pose proof (Hsafe g c E) as Hs. destruct (Hg g c E) as [Hg0 _].
    unfold durable_at in Hs. rewrite Hb, Hd in Hs. apply Hlt in Hs. lia.
  - intros g c E. pose proof (Hall g c E) as Hs. unfold committed_cursor. rewrite Hc. cbn.
    unfold committed_at in Hs. rewrite Hb, Hc in Hs. by apply Hlt.
Qed.

Inductive svc_step : Service -> Service -> Prop :=
  | svc_append ctx answer r s :
      user_req r -> answer_ok s answer -> seqs_below 1 s -> cat_room (sv_catalog s) ->
      svc_step s (rpc_append ctx true answer r s).2
  | svc_batch ctx answers rs s :
      Forall user_req rs -> answers_ok s answers -> seqs_below (Z.of_nat (length rs)) s -> cat_room (sv_catalog s) ->
      svc_step s (rpc_batch_append ctx true answers rs s).2
  | svc_delete ctx answer ns st s :
      answer_ok s answer -> seqs_below 1 s -> cat_room (sv_catalog s) ->
      svc_step s (rpc_delete_stream ctx true answer ns st s).2
  | svc_read ctx ns st seq s : cat_room (sv_catalog s) -> svc_step s (rpc_read ctx true ns st seq s).2
  | svc_create ctx ns st s : cat_room (sv_catalog s) -> svc_step s (rpc_create_stream ctx true ns st s).2
  | svc_log d s : log_moves (st_db (sv_storage s)) d -> svc_step s (with_storage (with_db d (sv_storage s)) s)
  | svc_publish last hub s :
      svc_step s (with_cutoffs (pb_cutoffs (publisher_poll (sv_storage s) (mkPub last hub (sv_cutoffs s)))) s)
  | svc_restart s d n s' :
      clean_stop s d n -> start_covers d ->
      service_start (storage_new d n) (sv_catfile s) (sv_quotas s) (sv_primary s) = Ok s' -> svc_step s s'.

(** A new server: an empty log and no catalog. *)
Definition svc_initial (s : Service) : Prop :=
  exists n quotas primary,
    service_start (storage_new (mkLog ∅ (repeat 0 (Z.to_nat n)) (repeat 0 (Z.to_nat n)) (shard_bits n)) n) None quotas primary = Ok s.

Definition svc_reachable (s : Service) : Prop := exists s0, svc_initial s0 /\ rtc svc_step s0 s.

(** ** Every step keeps the invariant *)

Lemma service_start_ok st f quotas primary c s :
  store_ok st -> nexts_pos st -> all_decode (st_db st) -> all_committed (st_db st) -> whole (st_db st) -> server_cat_ok (c, f) ->
  map_Forall (fun gid _ => gid < committed_cursor (st_db st)) (ls_written (st_db st)) ->
  (forall r, r ∈ log_records (st_db st) -> 1 <= d_seq r /\ exists nm, stream_info c !! d_stream_id r = Some (d_namespace_id r, nm)) ->
  service_start st f quotas primary = Ok s -> service_ok s /\ sv_storage s = st /\ sv_catalog s = c /\ sv_quotas s = quotas.
Proof.
  intros Hst Hnx Hdec Hall Hwh Hcat Hcom Hns. unfold service_start. destruct (Hcat) as (_ & _ & Ho). cbn [fst snd] in Ho. rewrite Ho. cbn [mbind result_bind].
  assert (map_Forall (fun gid _ => 0 <= gid < committed_gid st) (ls_written (st_db st))) as Hto.
  { intros g x Hg. split; [apply (proj1 Hst g x Hg)|apply (Hcom g x Hg)]. }
  destruct (scan_all st (committed_gid st) Hdec Hall Hwh Hto) as (rs & Hscan & Hsame). rewrite Hscan.
  assert (Forall (fun r => 0 <= d_seq r) (log_records (st_db st))) as Hpos by (apply Forall_forall; intros r Hr; destruct (Hns r Hr); lia).
  destruct (trackers_of rs (log_records (st_db st)) Hsame Hpos) as [Hcut Huse]. intros [= <-]. by split_and!.
Qed.

Lemma initial_ok s : svc_initial s -> service_ok s.
Proof.
  intros (n & quotas & primary & Hs). set (d := mkLog ∅ (repeat 0 (Z.to_nat n)) (repeat 0 (Z.to_nat n)) (shard_bits n)) in *.
  assert (store_ok (storage_new d n) /\ st_db (storage_new d n) = d) as [Hst Hdb].
  { apply storage_new_ok; [apply map_Forall_empty|apply map_Forall_empty|done| |done|by right]. intros g1 g2 r1 r2 Hr1. by apply rec_in_empty in Hr1. }
  apply (service_start_ok _ _ _ _ catalog_empty) in Hs as [? _]; [done|done|apply nexts_pos_new| | | |apply empty_server_ok| |].
  - rewrite Hdb. apply map_Forall_empty.
  - rewrite Hdb. apply map_Forall_empty.
  - by rewrite Hdb.
  - rewrite Hdb. apply map_Forall_empty.
  - rewrite Hdb. intros r (g & Hr)%log_records_elem. by apply rec_in_empty in Hr.
Qed.

Lemma restart_ok s d n s' :
  service_ok s -> clean_stop s d n -> start_covers d -> service_start (storage_new d n) (sv_catfile s) (sv_quotas s) (sv_primary s) = Ok s' ->
  service_ok s' /\ st_db (sv_storage s') = d /\ sv_catalog s' = sv_catalog s /\ sv_quotas s' = sv_quotas s.
Proof.
  intros Hok [Hw Hb Hsh Hall _ Hwh] [Hd Hcom] Hs. destruct (so_store s Hok) as (Hg & _ & _).
  assert (log_records d = log_records (st_db (sv_storage s))) as Hrec by (unfold log_records, log_list; by rewrite Hw).
  assert (gids_ok d) as Hgd by (unfold gids_ok; by rewrite Hw).
  assert (unique_in (log_list d)) as Hu by (unfold log_list; rewrite Hw; apply (store_unique _ (so_store s Hok))).
  destruct (storage_new_ok d n Hgd Hall Hwh Hu Hsh Hd) as [Hst Hdb].
  apply (service_start_ok _ _ _ _ (sv_catalog s)) in Hs as (Hok' & Hst' & Hc' & Hq'); rewrite ?Hdb in *.
  - rewrite Hst'. by split_and!.
  - done.
  - apply nexts_pos_new.
  - unfold all_decode. rewrite Hw. apply (so_dec s Hok).
  - done.
  - done.
  - apply (so_cat s Hok).
  - done.
  - rewrite Hrec. apply (so_ns s Hok).
Qed.

(** ** Quotas *)

(** Each quota of a stream that exists is kept. *)
Definition quotas_hold (s : Service) : Prop :=
  forall q nid sid, q ∈ sv_quotas s -> lookup_ids (sv_catalog s) (q_namespace q) (q_stream q) = Some (nid, sid) ->
    (forall m, max_records q = Some m -> live_count s nid sid <= m) /\ (forall m, max_bytes q = Some m -> live_bytes s nid sid <= m).

(** The limits are of the type the configuration gives them. *)
Definition limits_ok (s : Service) : Prop :=
  forall q, q ∈ sv_quotas s -> (forall m, max_records q = Some m -> in_range 64 m) /\ (forall m, max_bytes q = Some m -> in_range 64 m).

Lemma live_of_stream s nid sid ns st :
  service_ok s -> lookup_ids (sv_catalog s) ns st = None ->
  forall c', cat_ok c' -> namespaces (sv_catalog s) ⊆ namespaces c' -> streams (sv_catalog s) ⊆ streams c' ->
  lookup_ids c' ns st = Some (nid, sid) -> live_records (log_records (st_db (sv_storage s))) nid sid = [].
Proof.
  intros Hok Hnone c' Hc' Hsn Hss Hl. apply live_records_other. intros r Hr Hs Hn. destruct (so_ns s Hok r Hr) as (_ & nm & Hi).
  destruct (so_cat s Hok) as (Hc & _ & _). cbn [fst] in Hc. rewrite Hs, Hn in Hi. apply (co_st _ Hc) in Hi.
  destruct (co_parent _ Hc _ _ _ Hi) as (x & Hx). apply (co_ns _ Hc) in Hx.
  assert (lookup_ids (sv_catalog s) x nm = Some (nid, sid)) as Hold by (unfold lookup_ids; by rewrite Hx, Hi).
  pose proof (lookup_ids_mono _ _ _ _ _ Hsn Hss Hold) as Hnew. destruct (lookup_ids_inj c' _ _ _ _ _ _ _ Hc' Hnew Hl) as [-> ->]. congruence.
Qed.

Lemma resolve_quotas ns st s :
  service_ok s -> cat_room (sv_catalog s) -> limits_ok s -> quotas_hold s -> quotas_hold (svc_resolve true ns st s).2.
Proof.
  intros Hok Hroom Hlim Hq. destruct (so_cat s Hok) as (Hc & _ & _). cbn [fst] in Hc.
  pose proof (resolve_ok true ns st (sv_catalog s) (sv_catfile s) Hc Hroom) as H. unfold svc_resolve.
  destruct (resolve true ns st (sv_catalog s) (sv_catfile s)) as [[r c'] f']. destruct H as (Hc' & _ & Hsn & Hss & _). cbn [snd].
  intros q nid sid Hin Hl. cbn [with_catalog sv_quotas sv_catalog] in *.
  destruct (lookup_ids (sv_catalog s) (q_namespace q) (q_stream q)) as [[n i]|] eqn:E.
  - pose proof (lookup_ids_mono _ _ _ _ _ Hsn Hss E) as E'. rewrite Hl in E'. injection E' as <- <-. by apply Hq.
  - unfold live_count, live_bytes. cbn [with_catalog sv_storage]. rewrite (live_of_stream s nid sid _ _ Hok E c') by done.
    destruct (Hlim q Hin) as [L1 L2]. split; intros m Hm; [destruct (L1 m Hm)|destruct (L2 m Hm)]; done.
Qed.

Lemma check_quota_spec ns st u n b quotas q :
  check_quota ns st u n b quotas = true -> q ∈ quotas -> q_namespace q = ns -> q_stream q = st ->
  (forall m, max_records q = Some m -> u_records u + n <= m) /\ (forall m, max_bytes q = Some m -> u_bytes u + b <= m).
Proof.
  induction quotas as [|q' quotas IH]; intros Hck Hin <- <-; [by apply elem_of_nil in Hin|]. cbn [check_quota] in Hck.
  destruct (_ && _ && _) eqn:E; [done|]. apply elem_of_cons in Hin as [->|Hin]; [|by apply IH].
  rewrite !bool_decide_true in E by done. cbn [andb] in E. apply orb_false_iff in E as [E1 E2].
  split; intros m Hm; unfold over in *; [rewrite Hm in E1; apply Z.ltb_ge in E1|rewrite Hm in E2; apply Z.ltb_ge in E2]; done.
Qed.

(** Growth that was checked keeps the quotas. *)
Lemma grows_quotas ns st nid sid n b s s' :
  service_ok s -> limits_ok s -> quotas_hold s -> same_config s s' -> lookup_ids (sv_catalog s) ns st = Some (nid, sid) ->
  check_quota ns st (usage (sv_usage s) nid sid) n b (sv_quotas s) = true -> grows s s' nid sid n b -> quotas_hold s'.
Proof.
  intros Hok Hlim Hq (Ec & _ & Eq & _) Hl Hck Hg q n' i' Hin Hl'. rewrite Ec in Hl'. rewrite Eq in Hin. specialize (Hg n' i').
  destruct (Hq q n' i' Hin Hl') as [Q1 Q2]. destruct (Hlim q Hin) as [L1 L2]. case_bool_decide as E.
  - injection E as <- <-. destruct (so_cat s Hok) as (Hc & _). cbn [fst] in Hc.
    destruct (lookup_ids_inj _ _ _ _ _ _ _ _ Hc Hl' Hl) as [En Es]. destruct (check_quota_spec _ _ _ _ _ _ q Hck Hin En Es) as [C1 C2].
    rewrite (so_use s Hok) in C1, C2. unfold usage_of in C1, C2. cbn [u_records u_bytes] in C1, C2.
    change (Z.of_nat (length (live_records (log_records (st_db (sv_storage s))) nid sid))) with (live_count s nid sid) in C1.
    change (sum_bytes (live_records (log_records (st_db (sv_storage s))) nid sid)) with (live_bytes s nid sid) in C2.
    split; intros m Hm.
    + specialize (Q1 m Hm). specialize (C1 m Hm). destruct (L1 m Hm). rewrite wrap_small in C1 by (split; unfold live_count in *; lia). lia.
    + specialize (Q2 m Hm). specialize (C2 m Hm). destruct (L2 m Hm). rewrite wrap_small in C2 by (split; [apply sum_bytes_nonneg|lia]). lia.
  - destruct Hg as [-> ->]. done.
Qed.

(** ** All histories *)

Definition svc_inv (s : Service) : Prop := service_ok s /\ limits_ok s /\ quotas_hold s.

Lemma resolve_inv ns st s : svc_inv s -> cat_room (sv_catalog s) -> svc_inv (svc_resolve true ns st s).2.
Proof.
  intros (Hok & Hlim & Hq) Hroom. pose proof (resolve_quotas ns st s Hok Hroom Hlim Hq) as Hq'. pose proof (svc_resolve_ok ns st s Hok Hroom) as H.
  destruct (svc_resolve true ns st s) as [r s1]. destruct H as (Hok1 & _ & E & _). cbn [snd] in *.
  split; [done|]. split; [|done]. unfold limits_ok. rewrite E. exact Hlim.
Qed.

Lemma grown_inv ns st nid sid n b s s' :
  svc_inv s -> service_ok s' -> same_config s s' -> lookup_ids (sv_catalog s) ns st = Some (nid, sid) ->
  check_quota ns st (usage (sv_usage s) nid sid) n b (sv_quotas s) = true -> grows s s' nid sid n b -> svc_inv s'.
Proof.
  intros (Hok & Hlim & Hq) Hok' Hcfg Hl Hck Hg. split; [done|]. split; [|exact (grows_quotas ns st nid sid n b s s' Hok Hlim Hq Hcfg Hl Hck Hg)].
  destruct Hcfg as (_ & _ & E & _). unfold limits_ok. rewrite E. exact Hlim.
Qed.

Lemma append_inv ctx answer r s :
  svc_inv s -> user_req r -> answer_ok s answer -> seqs_below 1 s -> cat_room (sv_catalog s) -> svc_inv (rpc_append ctx true answer r s).2.
Proof.
  intros Hinv [Hr Hev] Ha Hseq Hroom. unfold rpc_append. destruct (require_role ctx Writer); [|done]. destruct (sv_primary s); [|done]. cbn [negb].
  pose proof (resolve_inv (ar_namespace r) (ar_stream r) s Hinv Hroom) as Hinv1. pose proof (svc_resolve_ok (ar_namespace r) (ar_stream r) s (proj1 Hinv) Hroom) as H.
  destruct (svc_resolve true (ar_namespace r) (ar_stream r) s) as [ids s1]. cbn [snd] in Hinv1. destruct H as (Hok1 & Est & _ & _ & _ & _ & Hids).
  destruct ids as [[nid sid]|e]; [|done]. destruct Hids as [Hin Hl]. destruct (check_quota _ _ _ _ _ _) eqn:Eck; [|done]. cbn [negb].
  destruct (append_one_ok answer nid sid r s1 Hok1 Hin Hr Hev) as (Hok2 & Hcfg & Hg & _).
  - unfold answer_ok. by rewrite Est.
  - unfold seqs_below. by rewrite Est.
  - exact (grown_inv _ _ _ _ _ _ _ _ Hinv1 Hok2 Hcfg Hl Eck Hg).
Qed.

Lemma batch_inv ctx answers rs s :
  svc_inv s -> Forall user_req rs -> answers_ok s answers -> seqs_below (Z.of_nat (length rs)) s -> cat_room (sv_catalog s) ->
  svc_inv (rpc_batch_append ctx true answers rs s).2.
Proof.
  intros Hinv Hrs Ha Hseq Hroom. unfold rpc_batch_append. destruct (require_role ctx Writer); [|done]. destruct (sv_primary s); [|done]. cbn [negb].
  destruct rs as [|r0 rest]; [done|]. destruct (forallb _ rest); [|done]. cbn [negb].
  pose proof (resolve_inv (ar_namespace r0) (ar_stream r0) s Hinv Hroom) as Hinv1. pose proof (svc_resolve_ok (ar_namespace r0) (ar_stream r0) s (proj1 Hinv) Hroom) as H.
  destruct (svc_resolve true (ar_namespace r0) (ar_stream r0) s) as [ids s1]. cbn [snd] in Hinv1. destruct H as (Hok1 & Est & _ & _ & _ & _ & Hids).
  destruct ids as [[nid sid]|e]; [|done]. destruct Hids as [Hin Hl]. destruct (check_quota _ _ _ _ _ _) eqn:Eck; [|done]. cbn [negb].
  destruct (append_all_ok answers nid sid (r0 :: rest) s1 Hok1 Hin Hrs) as (Hok2 & Hcfg & Hg).
  - unfold answers_ok. by rewrite Est.
  - unfold seqs_below. by rewrite Est.
  - exact (grown_inv _ _ _ _ _ _ _ _ Hinv1 Hok2 Hcfg Hl Eck Hg).
Qed.

Lemma delete_inv ctx answer ns st s :
  svc_inv s -> answer_ok s answer -> seqs_below 1 s -> cat_room (sv_catalog s) -> svc_inv (rpc_delete_stream ctx true answer ns st s).2.
Proof.
  intros Hinv Ha Hseq Hroom. pose proof (resolve_inv ns st s Hinv Hroom) as (_ & _ & Hq1). pose proof (svc_resolve_ok ns st s (proj1 Hinv) Hroom) as HR.
  destruct Hinv as (Hok & Hlim & Hq). pose proof (delete_ok ctx answer ns st s Hok Hroom Ha Hseq) as H.
  destruct (rpc_delete_stream ctx true answer ns st s) as [a s']. cbn [snd]. destruct H as (Hok' & Eq & Hcat & Hle & _).
  split; [done|]. split; [unfold limits_ok; rewrite Eq; exact Hlim|]. destruct Hcat as [->|Hcat]; [done|].
  destruct (svc_resolve true ns st s) as [r s1]. cbn [snd] in *. destruct HR as (_ & Est & Eq1 & _).
  intros q nid sid Hin Hl. rewrite Hcat in Hl. rewrite Eq, <- Eq1 in Hin. destruct (Hq1 q nid sid Hin Hl) as [Q1 Q2].
  unfold live_count, live_bytes in Q1, Q2. rewrite Est in Q1, Q2. destruct (Hle nid sid) as [L1 L2]. unfold live_count, live_bytes in L1, L2.
  split; intros m Hm; [specialize (Q1 m Hm)|specialize (Q2 m Hm)]; unfold live_count, live_bytes; lia.
Qed.

Lemma rpc_read_state ctx saved ns st seq s : (rpc_read ctx saved ns st seq s).2 = s \/ (rpc_read ctx saved ns st seq s).2 = (svc_resolve saved ns st s).2.
Proof.
  unfold rpc_read. destruct (require_role ctx Reader); [right|by left]. cbn [negb]. destruct (svc_resolve saved ns st s) as [[[n i]|e] s1]; [|done].
  destruct (read i seq (sv_storage s1)) as [[rec|]|]; [|done..]. by destruct (is_live _ _ _).
Qed.

Lemma log_moves_inv d s : svc_inv s -> log_moves (st_db (sv_storage s)) d -> svc_inv (with_storage (with_db d (sv_storage s)) s).
Proof.
  intros (Hok & Hlim & Hq) [Hw Hb]. assert (log_records d = log_records (st_db (sv_storage s))) as Hr by (unfold log_records, log_list; by rewrite Hw).
  split; [|split; [done|]].
  - destruct Hok as [H1 H2 H3 H4 H5 H6 H7]. split; cbn [sv_storage with_storage sv_catalog sv_catfile sv_cutoffs sv_usage with_db st_db]; rewrite ?Hr; try done.
    + by apply store_ok_log.
    + unfold all_decode. by rewrite Hw.
  - unfold quotas_hold, live_count, live_bytes in *. cbn [sv_storage with_storage with_db st_db sv_quotas sv_catalog]. by rewrite Hr.
Qed.

Lemma tombstone_below l r : r ∈ l -> is_tombstone r -> d_seq r <= tomb_max l (d_stream_id r).
Proof.
  intros Hin Ht. unfold tomb_max. induction l as [|x l IH]; [by apply elem_of_nil in Hin|]. cbn [foldr].
  apply elem_of_cons in Hin as [<-|Hin]; [rewrite bool_decide_true by done; lia|]. specialize (IH Hin). case_bool_decide; lia.
Qed.

Lemma publish_all_cutoffs rs p :
  (forall x, x ∈ rs -> is_tombstone x -> 0 <= d_seq x <= cutoff (pb_cutoffs p) (d_stream_id x)) ->
  forall st, cutoff (pb_cutoffs (foldl publish_step p rs)) st = cutoff (pb_cutoffs p) st.
Proof.
  revert p. induction rs as [|x rs IH]; intros p Hx st; [done|]. cbn [foldl].
  assert (forall st, cutoff (pb_cutoffs (publish_step p x)) st = cutoff (pb_cutoffs p) st) as Hstep.
  { intros st'. unfold publish_step. case_bool_decide as E; [|by destruct (is_live _ _ _)]. cbn [pb_cutoffs]. specialize (Hx x ltac:(left) E).
    rewrite cutoff_record by lia. case_bool_decide; [subst; lia|done]. }
  rewrite IH; [apply Hstep|]. intros y Hy Ht. rewrite Hstep. apply Hx; [by right|done].
Qed.

(** The publisher finds no tombstone the tracker does not have. *)
Lemma publish_inv last hub s : svc_inv s -> svc_inv (with_cutoffs (pb_cutoffs (publisher_poll (sv_storage s) (mkPub last hub (sv_cutoffs s)))) s).
Proof.
  intros (Hok & Hlim & Hq). split; [|done]. set (p := mkPub last hub (sv_cutoffs s)).
  assert (forall st, cutoff (pb_cutoffs (publisher_poll (sv_storage s) p)) st = cutoff (sv_cutoffs s) st) as Hcut.
  { intros st. unfold publisher_poll. destruct (_ <=? _); [done|]. destruct (scan _ _ _) as [rs|] eqn:E; [|done]. cbn [pb_cutoffs].
    rewrite publish_all_cutoffs; [done|]. intros x Hx Ht. destruct (proj2 (decode_all_elem _ _ _ E) x Hx) as (g & raw & r & Hin & Hd & ->).
    unfold log_scan, ascending_list in Hin. rewrite list_elem_of_filter, sort_by_key_perm in Hin. destruct Hin as [_ Hin%elem_of_map_to_list].
    assert (r ∈ log_records (st_db (sv_storage s))) as Hr by (apply log_records_elem; exists g; apply rec_in_log; by exists raw).
    cbn [with_shard d_seq d_stream_id p pb_cutoffs]. rewrite (so_cut s Hok). destruct (so_ns s Hok r Hr) as [? _].
    pose proof (tombstone_below _ r Hr Ht). lia. }
  destruct Hok as [H1 H2 H3 H4 H5 H6 H7]. split; cbn [sv_storage with_cutoffs sv_catalog sv_catfile sv_cutoffs sv_usage]; try done.
  intros st. by rewrite Hcut.
Qed.

Lemma svc_step_inv s s' : svc_step s s' -> svc_inv s -> svc_inv s'.
Proof.
  intros Hstep Hinv.
  destruct Hstep as [ctx answer r s Hr Ha Hseq Hroom|ctx answers rs s Hr Ha Hseq Hroom|ctx answer ns st s Ha Hseq Hroom|ctx ns st seq s Hroom
    |ctx ns st s Hroom|d s Hm|last hub s|s d n s' Hcl Hcov Hs].
  - by apply append_inv.
  - by apply batch_inv.
  - by apply delete_inv.
  - destruct (rpc_read_state ctx true ns st seq s) as [->| ->]; [done|by apply resolve_inv].
  - unfold rpc_create_stream. destruct (require_role ctx Admin); [by apply resolve_inv|done].
  - by apply log_moves_inv.
  - by apply publish_inv.
  - destruct Hinv as (Hok & Hlim & Hq). destruct (restart_ok s d n s' Hok Hcl Hcov Hs) as (Hok' & Hdb & Hc & Eq). split; [done|].
    split; [unfold limits_ok; rewrite Eq; exact Hlim|]. unfold quotas_hold, live_count, live_bytes in *. rewrite Eq, Hc, Hdb.
    assert (log_records d = log_records (st_db (sv_storage s))) as -> by (unfold log_records, log_list; by rewrite (cl_written _ _ _ Hcl)). done.
Qed.

(** From a new server whose limits fit their type. *)
Lemma svc_reachable_inv s0 s : svc_initial s0 -> limits_ok s0 -> rtc svc_step s0 s -> svc_inv s.
Proof.
  intros Hi Hlim Hr. assert (svc_inv s0) as H0.
  { split; [by apply initial_ok|]. split; [done|]. destruct Hi as (n & quotas & primary & Hs). injection Hs as <-. intros q nid sid _ Hl. discriminate Hl. }
  clear Hi Hlim. revert H0. induction Hr as [|s1 s2 s3 H12 _ IH]; intros H0; [done|]. apply IH. by eapply svc_step_inv.
Qed.

(** C17: In every history of a primary with any number of shards (appends, batches,
    deletions, reads, polls of the publisher, log movements, restarts), once the log
    has committed what was appended and as long as none of it was deleted, a scan of
    it succeeds, and the quota counts and tombstones kept in memory are exactly those
    that counting the scanned records afresh gives.  The history is one of requests
    handled one at a time that do not use the reserved event type and have metadata
    keys of less than 256 bytes (see [writer_can_delete_stream],
    [undecodable_record_undeletes]), and types and metadata values of less than 65536;
    the catalog file can be written and no counter runs out; a restart follows a clean stop and finds every id
    below the least committed count of a shard, which with one shard is always so
    ([one_shard_covers]) and with several shards is not
    ([sharded_restart_undeletes]). *)
Theorem trackers_match_log (s0 s : Service) (d : LogState) :
  svc_initial s0 -> limits_ok s0 -> rtc svc_step s0 s -> log_moves (st_db (sv_storage s)) d -> all_committed d -> whole d ->
  exists records, scan 0 U64_MAX (with_db d (sv_storage s)) = Ok records /\
    (forall st, cutoff (sv_cutoffs s) st = cutoff (tomb_rebuild records) st) /\
    (forall ns st, usage (sv_usage s) ns st = usage (seed_from_records records (is_live (tomb_rebuild records))) ns st).
Proof.
  intros Hi Hlim Hr Hm Hcom Hwh. destruct (log_moves_inv d s (svc_reachable_inv s0 s Hi Hlim Hr) Hm) as (Hok & _).
  set (s1 := with_storage (with_db d (sv_storage s)) s) in *. change (sv_cutoffs s) with (sv_cutoffs s1). change (sv_usage s) with (sv_usage s1).
  destruct (scan_all (sv_storage s1) U64_MAX (so_dec s1 Hok) Hcom Hwh (proj1 (so_store s1 Hok))) as (rs & Hscan & Hsame). exists rs. split; [done|].
  assert (Forall (fun r => 0 <= d_seq r) (log_records (st_db (sv_storage s1)))) as Hpos
    by (apply Forall_forall; intros r Hx; destruct (so_ns s1 Hok r Hx); lia).
  destruct (trackers_of rs _ Hsame Hpos) as [Hcut Huse]. split.
  - intros st. by rewrite Hcut, (so_cut s1 Hok).
  - intros ns st. by rewrite Huse, (so_use s1 Hok).
Qed.

(** C21: A stream never holds more live records, or more bytes in them, than its
    quotas allow, in every history of a primary with any number of shards in which
    requests are handled one at a time, do not use the reserved event type and have
    metadata keys of less than 256 bytes, types and metadata values of less than 65536,
    in which the catalog file can be written and no counter runs out, and in which a
    restart follows a clean stop and finds every id below the least committed count of a shard: always so with one
    shard ([one_shard_covers]), not with several ([sharded_restart_undeletes]).  (Two
    appends that overlap can exceed a quota, see [overlapping_appends_exceed_quota].) *)
Theorem quotas_bound_streams (s0 s : Service) (q : StreamQuota) (nid sid m : Z) :
  svc_initial s0 -> limits_ok s0 -> rtc svc_step s0 s -> q ∈ sv_quotas s ->
  lookup_ids (sv_catalog s) (q_namespace q) (q_stream q) = Some (nid, sid) ->
  (max_records q = Some m -> live_count s nid sid <= m) /\ (max_bytes q = Some m -> live_bytes s nid sid <= m).
Proof.
  intros Hi Hlim Hr Hq Hl. destruct (svc_reachable_inv s0 s Hi Hlim Hr) as (_ & _ & Hh). destruct (Hh q nid sid Hq Hl) as [H1 H2].
  split; [apply H1|apply H2].
Qed.

(** What a read by a valid name shows. *)
Lemma rpc_read_spec ctx ns st seq s nid sid :
  service_ok s -> cat_room (sv_catalog s) -> require_role ctx Reader = true ->
  validate_namespace_name ns = true -> validate_stream_name st = true -> lookup_ids (sv_catalog s) ns st = Some (nid, sid) ->
  (rpc_read ctx true ns st seq s).1 =
  match read sid seq (sv_storage s) with
  | Err _ => Err Internal
  | Ok None => Ok None
  | Ok (Some rec) => Ok (if tomb_max (log_records (st_db (sv_storage s))) sid <? d_seq rec then Some rec else None)
  end.
Proof.
  intros Hok Hroom Hrole V1 V2 Hl. unfold rpc_read, svc_resolve. rewrite Hrole. cbn [negb].
  pose proof (resolve_ok true ns st (sv_catalog s) (sv_catfile s) (proj1 (so_cat s Hok)) Hroom) as R.
  destruct (resolve true ns st (sv_catalog s) (sv_catfile s)) as [[x c] f]. destruct R as (_ & _ & R1 & R2 & R). rewrite V1, V2 in R.
  destruct R as [(_ & _ & _ & ?)|(_ & (ids & -> & Hids) & _)]; [done|]. rewrite (lookup_ids_mono _ _ _ _ _ R1 R2 Hl) in Hids.
  injection Hids as <-. cbn [with_catalog sv_storage sv_cutoffs].
  destruct (read sid seq (sv_storage s)) as [[rec|]|]; [|done..]. unfold is_live. rewrite (so_cut s Hok). by destruct (_ <? _).
Qed.

(** A record a read shows is a live record of the log. *)
Lemma shown_is_live s gid c r nid :
  service_ok s -> ls_written (st_db (sv_storage s)) !! gid = Some c -> decode_record c = Ok r ->
  tomb_max (log_records (st_db (sv_storage s))) (d_stream_id r) < d_seq r -> ids_in (sv_catalog s) nid (d_stream_id r) ->
  r ∈ live_records (log_records (st_db (sv_storage s))) nid (d_stream_id r).
Proof.
  intros Hok Hw Hd Hlt (_ & _ & nm & Hi). assert (r ∈ log_records (st_db (sv_storage s))) as Hin.
  { apply log_records_elem. exists gid. apply rec_in_log. by exists c. }
  apply list_elem_of_filter. split; [|done]. destruct (so_ns s Hok r Hin) as (_ & nm' & Hi'). rewrite Hi in Hi'. injection Hi' as -> _.
  split; [done|]. split; [|done]. intros Ht. pose proof (tombstone_below _ r Hin Ht). lia.
Qed.

(** C20: Reading a stream by its name shows exactly its durable records above its last
    tombstone that the log's read finds, and right after a deletion that succeeded,
    before anything is appended again, no read of the stream finds a record.  This is
    for histories of a primary with any number of shards in which requests are handled
    one at a time, do not use the reserved event type ([writer_can_delete_stream]) and
    have metadata keys of less than 256 bytes ([undecodable_record_undeletes]), types
    and metadata values of less than 65536, in which the catalog file can be written and
    no counter runs out, and in which a restart follows a clean stop and finds every id below the least committed
    count of a shard: always so with one shard ([one_shard_covers]), not with several
    ([sharded_restart_undeletes]). *)
Theorem deleted_records_stay_hidden (s0 s : Service) (ctx : option (list Role)) (ns st : bytes) (nid sid : Z) :
  svc_initial s0 -> limits_ok s0 -> rtc svc_step s0 s -> cat_room (sv_catalog s) -> require_role ctx Reader = true ->
  validate_namespace_name ns = true -> validate_stream_name st = true -> lookup_ids (sv_catalog s) ns st = Some (nid, sid) ->
  let l := log_records (st_db (sv_storage s)) in
  (forall gid c r, ls_written (st_db (sv_storage s)) !! gid = Some c -> decode_record c = Ok r -> d_stream_id r = sid ->
     durable_at (st_db (sv_storage s)) gid = true -> gid ∉ ls_hidden (st_db (sv_storage s)) gid ->
     (rpc_read ctx true ns st (d_seq r) s).1 =
       Ok (if tomb_max l sid <? d_seq r then Some (with_shard (ls_bits (st_db (sv_storage s))) gid r) else None)) /\
  (forall seq, exists x, (rpc_read ctx true ns st seq s).1 = Ok x /\
     forall rec, x = Some rec -> d_seq rec = seq /\ d_stream_id rec = sid /\ tomb_max l sid < seq) /\
  (forall actx answer k s', answer_ok s answer -> seqs_below 1 s -> rpc_delete_stream actx true answer ns st s = (Ok k, s') ->
     cat_room (sv_catalog s') -> k = u64 (live_count s nid sid) /\ forall seq, (rpc_read ctx true ns st seq s').1 = Ok None).
Proof.
  intros Hi Hlim Hr Hroom Hrole V1 V2 Hl l. destruct (svc_reachable_inv s0 s Hi Hlim Hr) as (Hok & _). split_and!.
  - intros gid c r Hw Hd Hs Hdur Hh. rewrite (rpc_read_spec ctx ns st _ s nid sid) by done. rewrite <- Hs.
    rewrite (read_found (sv_storage s) gid c r (so_store s Hok) Hw Hd Hdur Hh). done.
  - intros seq. rewrite (rpc_read_spec ctx ns st _ s nid sid) by done.
    destruct (read_only_found (sv_storage s) sid seq (so_store s Hok)) as [->|(gid & c & r & -> & _ & _ & _ & H1 & H2)]; [by exists None|].
    eexists. split; [done|]. cbn [with_shard d_seq]. intros rec Hrec. destruct (Z.ltb_spec (tomb_max l sid) (d_seq r)) as [Hlt|]; unfold l in *.
    + rewrite (proj2 (Z.ltb_lt _ _) Hlt) in Hrec. injection Hrec as <-. cbn. subst. done.
    + rewrite (proj2 (Z.ltb_ge _ _)) in Hrec by done. done.
  - intros actx answer k s' Ha Hseq Hdel Hroom'. pose proof (delete_ok actx answer ns st s Hok Hroom Ha Hseq) as H. rewrite Hdel in H.
    destruct H as (Hok' & _ & Hcat & _ & Hk). destruct (Hk k eq_refl) as (n & i & Hl' & Hcnt & ->).
    assert (lookup_ids (sv_catalog s') ns st = Some (nid, sid)) as Hl2.
    { destruct Hcat as [->| ->]; [done|]. unfold svc_resolve.
      pose proof (resolve_ok true ns st (sv_catalog s) (sv_catfile s) (proj1 (so_cat s Hok)) Hroom) as R.
      destruct (resolve true ns st _ _) as [[x c] f]. destruct R as (_ & _ & R1 & R2 & _). by apply (lookup_ids_mono _ _ _ _ _ R1 R2). }
    rewrite Hl' in Hl2. injection Hl2 as -> ->. split; [done|]. intros seq. rewrite (rpc_read_spec ctx ns st _ s' nid sid) by done.
    destruct (read_only_found (sv_storage s') sid seq (so_store s' Hok')) as [->|(gid & c & r & -> & _ & Hd & (Hw & _) & <- & <-)]; [done|].
    cbn [with_shard d_seq]. destruct (Z.ltb_spec (tomb_max (log_records (st_db (sv_storage s'))) (d_stream_id r)) (d_seq r)) as [Hlt|]; [|done]. exfalso.
    destruct (so_cat s' Hok') as (Hc' & Hf' & _). cbn [fst] in *.
    pose proof (shown_is_live s' gid c r nid Hok' Hw Hd Hlt (lookup_ids_in _ _ _ _ _ Hc' Hf' Hl')) as Hin.
    unfold live_count in Hcnt. destruct (live_records _ nid (d_stream_id r)); [by apply elem_of_nil in Hin|cbn [length] in Hcnt; lia].
Qed.

End Runs.

(** ** Where the server falls short *)

#[local] Instance run_demo_externals : Externals := toy.

Definition demo_ns : bytes := nm 97.
Definition demo_st : bytes := nm 120.
Definition demo_req (et : bytes) (md : gmap bytes bytes) : AppendRequest := mkAppendReq demo_ns demo_st et [] md 5 (demo_text 2).
Definition demo_start (d : LogState) (n : Z) (f : option bytes) (quotas : list StreamQuota) : Service :=
  match service_start (storage_new d n) f quotas true with
  | Ok s => s
  | Err _ => mkService (storage_new d n) catalog_empty f quotas true ∅ ∅
  end.
Definition demo_new (quotas : list StreamQuota) : Service := demo_start (mkLog ∅ [0] [0] 0) 1 None quotas.

(** The server after a restart with everything committed and durable. *)
Definition demo_restart (n : Z) (cursors : list Z) (s : Service) : Service :=
  demo_start (mkLog (ls_written (st_db (sv_storage s))) cursors cursors (shard_bits n)) n (sv_catfile s) (sv_quotas s).

Definition demo_durable_log (cursors : list Z) (s : Service) : Service :=
  with_storage (with_db (mkLog (ls_written (st_db (sv_storage s))) cursors cursors (ls_bits (st_db (sv_storage s)))) (sv_storage s)) s.

(** What a read finds: nothing, or the number of the record. *)
Definition demo_found (seq : Z) (s : Service) : option Z :=
  match (rpc_read None true demo_ns demo_st seq s).1 with Ok (Some r) => Some (d_seq r) | _ => None end.

(** The reserved event type is not refused in appends: a writer's record of that type
    is counted and shown as a normal one, but the publisher takes it for a tombstone
    when it is durable, as the next restart does, and the stream is deleted, which only
    an administrator may. *)
Theorem writer_can_delete_stream :
  let writer := Some [Writer] in
  let s := (rpc_append writer true (Some 0) (demo_req (demo_text 3) ∅) (demo_new [])).2 in
  let s := demo_durable_log [2] (rpc_append writer true (Some 1) (demo_req STREAM_DELETED_EVENT ∅) s).2 in
  (rpc_delete_stream writer true (Some 2) demo_ns demo_st s).1 = Err PermissionDenied /\
  demo_found 1 s = Some 1 /\ u_records (usage (sv_usage s) 1 1) = 2 /\
  demo_found 1 (with_cutoffs (pb_cutoffs (publisher_poll (sv_storage s) (mkPub 0 ∅ (sv_cutoffs s)))) s) = None /\
  demo_found 1 (demo_restart 1 [2] s) = None.
Proof. by vm_compute. Qed.

(** A record that does not decode makes the scan at the start fail, and the server
    starts with empty trackers: deleted records are shown again and the quota counts
    are gone. *)
Theorem undecodable_record_undeletes :
  let s := (rpc_append None true (Some 0) (demo_req (demo_text 3) ∅) (demo_new [])).2 in
  let s := (rpc_delete_stream None true (Some 1) demo_ns demo_st s).2 in
  let s := demo_durable_log [3] (rpc_append None true (Some 2) (demo_req (demo_text 3) {[demo_text 256 := []]}) s).2 in
  demo_found 1 s = None /\ demo_found 1 (demo_restart 1 [3] s) = Some 1.
Proof. by vm_compute. Qed.

(** With two shards the scan at the start stops at the least committed count, which
    is not an id: a tombstone above it is not seen and the stream is back. *)
Theorem sharded_restart_undeletes :
  let s := demo_start (mkLog ∅ [0; 0] [0; 0] 1) 2 None [] in
  let s := (rpc_append None true (Some 0) (demo_req (demo_text 3) ∅) s).2 in
  let s := (rpc_append None true (Some 1) (demo_req (demo_text 3) ∅) s).2 in
  let s := (rpc_append None true (Some 2) (demo_req (demo_text 3) ∅) s).2 in
  let s := demo_durable_log [2; 2] (rpc_delete_stream None true (Some 3) demo_ns demo_st s).2 in
  demo_found 1 s = None /\ demo_found 1 (demo_restart 2 [2; 2] s) = Some 1.
Proof. by vm_compute. Qed.

(** The quota is checked before the append and counted after it: two appends that are
    both checked first exceed it. *)
Theorem overlapping_appends_exceed_quota :
  let q := mkQuota demo_ns demo_st (Some 1) None in
  let s := (svc_resolve true demo_ns demo_st (demo_new [q])).2 in
  let check s := check_quota demo_ns demo_st (usage (sv_usage s) 1 1) 1 2 (sv_quotas s) in
  check s = true /\
  let s1 := (append_one (Some 0) 1 1 (demo_req (demo_text 3) ∅) s).2 in
  let s2 := (append_one (Some 1) 1 1 (demo_req (demo_text 3) ∅) s1).2 in
  live_count s2 1 1 = 2.
Proof. by vm_compute. Qed.

(** A batch that fails half way reports an error and keeps the records before it. *)
Theorem failed_batch_keeps_prefix :
  let '(a, s) := rpc_batch_append None true [Some 0; None] [demo_req (demo_text 3) ∅; demo_req (demo_text 3) ∅] (demo_new []) in
  a = Err Internal /\ live_count s 1 1 = 1.
Proof. by vm_compute. Qed.

(** ** Witnesses *)

Definition demo_quota : StreamQuota := mkQuota demo_ns demo_st (Some 1) None.
Definition demo_run : Service := (rpc_append None true (Some 0) (demo_req (demo_text 3) ∅) (demo_new [demo_quota])).2.

Lemma demo_initial : svc_initial (demo_new [demo_quota]).
Proof. by exists 1, [demo_quota], true. Qed.

Lemma demo_limits : limits_ok (demo_new [demo_quota]).
Proof. intros q [->|Hn]%elem_of_cons; [|by apply elem_of_nil in Hn]. split; [intros m [= <-]; by split|done]. Qed.

Lemma demo_steps : rtc svc_step (demo_new [demo_quota]) demo_run.
Proof.
  apply rtc_once. apply svc_append.
  - split; [|done]. split; [by split; vm_compute|by split; vm_compute|by split|apply map_Forall_empty].
  - intros gid [= <-]. by split.
  - intros st. by vm_compute.
  - by split.
Qed.

Definition demo_committed : LogState := mkLog (ls_written (st_db (sv_storage demo_run))) [1] [0] 0.

Lemma trackers_match_log_witness :
  exists records, scan 0 U64_MAX (with_db demo_committed (sv_storage demo_run)) = Ok records /\
    usage (sv_usage demo_run) 1 1 = usage (seed_from_records records (is_live (tomb_rebuild records))) 1 1 /\
    u_records (usage (sv_usage demo_run) 1 1) = 1.
Proof.
  destruct (trackers_match_log (demo_new [demo_quota]) demo_run demo_committed demo_initial demo_limits demo_steps) as (rs & H1 & _ & H2).
  - by split.
  - apply map_Forall_to_list. by vm_compute; repeat constructor.
  - reflexivity.
  - exists rs. split; [exact H1|]. split; [apply H2|by vm_compute].
Defined.

Lemma quotas_bound_streams_witness : live_count demo_run 1 1 = 1 /\ live_count demo_run 1 1 <= 1.
Proof.
  split; [by vm_compute|].
  apply (quotas_bound_streams (demo_new [demo_quota]) demo_run demo_quota 1 1 1 demo_initial demo_limits demo_steps); [left|by vm_compute|done].
Defined.

Lemma deleted_records_stay_hidden_witness :
  (rpc_read None true demo_ns demo_st 1 (rpc_delete_stream None true (Some 1) demo_ns demo_st demo_run).2).1 = Ok None.
Proof.
  destruct (deleted_records_stay_hidden (demo_new [demo_quota]) demo_run None demo_ns demo_st 1 1 demo_initial demo_limits demo_steps) as (_ & _ & H);
    [by split|done|by vm_compute|by vm_compute|by vm_compute|].
  assert ((rpc_delete_stream None true (Some 1) demo_ns demo_st demo_run).1 = Ok 1) as E by (by vm_compute).
  destruct (rpc_delete_stream None true (Some 1) demo_ns demo_st demo_run) as [a s'] eqn:Ed. cbn [fst snd] in *. subst a.
  apply (H None (Some 1) 1 s').
  - intros gid [= <-]. split; by vm_compute.
  - assert (next_seqs (sv_storage demo_run) = {[1 := 2]}) as En by (by vm_compute). intros i. rewrite En.
    destruct (decide (1 = i)) as [<-|Hne]; [by rewrite lookup_singleton_eq|by rewrite lookup_singleton_ne].
  - exact Ed.
  - apply (f_equal (fun x => sv_catalog x.2)) in Ed. cbn [snd] in Ed. rewrite <- Ed. by split; vm_compute.
Defined.
