(* ===== verification/ServerTail.v ===== *)
(** * Streaming reads of the server ([logdbd/src/service.rs])

    [tail] sends a stream's records as they become durable: its loop reads a batch of
    the stream's records from its position, sends the live ones and moves on, or waits
    when there is none.  [scan] sends what the log holds in chunks; [verify_chain]
    looks for gaps.

    One turn of the loop sees one state of the storage and of the tombstones.  Whether
    a heartbeat is due is a parameter of the turn. *)
From stdpp Require Import base gmap list numbers sorting.
From coqutil Require Import Byte.
From Stdlib Require Import ZArith Lia.
From S2P Require Import Prelude RustStd Shard ByteReader ServerRecord StreamStore Lifecycle.
Open Scope Z_scope.

(** ** Tail *)

Record TailResponse := mkTail { tr_records : list DecodedRecord; tr_durable_seq : Z; tr_heartbeat : bool }.

(** How a turn ends: records sent, nothing to send, or an error. *)
Inductive TailTurn :=
  | TSent (resp : TailResponse) (last_seq : Z)
  | TIdle (heartbeat : option TailResponse) (last_seq : Z)
  | TFailed.

(** One turn of [run_tail_loop]. *)
Definition tail_turn (heartbeat_due : bool) (s : Storage) (tombstones : Cutoffs) (stream_id last_seq : Z) (shard_ids : gset Z) (batch_size : nat)
    : TailTurn :=
  let durable := durable_gid s in
  match scan_stream_filtered stream_id last_seq shard_ids (batch_size * 4) s with
  | Err _ => TFailed
  | Ok all =>
      match take batch_size (filter (fun r => is_live tombstones stream_id (d_seq r) = true) all) with
      | [] =>
          let last_seq := match rev all with [] => last_seq | r :: _ => d_seq r + 1 end in
          TIdle (if heartbeat_due then Some (mkTail [] durable true) else None) last_seq
      | r :: rs => TSent (mkTail (r :: rs) durable false) (d_seq (List.last rs r) + 1)
      end
  end.

(** The loop at a storage that does not change: the records sent and the position
    when it waits with nothing scanned; [None] when the turns run out. *)
Fixpoint run_tail_loop (fuel : nat) (s : Storage) (tombstones : Cutoffs) (stream_id last_seq : Z) (shard_ids : gset Z) (batch_size : nat)
    : option (list DecodedRecord * Z) :=
  match fuel with
  | O => None
  | S fuel =>
      match tail_turn true s tombstones stream_id last_seq shard_ids batch_size with
      | TFailed => None
      | TSent resp next => match run_tail_loop fuel s tombstones stream_id next shard_ids batch_size with
                           | Some (rs, p) => Some (tr_records resp ++ rs, p)
                           | None => None
                           end
      | TIdle _ next => if next =? last_seq then Some ([], last_seq)
                        else run_tail_loop fuel s tombstones stream_id next shard_ids batch_size
      end
  end.

(** The position a [tail] request starts at: a consumer that gives no position goes on
    behind its committed offset. *)
Definition tail_from (from_seq : Z) (consumer_group consumer_id : bytes) (committed : Z) : Z :=
  if (from_seq =? 0) && negb (bool_decide (consumer_group = [])) && negb (bool_decide (consumer_id = [])) then
    if 0 <? committed then committed + 1 else 0
  else from_seq.

Definition tail_batch (batch_size : Z) : Z := if batch_size =? 0 then 100 else batch_size.

(** ** Scan and verification *)

(** [slice::chunks]. *)
Fixpoint chunks_fuel {A} (fuel : nat) (n : nat) (l : list A) : list (list A) :=
  match fuel, l with
  | O, _ | _, [] => []
  | S fuel, _ => take n l :: chunks_fuel fuel n (drop n l)
  end.
Definition chunks {A} (n : nat) (l : list A) : list (list A) := chunks_fuel (length l) n l.

Record ScanResponse := mkScanResp { sr_records : list DecodedRecord; sr_next_seq : Z; sr_has_more : bool }.

(** The messages of [scan]: the stream's live records from [from], in chunks. *)
Definition rpc_scan (s : Storage) (tombstones : Cutoffs) (stream_id from limit : Z) : result StorageError (list ScanResponse) :=
  let limit := if limit =? 0 then 10000 else limit in
  all ← scan 0 U64_MAX s;
  let stream_records := filter (fun r => d_stream_id r = stream_id /\ from <= d_seq r /\ is_live tombstones stream_id (d_seq r) = true) all in
  let cs := chunks (Z.to_nat limit) stream_records in
  Ok (imap (fun i c => mkScanResp c (match rev c with [] => 0 | r :: _ => d_seq r end + 1) (bool_decide (i + 1 < length cs)%nat)) cs).

Record VerifyResponse := mkVerify { vr_ok : bool; vr_from : Z; vr_to : Z; vr_error_at : Z }.

Fixpoint verify_loop (stream_id first last expected : Z) (records : list DecodedRecord) : VerifyResponse :=
  match records with
  | [] => mkVerify true first last 0
  | r :: records =>
      if negb (d_stream_id r =? stream_id) then mkVerify false first last (d_seq r)
      else if negb (d_seq r =? expected) then mkVerify false first last expected
      else verify_loop stream_id first last (expected + 1) records
  end.

(** [verify_chain]. *)
Definition verify_chain (s : Storage) (stream_id from to : Z) : result StorageError VerifyResponse :=
  let to := if to =? 0 then U64_MAX else to in
  all ← scan 0 U64_MAX s;
  let records := filter (fun r => d_stream_id r = stream_id /\ from <= d_seq r /\ (to = U64_MAX \/ d_seq r <= to)) all in
  match records with
  | [] => Ok (mkVerify true 0 0 0)
  | r :: rest => Ok (verify_loop stream_id (d_seq r) (d_seq (List.last rest r)) (d_seq r) records)
  end.

Lemma elem_of_take_sub {A} (x : A) n l : x ∈ take n l -> x ∈ l.
Proof. intros (i & Hi & _)%elem_of_take. by eapply list_elem_of_lookup_2. Qed.

(** ** The records a tail has to deliver *)

Section Tail.
Context (s : Storage) (stream_id : Z) (shard_ids : gset Z).

Definition wanted (gid : Z) : bool :=
  bool_decide (shard_ids = ∅) || bool_decide ((decode_record_id gid (st_shard_bits s)).1 ∈ shard_ids).

(** The stream's records of the wanted shards from a position on, ascending. *)
Definition entries_from (p : Z) : list (Z * Z) :=
  filter (fun sg => p <= sg.1 /\ wanted sg.2 = true) (ascending_list (default ∅ (seq_map s !! stream_id))).

Definition readable (sg : Z * Z) : Prop := is_Some (log_read (st_db s) sg.2).

#[local] Instance readable_dec sg : Decision (readable sg).
Proof. unfold readable. apply _. Defined.

(** Of the wanted records, the readable ones come first: records become durable in
    the order of their numbers, and none is gone. *)
Definition in_order : Prop :=
  forall a b, a ∈ entries_from 0 -> b ∈ entries_from 0 -> a.1 < b.1 -> readable b -> readable a.

(** The record an entry stands for. *)
Definition record_of (sg : Z * Z) : option DecodedRecord :=
  c ← log_read (st_db s) sg.2; r ← ok_of (decode_record c); Some (with_shard (st_shard_bits s) sg.2 r).

(** What is left to deliver at a position. *)
Definition due (tombstones : Cutoffs) (p : Z) : list DecodedRecord :=
  filter (fun r => is_live tombstones stream_id (d_seq r) = true) (omap record_of (entries_from p)).

Definition recs (p : Z) : list DecodedRecord := omap (record_of) (entries_from p).

Context (Hok : store_ok s).

Lemma entry_record p q g : (q, g) ∈ entries_from p ->
  exists c r, ls_written (st_db s) !! g = Some c /\ decode_record c = Ok r /\ d_stream_id r = stream_id /\ d_seq r = q /\ p <= q.
Proof.
  unfold entries_from. rewrite list_elem_of_filter. intros [[Hp _] Hin]. unfold ascending_list in Hin. rewrite sort_by_key_perm in Hin.
  apply elem_of_map_to_list in Hin. cbn [fst snd] in *. assert (lookup2 (seq_map s) stream_id q = Some g) as Hl.
  { unfold lookup2. destruct (seq_map s !! stream_id); [exact Hin|]. cbn in Hin. by rewrite lookup_empty in Hin. }
  destruct Hok as (_ & _ & Hm & _). apply Hm in Hl as (r & (c & Hw & Hd)%rec_in_log & Hs & Hq). by exists c, r.
Qed.

Lemma record_of_entry p a : a ∈ entries_from p ->
  (readable a -> exists r, record_of a = Some r /\ d_seq r = a.1) /\ (~ readable a -> record_of a = None).
Proof.
  destruct a as [q g]. intros Hin. destruct (entry_record p q g Hin) as (c & r & Hw & Hd & _ & Hq & _). unfold readable, record_of. cbn [snd fst].
  split.
  - intros [c' Hr]. rewrite Hr. unfold log_read in Hr. destruct (durable_at _ _ && _); [|done]. rewrite Hw in Hr. injection Hr as <-.
    exists (with_shard (st_shard_bits s) g r). cbn. by rewrite Hd.
  - intros Hn. destruct (log_read (st_db s) g) eqn:E; [|done]. exfalso. apply Hn. by eauto.
Qed.

Definition below (a b : Z * Z) : Prop := a.1 < b.1.

Lemma ascending_sorted (m : gmap Z Z) : StronglySorted below (ascending_list m).
Proof.
  assert (NoDup (ascending_list m).*1) as Hnd.
  { unfold ascending_list. rewrite sort_by_key_perm. apply NoDup_fst_map_to_list. }
  pose proof (sort_by_key_sorted fst (map_to_list m)) as Hs. fold (ascending_list m) in Hs.
  induction Hs as [|a l Hs IH Hf]; [constructor|]. cbn in Hnd. apply NoDup_cons in Hnd as [Ha Hnd]. constructor; [by apply IH|].
  apply Forall_forall. intros b Hb. rewrite Forall_forall in Hf. specialize (Hf b Hb). unfold below, key_le in *.
  assert (a.1 <> b.1); [|lia]. intros E. apply Ha. rewrite E. by apply list_elem_of_fmap_2.
Qed.

Lemma entries_sorted p : StronglySorted below (entries_from p).
Proof. apply sorted_filter, ascending_sorted. Qed.

Lemma entries_from_later p p' : p <= p' -> entries_from p' = filter (fun sg => p' <= sg.1) (entries_from p).
Proof.
  intros Hp. unfold entries_from. rewrite list_filter_filter. apply filter_ext_elem. intros a _. split.
  - intros [H1 H2]. split; [done|]. split; [lia|done].
  - intros (H1 & H2 & H3). done.
Qed.

Lemma omap_filter_key p' (l : list (Z * Z)) : (forall a, a ∈ l -> exists p, a ∈ entries_from p) ->
  omap (record_of) (filter (fun sg => p' <= sg.1) l) = filter (fun r => p' <= d_seq r) (omap (record_of) l).
Proof.
  induction l as [|a l IH]; intros Hl; [done|]. destruct (Hl a ltac:(left)) as [p Ha]. specialize (IH (fun x Hx => Hl x (list_elem_of_further _ _ _ Hx))).
  destruct (record_of_entry p a Ha) as [H1 H2]. csimpl. destruct (decide (readable a)) as [Hr|Hr].
  - destruct (H1 Hr) as (r & E & Hq). rewrite E. destruct (decide (p' <= a.1)) as [Hp|Hp].
    + rewrite filter_cons_True by done. csimpl. rewrite E. rewrite filter_cons_True by lia. by rewrite IH.
    + rewrite filter_cons_False by done. rewrite filter_cons_False by lia. done.
  - rewrite (H2 Hr). destruct (decide (p' <= a.1)) as [Hp|Hp].
    + rewrite filter_cons_True by done. csimpl. by rewrite (H2 Hr).
    + by rewrite filter_cons_False.
Qed.

Lemma recs_later p p' : p <= p' -> recs p' = filter (fun r => p' <= d_seq r) (recs p).
Proof. intros Hp. unfold recs. rewrite (entries_from_later p p' Hp). apply omap_filter_key. by eauto. Qed.

Lemma recs_elem p r : r ∈ recs p <-> exists a, a ∈ entries_from p /\ record_of a = Some r.
Proof. unfold recs. by rewrite list_elem_of_omap. Qed.

Lemma recs_seq p a r : a ∈ entries_from p -> record_of a = Some r -> d_seq r = a.1 /\ p <= a.1 /\ readable a.
Proof.
  intros Ha Hr. destruct (record_of_entry p a Ha) as [H1 H2]. destruct (decide (readable a)) as [Hx|Hx]; [|by rewrite (H2 Hx) in Hr].
  destruct (H1 Hx) as (r' & E & Hq). rewrite Hr in E. injection E as <-. split; [done|]. split; [|done]. destruct a as [q g].
  by destruct (entry_record p q g Ha) as (? & ? & _ & _ & _ & _ & ?).
Qed.

Lemma recs_sorted p : StronglySorted (fun a b => d_seq a < d_seq b) (recs p).
Proof.
  unfold recs. enough (forall l, StronglySorted below l -> (forall a, a ∈ l -> a ∈ entries_from p) ->
    StronglySorted (fun a b => d_seq a < d_seq b) (omap record_of l)) as H by (apply H; [apply entries_sorted|done]).
  induction 1 as [|a l Hs IH Hf]; intros Hin; [constructor|].
  csimpl. specialize (IH (fun x Hx => Hin x (list_elem_of_further _ _ _ Hx))).
  destruct (record_of a) as [r|] eqn:E; [|done]. constructor; [done|]. apply Forall_forall. intros r' Hr'.
  apply list_elem_of_omap in Hr' as (b & Hb & Eb). rewrite Forall_forall in Hf. specialize (Hf b Hb). unfold below in Hf.
  destruct (recs_seq p a r (Hin a ltac:(left)) E) as [-> _]. destruct (recs_seq p b r' (Hin b ltac:(by right)) Eb) as [-> _]. done.
Qed.

Context (Horder : in_order).

(** The records a batch reads are the first of those left. *)
Lemma entries_split p : 0 <= p -> exists rd un, entries_from p = rd ++ un /\ Forall readable rd /\ Forall (fun a => ~ readable a) un.
Proof.
  intros Hp. pose proof (entries_sorted p) as Hs. assert (forall a, a ∈ entries_from p -> a ∈ entries_from 0) as Hin.
  { intros a. rewrite (entries_from_later 0 p Hp), list_elem_of_filter. tauto. }
  revert Hs Hin. induction (entries_from p) as [|a l IH]; intros Hs Hin; [by exists [], []|].
  inversion Hs as [|? ? Hs' Hf]; subst. destruct (decide (readable a)) as [Ha|Ha].
  - destruct IH as (rd & un & -> & H1 & H2); [done|intros x Hx; apply Hin; by right|]. exists (a :: rd), un. split; [done|]. split; [by constructor|done].
  - exists [], (a :: l). split; [done|]. split; [constructor|]. constructor; [done|]. apply Forall_forall. intros b Hb Hrb. apply Ha.
    rewrite Forall_forall in Hf. apply (Horder a b); [apply Hin; left|apply Hin; by right|by apply Hf|done].
Qed.

Lemma omap_unreadable p l : (forall a, a ∈ l -> a ∈ entries_from p) -> Forall (fun a => ~ readable a) l -> omap record_of l = [].
Proof.
  intros Hin. induction 1 as [|a l Ha _ IH]; [done|]. csimpl. rewrite (proj2 (record_of_entry p a (Hin a ltac:(left))) Ha).
  apply IH. intros x Hx. apply Hin. by right.
Qed.

Lemma omap_readable_take p n l : (forall a, a ∈ l -> a ∈ entries_from p) -> Forall readable l -> omap record_of (take n l) = take n (omap record_of l).
Proof.
  intros Hin Hf. revert n. induction Hf as [|a l Ha _ IH]; intros [|n]; [done..|]. cbn [take]. csimpl.
  destruct (proj1 (record_of_entry p a (Hin a ltac:(left))) Ha) as (r & -> & _). cbn [take]. f_equal. apply IH. intros x Hx. apply Hin. by right.
Qed.

Lemma omap_take p n : 0 <= p -> omap record_of (take n (entries_from p)) = take n (recs p).
Proof.
  intros Hp. unfold recs. destruct (entries_split p Hp) as (rd & un & E & H1 & H2). rewrite E, take_app, !omap_app.
  assert (forall a, a ∈ rd -> a ∈ entries_from p) as I1 by (intros a Ha; rewrite E; apply elem_of_app; by left).
  assert (forall a, a ∈ un -> a ∈ entries_from p) as I2 by (intros a Ha; rewrite E; apply elem_of_app; by right).
  rewrite (omap_unreadable p un), (omap_unreadable p (take _ un)); try done; [|intros a Ha; exact (I2 a (elem_of_take_sub _ _ _ Ha))|by apply Forall_take].
  rewrite !app_nil_r. by apply (omap_readable_take p).
Qed.

(** What the storage returns to the loop. *)
Lemma scan_filtered_recs p n : 0 <= p -> scan_stream_filtered stream_id p shard_ids n s = Ok (take n (recs p)).
Proof.
  intros Hp. rewrite <- omap_take by done. unfold scan_stream_filtered.
  change (stream_gids stream_id p shard_ids n s) with ((take n (entries_from p)).*2).
  assert (forall a, a ∈ take n (entries_from p) -> a ∈ entries_from p) as Hin by (intros a; apply elem_of_take_sub).
  revert Hin. generalize (take n (entries_from p)). intros l. induction l as [|a l IH]; intros Hin; [done|].
  csimpl. specialize (IH (fun x Hx => Hin x (list_elem_of_further _ _ _ Hx))). destruct a as [q g].
  destruct (entry_record p q g (Hin _ ltac:(left))) as (c & r & Hw & Hd & _). unfold record_of. cbn [snd].
  destruct (log_read (st_db s) g) as [c'|] eqn:E; cbn [mbind option_bind]; [|exact IH].
  unfold log_read in E. destruct (durable_at _ _ && _); [|done]. rewrite Hw in E. injection E as <-. cbn [decode_all]. unfold decode_at. rewrite Hd.
  cbn [mbind result_bind]. rewrite IH. done.
Qed.

(** A turn takes the due records from the front. *)
Lemma sorted_split_filter l x y (b : Z) :
  StronglySorted (fun a b => d_seq a < d_seq b) l -> l = x ++ y -> (forall r, r ∈ x -> d_seq r < b) -> (exists r, r ∈ x /\ d_seq r = b - 1) ->
  filter (fun r => b <= d_seq r) l = y.
Proof.
  intros Hs -> Hx (r0 & Hr0 & Hb). rewrite filter_app, filter_nothing by (intros r Hr; specialize (Hx r Hr); lia). cbn [app].
  apply filter_all. intros r Hr. apply StronglySorted_app in Hs as (Hs & _ & _). specialize (Hs r0 r Hr0 Hr). cbn in Hs. lia.
Qed.

Lemma sorted_last l r rs :
  StronglySorted (fun a b => d_seq a < d_seq b) l -> l = r :: rs -> forall x, x ∈ l -> d_seq x <= d_seq (List.last rs r).
Proof.
  intros Hs ->. revert r Hs. induction rs as [|y rs IH]; intros r Hs x Hx.
  - apply list_elem_of_singleton in Hx as ->. cbn. lia.
  - rewrite last_cons_default. inversion Hs as [|? ? Hs' Hf]; subst. apply elem_of_cons in Hx as [->|Hx]; [|by apply IH].
    rewrite Forall_forall in Hf. specialize (Hf (List.last rs y) (last_elem y rs)). cbn in Hf. lia.
Qed.

Lemma recs_shrink p p' : p <= p' -> (exists r, r ∈ recs p /\ d_seq r < p') -> (length (recs p') < length (recs p))%nat.
Proof.
  intros Hp (r & Hr & Hlt). rewrite (recs_later p p' Hp). apply list_elem_of_split in Hr as (l1 & l2 & ->).
  rewrite filter_app, filter_cons_False by lia. rewrite !length_app. cbn [length].
  pose proof (length_filter (fun r => p' <= d_seq r) l1). pose proof (length_filter (fun r => p' <= d_seq r) l2). lia.
Qed.

Lemma take_prefix {A} (P : A -> Prop) `{!forall x, Decision (P x)} n b (l : list A) :
  exists y, filter P l = take b (filter P (take n l)) ++ y.
Proof.
  exists (drop b (filter P (take n l)) ++ filter P (drop n l)). rewrite app_assoc, take_drop, <- filter_app, take_drop. done.
Qed.

(** One turn: what it sends comes first in what is due, and the rest is due at the
    new position; or nothing is readable. *)
Lemma tail_turn_spec hb tombs p batch :
  0 <= p -> (0 < batch)%nat ->
  match tail_turn hb s tombs stream_id p shard_ids batch with
  | TFailed => False
  | TSent resp next => due tombs p = tr_records resp ++ due tombs next /\ p < next /\ exists r, r ∈ recs p /\ d_seq r = next - 1
  | TIdle _ next => (next = p /\ recs p = []) \/
      (due tombs p = due tombs next /\ p < next /\ exists r, r ∈ recs p /\ d_seq r = next - 1)
  end.
Proof.
  intros Hp Hb. unfold tail_turn. rewrite scan_filtered_recs by done.
  assert (forall r, r ∈ recs p -> p <= d_seq r) as Hge.
  { intros r (a & Ha & E)%recs_elem. destruct (recs_seq p a r Ha E) as (-> & ? & _). done. }
  set (P := fun r => is_live tombs stream_id (d_seq r) = true).
  assert (forall next, p <= next -> due tombs next = filter P (filter (fun r => next <= d_seq r) (recs p))) as Hdue.
  { intros next Hn. unfold due. fold (recs next). by rewrite (recs_later p next Hn). }
  change (due tombs p) with (filter P (recs p)). pose proof (recs_sorted p) as Hsort.
  destruct (take batch (filter P (take (batch * 4) (recs p)))) as [|r rs] eqn:Et.
  - assert (filter P (take (batch * 4) (recs p)) = []) as Hnone by (destruct (filter P (take (batch * 4) (recs p))), batch; (done || lia)).
    destruct (rev (take (batch * 4) (recs p))) as [|r l] eqn:Er; apply (f_equal (@rev _)) in Er; rewrite rev_involutive in Er; cbn [rev] in Er.
    + left. split; [done|]. destruct (recs p), batch; (done || lia).
    + right. assert (r ∈ recs p) as Hin by (apply (elem_of_take_sub _ (batch * 4)); rewrite Er; apply elem_of_app; right; by left).
      specialize (Hge r Hin) as Hr. split; [|split; [lia|exists r; split; [done|lia]]]. rewrite Hdue by lia.
      rewrite (sorted_split_filter _ (rev l ++ [r]) (drop (batch * 4) (recs p)) _ Hsort).
      * rewrite <- (take_drop (batch * 4) (recs p)) at 1. by rewrite filter_app, Hnone.
      * by rewrite <- Er, take_drop.
      * rewrite <- (take_drop (batch * 4)), Er in Hsort. apply StronglySorted_app in Hsort as (_ & Hs & _). apply StronglySorted_app in Hs as (Hs & _ & _).
        intros x [Hx|Hx%list_elem_of_singleton]%elem_of_app; [|subst; lia]. specialize (Hs x r Hx ltac:(by left)). cbn in Hs. lia.
      * exists r. split; [apply elem_of_app; right; by left|lia].
  - destruct (take_prefix P (batch * 4) batch (recs p)) as [y Hy]. rewrite Et in Hy.
    assert (StronglySorted (fun a b => d_seq a < d_seq b) (filter P (recs p))) as HsP by (by apply sorted_filter).
    assert (StronglySorted (fun a b => d_seq a < d_seq b) (r :: rs)) as Hsr by (rewrite Hy in HsP; by apply StronglySorted_app in HsP as (_ & ? & _)).
    assert (List.last rs r ∈ recs p) as Hin.
    { assert (List.last rs r ∈ filter P (recs p)) as Hx by (rewrite Hy; apply elem_of_app; left; apply last_elem). apply list_elem_of_filter in Hx as [_ Hx]. exact Hx. }
    specialize (Hge _ Hin) as Hr. split; [|split; [lia|exists (List.last rs r); split; [done|lia]]]. rewrite Hdue by lia. cbn [tr_records].
    rewrite Hy. f_equal. rewrite list_filter_filter.
    rewrite (filter_ext_elem _ (fun x => d_seq (List.last rs r) + 1 <= d_seq x /\ P x)) by (intros; tauto). rewrite <- list_filter_filter. symmetry.
    eapply (sorted_split_filter _ (r :: rs)); [done|done| |exists (List.last rs r); split; [apply last_elem|lia]].
    intros x Hx. pose proof (sorted_last (r :: rs) r rs Hsr eq_refl x Hx). lia.
Qed.

Lemma run_tail_loop_spec tombs batch fuel : (0 < batch)%nat -> forall p, 0 <= p -> (length (recs p) < fuel)%nat ->
  exists p', run_tail_loop fuel s tombs stream_id p shard_ids batch = Some (due tombs p, p') /\ p <= p' /\ recs p' = [] /\
    (p' = p \/ exists r, r ∈ recs p /\ d_seq r = p' - 1).
Proof.
  intros Hb. induction fuel as [|fuel IH]; intros p Hp Hf; [lia|]. cbn [run_tail_loop]. pose proof (tail_turn_spec true tombs p batch Hp Hb) as H.
  assert (forall next, p < next -> (exists r, r ∈ recs p /\ d_seq r = next - 1) ->
    exists p', run_tail_loop fuel s tombs stream_id next shard_ids batch = Some (due tombs next, p') /\ next <= p' /\ recs p' = [] /\
      exists r, r ∈ recs p /\ d_seq r = p' - 1) as Hstep.
  { intros next Hn (r & Hr & Hs). destruct (IH next) as (p' & H1 & H2 & H3 & H4); [lia| |].
    - pose proof (recs_shrink p next ltac:(lia)) as Hsh. specialize (Hsh ltac:(exists r; split; [done|lia])). lia.
    - exists p'. split_and!; try done. destruct H4 as [->|(r' & Hr' & ?)]; [by exists r|]. exists r'. split; [|done].
      rewrite (recs_later p next) in Hr' by lia. apply list_elem_of_filter in Hr' as [_ Hr']. exact Hr'. }
  destruct (tail_turn true s tombs stream_id p shard_ids batch) as [resp next|hb next|]; [| |done].
  - destruct H as (Hd & Hn & Hr). destruct (Hstep next Hn Hr) as (p' & -> & H2 & H3 & H4). exists p'. rewrite Hd. split_and!; try done; [lia|by right].
  - destruct H as [[-> He]|(Hd & Hn & Hr)].
    + rewrite Z.eqb_refl. exists p. split_and!; try done; [|by left]. unfold due. fold (recs p). by rewrite He.
    + rewrite (proj2 (Z.eqb_neq _ _)) by lia. destruct (Hstep next Hn Hr) as (p' & -> & H2 & H3 & H4). exists p'. rewrite Hd. split_and!; try done; [lia|by right].
Qed.

End Tail.

(** ** Chunks *)

Lemma chunks_concat_fuel {A} fuel n (l : list A) : (0 < n)%nat -> (length l <= fuel)%nat -> concat (chunks_fuel fuel n l) = l.
Proof.
  intros Hn. revert l. induction fuel as [|fuel IH]; intros [|x l] Hf; cbn [length] in *; [done|lia|done|].
  cbn [chunks_fuel concat]. rewrite IH by (rewrite length_drop; cbn [length]; lia). apply take_drop.
Qed.

Lemma chunks_concat {A} n (l : list A) : (0 < n)%nat -> concat (chunks n l) = l.
Proof. intros Hn. by apply chunks_concat_fuel. Qed.

Lemma concat_imap_records cs (f : nat -> list DecodedRecord -> ScanResponse) :
  (forall i c, sr_records (f i c) = c) -> concat (sr_records <$> imap f cs) = concat cs.
Proof.
  revert f. induction cs as [|c cs IH]; intros f Hf; [done|]. rewrite imap_cons. csimpl. rewrite Hf. f_equal. apply (IH (f ∘ S)). intros i c'. apply Hf.
Qed.

Lemma verify_loop_spec sid first lst e l :
  Forall (fun r => d_stream_id r = sid) l ->
  vr_ok (verify_loop sid first lst e l) = bool_decide (d_seq <$> l = seqZ e (Z.of_nat (length l))).
Proof.
  revert e. induction l as [|r l IH]; intros e Hf; [done|]. apply Forall_cons in Hf as [Hs Hf]. cbn [verify_loop]. rewrite Hs, Z.eqb_refl. cbn [negb].
  cbn [length]. rewrite (seqZ_cons e) by lia. replace (Z.pred (Z.of_nat (S (length l)))) with (Z.of_nat (length l)) by lia. csimpl.
  destruct (Z.eqb_spec (d_seq r) e) as [->|Hne]; cbn [negb].
  - rewrite IH by done. replace (e + 1) with (Z.succ e) by lia. apply bool_decide_ext. split; [by intros ->|by intros [= ?]].
  - cbn [vr_ok]. symmetry. apply bool_decide_false. by intros [= ? _].
Qed.

(** C26: A tail at a storage that does not change sends exactly the stream's live
    readable records of the wanted shards from its position on, in the order of their
    numbers and each once, and then waits at a position that has every readable record
    behind it and every other one before it, so that none is ever skipped.  This is
    for a storage whose maps are those of the records of its log that decode, and for
    a stream of which the readable records come before all others: they became durable
    in the order of their numbers, as they do within one shard, and none of them is
    gone.  (A record whose metadata key is too long does not decode and makes a tail
    fail, see [long_key_fails_tail]; behind deleted records a tail waits forever, see
    [deleted_prefix_stalls_tail].) *)
Theorem tail_delivers_in_order (s : Storage) (stream_id p : Z) (shard_ids : gset Z) (tombs : Cutoffs) (batch : nat) :
  store_ok s -> in_order s stream_id shard_ids -> 0 <= p -> (0 < batch)%nat ->
  exists fuel p', run_tail_loop fuel s tombs stream_id p shard_ids batch = Some (due s stream_id shard_ids tombs p, p') /\ p <= p' /\
    forall a, a ∈ entries_from s stream_id shard_ids p -> readable s a <-> a.1 < p'.
Proof.
  intros Hok Ho Hp Hb. exists (S (length (recs s stream_id shard_ids p))).
  destruct (run_tail_loop_spec s stream_id shard_ids Hok Ho tombs batch _ Hb p Hp (Nat.lt_succ_diag_r _)) as (p' & H1 & H2 & H3 & H4).
  exists p'. split; [done|]. split; [done|]. intros a Ha. split.
  - intros Hr. destruct (decide (a.1 < p')) as [|Hge]; [done|]. exfalso.
    destruct (proj1 (record_of_entry s stream_id shard_ids Hok p a Ha) Hr) as (r & E & Hq).
    assert (r ∈ recs s stream_id shard_ids p') as Hin; [|rewrite H3 in Hin; by apply elem_of_nil in Hin].
    rewrite (recs_later s stream_id shard_ids Hok p p' H2). apply list_elem_of_filter. split; [lia|]. apply recs_elem. by exists a.
  - intros Hlt. destruct H4 as [->|(r & Hr & Hq)].
    { destruct a as [q g]. destruct (entry_record s stream_id shard_ids Hok p q g Ha) as (? & ? & _ & _ & _ & _ & ?). cbn in Hlt. lia. }
    apply recs_elem in Hr as (b & Hb' & E). destruct (recs_seq s stream_id shard_ids Hok p b r Hb' E) as (Hqb & _ & Hrb).
    destruct (decide (a.1 = b.1)) as [Heq|Hne].
    + assert (a = b) as ->; [|done]. eapply (sorted_inj fst); [|exact Ha|exact Hb'|exact Heq]. apply (entries_sorted s stream_id shard_ids p).
    + assert (forall x, x ∈ entries_from s stream_id shard_ids p -> x ∈ entries_from s stream_id shard_ids 0) as Hsub.
      { intros x. rewrite (entries_from_later s stream_id shard_ids 0 p Hp), list_elem_of_filter. tauto. }
      apply (Ho a b (Hsub a Ha) (Hsub b Hb')); [lia|done].
Qed.

(** [scan] sends every live record of the stream from the given number on, once. *)
Theorem scan_sends_all (s : Storage) (tombs : Cutoffs) (stream_id from limit : Z) (all : list DecodedRecord) :
  0 <= limit -> scan 0 U64_MAX s = Ok all ->
  exists out, rpc_scan s tombs stream_id from limit = Ok out /\
    concat (sr_records <$> out) =
    filter (fun r => d_stream_id r = stream_id /\ from <= d_seq r /\ is_live tombs stream_id (d_seq r) = true) all.
Proof.
  intros Hl Hs. unfold rpc_scan. rewrite Hs. cbn [mbind result_bind]. eexists. split; [done|].
  rewrite concat_imap_records by done. apply chunks_concat. destruct (Z.eqb_spec limit 0); lia.
Qed.

(** [verify_chain] says ok exactly when the stream's numbers follow one another in
    the order of the scan. *)
Theorem verify_chain_finds_gaps (s : Storage) (stream_id from : Z) (all : list DecodedRecord) :
  scan 0 U64_MAX s = Ok all ->
  let records := filter (fun r => d_stream_id r = stream_id /\ from <= d_seq r) all in
  exists v, verify_chain s stream_id from 0 = Ok v /\
    vr_ok v = bool_decide (d_seq <$> records = seqZ (default 0 (d_seq <$> head records)) (Z.of_nat (length records))).
Proof.
  intros Hs records. unfold verify_chain. rewrite Hs. cbn [mbind result_bind Z.eqb].
  rewrite (filter_ext_elem _ (fun r => d_stream_id r = stream_id /\ from <= d_seq r)) by (intros x _; split; [tauto|intros [? ?]; split_and!; [done|done|by left]]).
  fold records. assert (Forall (fun r => d_stream_id r = stream_id) records) as Hf by (apply Forall_forall; intros x Hx%list_elem_of_filter; tauto).
  destruct records as [|r rest]; eexists; (split; [done|]); [done|]. by apply verify_loop_spec.
Qed.

(** ** Where streaming falls short *)

Definition two_shards (durable : list Z) : Storage :=
  let s := storage_new (mkLog ∅ [0; 0] [0; 0] 1) 2 in
  let s := (append (Some 1) 1 7 (demo_text 3) (demo_text 1) [] 5 [] s).2 in
  let s := (append (Some 0) 1 7 (demo_text 3) (demo_text 1) [] 5 [] s).2 in
  with_db (mkLog (ls_written (st_db s)) durable durable 1) s.

(** A stream's records lie in several shards, which become durable at their own pace:
    the tail sends number 2 before number 1 is durable, moves past both, and never
    sends number 1. *)
Theorem tail_skips_slower_shard :
  match run_tail_loop 5 (two_shards [1; 0]) ∅ 7 0 ∅ 10 with
  | Some (rs, p) => d_seq <$> rs = [2] /\ p = 3 /\
      match run_tail_loop 5 (two_shards [1; 1]) ∅ 7 p ∅ 10 with
      | Some (rs, p) => rs = [] /\ p = 3
      | None => False
      end
  | None => False
  end.
Proof. by vm_compute. Qed.

(** A record with a metadata key of 256 bytes is stored so that it does not decode:
    a tail that comes to it fails, and so does every tail after it. *)
Theorem long_key_fails_tail :
  let s := (append (Some 0) 1 7 (demo_text 3) (demo_text 1) [(demo_text 256, [])] 5 [] (storage_new (mkLog ∅ [0] [0] 0) 1)).2 in
  let s := with_db (mkLog (ls_written (st_db s)) [1] [1] 0) s in
  tail_turn false s ∅ 7 0 ∅ 10 = TFailed.
Proof. by vm_compute. Qed.

(** When the segments of a stream's first records are deleted while the server runs,
    a tail that starts before them reads its batches at entries the log no longer
    finds, and waits for ever although later records are readable. *)
Theorem deleted_prefix_stalls_tail :
  let add gid s := (append (Some gid) 1 7 (demo_text 3) (demo_text 1) [] 5 [] s).2 in
  let s := foldl (fun s gid => add gid s) (storage_new (mkLog ∅ [0] [0] 0) 1) (seqZ 0 5) in
  let s := with_db (mkLogState (ls_written (st_db s)) [5] [5] 0 (fun _ => {[0; 1; 2; 3]})) s in
  (exists r, read 7 5 s = Ok (Some r)) /\
  match tail_turn false s ∅ 7 0 ∅ 1 with TIdle _ p => p = 0 | _ => False end.
Proof. split; [eexists; by vm_compute|by vm_compute]. Qed.

(** The scan is in the order of ids: with several shards a chunk's [next_seq] lies
    behind records that were not sent yet, so a client that resumes there misses them. *)
Theorem scan_next_seq_skips :
  match rpc_scan (two_shards [1; 1]) ∅ 7 0 1 with
  | Ok (c :: _) => d_seq <$> sr_records c = [2] /\ sr_has_more c = true /\ rpc_scan (two_shards [1; 1]) ∅ 7 (sr_next_seq c) 1 = Ok []
  | _ => False
  end.
Proof. by vm_compute. Qed.

(** For the same reason an intact stream over two shards is reported as broken. *)
Theorem verify_chain_false_alarm : verify_chain (two_shards [1; 1]) 7 0 0 = Ok (mkVerify false 2 1 3).
Proof. by vm_compute. Qed.

(** ** Witness *)

Lemma tail_delivers_in_order_witness :
  exists fuel p', run_tail_loop fuel demo_durable ∅ 7 0 ∅ 10 = Some (due demo_durable 7 ∅ ∅ 0, p') /\ d_seq <$> due demo_durable 7 ∅ ∅ 0 = [1].
Proof.
  assert (store_ok demo_durable) as Hok by (apply (store_reachable_ok _ demo_durable_reachable)).
  destruct (tail_delivers_in_order demo_durable 7 0 ∅ ∅ 10 Hok) as (fuel & p' & H & _).
  - intros a b Ha _ _ _. assert (entries_from demo_durable 7 ∅ 0 = [(1, 0)]) as E by (by vm_compute). rewrite E in Ha.
    apply list_elem_of_singleton in Ha as ->. eexists. by vm_compute.
  - done.
  - lia.
  - exists fuel, p'. split; [exact H|by vm_compute].
Defined.
