(* ===== verification/ServerOffsets.v ===== *)
(** * Consumer offsets of the server ([logdbd/src/offsets.rs], [consumer.rs])

    The offsets consumers commit live in memory and are written to one file by a
    background thread and at shutdown.  A flush takes a copy and marks the tracker
    clean in one critical section, and writes the file after it; a commit in between
    marks it dirty again.

    Whether the file can be written is a parameter of the second half of a flush. *)
From stdpp Require Import base gmap list numbers.
From coqutil Require Import Byte.
From Stdlib Require Import ZArith Lia.
From S2P Require Import Prelude ByteReader ServerRecord.
Open Scope Z_scope.

(** namespace, stream, consumer group, consumer id. *)
Abbreviation OffsetKey := (bytes * bytes * bytes * bytes)%type.

Definition OFFSETS_MAGIC : bytes := [Byte.x4c; Byte.x44; Byte.x42; Byte.x4f].
Definition OFFSETS_VERSION : Z := 1.

Inductive OffsetError := BadMagic | UnsupportedVersion (v : Z) | UnexpectedEof | BadUtf8 | StringTooLong (len : Z) | OffIo.

(** ** The file *)

(** [write_str]. *)
Definition write_str (s : bytes) : result OffsetError bytes :=
  if 2 ^ 16 - 1 <? blen s then Err (StringTooLong (blen s)) else Ok (to_le 2 (blen s) ++ s).

Definition encode_entry (e : OffsetKey * Z) : result OffsetError bytes :=
  let '((ns, stream, group, id), seq) := e in
  a ← write_str ns; b ← write_str stream; c ← write_str group; d ← write_str id;
  Ok (a ++ b ++ c ++ d ++ to_le 8 seq).

Fixpoint encode_entries (l : list (OffsetKey * Z)) : result OffsetError bytes :=
  match l with
  | [] => Ok []
  | e :: l => a ← encode_entry e; b ← encode_entries l; Ok (a ++ b)
  end.

(** [encode]. *)
Definition encode_offsets (m : gmap OffsetKey Z) : result OffsetError bytes :=
  b ← encode_entries (map_to_list m);
  Ok (OFFSETS_MAGIC ++ to_le 1 OFFSETS_VERSION ++ to_le 4 (Z.of_nat (size m)) ++ b).

(** [read_str]. *)
Definition off_read_str : Rd OffsetError bytes :=
  len ← rd_le UnexpectedEof 2;
  rd_str UnexpectedEof BadUtf8 len.

Definition read_entry : Rd OffsetError (OffsetKey * Z) :=
  ns ← off_read_str;
  stream ← off_read_str;
  group ← off_read_str;
  id ← off_read_str;
  seq ← rd_le UnexpectedEof 8;
  mret (ns, stream, group, id, seq).

(** [decode]: an empty file is an empty map. *)
Definition decode_offsets (raw : bytes) : result OffsetError (gmap OffsetKey Z) :=
  if bool_decide (raw = []) then Ok ∅
  else if blen raw <? 9 then Err UnexpectedEof
  else if negb (bool_decide (slice raw 0 4 = OFFSETS_MAGIC)) then Err BadMagic
  else if negb (get_le raw 4 1 =? OFFSETS_VERSION) then Err (UnsupportedVersion (get_le raw 4 1))
  else
    match rd_times (Z.to_nat (get_le raw 5 4)) read_entry raw 9 with
    | Ok (l, _) => Ok (insert_all l ∅)
    | Err e => Err e
    end.

(** [load] and [save]; [io] says whether the file operations succeed. *)
Definition load_offsets (file : option bytes) : result OffsetError (gmap OffsetKey Z) :=
  match file with None => Ok ∅ | Some raw => decode_offsets raw end.

Definition save_offsets (io : bool) (m : gmap OffsetKey Z) (file : option bytes) : result OffsetError unit * option bytes :=
  match encode_offsets m with
  | Err e => (Err e, file)
  | Ok raw => if io then (Ok tt, Some raw) else (Err OffIo, file)
  end.

(** ** The tracker *)

Record ConsumerTracker := mkTracker {
  ct_offsets : gmap OffsetKey Z;
  ct_has_dir : bool;
  ct_dirty : bool;
}.

(** [new]: a file that cannot be read leaves the tracker empty. *)
Definition tracker_new (has_dir : bool) (file : option bytes) : ConsumerTracker :=
  mkTracker (if has_dir then match load_offsets file with Ok m => m | Err _ => ∅ end else ∅) has_dir false.

(** [commit], [get] and [list_group]. *)
Definition commit (key : OffsetKey) (seq : Z) (t : ConsumerTracker) : ConsumerTracker :=
  mkTracker (<[key := seq]> (ct_offsets t)) (ct_has_dir t) true.

Definition get (key : OffsetKey) (t : ConsumerTracker) : Z := default 0 (ct_offsets t !! key).

Definition list_group (ns stream group : bytes) (t : ConsumerTracker) : list (bytes * Z) :=
  (fun e => (e.1.2, e.2)) <$> filter (fun e => e.1.1 = (ns, stream, group)) (map_to_list (ct_offsets t)).

(** The critical section of [flush]: [None] when there is nothing to do, else the copy
    to write, if there is a directory. *)
Definition flush_begin (t : ConsumerTracker) : option (option (gmap OffsetKey Z)) * ConsumerTracker :=
  if negb (ct_dirty t) then (None, t)
  else (Some (if ct_has_dir t then Some (ct_offsets t) else None), mkTracker (ct_offsets t) (ct_has_dir t) false).

(** The rest of it: a failed write marks the tracker dirty again. *)
Definition flush_end (io : bool) (snapshot : gmap OffsetKey Z) (t : ConsumerTracker) (file : option bytes)
    : result OffsetError unit * ConsumerTracker * option bytes :=
  match save_offsets io snapshot file with
  | (Ok _, file) => (Ok tt, t, file)
  | (Err e, file) => (Err e, mkTracker (ct_offsets t) (ct_has_dir t) true, file)
  end.

(** [flush] with nothing in between. *)
Definition flush (io : bool) (t : ConsumerTracker) (file : option bytes) : result OffsetError unit * ConsumerTracker * option bytes :=
  match flush_begin t with
  | (None, t) | (Some None, t) => (Ok tt, t, file)
  | (Some (Some snapshot), t) => flush_end io snapshot t file
  end.

(** ** Round trip *)

Definition str_ok (s : bytes) : Prop := utf8_valid s = true /\ blen s < 2 ^ 16.

Definition key_ok (k : OffsetKey) : Prop := let '(a, b, c, d) := k in str_ok a /\ str_ok b /\ str_ok c /\ str_ok d.

(** What the file can hold. *)
Definition offsets_fit (m : gmap OffsetKey Z) : Prop :=
  Z.of_nat (size m) < 2 ^ 32 /\ map_Forall (fun k v => key_ok k /\ in_range 64 v) m.

Lemma parses_off_str s : str_ok s -> exists bs, write_str s = Ok bs /\ parses off_read_str bs s.
Proof.
  intros [H1 H2]. unfold write_str. rewrite (proj2 (Z.ltb_ge _ _)) by lia. eexists. split; [done|]. unfold off_read_str.
  eapply parses_bind; [apply parses_le2; split; [lia|done]|]. by apply parses_str.
Qed.

Lemma parses_entry k v : key_ok k -> in_range 64 v -> exists bs, encode_entry (k, v) = Ok bs /\ parses read_entry bs (k, v).
Proof.
  destruct k as [[[a b] c] d]. intros (Ha & Hb & Hc & Hd) Hv. unfold encode_entry.
  destruct (parses_off_str a Ha) as (ba & -> & Pa), (parses_off_str b Hb) as (bb & -> & Pb), (parses_off_str c Hc) as (bc & -> & Pc), (parses_off_str d Hd) as (bd & -> & Pd).
  eexists. split; [done|]. unfold read_entry. eapply parses_bind; [exact Pa|]. eapply parses_bind; [exact Pb|]. eapply parses_bind; [exact Pc|].
  eapply parses_bind; [exact Pd|]. eapply parses_eq; [|apply app_nil_r]. eapply parses_bind; [by apply parses_le8|]. apply parses_ret.
Qed.

Lemma parses_entries l :
  (forall k v, (k, v) ∈ l -> key_ok k /\ in_range 64 v) -> exists bs, encode_entries l = Ok bs /\ parses (rd_times (length l) read_entry) bs l.
Proof.
  induction l as [|[k v] l IH]; intros Hl; [exists []; split; [done|apply parses_ret]|].
  destruct IH as (bs & E & Hp); [intros k' v' Hin; apply Hl; by right|]. destruct (Hl k v ltac:(left)) as [Hk Hv].
  destruct (parses_entry k v Hk Hv) as (b & Eb & Pb). cbn [encode_entries length]. rewrite Eb. cbn [mbind result_bind]. rewrite E. eexists. split; [done|].
  cbn [rd_times]. apply (parses_bind read_entry (fun a => rd_bind (rd_times (length l) read_entry) (fun l => rd_ret (a :: l))) _ _ (k, v)); [done|].
  eapply parses_eq; [|apply app_nil_r]. apply (parses_bind (rd_times (length l) read_entry) (fun l => rd_ret ((k, v) :: l)) _ _ l); [done|apply parses_ret].
Qed.

Lemma decode_encode_offsets m : offsets_fit m -> exists raw, encode_offsets m = Ok raw /\ decode_offsets raw = Ok m.
Proof.
  intros [Hsz Hf]. destruct (parses_entries (map_to_list m)) as (bs & E & Hp).
  { intros k v Hkv%elem_of_map_to_list. by apply (Hf k v). }
  unfold encode_offsets. rewrite E. eexists. split; [done|]. set (body := to_le 1 OFFSETS_VERSION ++ to_le 4 (Z.of_nat (size m)) ++ bs).
  unfold decode_offsets. rewrite bool_decide_false by done. rewrite (proj2 (Z.ltb_ge _ _)) by (unfold body; rewrite !length_app, !length_to_le; cbn; lia).
  change (slice (OFFSETS_MAGIC ++ body) 0 4) with OFFSETS_MAGIC. change (get_le (OFFSETS_MAGIC ++ body) 4 1) with OFFSETS_VERSION.
  rewrite bool_decide_true, Z.eqb_refl by done. cbn [negb].
  assert (get_le (OFFSETS_MAGIC ++ body) 5 4 = Z.of_nat (size m)) as ->.
  { pose proof (parses_le4 (E := unit) tt (Z.of_nat (size m)) ltac:(split; [lia|done]) (OFFSETS_MAGIC ++ to_le 1 OFFSETS_VERSION) bs) as H.
    unfold rd_le in H. destruct (_ <? _); [done|]. apply Ok_inj in H. apply (f_equal fst) in H. cbn [fst] in H. rewrite <- !app_assoc in H. exact H. }
  rewrite Nat2Z.id. rewrite <- length_map_to_list. specialize (Hp (OFFSETS_MAGIC ++ to_le 1 OFFSETS_VERSION ++ to_le 4 (Z.of_nat (size m))) []).
  rewrite app_nil_r, <- !app_assoc in Hp. change (blen (OFFSETS_MAGIC ++ to_le 1 OFFSETS_VERSION ++ to_le 4 (Z.of_nat (size m)))) with 9 in Hp.
  unfold body. rewrite Hp. f_equal. by apply insert_all_perm.
Qed.

(** ** Histories *)

(** The tracker, the file, and the copy of a flush that is writing. *)
Record OffState := mkOff { of_tracker : ConsumerTracker; of_file : option bytes; of_writing : option (gmap OffsetKey Z) }.

Inductive off_step : OffState -> OffState -> Prop :=
  | off_commit key seq t f w :
      offsets_fit (ct_offsets (commit key seq t)) -> off_step (mkOff t f w) (mkOff (commit key seq t) f w)
  | off_begin t f snap t' :
      flush_begin t = (Some (Some snap), t') -> off_step (mkOff t f None) (mkOff t' f (Some snap))
  | off_end io t f snap :
      off_step (mkOff t f (Some snap)) (mkOff (flush_end io snap t f).1.2 (flush_end io snap t f).2 None)
  | off_restart t f w : off_step (mkOff t f w) (mkOff (tracker_new true f) f None).

Definition off_ok (s : OffState) : Prop :=
  ct_has_dir (of_tracker s) = true /\ offsets_fit (ct_offsets (of_tracker s)) /\
  (forall snap, of_writing s = Some snap -> offsets_fit snap) /\
  (exists m, load_offsets (of_file s) = Ok m /\ offsets_fit m /\ (ct_dirty (of_tracker s) = false -> of_writing s = None -> m = ct_offsets (of_tracker s))) /\
  (ct_dirty (of_tracker s) = false -> forall snap, of_writing s = Some snap -> snap = ct_offsets (of_tracker s)).

Lemma off_step_ok s s' : off_step s s' -> off_ok s -> off_ok s'.
Proof.
  intros Hs (Hd & Hfit & Hw & (m & Hm & Hmf & Hclean) & Hsn). destruct Hs as [key seq t f w Hf|t f snap t' Hb|io t f snap|t f w]; cbn in *.
  - split_and!; try done. by exists m.
  - unfold flush_begin in Hb. destruct (ct_dirty t); [|done]. cbn [negb] in Hb. rewrite Hd in Hb. injection Hb as <- <-. cbn.
    split_and!; try done; [by intros snap [= <-]|by exists m|by intros _ snap [= <-]].
  - unfold flush_end, save_offsets. destruct (decode_encode_offsets snap (Hw snap eq_refl)) as (raw & E & D). rewrite E. destruct io; cbn.
    + split_and!; try done. exists snap. split; [done|]. split; [by apply Hw|]. intros Hcl _. by apply Hsn.
    + split_and!; try done. by exists m.
  - unfold tracker_new. rewrite Hm. split_and!; try done. by exists m.
Qed.

(** Committed offsets survive: in every history of commits, flushes that overlap
    commits or fail, and restarts at any point, a tracker that is clean with no flush
    under way has all its offsets in the file, so that a restart brings back every one
    of them; and what was committed last is what a consumer gets. *)
Theorem flushed_offsets_survive_restart (s : OffState) (key : OffsetKey) :
  rtc off_step (mkOff (tracker_new true None) None None) s ->
  (ct_dirty (of_tracker s) = false -> of_writing s = None ->
     ct_offsets (tracker_new true (of_file s)) = ct_offsets (of_tracker s)) /\
  (forall io t' f', of_writing s = None -> flush io (of_tracker s) (of_file s) = (Ok tt, t', f') ->
     get key (tracker_new true f') = get key (of_tracker s)) /\
  (forall seq, get key (commit key seq (of_tracker s)) = seq).
Proof.
  intros Hr. assert (off_ok s) as Hok.
  { assert (off_ok (mkOff (tracker_new true None) None None)) as H0.
    { split_and!; try done; try apply map_Forall_empty. exists ∅. split; [done|]. split; [split; [done|apply map_Forall_empty]|done]. }
    revert H0. induction Hr as [|s1 s2 s3 H12 _ IH]; intros H0; [done|]. apply IH. by eapply off_step_ok. }
  destruct Hok as (Hd & Hfit & Hw & (m & Hm & Hmf & Hclean) & Hsn). split_and!.
  - intros Hc Hn. unfold tracker_new. rewrite Hm. cbn. by apply Hclean.
  - intros io t' f' Hn. unfold flush, flush_begin. destruct (ct_dirty (of_tracker s)) eqn:Ed; cbn [negb].
    + rewrite Hd. unfold flush_end, save_offsets. destruct (decode_encode_offsets _ Hfit) as (raw & E & D). rewrite E.
      destruct io; [|done]. intros [= <- <-]. unfold tracker_new, load_offsets, get. cbn [ct_offsets]. by rewrite D.
    + intros [= <- <-]. unfold get, tracker_new. rewrite Hm. cbn [ct_offsets]. by rewrite (Hclean eq_refl Hn).
  - intros seq. unfold get, commit. cbn [ct_offsets]. by rewrite lookup_insert_eq.
Qed.

(** The offsets file round-trips: what [encode] writes [decode] reads back, for
    all offsets whose names fit their length fields. *)
Theorem offsets_round_trip (m : gmap OffsetKey Z) :
  offsets_fit m -> exists raw, encode_offsets m = Ok raw /\ decode_offsets raw = Ok m.
Proof. apply decode_encode_offsets. Qed.

(** ** Where the tracker falls short *)

Definition demo_key : OffsetKey := (demo_text 1, demo_text 1, demo_text 1, demo_text 1).
Definition demo_dirty : ConsumerTracker := commit demo_key 5 (tracker_new true None).

(** A flush clears the mark before it has written the file: a second flush, such as
    the one at shutdown, reports success at once while nothing is on disk yet. *)
Theorem overlapping_flush_reports_early :
  let '(b, t) := flush_begin demo_dirty in
  match b with Some (Some snapshot) => snapshot !! demo_key = Some 5 | _ => False end /\
  (flush true t None).1.1 = Ok tt /\ get demo_key (tracker_new true (flush true t None).2) = 0.
Proof. by vm_compute. Qed.

Lemma encode_entries_fail l ns st gr id seq :
  (ns, st, gr, id, seq) ∈ l -> 2 ^ 16 <= blen id -> exists e, encode_entries l = Err e.
Proof.
  intros Hin Hid. induction l as [|x l IH]; [by apply elem_of_nil in Hin|]. cbn [encode_entries]. apply elem_of_cons in Hin as [<-|Hin].
  - assert (write_str id = Err (StringTooLong (blen id))) as E by (unfold write_str; by rewrite (proj2 (Z.ltb_lt _ _)) by lia).
    unfold encode_entry. rewrite E. destruct (write_str ns), (write_str st), (write_str gr); cbn; by eauto.
  - destruct (encode_entry x); cbn; [|by eauto]. destruct (IH Hin) as [e ->]. cbn. by eauto.
Qed.

(** A name longer than its length field is accepted by [commit] and makes every later
    flush fail, for all consumers. *)
Theorem long_name_blocks_flush ns st gr id seq t file :
  2 ^ 16 <= blen id -> ct_has_dir t = true ->
  exists e, flush true (commit (ns, st, gr, id) seq t) file = (Err e, commit (ns, st, gr, id) seq t, file).
Proof.
  intros Hid Hd. unfold flush, flush_begin. cbn [commit ct_dirty ct_has_dir negb]. rewrite Hd. unfold flush_end, save_offsets, encode_offsets.
  destruct (encode_entries_fail (map_to_list (<[(ns, st, gr, id) := seq]> (ct_offsets t))) ns st gr id seq) as [e E]; [|done|].
  - apply elem_of_map_to_list. apply lookup_insert_eq.
  - cbn [commit ct_offsets]. rewrite E. exists e. cbn. unfold commit. by rewrite Hd.
Qed.

(** ** Witnesses *)

Lemma demo_offsets_fit : offsets_fit {[demo_key := 5]}.
Proof. split; [by vm_compute|]. apply map_Forall_singleton. by repeat split. Qed.

Lemma flushed_offsets_survive_restart_witness :
  get demo_key (tracker_new true (flush true demo_dirty None).2) = 5.
Proof.
  assert (rtc off_step (mkOff (tracker_new true None) None None) (mkOff demo_dirty None None)) as Hr.
  { apply rtc_once, off_commit. exact demo_offsets_fit. }
  destruct (flushed_offsets_survive_restart _ demo_key Hr) as (_ & H & _).
  assert ((flush true demo_dirty None).1.1 = Ok tt) as E by (by vm_compute).
  cbn [of_tracker of_file] in H. destruct (flush true demo_dirty None) as [[a t'] f'] eqn:Ef. cbn [fst snd] in *. subst a.
  rewrite (H true t' f' eq_refl Ef). by vm_compute.
Defined.

Lemma offsets_round_trip_witness :
  exists raw, encode_offsets {[demo_key := 5]} = Ok raw /\ decode_offsets raw = Ok {[demo_key := 5]} /\ blen raw = 29.
Proof.
  destruct (offsets_round_trip {[demo_key := 5]} demo_offsets_fit) as (raw & E & D). exists raw. split; [exact E|]. split; [exact D|].
  assert (encode_offsets {[demo_key := 5]} = Ok (OFFSETS_MAGIC ++ to_le 1 1 ++ to_le 4 1 ++ concat (replicate 4 (to_le 2 1 ++ demo_text 1)) ++ to_le 8 5)) as E2 by (by vm_compute).
  rewrite E in E2. apply Ok_inj in E2 as ->. by vm_compute.
Defined.
