(* ===== verification/Query.v ===== *)
(** * Queries over a stream ([logdbd/src/query.rs], the query handler of
    [logdbd/src/service.rs])

    A query filters a stream's records, drops those that have a peer record with the
    same value of a join key, and returns the rest or an aggregate of it. *)
From stdpp Require Import base gmap list numbers sorting.
From coqutil Require Import Byte.
From Stdlib Require Import ZArith Lia.
From S2P Require Import Prelude RustStd Shard ByteReader ServerRecord StreamStore Lifecycle.
Open Scope Z_scope.

(** ** Queries *)

Record MetadataFilter := mkMetaFilter { mf_key : bytes; mf_value : bytes }.
Record AbsentMatch := mkAbsent { peer_event_types : list bytes; join_key : bytes }.
Inductive QueryResult := QRecords | QCount | QExists | QCountDistinct | QMin | QMax | QDistinctValues.

Record Query := mkQuery {
  q_event_types : list bytes;
  q_from_seq : option Z;
  q_to_seq : option Z;
  q_metadata : list MetadataFilter;
  q_result : QueryResult;
  q_aggregate_field : option bytes;
  q_absent : option AbsentMatch;
  q_limit : Z;
  q_descending : bool;
}.

Inductive ResultSet :=
  | RRecords (l : list DecodedRecord)
  | RCount (n : Z)
  | RExists (b : bool)
  | RCountDistinct (n : Z)
  | RMin (n : Z)
  | RMax (n : Z)
  | RDistinctValues (l : list bytes).

(** ** Numbers as text *)

Definition digit (d : Z) : byte := byte.of_Z (48 + d).

(** [u64::to_string]. *)
Fixpoint to_digits (fuel : nat) (n : Z) (acc : bytes) : bytes :=
  match fuel with
  | O => acc
  | S fuel => let acc := digit (n mod 10) :: acc in if n / 10 =? 0 then acc else to_digits fuel (n / 10) acc
  end.
Definition u64_to_string (n : Z) : bytes := to_digits 20 n [].

Fixpoint parse_digits (s : bytes) (acc : Z) : option Z :=
  match s with
  | [] => Some acc
  | b :: s =>
      if byte_in 48 57 b then
        let acc := acc * 10 + (byte.unsigned b - 48) in
        if U64_MAX <? acc then None else parse_digits s acc
      else None
  end.

(** [str::parse::<u64>]: an optional plus sign and at least one digit. *)
Definition parse_u64 (s : bytes) : option Z :=
  match s with
  | [] => None
  | b :: rest => if byte.unsigned b =? 43 then match rest with [] => None | _ => parse_digits rest 0 end else parse_digits s 0
  end.

(** ** The engine *)

Definition matches_event_types (r : DecodedRecord) (event_types : list bytes) : bool :=
  bool_decide (event_types = []) || existsb (fun e => bool_decide (e = d_event_type r)) event_types.

Definition matches_seq_range (r : DecodedRecord) (from to : option Z) : bool :=
  match from with None => true | Some f => f <=? d_seq r end && match to with None => true | Some t => d_seq r <=? t end.

Definition matches_metadata (r : DecodedRecord) (filters : list MetadataFilter) : bool :=
  forallb (fun f => bool_decide (bt_lookup (mf_key f) (d_metadata r) = Some (mf_value f))) filters.

(** [apply_absent]. *)
Definition apply_absent (candidates all_records : list DecodedRecord) (absent : option AbsentMatch) : list DecodedRecord :=
  match absent with
  | None => candidates
  | Some a =>
      let peer_keys : gset bytes :=
        list_to_set (omap (fun r => bt_lookup (join_key a) (d_metadata r))
          (filter (fun r => existsb (fun e => bool_decide (e = d_event_type r)) (peer_event_types a) = true) all_records)) in
      filter (fun r => match bt_lookup (join_key a) (d_metadata r) with Some v => negb (bool_decide (v ∈ peer_keys)) | None => true end = true) candidates
  end.

Definition sort_and_limit (rows : list DecodedRecord) (descending : bool) (limit : Z) : list DecodedRecord :=
  let rows := if descending then sort_by_key (fun r : DecodedRecord => - d_seq r) rows else sort_by_key d_seq rows in
  if (0 <? limit) && (limit <? Z.of_nat (length rows)) then take (Z.to_nat limit) rows else rows.

(** The value of the aggregated field, of the number itself without one. *)
Definition field_value (field : option bytes) (r : DecodedRecord) : option bytes :=
  match field with Some f => bt_lookup f (d_metadata r) | None => Some (u64_to_string (d_seq r)) end.

Fixpoint distinct_loop (vals : list bytes) (seen : gset bytes) : list bytes :=
  match vals with
  | [] => []
  | v :: vals => if bool_decide (v ∈ seen) then distinct_loop vals seen else v :: distinct_loop vals ({[v]} ∪ seen)
  end.

(** [distinct_field_values]. *)
Definition distinct_field_values (records : list DecodedRecord) (field : option bytes) : list bytes :=
  distinct_loop (omap (field_value field) records) ∅.

Definition field_number (field : option bytes) (r : DecodedRecord) : option Z :=
  match field with Some f => v ← bt_lookup f (d_metadata r); parse_u64 v | None => Some (d_seq r) end.

(** [numeric_extremum]. *)
Definition extremum_step (is_min : bool) (best : option Z) (n : Z) : option Z :=
  Some (match best with None => n | Some b => if is_min then Z.min b n else Z.max b n end).
Definition numeric_extremum (records : list DecodedRecord) (field : option bytes) (is_min : bool) : Z :=
  default 0 (foldl (extremum_step is_min) None (omap (field_number field) records)).

(** [execute]. *)
Definition execute (q : Query) (records : list DecodedRecord) : ResultSet :=
  let filtered := filter (fun r => matches_metadata r (q_metadata q) = true)
                    (filter (fun r => matches_seq_range r (q_from_seq q) (q_to_seq q) = true)
                      (filter (fun r => matches_event_types r (q_event_types q) = true) records)) in
  let filtered := apply_absent filtered records (q_absent q) in
  match q_result q with
  | QRecords => RRecords (sort_and_limit filtered (q_descending q) (q_limit q))
  | QCount => RCount (Z.of_nat (length filtered))
  | QExists => RExists (negb (bool_decide (filtered = [])))
  | QCountDistinct => RCountDistinct (Z.of_nat (length (distinct_field_values filtered (q_aggregate_field q))))
  | QDistinctValues =>
      let vals := distinct_field_values filtered (q_aggregate_field q) in
      let vals := if q_descending q then rev vals else vals in
      RDistinctValues (if (0 <? q_limit q) && (q_limit q <? Z.of_nat (length vals)) then take (Z.to_nat (q_limit q)) vals else vals)
  | QMin => RMin (numeric_extremum filtered (q_aggregate_field q) true)
  | QMax => RMax (numeric_extremum filtered (q_aggregate_field q) false)
  end.

(** ** The handler *)

Record QueryRequest := mkQueryReq {
  qr_event_types : list bytes;
  qr_from_seq : option Z;
  qr_to_seq : option Z;
  qr_metadata : list MetadataFilter;
  qr_result : Z;
  qr_aggregate_field : bytes;
  qr_absent : option AbsentMatch;
  qr_limit : Z;
  qr_descending : bool;
}.

(** [build_query]: an unknown result kind means records; a negative limit none. *)
Definition build_query (r : QueryRequest) : Query :=
  mkQuery (qr_event_types r) (qr_from_seq r) (qr_to_seq r) (qr_metadata r)
    (if qr_result r =? 1 then QCount else if qr_result r =? 2 then QCountDistinct else if qr_result r =? 3 then QMin
     else if qr_result r =? 4 then QMax else if qr_result r =? 5 then QExists else if qr_result r =? 6 then QDistinctValues else QRecords)
    (if bool_decide (qr_aggregate_field r = []) then None else Some (qr_aggregate_field r))
    (qr_absent r) (Z.max 0 (qr_limit r)) (qr_descending r).

(** [query], for a stream that is resolved. *)
Definition rpc_query (s : Storage) (tombstones : Cutoffs) (stream_id : Z) (r : QueryRequest) : result StorageError ResultSet :=
  all ← scan 0 (committed_gid s) s;
  Ok (execute (build_query r) (filter (fun rec => d_stream_id rec = stream_id /\ is_live tombstones stream_id (d_seq rec) = true) all)).

(** ** What a query means *)

(** The record passes the filters. *)
Definition passes (q : Query) (r : DecodedRecord) : Prop :=
  (q_event_types q = [] \/ d_event_type r ∈ q_event_types q) /\
  (forall f, q_from_seq q = Some f -> f <= d_seq r) /\ (forall t, q_to_seq q = Some t -> d_seq r <= t) /\
  (forall f, f ∈ q_metadata q -> bt_lookup (mf_key f) (d_metadata r) = Some (mf_value f)).

(** Some record of a peer type has the same value of the join key. *)
Definition has_peer (a : AbsentMatch) (records : list DecodedRecord) (r : DecodedRecord) : Prop :=
  exists p v, p ∈ records /\ d_event_type p ∈ peer_event_types a /\
    bt_lookup (join_key a) (d_metadata p) = Some v /\ bt_lookup (join_key a) (d_metadata r) = Some v.

Definition selected (q : Query) (records : list DecodedRecord) (r : DecodedRecord) : Prop :=
  passes q r /\ forall a, q_absent q = Some a -> ~ has_peer a records r.

Lemma existsb_elem (x : bytes) l : existsb (fun e => bool_decide (e = x)) l = true <-> x ∈ l.
Proof.
  rewrite existsb_exists. setoid_rewrite bool_decide_eq_true. split; [intros (e & Hin & ->); by apply list_elem_of_In|].
  intros Hin. exists x. split; [by apply list_elem_of_In|done].
Qed.

Lemma passes_spec q r :
  passes q r <-> matches_metadata r (q_metadata q) = true /\ matches_seq_range r (q_from_seq q) (q_to_seq q) = true /\ matches_event_types r (q_event_types q) = true.
Proof.
  unfold passes, matches_metadata, matches_seq_range, matches_event_types.
  rewrite orb_true_iff, existsb_elem, bool_decide_eq_true, andb_true_iff, forallb_forall. setoid_rewrite bool_decide_eq_true.
  setoid_rewrite <- list_elem_of_In. split.
  - intros (H1 & H2 & H3 & H4). split; [exact H4|]. split; [|done].
    split; [destruct (q_from_seq q); [apply Z.leb_le; by apply H2|done]|destruct (q_to_seq q); [apply Z.leb_le; by apply H3|done]].
  - intros (H4 & [H2 H3] & H1). split_and!; [done| |by intros t Ht; rewrite Ht in H3; apply Z.leb_le|done].
    intros f Hf. rewrite Hf in H2. by apply Z.leb_le.
Qed.

(** The rows of a query: the records it selects, in the order given. *)
Definition rows (q : Query) (records : list DecodedRecord) : list DecodedRecord :=
  apply_absent (filter (fun r => matches_metadata r (q_metadata q) = true)
                    (filter (fun r => matches_seq_range r (q_from_seq q) (q_to_seq q) = true)
                      (filter (fun r => matches_event_types r (q_event_types q) = true) records))) records (q_absent q).

Lemma absent_spec a candidates records r :
  r ∈ apply_absent candidates records (Some a) <-> r ∈ candidates /\ ~ has_peer a records r.
Proof.
  cbn [apply_absent]. rewrite list_elem_of_filter. unfold has_peer. split.
  - intros [H Hin]. split; [done|]. intros (p & v & Hp & Ht & Hv & Hr). rewrite Hr in H. rewrite negb_true_iff, bool_decide_eq_false in H. apply H. apply elem_of_list_to_set.
    apply list_elem_of_omap. exists p. split; [|done]. apply list_elem_of_filter. split; [by apply existsb_elem|done].
  - intros [Hin H]. split; [|done]. destruct (bt_lookup (join_key a) (d_metadata r)) as [v|]; [|done]. apply negb_true_iff, bool_decide_eq_false. intros Hv. apply H.
    apply elem_of_list_to_set, list_elem_of_omap in Hv as (p & Hp & E). apply list_elem_of_filter in Hp as [Ht Hp].
    exists p, v. split_and!; [done|by apply existsb_elem|done|done].
Qed.

Lemma rows_elem q records r : r ∈ rows q records <-> r ∈ records /\ selected q records r.
Proof.
  unfold rows, selected. rewrite passes_spec. destruct (q_absent q) as [a|].
  - rewrite absent_spec, !list_elem_of_filter. split.
    + intros [(HM & HS & HE & Hin) Hn]. split; [exact Hin|]. split; [exact (conj HM (conj HS HE))|]. intros a' Ha'. injection Ha' as <-. exact Hn.
    + intros (Hin & (HM & HS & HE) & Hn). split; [exact (conj HM (conj HS (conj HE Hin)))|by apply Hn].
  - cbn [apply_absent]. rewrite !list_elem_of_filter. split.
    + intros (HM & HS & HE & Hin). split; [exact Hin|]. split; [exact (conj HM (conj HS HE))|]. intros a Ha. discriminate Ha.
    + intros (Hin & (HM & HS & HE) & _). exact (conj HM (conj HS (conj HE Hin))).
Qed.

(** ** Values *)

Lemma distinct_loop_spec vals seen :
  NoDup (distinct_loop vals seen) /\ forall v, v ∈ distinct_loop vals seen <-> v ∈ vals /\ v ∉ seen.
Proof.
  revert seen. induction vals as [|x vals IH]; intros seen; cbn [distinct_loop].
  - split; [constructor|]. intros v. split; [by intros Hn%elem_of_nil|intros [Hn _]; by apply elem_of_nil in Hn].
  - case_bool_decide as Hx.
    + destruct (IH seen) as [H1 H2]. split; [done|]. intros v. rewrite H2, elem_of_cons. split; [tauto|]. intros [[->|?] ?]; done.
    + destruct (IH ({[x]} ∪ seen)) as [H1 H2]. split.
      * constructor; [|done]. rewrite H2, elem_of_union, elem_of_singleton. tauto.
      * intros v. rewrite elem_of_cons, H2, elem_of_cons, elem_of_union, elem_of_singleton. destruct (decide (v = x)) as [->|Hne]; tauto.
Qed.

(** ** Numbers *)

Lemma extremum_fold is_min l b :
  exists m, foldl (extremum_step is_min) (Some b) l = Some m /\ (m = b \/ m ∈ l) /\
    forall n, n = b \/ n ∈ l -> if is_min then m <= n else n <= m.
Proof.
  revert b. induction l as [|x l IH]; intros b; cbn [foldl].
  - exists b. split; [done|]. split; [by left|]. intros n [->|Hn%elem_of_nil]; [by destruct is_min|done].
  - destruct (IH (if is_min then Z.min b x else Z.max b x)) as (m & Hm & Hin & Hall). exists m. split; [done|]. split.
    + destruct Hin as [->|Hin]; [|right; by right]. destruct is_min; [destruct (Z.min_spec b x) as [[_ ->]|[_ ->]]|destruct (Z.max_spec b x) as [[_ ->]|[_ ->]]];
        rewrite ?elem_of_cons; tauto.
    + intros n Hn. pose proof (Hall _ (or_introl eq_refl)) as Hb. destruct Hn as [->|[->|Hn]%elem_of_cons]; [destruct is_min; lia..|]. apply Hall. by right.
Qed.

(** The value is the least (greatest) number of the field, or 0 without one. *)
Definition is_extremum (is_min : bool) (l : list Z) (m : Z) : Prop :=
  match l with [] => m = 0 | _ => m ∈ l /\ forall n, n ∈ l -> if is_min then m <= n else n <= m end.

Lemma numeric_extremum_spec records field is_min :
  is_extremum is_min (omap (field_number field) records) (numeric_extremum records field is_min).
Proof.
  unfold numeric_extremum. destruct (omap (field_number field) records) as [|x l]; [done|]. cbn [foldl is_extremum].
  change (extremum_step is_min None x) with (Some x).
  destruct (extremum_fold is_min l x) as (m & -> & Hin & Hall). cbn [from_option Datatypes.id]. split.
  - rewrite elem_of_cons. done.
  - intros n Hn%elem_of_cons. by apply Hall.
Qed.

(** ** Sorted rows *)

Lemma sort_and_limit_spec (rows : list DecodedRecord) (descending : bool) (limit : Z) :
  exists sorted, sorted ≡ₚ rows /\
    StronglySorted (fun a b => if descending then d_seq b <= d_seq a else d_seq a <= d_seq b) sorted /\
    sort_and_limit rows descending limit = if 0 <? limit then take (Z.to_nat limit) sorted else sorted.
Proof.
  unfold sort_and_limit. exists (if descending then sort_by_key (fun r : DecodedRecord => - d_seq r) rows else sort_by_key d_seq rows). split_and!.
  - destruct descending; apply sort_by_key_perm.
  - destruct descending; [|apply sort_by_key_sorted]. pose proof (sort_by_key_sorted (fun r : DecodedRecord => - d_seq r) rows) as H.
    eapply sorted_impl_elem; [|exact H]. intros a b _ _ Hk. unfold key_le in Hk. lia.
  - destruct (Z.ltb_spec 0 limit); [|done]. cbn [andb]. destruct (Z.ltb_spec limit (Z.of_nat (length (if descending then sort_by_key (fun r : DecodedRecord => - d_seq r) rows else sort_by_key d_seq rows)))) as [|Hl]; [done|].
    symmetry. apply take_ge. lia.
Qed.

(** C34: A query computes what it says over exactly the records that pass all filters
    and have no peer under the join key: the records themselves in order of their
    numbers up to the limit, their count, whether there is one, the distinct values of
    a field or their number, or the least or greatest number in it. *)
Theorem query_answers_over_selected_records (q : Query) (records : list DecodedRecord) :
  (forall r, r ∈ rows q records <-> r ∈ records /\ selected q records r) /\
  match q_result q, execute q records with
  | QRecords, RRecords l =>
      exists sorted, sorted ≡ₚ rows q records /\
        StronglySorted (fun a b => if q_descending q then d_seq b <= d_seq a else d_seq a <= d_seq b) sorted /\
        l = if 0 <? q_limit q then take (Z.to_nat (q_limit q)) sorted else sorted
  | QCount, RCount n => n = Z.of_nat (length (rows q records))
  | QExists, RExists b => b = true <-> exists r, r ∈ records /\ selected q records r
  | QCountDistinct, RCountDistinct n =>
      exists vals : gset bytes, n = Z.of_nat (size vals) /\ forall v, v ∈ vals <-> v ∈ omap (field_value (q_aggregate_field q)) (rows q records)
  | QMin, RMin n => is_extremum true (omap (field_number (q_aggregate_field q)) (rows q records)) n
  | QMax, RMax n => is_extremum false (omap (field_number (q_aggregate_field q)) (rows q records)) n
  | QDistinctValues, RDistinctValues l =>
      NoDup l /\ (forall v, v ∈ l -> v ∈ omap (field_value (q_aggregate_field q)) (rows q records)) /\
      (q_limit q <= 0 -> forall v, v ∈ omap (field_value (q_aggregate_field q)) (rows q records) -> v ∈ l)
  | _, _ => False
  end.
Proof.
  split; [intros r; apply rows_elem|]. unfold execute. fold (rows q records).
  destruct (distinct_loop_spec (omap (field_value (q_aggregate_field q)) (rows q records)) ∅) as [D1 D2].
  destruct (q_result q).
  - apply sort_and_limit_spec.
  - done.
  - rewrite negb_true_iff, bool_decide_eq_false. setoid_rewrite <- rows_elem. split.
    + destruct (rows q records) as [|r l]; [done|]. intros _. exists r. left.
    + intros (r & Hr) E. rewrite E in Hr. by apply elem_of_nil in Hr.
  - exists (list_to_set (distinct_field_values (rows q records) (q_aggregate_field q))). split.
    + f_equal. symmetry. by apply size_list_to_set.
    + intros v. rewrite elem_of_list_to_set. unfold distinct_field_values. rewrite D2. split; [tauto|]. intros Hin. split; [done|apply not_elem_of_empty].
  - apply numeric_extremum_spec.
  - apply numeric_extremum_spec.
  - unfold distinct_field_values. set (vals := distinct_loop _ ∅) in *. set (w := if q_descending q then rev vals else vals).
    assert (w ≡ₚ vals) as Hw by (unfold w; destruct (q_descending q); [symmetry; apply Permutation_rev|done]).
    assert (NoDup w) as Hn by (by rewrite Hw). assert (forall v, v ∈ w <-> v ∈ omap (field_value (q_aggregate_field q)) (rows q records)) as Hv.
    { intros v. rewrite Hw, D2. split; [tauto|]. intros Hin. split; [done|apply not_elem_of_empty]. }
    destruct (Z.ltb_spec 0 (q_limit q)) as [Hl|Hl]; cbn [andb]; [destruct (q_limit q <? _)|]; split_and!; try (intros; lia); try (intros; by apply Hv); try done.
    + rewrite <- (take_drop (Z.to_nat (q_limit q)) w) in Hn. by apply NoDup_app in Hn as (? & _ & _).
    + intros v (i & Hi & _)%elem_of_take. apply Hv. by eapply list_elem_of_lookup_2.
Qed.

(** The query reads up to the least committed count of the shards as if it were an id:
    with two shards it does not see half of the committed records. *)
Theorem query_misses_committed_records :
  let d := mkLog (list_to_map ((fun g => (g, demo_raw 7 (g + 1) (demo_text 3))) <$> seqZ 0 4)) [2; 2] [2; 2] 1 in
  rpc_query (storage_new d 2) ∅ 7 (mkQueryReq [] None None [] 1 [] None 0 false) = Ok (RCount 2) /\
  rpc_query (storage_new (mkLog (ls_written d) [4] [4] 0) 1) ∅ 7 (mkQueryReq [] None None [] 1 [] None 0 false) = Ok (RCount 4).
Proof. by vm_compute. Qed.
