(* ===== verification/Replication.v ===== *)
(** * Replication to standbys ([logdbd/src/replication.rs])

    A primary pushes the durable records of its log to its standbys and moves its
    position when enough of them answered; a standby writes a record only under the
    number its own log comes to next.  Replicated logs have one shard, so the ids are
    0, 1, 2, ...

    A standby is its storage and the number its log gives out next (the producer
    cursor of its ring).  Whether its log admits a record and has room for it, and
    whether a push arrives and its answer comes back, are parameters.  The timestamps
    of the log's records, which the server does not read, are left out. *)
From stdpp Require Import base gmap list numbers sorting.
From coqutil Require Import Byte.
From Stdlib Require Import ZArith Lia.
From S2P Require Import Prelude RustStd Shard ByteReader ServerRecord StreamStore.
Open Scope Z_scope.

(** ** Standby *)

Record ReplicationRequest := mkReplReq { rq_cluster_id : bytes; rq_epoch : Z; rq_records : list (Z * bytes) }.

(** [ReplicationServiceImpl], with the cursor of its log. *)
Record Standby := mkStandby { sb_storage : Storage; sb_cursor : Z; sb_cluster_id : bytes; sb_epoch : Z }.

(** What the log says to one record: the size, health and shutdown checks, and room
    in its ring. *)
Record Gate := mkGate { g_admitted : bool; g_room : bool }.

(** [LogDb::replicate]. *)
Definition replicate_outcome (g : Gate) (num_shards cursor gid : Z) : Replicated :=
  if negb (num_shards =? 1) then RRefused
  else if negb (g_admitted g) then RRefused
  else if gid <? cursor then RPresent
  else if negb (gid =? cursor) then RRefused
  else if negb (g_room g) then RRefused
  else RWritten.

Definition with_log (st : Storage) (cursor : Z) (sb : Standby) : Standby := mkStandby st cursor (sb_cluster_id sb) (sb_epoch sb).

Definition replicate_one (g : Gate) (rec : Z * bytes) (sb : Standby) : result StorageError unit * Standby :=
  let outcome := replicate_outcome g (st_num_shards (sb_storage sb)) (sb_cursor sb) rec.1 in
  let '(r, st) := replicate outcome rec.1 rec.2 (sb_storage sb) in
  (r, with_log st (match outcome with RWritten => rec.1 + 1 | _ => sb_cursor sb end) sb).

(** The loop of [sync]: it ends with the first record that fails; else the last id. *)
Fixpoint replicate_all (gates : list Gate) (records : list (Z * bytes)) (last_gid : Z) (sb : Standby) : result StorageError Z * Standby :=
  match records with
  | [] => (Ok last_gid, sb)
  | rec :: records =>
      match replicate_one (default (mkGate true true) (head gates)) rec sb with
      | (Err e, sb) => (Err e, sb)
      | (Ok _, sb) => replicate_all (tail gates) records rec.1 sb
      end
  end.

Inductive SyncError := WrongCluster | StaleEpoch | SyncInternal (e : StorageError).

(** [sync]. *)
Definition rpc_sync (gates : list Gate) (r : ReplicationRequest) (sb : Standby) : result SyncError Z * Standby :=
  if negb (bool_decide (rq_cluster_id r = [])) && negb (bool_decide (rq_cluster_id r = sb_cluster_id sb)) then (Err WrongCluster, sb)
  else if (0 <? rq_epoch r) && (rq_epoch r <? sb_epoch sb) then (Err StaleEpoch, sb)
  else if bool_decide (rq_records r = []) then (Ok 0, sb)
  else match replicate_all gates (rq_records r) 0 sb with
       | (Ok last_gid, sb) => (Ok last_gid, sb)
       | (Err e, sb) => (Err (SyncInternal e), sb)
       end.

(** ** Primary *)

Inductive ReplicationMode := Sync | Async.
Inductive SyncPolicy := PolicyAll | Quorum | PolicyN.
Inductive OnSyncTimeout := OnFail | AsyncWarn | OnBlock.

Record ReplicationConfig := mkReplConfig {
  rc_mode : ReplicationMode;
  rc_policy : SyncPolicy;
  rc_required_acks : Z;
  rc_on_sync_timeout : OnSyncTimeout;
}.

#[global] Instance ReplicationMode_eq_dec : EqDecision ReplicationMode.
Proof. solve_decision. Defined.
#[global] Instance OnSyncTimeout_eq_dec : EqDecision OnSyncTimeout.
Proof. solve_decision. Defined.

Record Primary := mkPrimary { pm_storage : Storage; pm_push_seq : Z }.

(** [read_durable_batch]. *)
Definition read_durable_batch (s : Storage) (from_gid to_gid : Z) : list (Z * bytes) := log_scan (st_db s) from_gid to_gid.

(** What becomes of a push: answered, handled by the standby with the answer lost or
    late, or not delivered. *)
Inductive Delivery := Answered | AnswerLost | Undelivered.

(** One push: the standby's acknowledgement, if it arrives. *)
Definition push_one (req : ReplicationRequest) (dl : Delivery * list Gate) (sb : Standby) : option Z * Standby :=
  match dl.1 with
  | Answered => let '(r, sb) := rpc_sync dl.2 req sb in (ok_of r, sb)
  | AnswerLost => (None, (rpc_sync dl.2 req sb).2)
  | Undelivered => (None, sb)
  end.

(** The pushes of a round: how many were acknowledged, and the greatest id in them. *)
Fixpoint push_all (req : ReplicationRequest) (dls : list (Delivery * list Gate)) (sbs : list Standby) (acked last_acked : Z)
    : Z * Z * list Standby :=
  match sbs with
  | [] => (acked, last_acked, [])
  | sb :: sbs =>
      let '(a, sb) := push_one req (default (Undelivered, []) (head dls)) sb in
      let '(n, l, sbs) := push_all req (tail dls) sbs (match a with Some _ => acked + 1 | None => acked end) (match a with Some g => Z.max last_acked g | None => last_acked end) in
      (n, l, sb :: sbs)
  end.

(** The acknowledgements a policy asks for. *)
Definition required (cfg : ReplicationConfig) (total : Z) : Z :=
  match rc_policy cfg with
  | PolicyAll => total
  | Quorum => total / 2 + 1
  | PolicyN => Z.min (rc_required_acks cfg) total
  end.

(** [push_seq = gid; advance_replicated(push_seq)], when it is a step forward. *)
Definition advance (gid : Z) (p : Primary) : Primary :=
  if pm_push_seq p <? gid then mkPrimary (advance_replicated gid (pm_storage p)) gid else p.

(** One turn of the loop of [run_primary_sync]; [sbs] are the standbys it has a client
    for, [scanned] says whether the log could be read. *)
Definition primary_round (cfg : ReplicationConfig) (cluster_id : bytes) (epoch : Z) (scanned : bool) (dls : list (Delivery * list Gate))
    (p : Primary) (sbs : list Standby) : Primary * list Standby :=
  let durable := durable_gid (pm_storage p) in
  if durable <=? pm_push_seq p then (p, sbs)
  else if negb scanned then (p, sbs)
  else
    match read_durable_batch (pm_storage p) (pm_push_seq p) durable with
    | [] => (p, sbs)
    | r :: rest =>
        match sbs with
        | [] => let last := (List.last rest r).1 in (mkPrimary (advance_replicated last (pm_storage p)) last, [])
        | _ =>
            let '(acked_count, last_acked, sbs') := push_all (mkReplReq cluster_id epoch (r :: rest)) dls sbs 0 (pm_push_seq p) in
            let p' :=
              if bool_decide (rc_mode cfg = Async) || (required cfg (Z.of_nat (length sbs)) <=? acked_count) then advance last_acked p
              else if bool_decide (rc_on_sync_timeout cfg = AsyncWarn) then advance last_acked p
              else p in
            (p', sbs')
        end
    end.

(** ** A standby holds a prefix of the primary's log *)

(** A log with one shard and the ids 0, 1, 2, ..., durable up to its cursor. *)
Record primary_ok (p : Storage) : Prop := {
  po_store : store_ok p;
  po_nexts : nexts_pos p;
  po_bits : ls_bits (st_db p) = 0;
  po_ids : forall gid, is_Some (ls_written (st_db p) !! gid) <-> 0 <= gid < Z.of_nat (size (ls_written (st_db p)));
  po_cursors : exists co du, ls_committed (st_db p) = [co] /\ ls_durable (st_db p) = [du] /\
    0 <= du <= co /\ co <= Z.of_nat (size (ls_written (st_db p)));
  po_finds : finds_all (st_db p);
}.

(** The standby's log is the primary's up to its cursor, which is within what is
    durable on the primary. *)
Record standby_ok (p : Storage) (sb : Standby) : Prop := {
  sk_store : store_ok (sb_storage sb);
  sk_bits : ls_bits (st_db (sb_storage sb)) = 0;
  sk_cursor : 0 <= sb_cursor sb <= durable_gid p;
  sk_log : forall gid, ls_written (st_db (sb_storage sb)) !! gid =
    if decide (gid < sb_cursor sb) then ls_written (st_db p) !! gid else None;
  sk_finds : finds_all (st_db (sb_storage sb));
}.

(** A record of the primary's log that is durable there. *)
Definition durable_rec (p : Storage) (rec : Z * bytes) : Prop := ls_written (st_db p) !! rec.1 = Some rec.2 /\ rec.1 < durable_gid p.

Lemma replicate_num_shards o gid raw s : st_num_shards (replicate o gid raw s).2 = st_num_shards s.
Proof. unfold replicate. destruct o; [| |done]; by destruct (decode_record raw). Qed.

Lemma replicate_db o gid raw s :
  st_db (replicate o gid raw s).2 = match o with RWritten => log_append gid raw (st_db s) | _ => st_db s end.
Proof. unfold replicate. destruct o; [| |done]; by destruct (decode_record raw). Qed.

(** A number of a stream is on one record of the primary, so a record the standby
    does not have is new in its maps too. *)
Lemma standby_new p sb rec r :
  primary_ok p -> standby_ok p sb -> durable_rec p rec -> rec.1 = sb_cursor sb -> decode_record rec.2 = Ok r ->
  lookup2 (seq_map (sb_storage sb)) (d_stream_id r) (d_seq r) = None.
Proof.
  intros Hp [Hst _ _ Hlog _] [Hw _] Hc Hd. destruct (lookup2 _ _ _) as [g|] eqn:E; [|done].
  destruct Hst as (_ & _ & Hm & _). cbn [fst] in Hm. apply Hm in E as (r' & (c & Hg & Hd')%rec_in_log & Hs & Hq).
  rewrite Hlog in Hg. destruct (decide (g < sb_cursor sb)) as [Hlt|]; [|done].
  assert (g = rec.1) as ->; [|lia].
  apply (store_unique p (po_store p Hp) g rec.1 r' r); [apply rec_in_log; by exists c|apply rec_in_log; by exists rec.2|done|done].
Qed.

Lemma replicate_outcome_spec g n cursor gid :
  match replicate_outcome g n cursor gid with RWritten => gid = cursor | RPresent => gid < cursor | RRefused => True end.
Proof.
  unfold replicate_outcome. destruct (n =? 1), (g_admitted g), (Z.ltb_spec gid cursor), (Z.eqb_spec gid cursor), (g_room g); done.
Qed.

(** A standby that is handed a durable record of the primary stays a prefix; a record
    it accepts it has. *)
Lemma replicate_one_ok p g rec sb :
  primary_ok p -> standby_ok p sb -> durable_rec p rec ->
  let '(r, sb') := replicate_one g rec sb in
  standby_ok p sb' /\ sb_cursor sb <= sb_cursor sb' /\ (is_ok r = true -> rec.1 < sb_cursor sb').
Proof.
  intros Hp Hok Hrec. unfold replicate_one. pose proof (replicate_outcome_spec g (st_num_shards (sb_storage sb)) (sb_cursor sb) rec.1) as Ho.
  destruct (replicate_outcome _ _ _ _) as [| |] eqn:Eo; [| |by destruct sb; split; [|split; [apply Z.le_refl|done]]]. all: clear Eo.
  all: pose proof (fun o => replicate_db o rec.1 rec.2 (sb_storage sb)) as Hdb. all: destruct (Hok) as [Hst Hb Hc Hlog Hfi], (Hrec) as [Hw Hdur].
  - assert (0 <= rec.1 < U64_MAX) as Hg by (apply (proj1 (po_store p Hp) _ _ Hw)). specialize (Hdb RWritten).
    assert (store_ok (replicate RWritten rec.1 rec.2 (sb_storage sb)).2) as Hst'.
    { apply replicate_store_ok; [|by intros r Hr; eapply standby_new|done]. split; [|done]. rewrite Hlog, decide_False; [done|lia]. }
    destruct (replicate RWritten rec.1 rec.2 (sb_storage sb)) as [r st]. cbn [snd] in *. split; [|split; cbn [sb_cursor with_log]; lia].
    split; cbn [sb_storage sb_cursor with_log]; [done|by rewrite Hdb|lia| |by rewrite Hdb]. intros gid. rewrite Hdb. cbn [log_append ls_written].
    destruct (decide (rec.1 = gid)) as [<-|Hne]; [rewrite lookup_insert_eq, decide_True by lia; done|].
    rewrite lookup_insert_ne, Hlog by done. destruct (decide (gid < sb_cursor sb)); [rewrite decide_True by lia; done|].
    rewrite decide_False by lia. done.
  - specialize (Hdb RPresent). assert (ls_written (st_db (sb_storage sb)) !! rec.1 = Some rec.2) as Hhas by (rewrite Hlog, decide_True; done).
    destruct (replay_store_ok _ _ _ Hhas Hst) as [Hst' _].
    destruct (replicate RPresent rec.1 rec.2 (sb_storage sb)) as [r st]. cbn [snd] in *. split; [|split; cbn [sb_cursor with_log]; [lia|done]].
    split; cbn [sb_storage sb_cursor with_log]; by rewrite ?Hdb.
Qed.

Lemma replicate_all_ok p gates records last sb :
  primary_ok p -> standby_ok p sb -> Forall (durable_rec p) records ->
  let '(r, sb') := replicate_all gates records last sb in
  standby_ok p sb' /\ sb_cursor sb <= sb_cursor sb' /\
  (forall v, r = Ok v -> v = List.last records.*1 last /\ Forall (fun rec => rec.1 < sb_cursor sb') records).
Proof.
  intros Hp. revert gates last sb. induction records as [|rec records IH]; intros gates last sb Hok Hrec; cbn [replicate_all].
  { split; [done|]. split; [lia|]. intros v [= <-]. done. }
  apply Forall_cons in Hrec as [Hr Hrec]. pose proof (replicate_one_ok p (default (mkGate true true) (head gates)) rec sb Hp Hok Hr) as H1.
  destruct (replicate_one _ rec sb) as [[[]|e] sb1]; destruct H1 as (Hok1 & Hc1 & Hd1); [|done].
  specialize (IH (tail gates) rec.1 sb1 Hok1 Hrec). destruct (replicate_all (tail gates) records rec.1 sb1) as [r sb2].
  destruct IH as (Hok2 & Hc2 & Hd2). split; [done|]. split; [lia|]. intros v Hv. destruct (Hd2 v Hv) as [-> Hf]. split.
  - symmetry. apply last_cons_default.
  - constructor; [|done]. specialize (Hd1 eq_refl). lia.
Qed.

(** What the standby's handler does with a request for durable records. *)
Lemma rpc_sync_ok p gates req sb :
  primary_ok p -> standby_ok p sb -> Forall (durable_rec p) (rq_records req) ->
  let '(r, sb') := rpc_sync gates req sb in
  standby_ok p sb' /\ sb_cursor sb <= sb_cursor sb' /\
  (forall v, r = Ok v -> v = List.last (rq_records req).*1 0 /\ Forall (fun rec => rec.1 < sb_cursor sb') (rq_records req)).
Proof.
  intros Hp Hok Hrec. unfold rpc_sync. assert (standby_ok p sb /\ sb_cursor sb <= sb_cursor sb) as Hsame by (split; [done|lia]).
  destruct (_ && _); [by split_and!|]. destruct (_ && _); [by split_and!|]. case_bool_decide as E.
  { rewrite E. split; [done|]. split; [lia|]. intros v [= <-]. done. }
  pose proof (replicate_all_ok p gates (rq_records req) 0 sb Hp Hok Hrec) as H. destruct (replicate_all gates _ 0 sb) as [[v|e] sb'].
  - destruct H as (H1 & H2 & H3). split; [done|]. split; [done|]. intros w [= <-]. by apply H3.
  - destruct H as (H1 & H2 & _). by split_and!.
Qed.

(** ** A round *)

(** The standbys that have everything up to an id. *)
Definition holders (gid : Z) (sbs : list Standby) : Z := Z.of_nat (length (filter (fun sb => gid < sb_cursor sb) sbs)).

Lemma push_one_ok p req dl sb :
  primary_ok p -> standby_ok p sb -> Forall (durable_rec p) (rq_records req) -> rq_records req <> [] ->
  let '(a, sb') := push_one req dl sb in
  standby_ok p sb' /\ sb_cursor sb <= sb_cursor sb' /\
  (forall v, a = Some v -> v = List.last (rq_records req).*1 0 /\ v < sb_cursor sb').
Proof.
  intros Hp Hok Hrec Hne. unfold push_one. pose proof (rpc_sync_ok p dl.2 req sb Hp Hok Hrec) as H.
  destruct (rpc_sync dl.2 req sb) as [r sb']. destruct H as (H1 & H2 & H3). destruct dl.1; [|by split_and!|by split_and!; [|lia|]].
  split; [done|]. split; [done|]. intros v Hv. destruct r as [w|]; [|done]. injection Hv as ->. destruct (H3 v eq_refl) as [-> Hf]. split; [done|].
  destruct (exists_last Hne) as (l & x & E). rewrite E in *. rewrite fmap_app. cbn [fmap list_fmap]. rewrite List.last_last.
  apply Forall_app in Hf as [_ Hf]. by apply Forall_cons in Hf as [Hf _].
Qed.

Lemma push_all_ok p req dls sbs acked last :
  primary_ok p -> Forall (standby_ok p) sbs -> Forall (durable_rec p) (rq_records req) -> rq_records req <> [] ->
  let gid := List.last (rq_records req).*1 0 in
  let '(n, l, sbs') := push_all req dls sbs acked last in
  Forall (standby_ok p) sbs' /\ length sbs' = length sbs /\ (l = last \/ l = Z.max last gid) /\ n <= acked + holders gid sbs'.
Proof.
  intros Hp Hok Hrec Hne gid. revert dls acked last. induction Hok as [|sb sbs Hsb Hok IH]; intros dls acked last; cbn [push_all].
  { split_and!; [done|done|by left|unfold holders; cbn; lia]. }
  pose proof (push_one_ok p req (default (Undelivered, []) (head dls)) sb Hp Hsb Hrec Hne) as H1.
  destruct (push_one req _ sb) as [a sb']. destruct H1 as (Hsb' & _ & Ha).
  specialize (IH (tail dls) (match a with Some _ => acked + 1 | None => acked end) (match a with Some g => Z.max last g | None => last end)).
  destruct (push_all req (tail dls) sbs _ _) as [[n l] sbs']. destruct IH as (H1 & H2 & H3 & H4).
  split; [by constructor|]. split; [cbn; lia|]. unfold holders in *. rewrite filter_cons. destruct a as [v|].
  - destruct (Ha v eq_refl) as [-> Hlt]. fold gid in Hlt, H3. rewrite decide_True by done. cbn [length]. split; [lia|lia].
  - split; [done|]. destruct (decide _); cbn [length]; lia.
Qed.

(** The batch of a round is durable on the primary. *)
Lemma batch_durable s from : primary_ok s -> Forall (durable_rec s) (read_durable_batch s from (durable_gid s)).
Proof.
  intros Hp. apply Forall_forall. intros [g c] Hin. unfold read_durable_batch, log_scan, ascending_list in Hin.
  rewrite list_elem_of_filter, sort_by_key_perm in Hin. destruct Hin as [[[_ Hlt] _] Hin%elem_of_map_to_list]. by split.
Qed.

Lemma primary_ok_advance gid p : primary_ok (pm_storage p) -> primary_ok (pm_storage (advance gid p)).
Proof. intros [H1 H2 H3 H4 H5 H6]. unfold advance. by destruct (_ <? _). Qed.

Lemma standby_ok_mono p p' sb :
  durable_gid p <= durable_gid p' -> (forall gid, gid < durable_gid p -> ls_written (st_db p') !! gid = ls_written (st_db p) !! gid) ->
  standby_ok p sb -> standby_ok p' sb.
Proof.
  intros Hd Hw [H1 H2 H3 H4 H5]. split; [done|done|lia| |done]. intros gid. rewrite H4. destruct (decide _); [|done]. symmetry. apply Hw. lia.
Qed.

Lemma round_ok cfg cid epoch scanned dls p sbs :
  primary_ok (pm_storage p) -> Forall (standby_ok (pm_storage p)) sbs ->
  let '(p', sbs') := primary_round cfg cid epoch scanned dls p sbs in
  primary_ok (pm_storage p') /\ Forall (standby_ok (pm_storage p')) sbs' /\ length sbs' = length sbs /\
  st_db (pm_storage p') = st_db (pm_storage p) /\ pm_push_seq p <= pm_push_seq p' /\
  (pm_push_seq p' <> pm_push_seq p -> sbs <> [] -> rc_mode cfg = Sync -> rc_on_sync_timeout cfg <> AsyncWarn ->
   required cfg (Z.of_nat (length sbs)) <= holders (pm_push_seq p') sbs').
Proof.
  intros Hp Hok. unfold primary_round.
  assert (primary_ok (pm_storage p) /\ Forall (standby_ok (pm_storage p)) sbs /\ length sbs = length sbs /\ st_db (pm_storage p) = st_db (pm_storage p) /\
    pm_push_seq p <= pm_push_seq p /\ (pm_push_seq p <> pm_push_seq p -> sbs <> [] -> rc_mode cfg = Sync -> rc_on_sync_timeout cfg <> AsyncWarn ->
    required cfg (Z.of_nat (length sbs)) <= holders (pm_push_seq p) sbs)) as Hsame by (split_and!; done || lia).
  destruct (_ <=? _); [done|]. destruct scanned; [|done]. cbn [negb].
  pose proof (batch_durable (pm_storage p) (pm_push_seq p) Hp) as Hb. destruct (read_durable_batch _ _ _) as [|r rest] eqn:Er; [done|].
  destruct sbs as [|sb sbs].
  { assert (pm_push_seq p <= (List.last rest r).1) as Hge.
    { assert (List.last rest r ∈ r :: rest) as Hin by apply last_elem.
      rewrite <- Er in Hin. unfold read_durable_batch, log_scan in Hin. apply list_elem_of_filter in Hin as [[[? _] _] _]. done. }
    destruct Hp as [H1 H2 H3 H4 H5 H6]. split_and!; done. }
  pose proof (push_all_ok (pm_storage p) (mkReplReq cid epoch (r :: rest)) dls (sb :: sbs) 0 (pm_push_seq p) Hp Hok Hb ltac:(done)) as H.
  destruct (push_all _ _ _ _ _) as [[n l] sbs']. destruct H as (H1 & H2 & H3 & H4). cbn [rq_records] in *.
  set (gid := List.last _ 0) in *.
  assert (Forall (standby_ok (pm_storage (advance l p))) sbs') as H1'.
  { eapply Forall_impl; [exact H1|]. intros x. unfold advance. destruct (_ <? _); [|done]. by apply standby_ok_mono. }
  assert (pm_push_seq (advance l p) <> pm_push_seq p -> pm_push_seq (advance l p) = gid) as Hadv.
  { unfold advance. destruct (Z.ltb_spec (pm_push_seq p) l); [cbn [pm_push_seq]|done]. lia. }
  assert (pm_push_seq p <= pm_push_seq (advance l p)) as Hle by (unfold advance; destruct (Z.ltb_spec (pm_push_seq p) l); cbn; lia).
  assert (st_db (pm_storage (advance l p)) = st_db (pm_storage p)) as Hdb by (unfold advance; by destruct (_ <? _)).
  destruct (bool_decide _ || _) eqn:E.
  - split_and!; [by apply primary_ok_advance|done|done|done|done|]. intros Hne _ Hs _. rewrite (Hadv Hne).
    rewrite bool_decide_false in E by congruence. cbn [orb] in E. apply Z.leb_le in E. lia.
  - clear E. case_bool_decide as E2; [|by split_and!; try lia]. split_and!; [by apply primary_ok_advance|done..].
Qed.

(** ** Histories of a cluster *)

Record Cluster := mkCluster { c_primary : Primary; c_standbys : list Standby }.

(** A log of one shard after a stop that keeps the records below [k]. *)
Definition truncated (k : Z) (d : LogState) : LogState := mkLog (filter (fun gc : Z * bytes => gc.1 < k) (ls_written d)) [k] [k] 0.

Inductive cluster_step (cfg : ReplicationConfig) (cid : bytes) (epoch : Z) : Cluster -> Cluster -> Prop :=
  (** An append to the primary; its log gives out the next id, if any. *)
  | cs_append p sbs answer ns st et ct md ts content :
      args_ok ns st ts et ct md -> default 1 (next_seqs (pm_storage p) !! st) < 2 ^ 64 ->
      (forall gid, answer = Some gid -> gid = Z.of_nat (size (ls_written (st_db (pm_storage p)))) /\ gid < U64_MAX) ->
      cluster_step cfg cid epoch (mkCluster p sbs) (mkCluster (mkPrimary (append answer ns st et ct md ts content (pm_storage p)).2 (pm_push_seq p)) sbs)
  (** The primary's log commits and syncs. *)
  | cs_commit p sbs co du :
      durable_gid (pm_storage p) <= du <= co -> co <= Z.of_nat (size (ls_written (st_db (pm_storage p)))) ->
      cluster_step cfg cid epoch (mkCluster p sbs)
        (mkCluster (mkPrimary (with_db (mkLog (ls_written (st_db (pm_storage p))) [co] [du] 0) (pm_storage p)) (pm_push_seq p)) sbs)
  | cs_round p sbs scanned dls p' sbs' :
      primary_round cfg cid epoch scanned dls p sbs = (p', sbs') -> cluster_step cfg cid epoch (mkCluster p sbs) (mkCluster p' sbs')
  (** A request of any earlier round arrives late, or once more. *)
  | cs_late p sbs i sb gates req :
      sbs !! i = Some sb -> Forall (durable_rec (pm_storage p)) (rq_records req) ->
      cluster_step cfg cid epoch (mkCluster p sbs) (mkCluster p (<[i := (rpc_sync gates req sb).2]> sbs))
  (** A standby's log commits and syncs. *)
  | cs_standby_log p sbs i sb d :
      sbs !! i = Some sb -> log_moves (st_db (sb_storage sb)) d -> finds_all d ->
      cluster_step cfg cid epoch (mkCluster p sbs) (mkCluster p (<[i := with_log (with_db d (sb_storage sb)) (sb_cursor sb) sb]> sbs))
  (** Restarts: a standby with any part of its log, the primary with at least what was
      durable. *)
  | cs_standby_restart p sbs i sb k :
      sbs !! i = Some sb -> 0 <= k <= sb_cursor sb ->
      cluster_step cfg cid epoch (mkCluster p sbs) (mkCluster p (<[i := with_log (storage_new (truncated k (st_db (sb_storage sb))) 1) k sb]> sbs))
  | cs_primary_restart p sbs k :
      durable_gid (pm_storage p) <= k <= Z.of_nat (size (ls_written (st_db (pm_storage p)))) ->
      cluster_step cfg cid epoch (mkCluster p sbs) (mkCluster (mkPrimary (storage_new (truncated k (st_db (pm_storage p))) 1) 0) sbs).

(** A new cluster: all logs are empty. *)
Definition cluster_initial (c : Cluster) : Prop :=
  exists ids, c = mkCluster (mkPrimary (storage_new (mkLog ∅ [0] [0] 0) 1) 0)
    ((fun ce => mkStandby (storage_new (mkLog ∅ [0] [0] 0) 1) 0 ce.1 ce.2) <$> ids).

Definition cluster_reachable (cfg : ReplicationConfig) (cid : bytes) (epoch : Z) (c : Cluster) : Prop :=
  exists c0, cluster_initial c0 /\ rtc (cluster_step cfg cid epoch) c0 c.

Definition cluster_ok (c : Cluster) : Prop :=
  primary_ok (pm_storage (c_primary c)) /\ Forall (standby_ok (pm_storage (c_primary c))) (c_standbys c).

Lemma dense_size {V} (m : gmap Z V) k : 0 <= k -> (forall gid, is_Some (m !! gid) <-> 0 <= gid < k) -> Z.of_nat (size m) = k.
Proof.
  intros Hk H. rewrite <- size_dom. assert (dom m = list_to_set (seqZ 0 k)) as ->.
  { apply set_eq. intros g. rewrite elem_of_dom, H, elem_of_list_to_set, elem_of_seqZ. lia. }
  rewrite size_list_to_set by apply NoDup_seqZ. rewrite length_seqZ. lia.
Qed.

Lemma truncated_lookup k d gid : ls_written (truncated k d) !! gid = if decide (gid < k) then ls_written d !! gid else None.
Proof.
  cbn [truncated ls_written]. apply option_eq. intros c. rewrite map_lookup_filter_Some. cbn [fst]. destruct (decide (gid < k)); [|split; [by intros [_ ?]|done]]. split; [by intros [? _]|done].
Qed.

(** A restart over what is left of the log. *)
Lemma truncated_ok s k :
  store_ok s -> 0 <= k ->
  store_ok (storage_new (truncated k (st_db s)) 1) /\ st_db (storage_new (truncated k (st_db s)) 1) = truncated k (st_db s).
Proof.
  intros Hok Hk. pose proof (proj1 Hok) as Hg. apply storage_new_ok.
  - intros g c Hc. rewrite truncated_lookup in Hc. destruct (decide _); [by apply (Hg g c)|done].
  - intros g c Hc. rewrite truncated_lookup in Hc. destruct (decide (g < k)); [|done]. by apply (proj2 (Z.ltb_lt g k)).
  - done.
  - eapply unique_sub; [|by apply store_unique]. intros g r. rewrite !rec_in_log. intros (c & Hc & Hr). rewrite truncated_lookup in Hc.
    destruct (decide _); [by exists c|done].
  - done.
  - destruct (decide (k = 0)) as [->|]; [right|left; cbn; lia]. apply map_eq. intros g. rewrite truncated_lookup, lookup_empty.
    destruct (decide (g < 0)); [|done]. destruct (ls_written (st_db s) !! g) as [c|] eqn:E; [|done]. destruct (Hg g c E). lia.
Qed.

Lemma append_db answer ns st et ct md ts content s :
  st_db (append answer ns st et ct md ts content s).2 = st_db s \/
  exists gid raw, answer = Some gid /\ st_db (append answer ns st et ct md ts content s).2 = log_append gid raw (st_db s).
Proof.
  unfold append, alloc_seq. destruct (encode_record _ _ _ _ _ _ _ _) as [raw|]; [|by left]. destruct answer as [gid|]; [|by left].
  right. by exists gid, raw.
Qed.

Lemma durable_gid_one s du : ls_durable (st_db s) = [du] -> durable_gid s = du.
Proof. intros H. unfold durable_gid, durable_cursor. by rewrite H. Qed.

Lemma append_primary answer ns st et ct md ts content s :
  primary_ok s -> args_ok ns st ts et ct md -> default 1 (next_seqs s !! st) < 2 ^ 64 ->
  (forall gid, answer = Some gid -> gid = Z.of_nat (size (ls_written (st_db s))) /\ gid < U64_MAX) ->
  let s' := (append answer ns st et ct md ts content s).2 in
  primary_ok s' /\ durable_gid s' = durable_gid s /\
  (forall gid, gid < durable_gid s -> ls_written (st_db s') !! gid = ls_written (st_db s) !! gid).
Proof.
  intros [H1 H2 H3 H4 H5 H6] Ha Hn Hg s'.
  assert (ls_written (st_db s) !! Z.of_nat (size (ls_written (st_db s))) = None) as Hnone.
  { apply eq_None_not_Some. intros H%H4. lia. }
  assert (store_ok s') as Hst.
  { apply append_store_ok; [done| |by split; [apply H2|]|done]. intros gid Hgid. destruct (Hg gid Hgid) as [-> ?]. split; [done|lia]. }
  pose proof (nexts_pos_append answer ns st et ct md ts content s H2) as Hnx. fold s' in Hnx.
  destruct (append_db answer ns st et ct md ts content s) as [E|(gid & raw & Eg & E)]; fold s' in E.
  { split; [split; [exact Hst|exact Hnx|rewrite E; exact H3|rewrite E; exact H4|rewrite E; exact H5|rewrite E; exact H6]|]. unfold durable_gid. by rewrite E. }
  destruct (Hg gid Eg) as [-> Hlt]. destruct H5 as (co & du & C1 & C2 & C3 & C4).
  assert (Z.of_nat (size (ls_written (st_db s'))) = Z.of_nat (size (ls_written (st_db s))) + 1) as Hsz.
  { rewrite E. cbn [log_append ls_written]. rewrite map_size_insert_None by done. lia. }
  split; [split; [done|done|by rewrite E| | |by rewrite E]|].
  - intros g. rewrite Hsz, E. cbn [log_append ls_written]. destruct (decide (Z.of_nat (size (ls_written (st_db s))) = g)) as [<-|Hne].
    + rewrite lookup_insert_eq. split; [lia|by eexists].
    + rewrite lookup_insert_ne, H4 by done. lia.
  - exists co, du. rewrite Hsz, E. cbn [log_append ls_committed ls_durable]. split_and!; [done|done|lia|lia|lia].
  - rewrite (durable_gid_one s du C2). split; [apply durable_gid_one; by rewrite E|]. intros g Hlt'. rewrite E. cbn [log_append ls_written].
    rewrite lookup_insert_ne by lia. done.
Qed.

Lemma cluster_step_ok cfg cid epoch c c' : cluster_step cfg cid epoch c c' -> cluster_ok c -> cluster_ok c'.
Proof.
  intros Hstep [Hp Hs]. destruct Hstep as [p sbs answer ns st et ct md ts content Ha Hn Hg|p sbs co du Hdu Hco|p sbs scanned dls p' sbs' Hr
    |p sbs i sb gates req Hi Hreq|p sbs i sb d Hi Hm Hfi|p sbs i sb k Hi Hk|p sbs k Hk]; cbn [c_primary c_standbys pm_storage] in *.
  - destruct (append_primary answer ns st et ct md ts content _ Hp Ha Hn Hg) as (H1 & H2 & H3). split; [done|].
    eapply Forall_impl; [exact Hs|]. intros x. apply standby_ok_mono; cbn [c_primary pm_storage]; [by rewrite H2|done].
  - destruct Hp as [H1 H2 H3 H4 (co0 & du0 & C1 & C2 & C3 & C4) H6]. rewrite (durable_gid_one _ _ C2) in Hdu. split.
    + split; cbn [c_primary pm_storage with_db st_db ls_written ls_bits ls_committed ls_durable]; [by apply store_ok_log|done|done|done| |done].
      exists co, du. split_and!; [done|done|lia|lia|lia].
    + eapply Forall_impl; [exact Hs|]. intros x. apply standby_ok_mono; [|done]. rewrite (durable_gid_one _ _ C2). cbn. lia.
  - pose proof (round_ok cfg cid epoch scanned dls p sbs Hp Hs) as H. rewrite Hr in H. destruct H as (H1 & H2 & _). by split.
  - split; [done|]. apply Forall_insert; [done|]. pose proof (Forall_lookup_1 _ _ _ _ Hs Hi) as Hsb.
    pose proof (rpc_sync_ok _ gates req sb Hp Hsb Hreq) as H. destruct (rpc_sync gates req sb). apply H.
  - split; [done|]. apply Forall_insert; [done|]. destruct (Forall_lookup_1 _ _ _ _ Hs Hi) as [H1 H2 H3 H4 _]. destruct (Hm) as [Hw Hb].
    split; cbn [sb_storage with_log with_db st_db sb_cursor]; [by apply store_ok_log|by rewrite Hb|done|by rewrite Hw|done].
  - split; [done|]. apply Forall_insert; [done|]. destruct (Forall_lookup_1 _ _ _ _ Hs Hi) as [H1 H2 H3 H4 _].
    destruct (truncated_ok (sb_storage sb) k H1 ltac:(lia)) as [T1 T2].
    split; cbn [sb_storage with_log sb_cursor c_primary]; [done|by rewrite T2|lia| |by rewrite T2]. intros g. rewrite T2, truncated_lookup, H4.
    destruct (decide (g < k)), (decide (g < sb_cursor sb)); try done. lia.
  - destruct Hp as [H1 H2 H3 H4 (co & du & C1 & C2 & C3 & C4) _]. rewrite (durable_gid_one _ _ C2) in Hk.
    destruct (truncated_ok (pm_storage p) k H1 ltac:(lia)) as [T1 T2].
    assert (forall g, is_Some (ls_written (truncated k (st_db (pm_storage p))) !! g) <-> 0 <= g < k) as Hids.
    { intros g. rewrite truncated_lookup. destruct (decide (g < k)); [rewrite H4; lia|]. split; [by intros [? ?]|lia]. }
    pose proof (dense_size _ k ltac:(lia) Hids) as Hsz. split.
    + split; cbn [c_primary pm_storage]; rewrite ?T2; [done|apply nexts_pos_new|done| | |done].
      * by rewrite Hsz.
      * exists k, k. rewrite Hsz. split_and!; [done|done|lia|lia|lia].
    + eapply Forall_impl; [exact Hs|]. intros x. apply standby_ok_mono; cbn [c_primary pm_storage].
      * rewrite (durable_gid_one _ _ C2). unfold durable_gid. rewrite T2. cbn. lia.
      * rewrite (durable_gid_one _ _ C2), T2. intros g Hg. rewrite truncated_lookup, decide_True by lia. done.
Qed.

Lemma empty_store_ok : store_ok (storage_new (mkLog ∅ [0] [0] 0) 1).
Proof.
  apply storage_new_ok; [apply map_Forall_empty|apply map_Forall_empty|done| |done|by right]. intros g1 g2 r1 r2 Hr1. by apply rec_in_empty in Hr1.
Qed.

Lemma cluster_reachable_ok cfg cid epoch c : cluster_reachable cfg cid epoch c -> cluster_ok c.
Proof.
  intros (c0 & [ids ->] & Hr). assert (cluster_ok (mkCluster (mkPrimary (storage_new (mkLog ∅ [0] [0] 0) 1) 0)
    ((fun ce => mkStandby (storage_new (mkLog ∅ [0] [0] 0) 1) 0 ce.1 ce.2) <$> ids))) as H0.
  { split; cbn [c_primary pm_storage c_standbys].
    - split; [apply empty_store_ok|apply nexts_pos_new|done| | |done].
      + intros gid. change (is_Some ((∅ : gmap Z bytes) !! gid) <-> 0 <= gid < 0). rewrite lookup_empty. split; [by intros [? ?]|lia].
      + exists 0, 0. split_and!; done.
    - apply Forall_forall. intros sb (ce & -> & _)%list_elem_of_fmap. split; [apply empty_store_ok|done|done| |done].
      intros gid. change ((∅ : gmap Z bytes) !! gid = if decide (gid < 0) then (∅ : gmap Z bytes) !! gid else None). rewrite lookup_empty. by destruct (decide _). }
  revert H0. induction Hr as [|c1 c2 c3 H12 _ IH]; intros H0; [done|]. apply IH. by eapply cluster_step_ok.
Qed.

Lemma durable_at_zero d gid du : ls_bits d = 0 -> ls_durable d = [du] -> gid < du -> durable_at d gid = true.
Proof. intros Hb Hd Hlt. unfold durable_at, below_cursor, decode_record_id. rewrite Hb, Hd. by apply Z.ltb_lt. Qed.

(** C16: In every history of a primary and its standbys (appends, lost, late and repeated
    pushes, crashes of both sides) a standby's log is exactly the primary's log up to
    the standby's cursor, no read of a standby fails, and what it finds under a
    stream's number is what the primary finds; a record the standby holds durably is
    found on both.  Logs of one shard ([LogDb::replicate] refuses others), in which the
    search by id finds every record; appended metadata keys under 256 bytes. *)
Theorem standby_reads_as_primary (cfg : ReplicationConfig) (cid : bytes) (epoch : Z) (c : Cluster) (sb : Standby) :
  cluster_reachable cfg cid epoch c -> sb ∈ c_standbys c ->
  let p := pm_storage (c_primary c) in
  (forall gid, ls_written (st_db (sb_storage sb)) !! gid = if decide (gid < sb_cursor sb) then ls_written (st_db p) !! gid else None) /\
  (forall sid seq, read sid seq (sb_storage sb) = Ok None \/
     exists r, read sid seq (sb_storage sb) = Ok (Some r) /\ read sid seq p = Ok (Some r)) /\
  (forall gid raw r, ls_written (st_db p) !! gid = Some raw -> decode_record raw = Ok r -> gid < sb_cursor sb ->
     durable_at (st_db (sb_storage sb)) gid = true ->
     read (d_stream_id r) (d_seq r) (sb_storage sb) = Ok (Some (with_shard 0 gid r)) /\
     read (d_stream_id r) (d_seq r) p = Ok (Some (with_shard 0 gid r))).
Proof.
  intros Hr Hin p. destruct (cluster_reachable_ok _ _ _ _ Hr) as [Hp Hs]. rewrite Forall_forall in Hs. destruct (Hs sb Hin) as [K1 K2 K3 K4 K5]. fold p in Hp, K3, K4.
  destruct (Hp) as [P1 _ P3 _ (co & du & _ & C2 & _) P6]. rewrite (durable_gid_one _ _ C2) in K3.
  assert (forall gid raw r, ls_written (st_db p) !! gid = Some raw -> decode_record raw = Ok r -> gid < sb_cursor sb ->
    read (d_stream_id r) (d_seq r) p = Ok (Some (with_shard 0 gid r))) as Hread.
  { intros gid raw r Hw Hd Hlt. rewrite <- P3. eapply read_found; [done|done|done|apply (durable_at_zero _ _ du); [done|done|lia]|by rewrite P6]. }
  split; [done|]. split.
  - intros sid seq. destruct (read_only_found (sb_storage sb) sid seq K1) as [H|(gid & raw & r & H & _ & Hd & [Hw _] & <- & <-)]; [by left|].
    right. rewrite K4 in Hw. destruct (decide (gid < sb_cursor sb)); [|done]. exists (with_shard 0 gid r). rewrite K2 in H. split; [done|]. by eapply Hread.
  - intros gid raw r Hw Hd Hlt Hdur. split; [|by eapply Hread]. rewrite <- K2. eapply read_found; [done| |done|done|by rewrite K5]. by rewrite K4, decide_True.
Qed.

(** C23: When a synchronous primary that does not degrade and has at least one connected
    standby moves its position, at least as many standbys as its policy asks for hold
    every record of its log up to the new position, and the position it reports as
    replicated is at least that.  (Without a connected standby it moves with no holder,
    see [no_standby_counts_as_replicated].)  The cluster is one that histories of one-shard
    logs reach, in which the search by id finds every record, with appended metadata keys
    under 256 bytes. *)
Theorem acknowledged_position_is_held (cfg : ReplicationConfig) (cid : bytes) (epoch : Z) (c : Cluster) (scanned : bool)
    (dls : list (Delivery * list Gate)) (p' : Primary) (sbs' : list Standby) :
  cluster_reachable cfg cid epoch c -> primary_round cfg cid epoch scanned dls (c_primary c) (c_standbys c) = (p', sbs') ->
  rc_mode cfg = Sync -> rc_on_sync_timeout cfg <> AsyncWarn -> c_standbys c <> [] -> pm_push_seq p' <> pm_push_seq (c_primary c) ->
  pm_push_seq (c_primary c) < pm_push_seq p' <= replicated_seq (pm_storage p') /\
  required cfg (Z.of_nat (length (c_standbys c))) <= holders (pm_push_seq p') sbs' /\
  (forall sb gid, sb ∈ sbs' -> pm_push_seq p' < sb_cursor sb -> gid <= pm_push_seq p' ->
     ls_written (st_db (sb_storage sb)) !! gid = ls_written (st_db (pm_storage p')) !! gid).
Proof.
  intros Hr Hround Hmode Hto Hne Hadv. destruct (cluster_reachable_ok _ _ _ _ Hr) as [Hp Hs].
  pose proof (round_ok cfg cid epoch scanned dls _ _ Hp Hs) as H. rewrite Hround in H. destruct H as (H1 & H2 & _ & _ & H3 & H4). split_and!.
  - lia.
  - clear -Hround Hadv Hne. unfold primary_round in Hround. destruct (_ <=? _); [by injection Hround as <- <-|]. destruct scanned; [|by injection Hround as <- <-]. cbn [negb] in Hround.
    destruct (read_durable_batch _ _ _); [by injection Hround as <- <-|]. destruct (c_standbys c); [by destruct Hne|].
    destruct (push_all _ _ _ _ _) as [[? g] ?]. injection Hround as <- _. unfold advance in *. revert Hadv.
    repeat match goal with |- context [if ?b then _ else _] => destruct b end; cbn; lia.
  - by apply H4.
  - intros sb gid Hin Hlt Hle. rewrite Forall_forall in H2. destruct (H2 sb Hin) as [_ _ _ K4 _]. rewrite K4, decide_True by lia. done.
Qed.

(** ** Where replication falls short *)

(** A standby that has less than the primary's position never gets another record: a
    round pushes from the position on, and the standby refuses what does not come next. *)
Theorem stranded_standby_stays (cfg : ReplicationConfig) (cid : bytes) (epoch : Z) (scanned : bool) (dls : list (Delivery * list Gate))
    (p : Primary) (sbs : list Standby) (i : nat) (sb : Standby) :
  sbs !! i = Some sb -> sb_cursor sb < pm_push_seq p -> (primary_round cfg cid epoch scanned dls p sbs).2 !! i = Some sb.
Proof.
  intros Hi Hlt. unfold primary_round. destruct (_ <=? _); [done|]. destruct scanned; [|done]. cbn [negb].
  destruct (read_durable_batch _ _ _) as [|r rest] eqn:E; [done|]. destruct sbs as [|sb0 sbs]; [done|].
  assert (pm_push_seq p <= r.1) as Hge.
  { assert (r ∈ read_durable_batch (pm_storage p) (pm_push_seq p) (durable_gid (pm_storage p))) as Hin by (rewrite E; left).
    unfold read_durable_batch, log_scan in Hin. apply list_elem_of_filter in Hin as [[[? _] _] _]. done. }
  assert (forall dl, (push_one (mkReplReq cid epoch (r :: rest)) dl sb).2 = sb) as Hone.
  { assert (forall gates, (rpc_sync gates (mkReplReq cid epoch (r :: rest)) sb).2 = sb) as Hsync.
    { intros gates. unfold rpc_sync. destruct (_ && _); [done|]. destruct (_ && _); [done|]. rewrite bool_decide_false by done.
      cbn [rq_records replicate_all]. unfold replicate_one. pose proof (replicate_outcome_spec (default (mkGate true true) (head gates)) (st_num_shards (sb_storage sb)) (sb_cursor sb) r.1) as Ho.
      destruct (replicate_outcome _ _ _ _); [lia|lia|]. by destruct sb. }
    intros dl. unfold push_one. specialize (Hsync dl.2). destruct dl.1; [|done|done]. by destruct (rpc_sync _ _ _). }
  assert (forall sbs dls n l j, sbs !! j = Some sb -> (push_all (mkReplReq cid epoch (r :: rest)) dls sbs n l).2 !! j = Some sb) as Hall.
  { clear -Hone. induction sbs as [|x sbs IH]; intros dls n l j Hj; [done|]. cbn [push_all].
    destruct j as [|j]; [injection Hj as ->; specialize (Hone (default (Undelivered, []) (head dls)))|];
      destruct (push_one _ _ _) as [a y]; [cbn [snd] in Hone; subst y; by destruct (push_all _ _ _ _ _) as [[? ?] ?]|].
    specialize (IH (tail dls) (match a with Some _ => n + 1 | None => n end) (match a with Some g => Z.max l g | None => l end) j Hj).
    by destruct (push_all _ _ _ _ _) as [[? ?] ?]. }
  specialize (Hall (sb0 :: sbs) dls 0 (pm_push_seq p) i Hi). by destruct (push_all _ _ _ _ _) as [[? ?] ?].
Qed.

Definition demo_config (mode : ReplicationMode) : ReplicationConfig := mkReplConfig mode PolicyAll 0 OnFail.
Definition demo_add (gid sid : Z) (md : list (bytes * bytes)) (s : Storage) : Storage :=
  (append (Some gid) 1 sid (demo_text 3) (demo_text 1) md 5 (demo_text 2) s).2.
Definition demo_sync (k : Z) (s : Storage) : Storage := with_db (mkLog (ls_written (st_db s)) [k] [k] 0) s.
Definition demo_empty : Storage := storage_new (mkLog ∅ [0] [0] 0) 1.
Definition demo_two : Storage := demo_sync 2 (demo_add 1 8 [] (demo_add 0 7 [] demo_empty)).
Definition demo_standby : Standby := mkStandby demo_empty 0 [] 5.
Definition demo_answered : Delivery * list Gate := (Answered, []).

(** Without a connected standby every durable record counts as replicated. *)
Theorem no_standby_counts_as_replicated :
  replicated_seq (pm_storage (primary_round (demo_config Sync) [] 5 true [] (mkPrimary demo_two 0) []).1) = 1.
Proof. by vm_compute. Qed.

(** The position is the last id that was acknowledged, not the one behind it: the last
    record is pushed again in every round, and a first record alone is never reported. *)
Theorem last_record_is_pushed_again :
  let one := demo_sync 1 (demo_add 0 7 [] demo_empty) in
  let '(p1, s1) := primary_round (demo_config Sync) [] 5 true [demo_answered] (mkPrimary one 0) [demo_standby] in
  let '(p2, s2) := primary_round (demo_config Sync) [] 5 true [demo_answered] (mkPrimary demo_two 0) [demo_standby] in
  (sb_cursor <$> s1 = [1] /\ replicated_seq (pm_storage p1) = 0) /\
  (sb_cursor <$> s2 = [2] /\ (read_durable_batch (pm_storage p2) (pm_push_seq p2) (durable_gid (pm_storage p2))).*1 = [1]).
Proof. by vm_compute. Qed.

(** In asynchronous mode one acknowledgement moves the position for all: a standby
    that missed the push is left behind for good. *)
Theorem missed_push_strands_standby :
  let '(p, sbs) := primary_round (demo_config Async) [] 5 true [demo_answered; (Undelivered, [])] (mkPrimary demo_two 0) [demo_standby; demo_standby] in
  sb_cursor <$> sbs = [2; 0] /\ pm_push_seq p = 1 /\
  sb_cursor <$> (primary_round (demo_config Async) [] 5 true [demo_answered; demo_answered] p sbs).2 = [2; 0].
Proof. by vm_compute. Qed.

(** A standby answers before its records are durable.  After a crash that loses them
    it is behind the position of a synchronous primary, and is left behind. *)
Theorem acknowledged_record_lost_in_crash :
  let '(p, sbs) := primary_round (demo_config Sync) [] 5 true [demo_answered] (mkPrimary demo_two 0) [demo_standby] in
  let sbs := (fun sb => with_log (storage_new (truncated 0 (st_db (sb_storage sb))) 1) 0 sb) <$> sbs in
  replicated_seq (pm_storage p) = 1 /\
  sb_cursor <$> (primary_round (demo_config Sync) [] 5 true [demo_answered] p sbs).2 = [0].
Proof. by vm_compute. Qed.

(** A record under a number the standby has already is acknowledged without a
    comparison, and entered in the maps: a standby with a log of its own answers with
    success, and a read shows its own record of another stream under the stream's number. *)
Theorem diverged_standby_acknowledges :
  let sb := mkStandby (demo_sync 1 (demo_add 0 9 [] demo_empty)) 1 [] 5 in
  let '(a, sb') := rpc_sync [] (mkReplReq [] 5 [(0, demo_raw 7 1 (demo_text 3))]) sb in
  a = Ok 0 /\ exists r, read 7 1 (sb_storage sb') = Ok (Some r) /\ d_stream_id r = 9.
Proof. split; [by vm_compute|]. eexists. by split; vm_compute. Qed.

(** A record that does not decode is written and refused, again in every round: no
    later record reaches the standby. *)
Theorem undecodable_record_stops_replication :
  let s := demo_sync 2 (demo_add 1 7 [] (demo_add 0 7 [(demo_text 256, [])] demo_empty)) in
  let '(p1, s1) := primary_round (demo_config Sync) [] 5 true [demo_answered] (mkPrimary s 0) [demo_standby] in
  let '(p2, s2) := primary_round (demo_config Sync) [] 5 true [demo_answered] p1 s1 in
  sb_cursor <$> s1 = [1] /\ sb_cursor <$> s2 = [1] /\ pm_push_seq p2 = 0.
Proof. by vm_compute. Qed.

(** A request without a cluster and with epoch 0 passes the checks of every standby. *)
Theorem unmarked_request_is_accepted :
  (rpc_sync [] (mkReplReq [] 0 [(0, demo_raw 7 1 (demo_text 3))]) (mkStandby demo_empty 0 (demo_text 4) 5)).1 = Ok 0.
Proof. by vm_compute. Qed.

(** ** Witnesses *)

Definition demo_append_step (gid sid : Z) (c : Cluster) : Cluster :=
  mkCluster (mkPrimary (demo_add gid sid [] (pm_storage (c_primary c))) (pm_push_seq (c_primary c))) (c_standbys c).

Lemma demo_append_reach c gid sid :
  cluster_reachable (demo_config Sync) [] 5 c -> in_range 64 sid -> default 1 (next_seqs (pm_storage (c_primary c)) !! sid) < 2 ^ 64 ->
  gid = Z.of_nat (size (ls_written (st_db (pm_storage (c_primary c))))) -> gid < U64_MAX ->
  cluster_reachable (demo_config Sync) [] 5 (demo_append_step gid sid c).
Proof.
  intros (c0 & Hi & Hr) Hs Hn Hg Hm. exists c0. split; [done|]. eapply rtc_r; [exact Hr|]. destruct c as [[s q] sbs].
  apply (cs_append _ _ _ (mkPrimary s q) sbs (Some gid) 1 sid (demo_text 3) (demo_text 1) [] 5 (demo_text 2)); [|done|by intros g [= <-]].
  split; [by split|]. split; [exact Hs|]. split_and!; try (by split; vm_compute); [split; constructor|by constructor].
Qed.

Lemma demo_two_reach : cluster_reachable (demo_config Sync) [] 5 (mkCluster (mkPrimary demo_two 0) [demo_standby]).
Proof.
  assert (cluster_reachable (demo_config Sync) [] 5 (mkCluster (mkPrimary demo_empty 0) [demo_standby])) as H0.
  { eexists. split; [|apply rtc_refl]. by exists [([], 5)]. }
  pose proof (demo_append_reach _ 0 7 H0 ltac:(by split) ltac:(done) ltac:(done) ltac:(done)) as H1.
  destruct (demo_append_reach _ 1 8 H1 ltac:(by split) ltac:(by vm_compute) ltac:(by vm_compute) ltac:(done)) as (c0 & Hi & Hr).
  exists c0. split; [done|]. eapply rtc_r; [exact Hr|]. by apply (cs_commit _ _ _ (mkPrimary (demo_add 1 8 [] (demo_add 0 7 [] demo_empty)) 0) [demo_standby] 2 2).
Qed.

Definition demo_round : Primary * list Standby := primary_round (demo_config Sync) [] 5 true [demo_answered] (mkPrimary demo_two 0) [demo_standby].

Lemma acknowledged_position_is_held_witness : pm_push_seq demo_round.1 = 1 /\ 1 <= holders (pm_push_seq demo_round.1) demo_round.2.
Proof.
  split; [by vm_compute|].
  apply (acknowledged_position_is_held (demo_config Sync) [] 5 (mkCluster (mkPrimary demo_two 0) [demo_standby]) true [demo_answered]
    demo_round.1 demo_round.2 demo_two_reach); [exact (surjective_pairing demo_round)|done|done|done|by vm_compute].
Defined.

Lemma standby_reads_as_primary_witness :
  exists sb, demo_round.2 = [sb] /\ sb_cursor sb = 2 /\
    ls_written (st_db (sb_storage sb)) !! 0 = ls_written (st_db (pm_storage demo_round.1)) !! 0.
Proof.
  assert (cluster_reachable (demo_config Sync) [] 5 (mkCluster demo_round.1 demo_round.2)) as Hr.
  { destruct demo_two_reach as (c0 & Hi & Hr). exists c0. split; [done|]. eapply rtc_r; [exact Hr|].
    apply (cs_round _ _ _ _ _ true [demo_answered]). exact (surjective_pairing demo_round). }
  assert (exists sb, demo_round.2 = [sb] /\ sb_cursor sb = 2) as (sb & Hsb & Hc) by (by eexists; split; vm_compute).
  exists sb. split; [exact Hsb|]. split; [exact Hc|].
  destruct (standby_reads_as_primary (demo_config Sync) [] 5 (mkCluster demo_round.1 demo_round.2) sb Hr) as (H & _ & _).
  - cbn [c_standbys]. rewrite Hsb. left.
  - rewrite H, decide_True by lia. reflexivity.
Defined.
