(* ===== verification/Exporter.v ===== *)
(** * The exporter ([logdb-exporter/src])

    The exporter reads a stream of the server, first with a scan and then with tails,
    hands the records to a sink and keeps the number of the last one in a progress
    file ([progress.rs], [pipeline.rs], [sink/stdout.rs], [sink/clickhouse.rs]).

    A sink is a class with its laws: what has left the process and what it still
    holds.  What the server sends is a parameter of each step; whether a save is due,
    whether ClickHouse accepts an insert and whether its interval has passed are
    parameters too. *)
From stdpp Require Import base list numbers sorting relations.
From coqutil Require Import Byte.
From Stdlib Require Import ZArith Lia.
From S2P Require Import Prelude Externals Config FileSys AtomicFile ByteReader ServerRecord.
Open Scope Z_scope.

(** ** [String::from_utf8_lossy] *)

Definition cont (b : byte) : bool := byte_in 128 191 b.

(** The second byte of a character of three or four bytes. *)
Definition second_ok (b c : byte) : bool :=
  if byte_in 224 224 b then byte_in 160 191 c
  else if byte_in 237 237 b then byte_in 128 159 c
  else if byte_in 240 240 b then byte_in 144 191 c
  else if byte_in 244 244 b then byte_in 128 143 c
  else cont c.

(** The length of the first character, or of the part of it that is well formed. *)
Definition first_char (bs : bytes) : nat * bool :=
  match bs with
  | [] => (O, true)
  | b :: rest =>
      if byte_in 0 127 b then (1%nat, true)
      else if byte_in 194 223 b then
        match rest with c :: _ => if cont c then (2%nat, true) else (1%nat, false) | [] => (1%nat, false) end
      else if byte_in 224 239 b then
        match rest with
        | c :: rest =>
            if second_ok b c then match rest with d :: _ => if cont d then (3%nat, true) else (2%nat, false) | [] => (2%nat, false) end
            else (1%nat, false)
        | [] => (1%nat, false)
        end
      else if byte_in 240 244 b then
        match rest with
        | c :: rest =>
            if second_ok b c then
              match rest with
              | d :: rest =>
                  if cont d then match rest with e :: _ => if cont e then (4%nat, true) else (3%nat, false) | [] => (3%nat, false) end
                  else (2%nat, false)
              | [] => (2%nat, false)
              end
            else (1%nat, false)
        | [] => (1%nat, false)
        end
      else (1%nat, false)
  end.

Definition REPLACEMENT : bytes := [Byte.xef; Byte.xbf; Byte.xbd].

Fixpoint lossy (fuel : nat) (bs : bytes) : bytes :=
  match fuel, bs with
  | O, _ | _, [] => []
  | S fuel, _ =>
      let '(n, ok) := first_char bs in (if ok then take n bs else REPLACEMENT) ++ lossy fuel (drop n bs)
  end.
Definition from_utf8_lossy (bs : bytes) : bytes := lossy (length bs) bs.

(** ** The progress file *)

Definition PROGRESS_MAGIC : Z := 1279738960.
Definition PROGRESS_VERSION : Z := 1.

Record Progress := mkProgress {
  pr_cluster_id : bytes;
  pr_epoch : Z;
  pr_namespace : bytes;
  pr_stream : bytes;
  pr_last_seq : Z;
}.

Inductive ProgressError := PTooShort | PCrc | PMagic | PVersion (v : Z) | PTruncated | PPanic.

Section Codec.
Context {ext : Externals}.

Definition encode_field (s : bytes) : bytes := to_le 2 (blen s) ++ s.

Definition progress_body (now : Z) (p : Progress) : bytes :=
  to_le 4 PROGRESS_MAGIC ++ to_le 2 PROGRESS_VERSION ++ to_le 2 0 ++
  to_le 8 (pr_epoch p) ++ to_le 8 (pr_last_seq p) ++ to_le 8 now ++
  encode_field (pr_cluster_id p) ++ encode_field (pr_namespace p) ++ encode_field (pr_stream p).

(** The bytes [save] writes. *)
Definition encode_progress (now : Z) (p : Progress) : bytes :=
  let buf := progress_body now p in buf ++ to_le 4 (crc32c buf).

(** [save]: the directory is not synced. *)
Definition save (now : Z) (p : Progress) : M AtomicFile IoError unit :=
  af_create ;; af_write (encode_progress now p) ;; af_fdatasync ;; af_rename.

Definition read_field : Rd ProgressError bytes :=
  len ← rd_le PPanic 2;
  s ← rd_bytes PPanic len;
  mret (from_utf8_lossy s).

Definition read_progress : Rd ProgressError Progress :=
  epoch ← rd_le PTruncated 8;
  last_seq ← rd_le PTruncated 8;
  _ ← rd_le PTruncated 8;
  cluster_id ← read_field;
  namespace ← read_field;
  stream ← read_field;
  mret (mkProgress cluster_id epoch namespace stream last_seq).

(** [load]. *)
Definition load (file : option bytes) : result ProgressError (option Progress) :=
  match file with
  | None => Ok None
  | Some data =>
      if blen data <? 14 then Err PTooShort
      else
        let crc_off := blen data - 4 in
        if negb (crc32c (take (Z.to_nat crc_off) data) =? get_le data crc_off 4) then Err PCrc
        else if negb (get_le data 0 4 =? PROGRESS_MAGIC) then Err PMagic
        else if negb (get_le data 4 2 =? PROGRESS_VERSION) then Err (PVersion (get_le data 4 2))
        else match read_progress data 8 with Ok (p, _) => Ok (Some p) | Err e => Err e end
  end.

End Codec.

(** ** Sinks *)

(** What a push meets: whether the flush interval has passed, and whether an insert
    is accepted. *)
Record PushEnv := mkPushEnv { pe_due : bool; pe_accepted : bool }.

(** The trait [Sink], with what has left the process, what the sink still holds, and
    the sink of a new process. *)
Class Sink (S : Type) := {
  sink_push : PushEnv -> list DecodedRecord -> S -> bool * S;
  sink_out : S -> list DecodedRecord;
  sink_held : S -> list DecodedRecord;
  sink_fresh : list DecodedRecord -> S;
}.

(** A push keeps the order and loses nothing; a new process holds nothing. *)
Class SinkLaws (S : Type) `{Sink S} := {
  push_keeps env rs s : sink_out (sink_push env rs s).2 ++ sink_held (sink_push env rs s).2 = sink_out s ++ sink_held s ++ rs;
  fresh_out out : sink_out (sink_fresh out) = out;
  fresh_held out : sink_held (sink_fresh out) = [];
}.

(** A sink that holds nothing back. *)
Class WriteThrough (S : Type) `{Sink S} := holds_nothing s : sink_held s = [].

(** [StdoutSink]. *)
Record StdoutSink := mkStdout { so_out : list DecodedRecord }.

#[global] Instance stdout_sink : Sink StdoutSink := {
  sink_push := fun _ rs s => (true, mkStdout (so_out s ++ rs));
  sink_out := so_out;
  sink_held := fun _ => [];
  sink_fresh := mkStdout;
}.

#[global] Instance stdout_laws : SinkLaws StdoutSink.
Proof. split; [|done|done]. intros env rs s. cbn. by rewrite app_nil_r. Qed.

#[global] Instance stdout_write_through : WriteThrough StdoutSink.
Proof. done. Qed.

(** [ClickHouseSink]: the inserted records, the buffer and its size. *)
Record ClickHouseSink := mkClickHouse { ck_out : list DecodedRecord; ck_buffer : list DecodedRecord }.

(** [flush]. *)
Definition ck_flush (accepted : bool) (s : ClickHouseSink) : bool * ClickHouseSink :=
  if bool_decide (ck_buffer s = []) then (true, s)
  else if accepted then (true, mkClickHouse (ck_out s ++ ck_buffer s) [])
  else (false, s).

(** [push]. *)
Definition ck_push (batch_size : nat) (env : PushEnv) (rs : list DecodedRecord) (s : ClickHouseSink) : bool * ClickHouseSink :=
  let s := mkClickHouse (ck_out s) (ck_buffer s ++ rs) in
  if (batch_size <=? length (ck_buffer s))%nat || pe_due env then ck_flush (pe_accepted env) s else (true, s).

Definition clickhouse_sink (batch_size : nat) : Sink ClickHouseSink := {|
  sink_push := ck_push batch_size;
  sink_out := ck_out;
  sink_held := ck_buffer;
  sink_fresh := fun out => mkClickHouse out [];
|}.

Lemma clickhouse_laws batch_size : @SinkLaws ClickHouseSink (clickhouse_sink batch_size).
Proof.
  split; [|done|done]. intros env rs s. cbn [sink_push sink_out sink_held clickhouse_sink]. unfold ck_push, ck_flush. cbn [ck_buffer ck_out].
  destruct (_ || _); [|done]. case_bool_decide as E; [done|]. destruct (pe_accepted env); [|done]. cbn. by rewrite app_nil_r.
Qed.

(** ** The pipeline *)

Record Watermark := mkWatermark { wm_node_id : bytes; wm_oldest_seq : Z; wm_durable_seq : Z }.

Inductive ExportError := EConnect | ELoad (e : ProgressError) | EOutOfRetention | EScan | ESink | ESave | EReceive.

(** What a tail receives: a message, with whether a save is due then, or an error. *)
Inductive TailEvent :=
  | TMessage (env : PushEnv) (due : bool) (now : Z) (heartbeat : bool) (records : list DecodedRecord)
  | TError.

(** What opening a tail meets: its messages, with the time of the save at its end, or a
    refusal, with whether a client for the next address can be made. *)
Inductive TailCall :=
  | TailOpened (now : Z) (messages : list TailEvent)
  | TailRefused (made : bool).

Section Pipeline.
Context {ext : Externals} {S : Type} {SK : Sink S}.

Record Exporter := mkExporter { ex_progress : Progress; ex_sink : S; ex_file : AtomicFile }.

(** The start of [run]: the progress, or the reason not to start. *)
Definition start (wm : Watermark) (namespace stream : bytes) (file : option bytes) : result ExportError Progress :=
  match load file with
  | Err e => Err (ELoad e)
  | Ok loaded =>
      let progress := default (mkProgress (wm_node_id wm) 0 namespace stream 0) loaded in
      if (0 <? wm_oldest_seq wm) && (0 <? pr_last_seq progress) && (pr_last_seq progress + 1 <? wm_oldest_seq wm)
      then Err EOutOfRetention
      else Ok progress
  end.

Definition with_last (seq : Z) (p : Progress) : Progress :=
  mkProgress (pr_cluster_id p) (pr_epoch p) (pr_namespace p) (pr_stream p) seq.

Definition save_progress (now : Z) (x : Exporter) : result ExportError unit * Exporter :=
  match save now (ex_progress x) (ex_file x) with
  | (Ok _, f) => (Ok tt, mkExporter (ex_progress x) (ex_sink x) f)
  | (Err _, f) => (Err ESave, mkExporter (ex_progress x) (ex_sink x) f)
  end.

(** One answer of the server: the records go to the sink, the progress moves behind
    them and is saved if that is due. *)
Definition export_records (env : PushEnv) (due : bool) (now : Z) (rs : list DecodedRecord) (x : Exporter) : result ExportError unit * Exporter :=
  match rs with
  | [] => (Ok tt, x)
  | r :: rest =>
      match sink_push env rs (ex_sink x) with
      | (false, s) => (Err ESink, mkExporter (ex_progress x) s (ex_file x))
      | (true, s) =>
          let x := mkExporter (with_last (d_seq (List.last rest r)) (ex_progress x)) s (ex_file x) in
          if due then save_progress now x else (Ok tt, x)
      end
  end.

(** The scan phase: every chunk is saved. *)
Fixpoint scan_phase (chunks : list (PushEnv * Z * list DecodedRecord)) (x : Exporter) : result ExportError unit * Exporter :=
  match chunks with
  | [] => (Ok tt, x)
  | (env, now, rs) :: chunks =>
      match export_records env true now rs x with
      | (Err e, x) => (Err e, x)
      | (Ok _, x) => scan_phase chunks x
      end
  end.

(** One tail: its messages until it ends, and the save at its end; an error while
    receiving ends the exporter. *)
Fixpoint tail_phase (now : Z) (messages : list TailEvent) (x : Exporter) : result ExportError unit * Exporter :=
  match messages with
  | [] => save_progress now x
  | TError :: _ => (Err EReceive, x)
  | TMessage env due t heartbeat rs :: messages =>
      if heartbeat || bool_decide (rs = []) then tail_phase now messages x
      else
        match export_records env due t rs x with
        | (Err e, x) => (Err e, x)
        | (Ok _, x) => tail_phase now messages x
        end
  end.

(** [Source]: how many addresses there are, and which one is in use. *)
Record Source := mkSource { s_addrs : nat; s_current_idx : nat }.

(** [connect]: the first address that a client can be made for. *)
Definition connect (made : list bool) : result ExportError Source :=
  match list_find Is_true made with
  | Some (i, _) => Ok (mkSource (length made) i)
  | None => Err EConnect
  end.

(** [failover]: the next address, whether a client can be made for it or not. *)
Definition failover (made : bool) (s : Source) : result ExportError unit * Source :=
  let s := mkSource (s_addrs s) ((s_current_idx s + 1) mod s_addrs s) in
  (if made then Ok tt else Err EConnect, s).

(** The loop of [run] over the tails it opens; the list ends while it still runs. *)
Fixpoint tail_loop (calls : list TailCall) (s : Source) (x : Exporter) : result ExportError unit * (Source * Exporter) :=
  match calls with
  | [] => (Ok tt, (s, x))
  | TailOpened now messages :: calls =>
      match tail_phase now messages x with
      | (Err e, x) => (Err e, (s, x))
      | (Ok _, x) => tail_loop calls s x
      end
  | TailRefused made :: calls =>
      match failover made s with
      | (Err e, s) => (Err e, (s, x))
      | (Ok _, s) => tail_loop calls s x
      end
  end.

(** [run] behind its start: the scan when the progress is behind the watermark, which
    may fail, and the loop. *)
Definition run (wm : Watermark) (chunks : option (list (PushEnv * Z * list DecodedRecord)))
    (calls : list TailCall) (s : Source) (x : Exporter) : result ExportError unit * (Source * Exporter) :=
  let scanned :=
    if pr_last_seq (ex_progress x) + 1 <=? wm_durable_seq wm then
      match chunks with Some chunks => scan_phase chunks x | None => (Err EScan, x) end
    else (Ok tt, x)
  in
  match scanned with
  | (Err e, x) => (Err e, (s, x))
  | (Ok _, x) => tail_loop calls s x
  end.

End Pipeline.

Arguments Exporter S : clear implicits.

(** ** The progress file is read back *)

Lemma first_char_valid b rest :
  utf8_valid (b :: rest) = true -> exists n, first_char (b :: rest) = (S n, true) /\ utf8_valid (drop (S n) (b :: rest)) = true.
Proof.
  cbn [utf8_valid first_char]. unfold second_ok, cont. destruct (byte_in 0 127 b) eqn:E0; [exists O; by split|].
  destruct rest as [|c rest]; [done|]. destruct (byte_in 194 223 b) eqn:E1.
  { intros [Hc Hv]%andb_prop. rewrite Hc. exists 1%nat. by split. }
  destruct rest as [|d rest]; [done|].
  assert (byte_in 224 239 b = byte_in 224 224 b || byte_in 237 237 b || byte_in 225 239 b) as ->.
  { unfold byte_in. destruct (Z.leb_spec 224 (byte.unsigned b)), (Z.leb_spec (byte.unsigned b) 239), (Z.leb_spec (byte.unsigned b) 224),
      (Z.leb_spec 237 (byte.unsigned b)), (Z.leb_spec (byte.unsigned b) 237), (Z.leb_spec 225 (byte.unsigned b)); done || lia. }
  destruct (byte_in 224 224 b) eqn:E2.
  { intros [[Hc Hd]%andb_prop Hv]%andb_prop. cbn [orb]. rewrite Hc, Hd. exists 2%nat. by split. }
  destruct (byte_in 237 237 b) eqn:E3.
  { intros [[Hc Hd]%andb_prop Hv]%andb_prop. cbn [orb]. rewrite Hc, Hd. exists 2%nat. by split. }
  destruct (byte_in 225 239 b) eqn:E4.
  { intros [[Hc Hd]%andb_prop Hv]%andb_prop. cbn [orb].
    assert (byte_in 240 240 b = false /\ byte_in 244 244 b = false) as [-> ->].
    { unfold byte_in in *. apply andb_prop in E4 as [_ E4%Z.leb_le]. split; apply andb_false_intro1, Z.leb_gt; lia. }
    rewrite Hc, Hd. exists 2%nat. by split. }
  cbn [orb]. destruct rest as [|e rest]; [done|].
  assert (byte_in 240 244 b = byte_in 240 240 b || byte_in 241 243 b || byte_in 244 244 b) as ->.
  { unfold byte_in. destruct (Z.leb_spec 240 (byte.unsigned b)), (Z.leb_spec (byte.unsigned b) 244), (Z.leb_spec (byte.unsigned b) 240),
      (Z.leb_spec 241 (byte.unsigned b)), (Z.leb_spec (byte.unsigned b) 243), (Z.leb_spec 244 (byte.unsigned b)); done || lia. }
  intros [[[Hc Hd]%andb_prop He]%andb_prop Hv]%andb_prop. rewrite Hd, He. exists 3%nat. split; [|done].
  destruct (byte_in 240 240 b) eqn:E5; [by rewrite Hc|]. destruct (byte_in 241 243 b) eqn:E6; cbn [orb].
  - assert (byte_in 244 244 b = false) as ->. { unfold byte_in in *. apply andb_prop in E6 as [_ E6%Z.leb_le]. apply andb_false_intro1, Z.leb_gt. lia. }
    by rewrite Hc.
  - destruct (byte_in 244 244 b); [by rewrite Hc|done].
Qed.

Lemma lossy_valid fuel bs : utf8_valid bs = true -> (length bs <= fuel)%nat -> lossy fuel bs = bs.
Proof.
  revert bs. induction fuel as [|fuel IH]; intros [|b rest] Hv Hl; [done|cbn in Hl; lia|done|]. cbn [lossy].
  destruct (first_char_valid b rest Hv) as (n & -> & Hv'). rewrite IH; [apply take_drop|done|]. rewrite length_drop. cbn [length] in *. lia.
Qed.

Definition field_ok (s : bytes) : Prop := utf8_valid s = true /\ blen s < 2 ^ 16.

(** What the file can hold. *)
Definition progress_fits (p : Progress) : Prop :=
  field_ok (pr_cluster_id p) /\ field_ok (pr_namespace p) /\ field_ok (pr_stream p) /\ in_range 64 (pr_epoch p) /\ in_range 64 (pr_last_seq p).

Lemma parses_field s : field_ok s -> parses read_field (encode_field s) s.
Proof.
  intros [Hv Hl]. unfold read_field, encode_field. eapply parses_bind; [apply parses_le2; split; [lia|done]|].
  eapply parses_eq; [|apply app_nil_r]. eapply parses_bind; [apply parses_bytes|].
  assert (from_utf8_lossy s = s) as E by (by apply lossy_valid). rewrite <- E at 2. apply parses_ret.
Qed.

Section ReadBack.
Context {ext : Externals}.

Lemma load_saved now p : in_range 64 now -> progress_fits p -> load (Some (encode_progress now p)) = Ok (Some p).
Proof.
  intros Hnow (H1 & H2 & H3 & H4 & H5). unfold load, encode_progress. set (buf := progress_body now p).
  assert (38 <= blen buf) as Hlen by (unfold buf, progress_body, encode_field; rewrite !length_app, !length_to_le; lia).
  assert (blen (buf ++ to_le 4 (crc32c buf)) = blen buf + 4) as Hl by (rewrite length_app, length_to_le; lia).
  rewrite (proj2 (Z.ltb_ge _ _)) by lia. rewrite Hl. replace (blen buf + 4 - 4) with (blen buf) by lia.
  rewrite Nat2Z.id, take_app_length. assert (get_le (buf ++ to_le 4 (crc32c buf)) (blen buf) 4 = crc32c buf) as ->.
  { unfold get_le. rewrite slice_app_r by lia. rewrite slice_exact by (rewrite ?length_to_le; lia). rewrite from_to_le; [done|apply crc32c_range]. }
  rewrite Z.eqb_refl. cbn [negb].
  change (get_le (buf ++ to_le 4 (crc32c buf)) 0 4) with PROGRESS_MAGIC. change (get_le (buf ++ to_le 4 (crc32c buf)) 4 2) with PROGRESS_VERSION.
  rewrite !Z.eqb_refl. cbn [negb].
  set (rest := to_le 8 (pr_epoch p) ++ to_le 8 (pr_last_seq p) ++ to_le 8 now ++ encode_field (pr_cluster_id p) ++ encode_field (pr_namespace p) ++ encode_field (pr_stream p)).
  assert (parses read_progress rest p) as Hp.
  { unfold rest, read_progress. do 3 (eapply parses_bind; [by apply parses_le8|]). eapply parses_bind; [by apply parses_field|].
    eapply parses_bind; [by apply parses_field|]. eapply parses_eq; [|apply app_nil_r]. eapply parses_bind; [by apply parses_field|].
    destruct p. apply parses_ret. }
  specialize (Hp (to_le 4 PROGRESS_MAGIC ++ to_le 2 PROGRESS_VERSION ++ to_le 2 0) (to_le 4 (crc32c buf))).
  change (blen (to_le 4 PROGRESS_MAGIC ++ to_le 2 PROGRESS_VERSION ++ to_le 2 0)) with 8 in Hp. rewrite <- !app_assoc in Hp.
  assert (buf ++ to_le 4 (crc32c buf) = to_le 4 PROGRESS_MAGIC ++ to_le 2 PROGRESS_VERSION ++ to_le 2 0 ++ rest ++ to_le 4 (crc32c buf)) as ->; [|by rewrite Hp].
  unfold buf at 1, progress_body. fold rest. by rewrite <- !app_assoc.
Qed.

(** A save leaves an old content or the new one. *)
Lemma save_spec now p d r d' :
  af_wf d -> save now p d = (r, d') ->
  af_wf d' /\ (forall f, f ∈ af_after_crash d' -> f ∈ af_after_crash d \/ f = Some (encode_progress now p)) /\
  (r = Ok tt -> af_dat d' = Some (encode_progress now p)).
Proof.
  unfold af_wf. intros Hd. destruct d as [dat tmp sy ac fl]. unfold save, mbind, M_bind, af_create, af_write, af_fdatasync, af_rename, af_call.
  cbn [af_dat af_tmp af_tmp_synced af_after_crash af_faults set_tmp] in *.
  repeat match goal with
  | |- context [match mjoin (head ?l) with _ => _ end] => destruct (mjoin (head l))
  end; cbn [af_dat af_tmp af_tmp_synced af_after_crash af_faults set_tmp app]; intros [= <- <-];
    cbn [af_dat af_after_crash app]; (split; [done || by left|]); (split; [|done]); intros f Hf; auto.
  apply elem_of_cons in Hf as [->|Hf]; auto.
Qed.
End ReadBack.

(** ** Histories *)

Section Histories.
Context {ext : Externals} {S : Type} {SK : Sink S} {SL : SinkLaws S} {WT : WriteThrough S}.

(** A process that is down leaves what its sink has put out and its file. *)
Inductive ExpState := Down (out : list DecodedRecord) (file : AtomicFile) | Up (x : Exporter S).

(** The stream's records, in the order of their numbers, which start at 1. *)
Definition stream_ok (l : list DecodedRecord) : Prop :=
  StronglySorted (fun a b => d_seq a < d_seq b) l /\ Forall (fun r => 1 <= d_seq r < 2 ^ 64) l.

(** The next records behind a number, as a scan or a tail of a server with one shard
    sends them. *)
Definition next_records (n : nat) (last : Z) (l : list DecodedRecord) : list DecodedRecord := take n (filter (fun r => last < d_seq r) l).

Definition after_step (r : result ExportError unit * Exporter S) : ExpState :=
  match r with
  | (Ok _, x) => Up x
  | (Err _, x) => Down (sink_out (ex_sink x)) (ex_file x)
  end.

Inductive exp_step (ns st : bytes) : list DecodedRecord * ExpState -> list DecodedRecord * ExpState -> Prop :=
  | es_grow l l' e : stream_ok (l ++ l') -> exp_step ns st (l, e) (l ++ l', e)
  | es_start l out file wm p :
      field_ok (wm_node_id wm) -> start wm ns st (af_dat file) = Ok p -> exp_step ns st (l, Down out file) (l, Up (mkExporter p (sink_fresh out) file))
  | es_export l x env due now n :
      in_range 64 now ->
      exp_step ns st (l, Up x) (l, after_step (export_records env due now (next_records n (pr_last_seq (ex_progress x)) l) x))
  | es_save l x now : in_range 64 now -> exp_step ns st (l, Up x) (l, after_step (save_progress now x))
  | es_exit l x : exp_step ns st (l, Up x) (l, Down (sink_out (ex_sink x)) (ex_file x))
  | es_crash l x f faults :
      f ∈ af_after_crash (ex_file x) -> exp_step ns st (l, Up x) (l, Down (sink_out (ex_sink x)) (mkAtomicFile f [] false [f] faults)).

(** Every record up to a number has been put out, and the number is a record's. *)
Definition exported (l out : list DecodedRecord) (k : Z) : Prop :=
  (forall r, r ∈ l -> d_seq r <= k -> r ∈ out) /\ (k = 0 \/ exists r, r ∈ l /\ d_seq r = k).

Definition file_ok (l out : list DecodedRecord) (f : option bytes) : Prop :=
  exists o, load f = Ok o /\ forall p, o = Some p -> progress_fits p /\ exported l out (pr_last_seq p).

Definition exp_ok (w : list DecodedRecord * ExpState) : Prop :=
  let '(l, e) := w in
  stream_ok l /\
  match e with
  | Down out file => af_wf file /\ Forall (file_ok l out) (af_after_crash file)
  | Up x =>
      af_wf (ex_file x) /\ Forall (file_ok l (sink_out (ex_sink x))) (af_after_crash (ex_file x)) /\
      progress_fits (ex_progress x) /\ exported l (sink_out (ex_sink x)) (pr_last_seq (ex_progress x))
  end.

Lemma exported_more l out out' k : (forall r, r ∈ out -> r ∈ out') -> exported l out k -> exported l out' k.
Proof. intros Hsub [H1 H2]. split; [|done]. intros r Hr Hk. by apply Hsub, H1. Qed.

Lemma exported_grow l l' out k : stream_ok (l ++ l') -> exported l out k -> exported (l ++ l') out k.
Proof.
  intros [Hs Hp] [H1 H2]. apply StronglySorted_app in Hs as (Hs & _ & _). apply Forall_app in Hp as [_ Hp]. split.
  - intros r [Hr|Hr]%elem_of_app Hk; [by apply H1|]. exfalso. rewrite Forall_forall in Hp. specialize (Hp r Hr).
    destruct H2 as [->|(r0 & Hr0 & <-)]; [lia|]. specialize (Hs r0 r Hr0 Hr). lia.
  - destruct H2 as [->|(r0 & Hr0 & <-)]; [by left|right]. exists r0. by rewrite elem_of_app; auto.
Qed.

Lemma file_ok_more l out out' f : (forall r, r ∈ out -> r ∈ out') -> file_ok l out f -> file_ok l out' f.
Proof. intros Hsub (o & Ho & Hp). exists o. split; [done|]. intros p E. destruct (Hp p E). split; [done|]. by eapply exported_more. Qed.

Lemma file_ok_grow l l' out f : stream_ok (l ++ l') -> file_ok l out f -> file_ok (l ++ l') out f.
Proof. intros Hs (o & Ho & Hp). exists o. split; [done|]. intros p E. destruct (Hp p E). split; [done|]. by eapply exported_grow. Qed.

(** The next records reach from the old number to the last of them without a gap. *)
Lemma next_records_exported l out k n r rest :
  stream_ok l -> exported l out k -> next_records n k l = r :: rest -> exported l (out ++ r :: rest) (d_seq (List.last rest r)).
Proof.
  intros [Hs _] [H1 H2] Hn. set (x := List.last rest r). assert (x ∈ r :: rest) as Hx by apply last_elem. split.
  - intros a Ha Hk. apply elem_of_app. destruct (decide (d_seq a <= k)) as [Hle|Hgt]; [left; by apply H1|right].
    assert (a ∈ filter (fun r => k < d_seq r) l) as Hf by (apply list_elem_of_filter; split; [lia|done]).
    rewrite <- (take_drop n (filter _ l)) in Hf. fold (next_records n k l) in Hf. rewrite Hn in Hf. apply elem_of_app in Hf as [Hf|Hf]; [done|].
    exfalso. pose proof (sorted_filter _ (fun r => k < d_seq r) _ Hs) as Hsf. rewrite <- (take_drop n (filter _ l)) in Hsf.
    fold (next_records n k l) in Hsf. rewrite Hn in Hsf. apply StronglySorted_app in Hsf as (Hsf & _ & _). specialize (Hsf x a Hx Hf). cbn in Hsf. lia.
  - right. exists x. split; [|done]. rewrite <- Hn in Hx. unfold next_records in Hx.
    assert (x ∈ filter (fun r => k < d_seq r) l) as Hf by (rewrite <- (take_drop n (filter _ l)); apply elem_of_app; by left).
    by apply list_elem_of_filter in Hf as [_ Hf].
Qed.

Lemma save_step_ok l x now :
  in_range 64 now -> exp_ok (l, Up x) -> exp_ok (l, after_step (save_progress now x)).
Proof.
  intros Hnow (Hl & Hwf & Hf & Hp & He). unfold save_progress. destruct (save now (ex_progress x) (ex_file x)) as [r d'] eqn:E.
  destruct (save_spec _ _ _ _ _ Hwf E) as (Hwf' & Hin & _).
  assert (Forall (file_ok l (sink_out (ex_sink x))) (af_after_crash d')) as Hf'.
  { apply Forall_forall. intros f Hff. destruct (Hin f Hff) as [Hold| ->]; [rewrite Forall_forall in Hf; by apply Hf|].
    exists (Some (ex_progress x)). split; [by apply load_saved|]. by intros p [= <-]. }
  destruct r as [u|e]; by split_and!.
Qed.

Lemma push_out env rs s : sink_out (sink_push env rs s).2 = sink_out s ++ rs.
Proof. pose proof (push_keeps env rs s) as Hk. by rewrite !holds_nothing, app_nil_r, app_nil_l in Hk. Qed.

Lemma export_step_ok l x env due now n :
  in_range 64 now -> exp_ok (l, Up x) -> exp_ok (l, after_step (export_records env due now (next_records n (pr_last_seq (ex_progress x)) l) x)).
Proof.
  intros Hnow Hx. destruct (Hx) as (Hl & Hwf & Hf & Hp & He). destruct (next_records n _ l) as [|r rest] eqn:En; [done|]. cbn [export_records].
  pose proof (push_out env (r :: rest) (ex_sink x)) as Ho. destruct (sink_push env (r :: rest) (ex_sink x)) as [ok s]. cbn [snd] in Ho.
  assert (forall a, a ∈ sink_out (ex_sink x) -> a ∈ sink_out s) as Hsub by (intros a Ha; rewrite Ho; apply elem_of_app; by left).
  assert (Forall (file_ok l (sink_out s)) (af_after_crash (ex_file x))) as Hf' by (eapply Forall_impl; [exact Hf|]; intros f; by apply file_ok_more).
  destruct ok; [|by split_and!].
  assert (exported l (sink_out s) (d_seq (List.last rest r))) as He' by (rewrite Ho; by eapply next_records_exported).
  assert (exp_ok (l, Up (mkExporter (with_last (d_seq (List.last rest r)) (ex_progress x)) s (ex_file x)))) as Hx'.
  { split; [exact Hl|]. split; [exact Hwf|]. split; [exact Hf'|]. split; [|exact He']. destruct Hp as (P1 & P2 & P3 & P4 & P5). split_and!; try done.
    cbn [ex_progress with_last pr_last_seq]. destruct He' as [_ [->|(a & Ha & <-)]]; [by split|]. destruct Hl as [_ Hl]. rewrite Forall_forall in Hl.
    specialize (Hl a Ha). cbn beta in Hl. split; [lia|apply Hl]. }
  destruct due; [by apply save_step_ok|exact Hx'].
Qed.

Lemma exp_step_ok ns st w w' : field_ok ns -> field_ok st -> exp_step ns st w w' -> exp_ok w -> exp_ok w'.
Proof.
  intros Hns Hst Hstep Hok. destruct Hstep as [l l' e Hg|l out file wm p Hn Hs|l x env due now n Hnow|l x now Hnow|l x|l x f faults Hin].
  - destruct Hok as [Hl Hok]. split; [done|]. destruct e as [out file|x].
    + destruct Hok as [Hwf Hf]. split; [done|]. eapply Forall_impl; [exact Hf|]. intros f. by apply file_ok_grow.
    + destruct Hok as (Hwf & Hf & Hp & He). split; [exact Hwf|]. split; [|split; [exact Hp|by apply exported_grow]]. eapply Forall_impl; [exact Hf|]. intros f. by apply file_ok_grow.
  - destruct Hok as (Hl & Hwf & Hf). cbn. rewrite fresh_out. unfold start in Hs. rewrite Forall_forall in Hf. destruct (Hf _ Hwf) as (o & Ho & Hp). rewrite Ho in Hs.
    destruct (_ && _); [done|]. injection Hs as <-.
    assert (progress_fits (default (mkProgress (wm_node_id wm) 0 ns st 0) o) /\ exported l out (pr_last_seq (default (mkProgress (wm_node_id wm) 0 ns st 0) o))) as [H1 H2].
    { destruct o as [p|]; [by apply Hp|]. cbn [default from_option]. split; [by split_and!|]. split; [|by left]. intros r Hr Hk. destruct Hl as [_ Hl].
      rewrite Forall_forall in Hl. specialize (Hl r Hr). cbn in Hk. lia. }
    split; [exact Hl|]. split; [exact Hwf|]. split; [by apply Forall_forall|by split].
  - by apply export_step_ok.
  - by apply save_step_ok.
  - destruct Hok as (Hl & Hwf & Hf & _). by split_and!.
  - destruct Hok as (Hl & Hwf & Hf & _). split; [done|]. split; [apply list_elem_of_singleton; done|]. rewrite Forall_forall in Hf.
    constructor; [by apply Hf|constructor].
Qed.

(** ** The pipeline takes these steps *)

(** The chunks of a scan, or the batches of a tail, follow each other. *)
Fixpoint follows (l : list DecodedRecord) (last : Z) (batches : list (list DecodedRecord)) : Prop :=
  match batches with
  | [] => True
  | rs :: batches =>
      (exists n, rs = next_records n last l) /\ follows l (match rs with [] => last | r :: rest => d_seq (List.last rest r) end) batches
  end.

Definition message_records (m : TailEvent) : option (list DecodedRecord) :=
  match m with TMessage _ _ _ false (r :: rest) => Some (r :: rest) | _ => None end.

Definition message_time (m : TailEvent) : Prop := match m with TMessage _ _ now _ _ => in_range 64 now | TError => True end.

Lemma export_last env due now rs (x x' : Exporter S) u :
  export_records env due now rs x = (Ok u, x') ->
  pr_last_seq (ex_progress x') = match rs with [] => pr_last_seq (ex_progress x) | r :: rest => d_seq (List.last rest r) end.
Proof.
  unfold export_records, save_progress. destruct rs as [|r rest]; [by intros [= _ <-]|]. destruct (sink_push _ _ _) as [[] s]; [|done].
  destruct due; [|by intros [= _ <-]]. cbn [ex_progress ex_file ex_sink]. destruct (save _ _ _) as [[]]; [|done]. by intros [= _ <-].
Qed.

Lemma scan_phase_steps ns st l chunks x :
  follows l (pr_last_seq (ex_progress x)) chunks.*2 -> Forall (fun c => in_range 64 c.1.2) chunks ->
  rtc (exp_step ns st) (l, Up x) (l, after_step (scan_phase chunks x)).
Proof.
  revert x. induction chunks as [|[[env now] rs] chunks IH]; intros x Hf Ht; [apply rtc_refl|]. apply Forall_cons in Ht as [Hnow Ht].
  destruct Hf as [[n Hn] Hf]. cbn [snd fst] in Hn, Hf, Hnow. subst rs. cbn [scan_phase]. pose proof (es_export ns st l x env true now n Hnow) as Hstep.
  destruct (export_records env true now (next_records n (pr_last_seq (ex_progress x)) l) x) as [[u|e] x'] eqn:E; [|apply rtc_once; exact Hstep].
  eapply rtc_l; [exact Hstep|]. apply IH; [|done]. by rewrite (export_last _ _ _ _ _ _ _ E).
Qed.

Lemma tail_phase_steps ns st l now messages x :
  in_range 64 now -> follows l (pr_last_seq (ex_progress x)) (omap message_records messages) -> Forall message_time messages ->
  rtc (exp_step ns st) (l, Up x) (l, after_step (tail_phase now messages x)).
Proof.
  intros Hnow. revert x. induction messages as [|[env due t hb rs|] messages IH]; intros x Hf Ht; cbn [tail_phase].
  - apply rtc_once. by apply es_save.
  - apply Forall_cons in Ht as [Ht1 Ht]. destruct hb; cbn [orb]; [by apply IH|]. case_bool_decide as Ers; [subst rs; by apply IH|].
    destruct rs as [|r rest]; [done|]. destruct Hf as [[n En] Hf].
    pose proof (es_export ns st l x env due t n Ht1) as Hstep. rewrite <- En in Hstep.
    destruct (export_records env due t (r :: rest) x) as [[u|e] x'] eqn:E; [|apply rtc_once; exact Hstep].
    eapply rtc_l; [exact Hstep|]. apply IH; [by rewrite (export_last _ _ _ _ _ _ _ E)|done].
  - apply rtc_once. apply es_exit.
Qed.

(** The tails of a run follow each other too, each from the number the one before it
    reached. *)
Fixpoint calls_follow (l : list DecodedRecord) (calls : list TailCall) (x : Exporter S) : Prop :=
  match calls with
  | [] => True
  | TailRefused _ :: calls => calls_follow l calls x
  | TailOpened now messages :: calls =>
      in_range 64 now /\ follows l (pr_last_seq (ex_progress x)) (omap message_records messages) /\ Forall message_time messages /\
      match tail_phase now messages x with (Ok _, x') => calls_follow l calls x' | _ => True end
  end.

Lemma tail_loop_steps ns st l calls s x :
  calls_follow l calls x ->
  rtc (exp_step ns st) (l, Up x) (l, after_step ((tail_loop calls s x).1, (tail_loop calls s x).2.2)).
Proof.
  revert s x. induction calls as [|[now messages|made] calls IH]; intros s x Hf; cbn [tail_loop]; [apply rtc_refl| |].
  - destruct Hf as (Hnow & Hf & Ht & Hn). pose proof (tail_phase_steps ns st l now messages x Hnow Hf Ht) as Hs.
    destruct (tail_phase now messages x) as [[u|e] x'] eqn:E; [|exact Hs]. etrans; [exact Hs|]. by apply IH.
  - unfold failover. destruct made; [by apply IH|]. apply rtc_once, es_exit.
Qed.

(** What [run] does is such a history. *)
Lemma run_steps ns st l wm chunks calls s x :
  (forall cs, chunks = Some cs -> follows l (pr_last_seq (ex_progress x)) cs.*2 /\ Forall (fun c => in_range 64 c.1.2) cs /\
    match scan_phase cs x with (Ok _, x') => calls_follow l calls x' | _ => True end) ->
  calls_follow l calls x ->
  rtc (exp_step ns st) (l, Up x) (l, after_step ((run wm chunks calls s x).1, (run wm chunks calls s x).2.2)).
Proof.
  intros Hc Hf. unfold run. destruct (_ <=? _); [|by apply tail_loop_steps]. destruct chunks as [cs|]; [|apply rtc_once, es_exit].
  destruct (Hc cs eq_refl) as (Hcs & Ht & Hn). pose proof (scan_phase_steps ns st l cs x Hcs Ht) as Hs.
  destruct (scan_phase cs x) as [[u|e] x'] eqn:E; [|exact Hs]. etrans; [exact Hs|]. by apply tail_loop_steps.
Qed.

(** C29: Through any crashes, failed saves and restarts, an exporter whose sink writes
    through never skips a record: every record of the stream up to the number in its
    progress, in memory or in whatever a crash leaves of the file, has been put out,
    and the file can always be loaded.  This is for a server that hands over the
    stream's records in the order of their numbers and without gaps, new ones only
    behind those there were: with one shard, on which scans and tails do so.  (With
    several shards a scan is in the order of ids and a tail passes over slower shards,
    see [scan_next_seq_skips] and [tail_skips_slower_shard]: the exporter then takes the
    number of the last record it got and skips the others.)  The names fit their
    fields of the progress file. *)
Theorem exporter_never_skips (ns st : bytes) (l l' : list DecodedRecord) (faults : list (option Z)) (e : ExpState) :
  field_ok ns -> field_ok st -> stream_ok l ->
  rtc (exp_step ns st) (l, Down [] (mkAtomicFile None [] false [None] faults)) (l', e) ->
  match e with
  | Down out file => forall f, f ∈ af_after_crash file ->
      exists o, load f = Ok o /\ forall p r, o = Some p -> r ∈ l' -> d_seq r <= pr_last_seq p -> r ∈ out
  | Up x => forall r, r ∈ l' -> d_seq r <= pr_last_seq (ex_progress x) -> r ∈ sink_out (ex_sink x)
  end.
Proof.
  intros Hns Hst Hl Hr. assert (exp_ok (l', e)) as Hok.
  { remember (l, Down [] (mkAtomicFile None [] false [None] faults)) as w0 eqn:E0. remember (l', e) as w1 eqn:E1.
    assert (exp_ok w0) as H0. { subst w0. split; [done|]. split; [apply list_elem_of_singleton; done|]. constructor; [|constructor]. exists None. split; [done|]. by intros p. }
    clear E0 E1. induction Hr as [|w1 w2 w3 H12 _ IH]; [done|]. apply IH. exact (exp_step_ok ns st _ _ Hns Hst H12 H0). }
  destruct Hok as [_ Hok]. destruct e as [out file|x].
  - destruct Hok as [_ Hf]. intros f Hff. rewrite Forall_forall in Hf. destruct (Hf f Hff) as (o & Ho & Hp). exists o. split; [done|].
    intros p r E. destruct (Hp p E) as [_ [He _]]. apply He.
  - destruct Hok as (_ & _ & _ & He & _). exact He.
Qed.

End Histories.

Arguments ExpState S : clear implicits.

(** ** Where the exporter falls short *)

#[local] Instance exporter_demo_externals : Externals := toy.

Definition demo_rec (seq : Z) : DecodedRecord := mkDecoded 1 7 seq (demo_text 3) [] [] 5 (demo_text 2) 0.
Definition demo_stream : list DecodedRecord := demo_rec <$> [1; 2; 3].
Definition demo_wm : Watermark := mkWatermark (demo_text 1) 0 3.
Definition demo_dir (f : option bytes) : AtomicFile := mkAtomicFile f [] false [f] [].
Definition demo_quiet : PushEnv := mkPushEnv false true.
Definition demo_begin : Progress := mkProgress (demo_text 1) 0 (demo_text 1) (demo_text 2) 0.

(** The progress is saved when the sink has the records, which the ClickHouse sink may
    still hold in its buffer: a crash loses them, and the next start goes on behind
    them. *)
Theorem buffered_records_are_lost :
  let '(a, x) := scan_phase (SK := clickhouse_sink 100) [(demo_quiet, 9, demo_stream)] (mkExporter demo_begin (mkClickHouse [] []) (demo_dir None)) in
  let after := start demo_wm (demo_text 1) (demo_text 2) (af_dat (ex_file x)) in
  a = Ok tt /\ ck_out (ex_sink x) = [] /\ (exists p, after = Ok p /\ pr_last_seq p = 3 /\ next_records 10 (pr_last_seq p) demo_stream = []).
Proof. split; [by vm_compute|]. split; [by vm_compute|]. eexists. by split_and!; vm_compute. Qed.

(** The progress file names its stream, but nothing compares it: an exporter that is
    pointed at another stream goes on at the old stream's number. *)
Theorem progress_of_other_stream_is_used :
  let f := Some (encode_progress 9 (mkProgress (demo_text 1) 0 (demo_text 1) (demo_text 2) 3)) in
  exists p, start demo_wm (demo_text 1) (demo_text 5) f = Ok p /\ pr_stream p = demo_text 2 /\ pr_last_seq p = 3.
Proof. eexists. by split_and!; vm_compute. Qed.

(** A file that is long enough for the fixed fields but not for the names panics. *)
Theorem short_progress_panics :
  let buf := to_le 4 PROGRESS_MAGIC ++ to_le 2 PROGRESS_VERSION ++ zeros 26 in
  load (Some (buf ++ to_le 4 (crc32c buf))) = Err PPanic.
Proof. by vm_compute. Qed.

(** ** Witness *)

Definition demo_exported : result ExportError unit * Exporter StdoutSink :=
  scan_phase [(demo_quiet, 9, demo_stream)] (mkExporter demo_begin (mkStdout []) (demo_dir None)).

Lemma demo_stream_ok : stream_ok demo_stream.
Proof. split; [by repeat constructor|]. apply (bool_decide_unpack _). by vm_compute. Qed.

Lemma exporter_never_skips_witness :
  pr_last_seq (ex_progress demo_exported.2) = 3 /\ demo_rec 2 ∈ sink_out (ex_sink demo_exported.2).
Proof.
  split; [by vm_compute|].
  assert (rtc (exp_step (demo_text 1) (demo_text 2)) (demo_stream, Down [] (mkAtomicFile None [] false [None] [])) (demo_stream, after_step demo_exported)) as Hr.
  { eapply rtc_l; [apply (es_start _ _ _ [] (demo_dir None) demo_wm demo_begin); [by split; vm_compute|by vm_compute]|].
    apply scan_phase_steps; [|by constructor; [split|constructor]]. split; [by exists 10%nat; vm_compute|done]. }
  pose proof (exporter_never_skips (demo_text 1) (demo_text 2) demo_stream demo_stream [] _ ltac:(by split; vm_compute) ltac:(by split; vm_compute) demo_stream_ok Hr) as H.
  assert (after_step demo_exported = Up demo_exported.2) as E by (by vm_compute). rewrite E in H. apply H.
  - apply list_elem_of_fmap_2. right. left.
  - by vm_compute.
Defined.
