(* ===== verification/KeyProvider.v ===== *)
(** * Encryption keys of the server ([logdbd/src/crypto/provider.rs],
      [EncryptionConfig::resolve_key_ring] of [logdbd/src/config.rs])

    The configured keys become the key ring of the log.  The crate [hex] is the class
    [HexCodec].  A key that is no longer active but still configured decrypts what was
    written under it. *)
From stdpp Require Import base list numbers strings.
From coqutil Require Import Byte.
From Stdlib Require Import ZArith Lia.

From S2P Require Import Prelude Externals ByteReader KeyRing Frame.

Open Scope Z_scope.

(** The bytes of a literal. *)
Definition str (s : String.string) : bytes := String.list_byte_of_string s.
Arguments str s%_string_scope.

(** ** [str::trim] *)

(** The encodings of the characters with the property White_Space. *)
Definition WHITE_SPACE : list bytes :=
  map (map byte.of_Z)
    ([[9]; [10]; [11]; [12]; [13]; [32]; [194; 133]; [194; 160]; [225; 154; 128]] ++
     map (fun b => [226; 128; b]) [128; 129; 130; 131; 132; 133; 134; 135; 136; 137; 138; 168; 169; 175] ++
     [[226; 129; 159]; [227; 128; 128]]).

Definition starts_with (s p : bytes) : bool := bool_decide (take (length p) s = p).

Fixpoint trim_start_with (seps : list bytes) (fuel : nat) (s : bytes) : bytes :=
  match fuel with
  | O => s
  | S fuel =>
      match List.find (starts_with s) seps with
      | Some p => trim_start_with seps fuel (drop (length p) s)
      | None => s
      end
  end.

Definition trim_start (s : bytes) : bytes := trim_start_with WHITE_SPACE (length s) s.
Definition trim_end (s : bytes) : bytes := rev (trim_start_with (@rev byte <$> WHITE_SPACE) (length s) (rev s)).
Definition trim (s : bytes) : bytes := trim_end (trim_start s).

(** ** Configuration *)

Inductive ProviderType := File | AwsKms | Vault.

Record EncryptionKey := mkEncryptionKey { ek_key_id : bytes; ek_key_hex : bytes }.

Record EncryptionConfig := mkEncryption {
  en_enabled : bool;
  en_algorithm : bytes;
  en_keys : list EncryptionKey;
  en_active_key_id : option bytes;
  en_provider : ProviderType;
}.

Definition default_encryption_algo : bytes := str "aes-256-gcm".

(** [EncryptionConfig::default]. *)
Definition default_encryption : EncryptionConfig := mkEncryption false default_encryption_algo [] None File.

Inductive KeyError :=
  | UnsupportedAlgorithm (a : bytes)
  | NoKeys
  | InvalidHex (key_id : bytes)
  | WrongKeyLength (key_id : bytes) (len : Z)
  | NoActiveKeyId
  | UnknownActiveKeyId (active : bytes) (available : list bytes)
  | ProviderUnavailable (kind : bytes).

(** ** The file provider *)

(** The crate [hex]: two lower-case digits per byte, which decode to what was encoded. *)
Class HexCodec := {
  hex_encode : bytes -> bytes;
  hex_decode : bytes -> option bytes;
  hex_round b : hex_decode (hex_encode b) = Some b;
  hex_digits b : Forall (fun c => byte_in 48 57 c || byte_in 97 102 c) (hex_encode b);
  hex_length b : length (hex_encode b) = (2 * length b)%nat;
}.

(** The trait [KeyProvider]. *)
Class KeyProvider (P : Type) := resolve : P -> result KeyError KeyRing.

Record FileKeyProvider := mkFileProvider {
  fp_algorithm : bytes;
  fp_keys : list bytes;
  fp_key_hex : list bytes;
  fp_active_key_id : option bytes;
}.

Definition from_config (enc : EncryptionConfig) : FileKeyProvider :=
  mkFileProvider (en_algorithm enc) (ek_key_id <$> en_keys enc) (ek_key_hex <$> en_keys enc) (en_active_key_id enc).

Section Provider.
Context {hex : HexCodec}.

(** One turn of the decoding loop. *)
Definition decode_key (k : bytes * bytes) : result KeyError (bytes * bytes) :=
  match hex_decode (trim k.2) with
  | None => Err (InvalidHex k.1)
  | Some b => if blen b =? 32 then Ok (k.1, b) else Err (WrongKeyLength k.1 (blen b))
  end.

Fixpoint decode_keys (ks : list (bytes * bytes)) : result KeyError (list (bytes * bytes)) :=
  match ks with
  | [] => Ok []
  | k :: ks =>
      match decode_key k with
      | Err e => Err e
      | Ok d => match decode_keys ks with Err e => Err e | Ok ds => Ok (d :: ds) end
      end
  end.

(** [FileKeyProvider::resolve]; the prior keys are the others, in order. *)
Definition file_resolve (fp : FileKeyProvider) : result KeyError KeyRing :=
  if negb (bool_decide (fp_algorithm fp = default_encryption_algo)) then Err (UnsupportedAlgorithm (fp_algorithm fp))
  else if bool_decide (fp_keys fp = []) then Err NoKeys
  else
    match decode_keys (zip (fp_keys fp) (fp_key_hex fp)) with
    | Err e => Err e
    | Ok decoded =>
        match fp_active_key_id fp with
        | None => Err NoActiveKeyId
        | Some active_id =>
            match list_find (fun d : bytes * bytes => d.1 = active_id) decoded with
            | None => Err (UnknownActiveKeyId active_id (fp_keys fp))
            | Some (i, d) => Ok (kr_new d.2 (snd <$> (take i decoded ++ drop (S i) decoded)))
            end
        end
    end.

#[global] Instance file_provider : KeyProvider FileKeyProvider := file_resolve.

(** [build_provider]: only the file provider is built in. *)
Definition build_provider (enc : EncryptionConfig) : result KeyError FileKeyProvider :=
  match en_provider enc with
  | File => Ok (from_config enc)
  | AwsKms => Err (ProviderUnavailable (str "awskms"))
  | Vault => Err (ProviderUnavailable (str "vault"))
  end.

(** [resolve_key_ring]. *)
Definition resolve_key_ring (enc : EncryptionConfig) : result KeyError (option KeyRing) :=
  if negb (en_enabled enc) then Ok None
  else
    match build_provider enc with
    | Err e => Err e
    | Ok p => match resolve p with Err e => Err e | Ok ring => Ok (Some ring) end
    end.

End Provider.

(** ** Trimming leaves hexadecimal digits alone *)

Definition hex_digit (c : byte) : bool := byte_in 48 57 c || byte_in 97 102 c.

(** The separators start with no digit. *)
Definition no_digit_head (seps : list bytes) : bool :=
  forallb (fun p : bytes => match p with [] => false | c :: _ => negb (hex_digit c) end) seps.

Lemma trim_start_digits seps fuel s :
  no_digit_head seps = true -> Forall hex_digit s -> trim_start_with seps fuel s = s.
Proof.
  intros Hp Hs. destruct fuel as [|fuel]; [done|]. cbn [trim_start_with].
  destruct (List.find (starts_with s) seps) as [p|] eqn:E; [|done]. exfalso. apply find_some in E as [Hin E].
  unfold no_digit_head in Hp. rewrite forallb_forall in Hp. specialize (Hp p Hin). destruct p as [|c p]; [done|]. cbn beta iota in Hp.
  apply bool_decide_eq_true in E. destruct s as [|d s]; [done|]. injection E as -> _.
  apply Forall_cons in Hs as [Hd _]. by destruct (hex_digit c).
Qed.

Lemma trim_digits s : Forall hex_digit s -> trim s = s.
Proof.
  intros Hs. unfold trim, trim_end, trim_start. rewrite (trim_start_digits WHITE_SPACE _ s) by done.
  rewrite trim_start_digits; [apply rev_involutive|done|]. apply Forall_forall. intros c Hc%list_elem_of_In%in_rev%list_elem_of_In.
  rewrite Forall_forall in Hs. by apply Hs.
Qed.

(** ** What the provider resolves *)

Section Resolved.
Context {hex : HexCodec}.

Lemma decode_keys_spec ks ds :
  decode_keys ks = Ok ds ->
  Forall2 (fun k d : bytes * bytes => d.1 = k.1 /\ hex_decode (trim k.2) = Some d.2 /\ length d.2 = 32%nat) ks ds.
Proof.
  revert ds. induction ks as [|k ks IH]; intros ds; cbn [decode_keys]; [intros [= <-]; constructor|].
  unfold decode_key. destruct (hex_decode (trim k.2)) as [b|] eqn:Eh; [|done]. destruct (Z.eqb_spec (blen b) 32) as [El|]; [|done].
  destruct (decode_keys ks) as [ds'|]; [|done]. intros [= <-]. constructor; [|by apply IH]. cbn. split_and!; [done|done|lia].
Qed.

(** The keys that a list of keys decodes to. *)
Definition decoded_key (k : EncryptionKey) (b : bytes) : Prop := hex_decode (trim (ek_key_hex k)) = Some b /\ length b = 32%nat.

Lemma zip_key_fields (ks : list EncryptionKey) : zip (ek_key_id <$> ks) (ek_key_hex <$> ks) = (fun k => (ek_key_id k, ek_key_hex k)) <$> ks.
Proof. induction ks as [|k ks IH]; [done|]. cbn. by f_equal. Qed.

Lemma delete_middle {A} (l : list A) i x : l !! i = Some x -> l ≡ₚ x :: take i l ++ drop (S i) l.
Proof. intros Hi. rewrite <- (take_drop_middle l i x Hi) at 1. by rewrite Permutation_middle. Qed.

(** The ring's keys are the configured ones; the active one is that of the id. *)
Lemma resolve_spec enc ring :
  resolve_key_ring enc = Ok (Some ring) ->
  exists ds, Forall2 (fun k d => d.1 = ek_key_id k /\ decoded_key k d.2) (en_keys enc) ds /\
    decrypt_keys ring ≡ₚ (fun d => (key_id_from_bytes d.2, d.2)) <$> ds /\
    exists a, en_active_key_id enc = Some a /\ (a, kr_active ring) ∈ ds.
Proof.
  unfold resolve_key_ring, build_provider. destruct (en_enabled enc); [|done]. destruct (en_provider enc); [|done|done]. cbn [negb].
  unfold resolve, file_provider, file_resolve, from_config. cbn [fp_algorithm fp_keys fp_key_hex fp_active_key_id].
  destruct (negb _); [done|]. case_bool_decide; [done|]. destruct (decode_keys _) as [ds|] eqn:Ed; [|done].
  destruct (en_active_key_id enc) as [a|] eqn:Ea; [|done]. destruct (list_find _ ds) as [[i d]|] eqn:Ef; [|done]. intros [= <-].
  apply list_find_Some in Ef as (Hi & Hd & _). apply decode_keys_spec in Ed. rewrite zip_key_fields in Ed. apply Forall2_fmap_l in Ed.
  exists ds. split; [|split].
  - eapply Forall2_impl; [exact Ed|]. intros k e (H1 & H2 & H3). by split.
  - cbn [kr_new decrypt_keys]. rewrite (delete_middle ds i d Hi) at 3. cbn [fmap list_fmap]. constructor. by rewrite <- list_fmap_compose.
  - exists a. split; [done|]. cbn [kr_new kr_active]. subst a. apply list_elem_of_lookup_2 with i. by destruct d.
Qed.

Lemma ring_keys_are_32 enc ring :
  resolve_key_ring enc = Ok (Some ring) -> Forall (fun e : Z * bytes => length e.2 = 32%nat) (decrypt_keys ring).
Proof.
  intros (ds & Hd & -> & _)%resolve_spec. apply Forall_fmap, Forall_forall. intros d Hin. cbn. apply list_elem_of_lookup in Hin as [i Hi].
  destruct (Forall2_lookup_r _ _ _ _ _ Hd Hi) as (k & _ & _ & _ & Hl). exact Hl.
Qed.

(** Keys that stay configured stay in the ring. *)
Lemma rotation_keeps_keys enc1 enc2 ring1 ring2 e :
  resolve_key_ring enc1 = Ok (Some ring1) -> resolve_key_ring enc2 = Ok (Some ring2) -> en_keys enc1 ⊆ en_keys enc2 ->
  e ∈ decrypt_keys ring1 -> e ∈ decrypt_keys ring2.
Proof.
  intros (ds1 & H1 & P1 & _)%resolve_spec (ds2 & H2 & P2 & _)%resolve_spec Hsub. rewrite P1, P2. intros (d & -> & Hd)%list_elem_of_fmap.
  apply list_elem_of_lookup in Hd as [i Hi]. destruct (Forall2_lookup_r _ _ _ _ _ H1 Hi) as (k & Hk & _ & Hdk & _).
  assert (k ∈ en_keys enc2) as [j Hj]%list_elem_of_lookup by (by apply Hsub, list_elem_of_lookup_2 with i).
  destruct (Forall2_lookup_l _ _ _ _ _ H2 Hj) as (d' & Hd' & _ & Hdk' & _). rewrite Hdk in Hdk'. injection Hdk' as ->.
  apply list_elem_of_fmap. exists d'. split; [done|]. by apply list_elem_of_lookup_2 with j.
Qed.

Lemma active_in_ring enc ring : resolve_key_ring enc = Ok (Some ring) -> exists id, (id, kr_active ring) ∈ decrypt_keys ring.
Proof.
  intros (ds & _ & P & a & _ & Hin)%resolve_spec. exists (key_id_from_bytes (kr_active ring)). rewrite P. apply list_elem_of_fmap. by exists (a, kr_active ring).
Qed.

(** A well-formed configuration resolves, to the key its active id names. *)
Theorem configured_keys_resolve (ks : list (bytes * bytes)) a k :
  NoDup ks.*1 -> Forall (fun e : bytes * bytes => length e.2 = 32%nat) ks -> (a, k) ∈ ks ->
  exists ring,
    resolve_key_ring (mkEncryption true default_encryption_algo ((fun e => mkEncryptionKey e.1 (hex_encode e.2)) <$> ks) (Some a) File) = Ok (Some ring) /\
    kr_active ring = k /\ decrypt_keys ring ≡ₚ (fun e => (key_id_from_bytes e.2, e.2)) <$> ks.
Proof.
  intros Hnd Hl Hin. set (enc := mkEncryption _ _ _ _ _).
  assert (decode_keys (zip (fp_keys (from_config enc)) (fp_key_hex (from_config enc))) = Ok ks) as Hd.
  { cbn. rewrite zip_key_fields, <- list_fmap_compose. clear Hnd Hin enc. induction Hl as [|[i b] ks Hb _ IH]; [done|].
    cbn [fmap list_fmap decode_keys compose ek_key_id ek_key_hex fst snd] in *. unfold decode_key. cbn [fst snd].
    rewrite trim_digits by apply hex_digits. rewrite hex_round, (proj2 (Z.eqb_eq _ _)) by lia. by rewrite IH. }
  assert (exists i d, list_find (fun d : bytes * bytes => d.1 = a) ks = Some (i, d)) as (i & d & Hf).
  { destruct (list_find_elem_of (fun d : bytes * bytes => d.1 = a) ks (a, k)) as [[i d] Hf]; [done|done|]. by exists i, d. }
  assert (d = (a, k)) as ->.
  { apply list_find_Some in Hf as (Hi & <- & _). apply list_elem_of_lookup in Hin as [j Hj].
    assert (i = j) as ->; [|congruence]. eapply NoDup_lookup; [exact Hnd|by rewrite list_lookup_fmap, Hi|by rewrite list_lookup_fmap, Hj]. }
  assert (resolve_key_ring enc = Ok (Some (kr_new k (snd <$> (take i ks ++ drop (S i) ks))))) as Hr.
  { unfold resolve_key_ring. cbn [en_enabled enc negb build_provider en_provider]. unfold resolve, file_provider, file_resolve. rewrite bool_decide_true by done.
    cbn [negb]. rewrite bool_decide_false by (cbn; destruct ks; [by apply elem_of_nil in Hin|done]). rewrite Hd. unfold enc. cbn [from_config fp_active_key_id en_active_key_id]. by rewrite Hf. }
  eexists. split; [exact Hr|]. split; [done|]. cbn [kr_new decrypt_keys]. apply list_find_Some in Hf as (Hi & _).
  rewrite (delete_middle ks i _ Hi) at 3. cbn [fmap list_fmap]. constructor. by rewrite <- list_fmap_compose.
Qed.

Context {ext : Externals} {laws : ExternalLaws}.

(** C32: Rotating the keys loses nothing.  A frame that was written under the active key of
    one configuration decodes under every later configuration that still lists that
    configuration's keys, whichever of them is active then. *)
Theorem frames_survive_rotation enc1 enc2 ring1 ring2 compressed nonce raw payload :
  resolve_key_ring enc1 = Ok (Some ring1) -> resolve_key_ring enc2 = Ok (Some ring2) -> en_keys enc1 ⊆ en_keys enc2 ->
  length nonce = 12%nat -> frame_payload compressed (Some (kr_active ring1)) nonce raw = Some payload ->
  decode_frame_payload payload compressed true (Some ring2) = Ok raw.
Proof.
  intros H1 H2 Hsub Hn Hp. apply (decode_payload compressed (Some (kr_active ring1)) (Some ring2) nonce); [done| |done].
  destruct (active_in_ring _ _ H1) as [id Hid]. exists ring2, id. split; [done|]. split; [exact (rotation_keeps_keys _ _ _ _ _ H1 H2 Hsub Hid)|exact (ring_keys_are_32 _ _ H2)].
Qed.

End Resolved.

(** ** Witness *)

Definition hex_char (n : Z) : byte := byte.of_Z (if n <? 10 then 48 + n else 87 + n).
Definition hex_value (c : byte) : option Z :=
  let z := byte.unsigned c in
  if byte_in 48 57 c then Some (z - 48) else if byte_in 97 102 c then Some (z - 87) else if byte_in 65 70 c then Some (z - 55) else None.

Fixpoint demo_hex_decode (s : bytes) : option bytes :=
  match s with
  | [] => Some []
  | [_] => None
  | a :: b :: s => x ← hex_value a; y ← hex_value b; r ← demo_hex_decode s; Some (byte.of_Z (16 * x + y) :: r)
  end.

Definition demo_hex_encode (s : bytes) : bytes := s ≫= fun c => [hex_char (byte.unsigned c / 16); hex_char (byte.unsigned c mod 16)].

Lemma hex_char_ok c :
  (x ← hex_value (hex_char (byte.unsigned c / 16)); y ← hex_value (hex_char (byte.unsigned c mod 16)); Some (byte.of_Z (16 * x + y))) = Some c /\
  hex_digit (hex_char (byte.unsigned c / 16)) && hex_digit (hex_char (byte.unsigned c mod 16)) = true.
Proof. by destruct c; vm_compute. Qed.

Definition demo_hex : HexCodec.
Proof.
  refine {| hex_encode := demo_hex_encode; hex_decode := demo_hex_decode |}.
  - induction b as [|c s IH]; [done|].
    change (demo_hex_decode (hex_char (byte.unsigned c / 16) :: hex_char (byte.unsigned c mod 16) :: demo_hex_encode s) = Some (c :: s)).
    cbn [demo_hex_decode]. rewrite IH. destruct (hex_char_ok c) as [Hc _].
    destruct (hex_value (hex_char (byte.unsigned c / 16))) as [x|]; [|done]. destruct (hex_value (hex_char (byte.unsigned c mod 16))) as [y|]; [|done].
    injection Hc as Hc. cbn. by rewrite Hc.
  - induction b as [|c s IH]; [constructor|]. destruct (hex_char_ok c) as [_ [H1 H2]%andb_prop].
    apply Forall_cons; split; [by apply Is_true_eq_left|]. apply Forall_cons; split; [by apply Is_true_eq_left|done].
  - induction b as [|c s IH]; [done|]. change (S (S (length (demo_hex_encode s))) = 2 * S (length s))%nat. lia.
Defined.

Section Demo.
#[local] Instance provider_demo_externals : Externals := toy.
#[local] Instance provider_demo_hex : HexCodec := demo_hex.

Definition demo_enc_key (id : String.string) (k : bytes) : EncryptionKey := mkEncryptionKey (str id) (hex_encode k).
Definition demo_enc1 : EncryptionConfig := mkEncryption true default_encryption_algo [demo_enc_key "a" demo_key1] (Some (str "a")) File.
Definition demo_enc2 : EncryptionConfig :=
  mkEncryption true default_encryption_algo [demo_enc_key "a" demo_key1; demo_enc_key "b" demo_key2] (Some (str "b")) File.

Lemma configured_keys_resolve_witness :
  exists ring, resolve_key_ring demo_enc2 = Ok (Some ring) /\ kr_active ring = demo_key2 /\ length (decrypt_keys ring) = 2%nat.
Proof.
  destruct (configured_keys_resolve [(str "a", demo_key1); (str "b", demo_key2)] (str "b") demo_key2) as (ring & H1 & H2 & H3).
  - apply (bool_decide_unpack _). by vm_compute.
  - by repeat constructor.
  - right. left.
  - exists ring. split; [exact H1|]. split; [exact H2|]. by rewrite H3.
Defined.

Lemma frames_survive_rotation_witness :
  exists ring1 ring2 payload, resolve_key_ring demo_enc1 = Ok (Some ring1) /\ resolve_key_ring demo_enc2 = Ok (Some ring2) /\
    frame_payload true (Some (kr_active ring1)) (zeros 12) (str "records") = Some payload /\
    decode_frame_payload payload true true (Some ring2) = Ok (str "records").
Proof.
  destruct (resolve_key_ring demo_enc1) as [[ring1|]|] eqn:E1; [|by vm_compute in E1..].
  destruct (resolve_key_ring demo_enc2) as [[ring2|]|] eqn:E2; [|by vm_compute in E2..].
  destruct (frame_payload true (Some (kr_active ring1)) (zeros 12) (str "records")) as [payload|] eqn:Ep; [|by vm_compute in E1; simplify_eq; vm_compute in Ep].
  exists ring1, ring2, payload. split_and!; [done|done|done|].
  apply (frames_survive_rotation (laws := toy_laws) demo_enc1 demo_enc2 ring1 ring2 true (zeros 12)); [exact E1|exact E2| |done|exact Ep].
  intros k Hk. apply list_elem_of_singleton in Hk as ->. left.
Defined.

End Demo.
