(* ===== verification/ServerStart.v ===== *)
(** * Configuration and start of the server ([logdbd/src/config.rs],
      [logdbd/src/main.rs], [logdbd/src/node.rs])

    The text of the configuration with its placeholders, the checks on what was read,
    the process lock, and what [main] builds before it serves: the certificate, the
    tokens and the configuration of the log.

    Files, environment variables, the YAML parser and the parser of socket addresses
    are parameters.  A text is its bytes: the characters that matter are ASCII and
    occur in no other character's encoding. *)
From stdpp Require Import base gmap list numbers strings relations.
From coqutil Require Import Byte.
From Stdlib Require Import ZArith Lia.
From S2P Require Import Prelude Externals Config ByteReader KeyRing Catalog Lifecycle Frame KeyProvider.
Open Scope Z_scope.

(** [Option::ok_or]. *)
Definition ok_or {E A} (e : E) (o : option A) : result E A := match o with Some a => Ok a | None => Err e end.

(** ** Placeholders *)

Definition NEWLINE : byte := Byte.x0a.
Definition HASH : byte := Byte.x23.
Definition DOLLAR : byte := Byte.x24.
Definition LBRACE : byte := Byte.x7b.
Definition RBRACE : byte := Byte.x7d.

Definition byte_eq (a b : byte) : bool := bool_decide (a = b).

(** A comment starts at the start of a line, of the text, or behind a blank; [out] is
    what has been produced so far, in reverse. *)
Definition comment_may_start (out : bytes) : bool :=
  match out with
  | [] => true
  | b :: _ => byte_eq b NEWLINE || byte_eq b Byte.x20 || byte_eq b Byte.x09
  end.

(** The name up to the closing brace, or the rest of the text. *)
Fixpoint read_name (s : bytes) : bytes * bytes :=
  match s with
  | [] => ([], [])
  | c :: s => if byte_eq c RBRACE then ([], s) else let '(name, rest) := read_name s in (c :: name, rest)
  end.

Inductive SubstError := MissingEnv (name : bytes).

(** The loop of [substitute_env]; [out] is the result, reversed. *)
Fixpoint subst_loop (env : bytes -> option bytes) (fuel : nat) (in_comment : bool) (out raw : bytes) : result SubstError bytes :=
  match fuel with
  | O => Ok out
  | S fuel =>
      match raw with
      | [] => Ok out
      | ch :: chars =>
          if byte_eq ch NEWLINE then subst_loop env fuel false (ch :: out) chars
          else if negb in_comment && byte_eq ch HASH && comment_may_start out then subst_loop env fuel true (ch :: out) chars
          else if in_comment then subst_loop env fuel true (ch :: out) chars
          else
            match chars with
            | b :: rest =>
                if byte_eq ch DOLLAR && byte_eq b LBRACE then
                  let '(name, rest) := read_name rest in
                  match env name with
                  | None => Err (MissingEnv name)
                  | Some v => subst_loop env fuel false (rev v ++ out) rest
                  end
                else subst_loop env fuel false (ch :: out) chars
            | [] => subst_loop env fuel false (ch :: out) chars
            end
      end
  end.

Definition substitute_env (env : bytes -> option bytes) (raw : bytes) : result SubstError bytes :=
  match subst_loop env (length raw) false [] raw with Ok r => Ok (rev r) | Err e => Err e end.

(** ** The configuration *)

Inductive NodeRole := Primary | Standby.
Inductive TlsMode := Mtls | Tls | Disabled.
Inductive AuthType := AuthToken | AuthMtls | AuthBoth.
Inductive BackpressurePolicy := BpBlock | BpReject.

#[global] Instance NodeRole_eq_dec : EqDecision NodeRole.
Proof. solve_decision. Defined.
#[global] Instance TlsMode_eq_dec : EqDecision TlsMode.
Proof. solve_decision. Defined.

Record NodeConfig := mkNode { n_id : bytes; n_role : NodeRole; n_cluster_id : bytes; n_epoch : Z }.

Record TlsConfig := mkTls { t_mode : TlsMode; t_cert_file : option bytes; t_key_file : option bytes; t_ca_file : option bytes }.

Record TokenConfig := mkToken { tc_token : bytes; tc_roles : list bytes }.

Record AuthConfig := mkAuth { a_type : AuthType; a_token_file : option bytes; a_tokens : list TokenConfig }.

Record ServerConfig := mkServer { s_bind : bytes; s_tls : TlsConfig; s_auth : AuthConfig; s_tail_heartbeat_interval_ms : Z }.

Record BackpressureConfig := mkBackpressure { b_policy : BackpressurePolicy; b_max_in_flight : Z }.

Record LogDbConfig := mkLogDb {
  l_data_dir : bytes;
  l_shards : Z;
  l_segment_size : Z;
  l_ring_size : Z;
  l_durability_mode : DurabilityMode;
  l_flush_timeout_ms : Z;
  l_backpressure : BackpressureConfig;
}.

Record CompressionConfig := mkCompression { cp_enabled : bool; cp_algorithm : bytes; cp_level : Z }.

Record StorageConfig := mkStorageConfig { sg_index_stride : Z; sg_compression : CompressionConfig; sg_encryption : EncryptionConfig }.

Record AuditConfig := mkAudit { au_hash_chain : bool; au_hash_algorithm : bytes }.

Record LimitsConfig := mkLimits {
  lm_max_record_size : Z;
  lm_max_batch_records : Z;
  lm_max_batch_bytes : Z;
  lm_max_scan_limit : Z;
  lm_max_tail_batch_size : Z;
  lm_quotas : list StreamQuota;
}.

Record RetentionConfig := mkRetention {
  rt_enabled : bool;
  rt_max_segments : Z;
  rt_max_age_days : Z;
  rt_require_replicated : bool;
  rt_require_exported : bool;
}.

(** [Config], without the settings of the replication, which [Replication] has, and of
    the observability. *)
Record NodeSettings := mkSettings {
  c_node : NodeConfig;
  c_server : ServerConfig;
  c_logdb : LogDbConfig;
  c_storage : StorageConfig;
  c_audit : AuditConfig;
  c_limits : LimitsConfig;
  c_retention : RetentionConfig;
}.

Definition default_tls : TlsConfig := mkTls Disabled None None None.
Definition default_auth : AuthConfig := mkAuth AuthToken None [].
Definition default_server : ServerConfig := mkServer (str "127.0.0.1:50051") default_tls default_auth 1000.
Definition default_backpressure : BackpressureConfig := mkBackpressure BpBlock 65536.
Definition default_logdb : LogDbConfig := mkLogDb (str "/var/lib/logdbd") 4 (256 * 1024 * 1024) 65536 Sync 5000 default_backpressure.
Definition default_compression : CompressionConfig := mkCompression true (str "zstd") 1.
Definition default_storage : StorageConfig := mkStorageConfig 1024 default_compression default_encryption.
Definition default_audit : AuditConfig := mkAudit true (str "blake3").
Definition default_limits : LimitsConfig := mkLimits (1024 * 1024) 1000 (16 * 1024 * 1024) 10000 10000 [].
Definition default_retention : RetentionConfig := mkRetention true 100 7 false false.

(** [Config::default]. *)
Definition default_settings : NodeSettings :=
  mkSettings (mkNode (str "logdbd") Primary (str "default") 1) default_server default_logdb default_storage default_audit default_limits default_retention.

(** ** Loading *)

Inductive ConfigInvalid := NodeIdEmpty | InvalidClusterId (s : bytes) | InvalidEpoch (e : Z).
Inductive ConfigLoadError := LoadIo | LoadParse | LoadMissingEnv (name : bytes) | LoadInvalid (e : ConfigInvalid).

(** [Config::validate]. *)
Definition validate_settings (c : NodeSettings) : result ConfigLoadError unit :=
  if bool_decide (n_id (c_node c) = []) then Err (LoadInvalid NodeIdEmpty)
  else if negb (validate_name (n_cluster_id (c_node c)) 1 64 false) then Err (LoadInvalid (InvalidClusterId (n_cluster_id (c_node c))))
  else if n_epoch (c_node c) <? 1 then Err (LoadInvalid (InvalidEpoch (n_epoch (c_node c))))
  else Ok tt.

(** [Config::load]. *)
Definition load_settings (file : option bytes) (env : bytes -> option bytes) (parse_yaml : bytes -> option NodeSettings) : result ConfigLoadError NodeSettings :=
  raw ← ok_or LoadIo file;
  if negb (utf8_valid raw) then Err LoadIo
  else
    text ← map_err (fun '(MissingEnv name) => LoadMissingEnv name) (substitute_env env raw);
    c ← ok_or LoadParse (parse_yaml text);
    _ ← validate_settings c;
    Ok c.

(** ** The process lock *)

Inductive LockError := LockIo | LockHeld | LockFailed.

(** What taking the lock of the file meets. *)
Inductive LockAnswer := LockFree | LockWouldBlock | LockOther.

(** [ProcessLock::acquire]: whether the lock is taken. *)
Definition acquire (role : NodeRole) (dir_ok file_ok : bool) (answer : LockAnswer) : result LockError bool :=
  match role with
  | Standby => Ok false
  | Primary =>
      if negb dir_ok then Err LockIo
      else if negb file_ok then Err LockIo
      else
        match answer with
        | LockFree => Ok true
        | LockWouldBlock => Err LockHeld
        | LockOther => Err LockFailed
        end
  end.

(** ** [main] *)

Inductive SocketAddr := V4 (a b c d port : Z) | V6 (segments : list Z) (port : Z).

(** [is_loopback]. *)
Definition is_loopback (s : SocketAddr) : bool :=
  match s with
  | V4 a _ _ _ _ => a =? 127
  | V6 segments _ => bool_decide (segments = [0; 0; 0; 0; 0; 0; 0; 1])
  end.

(** Environment variables, files, the parser of addresses, and whether the data directory
    and the lock's file can be made. *)
Record Machine := mkMachine {
  mc_env : bytes -> option bytes;
  mc_file : bytes -> option bytes;
  mc_addr : bytes -> option SocketAddr;
  mc_mkdir : bool;
  mc_lock_file : bool;
}.

(** [read_to_string]. *)
Definition read_to_string (m : Machine) (path : bytes) : option bytes := s ← mc_file m path; if utf8_valid s then Some s else None.

Inductive StartError :=
  | StartLock (e : LockError)
  | StartAddr
  | StartRefused
  | StartFile (path : bytes)
  | StartEmptyToken (path : bytes)
  | StartNoRoles (token : bytes)
  | StartDataDir
  | StartKeys (e : KeyError)
  | StartLog (e : ConfigError).

(** [Role::parse]. *)
Definition parse_role (s : bytes) : option Role :=
  if bool_decide (s = str "admin") then Some Admin
  else if bool_decide (s = str "writer") then Some Writer
  else if bool_decide (s = str "reader") then Some Reader
  else if bool_decide (s = str "subscriber") then Some Subscriber
  else None.

(** The certificate and key a server identifies itself with; clients are not asked for
    one. *)
Record ServerTls := mkServerTls { st_cert : bytes; st_key : bytes }.

(** [load_server_tls]. *)
Definition load_server_tls (m : Machine) (tls : TlsConfig) : result StartError (option ServerTls) :=
  match t_mode tls with
  | Disabled => Ok None
  | _ =>
      match t_cert_file tls, t_key_file tls with
      | Some c, Some k =>
          cert ← ok_or (StartFile c) (mc_file m c);
          key ← ok_or (StartFile k) (mc_file m k);
          Ok (Some (mkServerTls cert key))
      | _, _ => Ok None
      end
  end.

(** The CA file is read and not used. *)
Definition read_ca (m : Machine) (tls : TlsConfig) : result StartError (option bytes) :=
  match t_ca_file tls with
  | Some p => ca ← ok_or (StartFile p) (mc_file m p); Ok (Some ca)
  | None => Ok None
  end.

(** The refusal to serve other machines without protection. *)
Definition start_refused (m : Machine) (listen : SocketAddr) (s : ServerConfig) : bool :=
  let tls_enabled := negb (bool_decide (t_mode (s_tls s) = Disabled)) in
  let auth_enabled := bool_decide (is_Some (a_token_file (s_auth s))) in
  negb (is_loopback listen) && (negb tls_enabled || negb auth_enabled) && negb (bool_decide (mc_env m (str "LOGDBD_ALLOW_INSECURE") = Some (str "1"))).

(** The token of the token file. *)
Definition file_token (m : Machine) (auth : AuthConfig) : result StartError (list (bytes * list Role)) :=
  match a_token_file auth with
  | None => Ok []
  | Some p =>
      token ← ok_or (StartFile p) (read_to_string m p);
      if bool_decide (trim token = []) then Err (StartEmptyToken p) else Ok [(trim token, [Admin])]
  end.

(** The token of the environment. *)
Definition env_token (m : Machine) : list (bytes * list Role) :=
  match mc_env m (str "LOGDBD_AUTH_TOKEN") with
  | Some t => if bool_decide (t = []) then [] else [(t, [Admin])]
  | None => []
  end.

(** The tokens of the configuration. *)
Fixpoint config_tokens (tokens : list TokenConfig) : result StartError (list (bytes * list Role)) :=
  match tokens with
  | [] => Ok []
  | tc :: tokens =>
      match omap parse_role (tc_roles tc) with
      | [] => Err (StartNoRoles (tc_token tc))
      | roles => l ← config_tokens tokens; Ok ((tc_token tc, roles) :: l)
      end
  end.

(** The token entries, in their order. *)
Definition token_entries (m : Machine) (auth : AuthConfig) : result StartError (list (bytes * list Role)) :=
  f ← file_token m auth;
  t ← config_tokens (a_tokens auth);
  Ok (f ++ env_token m ++ t).

(** [AnyInterceptor] and the choice of it. *)
Inductive AnyInterceptor := Auth (tokens : gmap bytes (list Role)) | NoAuth.

Definition interceptor_for (entries : list (bytes * list Role)) : AnyInterceptor :=
  match entries with [] => NoAuth | _ => Auth (auth_new entries) end.

(** [AnyInterceptor::call]: the roles of a request, or [None] when it is refused. *)
Definition call_interceptor (i : AnyInterceptor) (header : option bytes) : option (list Role) :=
  match i with Auth tokens => intercept tokens header | NoAuth => Some [Admin] end.

(** The configuration of the log, its durability mode mapped by [map_durability], which
    keeps it. *)
Definition log_config (c : NodeSettings) : Config := {|
  segment_size := l_segment_size (c_logdb c);
  ring_size := l_ring_size (c_logdb c);
  shards := l_shards (c_logdb c);
  max_content_size := max_content_size default_config;
  cfg_hash_enabled := au_hash_chain (c_audit c);
  compression_enabled := cp_enabled (sg_compression (c_storage c));
  durability_mode := l_durability_mode (c_logdb c);
  queue_full_policy := queue_full_policy default_config;
  index_stride := index_stride default_config;
  retention := retention default_config |}.

Record Started := mkStarted {
  sd_listen : SocketAddr;
  sd_locked : bool;
  sd_tls : option ServerTls;
  sd_interceptor : AnyInterceptor;
  sd_log : Config;
  sd_keys : option KeyRing;
  sd_quotas : list StreamQuota;
}.

Section Main.
Context {hex : HexCodec}.

(** [main] up to the opening of the log, which starts by validating its configuration. *)
Definition server_start (m : Machine) (answer : LockAnswer) (c : NodeSettings) : result StartError Started :=
  locked ← map_err StartLock (acquire (n_role (c_node c)) (mc_mkdir m) (mc_lock_file m) answer);
  listen ← ok_or StartAddr (mc_addr m (s_bind (c_server c)));
  if start_refused m listen (c_server c) then Err StartRefused
  else
    tls ← load_server_tls m (s_tls (c_server c));
    entries ← token_entries m (s_auth (c_server c));
    _ ← read_ca m (s_tls (c_server c));
    if negb (mc_mkdir m) then Err StartDataDir
    else
      keys ← map_err StartKeys (resolve_key_ring (sg_encryption (c_storage c)));
      _ ← map_err StartLog (Config.validate (log_config c));
      Ok (mkStarted listen locked tls (interceptor_for entries) (log_config c) keys (lm_quotas (c_limits c))).

End Main.

(** ** Placeholders are filled in *)

(** A template: text, variables, and comments on lines of their own. *)
Inductive Segment := Text (s : bytes) | Var (name : bytes) | Comment (s : bytes).

Definition segment_ok (g : Segment) : bool :=
  match g with
  | Text s => forallb (fun c => negb (byte_eq c HASH) && negb (byte_eq c DOLLAR)) s
  | Var name => forallb (fun c => negb (byte_eq c RBRACE)) name
  | Comment s => forallb (fun c => negb (byte_eq c NEWLINE)) s
  end.

Definition segment_text (g : Segment) : bytes :=
  match g with
  | Text s => s
  | Var name => DOLLAR :: LBRACE :: name ++ [RBRACE]
  | Comment s => NEWLINE :: HASH :: s ++ [NEWLINE]
  end.

(** The text with the values, or the first variable that is not set. *)
Fixpoint fill (env : bytes -> option bytes) (l : list Segment) : result SubstError bytes :=
  match l with
  | [] => Ok []
  | Var name :: l => v ← ok_or (MissingEnv name) (env name); r ← fill env l; Ok (v ++ r)
  | g :: l => r ← fill env l; Ok (segment_text g ++ r)
  end.

Section Substitution.
Variable env : bytes -> option bytes.

Lemma read_name_length s : (length (read_name s).2 <= length s)%nat.
Proof. induction s as [|c s IH]; [done|]. cbn. destruct (byte_eq c RBRACE); [cbn; lia|]. destruct (read_name s) as [n r]. cbn in *. lia. Qed.

Lemma read_name_app name rest : forallb (fun c => negb (byte_eq c RBRACE)) name = true -> read_name (name ++ RBRACE :: rest) = (name, rest).
Proof. induction name as [|c name IH]; [done|]. cbn. intros [Hc Hn]%andb_prop. destruct (byte_eq c RBRACE); [done|]. by rewrite IH. Qed.

(** More fuel than the text is long changes nothing. *)
Lemma subst_fuel f1 f2 ic out raw :
  (length raw <= f1)%nat -> (length raw <= f2)%nat -> subst_loop env f1 ic out raw = subst_loop env f2 ic out raw.
Proof.
  revert f2 ic out raw. induction f1 as [|f1 IH]; intros [|f2] ic out raw H1 H2; [done|by destruct raw; [|cbn in *; lia]..|].
  destruct raw as [|ch chars]; [done|]. cbn [length] in *. cbn [subst_loop]. repeat case_match; try (apply IH; lia); try done.
  all: match goal with Hr : read_name ?r = (_, ?rest) |- _ => assert (length rest <= length r)%nat by (pose proof (read_name_length r) as Hl; by rewrite Hr in Hl) end.
  all: cbn [length] in *; apply IH; lia.
Qed.

Abbreviation go ic out raw := (subst_loop env (length raw) ic out raw).

Lemma go_text s out rest :
  forallb (fun c => negb (byte_eq c HASH) && negb (byte_eq c DOLLAR)) s = true -> go false out (s ++ rest) = go false (rev s ++ out) rest.
Proof.
  revert out. induction s as [|c s IH]; intros out; [done|]. cbn [forallb app length rev]. intros [[Hh Hd]%andb_prop Hs]%andb_prop.
  rewrite <- app_assoc. cbn [app]. rewrite <- IH by done. cbn [subst_loop negb andb]. destruct (byte_eq c NEWLINE); [done|].
  destruct (byte_eq c HASH); [done|]. cbn [andb]. destruct (byte_eq c DOLLAR); [done|]. cbn [andb]. by destruct (s ++ rest).
Qed.

Lemma go_comment s out rest :
  forallb (fun c => negb (byte_eq c NEWLINE)) s = true -> go true out (s ++ NEWLINE :: rest) = go false (NEWLINE :: rev s ++ out) rest.
Proof.
  revert out. induction s as [|c s IH]; intros out; [done|]. cbn [forallb app length rev]. intros [Hn Hs]%andb_prop.
  rewrite <- app_assoc. cbn [app]. rewrite <- IH by done. cbn [subst_loop negb andb]. by destruct (byte_eq c NEWLINE).
Qed.

Lemma subst_var fuel out name rest :
  forallb (fun c => negb (byte_eq c RBRACE)) name = true ->
  subst_loop env (S fuel) false out (DOLLAR :: LBRACE :: name ++ RBRACE :: rest) =
  match env name with Some v => subst_loop env fuel false (rev v ++ out) rest | None => Err (MissingEnv name) end.
Proof. intros Hn. cbn [subst_loop]. by rewrite read_name_app. Qed.

Lemma go_segment g out rest :
  segment_ok g = true ->
  go false out (segment_text g ++ rest) =
  match g with
  | Var name => match env name with Some v => go false (rev v ++ out) rest | None => Err (MissingEnv name) end
  | _ => go false (rev (segment_text g) ++ out) rest
  end.
Proof.
  destruct g as [s|name|s]; cbn [segment_ok segment_text]; intros Hs; [by apply go_text| |].
  - cbn [app]. rewrite <- app_assoc. cbn [app length]. rewrite subst_var by done. destruct (env name) as [v|]; [|done].
    apply subst_fuel; rewrite ?length_app; cbn [length]; lia.
  - cbn [app length subst_loop]. change (byte_eq NEWLINE NEWLINE) with true. change (byte_eq HASH NEWLINE) with false. change (byte_eq HASH HASH) with true.
    cbn [negb andb comment_may_start]. change (byte_eq NEWLINE NEWLINE) with true. cbn [orb andb].
    rewrite <- app_assoc. cbn [app]. rewrite go_comment by done. cbn [rev]. rewrite rev_app_distr. cbn [rev app]. by rewrite <- !app_assoc.
Qed.

Lemma go_segments l out :
  forallb segment_ok l = true -> go false out (l ≫= segment_text) = r ← fill env l; Ok (rev r ++ out).
Proof.
  revert out. induction l as [|g l IH]; intros out; [done|]. cbn [forallb]. intros [Hg Hl]%andb_prop.
  change ((g :: l) ≫= segment_text) with (segment_text g ++ (l ≫= segment_text)). rewrite go_segment by done.
  destruct g as [s|name|s]; cbn [fill segment_text].
  - rewrite IH by done. destruct (fill env l); [|done]. cbn. by rewrite rev_app_distr, app_assoc.
  - destruct (env name) as [v|]; [|done]. rewrite IH by done. cbn. destruct (fill env l); [|done]. cbn. by rewrite rev_app_distr, app_assoc.
  - rewrite IH by done. destruct (fill env l); [|done]. unfold mbind, result_bind. by rewrite rev_app_distr, app_assoc.
Qed.

(** A template is filled in with the values of its variables, its comments stay as they
    are, and the first variable that is not set is the error. *)
Theorem templates_are_filled (l : list Segment) :
  forallb segment_ok l = true -> substitute_env env (l ≫= segment_text) = fill env l.
Proof.
  intros Hl. unfold substitute_env. rewrite go_segments by done. destruct (fill env l) as [r|e]; [|done]. cbn. by rewrite app_nil_r, rev_involutive.
Qed.

End Substitution.

(** ** Who may call a server that was started *)

(** Requests pass the interceptor with the roles of the token they carry. *)
Lemma intercept_token entries header roles :
  intercept (auth_new entries) header = Some roles -> exists token, header = Some (bearer token) /\ (token, roles) ∈ entries.
Proof.
  unfold intercept, auth_new. intros [H|H]%insert_all_inv; [|by rewrite lookup_empty in H].
  apply list_elem_of_fmap in H as ([token rs] & [= Hh ->] & Hin). destruct header as [h|]; [|done]. exists token. cbn in Hh. by rewrite Hh.
Qed.

Section Guard.
Context {hex : HexCodec}.

Lemma server_start_inv m answer c sd :
  server_start m answer c = Ok sd ->
  start_refused m (sd_listen sd) (c_server c) = false /\ load_server_tls m (s_tls (c_server c)) = Ok (sd_tls sd) /\
  (exists entries, token_entries m (s_auth (c_server c)) = Ok entries /\ sd_interceptor sd = interceptor_for entries) /\
  Config.validate (sd_log sd) = Ok tt /\ sd_log sd = log_config c.
Proof.
  unfold server_start, mbind, result_bind. destruct (map_err StartLock _); [|done]. destruct (ok_or _ _) as [listen|]; [|done].
  destruct (start_refused _ _ _) eqn:Er; [done|]. destruct (load_server_tls _ _) as [tls|]; [|done]. destruct (token_entries _ _) as [entries|]; [|done].
  destruct (read_ca _ _); [|done]. destruct (negb _); [done|]. destruct (map_err StartKeys _); [|done].
  destruct (Config.validate (log_config c)) as [[]|] eqn:Ev; [|done]. cbn. intros [= <-]. split_and!; try done. by exists entries.
Qed.

Lemma file_token_present m auth entries :
  token_entries m auth = Ok entries -> is_Some (a_token_file auth) -> entries <> [].
Proof.
  unfold token_entries, file_token. intros He [p Hp]. rewrite Hp in He. unfold mbind, result_bind in He. destruct (ok_or _ _) as [t|]; [|done].
  case_bool_decide; [done|]. destruct (config_tokens _); [|done]. by injection He as <-.
Qed.

(** C31: A server that other machines can reach is protected.  When a server starts on an
    address that is not a loopback address and the override is not set, every request
    that passes carries one of the tokens, with that token's roles; and the server
    identifies itself with the certificate, if one and its key are configured. *)
Theorem remote_server_is_guarded m answer c sd :
  server_start m answer c = Ok sd -> is_loopback (sd_listen sd) = false ->
  mc_env m (str "LOGDBD_ALLOW_INSECURE") <> Some (str "1") ->
  (exists entries, token_entries m (s_auth (c_server c)) = Ok entries /\
     forall header roles, call_interceptor (sd_interceptor sd) header = Some roles -> exists token, header = Some (bearer token) /\ (token, roles) ∈ entries) /\
  (is_Some (t_cert_file (s_tls (c_server c))) -> is_Some (t_key_file (s_tls (c_server c))) ->
     exists cert key, t_cert_file (s_tls (c_server c)) ≫= mc_file m = Some cert /\ t_key_file (s_tls (c_server c)) ≫= mc_file m = Some key /\
       sd_tls sd = Some (mkServerTls cert key)).
Proof.
  intros (Hr & Ht & (entries & He & Hi) & _)%server_start_inv Hl Hov. unfold start_refused in Hr. rewrite Hl in Hr. cbn [negb andb] in Hr.
  rewrite (bool_decide_false _ Hov) in Hr. cbn [negb] in Hr. rewrite andb_true_r in Hr. apply orb_false_elim in Hr as [Hm Ha].
  apply negb_false_iff in Hm, Ha. apply negb_true_iff, bool_decide_eq_false in Hm. apply bool_decide_eq_true in Ha. split.
  - exists entries. split; [done|]. intros header roles. rewrite Hi. pose proof (file_token_present _ _ _ He Ha) as Hne.
    destruct entries as [|e entries]; [done|]. apply intercept_token.
  - intros [cf Hc] [kf Hk]. unfold load_server_tls in Ht. rewrite Hc, Hk in Ht |- *. unfold mbind, result_bind, option_bind in *.
    destruct (t_mode (s_tls (c_server c))); [| |done];
      (destruct (mc_file m cf) as [cert|]; [|done]; destruct (mc_file m kf) as [key|]; [|done]; injection Ht as Ht; by exists cert, key).
Qed.

(** The started log's configuration is one the log accepts. *)
Lemma started_log_is_valid m answer c sd : server_start m answer c = Ok sd -> Config.validate (sd_log sd) = Ok tt.
Proof. by intros (_ & _ & _ & Hv & _)%server_start_inv. Qed.

End Guard.

(** ** One primary per data directory *)

(** The processes on a data directory and the holder of its lock. *)
Record DirState := mkDir { ds_running : list (Z * NodeRole); ds_holder : option Z }.

Definition lock_answer (d : DirState) : LockAnswer := match ds_holder d with None => LockFree | Some _ => LockWouldBlock end.

(** A process starts, when its number is new and the lock allows it; it ends, whether
    cleanly or not, and the system releases its lock. *)
Inductive dir_step : DirState -> DirState -> Prop :=
  | dir_start d pid role locked :
      pid ∉ (ds_running d).*1 -> acquire role true true (lock_answer d) = Ok locked ->
      dir_step d (mkDir ((pid, role) :: ds_running d) (if locked then Some pid else ds_holder d))
  | dir_exit d pid :
      dir_step d (mkDir (filter (fun p => p.1 <> pid) (ds_running d)) (if bool_decide (ds_holder d = Some pid) then None else ds_holder d)).

Definition dir_ok (d : DirState) : Prop := forall pid, (pid, Primary) ∈ ds_running d -> ds_holder d = Some pid.

Lemma dir_step_ok d d' : dir_step d d' -> dir_ok d -> dir_ok d'.
Proof.
  intros Hs Hok. destruct Hs as [d pid role locked Hp Ha|d pid]; intros q; cbn [ds_running ds_holder].
  - unfold lock_answer in Ha. intros [[= -> <-]|Hq]%elem_of_cons.
    + cbn in Ha. destruct (ds_holder d); [done|]. by injection Ha as <-.
    + specialize (Hok q Hq). rewrite Hok in Ha. destruct role; [done|]. by injection Ha as <-.
  - intros [Hne Hq]%list_elem_of_filter. rewrite (Hok q Hq). rewrite bool_decide_false; [done|]. cbn in Hne. congruence.
Qed.

(** However processes start and end on a data directory, at most one primary runs. *)
Theorem one_primary_per_directory d p q :
  rtc dir_step (mkDir [] None) d -> (p, Primary) ∈ ds_running d -> (q, Primary) ∈ ds_running d -> p = q.
Proof.
  intros Hr. assert (dir_ok d) as Hok; [|intros Hp%Hok Hq%Hok; congruence].
  assert (dir_ok (mkDir [] None)) as H0 by (intros x Hx; by apply elem_of_nil in Hx).
  revert H0. induction Hr as [|d1 d2 d3 H12 _ IH]; intros H0; [done|]. apply IH. by eapply dir_step_ok.
Qed.

(** ** Where the start falls short *)

(** A standby takes no lock: it runs on the directory of a running primary. *)
Theorem standby_takes_no_lock :
  exists d, rtc dir_step (mkDir [] None) d /\ (1, Primary) ∈ ds_running d /\ (2, Standby) ∈ ds_running d.
Proof.
  exists (mkDir [(2, Standby); (1, Primary)] (Some 1)). split; [|split; [right; left|left]].
  eapply rtc_l; [apply (dir_start _ 1 Primary true); [apply not_elem_of_nil|done]|].
  eapply rtc_l; [apply (dir_start _ 2 Standby false); [cbn; apply not_elem_of_cons; split; [lia|apply not_elem_of_nil]|done]|]. apply rtc_refl.
Qed.

(** Mutual TLS is plain TLS: no client is asked for a certificate. *)
Theorem mtls_is_tls m cert key ca ca' : load_server_tls m (mkTls Mtls cert key ca) = load_server_tls m (mkTls Tls cert key ca').
Proof. done. Qed.

(** Settings that change nothing. *)
Theorem settings_without_effect `{HexCodec} m answer (c : NodeSettings) atype heartbeat bp stride level alg halg l1 l2 l3 l4 l5 ret :
  let s := c_server c in let a := s_auth s in let l := c_logdb c in let g := c_storage c in let cp := sg_compression g in
  server_start m answer
    (mkSettings (c_node c) (mkServer (s_bind s) (s_tls s) (mkAuth atype (a_token_file a) (a_tokens a)) heartbeat)
       (mkLogDb (l_data_dir l) (l_shards l) (l_segment_size l) (l_ring_size l) (l_durability_mode l) (l_flush_timeout_ms l) bp)
       (mkStorageConfig stride (mkCompression (cp_enabled cp) alg level) (sg_encryption g))
       (mkAudit (au_hash_chain (c_audit c)) halg) (mkLimits l1 l2 l3 l4 l5 (lm_quotas (c_limits c))) ret) =
  server_start m answer c.
Proof. by destruct c as [n [? [] [] ?] [] [? [] ?] [] [] []]. Qed.

Definition demo_machine : Machine := mkMachine
  (fun _ => None) (fun p => if bool_decide (p = str "/token") then Some (str "secret") else if bool_decide (p = str "/cert") then Some (str "pem") else None)
  (fun _ => Some (V4 10 0 0 1 50051)) true true.

Definition demo_settings (cert : option bytes) : NodeSettings :=
  mkSettings (c_node default_settings) (mkServer (str "10.0.0.1:50051") (mkTls Tls cert cert None) (mkAuth AuthToken (Some (str "/token")) []) 1000)
    default_logdb default_storage default_audit default_limits default_retention.

Section Demo.
#[local] Instance start_demo_hex : HexCodec := demo_hex.

Lemma demo_started cert : bool_decide (cert ∈ [None; Some (str "/cert")]) = true -> exists sd, server_start demo_machine LockFree (demo_settings cert) = Ok sd.
Proof.
  intros Hc%bool_decide_eq_true. assert (is_ok (server_start demo_machine LockFree (demo_settings cert)) = true) as H.
  { apply elem_of_cons in Hc as [->|Hc%list_elem_of_singleton]; [by vm_compute|subst cert; by vm_compute]. }
  destruct (server_start _ _ _) as [sd|]; [by exists sd|done].
Qed.

(** The refusal looks at the mode, the server at the certificate: with TLS switched on
    and no certificate, it serves other machines in plain text. *)
Theorem tls_without_certificate_is_plaintext :
  exists sd, server_start demo_machine LockFree (demo_settings None) = Ok sd /\ is_loopback (sd_listen sd) = false /\ sd_tls sd = None.
Proof.
  destruct (demo_started None eq_refl) as [sd E]. exists sd. split; [done|].
  assert (ok_of (sd ← server_start demo_machine LockFree (demo_settings None); mret (is_loopback (sd_listen sd), sd_tls sd)) = Some (false, None)) as H by (by vm_compute).
  rewrite E in H. by injection H.
Qed.

(** A variable behind a blank and a hash within quotes stays as it is. *)
Theorem quoted_hash_stops_substitution :
  substitute_env (fun _ => Some (str "value")) (str "token: 'a #${PW}'") = Ok (str "token: 'a #${PW}'") /\
  substitute_env (fun _ => Some (str "value")) (str "token: 'a${PW}'") = Ok (str "token: 'avalue'").
Proof. by split; vm_compute. Qed.

(** ** Witnesses *)

Lemma templates_are_filled_witness :
  substitute_env (fun _ => Some (str "v")) ([Text (str "a: "); Var (str "A"); Comment (str " no ${B}"); Text (str "b")] ≫= segment_text) =
  fill (fun _ => Some (str "v")) [Text (str "a: "); Var (str "A"); Comment (str " no ${B}"); Text (str "b")].
Proof. apply templates_are_filled. by vm_compute. Defined.

Lemma remote_server_is_guarded_witness :
  exists sd, server_start demo_machine LockFree (demo_settings (Some (str "/cert"))) = Ok sd /\ is_Some (sd_tls sd) /\
    call_interceptor (sd_interceptor sd) None = None /\
    (forall header, call_interceptor (sd_interceptor sd) header = Some [Admin] -> is_Some header).
Proof.
  destruct (demo_started (Some (str "/cert")) eq_refl) as [sd E]. exists sd. split; [done|].
  assert (ok_of (sd ← server_start demo_machine LockFree (demo_settings (Some (str "/cert")));
    mret (is_loopback (sd_listen sd), call_interceptor (sd_interceptor sd) None)) = Some (false, None)) as H by (by vm_compute).
  rewrite E in H. injection H as Hl Hn.
  destruct (remote_server_is_guarded demo_machine LockFree _ sd E Hl) as [(entries & _ & H1) H2]; [done|].
  split; [|split; [done|]].
  - destruct H2 as (cert & key & _ & _ & ->); [by eexists..|]. by eexists.
  - intros header Hh. destruct (H1 header [Admin] Hh) as (t & -> & _). by eexists.
Defined.

Lemma one_primary_per_directory_witness :
  (1, Primary) ∈ ds_running (mkDir [(2, Standby); (1, Primary)] (Some 1)) /\ (forall q, (q, Primary) ∈ ds_running (mkDir [(2, Standby); (1, Primary)] (Some 1)) -> 1 = q).
Proof.
  split; [right; left|]. intros q Hq. apply (one_primary_per_directory (mkDir [(2, Standby); (1, Primary)] (Some 1)) 1 q); [|right; left|done].
  eapply rtc_l; [apply (dir_start _ 1 Primary true); [apply not_elem_of_nil|done]|].
  eapply rtc_l; [apply (dir_start _ 2 Standby false); [cbn; apply not_elem_of_cons; split; [lia|apply not_elem_of_nil]|done]|]. apply rtc_refl.
Defined.

End Demo.
