(* ===== verification/Snapshot.v ===== *)
(** * Snapshots of the log files ([logdbd/src/snapshot.rs])

    A primary sends the log files of its data directory in chunks, a standby collects
    them in a directory of its own and puts them in place of its log files.

    A directory is a list of entries in the order it is read, or a map from names; an
    entry without contents is a subdirectory.  Names are single components.  The size of
    a chunk is a parameter. *)
From stdpp Require Import base gmap list numbers strings sorting.
From coqutil Require Import Byte.
From Stdlib Require Import ZArith Lia.
From S2P Require Import Prelude ByteReader KeyProvider.

(** ** Names *)

Definition LOG_SUFFIX : bytes := str ".log".

(** [path.extension() == Some("log")]: a name that only is the suffix has no extension. *)
Definition is_log (name : bytes) : bool :=
  (length LOG_SUFFIX <? length name)%nat && bool_decide (drop (length name - length LOG_SUFFIX) name = LOG_SUFFIX).

(** [contains]. *)
Fixpoint contains (s p : bytes) : bool :=
  starts_with s p || match s with [] => false | _ :: s => contains s p end.

Definition selected (name : bytes) : bool := is_log name && utf8_valid name && negb (contains name (str "-active")).

(** ** The primary *)

Definition CHUNK_SIZE : nat := Z.to_nat (1024 * 1024).

Record SnapshotChunk := mkChunk { ch_file_name : bytes; ch_offset : nat; ch_data : bytes; ch_last : bool }.

(** [data.chunks(size)]. *)
Fixpoint chunks (size fuel : nat) (data : bytes) : list bytes :=
  match fuel, data with
  | O, _ | _, [] => []
  | S fuel, _ => take size data :: chunks size fuel (drop size data)
  end.

(** The chunks of a file. *)
Definition file_chunks (size : nat) (name : bytes) (last_file : bool) (data : bytes) : list SnapshotChunk :=
  imap (fun i d => mkChunk name (i * size) d (last_file && (i =? (length data - 1) / size)%nat)) (chunks size (length data) data).

Abbreviation Entries := (list (bytes * option bytes)).

(** The selected files, sorted; the names of a directory are distinct. *)
Definition snapshot_files (dir : Entries) : Entries :=
  foldr (fun e => bt_insert e.1 e.2) [] (filter (fun e => selected e.1) dir).

(** The loop over the files: what is sent, and whether it ends without an error. *)
Fixpoint send_files (size : nat) (last_name : option bytes) (files : Entries) : list SnapshotChunk * bool :=
  match files with
  | [] => ([], true)
  | (_, None) :: _ => ([], false)
  | (name, Some data) :: files =>
      let '(sent, ok) := send_files size last_name files in
      (file_chunks size name (bool_decide (last_name = Some name)) data ++ sent, ok)
  end.

(** [stream_segments]. *)
Definition stream_segments (size : nat) (dir : Entries) : list SnapshotChunk * bool :=
  let files := snapshot_files dir in send_files size (fst <$> last files) files.

(** ** The standby *)

Inductive SnapshotError := RecvFailed | NoLastChunk | RemoveFailed (name : bytes) | RenameFailed (name : bytes).

Record Receiver := mkReceiver {
  rc_tmp : gmap bytes bytes;
  rc_current : option bytes;
  rc_received : list bytes;
}.

(** One chunk: a new file is created when the name changes, and the data is written
    behind what the file holds. *)
Definition receive_chunk (c : SnapshotChunk) (r : Receiver) : Receiver :=
  let r :=
    if bool_decide (rc_current r = Some (ch_file_name c)) then r
    else mkReceiver (<[ch_file_name c := []]> (rc_tmp r)) (Some (ch_file_name c)) (rc_received r ++ [ch_file_name c])
  in
  mkReceiver (<[ch_file_name c := default [] (rc_tmp r !! ch_file_name c) ++ ch_data c]> (rc_tmp r)) (rc_current r) (rc_received r).

Abbreviation Dir := (gmap bytes (option bytes)).

(** Whether the next call fails. *)
Definition fails (faults : list bool) : bool := default false (head faults).

(** The first loop of [install_snapshot]; a directory cannot be removed as a file. *)
Fixpoint remove_logs (faults : list bool) (names : list bytes) (dir : Dir) : result SnapshotError (list bool) * Dir :=
  match names with
  | [] => (Ok faults, dir)
  | n :: names =>
      if is_log n then
        match dir !! n with
        | Some (Some _) => if fails faults then (Err (RemoveFailed n), dir) else remove_logs (tail faults) names (delete n dir)
        | _ => (Err (RemoveFailed n), dir)
        end
      else remove_logs faults names dir
  end.

(** The second loop: a file is moved over what its name holds, unless that is a
    directory. *)
Fixpoint move_files (faults : list bool) (names : list bytes) (tmp : gmap bytes bytes) (dir : Dir) : result SnapshotError unit * Dir :=
  match names with
  | [] => (Ok tt, dir)
  | n :: names =>
      match tmp !! n, dir !! n with
      | None, _ | _, Some None => (Err (RenameFailed n), dir)
      | Some data, _ =>
          if fails faults then (Err (RenameFailed n), dir) else move_files (tail faults) names (delete n tmp) (<[n := Some data]> dir)
      end
  end.

(** [install_snapshot]. *)
Definition install_snapshot (faults : list bool) (tmp : gmap bytes bytes) (names : list bytes) (dir : Dir) : result SnapshotError unit * Dir :=
  match remove_logs faults (map_to_list dir).*1 dir with
  | (Err e, dir) => (Err e, dir)
  | (Ok faults, dir) => move_files faults names tmp dir
  end.

(** The loop of [receive_snapshot] over the messages of the stream, [None] an error. *)
Fixpoint receive_loop (faults : list bool) (stream : list (option SnapshotChunk)) (r : Receiver) (dir : Dir) : result SnapshotError unit * Dir :=
  match stream with
  | [] => (Err NoLastChunk, dir)
  | None :: _ => (Err RecvFailed, dir)
  | Some c :: stream =>
      let r := receive_chunk c r in
      if ch_last c then install_snapshot faults (rc_tmp r) (rc_received r) dir else receive_loop faults stream r dir
  end.

(** [receive_snapshot]; the directory for the files may hold old ones. *)
Definition receive_snapshot (faults : list bool) (stream : list (option SnapshotChunk)) (tmp : gmap bytes bytes) (dir : Dir) : result SnapshotError unit * Dir :=
  receive_loop faults stream (mkReceiver tmp None []) dir.

(** ** Chunks *)

Section Chunks.
Variable size : nat.
Hypothesis size_pos : (0 < size)%nat.

Lemma data_chunks_concat fuel data : (length data <= fuel)%nat -> concat (chunks size fuel data) = data.
Proof.
  revert data. induction fuel as [|fuel IH]; intros [|b data] Hl; cbn [length] in *; [done|lia|done|]. cbn [chunks concat].
  rewrite IH; [apply take_drop|]. rewrite length_drop. cbn [length]. lia.
Qed.

Lemma chunks_length fuel data : (length data <= fuel)%nat -> data <> [] -> length (chunks size fuel data) = S ((length data - 1) / size).
Proof.
  revert data. induction fuel as [|fuel IH]; intros [|b data] Hl Hne; cbn [length] in *; [done|lia|done|]. cbn [chunks length].
  f_equal. destruct (decide (length data < size)%nat) as [Hs|Hs].
  - rewrite drop_ge by (cbn [length]; lia). replace (chunks size fuel []) with (@nil bytes) by (by destruct fuel).
    symmetry. apply Nat.div_small. lia.
  - rewrite IH; rewrite ?length_drop; cbn [length]; [|lia|intros E%(f_equal length); rewrite length_drop in E; cbn [length] in E; lia].
    replace (S (length data) - 1)%nat with ((S (length data) - size - 1) + 1 * size)%nat by lia. rewrite Nat.div_add by lia. lia.
Qed.

(** What receiving chunks of one name does to a file that is open. *)
Lemma receive_same name ds f r :
  rc_current r = Some name ->
  foldl (fun r d => receive_chunk d r) r (imap (fun i d => mkChunk name (f i).1 d (f i).2) ds) =
  mkReceiver (if decide (ds = []) then rc_tmp r else <[name := default [] (rc_tmp r !! name) ++ concat ds]> (rc_tmp r)) (Some name) (rc_received r).
Proof.
  revert f r. induction ds as [|d ds IH]; intros f r Hc; [by destruct r; cbn in *; subst|]. cbn [imap foldl].
  rewrite (IH (f ∘ S)); unfold receive_chunk; cbn [ch_file_name ch_data]; rewrite bool_decide_true by done; cbn [rc_current rc_tmp rc_received]; [|done].
  rewrite lookup_insert_eq. cbn [default from_option id concat]. f_equal. destruct (decide (ds = [])) as [->|Hne]; cbn [concat]; [by rewrite app_nil_r|].
  by rewrite insert_insert_eq, app_assoc.
Qed.

(** Receiving a file that is not empty. *)
Lemma receive_file name last data r :
  data <> [] -> rc_current r <> Some name ->
  foldl (fun r c => receive_chunk c r) r (file_chunks size name last data) =
  mkReceiver (<[name := data]> (rc_tmp r)) (Some name) (rc_received r ++ [name]).
Proof.
  intros Hne Hc. unfold file_chunks. pose proof (data_chunks_concat (length data) data ltac:(done)) as Hcat. pose proof (chunks_length (length data) data ltac:(done) Hne) as Hlen.
  destruct (chunks size (length data) data) as [|d ds]; [done|]. cbn [imap foldl].
  set (g := fun i : nat => (i * size, last && (i =? (length data - 1) / size))%nat).
  rewrite (receive_same name ds (g ∘ S)); unfold receive_chunk; cbn [ch_file_name ch_data]; rewrite bool_decide_false by done; cbn [rc_current rc_tmp rc_received]; [|done].
  rewrite !lookup_insert_eq, insert_insert_eq. cbn [default from_option id app]. f_equal. cbn [concat] in Hcat. destruct (decide (ds = [])) as [->|_].
  - cbn [concat] in Hcat. by rewrite app_nil_r in Hcat; subst.
  - by rewrite insert_insert_eq, Hcat.
Qed.

Lemma empty_file_sends_nothing name last : file_chunks size name last [] = [].
Proof. done. Qed.

(** Receiving files with distinct names. *)
Lemma receive_files (files : list (bytes * bytes)) flag r :
  NoDup files.*1 -> (forall n, rc_current r = Some n -> n ∉ files.*1) ->
  exists cur, (forall n, cur = Some n -> rc_current r = Some n \/ n ∈ files.*1) /\
    foldl (fun r c => receive_chunk c r) r (files ≫= fun e => file_chunks size e.1 (flag e) e.2) =
    mkReceiver (insert_all (filter (fun e => e.2 <> []) files) (rc_tmp r)) cur (rc_received r ++ (filter (fun e => e.2 <> []) files).*1).
Proof.
  revert r. induction files as [|[n d] files IH]; intros r Hnd Hc; [exists (rc_current r); split; [by left|]; destruct r; cbn; by rewrite app_nil_r|].
  cbn [fmap list_fmap fst] in Hnd. apply NoDup_cons in Hnd as [Hn Hnd]. change (((n, d) :: files) ≫= ?f) with (f (n, d) ++ (files ≫= f)).
  rewrite foldl_app. cbn [fst snd]. destruct (decide (d = [])) as [->|Hd].
  - rewrite empty_file_sends_nothing. cbn [foldl]. rewrite filter_cons_False by (cbn; tauto).
    destruct (IH r Hnd) as (cur & H1 & ->). { intros m Hm Hin. eapply Hc; [done|]. by right. }
    exists cur. split; [|done]. intros m [Hm|Hm]%H1; [by left|right; by right].
  - rewrite receive_file; [|done|intros E; eapply Hc; [done|left]]. rewrite filter_cons_True by done.
    destruct (IH (mkReceiver (<[n := d]> (rc_tmp r)) (Some n) (rc_received r ++ [n])) Hnd) as (cur & H1 & ->); [by intros m [= <-]|].
    exists cur. split; [intros m [[= <-]|Hm]%H1; right; [left|by right]|]. cbn [rc_tmp rc_received fmap list_fmap fst]. by rewrite <- app_assoc.
Qed.

(** Only the last chunk of a last file is marked. *)
Lemma file_chunks_unmarked name data : Forall (fun c => ch_last c = false) (file_chunks size name false data).
Proof. unfold file_chunks. apply Forall_lookup. intros i c. rewrite list_lookup_imap. intros (d & _ & ->)%fmap_Some. done. Qed.

Lemma file_chunks_marked name data :
  data <> [] -> exists cs c, file_chunks size name true data = cs ++ [c] /\ Forall (fun c => ch_last c = false) cs /\ ch_last c = true.
Proof.
  intros Hne. pose proof (chunks_length (length data) data ltac:(done) Hne) as Hlen. unfold file_chunks.
  destruct (chunks size (length data) data) as [|d ds _] using rev_ind; [done|]. rewrite imap_app. cbn [imap]. rewrite length_app in Hlen. cbn [length] in Hlen.
  eexists _, _. split; [reflexivity|]. split; [|cbn; apply Nat.eqb_eq; lia]. apply Forall_lookup. intros i c. rewrite list_lookup_imap. intros (x & Hx & ->)%fmap_Some.
  apply lookup_lt_Some in Hx. cbn. apply Nat.eqb_neq. lia.
Qed.

End Chunks.

(** The loop goes on until the marked chunk, and installs then. *)
Lemma receive_loop_run faults cs c r dir :
  Forall (fun c => ch_last c = false) cs -> ch_last c = true ->
  receive_loop faults (Some <$> (cs ++ [c])) r dir =
  let r := foldl (fun r c => receive_chunk c r) r (cs ++ [c]) in install_snapshot faults (rc_tmp r) (rc_received r) dir.
Proof.
  intros Hcs Hc. revert r. induction Hcs as [|a cs Ha _ IH]; intros r; cbn [app fmap list_fmap receive_loop foldl]; [by rewrite Hc|]. rewrite Ha. apply IH.
Qed.

(** ** Installing *)

Lemma remove_logs_ok names dir :
  NoDup names -> (forall n, n ∈ names -> is_log n = true -> exists d, dir !! n = Some (Some d)) ->
  exists dir', remove_logs [] names dir = (Ok [], dir') /\ forall n, dir' !! n = if is_log n && bool_decide (n ∈ names) then None else dir !! n.
Proof.
  revert dir. induction names as [|a names IH]; intros dir Hnd Hf; [exists dir; split; [done|]; intros n; by rewrite bool_decide_false, andb_false_r by apply not_elem_of_nil|].
  apply NoDup_cons in Hnd as [Ha Hnd]. cbn [remove_logs]. destruct (is_log a) eqn:El.
  - destruct (Hf a ltac:(left) El) as [d Hd]. rewrite Hd. cbn [fails head default from_option tail].
    destruct (IH (delete a dir) Hnd) as (dir' & -> & Hd').
    { intros n Hn Hl. rewrite lookup_delete_ne by (intros ->; done). apply Hf; [by right|done]. }
    exists dir'. split; [done|]. intros n. rewrite Hd'. destruct (decide (n = a)) as [->|Hna].
    + rewrite El, (bool_decide_true (a ∈ a :: names)) by left. rewrite (bool_decide_false (a ∈ names)) by done. by rewrite lookup_delete_eq.
    + rewrite lookup_delete_ne by done. by rewrite (bool_decide_ext (n ∈ a :: names) (n ∈ names)) by (rewrite elem_of_cons; tauto).
  - destruct (IH dir Hnd) as (dir' & -> & Hd'); [intros n Hn; apply Hf; by right|]. exists dir'. split; [done|]. intros n. rewrite Hd'.
    destruct (decide (n = a)) as [->|Hna]; [by rewrite El|]. by rewrite (bool_decide_ext (n ∈ a :: names) (n ∈ names)) by (rewrite elem_of_cons; tauto).
Qed.

Lemma move_files_ok names tmp dir :
  NoDup names -> (forall n, n ∈ names -> is_Some (tmp !! n) /\ dir !! n <> Some None) ->
  exists dir', move_files [] names tmp dir = (Ok tt, dir') /\ forall n, dir' !! n = if bool_decide (n ∈ names) then Some (tmp !! n) else dir !! n.
Proof.
  revert tmp dir. induction names as [|a names IH]; intros tmp dir Hnd Hf; [exists dir; split; [done|]; intros n; by rewrite bool_decide_false by apply not_elem_of_nil|].
  apply NoDup_cons in Hnd as [Ha Hnd]. cbn [move_files]. destruct (Hf a ltac:(left)) as [[d Hd] Hdir]. rewrite Hd. cbn [fails head default from_option tail].
  destruct (IH (delete a tmp) (<[a := Some d]> dir) Hnd) as (dir' & Hm & Hd').
  { intros n Hn. assert (n <> a) by (by intros ->). rewrite lookup_delete_ne, lookup_insert_ne by done. apply Hf. by right. }
  rewrite Hm. exists dir'. split; [destruct (dir !! a) as [[|]|]; done|]. intros n. rewrite Hd'. destruct (decide (n = a)) as [->|Hna].
  - rewrite (bool_decide_false (a ∈ names)) by done. rewrite lookup_insert_eq. rewrite bool_decide_true by left. by rewrite Hd.
  - rewrite (bool_decide_ext (n ∈ a :: names) (n ∈ names)) by (rewrite elem_of_cons; tauto). rewrite lookup_delete_ne by done. by rewrite lookup_insert_ne by done.
Qed.

(** ** From one directory to another *)

Lemma snapshot_files_perm src : NoDup src.*1 -> snapshot_files src ≡ₚ filter (fun e => selected e.1) src.
Proof.
  unfold snapshot_files. induction src as [|[n o] src IH]; intros Hnd; [done|]. cbn [fmap list_fmap fst] in Hnd. apply NoDup_cons in Hnd as [Hn Hnd].
  destruct (decide (selected n)) as [Hs|Hs]; [rewrite filter_cons_True by done|rewrite filter_cons_False by done; by apply IH].
  cbn [foldr fst snd]. rewrite bt_insert_perm; [by apply Permutation_cons, IH|]. rewrite (IH Hnd). intros ([n' o'] & Hn' & Hin)%list_elem_of_fmap. cbn in Hn'. subst n'.
  apply list_elem_of_filter in Hin as [_ Hin]. apply Hn. apply list_elem_of_fmap. by exists (n, o').
Qed.

Definition readable (e : bytes * bytes) : bytes * option bytes := (e.1, Some e.2).

Lemma readable_files (files : Entries) : (forall n, (n, None) ∉ files) -> exists fs, files = readable <$> fs.
Proof.
  induction files as [|[n [d|]] files IH]; intros Hf; [by exists []| |exfalso; apply (Hf n); left].
  destruct IH as [fs ->]; [intros m Hm; apply (Hf m); by right|]. by exists ((n, d) :: fs).
Qed.

Lemma send_readable size last fs :
  send_files size last (readable <$> fs) = (fs ≫= fun e => file_chunks size e.1 (bool_decide (last = Some e.1)) e.2, true).
Proof. induction fs as [|[n d] fs IH]; [done|]. cbn [fmap list_fmap readable send_files fst snd] in *. by rewrite IH. Qed.

(** The stream of a directory whose last selected file is not empty ends with the
    marked chunk, and only there. *)
Lemma stream_marked size fs n d :
  (0 < size)%nat -> NoDup (fs ++ [(n, d)]).*1 -> d <> [] ->
  exists cs c, ((fs ++ [(n, d)]) ≫= fun e => file_chunks size e.1 (bool_decide (Some n = Some e.1)) e.2) = cs ++ [c] /\
    Forall (fun c => ch_last c = false) cs /\ ch_last c = true.
Proof.
  intros Hs Hnd Hd. rewrite bind_app. destruct (file_chunks_marked size Hs n d Hd) as (cs & c & Hc & Hcs & Hl).
  change ([(n, d)] ≫= ?f) with (f (n, d) ++ []). cbn [fst snd]. rewrite bool_decide_true, app_nil_r, Hc by done.
  eexists _, c. split; [apply app_assoc|]. split; [|done]. apply Forall_app. split; [|done].
  apply Forall_forall. intros x ([m b] & Hx & Hin)%list_elem_of_bind. cbn [fst snd] in Hx. rewrite bool_decide_false in Hx.
  - pose proof (file_chunks_unmarked size m b) as Hu. rewrite Forall_forall in Hu. by apply Hu.
  - intros [= ->]. rewrite fmap_app in Hnd. apply NoDup_app in Hnd as (_ & Hnd & _). apply (Hnd m); [|left]. apply list_elem_of_fmap. by exists (m, b).
Qed.

(** Installing files with the names of log files. *)
Lemma install_ok (full : list (bytes * bytes)) (tmp : gmap bytes bytes) (dir : Dir) :
  NoDup full.*1 -> (forall m b, (m, b) ∈ full -> is_log m = true) -> (forall m, is_log m = true -> dir !! m <> Some None) ->
  exists dir', install_snapshot [] (insert_all full tmp) full.*1 dir = (Ok tt, dir') /\
    (forall m, is_log m = false -> dir' !! m = dir !! m) /\
    (forall m o, is_log m = true -> dir' !! m = Some o <-> exists b, o = Some b /\ (m, b) ∈ full).
Proof.
  intros Hnd Hlog Hdir. unfold install_snapshot. destruct (remove_logs_ok (map_to_list dir).*1 dir) as (d1 & -> & Hd1).
  { apply NoDup_fst_map_to_list. }
  { intros m ([m' o] & -> & Hin)%list_elem_of_fmap Hl. apply elem_of_map_to_list in Hin. cbn in *. destruct o as [b|]; [by exists b|]. by apply Hdir in Hin. }
  destruct (move_files_ok full.*1 (insert_all full tmp) d1 Hnd) as (d2 & -> & Hd2).
  { intros m ([m' b] & -> & Hin)%list_elem_of_fmap. cbn [fst]. split; [exists b; by apply insert_all_lookup|]. rewrite Hd1, (Hlog _ _ Hin). cbn [andb].
    case_bool_decide; [done|]. by eapply Hdir, Hlog. }
  exists d2. split; [done|]. split.
  - intros m Hl. rewrite Hd2, bool_decide_false, Hd1, Hl; [done|]. intros ([m' b] & -> & Hin)%list_elem_of_fmap. apply Hlog in Hin. cbn in *. congruence.
  - intros m o Hl. rewrite Hd2. case_bool_decide as Hin.
    + apply list_elem_of_fmap in Hin as ([m' b] & -> & Hin). cbn [fst]. rewrite (insert_all_lookup full tmp m' b) by done. split.
      * intros [= <-]. by exists b.
      * intros (b' & -> & Hb'). apply (insert_all_lookup full tmp) in Hin, Hb'; [|done..]. congruence.
    + rewrite Hd1, Hl. cbn [andb]. split.
      * case_bool_decide as Hm; [done|]. intros Ho. exfalso. apply Hm, list_elem_of_fmap. exists (m, o). split; [done|]. by apply elem_of_map_to_list.
      * intros (b & -> & Hb). exfalso. apply Hin, list_elem_of_fmap. by exists (m, b).
Qed.

(** C33: A snapshot carries the log files over.  When every selected file of the primary can
    be read, the last one is not empty and no calls fail, the standby ends up with
    exactly the primary's selected, non-empty files as its log files, byte for byte, and
    its other entries are as they were, whatever the size of the chunks and whatever an
    earlier attempt has left behind. *)
Theorem snapshot_installs_logs (size : nat) (src : Entries) (tmp : gmap bytes bytes) (dir : Dir) (fs : list (bytes * bytes)) (n d : bytes) :
  (0 < size)%nat -> NoDup src.*1 -> snapshot_files src = (readable <$> fs) ++ [(n, Some d)] -> d <> [] ->
  (forall m, is_log m = true -> dir !! m <> Some None) ->
  exists sent dir', stream_segments size src = (sent, true) /\ receive_snapshot [] (Some <$> sent) tmp dir = (Ok tt, dir') /\
    (forall m, is_log m = false -> dir' !! m = dir !! m) /\
    (forall m o, is_log m = true -> dir' !! m = Some o <-> exists b, o = Some b /\ b <> [] /\ selected m = true /\ (m, Some b) ∈ src).
Proof.
  intros Hs Hnd Hf Hd Hdir. assert (snapshot_files src = readable <$> (fs ++ [(n, d)])) as Hf' by (by rewrite fmap_app).
  pose proof (snapshot_files_perm src Hnd) as Hp. rewrite Hf' in Hp.
  assert (NoDup (fs ++ [(n, d)]).*1) as Hnd'.
  { assert (NoDup ((readable <$> (fs ++ [(n, d)])).*1)) as H.
    { rewrite Hp. eapply sublist_NoDup; [exact Hnd|]. apply fmap_sublist, sublist_filter. }
    by rewrite <- list_fmap_compose in H. }
  unfold stream_segments. cbn zeta. rewrite Hf'.
  assert (fst <$> last (readable <$> (fs ++ [(n, d)])) = Some n) as -> by (by rewrite <- Hf', Hf, last_snoc). rewrite send_readable.
  destruct (stream_marked size fs n d Hs Hnd' Hd) as (cs & c & Hsent & Hcs & Hc).
  set (sent := (fs ++ [(n, d)]) ≫= _) in *. exists sent.
  destruct (receive_files size Hs (fs ++ [(n, d)]) (fun e => bool_decide (Some n = Some e.1)) (mkReceiver tmp None []) Hnd' ltac:(done)) as (cur & _ & Hrec).
  fold sent in Hrec. cbn [rc_tmp rc_received app] in Hrec. set (full := filter (fun e : bytes * bytes => e.2 <> []) (fs ++ [(n, d)])) in Hrec.
  assert (receive_snapshot [] (Some <$> sent) tmp dir = install_snapshot [] (insert_all full tmp) full.*1 dir) as ->.
  { unfold receive_snapshot. rewrite Hsent, receive_loop_run, <- Hsent by done. by rewrite Hrec. }
  assert (forall m b, (m, b) ∈ full <-> b <> [] /\ selected m = true /\ (m, Some b) ∈ src) as Hfull.
  { intros m b. unfold full. rewrite list_elem_of_filter. cbn. apply and_iff_compat_l.
    transitivity ((m, Some b) ∈ readable <$> (fs ++ [(n, d)])).
    - rewrite list_elem_of_fmap. split; [by exists (m, b)|]. by intros ([m' b'] & [= -> ->] & Hin).
    - rewrite Hp, list_elem_of_filter. cbn. split; [intros [H1%Is_true_eq_true H2]|intros [H1 H2]; split; [by apply Is_true_eq_left|]]; done. }
  destruct (install_ok full tmp dir) as (dir' & -> & H1 & H2); [eapply sublist_NoDup; [exact Hnd'|]; apply fmap_sublist, sublist_filter| |done|].
  { intros m b (_ & Hsel & _)%Hfull. unfold selected in Hsel. by apply andb_prop in Hsel as [[Hl _]%andb_prop _]. }
  exists dir'. split; [done|]. split; [done|]. split; [done|]. intros m o Hl. rewrite (H2 m o Hl). by setoid_rewrite Hfull.
Qed.

(** ** Where snapshots fall short *)

(** The segments of a log with several shards lie in subdirectories, of which nothing is
    sent, and a stream without a marked chunk is an error. *)
Theorem sharded_log_is_not_sent tmp dir :
  let src := [(str "s0", None); (str "s1", None); (str "catalog.dat", Some (str "names"))] in
  stream_segments CHUNK_SIZE src = ([], true) /\ receive_snapshot [] [] tmp dir = (Err NoLastChunk, dir).
Proof. done. Qed.

(** The active segment has a name like the others and is sent too. *)
Theorem active_segment_is_sent : selected (str "segment-00000001.log") = true.
Proof. by vm_compute. Qed.

(** The old files are removed before the new ones are in place: when the first rename
    fails, or the machine stops there, no log file is left in the directory. *)
Theorem failed_install_leaves_no_log :
  let name := str "segment-00000001.log" in
  let dir := {[ name := Some (str "old") ]} : Dir in
  let after := receive_snapshot [false; true] [Some (mkChunk name 0 (str "new") true)] ∅ dir in
  after.1 = Err (RenameFailed name) /\ map_to_list after.2 = [].
Proof. by split; vm_compute. Qed.

(** ** Witness *)

Definition demo_src : Entries :=
  [(str "b.log", Some (str "second")); (str "s1", None); (str "a.log", Some (str "first")); (str "catalog.dat", Some (str "names"))].

Lemma snapshot_installs_logs_witness :
  exists sent dir', stream_segments 2 demo_src = (sent, true) /\ length sent = 6%nat /\
    receive_snapshot [] (Some <$> sent) ∅ {[ str "old.log" := Some (str "x"); str "catalog.dat" := Some (str "own") ]} = (Ok tt, dir') /\
    dir' !! str "catalog.dat" = Some (Some (str "own")) /\ dir' !! str "a.log" = Some (Some (str "first")) /\ dir' !! str "old.log" = None.
Proof.
  destruct (snapshot_installs_logs 2 demo_src ∅ {[ str "old.log" := Some (str "x"); str "catalog.dat" := Some (str "own") ]} [(str "a.log", str "first")] (str "b.log") (str "second"))
    as (sent & dir' & H1 & H2 & H3 & H4).
  - lia.
  - apply (bool_decide_unpack _). by vm_compute.
  - by vm_compute.
  - done.
  - intros m Hm [[<- H]|[_ [<- H]%lookup_singleton_Some]]%lookup_insert_Some; done.
  - exists sent, dir'. split; [done|]. split; [vm_compute in H1; by injection H1 as <-|]. split; [done|]. split; [by rewrite H3|]. split.
    + apply H4; [done|]. exists (str "first"). split_and!; [done|done|done|]. right. right. left.
    + destruct (dir' !! str "old.log") as [o|] eqn:E; [|done]. apply H4 in E as (b & _ & _ & _ & Hin); [|done].
      unfold demo_src in Hin. rewrite !elem_of_cons in Hin. destruct Hin as [H|[H|[H|[H|H]]]]; [by vm_compute in H..|by apply elem_of_nil in H].
Defined.
