(* ===== verification/Backup.v ===== *)
(** * Backup and restore ([logdbd/src/backup.rs])

    A backup is a tar archive of the data directory of a stopped node, with a manifest
    as its last member, and a file with its digest.

    A directory is a tree whose entries are in the order they are read; a restored
    directory is a map from paths to contents.  The crates [tar], [serde_json] and [hex]
    are the classes [BackupCodec] and [HexCodec]; a path is the list of its components. *)
From stdpp Require Import base gmap list numbers strings.
From coqutil Require Import Byte.
From Stdlib Require Import ZArith Lia.
From S2P Require Import Prelude Externals ByteReader KeyProvider Exporter ServerStart Snapshot.
Open Scope Z_scope.

Abbreviation path := (list bytes).

(** Files, directories, and what is neither. *)
Inductive Tree := FileT (contents : bytes) | OtherT | DirT (entries : list (bytes * Tree)).

Definition BACKUP_MAGIC : bytes := str "logdb-backup".
Definition FORMAT_VERSION : Z := 1.
Definition MANIFEST_NAME : bytes := str "BACKUP_MANIFEST.json".

Record BackupManifest := mkManifest {
  mf_magic : bytes;
  mf_format_version : Z;
  mf_logdbd_version : bytes;
  mf_created_at_ns : Z;
  mf_source_data_dir : bytes;
  mf_file_count : Z;
  mf_total_bytes : Z;
}.

Inductive BackupError :=
  | NotALogdbDir
  | NodeRunning
  | BackupIo
  | BackupJson
  | BadMagic (found : option bytes)
  | ChecksumMismatch (expected found : bytes)
  | TargetNotEmpty
  | VerifyFailed.

Abbreviation Files := (gmap path bytes).

(** One path is a part of the other. *)
Definition related (p q : path) : Prop := p `prefix_of` q \/ q `prefix_of` p.

(** A component that names an entry. *)
Definition plain (c : bytes) : bool :=
  negb (bool_decide (c = [])) && negb (bool_decide (c = str ".")) && negb (bool_decide (c = str "..")) && forallb (fun b => negb (byte_eq b Byte.x2f)) c.

(** An archive reads as the members it was written with, a manifest as it was written,
    and a member is unpacked under its path, unless something there is in the way. *)
Class BackupCodec := {
  tar_write : list (path * bytes) -> bytes;
  tar_read : bytes -> option (list (path * bytes));
  json_write : BackupManifest -> bytes;
  json_read : bytes -> option BackupManifest;
  unpack_in : path -> bytes -> Files -> option Files;
  tar_round ms : tar_read (tar_write ms) = Some ms;
  json_round m : json_read (json_write m) = Some m;
  unpack_fresh p b (fs : Files) : p <> [] -> Forall plain p -> (forall q, is_Some (fs !! q) -> ~ related p q) -> unpack_in p b fs = Some (<[p := b]> fs);
}.

Section Backup.
Context {ext : Externals} {hex : HexCodec} {codec : BackupCodec}.

(** ** Backup *)

(** [validate_logdb_dir]. *)
Definition looks_like_logdb (dir : list (bytes * Tree)) : bool :=
  bool_decide (str "catalog.dat" ∈ dir.*1) ||
  existsb (fun e : bytes * Tree => utf8_valid e.1 && starts_with e.1 (str "segment-") && bool_decide (drop (length e.1 - 4) e.1 = LOG_SUFFIX) && (4 <=? length e.1)%nat) dir.

(** The members of the entry [name] of the directory [prefix]; one below the top. *)
Fixpoint add_entry (prefix : path) (name : bytes) (t : Tree) : list (path * bytes) :=
  let archive_path := prefix ++ [from_utf8_lossy name] in
  match t with
  | FileT contents => [(archive_path, contents)]
  | OtherT => []
  | DirT entries => entries ≫= fun e => add_entry archive_path e.1 e.2
  end.

(** [add_dir_recursive] on the data directory, without the lock's file. *)
Definition add_dir (dir : list (bytes * Tree)) : list (path * bytes) :=
  filter (fun e : bytes * Tree => from_utf8_lossy e.1 <> str "active.lock") dir ≫= fun e => add_entry [] e.1 e.2.

Definition sum_bytes (ms : list (path * bytes)) : Z := foldr (fun m acc => blen m.2 + acc) 0 ms.

(** [sha256_of_file]. *)
Definition sha256_of_file (file : bytes) : bytes := hex_encode (sha256 file).

(** [backup]: the manifest, the archive and the file with its digest. *)
Definition backup (dir : option Tree) (mkdir lock_file : bool) (answer : LockAnswer) (version source out_name : bytes) (now : Z)
    : result BackupError (BackupManifest * bytes * bytes) :=
  match dir with
  | Some (DirT entries) =>
      if negb (looks_like_logdb entries) then Err NotALogdbDir
      else
        _ ← map_err (fun e => match e with LockHeld => NodeRunning | _ => BackupIo end) (acquire Primary mkdir lock_file answer);
        let members := add_dir entries in
        let manifest := mkManifest BACKUP_MAGIC FORMAT_VERSION version now source (Z.of_nat (length members)) (sum_bytes members) in
        let archive := tar_write (members ++ [([MANIFEST_NAME], json_write manifest)]) in
        Ok (manifest, archive, sha256_of_file archive ++ str "  " ++ out_name ++ [NEWLINE])
  | _ => Err NotALogdbDir
  end.

(** ** Restore *)

(** The text up to the first white space. *)
Fixpoint until_space (s : bytes) : bytes :=
  match s with
  | [] => []
  | c :: rest => match List.find (starts_with s) WHITE_SPACE with Some _ => [] | None => c :: until_space rest end
  end.

(** [read_sidecar_digest]. *)
Definition read_sidecar_digest (sidecar : bytes) : result BackupError bytes :=
  if utf8_valid sidecar then Ok (until_space (trim_start sidecar)) else Err BackupIo.

Definition to_ascii_lower (c : byte) : byte := if byte_in 65 90 c then byte.of_Z (byte.unsigned c + 32) else c.
Definition eq_ignore_ascii_case (a b : bytes) : bool := bool_decide (to_ascii_lower <$> a = to_ascii_lower <$> b).

Definition check_sidecar (sidecar : option bytes) (archive : bytes) : result BackupError unit :=
  match sidecar with
  | None => Ok tt
  | Some s =>
      expected ← read_sidecar_digest s;
      if eq_ignore_ascii_case expected (sha256_of_file archive) then Ok tt else Err (ChecksumMismatch expected (sha256_of_file archive))
  end.

(** The loop over the members: the last manifest, and the files. *)
Fixpoint unpack (ms : list (path * bytes)) (manifest : option BackupManifest) (fs : Files) : result BackupError (option BackupManifest) * Files :=
  match ms with
  | [] => (Ok manifest, fs)
  | (p, b) :: ms =>
      if bool_decide (p = [MANIFEST_NAME]) then
        match json_read b with
        | None => (Err BackupJson, fs)
        | Some m => unpack ms (Some m) fs
        end
      else
        match unpack_in p b fs with
        | None => (Err BackupIo, fs)
        | Some fs => unpack ms manifest fs
        end
  end.

(** [verify_recovers]: the log is opened on the restored directory and drained.  Whether
    that succeeds, and what it makes of the files (recovery truncates torn ends and
    writes a lock, hints and indexes), is [open_log]. *)
Definition verify_recovers (open_log : Files -> bool * Files) (fs : Files) : result BackupError unit * Files :=
  let '(ok, fs) := open_log fs in (if ok then Ok tt else Err VerifyFailed, fs).

(** [restore] into a directory, which may be [occupied]: the answer, and the files that
    are in the directory then.  [verify] is there when the check is asked for. *)
Definition restore (archive : bytes) (sidecar : option bytes) (occupied : bool) (verify : option (Files -> bool * Files)) : result BackupError BackupManifest * Files :=
  match check_sidecar sidecar archive with
  | Err e => (Err e, ∅)
  | Ok _ =>
      if occupied then (Err TargetNotEmpty, ∅)
      else
        match tar_read archive with
        | None => (Err BackupIo, ∅)
        | Some ms =>
            match unpack ms None ∅ with
            | (Err e, fs) => (Err e, fs)
            | (Ok None, fs) => (Err (BadMagic None), fs)
            | (Ok (Some m), fs) =>
                if negb (bool_decide (mf_magic m = BACKUP_MAGIC)) then (Err (BadMagic (Some (mf_magic m))), fs)
                else match verify with
                     | None => (Ok m, fs)
                     | Some open_log =>
                         match verify_recovers open_log fs with (Ok _, fs) => (Ok m, fs) | (Err e, fs) => (Err e, fs) end
                     end
            end
        end
  end.

(** ** The files of a tree *)

(** Names that occur in directories, distinct in each. *)
Definition entry_name_ok (n : bytes) : Prop := utf8_valid n = true /\ plain n = true.

Lemma lossy_name n : entry_name_ok n -> from_utf8_lossy n = n.
Proof. intros [Hn _]. by apply lossy_valid. Qed.

Fixpoint tree_ok (t : Tree) : Prop :=
  match t with
  | DirT entries => NoDup entries.*1 /\ foldr (fun e acc => entry_name_ok e.1 /\ tree_ok e.2 /\ acc) True entries
  | _ => True
  end.

Definition entries_ok (l : list (bytes * Tree)) : Prop := NoDup l.*1 /\ Forall (fun e => entry_name_ok e.1 /\ tree_ok e.2) l.

Lemma tree_ok_dir l : tree_ok (DirT l) <-> entries_ok l.
Proof.
  unfold entries_ok. cbn. apply and_iff_compat_l. induction l as [|[n t] l IH]; [by split|]. cbn [foldr]. rewrite Forall_cons, IH. cbn. tauto.
Qed.

(** The contents of the file at a path. *)
Fixpoint tree_at (t : Tree) (p : path) : option bytes :=
  match p, t with
  | [], FileT b => Some b
  | c :: p, DirT entries => match list_find (fun e : bytes * Tree => e.1 = c) entries with Some (_, e) => tree_at e.2 p | None => None end
  | _, _ => None
  end.

Lemma Tree_ind_deep (P : Tree -> Prop) :
  (forall b, P (FileT b)) -> P OtherT -> (forall l, Forall (fun e => P e.2) l -> P (DirT l)) -> forall t, P t.
Proof.
  intros Hf Ho Hd. fix IH 1. intros [b| |l]; [apply Hf|apply Ho|]. apply Hd. induction l as [|[n t] l IHl]; constructor; [apply IH|apply IHl].
Qed.

Lemma find_entry l n t : NoDup l.*1 -> (n, t) ∈ l -> exists i, list_find (fun e : bytes * Tree => e.1 = n) l = Some (i, (n, t)).
Proof.
  intros Hnd Hin. destruct (list_find_elem_of (fun e : bytes * Tree => e.1 = n) l (n, t)) as [[i e] Hf]; [done|done|]. exists i. rewrite Hf.
  apply list_find_Some in Hf as (Hi & He & _). do 2 f_equal. apply list_elem_of_lookup in Hin as [j Hj]. assert (i = j) as ->; [|congruence].
  eapply NoDup_lookup; [exact Hnd|by rewrite list_lookup_fmap, Hi; cbn; rewrite He|by rewrite list_lookup_fmap, Hj].
Qed.

(** What lies under an entry of a directory. *)
Lemma tree_at_dir l c p b :
  NoDup l.*1 -> tree_at (DirT l) (c :: p) = Some b <-> exists t, (c, t) ∈ l /\ tree_at t p = Some b.
Proof.
  intros Hnd. cbn [tree_at]. split.
  - destruct (list_find _ l) as [[i [n t]]|] eqn:E; [|done]. apply list_find_Some in E as (Hi & Hn & _). cbn in Hn. subst n. intros Ht.
    exists t. split; [by apply list_elem_of_lookup_2 with i|done].
  - intros (t & Hin & Ht). destruct (find_entry l c t Hnd Hin) as [i ->]. done.
Qed.

(** The members of a tree are its files. *)
Lemma add_entry_spec prefix name t q b :
  entry_name_ok name -> tree_ok t -> (q, b) ∈ add_entry prefix name t <-> exists p, q = prefix ++ name :: p /\ tree_at t p = Some b.
Proof.
  intros Hn. pose proof (lossy_name name Hn) as El.
  revert prefix name Hn El q b. induction t as [c| |l IH] using Tree_ind_deep; intros prefix name Hn El q b Ht; cbn [add_entry]; rewrite ?El.
  - rewrite list_elem_of_singleton. split; [intros [= -> ->]; by exists []|]. intros ([|c' p] & -> & Hp); [by injection Hp as ->|done].
  - split; [by intros Hq%elem_of_nil|]. by intros ([|c' p] & _ & Hp).
  - apply tree_ok_dir in Ht as [Hnd Hok]. rewrite Forall_forall in IH, Hok. rewrite list_elem_of_bind. split.
    + intros ([n t] & Hin & Hl). destruct (Hok _ Hl) as [Hn' Ht']. cbn [fst snd] in *.
      apply (IH (n, t) Hl) in Hin as (p & -> & Hp); [|done|by apply lossy_name|done].
      exists (n :: p). rewrite <- app_assoc. split; [done|]. apply tree_at_dir; [done|]. by exists t.
    + intros ([|c p] & -> & Hp); [done|]. apply tree_at_dir in Hp as (t & Hl & Hp); [|done]. exists (c, t). split; [|done].
      destruct (Hok _ Hl) as [Hn' Ht']. apply (IH (c, t) Hl); [done|by apply lossy_name|done|]. exists p. by rewrite <- app_assoc.
Qed.

(** A path of a file leads nowhere else. *)
Lemma tree_at_prefix t p q b c : tree_at t p = Some b -> tree_at t q = Some c -> p `prefix_of` q -> p = q.
Proof.
  revert t q. induction p as [|x p IH]; intros t q Hp Hq [k ->]; [by destruct t, k|]. destruct t as [| |l]; [done|done|]. cbn [tree_at app] in *.
  destruct (list_find _ l) as [[i [n t]]|]; [|done]. f_equal. by apply (IH t); [..|exists k].
Qed.

Lemma tree_at_related t p q b c : tree_at t p = Some b -> tree_at t q = Some c -> related p q -> p = q.
Proof. intros Hp Hq [H|H]; [|symmetry]; by eapply tree_at_prefix. Qed.

Lemma tree_at_plain t p b : tree_ok t -> tree_at t p = Some b -> Forall plain p.
Proof.
  revert t. induction p as [|x p IH]; intros t Ht Hp; [constructor|]. destruct t as [| |l]; [done|done|]. apply tree_ok_dir in Ht as [Hnd Hok].
  apply tree_at_dir in Hp as (t & Hl & Hp); [|done]. rewrite Forall_forall in Hok. destruct (Hok _ Hl) as [[_ Hn] Ht]. constructor; [by apply Is_true_eq_left|by eapply IH].
Qed.

(** No file is added twice. *)
Lemma fst_bind {A} (f : A -> list (path * bytes)) l : (l ≫= f).*1 = l ≫= (fun x => (f x).*1).
Proof. induction l as [|x l IH]; [done|]. change ((x :: l) ≫= ?g) with (g x ++ (l ≫= g)). by rewrite fmap_app, IH. Qed.

Lemma add_entries_NoDup pre l :
  entries_ok l -> (forall e, e ∈ l -> NoDup (add_entry pre e.1 e.2).*1) -> NoDup (l ≫= fun e => add_entry pre e.1 e.2).*1.
Proof.
  intros [Hnd Hok] Hl. rewrite fst_bind. rewrite Forall_forall in Hok. apply NoDup_bind; [|done|by eapply NoDup_fmap_1].
  intros [n1 t1] [n2 t2] q H1 H2 Hq1 Hq2. cbn [fst snd] in *.
  apply list_elem_of_fmap in Hq1 as ([q1 b1] & -> & Hq1), Hq2 as ([q2 b2] & Hq & Hq2). cbn in Hq. subst q2.
  destruct (Hok _ H1) as [Hn1 Ht1], (Hok _ H2) as [Hn2 Ht2]. apply add_entry_spec in Hq1 as (p1 & -> & _); [|done..].
  apply add_entry_spec in Hq2 as (p2 & Hp & _); [|done..]. apply app_inv_head in Hp. injection Hp as -> _.
  apply list_elem_of_lookup in H1 as [i Hi], H2 as [j Hj]. assert (i = j) as ->; [|congruence].
  eapply NoDup_lookup; [exact Hnd|by rewrite list_lookup_fmap, Hi|by rewrite list_lookup_fmap, Hj].
Qed.

Lemma add_entry_NoDup prefix name t : tree_ok t -> NoDup (add_entry prefix name t).*1.
Proof.
  revert prefix name. induction t as [c| |l IH] using Tree_ind_deep; intros prefix name Ht; cbn [add_entry]; [apply NoDup_singleton|constructor|].
  apply tree_ok_dir in Ht. apply add_entries_NoDup; [done|]. intros [n t] Hin. destruct Ht as [_ Hok]. rewrite Forall_forall in IH, Hok.
  by apply (IH _ Hin), (Hok _ Hin).
Qed.

(** The archive's members, but for the manifest, are the files outside [active.lock]. *)
Lemma add_dir_spec l q b :
  entries_ok l -> (q, b) ∈ add_dir l <-> head q <> Some (str "active.lock") /\ tree_at (DirT l) q = Some b.
Proof.
  intros [Hnd Hok]. rewrite Forall_forall in Hok. unfold add_dir. rewrite list_elem_of_bind. split.
  - intros ([n t] & Hin & [Hne Hl]%list_elem_of_filter). destruct (Hok _ Hl) as [Hn Ht]. cbn [fst snd] in *. rewrite (lossy_name n Hn) in Hne.
    apply add_entry_spec in Hin as (p & -> & Hp); [|done..]. split; [change (Some n <> Some (str "active.lock")); congruence|]. apply tree_at_dir; [done|]. by exists t.
  - destruct q as [|c p]; [by intros [_ ?]|]. intros [Hh (t & Hl & Hp)%tree_at_dir]; [|done]. destruct (Hok _ Hl) as [Hn Ht]. cbn [fst snd] in *. exists (c, t). split.
    + apply add_entry_spec; [done|done|]. by exists p.
    + apply list_elem_of_filter. split; [|done]. change (from_utf8_lossy c <> str "active.lock"). change (Some c <> Some (str "active.lock")) in Hh. rewrite (lossy_name c Hn). congruence.
Qed.

Lemma add_dir_NoDup l : entries_ok l -> NoDup (add_dir l).*1.
Proof.
  intros [Hnd Hok]. unfold add_dir. apply add_entries_NoDup.
  - split; [eapply sublist_NoDup; [exact Hnd|]; apply fmap_sublist, sublist_filter|].
    rewrite Forall_forall in Hok |- *. intros e [_ He]%list_elem_of_filter. by apply Hok.
  - intros [n t] [_ Hin]%list_elem_of_filter. rewrite Forall_forall in Hok. by apply add_entry_NoDup, (Hok _ Hin).
Qed.

(** ** Unpacking *)

Lemma unpack_members t ms rest mo fs :
  NoDup ms.*1 -> (forall q b, (q, b) ∈ ms -> q <> [] /\ q <> [MANIFEST_NAME] /\ Forall plain q /\ tree_at t q = Some b) ->
  (forall q, is_Some (fs !! q) -> (q ∉ ms.*1) /\ is_Some (tree_at t q)) ->
  unpack (ms ++ rest) mo fs = unpack rest mo (insert_all ms fs).
Proof.
  revert fs. induction ms as [|[q b] ms IH]; intros fs Hnd Hms Hfs; [done|]. cbn [fmap list_fmap fst] in Hnd. apply NoDup_cons in Hnd as [Hq Hnd].
  destruct (Hms q b ltac:(left)) as (Hne & Hman & Hpl & Ht). cbn [app unpack]. rewrite bool_decide_false by done. rewrite unpack_fresh; [|done|done|].
  2:{ intros p Hp Hrel. destruct (Hfs p Hp) as [Hnp [c Hc]]. apply Hnp. rewrite <- (tree_at_related _ _ _ _ _ Ht Hc Hrel). left. }
  rewrite IH; [done|done| |].
  - intros p c Hin. apply Hms. by right.
  - intros p. destruct (decide (p = q)) as [->|Hpq]; [by intros _; rewrite Ht|]. rewrite lookup_insert_ne by done. intros Hp.
    destruct (Hfs p Hp) as [Hnp Hc]. split; [|done]. intros Hin. apply Hnp. by right.
Qed.

(** ** The digest *)

Lemma lower_digits s : Forall hex_digit s -> to_ascii_lower <$> s = s.
Proof.
  induction 1 as [|c s Hc _ IH]; [done|]. cbn [fmap list_fmap]. f_equal; [|done]. unfold to_ascii_lower. destruct (byte_in 65 90 c) eqn:E; [|done]. exfalso.
  unfold hex_digit, byte_in in *. apply andb_prop in E as [E1%Z.leb_le E2%Z.leb_le]. apply Is_true_eq_true, orb_prop in Hc as [[H1%Z.leb_le H2%Z.leb_le]%andb_prop|[H1%Z.leb_le H2%Z.leb_le]%andb_prop]; lia.
Qed.

Lemma digit_is_no_space c s : hex_digit c = true -> List.find (starts_with (c :: s)) WHITE_SPACE = None.
Proof.
  intros Hc. destruct (List.find _ _) as [p|] eqn:E; [|done]. exfalso. apply find_some in E as [Hin E%bool_decide_eq_true].
  assert (no_digit_head WHITE_SPACE = true) as Hn by done. unfold no_digit_head in Hn. rewrite forallb_forall in Hn. specialize (Hn p Hin).
  destruct p as [|x p]; [done|]. cbn beta iota in Hn. injection E as <- _. by rewrite Hc in Hn.
Qed.

Lemma until_space_digits s rest : Forall hex_digit s -> until_space (s ++ Byte.x20 :: rest) = s.
Proof.
  induction 1 as [|c s Hc _ IH]; [done|]. cbn [app until_space]. rewrite digit_is_no_space by (by apply Is_true_eq_true). by rewrite IH.
Qed.

Lemma trim_start_sidecar s rest : s <> [] -> Forall hex_digit s -> trim_start (s ++ rest) = s ++ rest.
Proof.
  intros Hne Hs. destruct s as [|c s]; [done|]. apply Forall_cons in Hs as [Hc _]. unfold trim_start. cbn [app length trim_start_with].
  by rewrite digit_is_no_space by (by apply Is_true_eq_true).
Qed.

Lemma digest_digits file : Forall hex_digit (sha256_of_file file).
Proof. apply hex_digits. Qed.

Lemma utf8_digits s : Forall hex_digit s -> utf8_valid s = true.
Proof.
  induction 1 as [|c s Hc _ IH]; [done|]. cbn [utf8_valid]. assert (byte_in 0 127 c = true) as ->; [|done].
  unfold hex_digit, byte_in in *. apply Is_true_eq_true, orb_prop in Hc as [[H1%Z.leb_le H2%Z.leb_le]%andb_prop|[H1%Z.leb_le H2%Z.leb_le]%andb_prop];
    apply andb_true_intro; split; apply Z.leb_le; lia.
Qed.

Context {laws : ExternalLaws}.

Lemma digest_not_empty file : sha256_of_file file <> [].
Proof. intros E%(f_equal length). unfold sha256_of_file in E. rewrite hex_length, sha256_length in E. done. Qed.

Lemma read_own_sidecar file out_name :
  utf8_valid out_name = true -> read_sidecar_digest (sha256_of_file file ++ str "  " ++ out_name ++ [NEWLINE]) = Ok (sha256_of_file file).
Proof.
  intros Ho. unfold read_sidecar_digest. rewrite utf8_app; [|by apply utf8_digits, digest_digits|by apply (utf8_app (str "  ")); [|apply utf8_app]].
  rewrite trim_start_sidecar; [|apply digest_not_empty|apply digest_digits]. change (str "  " ++ ?x) with (Byte.x20 :: Byte.x20 :: x).
  by rewrite until_space_digits by apply digest_digits.
Qed.

(** C30: Restoring a backup gives back the data directory.  An archive that [backup] wrote
    unpacks, with its digest and into an empty directory, to every file of the data
    directory with its contents, and to nothing else; only what the lock's file name
    names at the top is left out.  Without verification this is what restore leaves.
    With verification it opens the log on these files: restore succeeds when that
    does, and leaves the files as opening the log made them.  The names in the directory
    are UTF-8 and plain, none at the top is the manifest's ([manifest_name_blocks_restore]),
    and the archive's own name is UTF-8. *)
Theorem backup_restores entries mkdir lock_file answer version source out_name now m archive sidecar verify :
  backup (Some (DirT entries)) mkdir lock_file answer version source out_name now = Ok (m, archive, sidecar) ->
  tree_ok (DirT entries) -> MANIFEST_NAME ∉ entries.*1 -> utf8_valid out_name = true ->
  exists fs,
    (forall p b, fs !! p = Some b <-> head p <> Some (str "active.lock") /\ tree_at (DirT entries) p = Some b) /\
    restore archive (Some sidecar) false verify =
      match verify with
      | None => (Ok m, fs)
      | Some open_log => (if (open_log fs).1 then Ok m else Err VerifyFailed, (open_log fs).2)
      end.
Proof.
  unfold backup, mbind, result_bind. destruct (negb (looks_like_logdb entries)); [done|]. destruct (map_err _ _); [|done]. intros [[<- <-]%pair_equal_spec <-]%Ok_inj%pair_equal_spec Hok Hman Ho.
  set (manifest := mkManifest _ _ _ _ _ _ _). set (archive := tar_write _). apply tree_ok_dir in Hok as Hok'.
  exists (insert_all (add_dir entries) ∅). split.
  - intros p b. rewrite <- add_dir_spec by done. split.
    + intros [H|H]%insert_all_inv; [done|]. by rewrite lookup_empty in H.
    + intros H. apply insert_all_lookup; [by apply add_dir_NoDup|done].
  - unfold restore, check_sidecar, mbind, result_bind. rewrite read_own_sidecar by done. unfold eq_ignore_ascii_case. rewrite bool_decide_true by done.
    unfold archive. rewrite tar_round. rewrite (unpack_members (DirT entries)).
    + cbn [unpack]. rewrite bool_decide_true by done. rewrite json_round. cbn [mf_magic manifest]. rewrite bool_decide_true by done. cbn [negb].
      destruct verify as [open_log|]; [|done]. unfold verify_recovers. by destruct (open_log _) as [[] ?].
    + by apply add_dir_NoDup.
    + intros q b Hq. apply add_dir_spec in Hq as [_ Hq]; [|done]. split; [by intros ->|]. split; [|split; [by eapply tree_at_plain|done]].
      intros ->. apply tree_at_dir in Hq as (t & Hl & _); [|apply Hok']. apply Hman, list_elem_of_fmap. by exists (MANIFEST_NAME, t).
    + intros q [x Hx]. by rewrite lookup_empty in Hx.
Qed.

(** An archive that is not the one the digest was taken of is refused, and nothing is
    unpacked, unless the digests are the same. *)
Theorem altered_archive_is_refused archive archive' out_name occupied verify :
  utf8_valid out_name = true -> sha256 archive <> sha256 archive' ->
  restore archive' (Some (sha256_of_file archive ++ str "  " ++ out_name ++ [NEWLINE])) occupied verify =
    (Err (ChecksumMismatch (sha256_of_file archive) (sha256_of_file archive')), ∅).
Proof.
  intros Ho Hne. unfold restore, check_sidecar, mbind, result_bind. rewrite read_own_sidecar by done. unfold eq_ignore_ascii_case.
  rewrite !lower_digits by apply digest_digits. rewrite bool_decide_false; [done|]. unfold sha256_of_file. intros E%(f_equal hex_decode). rewrite !hex_round in E. congruence.
Qed.

End Backup.

(** ** A concrete codec *)

(** Texts and lists with a mark before each element and one at the end. *)
Definition wr_str (s : bytes) : bytes := (s ≫= fun b => [Byte.x01; b]) ++ [Byte.x00].

Fixpoint rd_text (s : bytes) : option (bytes * bytes) :=
  match s with
  | Byte.x00 :: r => Some ([], r)
  | Byte.x01 :: b :: r => '(t, r) ← rd_text r; Some (b :: t, r)
  | _ => None
  end.

Definition wr_list {A} (wr : A -> bytes) (l : list A) : bytes := (l ≫= fun a => Byte.x01 :: wr a) ++ [Byte.x00].

Fixpoint rd_list {A} (rd : bytes -> option (A * bytes)) (fuel : nat) (s : bytes) : option (list A * bytes) :=
  match fuel with
  | O => None
  | S fuel =>
      match s with
      | Byte.x00 :: r => Some ([], r)
      | Byte.x01 :: r => '(a, r) ← rd r; '(l, r) ← rd_list rd fuel r; Some (a :: l, r)
      | _ => None
      end
  end.

Lemma rd_wr_str s r : rd_text (wr_str s ++ r) = Some (s, r).
Proof.
  unfold wr_str. induction s as [|b s IH]; [done|]. change ((b :: s) ≫= ?f) with ([Byte.x01; b] ++ (s ≫= f)). rewrite <- !app_assoc in *. cbn [app rd_text] in *. by rewrite IH.
Qed.

Lemma rd_wr_list {A} (rd : bytes -> option (A * bytes)) wr l fuel r :
  (forall a r, rd (wr a ++ r) = Some (a, r)) -> (length l < fuel)%nat -> rd_list rd fuel (wr_list wr l ++ r) = Some (l, r).
Proof.
  intros Hrd. unfold wr_list. revert fuel. induction l as [|a l IH]; intros [|fuel] Hl; cbn [length] in Hl; [lia|done|lia|].
  change ((a :: l) ≫= ?f) with (f a ++ (l ≫= f)). rewrite <- !app_assoc. cbn [app rd_list]. rewrite Hrd. cbn [mbind option_bind].
  specialize (IH fuel ltac:(lia)). rewrite <- app_assoc in IH. cbn [app] in IH. by rewrite IH.
Qed.

Lemma length_wr_list {A} (wr : A -> bytes) l : (length l < length (wr_list wr l))%nat.
Proof.
  unfold wr_list. induction l as [|a l IH]; [cbn; lia|]. change ((a :: l) ≫= ?f) with (f a ++ (l ≫= f)). rewrite <- app_assoc, length_app. cbn [length]. lia.
Qed.

Definition wr_member (m : path * bytes) : bytes := wr_list wr_str m.1 ++ wr_str m.2.
Definition rd_member (s : bytes) : option ((path * bytes) * bytes) :=
  '(p, r) ← rd_list rd_text (length s) s; '(b, r) ← rd_text r; Some ((p, b), r).

Lemma rd_wr_member m r : rd_member (wr_member m ++ r) = Some (m, r).
Proof.
  unfold rd_member, wr_member. rewrite <- app_assoc. rewrite rd_wr_list; [|apply rd_wr_str|rewrite length_app; pose proof (length_wr_list wr_str m.1); lia].
  cbn [mbind option_bind]. rewrite rd_wr_str. by destruct m.
Qed.

Definition demo_tar_read (s : bytes) : option (list (path * bytes)) := fst <$> rd_list rd_member (length s) s.

(** The numbers of a manifest, in binary. *)
Fixpoint bits_of (p : positive) : bytes :=
  match p with xH => [] | xO p => Byte.x00 :: bits_of p | xI p => Byte.x01 :: bits_of p end.

Fixpoint of_bits (bs : bytes) : option positive :=
  match bs with
  | [] => Some xH
  | Byte.x00 :: bs => xO <$> of_bits bs
  | Byte.x01 :: bs => xI <$> of_bits bs
  | _ => None
  end.

Lemma of_bits_of p : of_bits (bits_of p) = Some p.
Proof. induction p as [p IH|p IH|]; cbn; [by rewrite IH..|done]. Qed.

Definition demo_json_write (m : BackupManifest) : bytes :=
  wr_list wr_str [mf_magic m; mf_logdbd_version m; mf_source_data_dir m;
    bits_of (encode (mf_format_version m, mf_created_at_ns m, mf_file_count m, mf_total_bytes m))].

Definition demo_json_read (s : bytes) : option BackupManifest :=
  match rd_list rd_text (length s) s with
  | Some ([magic; version; source; n], _) =>
      '(a, b, c, d) ← of_bits n ≫= decode (A := Z * Z * Z * Z); Some (mkManifest magic a version b source c d)
  | _ => None
  end.

Lemma demo_json_round m : demo_json_read (demo_json_write m) = Some m.
Proof.
  unfold demo_json_read, demo_json_write. set (l := [mf_magic m; _; _; _]). rewrite <- (app_nil_r (wr_list wr_str l)).
  rewrite rd_wr_list; [|apply rd_wr_str|rewrite app_nil_r; apply length_wr_list]. subst l. cbn beta iota. rewrite of_bits_of. cbn [mbind option_bind].
  rewrite decode_encode. by destruct m.
Qed.

#[global] Instance related_dec p q : Decision (related p q).
Proof. unfold related. apply _. Defined.

Definition demo_unpack (p : path) (b : bytes) (fs : Files) : option Files :=
  if decide (Forall (fun q => ~ related p q) (map_to_list fs).*1) then Some (<[p := b]> fs) else None.

Definition demo_codec : BackupCodec.
Proof.
  refine {| tar_write := wr_list wr_member; tar_read := demo_tar_read; json_write := demo_json_write; json_read := demo_json_read; unpack_in := demo_unpack |}.
  - intros ms. unfold demo_tar_read. rewrite <- (app_nil_r (wr_list wr_member ms)). rewrite rd_wr_list; [done|apply rd_wr_member|].
    rewrite app_nil_r. apply length_wr_list.
  - apply demo_json_round.
  - intros p b fs _ _ Hf. unfold demo_unpack. rewrite decide_True; [done|]. apply Forall_forall. intros q ([q' c] & -> & Hin)%list_elem_of_fmap.
    apply Hf. exists c. by apply elem_of_map_to_list.
Defined.

Section Demo.
#[local] Instance backup_demo_externals : Externals := toy.
#[local] Instance backup_demo_hex : HexCodec := demo_hex.
#[local] Instance backup_demo_codec : BackupCodec := demo_codec.

Definition demo_data_dir : list (bytes * Tree) :=
  [(str "catalog.dat", FileT (str "c")); (str "s0", DirT [(str "segment-00000001.log", FileT (str "r"))]); (str "active.lock", FileT [])].

Definition demo_backup (dir : list (bytes * Tree)) : result BackupError (BackupManifest * bytes * bytes) :=
  backup (Some (DirT dir)) true true LockFree (str "1") (str "/d") (str "b") 7.

Definition demo_restore (ms : list (path * bytes)) : result BackupError BackupManifest * list (path * bytes) :=
  let '(r, fs) := restore (tar_write ms) None false None in (r, map_to_list fs).

(** ** Where backups fall short *)

(** A file of the data directory that is named like the manifest makes the backup
    impossible to restore. *)
Theorem manifest_name_blocks_restore :
  let backed_up := demo_backup [(str "catalog.dat", FileT (str "c")); (MANIFEST_NAME, FileT (str "notes"))] in
  (p ← ok_of backed_up; Some (restore p.1.2 (Some p.2) false None).1) = Some (Err BackupJson).
Proof. by vm_compute. Qed.

(** An archive of an unknown format version is restored. *)
Theorem format_version_is_not_checked :
  let m := mkManifest BACKUP_MAGIC 99 (str "9") 0 [] 0 0 in demo_restore [([MANIFEST_NAME], json_write m)] = (Ok m, []).
Proof. by vm_compute. Qed.

(** An archive that is no backup is unpacked before it is refused. *)
Theorem foreign_archive_is_unpacked : demo_restore [([str "f"], str "x")] = (Err (BadMagic None), [([str "f"], str "x")]).
Proof. by vm_compute. Qed.

(** The number of files in the manifest is not compared: an archive that lost members
    restores. *)
Theorem missing_members_are_not_noticed :
  let m := mkManifest BACKUP_MAGIC FORMAT_VERSION (str "1") 0 [] 2 20 in demo_restore [([MANIFEST_NAME], json_write m)] = (Ok m, []).
Proof. by vm_compute. Qed.

(** ** Witnesses *)

Lemma demo_dir_ok : tree_ok (DirT demo_data_dir).
Proof.
  assert (forall n, utf8_valid n && plain n = true -> entry_name_ok n) as Hn by (by intros n [H1 H2]%andb_prop).
  apply tree_ok_dir. split; [apply (bool_decide_unpack _); by vm_compute|].
  apply Forall_cons. split; [split; [by apply Hn; vm_compute|done]|]. apply Forall_cons. split; [split; [by apply Hn; vm_compute|]|].
  - split; [apply NoDup_singleton|]. split; [by apply Hn; vm_compute|done].
  - apply Forall_cons. split; [split; [by apply Hn; vm_compute|done]|constructor].
Qed.

(** A log that writes its lock when it is opened. *)
Definition demo_open (fs : Files) : bool * Files := (true, <[[str "active.lock"] := []]> fs).

Lemma backup_restores_witness :
  exists m archive sidecar fs, demo_backup demo_data_dir = Ok (m, archive, sidecar) /\
    restore archive (Some sidecar) false (Some demo_open) = (Ok m, <[[str "active.lock"] := []]> fs) /\
    fs !! [str "s0"; str "segment-00000001.log"] = Some (str "r") /\ fs !! [str "active.lock"] = None.
Proof.
  assert (is_ok (demo_backup demo_data_dir) = true) as Hok by (by vm_compute).
  destruct (demo_backup demo_data_dir) as [[[m archive] sidecar]|] eqn:E; [|done].
  destruct (backup_restores (laws := toy_laws) demo_data_dir true true LockFree (str "1") (str "/d") (str "b") 7 m archive sidecar (Some demo_open) E demo_dir_ok) as (fs & H2 & H1).
  - apply (bool_decide_unpack _). by vm_compute.
  - by vm_compute.
  - exists m, archive, sidecar, fs. split; [done|]. split; [exact H1|]. split.
    + apply H2. split; [done|by vm_compute].
    + destruct (fs !! [str "active.lock"]) as [b|] eqn:El; [|done]. apply H2 in El as [El _]. done.
Defined.

Lemma altered_archive_is_refused_witness :
  (restore (str "other") (Some (sha256_of_file (str "archive") ++ str "  " ++ str "b" ++ [NEWLINE])) false None).2 = ∅.
Proof.
  rewrite (altered_archive_is_refused (laws := toy_laws) (str "archive") (str "other") (str "b")); [done|by vm_compute|].
  apply (bool_decide_unpack _). by vm_compute.
Defined.

End Demo.
