(* ===== verification/GroupConsumer.v ===== *)
(** * The consumer of a group ([logdb-client/src/broker.rs])

    [GroupConsumer] joins a group of the broker, opens its stream, joins again when the
    broker finds its generation stale, and leaves.  It runs against the handlers of
    [BrokerService]; what other clients do between its calls is a list of operations. *)
From stdpp Require Import base gmap list numbers strings.
From Stdlib Require Import ZArith Lia.
From S2P Require Import Prelude Coordinator BrokerService.
Open Scope Z_scope.

Record GroupConsumer := mkConsumer {
  gc_key : GroupKey;
  gc_consumer_id : string;
  gc_generation : Z;
  gc_assigned_shards : list Z;
}.

(** [join]. *)
Definition gc_join (redirect : option string) (key : GroupKey) (consumer_id : string) (s : Service) : (GroupConsumer + Status) * Service :=
  match join_group redirect key consumer_id s with
  | (inl resp, s) => (inl (mkConsumer key consumer_id (jr_generation resp) (jr_assigned_shards resp)), s)
  | (inr e, s) => (inr e, s)
  end.

(** [rejoin]. *)
Definition gc_rejoin (redirect : option string) (c : GroupConsumer) (s : Service) : (GroupConsumer + Status) * Service :=
  gc_join redirect (gc_key c) (gc_consumer_id c) s.

(** [try_consume]. *)
Definition try_consume (redirect : option string) (now : Z) (c : GroupConsumer) (s : Service) : (unit + Status) * Service :=
  consume redirect now (gc_key c) (gc_consumer_id c) (gc_generation c) s.

Definition others (ops : list ServiceOp) (s : Service) : Service := foldl service_step s ops.

(** What the calls of [consume_frames] meet: the answers of the leader check and the time,
    and what others do between them. *)
Record CallEnv := mkCallEnv {
  ce_first : option string;
  ce_between1 : list ServiceOp;
  ce_rejoin : option string;
  ce_between2 : list ServiceOp;
  ce_second : option string;
  ce_now : Z;
}.

(** [consume_frames]: one retry behind a rejoin when the precondition failed. *)
Definition consume_frames (env : CallEnv) (c : GroupConsumer) (s : Service) : (unit + Status) * GroupConsumer * Service :=
  match try_consume (ce_first env) (ce_now env) c s with
  | (inl u, s) => (inl u, c, s)
  | (inr FailedPrecondition, s) =>
      match gc_rejoin (ce_rejoin env) c (others (ce_between1 env) s) with
      | (inr e, s) => (inr e, c, s)
      | (inl c, s) => let '(r, s) := try_consume (ce_second env) (ce_now env) c (others (ce_between2 env) s) in (r, c, s)
      end
  | (inr e, s) => (inr e, c, s)
  end.

(** [consume] keeps the records of the frames, and the errors. *)
Definition record_frames (fs : list Frame) : list (BrokerRecord + string) :=
  omap (fun f => match f with FRecord r => Some (inl r) | FError e => Some (inr e) | _ => None end) fs.

(** [commit_shard]. *)
Definition gc_commit_shard (c : GroupConsumer) (shard seq : Z) (s : Service) : bool * Service :=
  ((registry_commit_offset (gc_key c) shard seq (sv_registry s)).1, commit_shard (gc_key c) shard seq s).

(** [leave]. *)
Definition gc_leave (redirect : option string) (c : GroupConsumer) (s : Service) : (bool + Status) * Service :=
  leave_group redirect (gc_key c) (gc_consumer_id c) s.

(** ** A generation names one assignment *)

Definition MAX_GENERATION : Z := 2 ^ 32 - 1.

(** The generation moves on whenever the members or their shards change, until it has
    reached its last value. *)
Definition group_follows (g g' : GroupState) : Prop :=
  gs_generation g <= gs_generation g' /\
  (gs_generation g = gs_generation g' -> gs_generation g < MAX_GENERATION -> members g' = members g /\ assignments g' = assignments g).

#[global] Instance group_follows_preorder : PreOrder group_follows.
Proof.
  split; [done|]. intros g1 g2 g3 [H1 H2] [H3 H4]. split; [lia|]. intros E Hlt.
  destruct (H2 ltac:(lia) Hlt) as [<- <-]. apply H4; lia.
Qed.

Lemma join_follows c g : gs_generation g <= MAX_GENERATION -> group_follows g (join c g).2 /\ gs_generation (join c g).2 <= MAX_GENERATION.
Proof.
  intros Hg. unfold join. cbn [snd]. case_bool_decide; [by split|].
  unfold next_generation, MAX_GENERATION in *.
  case_bool_decide; [|destruct (recompute_sticky _ _ _)]; (split; [split|]; cbn [gs_generation]; unfold MAX_GENERATION; [lia|intros; exfalso; lia|lia]).
Qed.

Lemma leave_follows c g : gs_generation g <= MAX_GENERATION -> group_follows g (leave c g).2 /\ gs_generation (leave c g).2 <= MAX_GENERATION.
Proof.
  intros Hg. unfold leave. case_bool_decide; [|by split]. unfold next_generation, MAX_GENERATION in *.
  destruct (recompute_sticky _ _ _). (split; [split|]; cbn [snd gs_generation]; unfold MAX_GENERATION; [lia|intros; exfalso; lia|lia]).
Qed.

(** No group has a generation behind the last. *)
Definition generations_ok (r : CoordinatorRegistry) : Prop := forall key, gs_generation (get_group r key) <= MAX_GENERATION.

Definition registry_follows (r r' : CoordinatorRegistry) : Prop := forall key, group_follows (get_group r key) (get_group r' key).

#[global] Instance registry_follows_preorder : PreOrder registry_follows.
Proof. split; [by intros r key|]. intros r1 r2 r3 H1 H2 key. by transitivity (get_group r2 key). Qed.

Lemma apply_registry_follows r op : generations_ok r -> registry_follows r (apply_registry r op) /\ generations_ok (apply_registry r op).
Proof.
  intros Hr. destruct op as [k c|k c|k sh q]; cbn [apply_registry].
  - split; intros key; rewrite get_registry_join; case_bool_decide; try done; subst; by apply join_follows.
  - split; intros key; rewrite get_registry_leave; case_bool_decide; try done; subst; by apply leave_follows.
  - unfold registry_commit_offset, commit_offset. cbn [snd]. split; intros key; rewrite get_set_group; case_bool_decide; subst; try done; apply Hr.
Qed.

(** ** Every handler follows *)

Lemma rebalance_registry key s : sv_forwarder s = true -> sv_registry (rebalance_group key s) = sv_registry s.
Proof.
  intros Hf. destruct (group_snapshot (sv_registry s) key) as [snap|] eqn:E; [by apply (rebalance_group_spec key s snap)|].
  unfold rebalance_group. rewrite E. by destruct (get_session_ids _ _).
Qed.

Lemma evict_follows s kc : service_inv s -> generations_ok (sv_registry s) -> registry_follows (sv_registry s) (sv_registry (evict s kc)) /\ generations_ok (sv_registry (evict s kc)).
Proof.
  intros (Hf & _) Hg. unfold evict. destruct (drop_session_same kc.1 kc.2 s) as [E1 E2].
  rewrite rebalance_registry by (cbn [with_registry sv_forwarder]; congruence). cbn [with_registry sv_registry]. rewrite E1.
  apply (apply_registry_follows _ (RLeave kc.1 kc.2) Hg).
Qed.

Lemma evict_all_follows l s :
  service_inv s -> generations_ok (sv_registry s) -> registry_follows (sv_registry s) (sv_registry (foldl evict s l)) /\ generations_ok (sv_registry (foldl evict s l)).
Proof.
  revert s. induction l as [|kc l IH]; intros s Hs Hg; [by split|]. destruct (evict_follows s kc Hs Hg) as [H1 H2]. cbn [foldl].
  destruct (IH (evict s kc)) as [H3 H4]; [by apply evict_inv|done|]. split; [by etrans|done].
Qed.

Lemma join_group_registry redirect key c s :
  sv_forwarder s = true ->
  sv_registry (join_group redirect key c s).2 = sv_registry s \/ sv_registry (join_group redirect key c s).2 = (registry_join key c (sv_registry s)).2.
Proof.
  intros Hf. unfold join_group, join_registry. destruct redirect; [by left|]. destruct (_ || _); [by left|]. right.
  destruct (registry_join key c (sv_registry s)) as [res r]. cbn [snd]. by rewrite rebalance_registry.
Qed.

Lemma leave_group_registry redirect key c s :
  sv_forwarder s = true ->
  sv_registry (leave_group redirect key c s).2 = sv_registry s \/ sv_registry (leave_group redirect key c s).2 = (registry_leave key c (sv_registry s)).2.
Proof.
  intros Hf. unfold leave_group. destruct redirect; [by left|]. right. destruct (registry_leave key c (sv_registry s)) as [ok r]. cbn [snd].
  destruct ok; [by rewrite rebalance_registry|done].
Qed.

Lemma consume_registry redirect now key c gen s : sv_registry (consume redirect now key c gen s).2 = sv_registry s.
Proof. unfold consume. repeat case_match; try done. cbn [snd]. apply put_session_same. Qed.

Lemma service_step_follows s op :
  service_inv s -> generations_ok (sv_registry s) ->
  registry_follows (sv_registry s) (sv_registry (service_step s op)) /\ generations_ok (sv_registry (service_step s op)).
Proof.
  intros Hs Hg. destruct (Hs) as (Hf & _). destruct op as [rd key c|rd key c|rd now key c gen|rd now key c gen|key sh q|now t|key c|key c|key c]; cbn [service_step].
  - destruct (join_group_registry rd key c s Hf) as [->| ->]; [by split|]. apply (apply_registry_follows _ (RJoin key c) Hg).
  - destruct (leave_group_registry rd key c s Hf) as [->| ->]; [by split|]. apply (apply_registry_follows _ (RLeave key c) Hg).
  - rewrite consume_registry. by split.
  - unfold heartbeat. destruct rd; [by split|]. by destruct (sessions_get _ _ _).
  - apply (apply_registry_follows _ (RCommit key sh q) Hg).
  - by apply evict_all_follows.
  - unfold forward_ended. cbn [with_sessions sv_registry]. rewrite (proj1 (leave_tasks_same key c ss_detached s)). by split.
  - by split.
  - by split.
Qed.

Lemma others_follow ops s :
  service_inv s -> generations_ok (sv_registry s) ->
  registry_follows (sv_registry s) (sv_registry (others ops s)) /\ generations_ok (sv_registry (others ops s)) /\ service_inv (others ops s).
Proof.
  unfold others. revert s. induction ops as [|op ops IH]; intros s Hs Hg; [by split_and!|]. cbn [foldl].
  destruct (service_step_follows s op Hs Hg) as [H1 H2]. destruct (IH (service_step s op)) as (H3 & H4 & H5); [by apply service_step_inv|done|].
  split; [by etrans|done].
Qed.

(** ** The consumer's view *)

(** What [c] was told is the state of its group. *)
Definition told (c : GroupConsumer) (g : GroupState) : Prop :=
  gc_generation c = gs_generation g /\ gc_consumer_id c ∈ members g /\ gc_assigned_shards c = default [] (assigned g (gc_consumer_id c)).

(** [c] was told a state that the group's has followed since. *)
Definition in_view (c : GroupConsumer) (s : Service) : Prop :=
  exists g, told c g /\ group_follows g (get_group (sv_registry s) (gc_key c)).

Lemma join_told c g : c ∈ members (join c g).2.
Proof. unfold join. cbn [snd]. case_bool_decide; [done|]. case_bool_decide; [|destruct (recompute_sticky _ _ _)]; cbn [members]; set_solver. Qed.

Lemma gc_join_view redirect key id s c s' :
  service_inv s -> generations_ok (sv_registry s) -> gc_join redirect key id s = (inl c, s') ->
  gc_key c = key /\ gc_consumer_id c = id /\ in_view c s' /\ service_inv s' /\ generations_ok (sv_registry s').
Proof.
  intros Hs Hg E. pose proof (service_step_inv s (SJoin redirect key id) Hs) as Hs'.
  destruct (service_step_follows s (SJoin redirect key id) Hs Hg) as [_ Hg']. cbn [service_step] in *.
  unfold gc_join, join_group, join_registry in *. destruct redirect; [done|]. destruct (_ || _); [done|].
  destruct (registry_join key id (sv_registry s)) as [res r] eqn:Ej. cbn [snd] in *. injection E as <- <-. cbn [gc_key gc_consumer_id].
  split; [done|]. split; [done|]. split; [|done]. exists (join id (get_group (sv_registry s) key)).2.
  pose proof (f_equal fst Ej) as E1. pose proof (get_registry_join (sv_registry s) key id key) as E2. rewrite Ej, bool_decide_true in E2 by done.
  unfold registry_join in E1. split.
  - destruct (join id (get_group (sv_registry s) key)) as [res' g] eqn:Eg. cbn in E1. subst res'. unfold told. cbn [gc_generation gc_consumer_id gc_assigned_shards].
    pose proof (join_told id (get_group (sv_registry s) key)) as Hm. rewrite Eg in Hm. unfold join in Eg. injection Eg as <- <-. done.
  - rewrite rebalance_registry by apply Hs. cbn [with_registry sv_registry gc_key]. by rewrite <- E2.
Qed.

Lemma in_view_others c ops s :
  service_inv s -> generations_ok (sv_registry s) -> in_view c s ->
  in_view c (others ops s) /\ service_inv (others ops s) /\ generations_ok (sv_registry (others ops s)).
Proof.
  intros Hs Hg (g & Ht & Hf). destruct (others_follow ops s Hs Hg) as (H1 & H2 & H3). split; [|done]. exists g. split; [done|]. by etrans.
Qed.

(** The stream of [c] forwards the shards [c] was told, and no task of another
    stream sends on it. *)
Definition forwards_told (c : GroupConsumer) (s : Service) : Prop :=
  exists h task, sessions_get (sv_sessions s) (gc_key c) (gc_consumer_id c) = Some h /\ ss_forward h = Some task /\
    ss_detached h = [] /\ (forall shard, is_Some (task !! shard) <-> shard ∈ gc_assigned_shards c).

Lemma try_consume_forwards redirect now c s s' :
  service_inv s -> in_view c s -> gs_generation (get_group (sv_registry s') (gc_key c)) < MAX_GENERATION ->
  try_consume redirect now c s = (inl tt, s') -> forwards_told c s'.
Proof.
  intros Hs (g & (T1 & T2 & T3) & Hf1 & Hf2) Hmax E. pose proof (f_equal (fun p => sv_registry p.2) E) as Er. cbn [snd] in Er.
  unfold try_consume in *. rewrite consume_registry in Er. rewrite <- Er in Hmax. unfold consume in E. destruct redirect; [done|]. destruct (_ || _); [done|].
  destruct (sv_forwarder s) eqn:Ef; [|done]. cbn [negb] in E.
  destruct (group_snapshot_get (sv_registry s) (gc_key c)) as [[E1 _]|(snap & E1 & E2 & E3)]; rewrite E1 in E; [done|].
  destruct (Z.eqb_spec (sn_generation snap) (gc_generation c)) as [Hgen|]; [|done]. cbn [negb] in E.
  destruct Hf2 as [Em Ea]; [lia..|]. rewrite E3 in E by (by rewrite Em).
  assert (assigned (get_group (sv_registry s) (gc_key c)) (gc_consumer_id c) = assigned g (gc_consumer_id c)) as Eas by (unfold assigned; by rewrite Ea).
  rewrite Eas, <- T3 in E. destruct (gc_assigned_shards c) as [|a l] eqn:El; [done|]. injection E as <-.
  unfold forwards_told. rewrite (proj2 (put_session_same _ _ _ _)). eexists _, _.
  split; [by rewrite sessions_get_insert, bool_decide_true|]. split; [unfold spawn_forward; by rewrite Ef|].
  split; [unfold spawn_forward; by rewrite Ef|].
  rewrite El. apply shard_offsets_for_ok, (proj2 (proj1 (proj2 Hs))).
Qed.

(** ** Theorems *)

Lemma new_generations_ok num_shards : generations_ok (registry_new num_shards).
Proof. intros key. unfold get_group. cbn. by rewrite lookup_empty. Qed.

(** C12: A consumer that has joined and opened its stream holds the truth about it: the
    broker forwards to it exactly the shards its [assigned_shards] names, and no aborted
    task of an earlier assignment sends on the new stream.  This is so
    whatever other clients did before, between the join and the opening, and between the
    calls of the retry, as long as the generation has not reached its last value. *)
Theorem consumer_holds_what_is_forwarded (num_shards : Z) (before ops : list ServiceOp) (key : GroupKey) (id : string)
    (env : CallEnv) (c c' : GroupConsumer) (s1 s2 : Service) :
  0 <= num_shards ->
  gc_join None key id (run_service num_shards before) = (inl c, s1) ->
  consume_frames env c (others ops s1) = (inl tt, c', s2) ->
  gs_generation (get_group (sv_registry s2) key) < MAX_GENERATION ->
  exists h task, sessions_get (sv_sessions s2) key id = Some h /\ ss_forward h = Some task /\
    ss_detached h = [] /\ (forall shard, is_Some (task !! shard) <-> shard ∈ gc_assigned_shards c').
Proof.
  intros H0 Ej Ec Hmax. pose proof (run_service_inv num_shards before H0) as Hs0.
  assert (generations_ok (sv_registry (run_service num_shards before))) as Hg0.
  { apply (others_follow before (run_service num_shards [])); [by apply (run_service_inv num_shards [])|apply new_generations_ok]. }
  destruct (gc_join_view _ _ _ _ _ _ Hs0 Hg0 Ej) as (<- & <- & Hv & Hs1 & Hg1).
  destruct (in_view_others c ops s1 Hs1 Hg1 Hv) as (Hv1 & Hs2 & Hg2). unfold consume_frames in Ec.
  destruct (try_consume (ce_first env) (ce_now env) c (others ops s1)) as [[[]|st] sa] eqn:E1.
  { injection Ec as <- <-. by eapply try_consume_forwards. }
  assert (sv_registry sa = sv_registry (others ops s1) /\ service_inv sa) as [Er Hsa].
  { pose proof (f_equal snd E1) as E. cbn [snd] in E. rewrite <- E. split; [apply consume_registry|].
    apply (service_step_inv _ (SConsume (ce_first env) (ce_now env) (gc_key c) (gc_consumer_id c) (gc_generation c)) Hs2). }
  destruct st; try done. rewrite <- Er in Hg2. destruct (others_follow (ce_between1 env) sa Hsa Hg2) as (_ & Hg3 & Hs3).
  destruct (gc_rejoin _ c _) as [[cn|e] sb] eqn:E2; [|done].
  destruct (gc_join_view _ _ _ _ _ _ Hs3 Hg3 E2) as (Ek & Ei & Hv4 & Hs4 & Hg4).
  destruct (in_view_others cn (ce_between2 env) sb Hs4 Hg4 Hv4) as (Hv5 & Hs5 & _).
  destruct (try_consume _ _ cn _) as [r sc] eqn:E3. injection Ec as -> <- <-.
  rewrite <- Ek in Hmax |- *. rewrite <- Ei. by eapply try_consume_forwards.
Qed.

(** ** Witness and where the client falls short *)

Local Open Scope string_scope.

Definition demo_env : CallEnv := mkCallEnv None [SCommit demo_key 1 7] None [SHeartbeat None 4 demo_key "a" 1] None 10.

(** "b" joins a group that "a" holds; "d" joins before "b" opens its stream, so that the
    broker refuses the old generation and "b" joins again. *)
Definition demo_join : (GroupConsumer + Status) * Service := gc_join None demo_key "b" (run_service 5 [SJoin None demo_key "a"]).

Definition demo_consumer : GroupConsumer := match demo_join.1 with inl c => c | inr _ => mkConsumer demo_key "" 0 [] end.

Definition demo_consume : (unit + Status) * GroupConsumer * Service := consume_frames demo_env demo_consumer (others [SJoin None demo_key "d"] demo_join.2).

Lemma consumer_holds_what_is_forwarded_witness :
  gc_generation demo_consumer = 2 /\ gc_generation demo_consume.1.2 = 3 /\ gc_assigned_shards demo_consume.1.2 = [1; 3] /\
  exists h task, sessions_get (sv_sessions demo_consume.2) demo_key "b" = Some h /\ ss_forward h = Some task /\
    ss_detached h = [] /\ (forall shard, is_Some (task !! shard) <-> shard ∈ gc_assigned_shards demo_consume.1.2).
Proof.
  split; [by vm_compute|]. split; [by vm_compute|]. split; [by vm_compute|].
  apply (consumer_holds_what_is_forwarded 5 [SJoin None demo_key "a"] [SJoin None demo_key "d"] demo_key "b" demo_env demo_consumer demo_consume.1.2 demo_join.2 demo_consume.2).
  - lia.
  - by vm_compute.
  - by vm_compute.
  - by vm_compute.
Defined.

(** After the stream is open the view is not kept: when another member joins, the broker
    moves a shard away and says so in the stream, [consume] drops the frame, and
    [assigned_shards] and [generation] go on naming the old state. *)
Theorem open_stream_loses_the_view :
  let s := others [SJoin None demo_key "e"; SJoin None demo_key "f"] demo_consume.2 in
  gc_assigned_shards demo_consume.1.2 = [1; 3] /\ forwarded s "b" = [1] /\
  record_frames (default [] (ss_sent <$> sessions_get (sv_sessions s) demo_key "b")) = [].
Proof. by vm_compute. Qed.

(** The client never sends a heartbeat: with a session timeout set, a consumer whose stream
    is open and read is put out of its group once the timeout has passed. *)
Theorem reading_consumer_is_evicted :
  let s := others [SEvict 3011 3000] demo_consume.2 in
  "b" ∈ members (get_group (sv_registry demo_consume.2) demo_key) /\ members (get_group (sv_registry s) demo_key) = ["a"; "d"].
Proof. split; [|by vm_compute]. vm_compute. repeat constructor. Qed.
