(* ===== verification/ServerApi.v ===== *)
(** * The rest of the server's interface ([logdbd/src/service.rs])

    The records on the wire, and the handlers that [Lifecycle], [ServerTail] and [Query]
    leave open: a call from the token to the answer, [scan], [tail] and [verify_chain]
    by name, the watermark, offsets, status and listings. *)
From stdpp Require Import base gmap list numbers sorting.
From coqutil Require Import Byte.
From Stdlib Require Import ZArith Lia.
From S2P Require Import Prelude Externals RustStd Shard ByteReader ServerRecord StreamStore Catalog Lifecycle Publisher ServiceRun ServerTail ServerOffsets Query ServerStart.
Open Scope Z_scope.

(** ** Records on the wire *)

Record PbRecord := mkPb {
  pb_namespace_id : Z;
  pb_stream_id : Z;
  pb_seq : Z;
  pb_event_type : bytes;
  pb_timestamp_ns : Z;
  pb_content_type : bytes;
  pb_metadata : gmap bytes bytes;
  pb_content : bytes;
}.

(** [to_hashmap]. *)
Definition to_hashmap (bm : list (bytes * bytes)) : gmap bytes bytes := insert_all bm ∅.

(** [decoded_to_pb], which [read], [scan] and [tail] write out. *)
Definition decoded_to_pb (r : DecodedRecord) : PbRecord :=
  mkPb (d_namespace_id r) (d_stream_id r) (d_seq r) (d_event_type r) (d_timestamp_ns r) (d_content_type r) (to_hashmap (d_metadata r)) (d_user_content r).

(** ** The server *)

Record Server := mkServer {
  se_svc : Service;
  se_tracker : ConsumerTracker;
  se_hostname : bytes;
  se_role : bytes;
}.

Definition with_svc (v : Service) (s : Server) : Server := mkServer v (se_tracker s) (se_hostname s) (se_role s).
Definition with_tracker (t : ConsumerTracker) (s : Server) : Server := mkServer (se_svc s) t (se_hostname s) (se_role s).

Inductive ApiStatus := Refused (e : Lifecycle.Status) | NotFound | Unauthenticated.

Definition api {A} (r : result Lifecycle.Status A) : result ApiStatus A := match r with Ok a => Ok a | Err e => Err (Refused e) end.

(** A handler of [Service] as one of the server. *)
Definition on_service {A} (h : Service -> result Lifecycle.Status A * Service) (s : Server) : result ApiStatus A * Server :=
  let '(r, v) := h (se_svc s) in (api r, with_svc v s).

(** A call goes through the interceptor first, which finds its roles. *)
Definition call {A} (i : AnyInterceptor) (header : option bytes) (h : list Role -> Server -> result ApiStatus A * Server) (s : Server)
    : result ApiStatus A * Server :=
  match call_interceptor i header with
  | None => (Err Unauthenticated, s)
  | Some roles => h roles s
  end.

(** A storage error is answered as an internal one. *)
Definition internal {E A} (r : result E A) : result Lifecycle.Status A := match r with Ok a => Ok a | Err _ => Err Internal end.

Section WithCrc.
Context {ext : Externals}.

(** Resolves the names, then reads. *)
Definition by_name {A} (saved : bool) (ns st : bytes) (f : Z -> Service -> result Lifecycle.Status A) (v : Service) : result Lifecycle.Status A * Service :=
  let '(ids, v) := svc_resolve saved ns st v in
  match ids with
  | Err e => (Err e, v)
  | Ok (_, stream_id) => (f stream_id v, v)
  end.

(** [scan]; an error of the storage is the stream's only message. *)
Definition svc_scan (saved : bool) (ns st : bytes) (from limit : Z) : Server -> result ApiStatus (result Lifecycle.Status (list ScanResponse)) * Server :=
  on_service (by_name saved ns st (fun stream_id v => Ok (internal (rpc_scan (sv_storage v) (sv_cutoffs v) stream_id from limit)))).

(** [verify_chain]. *)
Definition svc_verify_chain (saved : bool) (ns st : bytes) (from to : Z) : Server -> result ApiStatus VerifyResponse * Server :=
  on_service (by_name saved ns st (fun stream_id v => internal (verify_chain (sv_storage v) stream_id from to))).

Record TailRequest := mkTailReq {
  tq_namespace : bytes;
  tq_stream : bytes;
  tq_from_seq : Z;
  tq_batch_size : Z;
  tq_consumer_group : bytes;
  tq_consumer_id : bytes;
  tq_shard_ids : list Z;
}.

(** What the task of a tail is started with. *)
Record TailTask := mkTask { tt_stream_id : Z; tt_from_seq : Z; tt_shard_ids : gset Z; tt_batch_size : nat }.

(** [tail], up to the start of its task. *)
Definition svc_tail (saved : bool) (r : TailRequest) (s : Server) : result ApiStatus TailTask * Server :=
  on_service (by_name saved (tq_namespace r) (tq_stream r) (fun stream_id _ =>
    let committed := get (tq_namespace r, tq_stream r, tq_consumer_group r, tq_consumer_id r) (se_tracker s) in
    Ok (mkTask stream_id (tail_from (tq_from_seq r) (tq_consumer_group r) (tq_consumer_id r) committed)
          (list_to_set (tq_shard_ids r)) (Z.to_nat (tail_batch (tq_batch_size r)))))) s.

(** What goes out for the result of a query ([result_to_response]). *)
Inductive QueryResponse :=
  | PRecords (l : list PbRecord)
  | PCount (n : Z)
  | PExists (b : bool)
  | PCountDistinct (n : Z)
  | PMin (n : Z)
  | PMax (n : Z)
  | PDistinctValues (l : list bytes).

Definition result_to_response (rs : ResultSet) : QueryResponse :=
  match rs with
  | RRecords l => PRecords (decoded_to_pb <$> l)
  | RCount n => PCount n
  | RExists b => PExists b
  | RCountDistinct n => PCountDistinct n
  | RMin n => PMin n
  | RMax n => PMax n
  | RDistinctValues l => PDistinctValues l
  end.

(** [query] by name. *)
Definition svc_query (roles : list Role) (saved : bool) (ns st : bytes) (r : QueryRequest) (s : Server) : result ApiStatus QueryResponse * Server :=
  if negb (require_role (Some roles) Reader) then (Err (Refused PermissionDenied), s)
  else on_service (by_name saved ns st (fun stream_id v =>
         match rpc_query (sv_storage v) (sv_cutoffs v) stream_id r with Ok rs => Ok (result_to_response rs) | Err _ => Err Internal end)) s.

(** What the task of a subscription is started with. *)
Record SubscribeTask := mkSubTask { st_stream_id : Z; st_last_committed : Z; st_event_types : gset bytes }.

(** [subscribe], up to the start of its task. *)
Definition svc_subscribe (roles : list Role) (saved : bool) (ns st : bytes) (event_types : list bytes) (group id : bytes) (s : Server)
    : result ApiStatus SubscribeTask * Server :=
  if negb (require_role (Some roles) Subscriber) then (Err (Refused PermissionDenied), s)
  else on_service (by_name saved ns st (fun stream_id _ =>
         if bool_decide ((list_to_set event_types : gset bytes) = ∅) then Err InvalidArgument
         else Ok (mkSubTask stream_id (get (ns, st, group, id) (se_tracker s)) (list_to_set event_types)))) s.

End WithCrc.

(** [commit_offset] and [get_committed_offset]. *)
Definition svc_commit_offset (ns st group id : bytes) (seq : Z) (s : Server) : result ApiStatus bool * Server :=
  (Ok true, with_tracker (commit (ns, st, group, id) seq (se_tracker s)) s).

Definition svc_get_committed_offset (ns st group id : bytes) (s : Server) : result ApiStatus Z * Server :=
  (Ok (get (ns, st, group, id) (se_tracker s)), s).

Record Watermark := mkWatermark {
  wm_namespace : bytes;
  wm_stream : bytes;
  wm_oldest_seq : Z;
  wm_durable_seq : Z;
  wm_replicated_seq : Z;
  wm_node_id : bytes;
  wm_role : bytes;
}.

(** [get_watermark]: the names are not looked at. *)
Definition svc_get_watermark (ns st : bytes) (s : Server) : result ApiStatus Watermark * Server :=
  let storage := sv_storage (se_svc s) in
  (Ok (mkWatermark ns st 0 (durable_gid storage) (replicated_seq storage) (se_hostname s) (se_role s)), s).

(** [checkpoint]: a primary hands the sequence on to the log. *)
Definition svc_checkpoint (sequence : Z) (s : Server) : result ApiStatus unit * option Z :=
  if sv_primary (se_svc s) then (Ok tt, Some sequence) else (Err (Refused PermissionDenied), None).

Record StatusResponse := mkStatusResp {
  sp_durable_sequence : Z;
  sp_checkpoint : Z;
  sp_wal_bytes_used : Z;
  sp_wal_bytes_total : Z;
  sp_node_id : bytes;
  sp_role : bytes;
  sp_num_shards : Z;
}.

(** [status]. *)
Definition svc_status (s : Server) : result ApiStatus StatusResponse * Server :=
  let storage := sv_storage (se_svc s) in
  (Ok (mkStatusResp (durable_gid storage) 0 0 0 (se_hostname s) (se_role s) (wrap 32 (st_num_shards storage))), s).

(** [list_namespaces] and [list_streams]. *)
Definition svc_list_namespaces (s : Server) : result ApiStatus (list (bytes * Z * Z)) * Server :=
  (Ok (list_namespaces (sv_catalog (se_svc s))), s).

Record StreamInfo := mkStreamInfo { si_name : bytes; si_id : Z; si_first_seq : Z; si_durable_seq : Z; si_record_count : Z }.

Definition svc_list_streams (ns : bytes) (s : Server) : result ApiStatus (list StreamInfo) * Server :=
  (match list_streams ns (sv_catalog (se_svc s)) with
   | Ok l => Ok ((fun e => mkStreamInfo e.1 e.2 0 0 0) <$> l)
   | Err _ => Err NotFound
   end, s).

(** ** Metadata goes through unchanged *)

Lemma foldl_bt_insert_perm {V} (l acc : list (bytes * V)) :
  NoDup (l.*1 ++ acc.*1) -> foldl (fun b kv => bt_insert kv.1 kv.2 b) acc l ≡ₚ l ++ acc.
Proof.
  revert acc. induction l as [|[k v] l IH]; intros acc Hnd; [done|]. cbn [foldl fst snd]. cbn [fmap list_fmap fst app] in Hnd.
  apply NoDup_cons in Hnd as [Hk Hnd]. rewrite not_elem_of_app in Hk. pose proof (bt_insert_perm k v acc (proj2 Hk)) as Hp. etrans; [apply IH|].
  2: { etrans; [apply Permutation_app_head, Hp|]. symmetry. apply Permutation_middle. }
  - assert (l.*1 ++ (bt_insert k v acc).*1 ≡ₚ l.*1 ++ ((k, v) :: acc).*1) as -> by (by apply Permutation_app_head, fmap_Permutation).
    cbn [fmap list_fmap fst]. apply NoDup_app. apply NoDup_app in Hnd as (H1 & H2 & H3). split; [done|]. split.
    + intros x Hx [->|Hin]%elem_of_cons; [by apply (proj1 Hk)|by apply (H2 x Hx)].
    + constructor; [apply (proj2 Hk)|done].
Qed.

(** The metadata a record carries on the wire are those of its request. *)
Lemma to_hashmap_to_btree (m : gmap bytes bytes) : to_hashmap (to_btree m) = m.
Proof.
  apply insert_all_perm. unfold to_btree. etrans; [apply foldl_bt_insert_perm|by rewrite app_nil_r]. cbn [fmap list_fmap]. rewrite app_nil_r. apply NoDup_fst_map_to_list.
Qed.

(** ** What is in the log stays there *)

Section Grow.
Context {ext : Externals}.

Record svc_grows (v v' : Service) : Prop := {
  sg_written : ls_written (st_db (sv_storage v)) ⊆ ls_written (st_db (sv_storage v'));
  sg_namespaces : namespaces (sv_catalog v) ⊆ namespaces (sv_catalog v');
  sg_streams : streams (sv_catalog v) ⊆ streams (sv_catalog v');
}.

#[global] Instance svc_grows_preorder : PreOrder svc_grows.
Proof. split; [by split|]. intros a b c [H1 H2 H3] [H4 H5 H6]. split; by etrans. Qed.

Lemma append_written answer ns st et ct md ts content s :
  (forall gid, answer = Some gid -> fresh_gid s gid) ->
  ls_written (st_db s) ⊆ ls_written (st_db (append answer ns st et ct md ts content s).2).
Proof.
  intros Hf. unfold append, alloc_seq. destruct (encode_record _ _ _ _ _ _ _ _); [|done]. destruct answer as [gid|]; [|done].
  cbn. apply insert_subseteq. by apply (Hf gid).
Qed.

Lemma resolve_grows ns st v : service_ok v -> cat_room (sv_catalog v) -> svc_grows v (svc_resolve true ns st v).2.
Proof.
  intros Hok Hroom. unfold svc_resolve. pose proof (resolve_ok true ns st (sv_catalog v) (sv_catfile v) (proj1 (so_cat v Hok)) Hroom) as R.
  destruct (resolve true ns st (sv_catalog v) (sv_catfile v)) as [[r c] f]. destruct R as (_ & _ & R1 & R2 & _). by split.
Qed.

Lemma append_one_grows answer nid sid r v : answer_ok v answer -> svc_grows v (append_one answer nid sid r v).2.
Proof.
  intros Ha. unfold append_one.
  pose proof (append_written answer nid sid (ar_event_type r) (if bool_decide (ar_content_type r = []) then APPLICATION_JSON else ar_content_type r)
    (to_btree (ar_metadata r)) (ar_timestamp_ns r) (ar_content r) (sv_storage v) Ha) as H.
  destruct (append _ _ _ _ _ _ _ _ _) as [[[gid seq]|e] st]; by split.
Qed.

Lemma append_one_fresh answer nid sid r v g :
  fresh_gid (sv_storage v) g -> answer <> Some g -> fresh_gid (sv_storage (append_one answer nid sid r v).2) g.
Proof.
  intros Hf Hne. unfold append_one.
  pose proof (proj2 (append_frame answer nid sid (ar_event_type r) (if bool_decide (ar_content_type r = []) then APPLICATION_JSON else ar_content_type r)
    (to_btree (ar_metadata r)) (ar_timestamp_ns r) (ar_content r) (sv_storage v)) g Hf Hne) as H.
  by destruct (append _ _ _ _ _ _ _ _ _) as [[[gid seq]|e] st].
Qed.

Lemma answers_ok_head v answers : answers_ok v answers -> answer_ok v (default None (head answers)).
Proof. intros [_ Hf] g Hg. apply Hf. destruct answers as [|[x|] answers]; cbn in Hg; [done| |done]. injection Hg as ->. left. Qed.

Lemma answers_ok_tail nid sid r v answers :
  answers_ok v answers -> answers_ok (append_one (default None (head answers)) nid sid r v).2 (tail answers).
Proof.
  intros [Hnd Hf]. destruct answers as [|x answers]; [split; [constructor|intros g Hg; by apply elem_of_nil in Hg]|]. cbn [head tail default from_option Datatypes.id]. split.
  - destruct x; [csimpl in Hnd; by apply NoDup_cons in Hnd as [_ Hnd]|done].
  - intros g Hg. apply append_one_fresh; [apply Hf; by right|]. intros ->. csimpl in Hnd. apply NoDup_cons in Hnd as [Hx _]. apply Hx.
    apply list_elem_of_omap. by exists (Some g).
Qed.

Lemma append_all_grows answers nid sid rs v : answers_ok v answers -> svc_grows v (append_all answers nid sid rs v).2.
Proof.
  revert answers v. induction rs as [|r rs IH]; intros answers v Ha; cbn [append_all]; [done|].
  pose proof (append_one_grows _ nid sid r v (answers_ok_head v answers Ha)) as H1. pose proof (answers_ok_tail nid sid r v answers Ha) as Ha1.
  destruct (append_one _ nid sid r v) as [[a|e] v1]; cbn [snd] in *; [|done]. specialize (IH (tail answers) v1 Ha1).
  destruct (append_all (tail answers) nid sid rs v1) as [[l|e] v2]; cbn [snd] in *; by etrans.
Qed.

(** Every step of the server keeps the records of the log and the numbers of the names. *)
Lemma svc_step_grows v v' : svc_step v v' -> svc_inv v -> svc_grows v v'.
Proof.
  intros Hstep (Hok & _).
  destruct Hstep as [ctx answer r v Hr Ha Hseq Hroom|ctx answers rs v Hr Ha Hseq Hroom|ctx answer ns st v Ha Hseq Hroom|ctx ns st seq v Hroom
    |ctx ns st v Hroom|d v Hm|last hub v|v d n v' Hcl Hcov Hs].
  - unfold rpc_append. destruct (require_role ctx Writer); [|done]. destruct (sv_primary v); [|done]. cbn [negb].
    pose proof (resolve_grows (ar_namespace r) (ar_stream r) v Hok Hroom) as H1. pose proof (svc_resolve_ok (ar_namespace r) (ar_stream r) v Hok Hroom) as H2.
    destruct (svc_resolve true (ar_namespace r) (ar_stream r) v) as [[[nid sid]|e] v1]; [|done]. destruct H2 as (_ & Est & _). cbn [snd] in *.
    destruct (check_quota _ _ _ _ _ _); [|done]. cbn [negb]. etrans; [exact H1|]. apply append_one_grows. unfold answer_ok. by rewrite Est.
  - unfold rpc_batch_append. destruct (require_role ctx Writer); [|done]. destruct (sv_primary v); [|done]. cbn [negb].
    destruct rs as [|r rest]; [done|]. destruct (forallb _ rest); [|done]. cbn [negb].
    pose proof (resolve_grows (ar_namespace r) (ar_stream r) v Hok Hroom) as H1. pose proof (svc_resolve_ok (ar_namespace r) (ar_stream r) v Hok Hroom) as H2.
    destruct (svc_resolve true (ar_namespace r) (ar_stream r) v) as [[[nid sid]|e] v1]; [|done]. destruct H2 as (_ & Est & _). cbn [snd] in *.
    destruct (check_quota _ _ _ _ _ _); [|done]. cbn [negb]. etrans; [exact H1|]. apply append_all_grows. unfold answers_ok. by rewrite Est.
  - unfold rpc_delete_stream. destruct (require_role ctx Admin); [|done]. destruct (sv_primary v); [|done]. cbn [negb].
    pose proof (resolve_grows ns st v Hok Hroom) as H1. pose proof (svc_resolve_ok ns st v Hok Hroom) as H2.
    destruct (svc_resolve true ns st v) as [[[nid sid]|e] v1]; [|done]. destruct H2 as (_ & Est & _). cbn [snd] in *. etrans; [exact H1|].
    pose proof (append_written answer nid sid STREAM_DELETED_EVENT APPLICATION_JSON [] 0 [] (sv_storage v1) ltac:(rewrite Est; exact Ha)) as H.
    destruct (append _ _ _ _ _ _ _ _ _) as [[[gid seq]|e] st']; by split.
  - destruct (rpc_read_state ctx true ns st seq v) as [->| ->]; [done|by apply resolve_grows].
  - unfold rpc_create_stream. destruct (require_role ctx Admin); [by apply resolve_grows|done].
  - destruct Hm as [Hw _]. split; [cbn; by rewrite Hw|done|done].
  - by split.
  - destruct (restart_ok v d n v' Hok Hcl Hcov Hs) as (_ & Hdb & Hc & _). split; [rewrite Hdb, (cl_written _ _ _ Hcl)|rewrite Hc|rewrite Hc]; done.
Qed.

Lemma svc_steps_grow v v' : rtc svc_step v v' -> svc_inv v -> svc_grows v v' /\ svc_inv v'.
Proof.
  induction 1 as [|v1 v2 v3 H12 _ IH]; intros Hv; [done|]. destruct (IH (svc_step_inv _ _ H12 Hv)) as [H1 H2].
  split; [|done]. etrans; [by apply svc_step_grows|done].
Qed.

(** ** An answered append is in the log *)

Lemma append_answered answer ns st et ct md ts content s gid seq s' :
  args_ok ns st ts et ct md -> 1 <= default 1 (next_seqs s !! st) < 2 ^ 64 -> append answer ns st et ct md ts content s = (Ok (gid, seq), s') ->
  exists raw, ls_written (st_db s') !! gid = Some raw /\ decode_record raw = Ok (mkDecoded ns st seq et ct md ts content 0).
Proof.
  intros (Hns & Hst & Hts & [Uet Let] & [Uct Lct] & Hmo & Hmf) Hseq E. unfold append, alloc_seq in E.
  set (n := default 1 (next_seqs s !! st)) in *.
  destruct (encode_record _ _ _ _ _ _ _ _) as [raw|] eqn:Ee; [|done]. destruct answer as [g|]; [|done]. injection E as -> <- <-.
  exists raw. split; [cbn; by rewrite lookup_insert_eq|]. rewrite <- (app_nil_r raw). eapply decode_encode_record; try done. split; lia.
Qed.

End Grow.
