(* ===== verification/Client.v ===== *)
(** * The client library ([logdb-client/src/client.rs])

    [Client] builds the requests and takes the answers apart; it runs here against the
    handlers of the server.  [ScanStream] and [TailStream] read the messages of a call
    that streams, given as the list of what is still to come. *)
From stdpp Require Import base gmap list numbers sorting strings.
From coqutil Require Import Byte.
From Stdlib Require Import ZArith Lia.
From S2P Require Import Prelude Externals RustStd Shard ByteReader ServerRecord StreamStore Catalog Lifecycle Publisher ServiceRun ServerTail ServerOffsets KeyProvider ServerStart Query ServerApi.
Open Scope Z_scope.

(** ** The client *)

Record Client := mkClient {
  cl_url : bytes;
  cl_consumer_group : option bytes;
  cl_consumer_id : option bytes;
  cl_auth_token : option bytes;
}.

(** The address [connect] dials. *)
Definition client_url (addr : bytes) : bytes := if bool_decide (str "http" `prefix_of` addr) then addr else str "http://" ++ addr.

(** [Client::connect]; the answer of the transport is a parameter. *)
Definition client_connect (dial : bytes -> bool) (addr : bytes) : option Client :=
  if dial (client_url addr) then Some (mkClient (client_url addr) None None None) else None.

Definition set_consumer_group (group id : bytes) (c : Client) : Client := mkClient (cl_url c) (Some group) (Some id) (cl_auth_token c).

Definition set_auth_token (token : bytes) (c : Client) : Client := mkClient (cl_url c) (cl_consumer_group c) (cl_consumer_id c) (Some token).

Record ClientBuilder := mkBuilder {
  b_addr : option bytes;
  b_consumer_group : option bytes;
  b_consumer_id : option bytes;
  b_auth_token : option bytes;
}.

Definition builder_new : ClientBuilder := mkBuilder None None None None.
Definition builder_addr (addr : bytes) (b : ClientBuilder) : ClientBuilder := mkBuilder (Some addr) (b_consumer_group b) (b_consumer_id b) (b_auth_token b).
Definition builder_consumer_group (group id : bytes) (b : ClientBuilder) : ClientBuilder := mkBuilder (b_addr b) (Some group) (Some id) (b_auth_token b).
Definition builder_auth_token (token : bytes) (b : ClientBuilder) : ClientBuilder := mkBuilder (b_addr b) (b_consumer_group b) (b_consumer_id b) (Some token).

(** [ClientBuilder::connect]. *)
Definition builder_connect (dial : bytes -> bool) (b : ClientBuilder) : option Client :=
  client ← client_connect dial (default (str "127.0.0.1:50051") (b_addr b));
  let client := mkClient (cl_url client) (b_consumer_group b) (b_consumer_id b) (cl_auth_token client) in
  Some (match b_auth_token b with Some token => set_auth_token token client | None => client end).

(** The authorization header of the client's requests: every method hands the message
    itself to the stub, and no method reads [auth_token]. *)
Definition request_header (c : Client) : option bytes := None.

Section Calls.
Context {ext : Externals} (i : AnyInterceptor) (saved : bool) (c : Client).

Definition send {A} (h : list Role -> Server -> result ApiStatus A * Server) : Server -> result ApiStatus A * Server :=
  call i (request_header c) h.

(** The request of [append]: what it does not name has its default. *)
Definition append_request (ns st event_type content : bytes) : AppendRequest := mkAppendReq ns st event_type [] ∅ 0 content.

(** [append]. *)
Definition client_append (answer : option Z) (ns st event_type content : bytes) (s : Server) : result ApiStatus Z * Server :=
  let '(r, s) := send (fun roles => on_service (rpc_append (Some roles) saved answer (append_request ns st event_type content))) s in
  (match r with Ok (_, _, seq, _) => Ok seq | Err e => Err e end, s).

(** [append_full] and [append_batch]. *)
Definition client_append_full (answer : option Z) (ns st event_type content_type : bytes) (metadata : gmap bytes bytes) (timestamp_ns : Z) (content : bytes)
    : Server -> result ApiStatus AppendResponse * Server :=
  send (fun roles => on_service (rpc_append (Some roles) saved answer (mkAppendReq ns st event_type content_type metadata timestamp_ns content))).

Definition client_append_batch (answers : list (option Z)) (requests : list AppendRequest) : Server -> result ApiStatus (list AppendResponse) * Server :=
  send (fun roles => on_service (rpc_batch_append (Some roles) saved answers requests)).

(** [read]. *)
Definition client_read (ns st : bytes) (seq : Z) (s : Server) : result ApiStatus (option PbRecord) * Server :=
  let '(r, s) := send (fun roles => on_service (rpc_read (Some roles) saved ns st seq)) s in
  (match r with Ok rec => Ok (decoded_to_pb <$> rec) | Err e => Err e end, s).

(** [scan]: the messages to come, an error in the stream being the last. *)
Definition client_scan (ns st : bytes) (from limit : Z) (s : Server) : result ApiStatus (list (ScanResponse + ApiStatus)) * Server :=
  let '(r, s) := send (fun _ => svc_scan saved ns st from limit) s in
  (match r with Ok (Ok l) => Ok (inl <$> l) | Ok (Err e) => Ok [inr (Refused e)] | Err e => Err e end, s).

(** [ScanStream::next_batch]. *)
Definition scan_next_batch (inner : list (ScanResponse + ApiStatus)) : result ApiStatus (option ScanResponse) * list (ScanResponse + ApiStatus) :=
  match inner with
  | [] => (Ok None, [])
  | inl batch :: inner => (Ok (Some batch), inner)
  | inr e :: inner => (Err e, inner)
  end.

(** The loop of [scan_all]. *)
Fixpoint collect_batches (inner : list (ScanResponse + ApiStatus)) (all : list DecodedRecord) : result ApiStatus (list DecodedRecord) :=
  match inner with
  | [] => Ok all
  | inr e :: _ => Err e
  | inl batch :: inner => let all := all ++ sr_records batch in if negb (sr_has_more batch) then Ok all else collect_batches inner all
  end.

(** [scan_all]. *)
Definition client_scan_all (ns st : bytes) (from : Z) (s : Server) : result ApiStatus (list PbRecord) * Server :=
  let '(r, s) := client_scan ns st from 10000 s in
  (match r with
   | Ok inner => match collect_batches inner [] with Ok all => Ok (decoded_to_pb <$> all) | Err e => Err e end
   | Err e => Err e
   end, s).

(** [watermark], [list_namespaces], [list_streams], [status] and [verify_chain]. *)
Definition client_watermark (ns st : bytes) : Server -> result ApiStatus Watermark * Server := send (fun _ => svc_get_watermark ns st).
Definition client_list_namespaces : Server -> result ApiStatus (list (bytes * Z * Z)) * Server := send (fun _ => svc_list_namespaces).
Definition client_list_streams (ns : bytes) : Server -> result ApiStatus (list StreamInfo) * Server := send (fun _ => svc_list_streams ns).
Definition client_status : Server -> result ApiStatus StatusResponse * Server := send (fun _ => svc_status).
Definition client_verify_chain (ns st : bytes) (from to : Z) : Server -> result ApiStatus VerifyResponse * Server :=
  send (fun _ => svc_verify_chain saved ns st from to).

(** [query], and [subscribe] up to the server's task. *)
Definition client_query (ns st : bytes) (r : QueryRequest) : Server -> result ApiStatus QueryResponse * Server :=
  send (fun roles => svc_query roles saved ns st r).
Definition client_subscribe (ns st : bytes) (event_types : list bytes) (group id : bytes) : Server -> result ApiStatus SubscribeTask * Server :=
  send (fun roles => svc_subscribe roles saved ns st event_types group id).

(** [commit_offset] and [committed_offset]. *)
Definition client_commit_offset (ns st group id : bytes) (seq : Z) (s : Server) : result ApiStatus unit * Server :=
  let '(r, s) := send (fun _ => svc_commit_offset ns st group id seq) s in
  (match r with Ok _ => Ok tt | Err e => Err e end, s).

Definition client_committed_offset (ns st group id : bytes) : Server -> result ApiStatus Z * Server := send (fun _ => svc_get_committed_offset ns st group id).

(** [create_stream] and [delete_stream]. *)
Definition client_create_stream (ns st : bytes) : Server -> result ApiStatus (Z * Z) * Server :=
  send (fun roles => on_service (rpc_create_stream (Some roles) saved ns st)).
Definition client_delete_stream (answer : option Z) (ns st : bytes) : Server -> result ApiStatus Z * Server :=
  send (fun roles => on_service (rpc_delete_stream (Some roles) saved answer ns st)).

(** ** Tails *)

Record TailOptions := mkTailOpt {
  to_namespace : bytes;
  to_stream : bytes;
  to_from_seq : Z;
  to_batch_size : Z;
  to_consumer_group : option bytes;
  to_consumer_id : option bytes;
}.

(** [tail], and the setters of its options. *)
Definition client_tail (ns st : bytes) : TailOptions := mkTailOpt ns st 0 100 (cl_consumer_group c) (cl_consumer_id c).
Definition tail_from_seq (seq : Z) (o : TailOptions) : TailOptions :=
  mkTailOpt (to_namespace o) (to_stream o) seq (to_batch_size o) (to_consumer_group o) (to_consumer_id o).
Definition tail_batch_size (n : Z) (o : TailOptions) : TailOptions :=
  mkTailOpt (to_namespace o) (to_stream o) (to_from_seq o) n (to_consumer_group o) (to_consumer_id o).
Definition tail_consumer_group (group id : bytes) (o : TailOptions) : TailOptions :=
  mkTailOpt (to_namespace o) (to_stream o) (to_from_seq o) (to_batch_size o) (Some group) (Some id).

(** The request of [start]. *)
Definition tail_request (o : TailOptions) : TailRequest :=
  mkTailReq (to_namespace o) (to_stream o) (to_from_seq o) (to_batch_size o) (default [] (to_consumer_group o)) (default [] (to_consumer_id o)) [].

(** [start]: the task the server runs for the stream. *)
Definition tail_start (o : TailOptions) : Server -> result ApiStatus TailTask * Server := send (fun _ => svc_tail saved (tail_request o)).

End Calls.

(** What a [TailStream] still has: its buffer and the messages to come. *)
Record TailStream := mkTailStream { ts_inner : list (TailResponse + ApiStatus); ts_buffer : list DecodedRecord }.

(** The loop of [next]. *)
Fixpoint next_message (inner : list (TailResponse + ApiStatus)) : result ApiStatus (option DecodedRecord) * TailStream :=
  match inner with
  | [] => (Ok None, mkTailStream [] [])
  | inr e :: inner => (Err e, mkTailStream inner [])
  | inl resp :: inner =>
      if tr_heartbeat resp then next_message inner
      else match tr_records resp with
           | [] => next_message inner
           | r :: rest => (Ok (Some r), mkTailStream inner rest)
           end
  end.

(** [TailStream::next]. *)
Definition tail_next (t : TailStream) : result ApiStatus (option DecodedRecord) * TailStream :=
  match ts_buffer t with
  | r :: rest => (Ok (Some r), mkTailStream (ts_inner t) rest)
  | [] => next_message (ts_inner t)
  end.

(** The loop of [next_batch], which leaves the buffer alone. *)
Fixpoint next_batch_message (inner : list (TailResponse + ApiStatus)) : result ApiStatus (option (list DecodedRecord)) * list (TailResponse + ApiStatus) :=
  match inner with
  | [] => (Ok None, [])
  | inr e :: inner => (Err e, inner)
  | inl resp :: inner =>
      if tr_heartbeat resp then next_batch_message inner
      else match tr_records resp with
           | [] => next_batch_message inner
           | rs => (Ok (Some rs), inner)
           end
  end.

(** [TailStream::next_batch]. *)
Definition tail_next_batch (t : TailStream) : result ApiStatus (option (list DecodedRecord)) * TailStream :=
  let '(r, inner) := next_batch_message (ts_inner t) in (r, mkTailStream inner (ts_buffer t)).

(** ** What was written is read back *)

Section ReadBack.
Context {ext : Externals}.

Lemma append_one_answered answer nid sid r v nid' sid' seq gid v' :
  service_ok v -> ids_in (sv_catalog v) nid sid -> req_ok r -> seqs_below 1 v -> append_one answer nid sid r v = (Ok (nid', sid', seq, gid), v') ->
  exists raw, ls_written (st_db (sv_storage v')) !! gid = Some raw /\
    decode_record raw = Ok (mkDecoded nid sid seq (ar_event_type r) (if bool_decide (ar_content_type r = []) then APPLICATION_JSON else ar_content_type r)
      (to_btree (ar_metadata r)) (ar_timestamp_ns r) (ar_content r) 0).
Proof.
  intros Hok (Hnid & Hsid & _) Hreq Hseq E. unfold append_one in E.
  assert (1 <= default 1 (next_seqs (sv_storage v) !! sid) < 2 ^ 64) as Hb by (split; [apply (so_nexts v Hok)|specialize (Hseq sid); lia]).
  pose proof (req_args_ok nid sid r Hnid Hsid Hreq) as Hargs.
  destruct (append answer nid sid _ _ _ _ _ (sv_storage v)) as [[[g q]|e] st] eqn:Ea; [|done]. injection E as <- <- <- <- <-.
  by eapply append_answered.
Qed.

(** A record that an append answered for, by name. *)
Lemma rpc_append_answered ctx answer r v nid sid seq gid v' :
  svc_inv v -> user_req r -> seqs_below 1 v -> cat_room (sv_catalog v) -> rpc_append ctx true answer r v = (Ok (nid, sid, seq, gid), v') ->
  validate_namespace_name (ar_namespace r) = true /\ validate_stream_name (ar_stream r) = true /\
  lookup_ids (sv_catalog v') (ar_namespace r) (ar_stream r) = Some (nid, sid) /\
  exists raw, ls_written (st_db (sv_storage v')) !! gid = Some raw /\
    decode_record raw = Ok (mkDecoded nid sid seq (ar_event_type r) (if bool_decide (ar_content_type r = []) then APPLICATION_JSON else ar_content_type r)
      (to_btree (ar_metadata r)) (ar_timestamp_ns r) (ar_content r) 0).
Proof.
  intros (Hok & _) [Hr Hev] Hseq Hroom E. unfold rpc_append in E. destruct (require_role ctx Writer); [|done]. destruct (sv_primary v); [|done]. cbn [negb] in E.
  pose proof (svc_resolve_ok (ar_namespace r) (ar_stream r) v Hok Hroom) as H.
  pose proof (resolve_ok true (ar_namespace r) (ar_stream r) (sv_catalog v) (sv_catfile v) (proj1 (so_cat v Hok)) Hroom) as R.
  unfold svc_resolve in *. destruct (Catalog.resolve true (ar_namespace r) (ar_stream r) (sv_catalog v) (sv_catfile v)) as [[x c] f].
  destruct R as (_ & _ & _ & _ & [(-> & _)|(V & ([n i] & -> & _) & _)]); [done|]. apply andb_true_iff in V as [V1 V2].
  destruct H as (Hok1 & Est & _ & _ & _ & _ & Hids & Hl). destruct (check_quota _ _ _ _ _ _); [|done]. cbn [negb] in E.
  assert (sv_catalog v' = sv_catalog (with_catalog c f v) /\ n = nid /\ i = sid) as (Ec & -> & ->).
  { unfold append_one in E. destruct (append _ _ _ _ _ _ _ _ _) as [[[g q]|e] st]; [|done]. injection E as -> -> _ _ <-. done. }
  rewrite Ec. split_and!; try done. eapply append_one_answered; [exact Hok1|exact Hids|exact Hr| |exact E]. unfold seqs_below. by rewrite Est.
Qed.

(** The record an append stands for, as it is read. *)
Definition appended (nid sid seq : Z) (r : AppendRequest) : PbRecord :=
  mkPb nid sid seq (ar_event_type r) (ar_timestamp_ns r) (if bool_decide (ar_content_type r = []) then APPLICATION_JSON else ar_content_type r)
    (ar_metadata r) (ar_content r).

(** C14: What a client appended is what a client reads: after an append was answered, and
    whatever the server did since (further appends, deletions, log movements, restarts),
    a read of the same names and the number answered gives, once the record is durable
    and as long as the log's read finds it (its segment was not deleted and is found by
    the id, see [stale_base_hides_record]), a record with the event type, content type,
    metadata, time and content of the request, unless the stream was deleted in between.
    This is for a server that asks for no token, and for histories in which requests are
    handled one at a time, metadata keys are under 256 bytes ([long_key_is_unreadable]),
    types and metadata values under 65536, no request uses the reserved event type
    ([writer_can_delete_stream]), the catalog file could be written and no counter ran
    out, and a restart follows a clean stop and finds every id below the least committed
    count of a shard: always so with one shard ([one_shard_covers]), not with several
    ([idle_shard_hides_streams], [sharded_restart_undeletes]). *)
Theorem client_reads_what_it_wrote (i : AnyInterceptor) (c c' : Client) (answer : option Z) (ns st et ct content : bytes) (md : gmap bytes bytes) (ts : Z)
    (s0 : Service) (s s1 s2 : Server) (nid sid seq gid : Z) :
  let r := mkAppendReq ns st et ct md ts content in
  svc_initial s0 -> limits_ok s0 -> rtc svc_step s0 (se_svc s) ->
  user_req r -> answer_ok (se_svc s) answer -> seqs_below 1 (se_svc s) -> cat_room (sv_catalog (se_svc s)) ->
  call_interceptor i None = Some [Admin] ->
  client_append_full i true c answer ns st et ct md ts content s = (Ok (nid, sid, seq, gid), s1) ->
  rtc svc_step (se_svc s1) (se_svc s2) -> cat_room (sv_catalog (se_svc s2)) ->
  let l := log_records (st_db (sv_storage (se_svc s2))) in
  (durable_at (st_db (sv_storage (se_svc s2))) gid = true -> gid ∉ ls_hidden (st_db (sv_storage (se_svc s2))) gid ->
   (client_read i true c' ns st seq s2).1 = Ok (if tomb_max l sid <? seq then Some (appended nid sid seq r) else None)).
Proof.
  intros r Hi Hlim Hr Hreq Ha Hseq Hroom Hint E Hr2 Hroom2 l Hdur Hhid. pose proof (svc_reachable_inv s0 _ Hi Hlim Hr) as Hinv.
  unfold client_append_full, send, call, request_header in E. rewrite Hint in E. unfold on_service in E. fold r in E.
  destruct (rpc_append (Some [Admin]) true answer r (se_svc s)) as [[x|e] v1] eqn:Ea; [|done]. injection E as -> <-. cbn [with_svc se_svc] in Hr2.
  destruct (rpc_append_answered _ _ _ _ _ _ _ _ _ Hinv Hreq Hseq Hroom Ea) as (V1 & V2 & Hl & raw & Hw & Hd).
  assert (svc_inv v1) as Hinv1 by (pose proof (append_inv (Some [Admin]) answer r (se_svc s) Hinv Hreq Ha Hseq Hroom) as H; by rewrite Ea in H).
  destruct (svc_steps_grow _ _ Hr2 Hinv1) as [[G1 G2 G3] (Hok2 & _)].
  pose proof (lookup_ids_mono _ _ _ _ _ G2 G3 Hl) as Hl2. pose proof (lookup_weaken _ _ _ _ Hw G1) as Hw2.
  pose proof (rpc_read_spec (Some [Admin]) ns st seq (se_svc s2) nid sid Hok2 Hroom2 eq_refl V1 V2 Hl2) as Hread.
  pose proof (read_found (sv_storage (se_svc s2)) gid raw _ (so_store _ Hok2) Hw2 Hd Hdur Hhid) as Hfound. cbn [d_stream_id d_seq] in Hfound. rewrite Hfound in Hread.
  unfold client_read, send, call, request_header. rewrite Hint. unfold on_service.
  destruct (rpc_read (Some [Admin]) true ns st seq (se_svc s2)) as [x v2]. cbn [fst] in *. rewrite Hread. cbn [api d_seq with_shard]. fold l.
  destruct (tomb_max l sid <? seq); [|done]. cbn [fmap option_fmap option_map]. do 2 f_equal. unfold decoded_to_pb, appended.
  cbn [with_shard d_namespace_id d_stream_id d_seq d_event_type d_timestamp_ns d_content_type d_metadata d_user_content]. by rewrite to_hashmap_to_btree.
Qed.

(** The loop of [scan_all] takes all messages of a scan. *)
Lemma collect_batches_all (cs : list (list DecodedRecord)) (next : list DecodedRecord -> Z) k all :
  collect_batches (inl <$> imap (fun j x => mkScanResp x (next x) (bool_decide (k + j + 1 < k + length cs)%nat)) cs) all = Ok (all ++ concat cs).
Proof.
  revert k all. induction cs as [|x cs IH]; intros k all; [cbn; by rewrite app_nil_r|]. rewrite imap_cons. cbn [fmap list_fmap collect_batches sr_records sr_has_more concat length].
  destruct cs as [|y cs].
  - rewrite bool_decide_false by (cbn; lia). cbn. by rewrite app_nil_r.
  - rewrite bool_decide_true by (cbn; lia). cbn [negb].
    rewrite (imap_ext _ (fun j x => mkScanResp x (next x) (bool_decide (S k + j + 1 < S k + length (y :: cs))%nat))).
    + by rewrite IH, <- app_assoc.
    + intros j z _. cbn [compose]. f_equal. apply bool_decide_ext. cbn. lia.
Qed.

(** [scan_all] gives every live record of the stream from a number on that a scan of the
    log finds, in the order of the scan, however many messages they come in. *)
Theorem scan_all_gives_all (i : AnyInterceptor) (c : Client) (ns st : bytes) (from nid sid : Z) (s : Server) (all : list DecodedRecord) :
  service_ok (se_svc s) -> cat_room (sv_catalog (se_svc s)) -> call_interceptor i None = Some [Admin] ->
  validate_namespace_name ns = true -> validate_stream_name st = true -> lookup_ids (sv_catalog (se_svc s)) ns st = Some (nid, sid) ->
  scan 0 U64_MAX (sv_storage (se_svc s)) = Ok all ->
  (client_scan_all i true c ns st from s).1 =
  Ok (decoded_to_pb <$> filter (fun r => d_stream_id r = sid /\ from <= d_seq r /\ is_live (sv_cutoffs (se_svc s)) sid (d_seq r) = true) all).
Proof.
  intros Hok Hroom Hint V1 V2 Hl Hs. unfold client_scan_all, client_scan, send, call, request_header. rewrite Hint. unfold svc_scan, on_service, by_name, svc_resolve.
  pose proof (resolve_ok true ns st (sv_catalog (se_svc s)) (sv_catfile (se_svc s)) (proj1 (so_cat _ Hok)) Hroom) as R.
  destruct (Catalog.resolve true ns st _ _) as [[x cat] f]. destruct R as (_ & _ & R1 & R2 & R). rewrite V1, V2 in R.
  destruct R as [(_ & _ & _ & ?)|(_ & (ids & -> & Hids) & _)]; [done|]. rewrite (lookup_ids_mono _ _ _ _ _ R1 R2 Hl) in Hids. injection Hids as <-.
  cbn [with_catalog sv_storage sv_cutoffs fst api]. unfold rpc_scan. rewrite Hs. cbn [mbind result_bind internal].
  set (l := filter _ all). pose proof (collect_batches_all (chunks (Z.to_nat 10000) l) (fun x => match rev x with [] => 0 | r :: _ => d_seq r end + 1) 0 []) as H.
  cbn [app] in H. rewrite chunks_concat in H by lia. cbn [Z.eqb fst].
  match goal with |- context [collect_batches ?ms []] => replace (collect_batches ms []) with (Ok (A := list DecodedRecord) (E := ApiStatus) l) by (symmetry; exact H) end. done.
Qed.

End ReadBack.

(** ** A server with a stream that grows *)

#[local] Instance client_externals : Externals := toy.

(** The server after its next append, with the first [n] ids durable. *)
Definition demo_grow (gid n : Z) (v : Service) : Service :=
  demo_durable_log [n] (rpc_append None true (Some gid) (demo_req (demo_text 3) ∅) v).2.

Definition demo_v1 : Service := demo_grow 1 2 (demo_grow 0 1 (demo_new [])).
Definition demo_v2 : Service := demo_grow 2 3 demo_v1.

Lemma demo_grow_steps gid n v seq :
  fresh_gid (sv_storage v) gid -> next_seqs (sv_storage v) = (if seq =? 1 then ∅ else {[1 := seq]}) -> seq + 1 <= 2 ^ 64 -> cat_room (sv_catalog v) ->
  rtc svc_step v (demo_grow gid n v).
Proof.
  intros Hf Hs Hlt Hroom. eapply rtc_l; [apply (svc_append None (Some gid) (demo_req (demo_text 3) ∅)); [| |intros st|done]|apply rtc_once, svc_log; by split].
  - split; [|done]. split; [by split; vm_compute|by split; vm_compute|by split|apply map_Forall_empty].
  - by intros g [= <-].
  - rewrite Hs. destruct (Z.eqb_spec seq 1); [by rewrite lookup_empty|].
    destruct (decide (1 = st)) as [<-|Hne]; [by rewrite lookup_singleton_eq|by rewrite lookup_singleton_ne].
Qed.

Lemma demo_v1_steps : rtc svc_step (demo_new []) demo_v1.
Proof.
  etrans; [apply (demo_grow_steps 0 1 (demo_new []) 1)|apply (demo_grow_steps 1 2 _ 2)]; by vm_compute.
Qed.

Lemma demo_v12_steps : rtc svc_step demo_v1 demo_v2.
Proof. apply (demo_grow_steps 2 3 _ 3); by vm_compute. Qed.

Lemma demo_v2_steps : rtc svc_step (demo_new []) demo_v2.
Proof. etrans; [apply demo_v1_steps|apply demo_v12_steps]. Qed.

Lemma demo_inv v : rtc svc_step (demo_new []) v -> svc_inv v.
Proof.
  apply (svc_reachable_inv (demo_new []) v); [by exists 1, [], true|]. intros q Hq. by apply elem_of_nil in Hq.
Qed.

Definition demo_client : Client := mkClient (str "http://localhost") (Some (demo_text 1)) (Some (demo_text 2)) None.
Definition demo_server (v : Service) : Server := mkServer v (tracker_new true None) [] [].

(** The client's append to the server at [demo_v1]. *)
Definition demo_append : result ApiStatus AppendResponse * Server :=
  client_append_full NoAuth true demo_client (Some 2) demo_ns demo_st (demo_text 3) [] {[demo_text 4 := demo_text 5]} 9 (demo_text 2) (demo_server demo_v1).

Definition demo_after : Server := with_svc (demo_durable_log [3] (se_svc demo_append.2)) demo_append.2.

Lemma client_reads_what_it_wrote_witness :
  (client_read NoAuth true demo_client demo_ns demo_st 3 demo_after).1 =
    Ok (Some (mkPb 1 1 3 (demo_text 3) 9 APPLICATION_JSON {[demo_text 4 := demo_text 5]} (demo_text 2))).
Proof.
  rewrite (client_reads_what_it_wrote NoAuth demo_client demo_client (Some 2) demo_ns demo_st (demo_text 3) [] (demo_text 2) {[demo_text 4 := demo_text 5]} 9
    (demo_new []) (demo_server demo_v1) demo_append.2 demo_after 1 1 3 2).
  - by vm_compute.
  - by exists 1, [], true.
  - intros q Hq. by apply elem_of_nil in Hq.
  - exact demo_v1_steps.
  - split; [|done]. split; [by split; vm_compute|by split; vm_compute|by split|]. apply map_Forall_singleton. by vm_compute.
  - intros g [= <-]. by split; vm_compute.
  - assert (next_seqs (sv_storage demo_v1) = {[1 := 3]}) as En by (by vm_compute). intros x. cbn [se_svc demo_server]. rewrite En.
    destruct (decide (1 = x)) as [<-|Hne]; [by rewrite lookup_singleton_eq|by rewrite lookup_singleton_ne].
  - by split; vm_compute.
  - done.
  - change (demo_append = (Ok (1, 1, 3, 2), demo_append.2)). rewrite (surjective_pairing demo_append) at 1. apply (f_equal (fun x => (x, demo_append.2))). by vm_compute.
  - unfold demo_after. generalize demo_append.2. intros s. apply rtc_once, svc_log. by split.
  - by split; vm_compute.
  - by vm_compute.
  - by vm_compute.
Defined.

(** ** Where the client falls short *)

(** The token given to the client is sent with no call: a server that asks for tokens
    refuses all of them. *)
Theorem client_token_is_not_sent (dial : bytes -> bool) (b : ClientBuilder) (token : bytes) (entries : list (bytes * list Role)) (c : Client)
    {A} (h : list Role -> Server -> result ApiStatus A * Server) (s : Server) :
  builder_connect dial (builder_auth_token token b) = Some c ->
  cl_auth_token c = Some token /\ send (Auth (auth_new entries)) c h s = (Err Unauthenticated, s).
Proof.
  unfold builder_connect. destruct (client_connect _ _); [|done]. intros [= <-]. split; [done|]. unfold send, call, request_header, call_interceptor, intercept, auth_new.
  destruct (insert_all _ ∅ !! default [] None) as [roles|] eqn:E; [|done]. apply insert_all_inv in E as [E|E]; [|by rewrite lookup_empty in E].
  apply list_elem_of_fmap in E as (e & Ee & _). done.
Qed.

(** [next_batch] passes over the buffer of [next]: when both are used on a stream, later
    records come before earlier ones. *)
Theorem mixed_calls_reorder :
  let r seq := mkDecoded 1 1 seq [] [] [] 0 [] 0 in
  let t := mkTailStream [inl (mkTail [r 1; r 2] 5 false); inl (mkTail [r 3] 5 false)] [] in
  let '(a, t) := tail_next t in
  let '(b, t) := tail_next_batch t in
  let '(d, t) := tail_next t in
  a = Ok (Some (r 1)) /\ b = Ok (Some [r 3]) /\ d = Ok (Some (r 2)).
Proof. by vm_compute. Qed.

(** A stream with records is listed as having none, and the status says that there is no
    checkpoint and no byte in use. *)
Theorem listing_shows_no_records :
  (client_list_streams NoAuth demo_client demo_ns (demo_server demo_v1)).1 = Ok [mkStreamInfo demo_st 1 0 0 0] /\ live_count demo_v1 1 1 = 2.
Proof. by vm_compute. Qed.
