(* ===== verification/TailSession.v ===== *)
(** * Reading a stream in sessions ([logdb-client/src/client.rs] over [logdbd/src/service.rs])

    A consumer opens a tail in its group, takes records with [TailStream::next], commits
    the number of one of them and goes away; the next session goes on behind the commit.
    What the server sends is the run of [run_tail_loop] at the storage of the session. *)
From stdpp Require Import base gmap list numbers sorting strings.
From coqutil Require Import Byte.
From Stdlib Require Import ZArith Lia.
From S2P Require Import Prelude Externals RustStd Shard ByteReader ServerRecord StreamStore Catalog Lifecycle Publisher ServiceRun ServerTail ServerOffsets KeyProvider ServerStart Query ServerApi Client.
Open Scope Z_scope.

(** ** The messages of a tail *)

(** The messages [run_tail_loop] sends until it waits with nothing scanned; [beat] says
    in which turns a heartbeat is due. *)
Fixpoint tail_messages (fuel : nat) (beat : nat -> bool) (s : Storage) (tombstones : Cutoffs) (stream_id last_seq : Z) (shard_ids : gset Z) (batch_size : nat)
    : list TailResponse :=
  match fuel with
  | O => []
  | S fuel =>
      match tail_turn (beat fuel) s tombstones stream_id last_seq shard_ids batch_size with
      | TFailed => []
      | TSent resp next => resp :: tail_messages fuel beat s tombstones stream_id next shard_ids batch_size
      | TIdle hb next =>
          match hb with Some m => [m] | None => [] end ++
          (if next =? last_seq then [] else tail_messages fuel beat s tombstones stream_id next shard_ids batch_size)
      end
  end.

(** The records a [TailStream] takes from its messages. *)
Definition carried (ms : list TailResponse) : list DecodedRecord := concat ((fun m => if tr_heartbeat m then [] else tr_records m) <$> ms).

Lemma idle_heartbeat hb s tombs sid p shards batch m next :
  tail_turn hb s tombs sid p shards batch = TIdle (Some m) next -> tr_heartbeat m = true.
Proof.
  unfold tail_turn. destruct (scan_stream_filtered _ _ _ _ _); [|done]. destruct (take _ _); [|done]. destruct hb; [|done]. by intros [= <- _].
Qed.

Lemma sent_no_heartbeat hb s tombs sid p shards batch m next :
  tail_turn hb s tombs sid p shards batch = TSent m next -> tr_heartbeat m = false.
Proof. unfold tail_turn. destruct (scan_stream_filtered _ _ _ _ _); [|done]. destruct (take _ _); [done|]. by intros [= <- _]. Qed.

(** However the heartbeats fall, the messages carry what is due. *)
Lemma tail_messages_due beat s tombs sid shards batch fuel :
  store_ok s -> in_order s sid shards -> (0 < batch)%nat -> forall p, 0 <= p -> (length (recs s sid shards p) < fuel)%nat ->
  carried (tail_messages fuel beat s tombs sid p shards batch) = due s sid shards tombs p.
Proof.
  intros Hok Ho Hb. induction fuel as [|fuel IH]; intros p Hp Hf; [lia|]. cbn [tail_messages].
  pose proof (tail_turn_spec s sid shards Hok Ho (beat fuel) tombs p batch Hp Hb) as H.
  assert (forall next, p < next -> (exists r, r ∈ recs s sid shards p /\ d_seq r = next - 1) ->
    carried (tail_messages fuel beat s tombs sid next shards batch) = due s sid shards tombs next) as Hstep.
  { intros next Hn (r & Hr & Hs). apply IH; [lia|].
    pose proof (recs_shrink s sid shards Hok p next ltac:(lia) ltac:(exists r; split; [done|lia])). lia. }
  destruct (tail_turn (beat fuel) s tombs sid p shards batch) as [resp next|hb next|] eqn:Et; [| |done].
  - destruct H as (Hd & Hn & Hr). unfold carried in *. cbn [fmap list_fmap concat]. rewrite (Hstep next Hn Hr), (sent_no_heartbeat _ _ _ _ _ _ _ _ _ Et). done.
  - assert (forall l, carried (match hb with Some m => [m] | None => [] end ++ l) = carried l) as Hcar.
    { intros l. destruct hb as [m|]; [|done]. unfold carried. cbn. by rewrite (idle_heartbeat _ _ _ _ _ _ _ _ _ Et). }
    rewrite Hcar. destruct H as [[-> He]|(Hd & Hn & Hr)].
    + rewrite Z.eqb_refl. unfold due. fold (recs s sid shards p). by rewrite He.
    + rewrite (proj2 (Z.eqb_neq _ _)) by lia. by rewrite (Hstep next Hn Hr).
Qed.

(** ** Taking records one by one *)

(** Calls [next] up to [n] times. *)
Fixpoint take_next (n : nat) (t : TailStream) : list DecodedRecord :=
  match n with
  | O => []
  | S n => match tail_next t with (Ok (Some r), t) => r :: take_next n t | _ => [] end
  end.

Lemma next_message_spec ms :
  match carried ms with
  | [] => next_message (inl <$> ms) = (Ok None, mkTailStream [] [])
  | r :: rest => exists ms' buf, next_message (inl <$> ms) = (Ok (Some r), mkTailStream (inl <$> ms') buf) /\ rest = buf ++ carried ms'
  end.
Proof.
  induction ms as [|m ms IH]; [done|]. unfold carried in *. cbn [fmap list_fmap concat next_message]. destruct (tr_heartbeat m); [exact IH|].
  destruct (tr_records m) as [|r rest]; [exact IH|]. cbn [app]. by exists ms, rest.
Qed.

Lemma take_next_spec n ms buf : take_next n (mkTailStream (inl <$> ms) buf) = take n (buf ++ carried ms).
Proof.
  revert ms buf. induction n as [|n IH]; intros ms buf; [done|]. cbn [take_next]. unfold tail_next. cbn [ts_buffer ts_inner].
  destruct buf as [|r buf]; [|by rewrite IH]. cbn [app]. pose proof (next_message_spec ms) as H. destruct (carried ms) as [|r rest]; [by rewrite H|].
  destruct H as (ms' & buf & -> & ->). by rewrite IH.
Qed.

(** ** Sessions *)

Section Sessions.
Context {ext : Externals} (i : AnyInterceptor) (c : Client) (ns st : bytes) (beat : nat -> bool).

(** One session: the stream is opened, [n] records are taken from it, and the number of
    the [m]th is committed. *)
Definition session (n m : nat) (s : Server) : result ApiStatus (list DecodedRecord) * Server :=
  match tail_start i true c (client_tail c ns st) s with
  | (Err e, s) => (Err e, s)
  | (Ok task, s) =>
      let v := se_svc s in
      let fuel := S (length (recs (sv_storage v) (tt_stream_id task) (tt_shard_ids task) (tt_from_seq task))) in
      let ms := tail_messages fuel beat (sv_storage v) (sv_cutoffs v) (tt_stream_id task) (tt_from_seq task) (tt_shard_ids task) (tt_batch_size task) in
      let rs := take_next n (mkTailStream (inl <$> ms) []) in
      match last (take m rs) with
      | None => (Ok rs, s)
      | Some r => match client_commit_offset i c ns st (default [] (cl_consumer_group c)) (default [] (cl_consumer_id c)) (d_seq r) s with
                  | (Ok _, s) => (Ok rs, s)
                  | (Err e, s) => (Err e, s)
                  end
      end
  end.

(** Sessions one after the other, each at a server state of its own; only the tracker is
    carried over.  The records taken up to the commit, and whether all calls succeeded. *)
Fixpoint sessions (l : list (Service * nat * nat)) (t : ConsumerTracker) : result ApiStatus (list DecodedRecord) :=
  match l with
  | [] => Ok []
  | (v, n, m) :: l =>
      match session n m (mkServer v t [] []) with
      | (Err e, _) => Err e
      | (Ok rs, s) => rest ← sessions l (se_tracker s); Ok (take m rs ++ rest)
      end
  end.

(** ** What the sessions of a group see *)

Context (nid sid : Z) (tombs : Cutoffs).

(** A state of the server at which the stream can be read: the names stand for it, and
    its records become durable in the order of their numbers. *)
Record view_ok (v : Service) : Prop := {
  vo_inv : svc_inv v;
  vo_room : cat_room (sv_catalog v);
  vo_ids : lookup_ids (sv_catalog v) ns st = Some (nid, sid);
  vo_order : in_order (sv_storage v) sid ∅;
  vo_tombs : sv_cutoffs v = tombs;
}.

(** The records of the stream at a state. *)
Definition shown (v : Service) : list DecodedRecord := due (sv_storage v) sid ∅ tombs 0.

(** The stream has grown: entries were added behind those there were, and what could be
    read still can. *)
Definition stream_grows (v v' : Service) : Prop :=
  (exists new, entries_from (sv_storage v') sid ∅ 0 = entries_from (sv_storage v) sid ∅ 0 ++ new) /\
  (forall a r, record_of (sv_storage v) a = Some r -> record_of (sv_storage v') a = Some r).

Lemma shown_grows v v' : view_ok v -> stream_grows v v' -> shown v `prefix_of` shown v'.
Proof.
  intros [(Hok & _) _ _ Ho _] [(new & He) Hr]. destruct (entries_split (sv_storage v) sid ∅ Ho 0 ltac:(done)) as (rd & un & E & Hrd & Hun).
  assert (recs (sv_storage v) sid ∅ 0 = omap (record_of (sv_storage v)) rd) as E1.
  { unfold recs. rewrite E, omap_app, (omap_unreadable (sv_storage v) sid ∅ (so_store v Hok) 0 un); [by rewrite app_nil_r| |done].
    intros a Ha. rewrite E. apply elem_of_app. by right. }
  assert (omap (record_of (sv_storage v')) rd = omap (record_of (sv_storage v)) rd) as E2.
  { assert (forall a, a ∈ rd -> a ∈ entries_from (sv_storage v) sid ∅ 0) as Hin by (intros a Ha; rewrite E; apply elem_of_app; by left).
    clear E E1 Hun. induction Hrd as [|a rd Ha _ IH]; [done|]. csimpl.
    destruct (proj1 (record_of_entry (sv_storage v) sid ∅ (so_store v Hok) 0 a (Hin a ltac:(left))) Ha) as (r & E & _). rewrite E, (Hr a r E), IH; [done|].
    intros x Hx. apply Hin. by right. }
  unfold shown, due. fold (recs (sv_storage v) sid ∅ 0). rewrite He, E, !omap_app, E2, <- E1, !filter_app, <- app_assoc. by eexists.
Qed.

(** What is due behind the last record of a first part is the rest. *)
Lemma due_behind v a r b :
  view_ok v -> shown v = a ++ [r] ++ b -> due (sv_storage v) sid ∅ tombs (d_seq r + 1) = b.
Proof.
  intros [(Hok & _) _ _ _ _] E. unfold shown, due in *. fold (recs (sv_storage v) sid ∅ 0) in E. fold (recs (sv_storage v) sid ∅ (d_seq r + 1)).
  assert (StronglySorted (fun a b => d_seq a < d_seq b) (filter (fun r => is_live tombs sid (d_seq r) = true) (recs (sv_storage v) sid ∅ 0))) as Hs
    by (apply sorted_filter, recs_sorted, (so_store v Hok)).
  assert (0 <= d_seq r + 1) as H0.
  { assert (r ∈ filter (fun r => is_live tombs sid (d_seq r) = true) (recs (sv_storage v) sid ∅ 0)) as (_ & Hin)%list_elem_of_filter by (rewrite E; set_solver).
    apply recs_elem in Hin as (e & He & Hr). destruct (recs_seq (sv_storage v) sid ∅ (so_store v Hok) 0 e r He Hr) as (-> & ? & _). lia. }
  rewrite (recs_later (sv_storage v) sid ∅ (so_store v Hok) 0 _ H0), list_filter_filter.
  rewrite (filter_ext_elem _ (fun x => d_seq r + 1 <= d_seq x /\ is_live tombs sid (d_seq x) = true)) by (intros; tauto).
  rewrite <- list_filter_filter. apply (sorted_split_filter _ (a ++ [r]) b _ Hs); [by rewrite <- app_assoc| |].
  - intros x [Hx| ->%list_elem_of_singleton]%elem_of_app; [|lia]. rewrite E in Hs. apply StronglySorted_app in Hs as (Hs & _ & _).
    specialize (Hs x r Hx ltac:(left)). cbn in Hs. lia.
  - exists r. split; [|lia]. apply elem_of_app. right. left.
Qed.

Lemma shown_numbers v r : view_ok v -> r ∈ shown v -> 1 <= d_seq r.
Proof.
  intros [(Hok & _) _ _ _ _]. unfold shown, due. fold (recs (sv_storage v) sid ∅ 0). intros (_ & (a & _ & Ha)%recs_elem)%list_elem_of_filter.
  unfold record_of in Ha. destruct (log_read (st_db (sv_storage v)) a.2) as [raw|] eqn:El; [|done]. cbn [mbind option_bind] in Ha.
  destruct (decode_record raw) as [r0|] eqn:Ed; [|done]. cbn in Ha. injection Ha as <-. cbn [d_seq].
  apply (so_ns v Hok r0). apply log_records_elem. exists a.2. apply rec_in_log. exists raw. split; [|done].
  unfold log_read in El. by destruct (_ && _).
Qed.

Context (Hint : call_interceptor i None = Some [Admin]).
Context (Hns : validate_namespace_name ns = true) (Hst : validate_stream_name st = true).
Context (group id : bytes) (Hgroup : cl_consumer_group c = Some group) (Hid : cl_consumer_id c = Some id) (Hgne : group <> []) (Hine : id <> []).

Lemma session_spec v t n m :
  view_ok v -> 0 <= get (ns, st, group, id) t ->
  let committed := get (ns, st, group, id) t in
  let rs := take n (due (sv_storage v) sid ∅ tombs (if 0 <? committed then committed + 1 else 0)) in
  exists s', session n m (mkServer v t [] []) = (Ok rs, s') /\
    get (ns, st, group, id) (se_tracker s') = match last (take m rs) with Some r => d_seq r | None => committed end.
Proof.
  intros [(Hok & _) Hroom Hl Ho Ht] H0 committed rs. unfold session, tail_start, send, call, request_header. rewrite Hint.
  unfold svc_tail, on_service, by_name, tail_request, client_tail. cbn [to_namespace to_stream to_from_seq to_batch_size to_consumer_group to_consumer_id
    tq_namespace tq_stream tq_from_seq tq_batch_size tq_consumer_group tq_consumer_id tq_shard_ids se_svc se_tracker list_to_set]. rewrite Hgroup, Hid. cbn [from_option Datatypes.id].
  unfold svc_resolve. pose proof (resolve_ok true ns st (sv_catalog v) (sv_catfile v) (proj1 (so_cat v Hok)) Hroom) as R.
  destruct (Catalog.resolve true ns st (sv_catalog v) (sv_catfile v)) as [[x cat] f]. destruct R as (_ & _ & R1 & R2 & R). rewrite Hns, Hst in R.
  destruct R as [(_ & _ & _ & ?)|(_ & (ids & -> & Hids) & _)]; [done|]. rewrite (lookup_ids_mono _ _ _ _ _ R1 R2 Hl) in Hids. injection Hids as <-.
  cbn [api with_svc se_svc with_catalog sv_storage sv_cutoffs tt_stream_id tt_from_seq tt_shard_ids tt_batch_size se_tracker].
  fold committed. rewrite Ht. assert (tail_from 0 group id committed = if 0 <? committed then committed + 1 else 0) as ->.
  { unfold tail_from. by rewrite !bool_decide_false by done. }
  set (p := if 0 <? committed then committed + 1 else 0) in *. assert (0 <= p) as Hp by (unfold p; destruct (0 <? committed); lia).
  rewrite take_next_spec, tail_messages_due; [|apply (so_store v Hok)|exact Ho|cbn; lia|done|lia]. cbn [app]. fold rs.
  destruct (last (take m rs)) as [r|] eqn:El; [|by eexists]. unfold client_commit_offset, send, call, request_header. rewrite Hint.
  unfold svc_commit_offset. cbn [se_tracker with_tracker with_svc]. eexists. split; [done|]. unfold get, commit. cbn [se_tracker with_tracker ct_offsets]. by rewrite lookup_insert_eq.
Qed.

(** The position behind what was taken and committed so far. *)
Definition position_ok (got : list DecodedRecord) (t : ConsumerTracker) : Prop :=
  get (ns, st, group, id) t = match last got with Some r => d_seq r | None => 0 end.

(** One session goes on where the commits before it stopped. *)
Lemma session_goes_on v t n m got :
  view_ok v -> position_ok got t -> got `prefix_of` shown v ->
  exists rs s', session n m (mkServer v t [] []) = (Ok rs, s') /\ position_ok (got ++ take m rs) (se_tracker s') /\
    got ++ rs = take (length got + n) (shown v).
Proof.
  intros Hv Hpos (rest & E). assert (0 <= get (ns, st, group, id) t) as H0.
  { rewrite Hpos. destruct (last got) as [r|] eqn:El; [|done]. apply last_Some in El as (l & ->). pose proof (shown_numbers v r Hv). 
    rewrite E in H. specialize (H ltac:(set_solver)). lia. }
  destruct (session_spec v t n m Hv H0) as (s' & Es & Hget).
  assert (due (sv_storage v) sid ∅ tombs (if 0 <? get (ns, st, group, id) t then get (ns, st, group, id) t + 1 else 0) = rest) as Hrest.
  { rewrite !Hpos. destruct (last got) as [r|] eqn:El.
    - apply last_Some in El as (l & ->). rewrite <- app_assoc in E. pose proof (shown_numbers v r Hv) as H. rewrite E in H. specialize (H ltac:(set_solver)).
      rewrite (proj2 (Z.ltb_lt _ _)) by lia. by apply (due_behind v l).
    - apply last_None in El as ->. exact E. }
  rewrite Hrest in Es, Hget. exists (take n rest), s'. split; [done|]. split.
  - unfold position_ok. rewrite Hget, last_app. destruct (last (take m (take n rest))); [done|]. by rewrite Hpos.
  - by rewrite E, take_app_add.
Qed.

(** States of the server in which the stream grows. *)
Definition growing (l : list Service) : Prop := Forall view_ok l /\ forall k v v', l !! k = Some v -> l !! S k = Some v' -> stream_grows v v'.

Lemma growing_tail v l : growing (v :: l) -> view_ok v /\ growing l.
Proof. intros [[Hv Hl]%Forall_cons Hg]. split; [done|]. split; [done|]. intros k. apply (Hg (S k)). Qed.

Lemma growing_next v v' l : growing (v :: v' :: l) -> shown v `prefix_of` shown v'.
Proof. intros [[Hv _]%Forall_cons Hg]. apply shown_grows; [done|]. by apply (Hg 0%nat). Qed.

Lemma sessions_go_on l v n m t got :
  growing (v :: l.*1.*1) -> position_ok got t -> got `prefix_of` shown v ->
  exists rs, sessions ((v, n, m) :: l) t = Ok rs /\
    let '(w, nw, mw) := List.last l (v, n, m) in
    got ++ rs `prefix_of` shown w /\ ((length (shown w) <= nw)%nat -> (length (shown w) <= mw)%nat -> got ++ rs = shown w).
Proof.
  revert v n m t got. induction l as [|[[v' n'] m'] l IH]; intros v n m t got Hg Hpos Hpre; destruct (growing_tail _ _ Hg) as [Hv Hg'].
  all: destruct (session_goes_on v t n m got Hv Hpos Hpre) as (rs & s' & Es & Hpos' & Hrs).
  all: assert (got ++ take m rs `prefix_of` shown v) as Hpre'
    by (etrans; [apply prefix_app, prefix_take|]; rewrite Hrs; apply prefix_take).
  - exists (take m rs). cbn [sessions List.last]. rewrite Es. cbn [mbind result_bind]. rewrite app_nil_r. split; [done|]. split; [done|]. intros Hn Hm.
    rewrite take_ge in Hrs by lia. rewrite take_ge; [done|]. rewrite <- Hrs, length_app in Hm. lia.
  - destruct (IH v' n' m' (se_tracker s') (got ++ take m rs) Hg' Hpos') as (rest & Er & Hpr).
    { etrans; [exact Hpre'|]. by apply (growing_next v v' (l.*1.*1)). }
    exists (take m rs ++ rest). split; [|rewrite last_cons_default, app_assoc; exact Hpr].
    change (sessions ((v, n, m) :: (v', n', m') :: l) t) with
      (match session n m (mkServer v t [] []) with (Err e, _) => Err e | (Ok rs, s) => rest ← sessions ((v', n', m') :: l) (se_tracker s); Ok (take m rs ++ rest) end).
    by rewrite Es, Er.
Qed.

End Sessions.

(** ** Theorems *)

(** C27: A consumer of a group that reads a stream in sessions, each opening a tail without
    a position, taking some records with [next] and committing the number of one of them,
    sees, up to its commits, each record of the stream once and in order: what was taken
    up to the commit of each session, put together, is a first part of the stream as the
    last session finds it, whatever number of records each session takes or repeats,
    however batches and heartbeats fall, and while the stream grows between the sessions.
    A last session that takes and commits as much as there is completes it.  This is for
    a server without authentication that has gone through the histories of [svc_step]
    (metadata keys of less than 256 bytes, so that all records decode, restarts that
    cover the log, no counter run out), a consumer with a group and a name, and a stream
    whose records become durable in the order of their numbers, none of which is gone
    (deleted with its segment, or behind a stale base) and which is not deleted
    meanwhile. *)
Theorem sessions_deliver_in_order {ext : Externals} (i : AnyInterceptor) (c : Client) (ns st group id : bytes) (beat : nat -> bool) (nid sid : Z) (tombs : Cutoffs)
    (l : list (Service * nat * nat)) (v : Service) (n m : nat) (t : ConsumerTracker) :
  call_interceptor i None = Some [Admin] -> validate_namespace_name ns = true -> validate_stream_name st = true ->
  cl_consumer_group c = Some group -> cl_consumer_id c = Some id -> group <> [] -> id <> [] ->
  growing ns st nid sid tombs (v :: l.*1.*1) -> get (ns, st, group, id) t = 0 ->
  exists rs, sessions i c ns st beat ((v, n, m) :: l) t = Ok rs /\
    let '(w, nw, mw) := List.last l (v, n, m) in
    rs `prefix_of` shown sid tombs w /\ ((length (shown sid tombs w) <= nw)%nat -> (length (shown sid tombs w) <= mw)%nat -> rs = shown sid tombs w).
Proof.
  intros Hint Hns Hst Hgr Hid Hg0 Hi0 Hg Ht.
  apply (sessions_go_on i c ns st beat nid sid tombs Hint Hns Hst group id Hgr Hid Hg0 Hi0 l v n m t []); [done|done|apply prefix_nil].
Qed.

(** ** Witness *)

#[local] Existing Instance client_externals.

Lemma demo_in_order v : Forall (fun a => is_Some (log_read (st_db (sv_storage v)) a.2)) (entries_from (sv_storage v) 1 ∅ 0) -> in_order (sv_storage v) 1 ∅.
Proof. intros Hf a b Ha _ _ _. rewrite Forall_forall in Hf. by apply Hf. Qed.

Lemma demo_view v :
  svc_inv v -> cat_room (sv_catalog v) -> lookup_ids (sv_catalog v) demo_ns demo_st = Some (1, 1) -> sv_cutoffs v = ∅ ->
  Forall (fun a => is_Some (log_read (st_db (sv_storage v)) a.2)) (entries_from (sv_storage v) 1 ∅ 0) -> view_ok demo_ns demo_st 1 1 ∅ v.
Proof. intros. split; try done. by apply demo_in_order. Qed.

Lemma demo_durable_grows g : durable_at (st_db (sv_storage demo_v1)) g = true -> durable_at (st_db (sv_storage demo_v2)) g = true.
Proof.
  assert (ls_durable (st_db (sv_storage demo_v1)) = [2]) as E1 by (by vm_compute). assert (ls_durable (st_db (sv_storage demo_v2)) = [3]) as E2 by (by vm_compute).
  assert (ls_bits (st_db (sv_storage demo_v1)) = 0) as E3 by (by vm_compute). assert (ls_bits (st_db (sv_storage demo_v2)) = 0) as E4 by (by vm_compute).
  unfold durable_at, below_cursor. rewrite E1, E2, E3, E4. clear. destruct (decode_record_id g 0) as [sh lc].
  destruct (Z.to_nat sh) as [|k]; cbn; [rewrite !Z.ltb_lt; lia|done].
Qed.

Lemma demo_growing : growing demo_ns demo_st 1 1 ∅ [demo_v1; demo_v2].
Proof.
  split.
  - constructor; [|constructor; [|constructor]].
    + apply demo_view; [apply demo_inv, demo_v1_steps|by split; vm_compute|by vm_compute|by vm_compute|]. vm_compute. repeat constructor; by eexists.
    + apply demo_view; [apply demo_inv, demo_v2_steps|by split; vm_compute|by vm_compute|by vm_compute|]. vm_compute. repeat constructor; by eexists.
  - intros [|[|k]] v v'; [|done|done]. intros [= <-] [= <-]. split; [exists [(3, 2)]; by vm_compute|].
    intros [q g] r. unfold record_of, log_read. cbn [snd]. destruct (durable_at (st_db (sv_storage demo_v1)) g) eqn:Ed; [|done].
    assert (forall gid, ls_hidden (st_db (sv_storage demo_v1)) gid = ∅ /\ ls_hidden (st_db (sv_storage demo_v2)) gid = ∅) as Hh by done.
    rewrite (proj1 (Hh g)), (proj2 (Hh g)). rewrite bool_decide_true by set_solver. cbn [andb].
    destruct (ls_written (st_db (sv_storage demo_v1)) !! g) as [raw|] eqn:Ew; [|done].
    assert (ls_written (st_db (sv_storage demo_v2)) !! g = Some raw) as ->.
    { eapply lookup_weaken; [exact Ew|]. apply (sg_written _ _ (proj1 (svc_steps_grow _ _ demo_v12_steps (demo_inv _ demo_v1_steps)))). }
    rewrite (demo_durable_grows g Ed). cbn [andb].
    assert (st_shard_bits (sv_storage demo_v2) = st_shard_bits (sv_storage demo_v1)) as Eb by (by vm_compute). rewrite Eb. exact (fun H => H).
Qed.

(** A first session takes two records and commits one; the stream grows; a second one
    takes the rest. *)
Lemma sessions_deliver_in_order_witness :
  exists rs, sessions NoAuth demo_client demo_ns demo_st Nat.even [(demo_v1, 2, 1); (demo_v2, 5, 5)]%nat (tracker_new true None) = Ok rs /\ d_seq <$> rs = [1; 2; 3].
Proof.
  destruct (sessions_deliver_in_order NoAuth demo_client demo_ns demo_st (demo_text 1) (demo_text 2) Nat.even 1 1 ∅ [(demo_v2, 5, 5)]%nat demo_v1 2 1 (tracker_new true None))
    as (rs & E & _ & H); [done|by vm_compute|by vm_compute|done|done|done|done|apply demo_growing|done|].
  exists rs. split; [exact E|]. clear E. rewrite H; [by vm_compute| |]; apply Nat.leb_le; by vm_compute.
Defined.
