(* ===== verification/Gateway.v ===== *)
(** * The broker's data path ([logdb-broker/src/forwarder.rs], [service.rs], [logdb-client/src/broker.rs])

    Producers publish through the broker, which appends to the server; consumers get
    records through the tails the broker opens, one for each of their shards.  The
    handlers run here against the server's; strings of the broker are bytes there. *)
From stdpp Require Import base gmap list numbers sorting strings.
From coqutil Require Import Byte.
From Stdlib Require Import ZArith Lia.
From S2P Require Import Prelude Externals RustStd Shard ByteReader ServerRecord StreamStore Catalog Lifecycle Publisher ServiceRun ServerTail ServerOffsets KeyProvider ServerStart ServerApi Client TailSession Coordinator BrokerService GroupConsumer.
Open Scope Z_scope.

Definition unstr (b : bytes) : string := String.string_of_list_byte b.

(** ** Producing *)

(** [ProduceRequest]; where a shard key routes the record is in the answer of the log. *)
Record ProduceRequest := mkProduce {
  pr_namespace : string;
  pr_stream : string;
  pr_event_type : string;
  pr_timestamp_ns : Z;
  pr_content_type : string;
  pr_metadata : gmap string string;
  pr_content : bytes;
}.

(** The request of [produce] to the server, and those of [batch_produce]. *)
Definition to_append_request (p : ProduceRequest) : AppendRequest :=
  mkAppendReq (str (pr_namespace p)) (str (pr_stream p)) (str (pr_event_type p)) (str (pr_content_type p)) (kmap str (str <$> pr_metadata p))
    (pr_timestamp_ns p) (pr_content p).

(** The broker's connection to the server carries no token. *)
Definition forwarder_header : option bytes := None.

Inductive BrokerStatus := NoForwarder | FromServer (e : ApiStatus).

Definition from_server {A} (r : result ApiStatus A) : result BrokerStatus A := match r with Ok a => Ok a | Err e => Err (FromServer e) end.

Section Data.
Context {ext : Externals} (i : AnyInterceptor).

(** [Forwarder::append], [append_batch] and [query_num_shards]. *)
Definition forwarder_append (answer : option Z) (r : AppendRequest) : Server -> result ApiStatus AppendResponse * Server :=
  call i forwarder_header (fun roles => on_service (rpc_append (Some roles) true answer r)).

Definition forwarder_append_batch (answers : list (option Z)) (rs : list AppendRequest) : Server -> result ApiStatus (list AppendResponse) * Server :=
  call i forwarder_header (fun roles => on_service (rpc_batch_append (Some roles) true answers rs)).

Definition query_num_shards (s : Server) : result ApiStatus Z * Server :=
  let '(r, s) := call i forwarder_header (fun _ => svc_status) s in
  (match r with Ok resp => Ok (sp_num_shards resp) | Err e => Err e end, s).

(** [produce]: the id and the number of the record. *)
Definition produce (forwarder : bool) (answer : option Z) (p : ProduceRequest) (s : Server) : result BrokerStatus (Z * Z) * Server :=
  if negb forwarder then (Err NoForwarder, s)
  else let '(r, s) := forwarder_append answer (to_append_request p) s in
       (match from_server r with Ok (_, _, seq, gid) => Ok (gid, seq) | Err e => Err e end, s).

(** [batch_produce]. *)
Definition batch_produce (forwarder : bool) (answers : list (option Z)) (ps : list ProduceRequest) (s : Server) : result BrokerStatus (list (Z * Z)) * Server :=
  if negb forwarder then (Err NoForwarder, s)
  else let '(r, s) := forwarder_append_batch answers (to_append_request <$> ps) s in
       (match from_server r with Ok l => Ok ((fun a : AppendResponse => (a.2, a.1.2)) <$> l) | Err e => Err e end, s).

(** [BrokerProducer::produce_full] and [produce]. *)
Definition produce_full (forwarder : bool) (answer : option Z) (ns st event_type : string) (content : bytes) (timestamp_ns : Z) (content_type : string) (metadata : gmap string string)
    : Server -> result BrokerStatus (Z * Z) * Server :=
  produce forwarder answer (mkProduce ns st event_type timestamp_ns content_type metadata content).

Definition producer_produce (forwarder : bool) (answer : option Z) (ns st event_type : string) (content : bytes) : Server -> result BrokerStatus (Z * Z) * Server :=
  produce_full forwarder answer ns st event_type content 0 "" ∅.

(** ** Forwarding *)

(** A record as the broker receives it. *)
Definition received (r : PbRecord) : LogdbdRecord :=
  mkLogdbdRecord (pb_namespace_id r) (pb_stream_id r) (pb_seq r) (unstr (pb_event_type r)) (pb_timestamp_ns r) (unstr (pb_content_type r))
    (kmap unstr (unstr <$> pb_metadata r)) (byte.unsigned <$> pb_content r).

(** The request of a shard's task. *)
Definition shard_tail_request (key : GroupKey) (shard from_seq : Z) : TailRequest :=
  mkTailReq (str (gk_namespace key)) (str (gk_stream key)) from_seq 500 [] [] [shard].

(** One task of [forward], at the server's present storage, for a consumer that takes
    [cap] frames. *)
Definition forward_shard (beat : nat -> bool) (key : GroupKey) (shard from_seq : Z) (cap : nat) (s : Server) : Channel :=
  match call i forwarder_header (fun _ => svc_tail true (shard_tail_request key shard from_seq)) s with
  | (Err _, _) => (ch_send (FError "") (mkChannel [] cap)).2
  | (Ok task, s) =>
      let v := se_svc s in
      let fuel := S (length (recs (sv_storage v) (tt_stream_id task) (tt_shard_ids task) (tt_from_seq task))) in
      let ms := tail_messages fuel beat (sv_storage v) (sv_cutoffs v) (tt_stream_id task) (tt_from_seq task) (tt_shard_ids task) (tt_batch_size task) in
      forward_stream ((fun m => inl (received ∘ decoded_to_pb <$> tr_records m)) <$> ms) shard false (mkChannel [] cap)
  end.

(** ** Strings go through unchanged *)

Lemma unstr_str x : unstr (str x) = x.
Proof. apply String.string_of_list_byte_of_string. Qed.

#[local] Instance str_inj : Inj eq eq str.
Proof. intros x y H. by rewrite <- (unstr_str x), H, unstr_str. Qed.

#[local] Instance unstr_inj : Inj eq eq unstr.
Proof. intros x y H. unfold unstr in H. by rewrite <- (String.list_byte_of_string_of_list_byte x), H, String.list_byte_of_string_of_list_byte. Qed.

Lemma metadata_back (m : gmap string string) : kmap (M2 := gmap string) unstr (unstr <$> kmap (M2 := gmap bytes) str (str <$> m)) = m.
Proof.
  apply map_eq. intros k. rewrite <- (unstr_str k) at 1. rewrite lookup_kmap, lookup_fmap, lookup_kmap, lookup_fmap by apply _.
  destruct (m !! k) as [v|]; [|done]. cbn. by rewrite unstr_str.
Qed.

(** ** What a shard's task sends *)

Lemma tail_frames_record ms shard b r :
  r ∈ carried ms -> FRecord (into_broker_record (received (decoded_to_pb r)) shard) ∈ tail_frames ((fun m => inl (received ∘ decoded_to_pb <$> tr_records m)) <$> ms) shard b.
Proof.
  revert b. induction ms as [|m ms IH]; intros b Hr; [by apply elem_of_nil in Hr|]. unfold carried in Hr. cbn [fmap list_fmap concat] in Hr.
  cbn [fmap list_fmap tail_frames]. apply elem_of_app in Hr as [Hr|Hr].
  - destruct (tr_heartbeat m); [by apply elem_of_nil in Hr|]. destruct (tr_records m) as [|x rs]; [by apply elem_of_nil in Hr|]. cbn [fmap list_fmap].
    apply elem_of_app. left. cbn [fmap list_fmap]. apply elem_of_cons in Hr as [->|Hr]; [left|right].
    apply (list_elem_of_fmap_2 (fun x => FRecord (into_broker_record x shard))). by apply (list_elem_of_fmap_2 (received ∘ decoded_to_pb)).
  - destruct (received ∘ decoded_to_pb <$> tr_records m); apply elem_of_app; right; by apply IH.
Qed.

(** A record of the stream in the log, at a state of the server that is kept well. *)
Lemma logged_is_due v gid raw r from :
  service_ok v -> ls_written (st_db (sv_storage v)) !! gid = Some raw -> decode_record raw = Ok r -> durable_at (st_db (sv_storage v)) gid = true ->
  gid ∉ ls_hidden (st_db (sv_storage v)) gid -> tomb_max (log_records (st_db (sv_storage v))) (d_stream_id r) < d_seq r -> from <= d_seq r ->
  let shard := (decode_record_id gid (ls_bits (st_db (sv_storage v)))).1 in
  with_shard (ls_bits (st_db (sv_storage v))) gid r ∈ due (sv_storage v) (d_stream_id r) {[shard]} (sv_cutoffs v) from.
Proof.
  intros Hok Hw Hd Hdur Hhid Hlive Hfrom shard. destruct (so_store v Hok) as (_ & Hb & Hm & _). cbn [fst] in Hm.
  assert (lookup2 (seq_map (sv_storage v)) (d_stream_id r) (d_seq r) = Some gid) as Hl.
  { apply Hm. exists r. split; [|done]. apply rec_in_log. by exists raw. }
  unfold due. apply list_elem_of_filter. split.
  { cbn [with_shard d_seq]. unfold is_live. rewrite (so_cut v Hok). by apply Z.ltb_lt. }
  apply list_elem_of_omap. exists (d_seq r, gid). split.
  - unfold entries_from. apply list_elem_of_filter. split.
    + cbn [fst snd]. split; [done|]. unfold wanted. rewrite Hb. fold shard. rewrite (bool_decide_true (shard ∈ {[shard]})) by set_solver. apply orb_true_r.
    + unfold ascending_list. rewrite sort_by_key_perm. apply elem_of_map_to_list. unfold lookup2 in Hl.
      destruct (seq_map (sv_storage v) !! d_stream_id r) as [m|]; [exact Hl|done].
  - unfold record_of, log_read. cbn [snd]. rewrite Hdur, bool_decide_true by done. cbn [andb]. rewrite Hw. cbn [mbind option_bind]. rewrite Hd, Hb. done.
Qed.

(** The task of its shard sends it. *)
Lemma forward_shard_sends beat key from s gid raw r nid :
  service_ok (se_svc s) -> cat_room (sv_catalog (se_svc s)) -> call_interceptor i None = Some [Admin] ->
  validate_namespace_name (str (gk_namespace key)) = true -> validate_stream_name (str (gk_stream key)) = true ->
  lookup_ids (sv_catalog (se_svc s)) (str (gk_namespace key)) (str (gk_stream key)) = Some (nid, d_stream_id r) ->
  let d := st_db (sv_storage (se_svc s)) in
  let shard := (decode_record_id gid (ls_bits d)).1 in
  ls_written d !! gid = Some raw -> decode_record raw = Ok r -> durable_at d gid = true -> gid ∉ ls_hidden d gid ->
  tomb_max (log_records d) (d_stream_id r) < d_seq r -> 0 <= from <= d_seq r -> in_order (sv_storage (se_svc s)) (d_stream_id r) {[shard]} ->
  exists cap0, forall cap, (cap0 <= cap)%nat ->
    FRecord (into_broker_record (received (decoded_to_pb (with_shard (ls_bits d) gid r))) shard) ∈ ch_sent (forward_shard beat key shard from cap s).
Proof.
  intros Hok Hroom Hint V1 V2 Hl d shard Hw Hd Hdur Hhid Hlive Hfrom Ho. unfold forward_shard, call, forwarder_header. rewrite Hint.
  unfold svc_tail, on_service, by_name, shard_tail_request. cbn [tq_namespace tq_stream tq_from_seq tq_batch_size tq_consumer_group tq_consumer_id tq_shard_ids].
  unfold svc_resolve. pose proof (resolve_ok true (str (gk_namespace key)) (str (gk_stream key)) (sv_catalog (se_svc s)) (sv_catfile (se_svc s)) (proj1 (so_cat _ Hok)) Hroom) as R.
  destruct (Catalog.resolve true (str (gk_namespace key)) (str (gk_stream key)) _ _) as [[x cat] f]. destruct R as (_ & _ & R1 & R2 & R). rewrite V1, V2 in R.
  destruct R as [(_ & _ & _ & ?)|(_ & (ids & -> & Hids) & _)]; [done|]. rewrite (lookup_ids_mono _ _ _ _ _ R1 R2 Hl) in Hids. injection Hids as <-.
  cbn [api with_svc se_svc with_catalog sv_storage sv_cutoffs tt_stream_id tt_from_seq tt_shard_ids tt_batch_size list_to_set].
  assert (tail_from from [] [] (get (str (gk_namespace key), str (gk_stream key), [], []) (se_tracker s)) = from) as ->.
  { unfold tail_from. rewrite (bool_decide_true ([] = [])) by done. by rewrite andb_false_r. }
  rewrite union_empty_r_L. set (ms := tail_messages _ _ _ _ _ _ _ _).
  assert (with_shard (ls_bits d) gid r ∈ carried ms) as Hin.
  { unfold ms. rewrite tail_messages_due; [apply (logged_is_due (se_svc s) gid raw r from); (done || apply Hfrom)|apply (so_store _ Hok)|done|cbn; lia|lia|lia]. }
  exists (length (tail_frames ((fun m => inl (received ∘ decoded_to_pb <$> tr_records m)) <$> ms) shard false)). intros cap Hcap.
  rewrite forward_stream_delivers. unfold deliver. cbn [ch_sent ch_cap app]. rewrite take_ge by done. by apply tail_frames_record.
Qed.

(** ** From the producer to one consumer *)

Lemma produce_answered forwarder answer p s gid seq s1 :
  svc_inv (se_svc s) -> user_req (to_append_request p) -> answer_ok (se_svc s) answer -> seqs_below 1 (se_svc s) -> cat_room (sv_catalog (se_svc s)) ->
  call_interceptor i None = Some [Admin] -> produce forwarder answer p s = (Ok (gid, seq), s1) ->
  svc_inv (se_svc s1) /\ validate_namespace_name (str (pr_namespace p)) = true /\ validate_stream_name (str (pr_stream p)) = true /\
  exists nid sid raw, lookup_ids (sv_catalog (se_svc s1)) (str (pr_namespace p)) (str (pr_stream p)) = Some (nid, sid) /\
    ls_written (st_db (sv_storage (se_svc s1))) !! gid = Some raw /\
    exists r, decode_record raw = Ok r /\ d_stream_id r = sid /\ d_seq r = seq /\ forall bits, decoded_to_pb (with_shard bits gid r) = appended nid sid seq (to_append_request p).
Proof.
  intros Hinv Hreq Ha Hseq Hroom Hint E. unfold produce in E. destruct forwarder; [|done]. cbn [negb] in E. unfold forwarder_append, call, forwarder_header in E. rewrite Hint in E.
  unfold on_service in E. pose proof (append_inv (Some [Admin]) answer (to_append_request p) (se_svc s) Hinv Hreq Ha Hseq Hroom) as Hinv1.
  destruct (rpc_append (Some [Admin]) true answer (to_append_request p) (se_svc s)) as [[[[[nid sid] q] g]|e] v1] eqn:Ea; [|done]. cbn in E. injection E as -> -> <-.
  destruct (rpc_append_answered _ _ _ _ _ _ _ _ _ Hinv Hreq Hseq Hroom Ea) as (V1 & V2 & Hl & raw & Hw & Hd). split_and!; [done|done|done|].
  exists nid, sid, raw. split; [done|]. split; [done|]. eexists. split; [exact Hd|]. split; [done|]. split; [done|]. intros bits.
  unfold decoded_to_pb, appended. cbn [with_shard d_namespace_id d_stream_id d_seq d_event_type d_timestamp_ns d_content_type d_metadata d_user_content].
  by rewrite to_hashmap_to_btree.
Qed.

(** The number of shards is the one the broker started with. *)
Lemma evict_shards s kc : sv_forwarder s = true -> reg_num_shards (sv_registry (evict s kc)) = reg_num_shards (sv_registry s).
Proof.
  intros Hf. destruct (drop_session_same kc.1 kc.2 s) as [D1 D2]. unfold evict. rewrite rebalance_registry by (by rewrite <- Hf).
  cbn [with_registry sv_registry]. rewrite D1. apply (apply_registry_shards (sv_registry s) (RLeave kc.1 kc.2)).
Qed.

Lemma service_step_shards s op : service_inv s -> reg_num_shards (sv_registry (service_step s op)) = reg_num_shards (sv_registry s).
Proof.
  intros Hs. destruct (Hs) as (Hf & _). destruct op as [rd key c|rd key c|rd now key c gen|rd now key c gen|key sh q|now t|key c|key c|key c]; cbn [service_step].
  - destruct (join_group_registry rd key c s Hf) as [->| ->]; [done|]. apply (apply_registry_shards _ (RJoin key c)).
  - destruct (leave_group_registry rd key c s Hf) as [->| ->]; [done|]. apply (apply_registry_shards _ (RLeave key c)).
  - by rewrite consume_registry.
  - unfold heartbeat. destruct rd; [done|]. by destruct (sessions_get _ _ _).
  - apply (apply_registry_shards _ (RCommit key sh q)).
  - unfold evict_stale. generalize (stale_consumers now t (sv_sessions s)). intros l. clear Hf. revert s Hs.
    induction l as [|kc l IH]; intros s Hs; [done|]. cbn [foldl]. rewrite IH by (by apply evict_inv). apply evict_shards, Hs.
  - unfold forward_ended. cbn [with_sessions sv_registry]. by rewrite (proj1 (leave_tasks_same key c ss_detached s)).
  - done.
  - done.
Qed.

Lemma run_service_shards num_shards ops : 0 <= num_shards -> reg_num_shards (sv_registry (run_service num_shards ops)) = num_shards.
Proof.
  intros H0. induction ops as [|op ops IH] using rev_ind; [done|]. unfold run_service in *. rewrite foldl_app. cbn [foldl].
  rewrite service_step_shards; [done|]. by apply (run_service_inv num_shards ops).
Qed.

(** The member that has a shard, and its task. *)
Lemma shard_has_one_task num_shards ops key shard :
  0 <= shard < num_shards ->
  let b := run_service num_shards ops in
  let g := get_group (sv_registry b) key in
  members g <> [] -> (forall c, c ∈ members g -> is_Some (sessions_get (sv_sessions b) key c)) ->
  exists c h task from, c ∈ members g /\ sessions_get (sv_sessions b) key c = Some h /\ ss_forward h = Some task /\ task !! shard = Some from /\
    0 <= from <= registry_shard_offset (sv_registry b) key shard + 1 /\
    forall c', c' ∈ members g -> current b key c' shard <-> c' = c.
Proof.
  intros Hsh b g Hne Hopen. destruct (run_service_inv num_shards ops ltac:(lia)) as (_ & [_ Hr] & Hs). fold b in Hr, Hs. destruct (Hr key) as (Hg & HN & _). fold g in Hg, HN.
  assert (reg_num_shards (sv_registry b) = num_shards) as En by (apply run_service_shards; lia). destruct (Hg) as (_ & Hdom & Hrows). destruct (Hrows Hne) as [Hp _].
  assert (shard ∈ concat (rows (members g) (assignments g))) as Hin by (rewrite Hp, HN, En; apply elem_of_seqZ; lia).
  apply elem_of_rows in Hin as (c & l & _ & E & Hl). change (assigned g c = Some l) in E.
  assert (c ∈ members g) as Hc by (apply Hdom; unfold assigned in E; by rewrite E).
  destruct (Hopen c Hc) as [h Hh]. pose proof (Hs key c h Hh Hc) as Ht. fold g in Ht. rewrite E in Ht. cbn [from_option Datatypes.id] in Ht.
  destruct (ss_forward h) as [task|] eqn:Ef; [|cbn in Ht; subst l; by apply elem_of_nil in Hl]. destruct Ht as [T1 T2].
  destruct (proj2 (T1 shard) Hl) as [from Hf]. exists c, h, task, from. split_and!; try done; [by apply (T2 shard)..|].
  intros c' Hc'. split; [|intros ->; by exists h, task]. intros Hcur. apply (current_unique num_shards ops key c' c shard); [lia|done..|by exists h, task].
Qed.

(** The record a consumer gets for what was produced. *)
Definition consumed (nid sid seq shard : Z) (p : ProduceRequest) : BrokerRecord :=
  mkBrokerRecord nid sid seq (pr_event_type p) (pr_timestamp_ns p) (if bool_decide (pr_content_type p = "") then "application/json" else pr_content_type p)
    (pr_metadata p) (byte.unsigned <$> pr_content p) shard.

Lemma consumed_back nid sid seq shard p : into_broker_record (received (appended nid sid seq (to_append_request p))) shard = consumed nid sid seq shard p.
Proof.
  unfold into_broker_record, received, consumed, appended, to_append_request.
  cbn [pb_namespace_id pb_stream_id pb_seq pb_event_type pb_timestamp_ns pb_content_type pb_metadata pb_content ar_event_type ar_timestamp_ns ar_content_type ar_metadata ar_content
    lr_namespace_id lr_stream_id lr_seq lr_event_type lr_timestamp_ns lr_content_type lr_metadata lr_content].
  rewrite unstr_str, metadata_back. f_equal. destruct (decide (pr_content_type p = "")) as [->|Hne]; [by vm_compute|].
  rewrite !bool_decide_false; [apply unstr_str|done|]. intros H. apply Hne. by rewrite <- (unstr_str (pr_content_type p)), H.
Qed.


End Data.

(** ** Witness *)

#[local] Existing Instance client_externals.
Local Open Scope string_scope.

Definition demo_produce : ProduceRequest := mkProduce "ns" "st" "order" 7 "" {["k" := "v"]} (str "body").
Definition demo_produced : result BrokerStatus (Z * Z) * Server := produce NoAuth true (Some 2) demo_produce (demo_server demo_v1).
Definition demo_durable2 : Server := with_svc (demo_durable_log [3] (se_svc demo_produced.2)) demo_produced.2.
Definition demo_group : BrokerService.Service := run_service 2 demo_two.

Lemma demo_produced_ok : produce NoAuth true (Some 2) demo_produce (demo_server demo_v1) = (Ok (2, 1), demo_produced.2).
Proof. change (demo_produced = (Ok (2, 1), demo_produced.2)). rewrite (surjective_pairing demo_produced) at 1. apply (f_equal (fun x => (x, demo_produced.2))). by vm_compute. Qed.

Lemma demo_durable2_order : in_order (sv_storage (se_svc demo_durable2)) 2 {[0]}.
Proof.
  intros a b Ha _ _ _. assert (entries_from (sv_storage (se_svc demo_durable2)) 2 {[0]} 0 = [(1, 2)]) as E by (by vm_compute). rewrite E in Ha.
  apply list_elem_of_singleton in Ha as ->. eexists. by vm_compute.
Qed.

Lemma demo_shard : (decode_record_id 2 (ls_bits (st_db (sv_storage (se_svc demo_durable2))))).1 = 0.
Proof. by vm_compute. Qed.

Lemma demo_members : members (get_group (sv_registry demo_group) demo_key) = ["a"; "b"].
Proof. by vm_compute. Qed.

Lemma demo_open c : c ∈ members (get_group (sv_registry demo_group) demo_key) -> is_Some (sessions_get (sv_sessions demo_group) demo_key c).
Proof. rewrite demo_members. intros Hc. apply elem_of_cons in Hc as [->|Hc]; [eexists; by vm_compute|]. apply list_elem_of_singleton in Hc as ->. eexists. by vm_compute. Qed.

