(* ===== verification/BrokerStart.v ===== *)
(** * The start of a broker ([logdb-broker/src/config.rs], [main.rs])

    Configuration, the embedded server, the number of shards and the recovery of the
    offsets, up to the point where the broker serves.  YAML, addresses and connections
    are parameters. *)
From stdpp Require Import base gmap list numbers sorting strings.
From coqutil Require Import Byte.
From Stdlib Require Import ZArith Lia.
From S2P Require Import Prelude Externals RustStd Shard ByteReader ServerRecord StreamStore Catalog Lifecycle Publisher ServiceRun ServerTail ServerOffsets KeyProvider ServerStart ServerApi Client TailSession Coordinator OffsetLog BrokerService GroupConsumer Gateway.
Local Open Scope string_scope.
Open Scope Z_scope.


(** ** Configuration *)

Record BrokerConfig := mkBrokerConfig {
  bc_bind_addr : string;
  bc_broker_id : string;
  bc_logdbd_addr : string;
  bc_embedded : bool;
  bc_data_dir : option string;
  bc_num_shards : Z;
  bc_metrics_addr : option string;
  bc_session_timeout_ms : Z;
}.

Definition default_broker_id : string := "broker-1".

Definition broker_config_default : BrokerConfig :=
  mkBrokerConfig "127.0.0.1:9091" default_broker_id "http://127.0.0.1:9090" false None 1 None 0.

(** [load_config]: [None] is a panic; the variable, the files and the YAML reader are
    parameters. *)
Definition load_broker_config (var : option string) (file : string -> option bytes) (parse : bytes -> option BrokerConfig) : option BrokerConfig :=
  match var with
  | Some path => if str_empty path then Some broker_config_default else file path ≫= parse
  | None => Some broker_config_default
  end.

Inductive StartError := BadAddress | EmbeddedFailed | NoConnection | MetaFailed.

Section Start.
Context {ext : Externals}.
Context (decode_offset : list Z -> option OffsetRecord) (encode_snapshot : list OffsetRecord -> list Z) (decode_snapshot : list Z -> option (list OffsetRecord)).
Context (entries : OffsetState -> list ((string * string * string * Z) * Z)).

(** What the machine does for a starting broker: which addresses parse, the log in the
    data directory for a number of shards, its catalog file, the address an embedded
    server is bound to, and the server at an address, if there is one. *)
Record Surroundings := mkSurroundings {
  su_is_addr : string -> bool;
  su_open_log : string -> Z -> option LogState;
  su_catfile : string -> option bytes;
  su_bound : string -> option string;
  su_server : string -> option (AnyInterceptor * Server);
}.

(** [LogDbServiceImpl::new] as [start_embedded_logdbd] uses it: no quotas, and empty
    trackers. *)
Definition embedded_service (db : LogState) (num_shards : Z) (catfile : option bytes) : result CatalogError Lifecycle.Service :=
  c ← catalog_open catfile; Ok (Lifecycle.mkService (storage_new db num_shards) c catfile [] true ∅ ∅).

(** [start_embedded_logdbd]: its address and the server. *)
Definition start_embedded_logdbd (su : Surroundings) (c : BrokerConfig) : result StartError (string * Server) :=
  if negb (su_is_addr su (bc_logdbd_addr c)) then Err BadAddress
  else
    let data_dir := default "./data" (bc_data_dir c) in
    match su_open_log su data_dir (bc_num_shards c) with
    | None => Err EmbeddedFailed
    | Some db =>
        match embedded_service db (bc_num_shards c) (su_catfile su data_dir) with
        | Err _ => Err EmbeddedFailed
        | Ok v => match su_bound su (bc_logdbd_addr c) with
                  | None => Err EmbeddedFailed
                  | Some addr => Ok (addr, mkServer v (tracker_new false None) (str "embedded-logdbd") (str "primary"))
                  end
        end
    end.

(** The server the broker works with, and its address. *)
Definition broker_server (su : Surroundings) (c : BrokerConfig) : result StartError (string * (AnyInterceptor * Server)) :=
  if bc_embedded c then
    a ← start_embedded_logdbd su c; Ok ("http://" +:+ a.1, (NoAuth, a.2))
  else match su_server su (bc_logdbd_addr c) with Some s => Ok (bc_logdbd_addr c, s) | None => Err NoConnection end.

(** The number of shards: the server's when it says one. *)
Definition discover_num_shards (c : BrokerConfig) (answer : result ApiStatus Z) : Z :=
  match answer with Ok n => if 0 <? n then n else bc_num_shards c | Err _ => bc_num_shards c end.

(** A broker that serves. *)
Record RunningBroker := mkRunning {
  rb_service : BrokerService.Service;
  rb_meta : list MetaRecord;
  rb_logdbd_addr : string;
  rb_timeout : option Z;
}.

(** [run], up to serving; [meta] is the content of the meta stream, if it can be made and
    read, [found] tells which of its records the scan finds, and [a] is the answer to the
    append of the snapshot. *)
Definition broker_run (su : Surroundings) (c : BrokerConfig) (meta : option (list MetaRecord)) (found : Z -> bool) (a : MetaAnswer) : result StartError RunningBroker :=
  if negb (su_is_addr su (bc_bind_addr c)) then Err BadAddress
  else
    s ← broker_server su c;
    let '(addr, (i, server)) := s in
    let num_shards := discover_num_shards c (query_num_shards i server).1 in
    match meta with
    | None => Err MetaFailed
    | Some log =>
        let b := broker_start decode_offset encode_snapshot decode_snapshot entries num_shards found a log in
        Ok (mkRunning (BrokerService.mkService (br_registry b) ∅ true []) (br_log b) addr
              (if 0 <? bc_session_timeout_ms c then Some (bc_session_timeout_ms c) else None))
    end.

(** ** Theorems *)

Lemma commit_all_shards (l : list OffsetRecord) r :
  reg_num_shards (foldl (fun reg o => (registry_commit_offset (mkGroupKey (or_ns o) (or_stream o) (or_group o)) (or_shard o) (or_seq o) reg).2) r l) = reg_num_shards r.
Proof.
  revert r. induction l as [|o l IH]; intros r; [done|]. cbn [foldl]. rewrite IH. apply (apply_registry_shards r (RCommit _ _ _)).
Qed.

Context (decode_encode_snapshot : forall l, decode_snapshot (encode_snapshot l) = Some l).
Context (entries_perm : forall st, entries st ≡ₚ map_to_list st).

(** A broker serves as many shards as its server has: the configured number counts only
    when the server refuses the question or has none.  Its groups start with the offsets
    of the meta stream. *)
Theorem broker_serves_servers_shards (su : Surroundings) (c : BrokerConfig) (meta : list MetaRecord) (found : Z -> bool) (a : MetaAnswer) (b : RunningBroker) (i : AnyInterceptor) (addr : string) (server : Server) :
  broker_server su c = Ok (addr, (i, server)) -> broker_run su c (Some meta) found a = Ok b -> nonneg (replay decode_offset decode_snapshot (scan_raw_meta found meta)) ->
  reg_num_shards (sv_registry (rb_service b)) =
    (if bool_decide (is_Some (call_interceptor i None)) && (0 <? wrap 32 (st_num_shards (sv_storage (se_svc server))))
     then wrap 32 (st_num_shards (sv_storage (se_svc server))) else bc_num_shards c) /\
  (forall key shard, registry_shard_offset (sv_registry (rb_service b)) key shard = offset_in (replay decode_offset decode_snapshot (scan_raw_meta found meta)) key shard).
Proof.
  intros Es E Hnn. unfold broker_run in E. destruct (su_is_addr su (bc_bind_addr c)); [|done]. cbn [negb] in E. rewrite Es in E. cbn [mbind result_bind] in E.
  injection E as <-. cbn [rb_service sv_registry]. split.
  - unfold broker_start. cbn [br_registry]. rewrite commit_all_shards. cbn [registry_new reg_num_shards].
    unfold discover_num_shards, query_num_shards, call, forwarder_header. destruct (call_interceptor i None) as [roles|]; [|done].
    rewrite bool_decide_true by done. cbn [fst andb sp_num_shards svc_status]. by destruct (0 <? _).
  - exact (broker_start_tracks decode_offset encode_snapshot decode_snapshot entries entries_perm _ found a meta Hnn).
Qed.

End Start.

(** ** Where the embedded server falls short *)

#[local] Existing Instance client_externals.

(** The embedded server starts with empty trackers: a stream that was deleted before a
    restart is back. *)
Theorem embedded_restart_undeletes :
  let v := demo_durable_log [3] (rpc_delete_stream None true (Some 2) demo_ns demo_st demo_v1).2 in
  let d := mkLog (ls_written (st_db (sv_storage v))) [3] [3] 0 in
  demo_found 1 v = None /\
  match embedded_service d 1 (sv_catfile v) with Ok w => demo_found 1 w = Some 1 | Err _ => False end /\
  match service_start (storage_new d 1) (sv_catfile v) [] true with Ok w => demo_found 1 w = None | Err _ => False end.
Proof. by vm_compute. Qed.
