(* ===== verification/ExporterStart.v ===== *)
(** * The start of the exporter ([logdb-exporter/src/config.rs], [main.rs])

    What a configuration file gives, section by section, the settings made of it, their
    check and the choice of the sink.  The YAML reader is a parameter that says which
    sections and fields the file has. *)
From stdpp Require Import base gmap list numbers strings.
From Stdlib Require Import ZArith Lia.
From S2P Require Import Prelude.
Local Open Scope string_scope.
Open Scope Z_scope.

(** ** What the file says *)

Inductive TlsMode := TlsDisabled | TlsOn | TlsMutual.
Record RawTls := mkRawTls { rt_mode : option TlsMode; rt_cert_file : option string; rt_key_file : option string; rt_ca_file : option string }.
Record RawClickHouse := mkRawClickHouse {
  rc_url : option string; rc_database : option string; rc_table : option string; rc_batch_size : option Z; rc_flush_interval_ms : option Z;
}.
Record RawConfig := mkRawConfig {
  rw_exporter_id : option string;
  rw_addrs : list string;
  rw_prefer_primary : option bool;
  rw_tls : option RawTls;
  rw_scope : option (option string * option string);
  rw_sink_type : string;
  rw_stdout : option (option string);
  rw_clickhouse : option RawClickHouse;
  rw_progress : option (option string * option Z);
  rw_report : option (option bool * option Z);
  rw_pipeline : option (option Z * option Z);
}.

(** ** The settings *)

Record TlsConfig := mkTlsConfig { tc_mode : TlsMode; tc_cert_file : option string; tc_key_file : option string; tc_ca_file : option string }.
Record SourceConfig := mkSourceConfig { so_addrs : list string; so_prefer_primary : bool; so_tls : TlsConfig }.
Record ScopeConfig := mkScope { sc_namespace : string; sc_stream : string }.
Record ClickHouseConfig := mkClickHouseConfig {
  ck_url : string; ck_database : string; ck_table : string; ck_batch_size : Z; ck_flush_interval_ms : Z;
}.
Record SinkConfig := mkSinkConfig { sk_type : string; sk_stdout_format : string; sk_clickhouse : ClickHouseConfig }.
Record ProgressConfig := mkProgressConfig { pg_file : string; pg_checkpoint_interval_ms : Z }.
Record ReportProgressConfig := mkReport { rp_enabled : bool; rp_interval_ms : Z }.
Record PipelineConfig := mkPipelineConfig { pl_scan_batch_size : Z; pl_tail_batch_size : Z }.
Record ExporterConfig := mkExporterConfig {
  ec_exporter_id : string;
  ec_source : SourceConfig;
  ec_scope : ScopeConfig;
  ec_sink : SinkConfig;
  ec_progress : ProgressConfig;
  ec_report : ReportProgressConfig;
  ec_pipeline : PipelineConfig;
}.

(** The defaults of fields. *)
Definition default_exporter_id : string := "logdb-exporter".
Definition default_progress_file : string := "/var/lib/logdb-exporter/progress.dat".
Definition default_checkpoint_interval_ms : Z := 1000.
Definition default_report_interval_ms : Z := 5000.
Definition default_json_line : string := "json_line".
Definition default_tls_mode : TlsMode := TlsDisabled.
Definition default_batch_size : Z := 10000.
Definition default_flush_interval_ms : Z := 5000.
Definition default_scan_batch : Z := 10000.
Definition default_tail_batch : Z := 1000.

(** A section that is there has the defaults of its fields; one that is missing is the
    [Default] of its type, which but for [PipelineConfig] is the derived one. *)
Definition tls_config (r : option RawTls) : TlsConfig :=
  match r with
  | None => mkTlsConfig TlsDisabled None None None
  | Some r => mkTlsConfig (default default_tls_mode (rt_mode r)) (rt_cert_file r) (rt_key_file r) (rt_ca_file r)
  end.

Definition stdout_format (r : option (option string)) : string := match r with None => "" | Some f => default default_json_line f end.

Definition clickhouse_config (r : option RawClickHouse) : ClickHouseConfig :=
  match r with
  | None => mkClickHouseConfig "" "" "" 0 0
  | Some r => mkClickHouseConfig (default "" (rc_url r)) (default "" (rc_database r)) (default "" (rc_table r))
                (default default_batch_size (rc_batch_size r)) (default default_flush_interval_ms (rc_flush_interval_ms r))
  end.

Definition progress_config (r : option (option string * option Z)) : ProgressConfig :=
  match r with
  | None => mkProgressConfig "" 0
  | Some (file, ms) => mkProgressConfig (default default_progress_file file) (default default_checkpoint_interval_ms ms)
  end.

Definition report_config (r : option (option bool * option Z)) : ReportProgressConfig :=
  match r with
  | None => mkReport false 0
  | Some (enabled, ms) => mkReport (default false enabled) (default default_report_interval_ms ms)
  end.

Definition pipeline_config (r : option (option Z * option Z)) : PipelineConfig :=
  match r with
  | None => mkPipelineConfig 10000 1000
  | Some (scan, tail) => mkPipelineConfig (default default_scan_batch scan) (default default_tail_batch tail)
  end.

Definition scope_config (r : option (option string * option string)) : ScopeConfig :=
  match r with None => mkScope "" "" | Some (ns, st) => mkScope (default "" ns) (default "" st) end.

Definition exporter_config (r : RawConfig) : ExporterConfig :=
  mkExporterConfig (default default_exporter_id (rw_exporter_id r))
    (mkSourceConfig (rw_addrs r) (default true (rw_prefer_primary r)) (tls_config (rw_tls r)))
    (scope_config (rw_scope r)) (mkSinkConfig (rw_sink_type r) (stdout_format (rw_stdout r)) (clickhouse_config (rw_clickhouse r)))
    (progress_config (rw_progress r)) (report_config (rw_report r)) (pipeline_config (rw_pipeline r)).

Inductive StartError := EUsage | ERead | EParse | ENoAddrs | EUnknownSink (name : string).

(** [validate] and [load]. *)
Definition validate (c : ExporterConfig) : result StartError unit := if bool_decide (so_addrs (ec_source c) = []) then Err ENoAddrs else Ok tt.

Definition exporter_load (file : string -> option string) (parse : string -> option RawConfig) (path : string) : result StartError ExporterConfig :=
  raw ← match file path with Some s => Ok s | None => Err ERead end;
  r ← match parse raw with Some r => Ok r | None => Err EParse end;
  _ ← validate (exporter_config r);
  Ok (exporter_config r).

Inductive SinkChoice := StdoutChoice | ClickHouseChoice (c : ClickHouseConfig) (namespace stream : string).

(** [main], up to the pipeline: the settings and the sink it runs with. *)
Definition exporter_main (file : string -> option string) (parse : string -> option RawConfig) (arg : option string) : result StartError (ExporterConfig * SinkChoice) :=
  path ← match arg with Some p => Ok p | None => Err EUsage end;
  config ← exporter_load file parse path;
  if bool_decide (sk_type (ec_sink config) = "stdout") then Ok (config, StdoutChoice)
  else if bool_decide (sk_type (ec_sink config) = "clickhouse") then Ok (config, ClickHouseChoice (sk_clickhouse (ec_sink config)) (sc_namespace (ec_scope config)) (sc_stream (ec_scope config)))
  else Err (EUnknownSink (sk_type (ec_sink config))).

(** ** Theorems *)

(** The exporter starts exactly with a file that can be read and parsed, has an address
    and names one of the two sinks; the sink is then the one named. *)
Theorem exporter_starts_when (file : string -> option string) (parse : string -> option RawConfig) (path : string) (c : ExporterConfig) (s : SinkChoice) :
  exporter_main file parse (Some path) = Ok (c, s) <->
  exists raw r, file path = Some raw /\ parse raw = Some r /\ c = exporter_config r /\ rw_addrs r <> [] /\
    ((rw_sink_type r = "stdout" /\ s = StdoutChoice) \/
     (rw_sink_type r = "clickhouse" /\ s = ClickHouseChoice (sk_clickhouse (ec_sink c)) (sc_namespace (ec_scope c)) (sc_stream (ec_scope c)))).
Proof.
  unfold exporter_main, exporter_load, validate. cbn [mbind result_bind]. split.
  - destruct (file path) as [raw|] eqn:Ef; [|done]. cbn [mbind result_bind]. destruct (parse raw) as [r|] eqn:Ep; [|done]. cbn [mbind result_bind].
    case_bool_decide as Ha; [done|]. cbn [mbind result_bind ec_sink sk_type exporter_config]. intros H. exists raw, r.
    case_bool_decide as H1; [injection H as <- <-|case_bool_decide as H2; [injection H as <- <-|done]]; split_and!; try done; [by left|by right].
  - intros (raw & r & Ef & Ep & -> & Ha & Hs). rewrite Ef. cbn [mbind result_bind]. rewrite Ep. cbn [mbind result_bind]. rewrite bool_decide_false by done.
    cbn [mbind result_bind ec_sink sk_type exporter_config]. destruct Hs as [[-> ->]|[-> ->]]; done.
Qed.

(** ** Where the configuration falls short *)

(** Without a [progress] section the file of the progress has the empty name and the
    interval is 0; an empty section gives the documented values.  The same holds for the
    batch size of the sink. *)
Theorem missing_section_loses_defaults :
  progress_config None = mkProgressConfig "" 0 /\ progress_config (Some (None, None)) = mkProgressConfig "/var/lib/logdb-exporter/progress.dat" 1000 /\
  ck_batch_size (clickhouse_config None) = 0 /\ ck_batch_size (clickhouse_config (Some (mkRawClickHouse None None None None None))) = 10000.
Proof. done. Qed.
